(* ===== verification/_CoqProject ===== *)
-Q . S2P
Prelude.v
ValidityMask.v
NumericStats.v
TableFilter.v
ScanFilter.v
ValiditySegment.v
ChunkInfo.v
CatalogSet.v
CatalogHistory.v
CatalogUndo.v
CatalogRun.v
RowVersionManager.v
TransactionManager.v
StorageLock.v
LimitPlan.v
Date.v
UpdateKind.v
UpdateSegment.v
UpdateSnapshot.v
SegmentTree.v
RowGroup.v
RowGroupCollection.v
DataTable.v
TableScan.v
ColumnData.v
StandardColumn.v
StoredTable.v
LocalStorage.v
UndoBuffer.v
TransactionState.v
DuckTransaction.v
CommitOutcome.v
TransactionRun.v
