(* ===== verification/Prelude.v ===== *)
(** * Verification of iPDB's storage engine, transactions and limit optimizations

    iPDB (duckml) is a fork of the analytical database DuckDB with operators that call models.  This
    development models the parts of the engine that decide which rows a query may see: row versions,
    transactions, updates, tables, their columns and filters, catalog sets and the undo information; with
    them NULL bitmaps, dates, and the limit optimizations that iPDB adds for its prediction operators.

    * The program

    A query passes through the parser, the binder, the optimizer and the physical operators
    (src/src/parser, planner, optimizer, execution) and reads tables of the storage layer
    (src/src/storage) inside a transaction (src/src/transaction).  A table ([DataTable]) owns a
    [RowGroupCollection], a tree of row groups ([SegmentTree]); a row group holds columns and, in a
    [RowVersionManager], one [ChunkInfo] per vector of 2048 rows with the ids of the transactions
    that inserted and deleted the rows.  A column with updates has an [UpdateSegment], chains of the
    values that transactions overwrote.  Rows that a transaction appends stay in its [LocalStorage]
    until it commits.  What a commit or a rollback has to do is in the [UndoBuffer] of the
    transaction; the [DuckTransactionManager] gives out the timestamps and decides when undo
    information may be dropped.

    * The files

    Each file has a Module of its own name; definitions keep the names of the code.

    - Prelude.v: integers of a fixed width, the error monads [result] and [ST], arrays, byte streams.
    - ValidityMask.v: common/types/validity_mask.{hpp,cpp}; a mask is an optional list of 64-bit
      words, its view the validity of each row ([RowIsValid]).
    - NumericStats.v: storage/statistics/numeric_stats.cpp and the numeric part of base_statistics.cpp;
      the types of the values are behind the class [Comparison] with [CompareLaws].
    - TableFilter.v: the filters of planner/filter on one column, their zone maps and
      [ColumnSegment::FilterSelection] (storage/table/column_segment.cpp); view: [holds] of a row.
    - ScanFilter.v: the filters of a scan (storage/table/scan_state.cpp, execution/adaptive_filter.cpp,
      the zone maps and the filter loop of storage/table/row_group.cpp).
    - ValiditySegment.v: storage/compression/validity_uncompressed.cpp; view: the NULLs of its rows
      ([rows]).
    - ChunkInfo.v: storage/table/chunk_info.cpp; the visibility rule, constant and vector infos.
    - RowVersionManager.v: storage/table/row_version_manager.cpp; view: the ids of each row
      ([row_ids]).
    - SegmentTree.v: storage/table/segment_tree.hpp; view: the list of segments, loaded or not.
    - RowGroup.v: storage/table/row_group.cpp, its rows and versions; the columns are behind the type
      classes [Columns] and [ColumnLaws].
    - ColumnData.v: storage/table/column_data.cpp, a column of transient segments of any kind; the
      segments are behind [SegmentOps] and [SegmentLaws]; view: the list of values ([column_rep]).
    - StandardColumn.v: storage/compression/fixed_size_uncompressed.cpp and the column of values with
      its NULLs of storage/table/standard_column_data.cpp; view: a list of values or NULL
      ([standard_rep]).  It has the laws [ColumnLaws] and [ScanLaws], also for several columns.
    - StoredTable.v: the tables of RowGroupCollection.v with the columns of StandardColumn.v.
    - RowGroupCollection.v: storage/table/row_group_collection.cpp; view: the list of rows ([rows])
      and the ids of each row number ([row_ids]).
    - DataTable.v: the part of storage/data_table.cpp that commits and rollbacks call.
    - TableScan.v: scans, in row_group_collection.cpp, row_group.cpp and scan_state.cpp.
    - LocalStorage.v: storage/local_storage.cpp; view: the rows its transaction sees ([seen]).
    - UpdateKind.v and UpdateSegment.v: storage/table/update_segment.cpp, the routines per type and
      the chains; the chains use the routines through the class [UpdateFunctions] with [UpdateLaws].
    - UpdateSnapshot.v: transactions that update a column, as a step relation with its history.
    - UndoBuffer.v: transaction/undo_buffer.cpp and undo_buffer_allocator.cpp; view: the list of the
      entries created.
    - TransactionState.v: transaction/commit_state.cpp, rollback_state.cpp and cleanup_state.cpp, one
      undo entry at a time; the catalog is behind the class [Catalog] with [CatalogLaws].
    - DuckTransaction.v: transaction/duck_transaction.cpp, the commit and rollback of local storage, and
      the part of [CommitTransaction] (duck_transaction_manager.cpp) that changes the store; writing
      blocks and the log are outcomes that may be errors.
    - CommitOutcome.v: the theorems about whole commits and rollbacks of a transaction that is [ready].
    - TransactionRun.v: the part of storage/data_table.cpp that inserts and deletes; a transaction from
      its begin to its end against an abstract view ([Spec]).
    - CatalogSet.v: catalog/catalog_set.cpp and what commit, rollback and cleanup do with an undo entry of
      it; CatalogHistory.v: its specification, one [cell] per name, and the operations against it;
      CatalogUndo.v: the undo entries of a transaction; CatalogRun.v: transactions that change a catalog
      set in any order, with the theorems.
    - TransactionManager.v: transaction/duck_transaction_manager.cpp as a step relation.
    - StorageLock.v: storage/storage_lock.cpp, threads in any interleaving.
    - LimitPlan.v: execution/operator/helper/physical_limit.cpp, physical_streaming_limit.cpp,
      filter/physical_filter.cpp and the passes optimizer/limit_pushdown.cpp and
      limit_to_predict_filter_propagation.cpp.
    - Date.v: common/types/date.cpp.

    * How the code is modelled

    A w-bit integer is a [Z] with its wrap-around written out; counts and row numbers that only index
    lists are [nat] where the code cannot wrap, and the places where it subtracts past zero keep
    [wrapU].  Code that throws is [result] ([Ok] or [Throw] with the class of the exception); code
    that also changes a state is [ST], which keeps the changes made before an exception.  Pointers
    are indices or handles into the structure that owns the object.  Release builds are modelled:
    [D_ASSERT] is not.  Vectors have [STANDARD_VECTOR_SIZE] rows, a constant (2048) the proofs do not
    look into.

    * What the theorems show

    - Row versions: scanning agrees with fetching; deleting, appending, committing, reverting and
      cleaning up have exactly their effect on the ids of the rows, or a conflict leaves them as they
      were; what cleanup drops nobody needs; checkpoints restore the committed state.
    - Tables: the same across row groups, loaded or not; searches of the tree are exact; a scan gives
      exactly the rows the transaction sees.
    - Local storage holds exactly the rows its transaction appended and did not delete.
    - Updates: snapshot isolation and first-updater-wins in every reachable state.
    - The undo buffer: payloads do not overlap or move; iterations are complete, also when they stop.
    - Transactions: the timestamps fit the visibility rule; nothing needed is cleaned up.  A commit is
      all or nothing whatever fails on the way, other transactions see it all or not at all, a rollback
      restores; a transaction that inserts and deletes keeps what these theorems ask of it, so that
      its commit does exactly what its operations say.
    - Catalog sets: every history of operations, commits, rollbacks and cleanups answers as the
      specification of one cell per name; scans find what lookups find.
    - Filters: what the statistics say of a filter is true of the rows they cover, so a scan with zone
      maps keeps exactly the rows that satisfy its filters, in every order the adaptive filter tries.
    - Columns: a column in segments reads, by scans that may skip vectors and by fetches, what was
      appended and not reverted, NULLs included, and its statistics know all of it; the scan that
      shifts whole words of NULLs writes what the loop over the rows would.  A table of such columns
      reads what was appended and committed.
    - Limits: what the passes and the early stop preserve, and the case they do not (findings).
    - Masks and dates: exactness of the word-at-a-time and table-driven routines, round trips.

    * Loops and fuel

    Loops that are not structural take fuel; each has a lemma that the fuel given is enough.  Dates:
    15000 for the loop over 400-year cycles, which covers every 32-bit day.  Segment searches: the
    number of nodes + 2; loading: the unloaded segments + 1; appending: the rows of the chunk + 2;
    loops over row groups: their number + 1; deleting: the ids; scans: the vectors of a row group + 2
    and the rows of the table + 1.  Batches of row numbers to delete: the row numbers.
    Appending to a column: the rows + 2.  Scans of a validity segment: the rows scanned.  Iterating over an undo block: its used bytes + 1.
    Update chains: the size of the heap.  The limited filter: the rows of its input; the limit passes: the size of
    the plan.

    * Findings

    - LIMIT with OFFSET over a PREDICT filter loses rows: the pass limits the filter to LIMIT rows and
      the operator above skips OFFSET of them ([LimitPlan]).
    - SetAllInvalid makes the rows after [count] in the last word valid ([ValidityMask]).
    - A conflict in [ChunkVectorInfo::Delete] also resets rows that an earlier statement of the same
      transaction deleted ([ChunkInfo]).
    - Rows are marked as deleted before the undo entry for them is allocated; without memory for it, a
      rollback leaves the mark ([TransactionRun]).
    - A commit that fails after a name was changed in case only leaves the old catalog entry under the id
      of the transaction ([CatalogRun]).
    - The zone map of IS DISTINCT FROM skips row groups whose NULLs satisfy it ([TableFilter]), and the
      zone map of a segment, which knows of no NULLs, skips NULLs that satisfy a filter ([ScanFilter]).
    - A scan of NULLs into the middle of a vector can overwrite its neighbours, which selections of
      arrays run into ([ValiditySegment]).
    - Unsigned wrap-around: a search before the first segment ends in an InternalException
      ([SegmentTree]).
    - Updates that write what is there are skipped, and the comparison takes 0.0 and -0.0 for the same
      ([UpdateSegment]).
    - A commit that fails before it reaches the undo buffer reverts all entries, one that fails in it
      reverts also the entry that failed; both are harmless because reverting an entry that is not
      committed changes nothing that a rollback would not ([UndoBuffer], [TransactionState]).

    * Not modelled

    The compression of columns, columns and statistics of strings and nested types, filters on struct
    fields or with expressions, scans of columns that have updates (a column is modelled without them and
    its updates apart, in UpdateSegment.v), indexes, the buffer manager and files, the
    write-ahead log, catalog entries and their dependencies, the parser, the planner, the other optimizer passes, the operators
    and functions, and the model servers.  They are parameters or interfaces where the modelled code
    uses them: I/O and model calls because they are outside, the catalog of a transaction
    because its contract is all that the modelled code relies on, the rest because it does not touch the state
    modelled here. *)

From stdpp Require Export base numbers list option decidable sets.
From Stdlib Require Export ZArith Lia ZifyNat.

#[export] Set Default Goal Selector "!".
#[export] Set Warnings "-clear-no-such-hyp".
Create HintDb duck.

Open Scope Z_scope.

#[global] Arguments Nat.div _ _ : simpl never.
#[global] Arguments Nat.modulo _ _ : simpl never.
#[global] Arguments Z.pow _ _ : simpl never.

(** ** Machine integers

    A [w]-bit unsigned integer is a [Z] in [[0, 2^w)], a [w]-bit signed one a [Z] in
    [[-2^(w-1), 2^(w-1))].  [wrapU] and [wrapS] are the conversions of the C++
    abstract machine (modulo [2^w], two's complement). *)

Definition inU (w x : Z) : Prop := 0 <= x < 2 ^ w.
Definition inS (w x : Z) : Prop := - 2 ^ (w - 1) <= x < 2 ^ (w - 1).
Definition wrapU (w x : Z) : Z := x mod 2 ^ w.
Definition wrapS (w x : Z) : Z := (x + 2 ^ (w - 1)) mod 2 ^ w - 2 ^ (w - 1).
Definition inUb (w x : Z) : bool := (0 <=? x) && (x <? 2 ^ w).
Definition inSb (w x : Z) : bool := (- 2 ^ (w - 1) <=? x) && (x <? 2 ^ (w - 1)).

(** Bitwise complement of a [w]-bit unsigned integer. *)
Definition lnotU (w x : Z) : Z := Z.lxor x (2 ^ w - 1).
(** Left shift of a [w]-bit unsigned integer; the bits shifted out are lost. *)
Definition shlU (w x n : Z) : Z := wrapU w (Z.shiftl x n).

Lemma wrapU_range w x : 0 <= w -> inU w (wrapU w x).
Proof. intros. unfold inU, wrapU. apply Z.mod_pos_bound. lia. Qed.

Lemma wrapU_small w x : inU w x -> wrapU w x = x.
Proof. intros [??]. apply Z.mod_small. lia. Qed.

Lemma pow2_half w : 0 < w -> 2 ^ w = 2 * 2 ^ (w - 1).
Proof. intros. rewrite <- Z.pow_succ_r by lia. f_equal. lia. Qed.

Lemma wrapS_range w x : 0 < w -> inS w (wrapS w x).
Proof.
  intros. unfold inS, wrapS. pose proof (pow2_half w H).
  pose proof (Z.mod_pos_bound (x + 2 ^ (w - 1)) (2 ^ w)).
  assert (0 < 2 ^ (w - 1)) by (apply Z.pow_pos_nonneg; lia). lia.
Qed.

Lemma wrapS_small w x : 0 < w -> inS w x -> wrapS w x = x.
Proof.
  intros Hw [??]. unfold wrapS. pose proof (pow2_half w Hw).
  rewrite Z.mod_small; lia.
Qed.

Lemma inUb_spec w x : inUb w x = true <-> inU w x.
Proof. unfold inUb, inU. rewrite andb_true_iff, Z.leb_le, Z.ltb_lt. done. Qed.
Lemma inSb_spec w x : inSb w x = true <-> inS w x.
Proof. unfold inSb, inS. rewrite andb_true_iff, Z.leb_le, Z.ltb_lt. done. Qed.

(** ** Bits of machine integers *)

Lemma testbit_inU_high w x i : inU w x -> w <= i -> Z.testbit x i = false.
Proof.
  intros [H0 H1] Hi. destruct (Z.eq_dec x 0) as [->|Hx]; [apply Z.testbit_0_l|].
  apply Z.bits_above_log2; [lia|].
  apply Z.lt_le_trans with w; [|lia]. apply Z.log2_lt_pow2; lia.
Qed.

Lemma testbit_wrapU w x i :
  0 <= w -> 0 <= i -> Z.testbit (wrapU w x) i = (i <? w) && Z.testbit x i.
Proof.
  intros Hw Hi. unfold wrapU. destruct (Z.ltb_spec i w); simpl.
  - apply Z.mod_pow2_bits_low. lia.
  - apply Z.mod_pow2_bits_high. lia.
Qed.

Lemma testbit_ones w i : 0 <= w -> 0 <= i -> Z.testbit (2 ^ w - 1) i = (i <? w).
Proof.
  intros Hw Hi. replace (2 ^ w - 1) with (Z.ones w) by (rewrite Z.ones_equiv; lia).
  destruct (Z.ltb_spec i w).
  - apply Z.ones_spec_low. lia.
  - apply Z.ones_spec_high. lia.
Qed.

Lemma testbit_lnotU w x i :
  0 <= w -> 0 <= i -> inU w x ->
  Z.testbit (lnotU w x) i = (i <? w) && negb (Z.testbit x i).
Proof.
  intros Hw Hi Hx. unfold lnotU. rewrite Z.lxor_spec, testbit_ones by lia.
  destruct (Z.ltb_spec i w); simpl; [by destruct (Z.testbit x i)|].
  by rewrite (testbit_inU_high w) by (done || lia).
Qed.

Lemma testbit_shlU w x n i :
  0 <= w -> 0 <= n -> 0 <= i ->
  Z.testbit (shlU w x n) i = (i <? w) && (n <=? i) && Z.testbit x (i - n).
Proof.
  intros. unfold shlU. rewrite testbit_wrapU, Z.shiftl_spec by lia.
  destruct (Z.leb_spec n i); [by rewrite andb_true_r|].
  rewrite Z.testbit_neg_r by lia. by rewrite !andb_false_r.
Qed.

Lemma inU_of_bits w x :
  0 <= w -> 0 <= x -> (forall i, w <= i -> Z.testbit x i = false) -> inU w x.
Proof.
  intros Hw Hx Hb. split; [done|].
  destruct (Z.eq_dec x 0) as [->|Hne]; [apply Z.pow_pos_nonneg; lia|].
  destruct (Z.lt_ge_cases x (2 ^ w)) as [|Hge]; [done|exfalso].
  assert (w <= Z.log2 x) by (rewrite <- (Z.log2_pow2 w) by lia; by apply Z.log2_le_mono).
  pose proof (Z.bit_log2 x). rewrite Hb in H0; [|done]. ospecialize* H0; [lia|done].
Qed.

Lemma inU_land w x y : 0 <= w -> inU w x -> 0 <= y -> inU w (Z.land x y).
Proof.
  intros Hw Hx Hy. apply inU_of_bits; [done|apply Z.land_nonneg; by right|].
  intros i Hi. by rewrite Z.land_spec, (testbit_inU_high w x) by (done || lia).
Qed.

Lemma inU_lor w x y : 0 <= w -> inU w x -> inU w y -> inU w (Z.lor x y).
Proof.
  intros Hw Hx Hy. apply inU_of_bits; [done| |].
  - apply Z.lor_nonneg. split; [apply Hx|apply Hy].
  - intros i Hi. by rewrite Z.lor_spec, !(testbit_inU_high w) by (done || lia).
Qed.

Lemma inU_lnotU w x : 0 <= w -> inU w x -> inU w (lnotU w x).
Proof.
  intros Hw Hx. apply inU_of_bits; [done| |].
  - apply Z.lxor_nonneg. pose proof (Z.pow_pos_nonneg 2 w). destruct Hx. lia.
  - intros i Hi. rewrite testbit_lnotU by (done || lia).
    destruct (Z.ltb_spec i w); [lia|done].
Qed.

Lemma inU_shiftr w x n : 0 <= n -> inU w x -> inU w (Z.shiftr x n).
Proof.
  intros Hn [H0 H1]. rewrite Z.shiftr_div_pow2 by done.
  assert (0 < 2 ^ n) by (apply Z.pow_pos_nonneg; lia).
  split; [apply Z.div_pos; lia|]. apply Z.le_lt_trans with x; [|done].
  apply Z.div_le_upper_bound; [lia|nia].
Qed.

Lemma inU_shlU w x n : 0 <= w -> inU w (shlU w x n).
Proof. intros. by apply wrapU_range. Qed.

Lemma inU_ones w n : 0 <= n <= w -> inU w (2 ^ n - 1).
Proof.
  intros. pose proof (Z.pow_pos_nonneg 2 n). pose proof (Z.pow_le_mono_r 2 n w). split; lia.
Qed.

#[export] Hint Resolve wrapU_range wrapU_small inU_land inU_lor inU_lnotU inU_shiftr
  inU_shlU inU_ones : duck.

(** [lia] over expressions with division and remainder. *)
Ltac dlia := zify; Z.to_euclidean_division_equations; lia.

(** ** Constants of the engine *)

(** The number of rows in a vector (the default of the build). *)
Definition STANDARD_VECTOR_SIZE : nat := 2048%nat.

Lemma SVS_eq : Z.of_nat STANDARD_VECTOR_SIZE = 2048.
Proof. reflexivity. Qed.
Lemma SVS_pos : (0 < STANDARD_VECTOR_SIZE)%nat.
Proof. pose proof SVS_eq. lia. Qed.

#[global] Opaque STANDARD_VECTOR_SIZE.

(** [DConstants::INVALID_INDEX]: the largest [idx_t]. *)
Definition INVALID_INDEX : Z := 2 ^ 64 - 1.

(** ** Exceptions

    C++ exceptions become values.  Only the classes the modelled code throws occur. *)

Inductive exception : Type :=
| InternalException
| TransactionException
| SerializationException
| IOException
| OutOfRangeException
| ConversionException
| InvalidInputException
| NotImplementedException
| BinderException
| CatalogException
| FatalException.

#[export] Instance exception_eq_dec : EqDecision exception.
Proof. solve_decision. Defined.

Inductive result (A : Type) : Type :=
| Ok (a : A)
| Throw (e : exception).
Arguments Ok {A} a.
Arguments Throw {A} e.

#[export] Instance result_ret : MRet result := fun A a => Ok a.
#[export] Instance result_bind : MBind result := fun A B f m =>
  match m with Ok a => f a | Throw e => Throw e end.
#[export] Instance result_fmap : FMap result := fun A B f m =>
  match m with Ok a => Ok (f a) | Throw e => Throw e end.

Definition is_ok {A} (r : result A) : bool :=
  match r with Ok _ => true | Throw _ => false end.

Lemma result_bind_Ok {A B} (f : A -> result B) (m : result A) b :
  m ≫= f = Ok b <-> exists a, m = Ok a /\ f a = Ok b.
Proof.
  destruct m as [a|e]; simpl; split.
  - intros ?. by exists a.
  - intros (a' & [= ->] & ?). done.
  - discriminate.
  - intros (? & ? & ?). discriminate.
Qed.

(** Operations on a state that may throw: the effects before the exception remain. *)

Definition ST (S A : Type) : Type := S -> S * result A.

#[export] Instance ST_ret {S} : MRet (ST S) := fun A a s => (s, Ok a).
#[export] Instance ST_bind {S} : MBind (ST S) := fun A B f m s =>
  match m s with (s, Ok a) => f a s | (s, Throw e) => (s, Throw e) end.

Definition get {S} : ST S S := fun s => (s, Ok s).
Definition put {S} (s : S) : ST S unit := fun _ => (s, Ok tt).
Definition modify {S} (f : S -> S) : ST S unit := fun s => (f s, Ok tt).
Definition throw {S A} (e : exception) : ST S A := fun s => (s, Throw e).
Definition lift {S A} (r : result A) : ST S A := fun s => (s, r).

Lemma ST_bind_Ok {S A B} (f : A -> ST S B) (m : ST S A) s s' a :
  m s = (s', Ok a) -> (m ≫= f) s = f a s'.
Proof. intros Hm. unfold mbind, ST_bind. by rewrite Hm. Qed.

Lemma ST_bind_Throw {S A B} (f : A -> ST S B) (m : ST S A) s s' e :
  m s = (s', Throw e) -> (m ≫= f) s = (s', Throw e).
Proof. intros Hm. unfold mbind, ST_bind. by rewrite Hm. Qed.

(** ** Logs

    A program that pushes entries to a log of any kind is compared to the same program with a list for
    the log: if the entries of the list can be pushed, both do the same; if not, the exception ends the
    program. *)

Section logs.
Context {S E U : Type} (push : E -> ST U unit).

Fixpoint push_all (es : list E) : ST U unit :=
  match es with [] => mret tt | e :: es => push e;; push_all es end.

Lemma push_all_app es1 es2 u :
  push_all (es1 ++ es2) u = match push_all es1 u with (u1, Ok _) => push_all es2 u1 | x => x end.
Proof.
  revert u. induction es1 as [|e es1 IH]; intros u; [done|]. cbn [app push_all]. unfold mbind, ST_bind.
  destruct (push e u) as [u1 [[]|ex]]; [apply IH|done].
Qed.

Definition simulates {A} (f : ST (S * list E) A) (f' : ST (S * U) A) : Prop :=
  forall s log, exists new, (f (s, log)).1.2 = log ++ new
  /\ forall u, match push_all new u with
               | (u', Ok _) => f' (s, u) = (((f (s, log)).1.1, u'), (f (s, log)).2)
               | (u', Throw e) => exists s', f' (s, u) = ((s', u'), Throw e)
               end.

(** A step that leaves the log alone. *)
Lemma simulates_state {A} (m : ST S A) :
  simulates (fun '(s, log) => let '(s, r) := m s in ((s, log), r)) (fun '(s, u) => let '(s, r) := m s in ((s, u), r)).
Proof. intros s log. exists []. destruct (m s) as [s' r]. split; [by rewrite app_nil_r|done]. Qed.

Lemma simulates_pure {A} (r : result A) : simulates (fun s => (s, r)) (fun s => (s, r)).
Proof. intros s log. exists []. split; [by rewrite app_nil_r|done]. Qed.

Lemma simulates_bind {A B} (f : ST (S * list E) A) f' (k : A -> ST (S * list E) B) k' :
  simulates f f' -> (forall a, simulates (k a) (k' a)) -> simulates (f ≫= k) (f' ≫= k').
Proof.
  intros Hf Hk s log. destruct (Hf s log) as (new1 & E1 & H1). unfold mbind, ST_bind.
  destruct (f (s, log)) as [[s1 log1] [a|e]]; cbn [fst snd] in *; subst log1.
  - destruct (Hk a s1 (log ++ new1)) as (new2 & E2 & H2). exists (new1 ++ new2). split; [by rewrite app_assoc|].
    intros u. rewrite push_all_app. specialize (H1 u). destruct (push_all new1 u) as [u1 [[]|ex]].
    + rewrite H1. apply H2.
    + destruct H1 as (s' & ->). by exists s'.
  - exists new1. split; [done|]. intros u. specialize (H1 u). destruct (push_all new1 u) as [u1 [[]|ex]]; [by rewrite H1|].
    destruct H1 as (s' & ->). by exists s'.
Qed.
End logs.

(** ** Arrays

    A C++ array or vector is a [list]; reading index [i] is [l !!! i] and the write
    [l[i] = x] is [<[i := x]> l].  A write loop over a sequence of indices is
    [write_all]. *)

Section arrays.
Context {A : Type} `{!Inhabited A}.
Implicit Types (l : list A) (i j : nat).

Lemma upd_lookup_total l i j (x : A) :
  (i < length l)%nat -> <[i := x]> l !!! j = if decide (i = j) then x else l !!! j.
Proof.
  intros Hi. case_decide as Hij.
  - subst. by apply list_lookup_total_insert_eq.
  - by apply list_lookup_total_insert_ne.
Qed.

Definition write_all (idxs : list nat) (x : A) (l : list A) : list A :=
  fold_left (fun l i => <[i := x]> l) idxs l.

Lemma write_all_length idxs x l : length (write_all idxs x l) = length l.
Proof.
  revert l; induction idxs as [|i idxs IH]; intros l; simpl; [done|].
  change (length (write_all idxs x (<[i := x]> l)) = length l).
  by rewrite IH, length_insert.
Qed.

Lemma write_all_lookup idxs x l j :
  Forall (fun i => (i < length l)%nat) idxs ->
  write_all idxs x l !!! j = if decide (j ∈ idxs) then x else l !!! j.
Proof.
  revert l; induction idxs as [|i idxs IH]; intros l Hall; [done|].
  apply Forall_cons_1 in Hall as [Hi Hall].
  change (write_all idxs x (<[i := x]> l) !!! j
          = if decide (j ∈ i :: idxs) then x else l !!! j).
  rewrite IH by (by rewrite length_insert).
  rewrite (upd_lookup_total l i j x) by done.
  repeat case_decide; rewrite ?elem_of_cons in *; intuition congruence.
Qed.

Lemma write_all_app is1 is2 x l :
  write_all (is1 ++ is2) x l = write_all is2 x (write_all is1 x l).
Proof. unfold write_all. by rewrite fold_left_app. Qed.

(** [for (i = start; i < stop; i++) l[i] = x]. *)
Definition write_range (start stop : nat) (x : A) (l : list A) : list A :=
  write_all (seq start (stop - start)) x l.

Lemma write_range_length start stop x l : length (write_range start stop x l) = length l.
Proof. apply write_all_length. Qed.

Lemma write_range_lookup start stop x l j :
  (stop <= length l)%nat ->
  write_range start stop x l !!! j
  = if decide (start <= j < stop)%nat then x else l !!! j.
Proof.
  intros Hs. unfold write_range. rewrite write_all_lookup.
  - repeat case_decide; rewrite ?elem_of_seq in *; done || lia.
  - apply Forall_forall. intros i. rewrite elem_of_seq. lia.
Qed.

(** [for (i = 0; i < n; i++) l[base + i] = f(i)]. *)
Definition write_seq (base n : nat) (f : nat -> A) (l : list A) : list A :=
  fold_left (fun l i => <[(base + i)%nat := f i]> l) (seq 0 n) l.

Lemma write_seq_S base n f l :
  write_seq base (S n) f l = <[(base + n)%nat := f n]> (write_seq base n f l).
Proof. unfold write_seq. by rewrite seq_S, fold_left_app. Qed.

Lemma write_seq_length base n f l : length (write_seq base n f l) = length l.
Proof. induction n; [done|]. by rewrite write_seq_S, length_insert. Qed.

Lemma write_seq_lookup base n f l j :
  (base + n <= length l)%nat ->
  write_seq base n f l !!! j
  = if decide (base <= j < base + n)%nat then f (j - base)%nat else l !!! j.
Proof.
  induction n as [|n IH]; intros Hl.
  - rewrite decide_False by lia. done.
  - rewrite write_seq_S, upd_lookup_total by (rewrite write_seq_length; lia).
    rewrite IH by lia. repeat case_decide; try done || lia; f_equal; lia.
Qed.

Lemma write_seq_Forall (P : A -> Prop) base n f l :
  Forall P l -> (forall i, (i < n)%nat -> P (f i)) -> Forall P (write_seq base n f l).
Proof.
  intros Hl. induction n as [|n IH]; intros Hf; [done|]. rewrite write_seq_S.
  apply Forall_insert; [apply IH; auto|apply Hf; lia].
Qed.
End arrays.

Lemma lookup_total_replicate {A} `{!Inhabited A} n (x : A) i :
  (i < n)%nat -> replicate n x !!! i = x.
Proof. intros. by apply lookup_total_replicate_2. Qed.

(** Reading a buffer through [for (i < n) f(sel[i])] visits its first [n] elements. *)
Lemma fold_left_lookup {A B} `{!Inhabited A} (f : B -> A -> B) (l : list A) n b :
  (n <= length l)%nat ->
  fold_left (fun b i => f b (l !!! i)) (seq 0 n) b = fold_left f (take n l) b.
Proof.
  induction n as [|n IH]; intros Hn; [by rewrite take_0|].
  rewrite seq_S, fold_left_app, IH by lia.
  rewrite (take_S_r l n (l !!! n)) by (apply list_lookup_lookup_total_lt; lia).
  by rewrite fold_left_app.
Qed.

(** [for (i < n) if (P(i)) l[i] = x]. *)
Lemma fold_left_cond_write {A} `{!Inhabited A} (P : nat -> bool) (x : A) (l : list A) n j :
  (n <= length l)%nat ->
  fold_left (fun l i => if P i then <[i := x]> l else l) (seq 0 n) l !!! j
  = if decide (j < n)%nat then (if P j then x else l !!! j) else l !!! j.
Proof.
  induction n as [|n IH]; intros Hn; [done|].
  assert (length (fold_left (fun l i => if P i then <[i := x]> l else l) (seq 0 n) l) = length l) as Hl.
  { clear. induction n as [|n IH]; [done|]. rewrite seq_S, fold_left_app. simpl.
    destruct (P n); by rewrite ?length_insert, IH. }
  rewrite seq_S, fold_left_app. simpl. destruct (P n) eqn:E.
  - rewrite upd_lookup_total by lia. rewrite IH by lia.
    repeat case_decide; subst; try lia; by rewrite ?E.
  - rewrite IH by lia. repeat case_decide; try lia; [done| |done].
    assert (j = n) as -> by lia. by rewrite E.
Qed.

Lemma fold_left_cond_write_length {A} (P : nat -> bool) (x : A) (l : list A) idxs :
  length (fold_left (fun l i => if P i then <[i := x]> l else l) idxs l) = length l.
Proof.
  revert l; induction idxs as [|i idxs IH]; intros l; [done|]. simpl. rewrite IH.
  by destruct (P i); rewrite ?length_insert.
Qed.

Lemma lookup_total_map_seq {A} `{!Inhabited A} (f : nat -> A) n i :
  (i < n)%nat -> map f (seq 0 n) !!! i = f i.
Proof.
  intros Hi. apply list_lookup_total_correct.
  change (map f (seq 0 n)) with (f <$> seq 0 n).
  by rewrite list_lookup_fmap, lookup_seq_lt by done.
Qed.

Lemma mjoin_cons {A} (l : list A) (ls : list (list A)) : mjoin (l :: ls) = l ++ mjoin ls.
Proof. done. Qed.

Lemma list_eq_lookup_total {A} `{!Inhabited A} (l k : list A) :
  length l = length k -> (forall i, (i < length l)%nat -> l !!! i = k !!! i) -> l = k.
Proof.
  intros Hlen Heq. apply list_eq. intros i. destruct (decide (i < length l)%nat).
  - rewrite !list_lookup_lookup_total_lt by lia. f_equal. by apply Heq.
  - rewrite !lookup_ge_None_2 by lia. done.
Qed.

Lemma alter_const {A} (x : A) i (l : list A) : alter (fun _ => x) i l = <[i := x]> l.
Proof. revert i. induction l as [|y l IH]; intros [|i]; [done..|]. simpl. f_equal. apply IH. Qed.

Lemma omap_length_le {A B} (f : A -> option B) l : (length (omap f l) <= length l)%nat.
Proof. induction l as [|x l IH]; [done|]. unfold omap in *. simpl. destruct (f x); simpl; lia. Qed.

(** ** Selecting indices

    [select P n] is the list of the indices below [n] that satisfy [P], in order: the
    specification of the scan loops that fill a selection vector. *)

Definition select (P : nat -> bool) (n : nat) : list nat := List.filter P (seq 0 n).

Lemma select_S P n : select P (S n) = select P n ++ (if P n then [n] else []).
Proof. unfold select. rewrite seq_S, List.filter_app. simpl. by destruct (P n). Qed.

Lemma elem_of_select P n i : i ∈ select P n <-> (i < n)%nat /\ P i = true.
Proof.
  unfold select. rewrite list_elem_of_In, List.filter_In, <- list_elem_of_In, elem_of_seq.
  intuition lia.
Qed.

Lemma select_ext P Q n :
  (forall i, (i < n)%nat -> P i = Q i) -> select P n = select Q n.
Proof.
  intros HPQ. induction n as [|n IH]; [done|].
  rewrite !select_S, IH by auto. by rewrite HPQ by lia.
Qed.

Lemma select_length_le P n : (length (select P n) <= n)%nat.
Proof.
  induction n as [|n IH]; [done|]. rewrite select_S, length_app.
  destruct (P n); simpl; lia.
Qed.

Lemma select_true P n : (forall i, (i < n)%nat -> P i = true) -> select P n = seq 0 n.
Proof.
  intros HP. induction n as [|n IH]; [done|].
  rewrite select_S, seq_S, IH by auto. by rewrite HP by lia.
Qed.

Lemma select_false P n : (forall i, (i < n)%nat -> P i = false) -> select P n = [].
Proof.
  intros HP. induction n as [|n IH]; [done|]. rewrite select_S, IH by auto. by rewrite HP by lia.
Qed.

Lemma select_full P n : length (select P n) = n -> forall i, (i < n)%nat -> P i = true.
Proof.
  induction n as [|n IH]; [lia|]. rewrite select_S, length_app. intros Hlen i Hi.
  pose proof (select_length_le P n). destruct (P n) eqn:HPn; simpl in Hlen; [|lia].
  destruct (decide (i = n)) as [->|]; [done|]. apply IH; lia.
Qed.

Lemma select_count_split P n :
  (length (select P n) + length (select (fun i => negb (P i)) n) = n)%nat.
Proof.
  induction n as [|n IH]; [done|]. rewrite !select_S, !length_app.
  destruct (P n); simpl; lia.
Qed.

Lemma select_remove P n k :
  (k < n)%nat -> P k = true ->
  length (select P n) = S (length (select (fun i => P i && negb (i =? k)%nat) n)).
Proof.
  induction n as [|n IH]; intros Hk HP; [lia|]. rewrite !select_S, !length_app.
  destruct (decide (k = n)) as [->|Hne].
  - rewrite HP, Nat.eqb_refl. simpl.
    rewrite (select_ext (fun i => P i && negb (i =? n)%nat) P); [lia|].
    intros i Hi. destruct (Nat.eqb_spec i n); [lia|]. by rewrite andb_true_r.
  - rewrite IH by (done || lia). destruct (Nat.eqb_spec n k); [lia|].
    rewrite andb_true_r. destruct (P n); simpl; lia.
Qed.

Lemma select_add P n m :
  length (select P (n + m)) = (length (select P n) + length (select (fun i => P (n + i)%nat) m))%nat.
Proof.
  induction m as [|m IH]; [by rewrite Nat.add_0_r, Nat.add_0_r|].
  rewrite Nat.add_succ_r, !select_S, !length_app, IH. destruct (P (n + m)%nat); simpl; lia.
Qed.

(** ** Byte streams

    [WriteStream] and [ReadStream] are modelled by the sequence of bytes written or still
    to be read; [Write<T>] and [Read<T>] copy the little-endian object representation. *)

Fixpoint le_bytes (n : nat) (z : Z) : list Z :=
  match n with
  | O => []
  | S n => z mod 256 :: le_bytes n (z / 256)
  end.

Fixpoint le_value (bs : list Z) : Z :=
  match bs with
  | [] => 0
  | b :: bs => b + 256 * le_value bs
  end.

Definition read_le (n : nat) (s : list Z) : result (Z * list Z) :=
  if decide (n <= length s)%nat then Ok (le_value (take n s), drop n s)
  else Throw SerializationException.

Lemma length_le_bytes n z : length (le_bytes n z) = n.
Proof. revert z; induction n; intros z; simpl; [done|]. by rewrite IHn. Qed.

Lemma le_value_bytes n z : 0 <= z < 256 ^ Z.of_nat n -> le_value (le_bytes n z) = z.
Proof.
  revert z; induction n as [|n IH]; intros z Hz; [simpl in *; lia|].
  change (z mod 256 + 256 * le_value (le_bytes n (z / 256)) = z).
  rewrite IH; [pose proof (Z.div_mod z 256); lia|].
  rewrite Nat2Z.inj_succ, Z.pow_succ_r in Hz by lia.
  split; [apply Z.div_pos; lia|]. apply Z.div_lt_upper_bound; lia.
Qed.

Lemma read_le_write n z s :
  0 <= z < 256 ^ Z.of_nat n -> read_le n (le_bytes n z ++ s) = Ok (z, s).
Proof.
  intros Hz. unfold read_le. rewrite length_app, length_le_bytes.
  rewrite decide_True by lia.
  rewrite take_app_length', drop_app_length' by (by rewrite length_le_bytes).
  by rewrite le_value_bytes.
Qed.
