(* ===== verification/ValidityMask.v ===== *)
(** * Validity masks

    Models [TemplatedValidityData]/[TemplatedValidityMask<uint64_t>]
    (src/src/include/duckdb/common/types/validity_mask.hpp) and the out-of-line members of
    [ValidityMask] (src/src/common/types/validity_mask.cpp).  A mask is an optional buffer of
    64-bit entries (a null pointer means that every row is valid) with a capacity.  Buffers are
    values here: the operations below read or write one mask at a time, so the sharing of
    buffers between masks ([Initialize(other)]) does not influence their results; the pointer
    comparison in [Combine] is an argument. *)

From S2P Require Import Prelude.

Module ValidityMask.

Definition BITS_PER_VALUE : nat := 64%nat.
Definition MAX_ENTRY : Z := 2 ^ 64 - 1.

Record t : Type := mk {
  validity_mask : option (list Z);
  capacity : nat
}.

(** ** Entries *)

Definition EntryCount (count : nat) : nat := ((count + (BITS_PER_VALUE - 1)) / BITS_PER_VALUE)%nat.

(** [TemplatedValidityData(count)]: every entry is [MAX_ENTRY]. *)
Definition ValidityData (count : nat) : list Z := replicate (EntryCount count) MAX_ENTRY.

(** [TemplatedValidityData(validity_mask, count)]: copies the first entries. *)
Definition ValidityDataCopy (mask : list Z) (count : nat) : list Z :=
  map (fun entry_idx => mask !!! entry_idx) (seq 0 (EntryCount count)).

Definition ValidityMaskSize (count : nat) : nat := (EntryCount count * 8)%nat.

Definition EntryAllValid (entry : Z) : bool := entry =? MAX_ENTRY.
Definition EntryNoneValid (entry : Z) : bool := entry =? 0.

Definition EntryRowIsValid (entry : Z) (idx_in_entry : nat) : bool :=
  negb (Z.land entry (shlU 64 1 (Z.of_nat idx_in_entry)) =? 0).

Definition GetEntryIndex (row_idx : nat) : nat * nat :=
  ((row_idx / BITS_PER_VALUE)%nat, (row_idx mod BITS_PER_VALUE)%nat).

Definition EntryWithValidBits (n : nat) : Z :=
  if (n =? 0)%nat then 0 else Z.shiftr MAX_ENTRY (Z.of_nat (BITS_PER_VALUE - n)).

(** ** Reading a mask *)

Definition AllValid (m : t) : bool :=
  match validity_mask m with None => true | Some _ => false end.

Definition IsMaskSet (m : t) : bool := negb (AllValid m).

Definition GetValidityEntry (m : t) (entry_idx : nat) : Z :=
  match validity_mask m with
  | None => MAX_ENTRY
  | Some entries => entries !!! entry_idx
  end.

Definition RowIsValid (m : t) (row_idx : nat) : bool :=
  match validity_mask m with
  | None => true
  | Some entries =>
      let '(entry_idx, idx_in_entry) := GetEntryIndex row_idx in
      EntryRowIsValid (entries !!! entry_idx) idx_in_entry
  end.

(** [while (entry) { entry &= (entry - 1); ++valid; }]: one set bit is cleared per round, so
    64 rounds suffice for a 64-bit entry. *)
Fixpoint kernighan (fuel : nat) (entry : Z) (valid : nat) : nat :=
  match fuel with
  | O => valid
  | S fuel =>
      if entry =? 0 then valid
      else kernighan fuel (Z.land entry (wrapU 64 (entry - 1))) (S valid)
  end.

(** One round of the [for] loop of [CountValid]. *)
Definition count_entry (m : t) (count entry_count valid entry_idx : nat) : nat :=
  let entry := GetValidityEntry m entry_idx in
  if ((entry_idx + 1 =? entry_count) && negb (count mod BITS_PER_VALUE =? 0))%nat then
    let shift := (BITS_PER_VALUE - count mod BITS_PER_VALUE)%nat in
    let mask := Z.shiftr MAX_ENTRY (Z.of_nat shift) in
    kernighan 64 (Z.land entry mask) valid
  else if EntryAllValid entry then (valid + BITS_PER_VALUE)%nat
  else kernighan 64 entry valid.

Definition CountValid (m : t) (count : nat) : nat :=
  if AllValid m || (count =? 0)%nat then count
  else
    let entry_count := EntryCount count in
    fold_left (count_entry m count entry_count) (seq 0 entry_count) 0%nat.

Definition CheckAllValid (m : t) (count : nat) : bool := (CountValid m count =? count)%nat.
Definition CheckAllInvalid (m : t) (count : nat) : bool := (CountValid m count =? 0)%nat.

Definition CheckAllValidRange (m : t) (to from : nat) : bool :=
  if AllValid m then true
  else forallb (fun i => RowIsValid m i) (seq from (to - from)).

(** ** Writing a mask *)

Definition InitializeCount (m : t) (count : nat) : t := mk (Some (ValidityData count)) count.
Definition Initialize (m : t) : t := InitializeCount m (capacity m).
Definition EnsureWritable (m : t) : t := if AllValid m then Initialize m else m.

Definition Reset (m : t) (target_count : nat) : t := mk None target_count.

Definition Copy (other : t) (count : nat) : t :=
  match validity_mask other with
  | None => mk None count
  | Some entries => mk (Some (ValidityDataCopy entries count)) count
  end.

(** Update of entry [entry_idx] of an allocated buffer. *)
Definition set_entry (m : t) (entry_idx : nat) (f : Z -> Z) : t :=
  match validity_mask m with
  | None => m
  | Some entries => mk (Some (<[entry_idx := f (entries !!! entry_idx)]> entries)) (capacity m)
  end.

Definition SetValidUnsafe (m : t) (row_idx : nat) : t :=
  let '(entry_idx, idx_in_entry) := GetEntryIndex row_idx in
  set_entry m entry_idx (fun e => Z.lor e (shlU 64 1 (Z.of_nat idx_in_entry))).

Definition SetValid (m : t) (row_idx : nat) : t :=
  match validity_mask m with
  | None => m
  | Some _ => SetValidUnsafe m row_idx
  end.

Definition SetInvalidUnsafe (m : t) (row_idx : nat) : t :=
  let '(entry_idx, idx_in_entry) := GetEntryIndex row_idx in
  set_entry m entry_idx (fun e => Z.land e (lnotU 64 (shlU 64 1 (Z.of_nat idx_in_entry)))).

Definition SetInvalid (m : t) (row_idx : nat) : t :=
  SetInvalidUnsafe (EnsureWritable m) row_idx.

Definition Set_ (m : t) (row_idx : nat) (valid : bool) : t :=
  if valid then SetValid m row_idx else SetInvalid m row_idx.

Definition SetRangeInvalid (m : t) (count begin_entry end_entry : nat) : t :=
  let m := EnsureWritable m in
  if (count =? 0)%nat then m
  else
    let last_entry_index := (EntryCount count - 1)%nat in
    match validity_mask m with
    | None => m
    | Some entries =>
        let entries := write_range begin_entry (Nat.min last_entry_index end_entry) 0 entries in
        if (end_entry <=? last_entry_index)%nat then mk (Some entries) (capacity m)
        else
          let last_entry_bits := (count mod BITS_PER_VALUE)%nat in
          let last := if (last_entry_bits =? 0)%nat then 0
                      else shlU 64 MAX_ENTRY (Z.of_nat last_entry_bits) in
          mk (Some (<[last_entry_index := last]> entries)) (capacity m)
    end.

Definition SetAllInvalid (m : t) (count : nat) : t :=
  SetRangeInvalid m count 0 (EntryCount count).

Definition SetAllValid (m : t) (count : nat) : t :=
  let m := EnsureWritable m in
  if (count =? 0)%nat then m
  else
    let last_entry_index := (EntryCount count - 1)%nat in
    match validity_mask m with
    | None => m
    | Some entries =>
        let entries := write_range 0 last_entry_index MAX_ENTRY entries in
        let last_entry_bits := (count mod BITS_PER_VALUE)%nat in
        let bits := if (last_entry_bits =? 0)%nat then MAX_ENTRY
                    else lnotU 64 (shlU 64 MAX_ENTRY (Z.of_nat last_entry_bits)) in
        mk (Some (<[last_entry_index := Z.lor (entries !!! last_entry_index) bits]> entries))
           (capacity m)
    end.

(** ** Combining, resizing and slicing masks *)

(** [same_buffer] is the pointer comparison [validity_mask == other.validity_mask]. *)
Definition Combine (same_buffer : bool) (m other : t) (count : nat) : t :=
  match validity_mask other with
  | None => m
  | Some other_data =>
      match validity_mask m with
      | None => other
      | Some data =>
          if same_buffer then m
          else
            mk (Some (map (fun entry_idx => Z.land (data !!! entry_idx) (other_data !!! entry_idx))
                          (seq 0 (EntryCount count)))) count
      end
  end.

Definition Resize (m : t) (new_size : nat) : t :=
  let old_size := capacity m in
  if (new_size <=? old_size)%nat then m
  else
    match validity_mask m with
    | None => mk None new_size
    | Some entries =>
        let new_size_count := EntryCount new_size in
        let old_size_count := EntryCount old_size in
        mk (Some (map (fun entry_idx => entries !!! entry_idx) (seq 0 old_size_count)
                  ++ replicate (new_size_count - old_size_count) MAX_ENTRY)) new_size
    end.

Definition IsAligned (count : nat) : bool := (count mod BITS_PER_VALUE =? 0)%nat.

(** The aligned branch of [SliceInPlace]: whole entries are copied, the ragged end is merged. *)
Definition slice_aligned (target : list Z) (source : option (list Z))
    (target_offset source_offset count : nat) : list Z :=
  let ragged := (count mod BITS_PER_VALUE)%nat in
  let entire_units := (count / BITS_PER_VALUE)%nat in
  let source_offset_entries := EntryCount source_offset in
  let target_offset_entries := EntryCount target_offset in
  let src i := match source with
               | None => MAX_ENTRY
               | Some s => s !!! (source_offset_entries + i)%nat
               end in
  let target :=
    fold_left (fun tgt i => <[(target_offset_entries + i)%nat := src i]> tgt)
              (seq 0 entire_units) target in
  if (ragged =? 0)%nat then target
  else
    let src_entry := Z.land (src entire_units)
                            (Z.shiftr MAX_ENTRY (Z.of_nat (BITS_PER_VALUE - ragged))) in
    let pos := (target_offset_entries + entire_units)%nat in
    let tgt_entry := Z.land (target !!! pos) (shlU 64 MAX_ENTRY (Z.of_nat ragged)) in
    <[pos := Z.lor tgt_entry src_entry]> target.

(** The shifting branch (aligned target, unaligned source); [src_entry] is carried from one
    round to the next, [si]/[ti] are the advancing source and target pointers. *)
Definition slice_shift_step (source : list Z) (tail head : nat)
    (st : list Z * Z * nat * nat) (_ : nat) : list Z * Z * nat * nat :=
  let '(target, src_entry, si, ti) := st in
  let tgt_entry := Z.shiftr src_entry (Z.of_nat tail) in
  let src_entry := source !!! si in
  let tgt_entry := Z.lor tgt_entry (shlU 64 src_entry (Z.of_nat head)) in
  (<[ti := tgt_entry]> target, src_entry, S si, S ti).

Definition slice_shift (target source : list Z) (target_offset source_offset count : nat)
    : list Z :=
  let ragged := (count mod BITS_PER_VALUE)%nat in
  let entire_units := (count / BITS_PER_VALUE)%nat in
  let tail := (source_offset mod BITS_PER_VALUE)%nat in
  let head := (BITS_PER_VALUE - tail)%nat in
  let s0 := (source_offset / BITS_PER_VALUE)%nat in
  let t0 := (target_offset / BITS_PER_VALUE)%nat in
  let '(target, src_entry, si, ti) :=
    fold_left (slice_shift_step source tail head) (seq 0 entire_units)
              (target, source !!! s0, S s0, t0) in
  if (ragged =? 0)%nat then target
  else
    let tgt_entry := Z.shiftr src_entry (Z.of_nat tail) in
    let tgt_entry := if (head <? ragged)%nat
                     then Z.lor tgt_entry (shlU 64 (source !!! si) (Z.of_nat head))
                     else tgt_entry in
    let tgt_entry := Z.land tgt_entry (Z.shiftr MAX_ENTRY (Z.of_nat (BITS_PER_VALUE - ragged))) in
    let tgt_entry := Z.lor tgt_entry
                           (Z.land (target !!! ti) (shlU 64 MAX_ENTRY (Z.of_nat ragged))) in
    <[ti := tgt_entry]> target.

(** [SliceInPlace].  The shifting branch dereferences [other.GetData()] without a null check:
    with a null source there the behaviour is undefined, modelled by [None]. *)
Definition SliceInPlace (m other : t) (target_offset source_offset count : nat) : option t :=
  if AllValid m && AllValid other then Some m
  else
    let m := EnsureWritable m in
    match validity_mask m with
    | None => Some m
    | Some target =>
        if IsAligned source_offset && IsAligned target_offset then
          Some (mk (Some (slice_aligned target (validity_mask other)
                                        target_offset source_offset count)) (capacity m))
        else if IsAligned target_offset then
          match validity_mask other with
          | None => None
          | Some source =>
              Some (mk (Some (slice_shift target source target_offset source_offset count))
                       (capacity m))
          end
        else
          Some (fold_left (fun m i => Set_ m (target_offset + i) (RowIsValid other (source_offset + i)))
                          (seq 0 count) m)
    end.

Definition Slice (m other : t) (source_offset count : nat) : option t :=
  if AllValid other then Some (mk None (capacity m))
  else if (source_offset =? 0)%nat then Some other
  else SliceInPlace (mk None count) other 0 source_offset count.

(** [CopySel]; a null selection vector ([sel.IsSet()] false) selects row [i] at index [i]. *)
Definition CopySel (m other : t) (sel : option (list nat))
    (source_offset target_offset copy_count : nat) : option t :=
  if negb (IsMaskSet other) && negb (IsMaskSet m) then Some m
  else
    match sel with
    | None =>
        if IsAligned source_offset && IsAligned target_offset
        then SliceInPlace m other target_offset source_offset copy_count
        else Some (fold_left (fun m i => Set_ m (target_offset + i)
                                              (RowIsValid other (source_offset + i)))
                             (seq 0 copy_count) m)
    | Some sel =>
        Some (fold_left (fun m i => Set_ m (target_offset + i)
                                         (RowIsValid other (sel !!! (source_offset + i)%nat)))
                        (seq 0 copy_count) m)
    end.

(** ** Serialization *)

Definition BITMASK : Z := 0.
Definition VALID_VALUES : Z := 1.
Definition INVALID_VALUES : Z := 2.

Definition Write (m : t) (count : nat) : result (list Z) :=
  let valid_values := CountValid m count in
  let invalid_values := (count - valid_values)%nat in
  let bitmask_bytes := ValidityMaskSize count in
  let need_u32 := (65535 <=? Z.of_nat count) in
  let bytes_per_value := if need_u32 then 4%nat else 2%nat in
  let valid_value_size := (bytes_per_value * valid_values + 4)%nat in
  let invalid_value_size := (bytes_per_value * invalid_values + 4)%nat in
  if ((valid_value_size <? bitmask_bytes) || (invalid_value_size <? bitmask_bytes))%nat then
    let serialize_valid := (valid_value_size <? invalid_value_size)%nat in
    let flag := if serialize_valid then VALID_VALUES else INVALID_VALUES in
    let n := Z.of_nat (Nat.min valid_values invalid_values) in
    if n <? 2 ^ 32 then
      Ok (flag :: le_bytes 4 n
          ++ mjoin (map (fun i => le_bytes bytes_per_value (wrapU (8 * Z.of_nat bytes_per_value) (Z.of_nat i)))
                        (select (fun i => bool_decide (RowIsValid m i = serialize_valid)) count)))
    else Throw InternalException
  else
    Ok (BITMASK :: mjoin (map (fun i => le_bytes 8 (GetValidityEntry m i)) (seq 0 (EntryCount count)))).

(** Reads [n] 64-bit entries. *)
Fixpoint read_entries (n : nat) (s : list Z) : result (list Z * list Z) :=
  match n with
  | O => Ok ([], s)
  | S n =>
      '(e, s) ← read_le 8 s;
      '(es, s) ← read_entries n s;
      Ok (e :: es, s)
  end.

(** [for (i < serialize_count) Set(reader.Read(), is_valid)]. *)
Fixpoint read_indices (n : nat) (width : nat) (is_valid : bool) (m : t) (s : list Z)
    : result (t * list Z) :=
  match n with
  | O => Ok (m, s)
  | S n =>
      '(index, s) ← read_le width s;
      read_indices n width is_valid (Set_ m (Z.to_nat index) is_valid) s
  end.

Definition Read (count : nat) (s : list Z) : result (t * list Z) :=
  let m := InitializeCount (mk None STANDARD_VECTOR_SIZE) count in
  '(flag, s) ← read_le 1 s;
  if flag =? BITMASK then
    '(entries, s) ← read_entries (EntryCount count) s;
    Ok (mk (Some entries) count, s)
  else
    let is_u32 := (65535 <=? Z.of_nat count) in
    let is_valid := flag =? VALID_VALUES in
    '(serialize_count, s) ← read_le 4 s;
    let m := if is_valid then SetAllInvalid m count else m in
    read_indices (Z.to_nat serialize_count) (if is_u32 then 4%nat else 2%nat) is_valid m s.

(** ** The bits of a mask *)

(** The bit of row [j] in a buffer. *)
Definition bit (es : list Z) (j : nat) : bool :=
  Z.testbit (es !!! (j / 64)%nat) (Z.of_nat (j mod 64)).

(** A buffer of 64-bit entries that is long enough for the capacity. *)
Definition wf (m : t) : Prop :=
  forall es, validity_mask m = Some es ->
    (EntryCount (capacity m) <= length es)%nat /\ Forall (inU 64) es.

Definition wfb (m : t) : bool :=
  match validity_mask m with
  | None => true
  | Some es => (EntryCount (capacity m) <=? length es)%nat && forallb (inUb 64) es
  end.

Lemma wfb_spec m : wfb m = true -> wf m.
Proof.
  unfold wfb, wf. destruct (validity_mask m) as [es|]; [|done].
  rewrite andb_true_iff, Nat.leb_le, forallb_forall. intros [Hl Hf] es' [= <-].
  split; [done|]. apply Forall_forall. intros x Hx. apply inUb_spec, Hf, list_elem_of_In, Hx.
Qed.

Lemma EntryCount_lt i n : (i < n)%nat -> (i / 64 < EntryCount n)%nat.
Proof. unfold EntryCount, BITS_PER_VALUE. dlia. Qed.

Lemma EntryCount_mono i n : (i <= n)%nat -> (EntryCount i <= EntryCount n)%nat.
Proof. unfold EntryCount, BITS_PER_VALUE. dlia. Qed.

Lemma mod64_lt i : (i mod 64 < 64)%nat.
Proof. apply Nat.mod_upper_bound. lia. Qed.

Lemma shl1 i : (i < 64)%nat -> shlU 64 1 (Z.of_nat i) = 2 ^ Z.of_nat i.
Proof.
  intros. unfold shlU. rewrite Z.shiftl_1_l. apply wrapU_small.
  split; [lia|]. apply Z.pow_lt_mono_r; lia.
Qed.

Lemma land_pow2_eqb e i : 0 <= i -> (Z.land e (2 ^ i) =? 0) = negb (Z.testbit e i).
Proof.
  intros Hi. destruct (Z.testbit e i) eqn:E; simpl.
  - apply Z.eqb_neq. intros H0. assert (Z.testbit (Z.land e (2 ^ i)) i = false) as H1.
    { rewrite H0. apply Z.testbit_0_l. }
    rewrite Z.land_spec, E, Z.pow2_bits_true in H1 by done. done.
  - apply Z.eqb_eq. apply Z.bits_inj'. intros k Hk.
    rewrite Z.land_spec, Z.testbit_0_l, Z.pow2_bits_eqb by done.
    destruct (Z.eqb_spec i k) as [->|]; [by rewrite E|by rewrite andb_false_r].
Qed.

Lemma EntryRowIsValid_bit e i : (i < 64)%nat -> EntryRowIsValid e i = Z.testbit e (Z.of_nat i).
Proof.
  intros. unfold EntryRowIsValid. rewrite shl1 by done.
  rewrite land_pow2_eqb by lia. by rewrite negb_involutive.
Qed.

Lemma RowIsValid_bit m es i :
  validity_mask m = Some es -> RowIsValid m i = bit es i.
Proof.
  intros Hm. unfold RowIsValid. rewrite Hm. simpl. apply EntryRowIsValid_bit, mod64_lt.
Qed.

Lemma RowIsValid_None m i : validity_mask m = None -> RowIsValid m i = true.
Proof. unfold RowIsValid. by intros ->. Qed.

Lemma MAX_ENTRY_bit i : (i < 64)%nat -> Z.testbit MAX_ENTRY (Z.of_nat i) = true.
Proof. intros. unfold MAX_ENTRY. rewrite testbit_ones by lia. apply Z.ltb_lt. lia. Qed.

Lemma MAX_ENTRY_inU : inU 64 MAX_ENTRY.
Proof. apply inU_ones. lia. Qed.

Lemma bit_insert es k e j :
  (k < length es)%nat ->
  bit (<[k := e]> es) j
  = if decide (j / 64 = k)%nat then Z.testbit e (Z.of_nat (j mod 64)) else bit es j.
Proof.
  intros Hk. unfold bit. rewrite upd_lookup_total by done.
  repeat case_decide; congruence || lia.
Qed.

Lemma Initialize_wf m : wf (Initialize m).
Proof.
  intros es [= <-]. split.
  - simpl. unfold ValidityData. by rewrite length_replicate.
  - apply Forall_replicate, MAX_ENTRY_inU.
Qed.

Lemma bit_ValidityData n j : (j < n)%nat -> bit (ValidityData n) j = true.
Proof.
  intros Hj. unfold bit, ValidityData.
  rewrite lookup_total_replicate by (by apply EntryCount_lt).
  apply MAX_ENTRY_bit, mod64_lt.
Qed.

Lemma EnsureWritable_wf m : wf m -> wf (EnsureWritable m).
Proof.
  intros Hm. unfold EnsureWritable. destruct (AllValid m); [apply Initialize_wf|done].
Qed.

Lemma EnsureWritable_capacity m : capacity (EnsureWritable m) = capacity m.
Proof. unfold EnsureWritable. by destruct (AllValid m). Qed.

Lemma EnsureWritable_Some m : exists es, validity_mask (EnsureWritable m) = Some es.
Proof.
  unfold EnsureWritable, AllValid. destruct (validity_mask m) as [es|] eqn:E; eauto.
Qed.

Lemma EnsureWritable_row m j :
  (j < capacity m)%nat -> RowIsValid (EnsureWritable m) j = RowIsValid m j.
Proof.
  intros Hj. unfold EnsureWritable, AllValid. destruct (validity_mask m) eqn:E; [done|].
  rewrite (RowIsValid_None m) by done.
  rewrite (RowIsValid_bit _ (ValidityData (capacity m))) by done. by apply bit_ValidityData.
Qed.

(** ** Setting one row *)

Lemma set_entry_wf m k f :
  wf m -> (forall e, inU 64 e -> inU 64 (f e)) -> wf (set_entry m k f).
Proof.
  intros Hm Hf. unfold set_entry. destruct (validity_mask m) as [es|] eqn:E; [|done].
  destruct (Hm es E) as [Hl Hu]. intros es' [= <-]. simpl. split.
  - by rewrite length_insert.
  - destruct (decide (k < length es)%nat); [|by rewrite list_insert_ge by lia].
    apply Forall_insert; [done|]. apply Hf. rewrite Forall_lookup_total in Hu. by apply Hu.
Qed.

Lemma set_entry_row m k f j es :
  validity_mask m = Some es -> (k < length es)%nat ->
  RowIsValid (set_entry m k f) j
  = if decide (j / 64 = k)%nat then Z.testbit (f (es !!! k)) (Z.of_nat (j mod 64))
    else RowIsValid m j.
Proof.
  intros Hm Hk. unfold set_entry. rewrite Hm.
  rewrite (RowIsValid_bit _ (<[k := f (es !!! k)]> es)) by done.
  rewrite (RowIsValid_bit m es) by done. by apply bit_insert.
Qed.

Lemma entry_inU m es k : wf m -> validity_mask m = Some es -> inU 64 (es !!! k).
Proof.
  intros Hm E. destruct (Hm es E) as [_ Hu]. destruct (decide (k < length es)%nat).
  - rewrite Forall_lookup_total in Hu. by apply Hu.
  - rewrite list_lookup_total_alt, lookup_ge_None_2 by lia. by split.
Qed.

Lemma row_split i j : (j / 64 = i / 64)%nat -> (j mod 64 = i mod 64)%nat -> i = j.
Proof. dlia. Qed.

Lemma shl1_inU i : inU 64 (shlU 64 1 (Z.of_nat i)).
Proof. apply inU_shlU. lia. Qed.

Lemma Set_wf m i b : wf m -> wf (Set_ m i b).
Proof.
  intros Hm. unfold Set_. destruct b.
  - unfold SetValid, SetValidUnsafe. destruct (validity_mask m); [|done]. simpl.
    apply set_entry_wf; [done|]. intros e He. apply inU_lor; [lia|done|apply shl1_inU].
  - unfold SetInvalid, SetInvalidUnsafe. simpl. apply set_entry_wf; [by apply EnsureWritable_wf|].
    intros e He. apply inU_land; [lia|done|]. apply inU_lnotU; [lia|apply shl1_inU].
Qed.

Lemma set_entry_capacity m k f : capacity (set_entry m k f) = capacity m.
Proof. unfold set_entry. by destruct (validity_mask m). Qed.

Lemma Set_capacity m i b : capacity (Set_ m i b) = capacity m.
Proof.
  unfold Set_. destruct b; unfold SetValid, SetInvalid, SetValidUnsafe, SetInvalidUnsafe; simpl.
  - destruct (validity_mask m); [apply set_entry_capacity|done].
  - by rewrite set_entry_capacity, EnsureWritable_capacity.
Qed.

(** Writing one row and reading the mask back. *)
Lemma Set_row m i b j :
  wf m -> (i < capacity m)%nat -> (j < capacity m)%nat ->
  RowIsValid (Set_ m i b) j = if decide (i = j) then b else RowIsValid m j.
Proof.
  intros Hm Hi Hj. pose proof (mod64_lt i) as Hmi. pose proof (mod64_lt j) as Hmj.
  unfold Set_. destruct b.
  - unfold SetValid. destruct (validity_mask m) as [es|] eqn:E.
    + destruct (Hm es E) as [Hl _]. pose proof (EntryCount_lt i _ Hi).
      unfold SetValidUnsafe. simpl. unfold BITS_PER_VALUE. rewrite (set_entry_row _ _ _ _ es) by (done || lia).
      rewrite Z.lor_spec, shl1, Z.pow2_bits_eqb by lia. rewrite (RowIsValid_bit m es) by done.
      unfold bit. destruct (decide (i = j)) as [->|Hij].
      * rewrite decide_True by done. by rewrite Z.eqb_refl, orb_true_r.
      * case_decide as Hd; [|done]. rewrite Hd.
        destruct (Z.eqb_spec (Z.of_nat (i mod 64)) (Z.of_nat (j mod 64))) as [He|He].
        -- exfalso. apply Hij, row_split; [done|lia].
        -- by rewrite orb_false_r.
    + rewrite !RowIsValid_None by done. by destruct (decide (i = j)).
  - unfold SetInvalid, SetInvalidUnsafe. simpl. unfold BITS_PER_VALUE.
    destruct (EnsureWritable_Some m) as [es E].
    pose proof (EnsureWritable_wf m Hm) as Hw. destruct (Hw es E) as [Hl _].
    rewrite EnsureWritable_capacity in Hl. pose proof (EntryCount_lt i _ Hi).
    rewrite (set_entry_row _ _ _ _ es) by (done || lia).
    rewrite Z.land_spec, testbit_lnotU by (lia || apply shl1_inU).
    rewrite shl1, Z.pow2_bits_eqb by lia. rewrite <- (EnsureWritable_row m j) by done.
    rewrite (RowIsValid_bit _ es) by done. unfold bit.
    destruct (decide (i = j)) as [->|Hij].
    + rewrite decide_True by done. by rewrite Z.eqb_refl, !andb_false_r.
    + case_decide as Hd; [|done]. rewrite Hd.
      destruct (Z.eqb_spec (Z.of_nat (i mod 64)) (Z.of_nat (j mod 64))) as [He|He].
      * exfalso. apply Hij, row_split; [done|lia].
      * destruct (Z.ltb_spec (Z.of_nat (j mod 64)) 64); [by rewrite !andb_true_r|lia].
Qed.

(** A loop of row writes: the last write to a row wins; here each row is written once. *)
Lemma Set_loop m (f : nat -> bool) t0 n :
  wf m -> (t0 + n <= capacity m)%nat ->
  let m' := fold_left (fun m i => Set_ m (t0 + i) (f i)) (seq 0 n) m in
  wf m' /\ capacity m' = capacity m
  /\ forall j, (j < capacity m)%nat ->
       RowIsValid m' j = if decide (t0 <= j < t0 + n)%nat then f (j - t0)%nat else RowIsValid m j.
Proof.
  intros Hm. induction n as [|n IH]; intros Hn; cbv zeta.
  - simpl. split_and!; [done..|]. intros j Hj. rewrite decide_False by lia. done.
  - destruct IH as (Hw & Hc & Hr); [lia|]. rewrite seq_S, fold_left_app. simpl.
    split_and!.
    + by apply Set_wf.
    + by rewrite Set_capacity.
    + intros j Hj. rewrite Set_row by (done || lia). rewrite Hr by done.
      repeat case_decide; try done || lia; f_equal; lia.
Qed.

(** ** Counting *)

Definition popcount (n : nat) (e : Z) : nat :=
  length (select (fun i => Z.testbit e (Z.of_nat i)) n).

Lemma lowest_bit p : exists k q, 0 <= k /\ 0 <= q /\ Zpos p = 2 ^ k + 2 ^ (k + 1) * q.
Proof.
  induction p as [p IH|p IH|].
  - exists 0, (Zpos p). split_and!; lia.
  - destruct IH as (k & q & Hk & Hq & He). exists (k + 1), q. split_and!; [lia..|].
    rewrite Pos2Z.inj_xO, He, !(Z.pow_add_r 2 _ 1) by lia. lia.
  - exists 0, 0. split_and!; lia.
Qed.

Lemma testbit_split k x q i :
  0 <= k -> 0 <= x < 2 ^ k -> 0 <= i ->
  Z.testbit (x + 2 ^ k * q) i = if i <? k then Z.testbit x i else Z.testbit q (i - k).
Proof.
  intros Hk Hx Hi. destruct (Z.ltb_spec i k).
  - rewrite <- (Z.mod_pow2_bits_low (x + 2 ^ k * q) k i) by done.
    rewrite (Z.mul_comm (2 ^ k)), Z.mod_add, Z.mod_small by lia. done.
  - replace i with ((i - k) + k) at 1 by lia. rewrite <- Z.div_pow2_bits by lia.
    rewrite (Z.mul_comm (2 ^ k)), Z.div_add, Z.div_small by lia. done.
Qed.

(** [entry & (entry - 1)] clears the lowest set bit. *)
Lemma land_pred e :
  0 < e -> exists k, 0 <= k /\ Z.testbit e k = true
    /\ forall i, 0 <= i -> Z.testbit (Z.land e (e - 1)) i = Z.testbit e i && negb (i =? k).
Proof.
  intros He. destruct e as [|p|p]; [lia| |lia].
  destruct (lowest_bit p) as (k & q & Hk & Hq & Hp). exists k.
  assert (0 < 2 ^ k) by (apply Z.pow_pos_nonneg; lia).
  assert (2 ^ (k + 1) = 2 * 2 ^ k) as Hpow by (rewrite Z.pow_add_r by lia; lia).
  assert (forall i, 0 <= i ->
    Z.testbit (Zpos p) i = if i <? k + 1 then Z.testbit (2 ^ k) i else Z.testbit q (i - (k + 1))) as Hb.
  { intros i Hi. rewrite Hp. apply testbit_split; lia. }
  split_and!; [done| |].
  - rewrite Hb by done. destruct (Z.ltb_spec k (k + 1)); [|lia]. by apply Z.pow2_bits_true.
  - intros i Hi. rewrite Z.land_spec, Hb by done.
    replace (Zpos p - 1) with ((2 ^ k - 1) + 2 ^ (k + 1) * q) by lia.
    rewrite testbit_split by lia. destruct (Z.ltb_spec i (k + 1)).
    + rewrite Z.pow2_bits_eqb, testbit_ones by lia.
      destruct (Z.eqb_spec k i), (Z.eqb_spec i k), (Z.ltb_spec i k); done || lia.
    + destruct (Z.eqb_spec i k); [lia|]. by rewrite andb_true_r, andb_diag.
Qed.

Lemma popcount_le n e : (popcount n e <= n)%nat.
Proof. apply select_length_le. Qed.

Lemma popcount_0 n : popcount n 0 = 0%nat.
Proof. unfold popcount. rewrite select_false; [done|]. intros. apply Z.testbit_0_l. Qed.

Lemma kernighan_popcount fuel e v :
  inU 64 e -> (popcount 64 e <= fuel)%nat -> kernighan fuel e v = (v + popcount 64 e)%nat.
Proof.
  revert e v; induction fuel as [|fuel IH]; intros e v He Hf; simpl.
  - lia.
  - destruct (Z.eqb_spec e 0) as [->|Hne]; [rewrite popcount_0; lia|].
    rewrite (wrapU_small 64 (e - 1)) by (destruct He; split; lia).
    destruct (land_pred e) as (k & Hk & Htk & Hb); [destruct He; lia|].
    assert (k < 64).
    { destruct (Z.lt_ge_cases k 64); [done|].
      by rewrite (testbit_inU_high 64 e k) in Htk by done. }
    assert (popcount 64 e = S (popcount 64 (Z.land e (e - 1)))) as Hp.
    { unfold popcount. rewrite (select_remove _ 64 (Z.to_nat k)).
      - f_equal. f_equal. apply select_ext. intros i Hi. rewrite Hb by lia. f_equal. f_equal.
        destruct (Nat.eqb_spec i (Z.to_nat k)), (Z.eqb_spec (Z.of_nat i) k); done || lia.
      - lia.
      - by rewrite Z2Nat.id. }
    rewrite IH; [lia| |lia]. apply inU_land; [lia|done|]. destruct He. lia.
Qed.

Lemma popcount_MAX : popcount 64 MAX_ENTRY = 64%nat.
Proof.
  unfold popcount. rewrite select_true; [by rewrite length_seq|]. apply MAX_ENTRY_bit.
Qed.

Lemma shiftr_MAX n : (0 < n <= 64)%nat -> Z.shiftr MAX_ENTRY (Z.of_nat (64 - n)) = 2 ^ Z.of_nat n - 1.
Proof.
  intros Hn. apply Z.bits_inj'. intros i Hi. unfold MAX_ENTRY.
  rewrite Z.shiftr_spec, !testbit_ones by lia.
  destruct (Z.ltb_spec (i + Z.of_nat (64 - n)) 64), (Z.ltb_spec i (Z.of_nat n)); done || lia.
Qed.

Lemma popcount_mask n e :
  (0 < n <= 64)%nat -> popcount 64 (Z.land e (Z.shiftr MAX_ENTRY (Z.of_nat (64 - n)))) = popcount n e.
Proof.
  intros Hn. rewrite shiftr_MAX by done. unfold popcount.
  replace 64%nat with (n + (64 - n))%nat by lia. rewrite select_add.
  rewrite (select_false _ (64 - n)).
  - rewrite Nat.add_0_r. f_equal. apply select_ext. intros i Hi.
    rewrite Z.land_spec, testbit_ones by lia.
    destruct (Z.ltb_spec (Z.of_nat i) (Z.of_nat n)); [by rewrite andb_true_r|lia].
  - intros i Hi. rewrite Z.land_spec, testbit_ones by lia.
    destruct (Z.ltb_spec (Z.of_nat (n + i)) (Z.of_nat n)); [lia|by rewrite andb_false_r].
Qed.

Lemma row_of_entry m es k i :
  validity_mask m = Some es -> (i < 64)%nat ->
  RowIsValid m (64 * k + i) = Z.testbit (es !!! k) (Z.of_nat i).
Proof.
  intros E Hi. rewrite (RowIsValid_bit m es) by done. unfold bit.
  replace ((64 * k + i) / 64)%nat with k by dlia.
  replace ((64 * k + i) mod 64)%nat with i by dlia. done.
Qed.

(** The bits counted by the rounds of [CountValid] up to entry [k]. *)
Lemma count_loop m es count k :
  wf m -> validity_mask m = Some es -> (k <= EntryCount count)%nat ->
  fold_left (count_entry m count (EntryCount count)) (seq 0 k) 0%nat
  = length (select (RowIsValid m) (Nat.min (64 * k) count)).
Proof.
  intros Hm E. induction k as [|k IH]; intros Hk; [done|].
  rewrite seq_S, fold_left_app, IH by lia. cbn [fold_left].
  assert (inU 64 (es !!! k)) as He by (by eapply entry_inU).
  unfold count_entry, GetValidityEntry. rewrite E. unfold BITS_PER_VALUE. simpl (0 + k)%nat.
  assert (Nat.min (64 * k) count = 64 * k)%nat as ->.
  { unfold EntryCount, BITS_PER_VALUE in Hk. dlia. }
  assert (forall n, (n <= 64)%nat ->
    length (select (RowIsValid m) (64 * k + n))
    = (length (select (RowIsValid m) (64 * k)) + popcount n (es !!! k))%nat) as Hsel.
  { intros n Hn. rewrite select_add. f_equal. unfold popcount. f_equal. apply select_ext.
    intros i Hi. apply row_of_entry; [done|lia]. }
  destruct ((k + 1 =? EntryCount count) && negb (count mod 64 =? 0))%nat eqn:Hr.
  - apply andb_true_iff in Hr as [Hr1 Hr2]. apply Nat.eqb_eq in Hr1.
    apply negb_true_iff, Nat.eqb_neq in Hr2. pose proof (mod64_lt count).
    rewrite kernighan_popcount; [|apply inU_land; [lia|done|apply Z.shiftr_nonneg; by destruct MAX_ENTRY_inU]
                                 |apply popcount_le].
    rewrite popcount_mask by lia.
    replace (Nat.min (64 * S k) count) with (64 * k + count mod 64)%nat.
    + by rewrite Hsel by lia.
    + unfold EntryCount, BITS_PER_VALUE in *. dlia.
  - assert (Nat.min (64 * S k) count = 64 * k + 64)%nat as ->.
    { apply andb_false_iff in Hr. rewrite Nat.eqb_neq, negb_false_iff, Nat.eqb_eq in Hr.
      unfold EntryCount, BITS_PER_VALUE in *. destruct Hr; dlia. }
    rewrite Hsel by lia. unfold EntryAllValid. destruct (Z.eqb_spec (es !!! k) MAX_ENTRY) as [->|].
    + by rewrite popcount_MAX.
    + by rewrite kernighan_popcount by (done || apply popcount_le).
Qed.

Lemma CountValid_select m count :
  wf m -> CountValid m count = length (select (RowIsValid m) count).
Proof.
  intros Hm. unfold CountValid, AllValid. destruct (validity_mask m) as [es|] eqn:E.
  - simpl. destruct (Nat.eqb_spec count 0) as [->|Hc]; [done|].
    rewrite (count_loop m es) by done. f_equal. f_equal.
    unfold EntryCount, BITS_PER_VALUE. dlia.
  - simpl. rewrite select_true; [by rewrite length_seq|]. intros. by apply RowIsValid_None.
Qed.

(** ** Slicing *)

(** The row at distance [i] of the source of a slice; a null source is all valid. *)
Definition source_bit (source : option (list Z)) (i : nat) : bool :=
  match source with None => true | Some s => bit s i end.

Lemma source_bit_row other i : source_bit (validity_mask other) i = RowIsValid other i.
Proof.
  unfold source_bit. destruct (validity_mask other) as [es|] eqn:E.
  - by rewrite (RowIsValid_bit other es).
  - by rewrite RowIsValid_None.
Qed.

Definition entries_ok (source : option (list Z)) : Prop :=
  forall s, source = Some s -> Forall (inU 64) s.

Lemma lookup_inU es k : Forall (inU 64) es -> inU 64 (es !!! k).
Proof.
  intros Hu. destruct (decide (k < length es)%nat).
  - rewrite Forall_lookup_total in Hu. by apply Hu.
  - rewrite list_lookup_total_alt, lookup_ge_None_2 by lia. by split.
Qed.

(** Merging [ragged] low bits of [s] into [tg]. *)
Lemma merge_bit tg s ragged b :
  (0 < ragged < 64)%nat -> (b < 64)%nat ->
  Z.testbit (Z.lor (Z.land tg (shlU 64 MAX_ENTRY (Z.of_nat ragged)))
                   (Z.land s (Z.shiftr MAX_ENTRY (Z.of_nat (64 - ragged))))) (Z.of_nat b)
  = if decide (b < ragged)%nat then Z.testbit s (Z.of_nat b) else Z.testbit tg (Z.of_nat b).
Proof.
  intros Hr Hb. rewrite shiftr_MAX by lia.
  rewrite Z.lor_spec, !Z.land_spec, testbit_shlU, testbit_ones by lia. unfold MAX_ENTRY.
  destruct (Z.ltb_spec (Z.of_nat b) 64); [|lia]. case_decide.
  - destruct (Z.leb_spec (Z.of_nat ragged) (Z.of_nat b)); [lia|].
    destruct (Z.ltb_spec (Z.of_nat b) (Z.of_nat ragged)); [|lia].
    by rewrite !andb_false_r, andb_true_r.
  - destruct (Z.leb_spec (Z.of_nat ragged) (Z.of_nat b)); [|lia].
    destruct (Z.ltb_spec (Z.of_nat b) (Z.of_nat ragged)); [lia|].
    rewrite testbit_ones by lia. destruct (Z.ltb_spec (Z.of_nat b - Z.of_nat ragged) 64); [|lia].
    by rewrite andb_false_r, orb_false_r, !andb_true_r.
Qed.

(** Writing whole entries [f 0 .. f (n-1)] at [t0] and merging [ragged] bits of [f n]. *)
Definition write_units (t0 n ragged : nat) (f : nat -> Z) (es : list Z) : list Z :=
  let es := write_seq t0 n f es in
  if (ragged =? 0)%nat then es
  else <[(t0 + n)%nat := Z.lor (Z.land (es !!! (t0 + n)%nat) (shlU 64 MAX_ENTRY (Z.of_nat ragged)))
                        (Z.land (f n) (Z.shiftr MAX_ENTRY (Z.of_nat (64 - ragged))))]> es.

Lemma write_units_bit t0 n ragged f es j :
  (ragged < 64)%nat -> (t0 + n + (if decide (ragged = 0) then 0 else 1) <= length es)%nat ->
  bit (write_units t0 n ragged f es) j
  = if decide (64 * t0 <= j < 64 * (t0 + n) + ragged)%nat
    then Z.testbit (f (j / 64 - t0)%nat) (Z.of_nat (j mod 64)) else bit es j.
Proof.
  intros Hr Hl. pose proof (mod64_lt j) as Hj. unfold write_units.
  destruct (Nat.eqb_spec ragged 0) as [->|Hr0].
  - simpl in Hl. unfold bit. rewrite write_seq_lookup by lia.
    destruct (decide (t0 <= j / 64 < t0 + n)%nat), (decide (64 * t0 <= j < 64 * (t0 + n) + 0)%nat);
      done || dlia.
  - rewrite decide_False in Hl by done.
    rewrite bit_insert by (rewrite write_seq_length; lia).
    rewrite merge_bit by lia. unfold bit. rewrite !write_seq_lookup by lia.
    rewrite (decide_False (P := (t0 <= t0 + n < t0 + n)%nat)) by lia.
    destruct (decide (j / 64 = t0 + n)%nat) as [Hd|Hd].
    + destruct (decide (j mod 64 < ragged)%nat), (decide (64 * t0 <= j < 64 * (t0 + n) + ragged)%nat);
        try (exfalso; dlia).
      * f_equal. f_equal. lia.
      * by rewrite Hd.
    + destruct (decide (t0 <= j / 64 < t0 + n)%nat), (decide (64 * t0 <= j < 64 * (t0 + n) + ragged)%nat);
        done || (exfalso; dlia).
Qed.

Lemma write_units_length t0 n ragged f es : length (write_units t0 n ragged f es) = length es.
Proof.
  unfold write_units. destruct (ragged =? 0)%nat; by rewrite ?length_insert, write_seq_length.
Qed.

Lemma write_units_inU t0 n ragged f es :
  Forall (inU 64) es -> (forall i, inU 64 (f i)) -> Forall (inU 64) (write_units t0 n ragged f es).
Proof.
  intros He Hf. unfold write_units.
  assert (Forall (inU 64) (write_seq t0 n f es)) as Hw by (apply write_seq_Forall; auto).
  destruct (ragged =? 0)%nat; [done|]. apply Forall_insert; [done|].
  apply inU_lor; [lia| |].
  - apply inU_land; [lia|by apply lookup_inU|]. apply inU_shlU. lia.
  - apply inU_land; [lia|done|]. apply Z.shiftr_nonneg. by destruct MAX_ENTRY_inU.
Qed.

Definition aligned_src (source : option (list Z)) (s0 i : nat) : Z :=
  match source with None => MAX_ENTRY | Some s => s !!! (s0 + i)%nat end.

Lemma slice_aligned_units target source t s c :
  slice_aligned target source t s c
  = write_units (EntryCount t) (c / 64) (c mod 64) (aligned_src source (EntryCount s)) target.
Proof. done. Qed.

Definition shifted_src (source : list Z) (s0 tail : nat) (i : nat) : Z :=
  Z.lor (Z.shiftr (source !!! (s0 + i)%nat) (Z.of_nat tail))
        (shlU 64 (source !!! (s0 + i + 1)%nat) (Z.of_nat (64 - tail))).

Lemma shifted_src_bit source s0 tail i b :
  (0 < tail < 64)%nat -> (b < 64)%nat -> Forall (inU 64) source ->
  Z.testbit (shifted_src source s0 tail i) (Z.of_nat b) = bit source (64 * (s0 + i) + tail + b).
Proof.
  intros Ht Hb Hu. unfold shifted_src, bit.
  rewrite Z.lor_spec, Z.shiftr_spec, testbit_shlU by lia.
  destruct (Z.ltb_spec (Z.of_nat b) 64); [|lia].
  destruct (Z.leb_spec (Z.of_nat (64 - tail)) (Z.of_nat b)).
  - rewrite (testbit_inU_high 64) by (lia || by apply lookup_inU). simpl.
    f_equal; [f_equal|]; dlia.
  - rewrite andb_false_r, orb_false_r. f_equal; [f_equal|]; dlia.
Qed.

(** The state of the shifting loop after [n] rounds. *)
Lemma slice_shift_loop source tail target s0 t0 n :
  fold_left (slice_shift_step source tail (64 - tail)) (seq 0 n)
            (target, source !!! s0, S s0, t0)
  = (write_seq t0 n (shifted_src source s0 tail) target,
     source !!! (s0 + n)%nat, S (s0 + n), (t0 + n)%nat).
Proof.
  induction n as [|n IH]; [by rewrite !Nat.add_0_r|].
  rewrite seq_S, fold_left_app, IH, write_seq_S. cbn [fold_left slice_shift_step].
  unfold shifted_src. replace (s0 + n + 1)%nat with (S (s0 + n)) by lia.
  by rewrite !Nat.add_succ_r.
Qed.

Lemma slice_shift_bit target source t s c j :
  (t mod 64 = 0)%nat -> (s mod 64 <> 0)%nat -> (EntryCount (t + c) <= length target)%nat ->
  Forall (inU 64) source ->
  bit (slice_shift target source t s c) j
  = if decide (t <= j < t + c)%nat then bit source (s + (j - t)) else bit target j.
Proof.
  intros Ht Hs Hl Hu. pose proof (mod64_lt j). pose proof (mod64_lt c). pose proof (mod64_lt s).
  unfold slice_shift, BITS_PER_VALUE. rewrite slice_shift_loop.
  destruct (Nat.eqb_spec (c mod 64) 0) as [Hr|Hr].
  - unfold bit at 1. rewrite write_seq_lookup by (unfold EntryCount, BITS_PER_VALUE in Hl; dlia).
    destruct (decide (t / 64 <= j / 64 < t / 64 + c / 64)%nat), (decide (t <= j < t + c)%nat);
      try (exfalso; dlia); [|done].
    rewrite shifted_src_bit by (done || lia). f_equal. dlia.
  - rewrite bit_insert by (rewrite write_seq_length; unfold EntryCount, BITS_PER_VALUE in Hl; dlia).
    rewrite (Z.lor_comm (Z.land _ _)), merge_bit by lia.
    destruct (decide (j / 64 = t / 64 + c / 64)%nat) as [Hd|Hd].
    + case_decide as Hb.
      * rewrite decide_True by dlia.
        assert (bit source (s + (j - t)) = Z.testbit (shifted_src source (s / 64) (s mod 64) (c / 64))
                  (Z.of_nat (j mod 64))) as ->.
        { rewrite shifted_src_bit by (done || lia). f_equal. dlia. }
        unfold shifted_src. destruct (Nat.ltb_spec (64 - s mod 64) (c mod 64)).
        -- by replace (s / 64 + c / 64 + 1)%nat with (S (s / 64 + c / 64)) by lia.
        -- rewrite Z.lor_spec, testbit_shlU by lia.
           destruct (Z.leb_spec (Z.of_nat (64 - s mod 64)) (Z.of_nat (j mod 64))); [lia|].
           by rewrite andb_false_r, orb_false_r.
      * rewrite decide_False by dlia. unfold bit. rewrite Hd, write_seq_lookup
          by (unfold EntryCount, BITS_PER_VALUE in Hl; dlia).
        by rewrite decide_False by lia.
    + unfold bit at 1. rewrite write_seq_lookup by (unfold EntryCount, BITS_PER_VALUE in Hl; dlia).
      destruct (decide (t / 64 <= j / 64 < t / 64 + c / 64)%nat), (decide (t <= j < t + c)%nat);
        try (exfalso; dlia); [|done].
      rewrite shifted_src_bit by (done || lia). f_equal. dlia.
Qed.

Lemma slice_shift_wf target source t s c :
  (s mod 64 <> 0)%nat -> Forall (inU 64) target -> Forall (inU 64) source ->
  length (slice_shift target source t s c) = length target
  /\ Forall (inU 64) (slice_shift target source t s c).
Proof.
  intros Hs Ht Hu. unfold slice_shift, BITS_PER_VALUE. rewrite slice_shift_loop.
  assert (Forall (inU 64) (write_seq (t / 64) (c / 64) (shifted_src source (s / 64) (s mod 64)) target)) as Hw.
  { apply write_seq_Forall; [done|]. intros i _. unfold shifted_src. apply inU_lor; [lia| |].
    - apply inU_shiftr; [lia|by apply lookup_inU].
    - apply inU_shlU. lia. }
  destruct (Nat.eqb_spec (c mod 64) 0); [by rewrite write_seq_length|].
  rewrite length_insert, write_seq_length. split; [done|].
  apply Forall_insert; [done|]. apply inU_lor; [lia| |].
  - rewrite Z.land_comm. apply inU_land; [lia| |].
    + apply inU_shiftr; [lia|apply MAX_ENTRY_inU].
    + assert (0 <= Z.shiftr (source !!! (s / 64 + c / 64)%nat) (Z.of_nat (s mod 64))).
      { apply Z.shiftr_nonneg. by destruct (lookup_inU source (s / 64 + c / 64) Hu). }
      destruct (_ <? _)%nat; [|done]. apply Z.lor_nonneg. split; [done|].
      destruct (inU_shlU 64 (source !!! S (s / 64 + c / 64)) (Z.of_nat (64 - s mod 64))); lia.
  - apply inU_land; [lia|by apply lookup_inU|]. destruct (inU_shlU 64 MAX_ENTRY (Z.of_nat (c mod 64))); lia.
Qed.

Lemma slice_aligned_bit target source t s c j :
  (t mod 64 = 0)%nat -> (s mod 64 = 0)%nat -> (EntryCount (t + c) <= length target)%nat ->
  bit (slice_aligned target source t s c) j
  = if decide (t <= j < t + c)%nat then source_bit source (s + (j - t)) else bit target j.
Proof.
  intros Ht Hs Hl. pose proof (mod64_lt c). pose proof (mod64_lt j).
  rewrite slice_aligned_units, write_units_bit;
    [|done|unfold EntryCount, BITS_PER_VALUE in *; case_decide; dlia].
  destruct (decide (64 * EntryCount t <= j < 64 * (EntryCount t + c / 64) + c mod 64)%nat),
    (decide (t <= j < t + c)%nat); try (exfalso; unfold EntryCount, BITS_PER_VALUE in *; dlia); [|done].
  unfold aligned_src, source_bit. destruct source as [src|]; [|by apply MAX_ENTRY_bit].
  unfold bit. f_equal; [f_equal|]; unfold EntryCount, BITS_PER_VALUE in *; dlia.
Qed.

(** The calls of [SliceInPlace] whose behaviour is defined. *)
Definition slice_defined (m other : t) (target_offset source_offset : nat) : bool :=
  AllValid m && AllValid other || IsAligned source_offset || negb (IsAligned target_offset)
  || IsMaskSet other.

Lemma SliceInPlace_rows m other t s c :
  wf m -> wf other -> (t + c <= capacity m)%nat -> (s + c <= capacity other)%nat ->
  slice_defined m other t s = true ->
  exists m', SliceInPlace m other t s c = Some m' /\ wf m' /\ capacity m' = capacity m
    /\ forall j, (j < capacity m)%nat ->
         RowIsValid m' j = if decide (t <= j < t + c)%nat then RowIsValid other (s + (j - t))
                           else RowIsValid m j.
Proof.
  intros Hm Ho Ht Hs Hdef. unfold SliceInPlace.
  destruct (AllValid m && AllValid other) eqn:Hall.
  - exists m. split_and!; [done..|]. intros j Hj. apply andb_true_iff in Hall as [Ha Hb].
    unfold AllValid in Ha, Hb.
    destruct (validity_mask m) eqn:E1, (validity_mask other) eqn:E2; [done..|].
    rewrite !RowIsValid_None by done. by case_decide.
  - destruct (EnsureWritable_Some m) as [es E]. rewrite E.
    pose proof (EnsureWritable_wf m Hm) as Hw. destruct (Hw es E) as [Hl Hu].
    rewrite EnsureWritable_capacity in Hl. pose proof (EntryCount_mono (t + c) (capacity m) Ht).
    assert (forall j, (j < capacity m)%nat -> bit es j = RowIsValid m j) as Hes.
    { intros j Hj. rewrite <- (EnsureWritable_row m j) by done. symmetry. by apply RowIsValid_bit. }
    destruct (IsAligned s) eqn:As, (IsAligned t) eqn:At; simpl.
    + apply Nat.eqb_eq in As, At. eexists. split_and!; [done| | |].
      * intros es' [= <-]. simpl. rewrite EnsureWritable_capacity, slice_aligned_units.
        rewrite write_units_length. split; [done|]. apply write_units_inU; [done|]. intros i.
        unfold aligned_src. destruct (validity_mask other) as [os|] eqn:Eo; [|apply MAX_ENTRY_inU].
        by apply (entry_inU other os).
      * apply EnsureWritable_capacity.
      * intros j Hj. erewrite RowIsValid_bit by done. rewrite slice_aligned_bit by (done || lia).
        by rewrite source_bit_row, Hes.
    + edestruct (Set_loop (EnsureWritable m) (fun i => RowIsValid other (s + i)) t c) as (H1 & H2 & H3);
        [done|by rewrite EnsureWritable_capacity|]. rewrite EnsureWritable_capacity in H2, H3.
      eexists. split_and!; [done..|]. intros j Hj. rewrite H3 by done. by rewrite EnsureWritable_row.
    + apply Nat.eqb_neq in As. apply Nat.eqb_eq in At.
      destruct (validity_mask other) as [os|] eqn:Eo.
      2: { unfold slice_defined, IsMaskSet in Hdef. rewrite Hall in Hdef. unfold IsAligned in Hdef.
           unfold AllValid in Hdef. rewrite Eo in Hdef.
           apply Nat.eqb_neq in As. apply Nat.eqb_eq in At. rewrite As, At in Hdef. done. }
      destruct (Ho os Eo) as [_ Huo]. unfold BITS_PER_VALUE in As.
      destruct (slice_shift_wf es os t s c) as [Hsl Hsu]; [done..|].
      eexists. split_and!; [done| | |].
      * intros es' [= <-]. simpl. rewrite EnsureWritable_capacity, Hsl. done.
      * apply EnsureWritable_capacity.
      * intros j Hj. erewrite RowIsValid_bit by done. rewrite slice_shift_bit by (done || lia).
        rewrite Hes by done. by rewrite (RowIsValid_bit other os).
    + edestruct (Set_loop (EnsureWritable m) (fun i => RowIsValid other (s + i)) t c) as (H1 & H2 & H3);
        [done|by rewrite EnsureWritable_capacity|]. rewrite EnsureWritable_capacity in H2, H3.
      eexists. split_and!; [done..|]. intros j Hj. rewrite H3 by done. by rewrite EnsureWritable_row.
Qed.

(** ** Range resets and combination *)

Lemma SetAllInvalid_rows m count :
  wf m -> (0 < count <= capacity m)%nat ->
  let m' := SetAllInvalid m count in
  wf m' /\ capacity m' = capacity m
  /\ forall j, (j < capacity m)%nat ->
       RowIsValid m' j = if decide (j < count)%nat then false
                         else if decide (j < 64 * EntryCount count)%nat then true
                         else RowIsValid m j.
Proof.
  intros Hm Hc. unfold SetAllInvalid, SetRangeInvalid. destruct (Nat.eqb_spec count 0); [lia|].
  destruct (EnsureWritable_Some m) as [es E]. cbv zeta. rewrite E.
  destruct (EnsureWritable_wf m Hm es E) as [Hl Hu]. rewrite EnsureWritable_capacity in *.
  pose proof (EntryCount_mono count (capacity m)). pose proof (EntryCount_lt 0 count).
  destruct (Nat.leb_spec (EntryCount count) (EntryCount count - 1)); [lia|].
  pose proof (mod64_lt count). unfold BITS_PER_VALUE.
  set (last := if (count mod 64 =? 0)%nat then 0 else shlU 64 MAX_ENTRY (Z.of_nat (count mod 64))).
  assert (inU 64 last).
  { unfold last. destruct (_ =? _)%nat; [by split|]. apply inU_shlU. lia. }
  rewrite Nat.min_l by lia. split_and!; [|done|].
  - intros es' [= <-]. simpl. rewrite length_insert, write_range_length. split; [done|].
    apply Forall_insert; [|done]. rewrite Forall_lookup_total. intros i Hi.
    rewrite write_range_lookup by lia. case_decide; [by split|]. by apply lookup_inU.
  - intros j Hj. erewrite RowIsValid_bit by done. rewrite bit_insert by (rewrite write_range_length; lia).
    rewrite <- (EnsureWritable_row m j), (RowIsValid_bit _ es) by done. unfold bit.
    rewrite write_range_lookup by lia. pose proof (mod64_lt j).
    destruct (decide (j / 64 = EntryCount count - 1)%nat) as [Hj1|Hj1].
    + unfold last. destruct (Nat.eqb_spec (count mod 64) 0).
      * rewrite Z.testbit_0_l, decide_True; [done|]. unfold EntryCount, BITS_PER_VALUE in *. dlia.
      * rewrite testbit_shlU by lia. destruct (Z.ltb_spec (Z.of_nat (j mod 64)) 64); [|lia]. simpl.
        destruct (Z.leb_spec (Z.of_nat (count mod 64)) (Z.of_nat (j mod 64))); simpl.
        -- rewrite decide_False, decide_True by (unfold EntryCount, BITS_PER_VALUE in *; dlia).
           unfold MAX_ENTRY. rewrite testbit_ones by lia. apply Z.ltb_lt. lia.
        -- rewrite decide_True; [done|]. unfold EntryCount, BITS_PER_VALUE in *. dlia.
    + destruct (decide (0 <= j / 64 < EntryCount count - 1)%nat) as [Hj2|Hj2].
      * rewrite Z.testbit_0_l, decide_True; [done|]. unfold EntryCount, BITS_PER_VALUE in *. dlia.
      * rewrite !decide_False; [done|..]; unfold EntryCount, BITS_PER_VALUE in *; dlia.
Qed.

Lemma Combine_rows same m other count :
  wf m -> wf other -> (same = true -> validity_mask m = validity_mask other) ->
  forall j, (j < count)%nat ->
  RowIsValid (Combine same m other count) j = RowIsValid m j && RowIsValid other j.
Proof.
  intros Hm Ho Hsame j Hj. unfold Combine.
  destruct (validity_mask other) as [od|] eqn:Eo.
  2: by rewrite (RowIsValid_None other), andb_true_r.
  destruct (validity_mask m) as [d|] eqn:Em; [|by rewrite (RowIsValid_None m)].
  destruct same.
  - specialize (Hsame eq_refl) as [= ->]. rewrite !(RowIsValid_bit _ od) by done.
    by rewrite andb_diag.
  - erewrite RowIsValid_bit by done. rewrite (RowIsValid_bit m d), (RowIsValid_bit other od) by done.
    unfold bit. pose proof (EntryCount_lt j count Hj).
    rewrite lookup_total_map_seq by done. apply Z.land_spec.
Qed.

(** ** Serialization round trip *)

Lemma Set_list m idxs b :
  wf m -> Forall (fun i => (i < capacity m)%nat) idxs ->
  let m' := fold_left (fun m i => Set_ m i b) idxs m in
  wf m' /\ capacity m' = capacity m
  /\ forall j, (j < capacity m)%nat ->
       RowIsValid m' j = if decide (j ∈ idxs) then b else RowIsValid m j.
Proof.
  revert m; induction idxs as [|i idxs IH]; intros m Hm Hall; cbn [fold_left]; cbv zeta.
  - split_and!; [done..|]. intros j Hj. rewrite decide_False; [done|apply not_elem_of_nil].
  - apply Forall_cons_1 in Hall as [Hi Hall].
    destruct (IH (Set_ m i b)) as (H1 & H2 & H3).
    { by apply Set_wf. }
    { by rewrite Set_capacity. }
    rewrite Set_capacity in H2, H3. split_and!; [done..|]. intros j Hj.
    rewrite H3, Set_row by done.
    repeat case_decide; rewrite ?elem_of_cons in *; intuition congruence.
Qed.

Lemma read_indices_write n w b m idxs rest :
  length idxs = n -> Forall (fun i => Z.of_nat i < 256 ^ Z.of_nat w) idxs ->
  read_indices n w b m (mjoin (map (fun i => le_bytes w (wrapU (8 * Z.of_nat w) (Z.of_nat i))) idxs) ++ rest)
  = Ok (fold_left (fun m i => Set_ m i b) idxs m, rest).
Proof.
  revert n m; induction idxs as [|i idxs IH]; intros n m <- Hall; [done|].
  apply Forall_cons_1 in Hall as [Hi Hall]. cbn [length read_indices map fold_left].
  rewrite mjoin_cons, <- app_assoc. assert (inU (8 * Z.of_nat w) (Z.of_nat i)) as Hu.
  { split; [lia|]. rewrite Z.pow_mul_r by lia. done. }
  rewrite (wrapU_small _ _ Hu). rewrite read_le_write by (split; [lia|done]).
  cbn [mbind result_bind]. rewrite Nat2Z.id. by apply IH.
Qed.

Lemma read_entries_write es rest :
  Forall (inU 64) es -> read_entries (length es) (mjoin (map (le_bytes 8) es) ++ rest) = Ok (es, rest).
Proof.
  induction es as [|e es IH]; intros Hu; [done|]. apply Forall_cons_1 in Hu as [He Hu].
  cbn [length read_entries map]. rewrite mjoin_cons, <- app_assoc.
  rewrite read_le_write by (destruct He; split; [done|by change (256 ^ Z.of_nat 8) with (2 ^ 64)]).
  cbn [mbind result_bind]. by rewrite IH.
Qed.

Lemma map_lookup_seq (es : list Z) n :
  (n <= length es)%nat -> map (fun i => es !!! i) (seq 0 n) = take n es.
Proof.
  intros Hn. apply list_eq_lookup_total.
  - by rewrite length_map, length_seq, length_take_le.
  - intros i Hi. rewrite length_map, length_seq in Hi. rewrite lookup_total_map_seq by done.
    rewrite lookup_total_take_lt by done. done.
Qed.

Lemma select_bounded P n w :
  Z.of_nat n <= 256 ^ Z.of_nat w -> Forall (fun i => Z.of_nat i < 256 ^ Z.of_nat w) (select P n).
Proof. intros Hn. apply Forall_forall. intros i [Hi _]%elem_of_select. lia. Qed.

Lemma Write_bitmask_row es count m rest :
  Forall (inU 64) es -> (EntryCount count <= length es)%nat -> validity_mask m = Some es ->
  Read count ((BITMASK :: mjoin (map (fun i => le_bytes 8 (GetValidityEntry m i)) (seq 0 (EntryCount count)))) ++ rest)
  = Ok (mk (Some (take (EntryCount count) es)) count, rest).
Proof.
  intros Hu Hl Em. unfold Read. cbn [app]. change (BITMASK :: ?x) with (le_bytes 1 BITMASK ++ x).
  rewrite read_le_write by done. cbn [mbind result_bind]. change (BITMASK =? BITMASK) with true.
  cbv iota.
  assert (map (fun i => le_bytes 8 (GetValidityEntry m i)) (seq 0 (EntryCount count))
          = map (le_bytes 8) (take (EntryCount count) es)) as ->.
  { rewrite <- map_lookup_seq by done. rewrite map_map. apply map_ext. intros i.
    unfold GetValidityEntry. by rewrite Em. }
  rewrite <- (length_take_le es (EntryCount count)) at 1 by done.
  rewrite read_entries_write by (by apply Forall_take). done.
Qed.

(** What the index form of [Write] reads back as. *)
Lemma Read_indices_row m count (sv : bool) w rest n :
  wf m -> (count <= capacity m)%nat -> (0 < count)%nat -> Z.of_nat count < 2 ^ 32 ->
  w = (if 65535 <=? Z.of_nat count then 4%nat else 2%nat) ->
  n = length (select (fun i => bool_decide (RowIsValid m i = sv)) count) ->
  exists m', Read count (((if sv then VALID_VALUES else INVALID_VALUES) :: le_bytes 4 (Z.of_nat n)
      ++ mjoin (map (fun i => le_bytes w (wrapU (8 * Z.of_nat w) (Z.of_nat i)))
                    (select (fun i => bool_decide (RowIsValid m i = sv)) count))) ++ rest) = Ok (m', rest)
    /\ forall i, (i < count)%nat -> RowIsValid m' i = RowIsValid m i.
Proof.
  intros Hm Hc H0 H32 -> ->. set (P := fun i => bool_decide (RowIsValid m i = sv)).
  pose proof (select_length_le P count) as Hle. unfold Read. cbn [app].
  change (?f :: ?x) with ([f] ++ x) at 1.
  replace [if sv then VALID_VALUES else INVALID_VALUES]
    with (le_bytes 1 (if sv then VALID_VALUES else INVALID_VALUES)) by (by destruct sv).
  rewrite read_le_write by (by destruct sv). cbn [mbind result_bind].
  replace ((if sv then VALID_VALUES else INVALID_VALUES) =? BITMASK) with false by (by destruct sv).
  replace ((if sv then VALID_VALUES else INVALID_VALUES) =? VALID_VALUES) with sv by (by destruct sv).
  rewrite <- app_assoc, read_le_write by (change (256 ^ Z.of_nat 4) with (2 ^ 32); lia).
  cbn [mbind result_bind]. rewrite Nat2Z.id. rewrite read_indices_write; [|done|].
  2: { apply select_bounded. destruct (Z.leb_spec 65535 (Z.of_nat count)).
       - change (256 ^ Z.of_nat 4) with (2 ^ 32). lia.
       - change (256 ^ Z.of_nat 2) with 65536. lia. }
  eexists. split; [done|]. intros i Hi.
  set (m0 := InitializeCount (mk None STANDARD_VECTOR_SIZE) count).
  assert (wf m0) by (apply (Initialize_wf (mk None count))).
  assert (forall j, (j < count)%nat -> RowIsValid m0 j = true) as Hm0.
  { intros j Hj. rewrite (RowIsValid_bit m0 (ValidityData count)) by done. by apply bit_ValidityData. }
  assert (Forall (fun i => (i < count)%nat) (select P count)) as Hsel.
  { apply Forall_forall. by intros j [??]%elem_of_select. }
  assert ((i ∈ select P count) <-> RowIsValid m i = sv) as Hin.
  { rewrite elem_of_select. unfold P. rewrite bool_decide_eq_true. tauto. }
  destruct sv.
  - destruct (SetAllInvalid_rows m0 count) as (W1 & W2 & W3); [done|simpl; lia|].
    destruct (Set_list (SetAllInvalid m0 count) (select P count) true) as (_ & _ & H3);
      [done|by rewrite W2|]. rewrite H3 by (by rewrite W2).
    rewrite W3, (decide_True (P := (i < count)%nat)) by done.
    case_decide as Hd; rewrite Hin in Hd; [done|]. by destruct (RowIsValid m i).
  - destruct (Set_list m0 (select P count) false) as (_ & _ & H3); [done..|].
    rewrite H3 by done. rewrite Hm0 by done.
    case_decide as Hd; rewrite Hin in Hd; [done|]. by destruct (RowIsValid m i).
Qed.

Lemma Set_loop_sel m (f : nat -> bool) t0 n :
  wf m -> (t0 + n <= capacity m)%nat ->
  exists m', Some (fold_left (fun m i => Set_ m (t0 + i) (f i)) (seq 0 n) m) = Some m'
    /\ wf m' /\ forall j, (j < capacity m)%nat ->
         RowIsValid m' j = if decide (t0 <= j < t0 + n)%nat then f (j - t0)%nat else RowIsValid m j.
Proof. intros Hm Hn. destruct (Set_loop m f t0 n Hm Hn) as (H1 & _ & H3). eauto. Qed.

Lemma Write_Read_rows m count :
  wf m -> (count <= capacity m)%nat -> Z.of_nat count < 2 ^ 32 ->
  exists bytes, Write m count = Ok bytes
    /\ forall rest, exists m', Read count (bytes ++ rest) = Ok (m', rest)
         /\ forall i, (i < count)%nat -> RowIsValid m' i = RowIsValid m i.
Proof.
  intros Hm Hc H32. unfold Write. rewrite CountValid_select by done.
  pose proof (select_count_split (RowIsValid m) count) as Hsplit.
  set (valid := length (select (RowIsValid m) count)) in *.
  destruct (_ || _) eqn:Hidx.
  - assert (0 < count)%nat.
    { destruct count; [|lia]. apply orb_true_iff in Hidx. rewrite !Nat.ltb_lt in Hidx.
      unfold ValidityMaskSize in Hidx. change (EntryCount 0) with 0%nat in Hidx. lia. }
    destruct (Z.ltb_spec (Z.of_nat (Nat.min valid (count - valid))) (2 ^ 32)); [|lia].
    eexists. split; [done|]. intros rest. apply Read_indices_row; [done..|].
    destruct (Nat.ltb_spec ((if 65535 <=? Z.of_nat count then 4 else 2) * valid + 4)
                ((if 65535 <=? Z.of_nat count then 4 else 2) * (count - valid) + 4)) as [Hlt|Hge].
    + rewrite (select_ext _ (RowIsValid m)); [fold valid; destruct (_ <=? _) in Hlt; lia|].
      intros i _. by destruct (RowIsValid m i).
    + rewrite (select_ext _ (fun i => negb (RowIsValid m i)));
        [destruct (_ <=? _) in Hge; lia|]. intros i _. by destruct (RowIsValid m i).
  - eexists. split; [done|]. intros rest. destruct (validity_mask m) as [es|] eqn:E.
    + destruct (Hm es E) as [Hl Hu]. pose proof (EntryCount_mono count (capacity m) Hc).
      eexists. split; [apply (Write_bitmask_row es); [done|lia|done]|]. intros i Hi.
      rewrite (RowIsValid_bit m es) by done. erewrite RowIsValid_bit by done. unfold bit.
      rewrite lookup_total_take_lt; [done|]. by apply EntryCount_lt.
    + (* a null mask is only written this way when there is no row *)
      assert (count = 0%nat) as ->.
      { apply orb_false_iff in Hidx as [_ Hidx]. apply Nat.ltb_ge in Hidx.
        assert (valid = count) as Hv.
        { unfold valid. rewrite select_true; [apply length_seq|]. intros. by apply RowIsValid_None. }
        destruct (decide (count = 0%nat)) as [|Hne]; [done|exfalso].
        pose proof (EntryCount_lt 0 count). unfold ValidityMaskSize in Hidx. rewrite Hv in Hidx.
        rewrite Nat.sub_diag, Nat.mul_0_r in Hidx. lia. }
      eexists. split; [done|]. intros i Hi. lia.
Qed.

(** ** Properties *)

(** [SliceInPlace] implements the row-wise copy: whichever of its three branches runs (whole
    entries with a merged ragged end, shifted entries, row by row), rows
    [target_offset .. target_offset + count) of the target become rows
    [source_offset .. source_offset + count) of the source, every other row keeps its validity, the
    capacity is unchanged and the buffer stays well formed.  The hypothesis [slice_defined]
    excludes the one call shape in which the code dereferences a null source. *)
Theorem slice_in_place_correct m other t s c :
  wf m -> wf other -> (t + c <= capacity m)%nat -> (s + c <= capacity other)%nat ->
  slice_defined m other t s = true ->
  exists m', SliceInPlace m other t s c = Some m' /\ wf m' /\ capacity m' = capacity m
    /\ forall j, (j < capacity m)%nat ->
         RowIsValid m' j = if decide (t <= j < t + c)%nat then RowIsValid other (s + (j - t))
                           else RowIsValid m j.
Proof. apply SliceInPlace_rows. Qed.

Lemma slice_in_place_correct_witness :
  exists m', SliceInPlace (mk None 200) (mk (Some [5; 2 ^ 63; 77; 1]) 256) 64 3 130 = Some m'
    /\ RowIsValid m' 66 = false.
Proof.
  destruct (slice_in_place_correct (mk None 200) (mk (Some [5; 2 ^ 63; 77; 1]) 256) 64 3 130)
    as (m' & H1 & _ & _ & H2).
  - by apply wfb_spec.
  - by apply wfb_spec.
  - simpl. lia.
  - simpl. lia.
  - reflexivity.
  - exists m'. split; [exact H1|]. rewrite H2 by (simpl; lia). reflexivity.
Defined.

(** [CopySel] copies validity through a selection vector: target row
    [target_offset + i] receives the validity of source row [sel[source_offset + i]] (row
    [source_offset + i] for a flat vector) for each [i < copy_count]; the other rows of the target
    keep theirs. *)
Lemma copy_sel_correct m other sel s t c :
  wf m -> wf other -> (t + c <= capacity m)%nat -> (s + c <= capacity other)%nat ->
  exists m', CopySel m other sel s t c = Some m' /\ wf m'
    /\ forall j, (j < capacity m)%nat ->
         RowIsValid m' j
         = if decide (t <= j < t + c)%nat
           then RowIsValid other (match sel with
                                  | None => (s + (j - t))%nat
                                  | Some l => l !!! (s + (j - t))%nat
                                  end)
           else RowIsValid m j.
Proof.
  intros Hm Ho Ht Hs. unfold CopySel, IsMaskSet. rewrite !negb_involutive.
  destruct (AllValid other && AllValid m) eqn:Hall.
  - apply andb_true_iff in Hall as [Ha Hb]. unfold AllValid in Ha, Hb. exists m. split_and!; [done..|].
    intros j Hj. destruct (validity_mask m) eqn:E1, (validity_mask other) eqn:E2; [done..|].
    rewrite !RowIsValid_None by done. by case_decide.
  - destruct sel as [sel|].
    + destruct (Set_loop_sel m (fun i => RowIsValid other (sel !!! (s + i)%nat)) t c) as (m' & ?);
        [done..|]. by exists m'.
    + destruct (IsAligned s && IsAligned t) eqn:Hal.
      * apply andb_true_iff in Hal as [Hs' _].
        destruct (SliceInPlace_rows m other t s c) as (m' & ? & ? & ? & ?);
          [done..|unfold slice_defined; by rewrite Hs', orb_true_r|]. by exists m'.
      * destruct (Set_loop_sel m (fun i => RowIsValid other (s + i)) t c) as (m' & ?);
          [done..|]. by exists m'.
Qed.

Lemma copy_sel_correct_witness :
  exists m', CopySel (mk None 100) (mk (Some [5]) 64) (Some [0; 1; 2; 3]%nat) 1 10 3 = Some m'
    /\ RowIsValid m' 11 = true /\ RowIsValid m' 12 = false.
Proof.
  destruct (copy_sel_correct (mk None 100) (mk (Some [5]) 64) (Some [0; 1; 2; 3]%nat) 1 10 3)
    as (m' & H1 & _ & H2).
  - by apply wfb_spec.
  - by apply wfb_spec.
  - simpl. lia.
  - simpl. lia.
  - exists m'. split; [exact H1|]. rewrite !H2 by (simpl; lia). split; reflexivity.
Defined.

(** [CountValid] (Kernighan's loop per 64-bit entry, with the ragged last entry masked) counts
    exactly the valid rows below [count]; hence [CheckAllValid] and [CheckAllInvalid] decide
    whether every row or no row below [count] is valid. *)
Lemma count_valid_correct m count :
  wf m ->
  CountValid m count = length (List.filter (RowIsValid m) (seq 0 count))
  /\ (CheckAllValid m count = true <-> forall i, (i < count)%nat -> RowIsValid m i = true)
  /\ (CheckAllInvalid m count = true <-> forall i, (i < count)%nat -> RowIsValid m i = false).
Proof.
  intros Hm. unfold CheckAllValid, CheckAllInvalid. rewrite !CountValid_select by done.
  split_and!; [done| |].
  - rewrite Nat.eqb_eq. split; [apply select_full|]. intros H. rewrite select_true by done.
    apply length_seq.
  - rewrite Nat.eqb_eq. split; [|intros H; by rewrite select_false].
    intros H0%nil_length_inv i Hi. destruct (RowIsValid m i) eqn:E; [|done].
    assert (i ∈ select (RowIsValid m) count) as Hin by (by apply elem_of_select).
    rewrite H0 in Hin. by apply not_elem_of_nil in Hin.
Qed.

Lemma count_valid_correct_witness :
  CountValid (mk (Some [2 ^ 64 - 1; 6]) 70) 70 = 66%nat
  /\ CountValid (mk (Some [2 ^ 64 - 1; 6]) 70) 70
     = length (List.filter (RowIsValid (mk (Some [2 ^ 64 - 1; 6]) 70)) (seq 0 70)).
Proof.
  split; [vm_compute; reflexivity|].
  apply (count_valid_correct (mk (Some [2 ^ 64 - 1; 6]) 70) 70). by apply wfb_spec.
Defined.

(** A mask written with [Write] and read back with [Read] has the same validity for every row
    below [count], in each of the three encodings (bitmask, list of the valid rows, list of the
    invalid rows, with 16- or 32-bit indices); exactly the bytes written are consumed. *)
Theorem write_read_roundtrip m count :
  wf m -> (count <= capacity m)%nat -> Z.of_nat count < 2 ^ 32 ->
  exists bytes, Write m count = Ok bytes
    /\ forall rest, exists m', Read count (bytes ++ rest) = Ok (m', rest)
         /\ forall i, (i < count)%nat -> RowIsValid m' i = RowIsValid m i.
Proof. apply Write_Read_rows. Qed.

Lemma write_read_roundtrip_witness :
  exists bytes, Write (mk (Some [2 ^ 64 - 2; 2 ^ 64 - 1]) 128) 128 = Ok bytes
    /\ exists m', Read 128 (bytes ++ [9]) = Ok (m', [9]) /\ RowIsValid m' 0 = false.
Proof.
  destruct (write_read_roundtrip (mk (Some [2 ^ 64 - 2; 2 ^ 64 - 1]) 128) 128) as (bs & H1 & H2).
  - by apply wfb_spec.
  - simpl. lia.
  - reflexivity.
  - exists bs. split; [exact H1|]. destruct (H2 [9]) as (m' & H3 & H4).
    exists m'. split; [exact H3|]. rewrite H4 by lia. reflexivity.
Defined.

(** [SetAllInvalid(count)] clears the rows below [count] and leaves the rows of later
    entries alone, but it also marks the remaining rows of the last touched 64-row entry as valid,
    whatever they were before: it does not mark exactly [count] bits as its comment says. *)
Lemma set_all_invalid_rows m count :
  wf m -> (0 < count <= capacity m)%nat ->
  forall j, (j < capacity m)%nat ->
  RowIsValid (SetAllInvalid m count) j
  = if decide (j < count)%nat then false
    else if decide (j < 64 * EntryCount count)%nat then true
    else RowIsValid m j.
Proof. intros Hm Hc. by destruct (SetAllInvalid_rows m count Hm Hc) as (_ & _ & H). Qed.

End ValidityMask.
