(* ===== verification/NumericStats.v ===== *)
(** * Statistics of a numeric column

    Models src/src/storage/statistics/numeric_stats.{cpp,hpp}, the numeric part of base_statistics.cpp and the
    operators of comparison_operators.hpp: the smallest and the largest value of a part of a column and
    whether it has NULLs, how they are collected and merged, and what they say about a comparison with
    constants ([CheckZonemap]).

    The code is a template over the type of the values; here it is the class [Comparison], whose [CompareLaws]
    are those of an order.  Instances are the integers and the floating point numbers over any order of those
    that are not NaN, with NaN the largest value (comparison_operators.cpp).  A [Value] of the type of the column is an option, [None] the NULL. *)

From S2P Require Import Prelude.

Module NumericStats.

(** ** Comparison operators *)

(** [operator==] and [operator>], or what the code has in their place for floating point numbers. *)
Class Comparison (T : Type) : Type := {
  equals : T -> T -> bool;
  greater : T -> T -> bool
}.

Class CompareLaws (T : Type) `{!Comparison T} : Prop := {
  greater_asym x y : greater x y = true -> greater y x = false;
  greater_cotrans x y z : greater x z = true -> greater x y = true \/ greater y z = true;
  equals_greater x y : equals x y = negb (greater x y) && negb (greater y x)
}.

Definition Equals {T} `{!Comparison T} (left right : T) : bool := equals left right.
Definition NotEquals {T} `{!Comparison T} (left right : T) : bool := negb (Equals left right).
Definition GreaterThan {T} `{!Comparison T} (left right : T) : bool := greater left right.
Definition GreaterThanEquals {T} `{!Comparison T} (left right : T) : bool := negb (GreaterThan right left).
Definition LessThan {T} `{!Comparison T} (left right : T) : bool := GreaterThan right left.
Definition LessThanEquals {T} `{!Comparison T} (left right : T) : bool := negb (GreaterThan left right).

Definition DistinctFrom {T} `{!Comparison T} (left right : option T) : bool :=
  match left, right with
  | Some x, Some y => NotEquals x y
  | None, None => false
  | _, _ => true
  end.
Definition NotDistinctFrom {T} `{!Comparison T} (left right : option T) : bool := negb (DistinctFrom left right).

(** [ComparisonOperationWrapper]: a comparison with NULL does not hold. *)
Definition wrapper {T} (OP : T -> T -> bool) (left right : option T) : bool :=
  match left, right with
  | Some x, Some y => OP x y
  | _, _ => false
  end.

(** The integers. *)
#[global] Instance Z_comparison : Comparison Z := { equals := Z.eqb; greater := Z.gtb }.

#[global] Instance Z_compare_laws : CompareLaws Z.
Proof.
  split; cbn; intros.
  - rewrite Z.gtb_ltb in *. apply Z.ltb_lt in H. apply Z.ltb_ge. lia.
  - rewrite !Z.gtb_ltb in *. rewrite !Z.ltb_lt in *. lia.
  - rewrite !Z.gtb_ltb. apply eq_bool_prop_intro. rewrite !Is_true_true, Z.eqb_eq, andb_true_iff, !negb_true_iff, !Z.ltb_ge. lia.
Qed.

(** The floating point numbers, [T] being those that are not NaN, with an order in which 0.0 equals -0.0. *)
Inductive float (T : Type) : Type :=
| NaN
| Number (x : T).
Arguments NaN {T}.
Arguments Number {T}.

Definition IsNan {T} (x : float T) : bool :=
  match x with
  | NaN => true
  | Number _ => false
  end.

(** The comparisons of C++, which fail for NaN. *)
Definition raw (T : Type) (OP : T -> T -> bool) (left right : float T) : bool :=
  match left, right with
  | Number x, Number y => OP x y
  | _, _ => false
  end.

Definition EqualsFloat {T} `{!Comparison T} (left right : float T) : bool :=
  if IsNan left && IsNan right then true else raw T equals left right.

Definition GreaterThanFloat {T} `{!Comparison T} (left right : float T) : bool :=
  if IsNan right then false else if IsNan left then true else raw T greater left right.

Definition GreaterThanEqualsFloat {T} `{!Comparison T} (left right : float T) : bool :=
  if IsNan right then IsNan left else if IsNan left then true else raw T (fun x y => greater x y || equals x y) left right.

#[global] Instance float_comparison {T} `{!Comparison T} : Comparison (float T) :=
  { equals := EqualsFloat; greater := GreaterThanFloat }.

#[global] Instance float_compare_laws {T} `{!Comparison T} `{!CompareLaws T} : CompareLaws (float T).
Proof.
  split; cbn.
  - intros [|x] [|y]; try done. apply greater_asym.
  - intros [|x] [|y] [|z]; cbn; try done; auto. apply greater_cotrans.
  - intros [|x] [|y]; try done. apply equals_greater.
Qed.

(** The specialisation for floating point numbers agrees with the generic comparison. *)
Lemma GreaterThanEqualsFloat_generic {T} `{!Comparison T} `{!CompareLaws T} (left right : float T) :
  GreaterThanEqualsFloat left right = GreaterThanEquals left right.
Proof.
  destruct left as [|x], right as [|y]; try done. cbn. unfold GreaterThanEquals, GreaterThan. cbn. unfold GreaterThanFloat. cbn.
  rewrite equals_greater. destruct (greater x y) eqn:E; [by rewrite (greater_asym x y E)|done].
Qed.

(** The comparisons of [ExpressionType]; [OTHER_TYPE] is any other of its constants. *)
Inductive ExpressionType : Type :=
| COMPARE_EQUAL | COMPARE_NOTEQUAL | COMPARE_LESSTHAN | COMPARE_GREATERTHAN | COMPARE_LESSTHANOREQUALTO
| COMPARE_GREATERTHANOREQUALTO | COMPARE_DISTINCT_FROM | COMPARE_NOT_DISTINCT_FROM | OTHER_TYPE.

#[global] Instance ExpressionType_eq_dec : EqDecision ExpressionType.
Proof. solve_decision. Defined.

Inductive FilterPropagateResult : Type :=
| NO_PRUNING_POSSIBLE | FILTER_ALWAYS_TRUE | FILTER_ALWAYS_FALSE | FILTER_TRUE_OR_NULL | FILTER_FALSE_OR_NULL.

#[global] Instance FilterPropagateResult_eq_dec : EqDecision FilterPropagateResult.
Proof. solve_decision. Defined.

(** ** Statistics *)

Record NumericStatsData (T : Type) : Type := mkData {
  has_min : bool;
  has_max : bool;
  min : T;
  max : T
}.
Arguments mkData {T}.
Arguments has_min {T}.
Arguments has_max {T}.
Arguments min {T}.
Arguments max {T}.

Record BaseStatistics (T : Type) : Type := mkStats {
  has_null : bool;
  has_no_null : bool;
  distinct_count : Z;
  numeric_data : NumericStatsData T
}.
Arguments mkStats {T}.
Arguments has_null {T}.
Arguments has_no_null {T}.
Arguments distinct_count {T}.
Arguments numeric_data {T}.

Section numeric_stats.
Context {T : Type} `{!Comparison T}.
Abbreviation Value := (option T).
Abbreviation Stats := (BaseStatistics T).
Implicit Types (stats other : Stats) (data : NumericStatsData T).

Definition set_data data stats : Stats := mkStats (has_null stats) (has_no_null stats) (distinct_count stats) data.
Definition set_nulls (n no : bool) stats : Stats := mkStats n no (distinct_count stats) (numeric_data stats).

Definition InitializeUnknown stats : Stats := set_nulls true true stats.
Definition InitializeEmpty stats : Stats := set_nulls false true stats.
Definition CanHaveNull stats : bool := has_null stats.
Definition CanHaveNoNull stats : bool := has_no_null stats.

(** [SetNumericValueInternal]: the value and the flag. *)
Definition SetNumericValueInternal (input : Value) (val : T) : T * bool :=
  match input with
  | None => (val, false)
  | Some v => (v, true)
  end.

Definition SetMin (new_min : Value) stats : Stats :=
  let d := numeric_data stats in
  let '(v, has) := SetNumericValueInternal new_min (min d) in set_data (mkData has (has_max d) v (max d)) stats.
Definition SetMax (new_max : Value) stats : Stats :=
  let d := numeric_data stats in
  let '(v, has) := SetNumericValueInternal new_max (max d) in set_data (mkData (has_min d) has (min d) v) stats.

(** [garbage] is the union before anything is written to it. *)
Definition construct (garbage : NumericStatsData T) : Stats := mkStats false false 0 garbage.
Definition CreateUnknown (garbage : NumericStatsData T) : Stats :=
  SetMax None (SetMin None (InitializeUnknown (construct garbage))).
Definition CreateEmpty (MaximumValue MinimumValue : T) (garbage : NumericStatsData T) : Stats :=
  SetMax (Some MinimumValue) (SetMin (Some MaximumValue) (InitializeEmpty (construct garbage))).

Definition HasMin stats : bool := has_min (numeric_data stats).
Definition HasMax stats : bool := has_max (numeric_data stats).
Definition Min stats : result T := if HasMin stats then Ok (min (numeric_data stats)) else Throw InternalException.
Definition Max stats : result T := if HasMax stats then Ok (max (numeric_data stats)) else Throw InternalException.
Definition MinOrNull stats : Value := if HasMin stats then Some (min (numeric_data stats)) else None.
Definition MaxOrNull stats : Value := if HasMax stats then Some (max (numeric_data stats)) else None.

Definition HasMinMax stats : bool :=
  HasMin stats && HasMax stats && LessThanEquals (min (numeric_data stats)) (max (numeric_data stats)).

Definition IsConstant stats : result bool := hi ← Max stats; lo ← Min stats; Ok (LessThanEquals hi lo).

(** [UpdateNumericStats] of a value. *)
Definition UpdateValue (new_value lo hi : T) : T * T :=
  (if LessThan new_value lo then new_value else lo, if GreaterThan new_value hi then new_value else hi).
Definition Update data (new_value : T) : NumericStatsData T :=
  let '(lo, hi) := UpdateValue new_value (min data) (max data) in mkData (has_min data) (has_max data) lo hi.
Definition UpdateNumericStats (new_value : T) stats : Stats := set_data (Update (numeric_data stats) new_value) stats.

Definition SetHasNull stats : Stats := set_nulls true (has_no_null stats) stats.
Definition SetHasNoNull stats : Stats := set_nulls (has_null stats) true stats.

Definition numeric_Merge stats other : Stats :=
  let stats :=
    if HasMin other && HasMin stats then
      let other_min := min (numeric_data other) in
      if LessThan other_min (min (numeric_data stats)) then SetMin (Some other_min) stats else stats
    else SetMin None stats in
  if HasMax other && HasMax stats then
    let other_max := max (numeric_data other) in
    if GreaterThan other_max (max (numeric_data stats)) then SetMax (Some other_max) stats else stats
  else SetMax None stats.

Definition Merge stats other : Stats :=
  numeric_Merge (set_nulls (has_null stats || has_null other) (has_no_null stats || has_no_null other) stats) other.

(** ** Zone maps *)

Definition ConstantExactRange (lo hi constant : T) : bool := Equals constant lo && Equals constant hi.
Definition ConstantValueInRange (lo hi constant : T) : bool := negb (LessThan constant lo || GreaterThan constant hi).

Definition CheckZonemapValue (comparison_type : ExpressionType) (min_value max_value constant : T) : result FilterPropagateResult :=
  match comparison_type with
  | COMPARE_EQUAL | COMPARE_NOT_DISTINCT_FROM =>
      if ConstantExactRange min_value max_value constant then Ok FILTER_ALWAYS_TRUE
      else if ConstantValueInRange min_value max_value constant then Ok NO_PRUNING_POSSIBLE
      else Ok FILTER_ALWAYS_FALSE
  | COMPARE_NOTEQUAL | COMPARE_DISTINCT_FROM =>
      if negb (ConstantValueInRange min_value max_value constant) then Ok FILTER_ALWAYS_TRUE
      else if ConstantExactRange min_value max_value constant then Ok FILTER_ALWAYS_FALSE
      else Ok NO_PRUNING_POSSIBLE
  | COMPARE_GREATERTHANOREQUALTO =>
      if GreaterThanEquals min_value constant then Ok FILTER_ALWAYS_TRUE
      else if GreaterThanEquals max_value constant then Ok NO_PRUNING_POSSIBLE
      else Ok FILTER_ALWAYS_FALSE
  | COMPARE_GREATERTHAN =>
      if GreaterThan min_value constant then Ok FILTER_ALWAYS_TRUE
      else if GreaterThan max_value constant then Ok NO_PRUNING_POSSIBLE
      else Ok FILTER_ALWAYS_FALSE
  | COMPARE_LESSTHANOREQUALTO =>
      if LessThanEquals max_value constant then Ok FILTER_ALWAYS_TRUE
      else if LessThanEquals min_value constant then Ok NO_PRUNING_POSSIBLE
      else Ok FILTER_ALWAYS_FALSE
  | COMPARE_LESSTHAN =>
      if LessThan max_value constant then Ok FILTER_ALWAYS_TRUE
      else if LessThan min_value constant then Ok NO_PRUNING_POSSIBLE
      else Ok FILTER_ALWAYS_FALSE
  | OTHER_TYPE => Throw InternalException
  end.

Fixpoint CheckZonemapTemplated (comparison_type : ExpressionType) (min_value max_value : T) (constants : list T)
    : result FilterPropagateResult :=
  match constants with
  | [] => Ok FILTER_ALWAYS_FALSE
  | constant :: constants =>
      prune_result ← CheckZonemapValue comparison_type min_value max_value constant;
      match prune_result with
      | NO_PRUNING_POSSIBLE => Ok NO_PRUNING_POSSIBLE
      | FILTER_ALWAYS_TRUE => Ok FILTER_ALWAYS_TRUE
      | _ => CheckZonemapTemplated comparison_type min_value max_value constants
      end
  end.

Definition CheckZonemap stats (comparison_type : ExpressionType) (constants : list T) : result FilterPropagateResult :=
  if negb (HasMinMax stats) then Ok NO_PRUNING_POSSIBLE
  else CheckZonemapTemplated comparison_type (min (numeric_data stats)) (max (numeric_data stats)) constants.

(** [TemplatedVerify] of the rows: a value outside of the statistics is an error. *)
Fixpoint Verify stats (rows : list Value) : result unit :=
  match rows with
  | [] => Ok tt
  | None :: rows => Verify stats rows
  | Some v :: rows =>
      if match MinOrNull stats with Some lo => LessThan v lo | None => false end then Throw InternalException
      else if match MaxOrNull stats with Some hi => GreaterThan v hi | None => false end then Throw InternalException
      else Verify stats rows
  end.

(** ** Theorems *)

Context {laws : CompareLaws T}.

(** The order as a relation. *)
Definition le (x y : T) : Prop := greater x y = false.

Lemma le_refl x : le x x.
Proof. unfold le. destruct (greater x x) eqn:E; [|done]. pose proof (greater_asym x x E). congruence. Qed.

Lemma le_trans x y z : le x y -> le y z -> le x z.
Proof.
  unfold le. intros H1 H2. destruct (greater x z) eqn:E; [|done]. destruct (greater_cotrans x y z E) as [E'|E']; congruence.
Qed.

Lemma greater_le x y : greater x y = true -> le y x.
Proof. apply greater_asym. Qed.

Lemma greater_not_le x y : greater x y = true -> ~ le x y.
Proof. unfold le. congruence. Qed.

Lemma equals_le x y : equals x y = true <-> le x y /\ le y x.
Proof.
  rewrite equals_greater. unfold le. destruct (greater x y), (greater y x); split; try done; intros [H1 H2]; congruence.
Qed.

(** The value is within the statistics. *)
Definition covers_value data (v : T) : Prop :=
  (has_min data = true -> le (min data) v) /\ (has_max data = true -> le v (max data)).

Definition covers_row stats (r : Value) : Prop :=
  match r with
  | Some v => has_no_null stats = true /\ covers_value (numeric_data stats) v
  | None => has_null stats = true
  end.

Definition covers stats (rows : list Value) : Prop := Forall (covers_row stats) rows.

Lemma Update_covers data v : covers_value (Update data v) v.
Proof.
  unfold covers_value, Update, UpdateValue, LessThan, GreaterThan. cbn. split; intros _.
  - destruct (greater (min data) v) eqn:E; [apply le_refl|done].
  - destruct (greater v (max data)) eqn:E; [apply le_refl|done].
Qed.

Lemma Update_keeps data v x : covers_value data x -> covers_value (Update data v) x.
Proof.
  intros [H1 H2]. unfold covers_value, Update, UpdateValue, LessThan, GreaterThan. cbn. split; intros Hh.
  - destruct (greater (min data) v) eqn:E; [|by apply H1]. apply (le_trans _ (min data)); [by apply greater_le|by apply H1].
  - destruct (greater v (max data)) eqn:E; [|by apply H2]. apply (le_trans _ (max data)); [by apply H2|by apply greater_le].
Qed.

Lemma numeric_Merge_nulls stats other :
  has_null (numeric_Merge stats other) = has_null stats /\ has_no_null (numeric_Merge stats other) = has_no_null stats.
Proof.
  unfold numeric_Merge. destruct (HasMin other && HasMin stats); [destruct (LessThan _ _)|];
    (destruct (HasMax other && _); [destruct (GreaterThan _ _)|]); done.
Qed.

Lemma numeric_Merge_left stats other x :
  covers_value (numeric_data stats) x -> covers_value (numeric_data (numeric_Merge stats other)) x.
Proof.
  intros [H1 H2]. unfold numeric_Merge, HasMin, HasMax, LessThan, GreaterThan. destruct stats as [n no dc [hmi hma lo hi]]. destruct other as [n' no' dc' [hmi' hma' lo' hi']].
  cbn in *. destruct hmi', hmi, hma', hma; cbn;
    repeat (match goal with |- context [greater ?a ?b] => destruct (greater a b) eqn:?; cbn end); (split; cbn; intros ?; try done;
    try (by apply H1); try (by apply H2); try (eapply le_trans; [by apply greater_le|by apply H1]); try (eapply le_trans; [by apply H2|by apply greater_le])).
Qed.

Lemma numeric_Merge_right stats other x :
  covers_value (numeric_data other) x -> covers_value (numeric_data (numeric_Merge stats other)) x.
Proof.
  intros [H1 H2]. unfold numeric_Merge, HasMin, HasMax, LessThan, GreaterThan. destruct stats as [n no dc [hmi hma lo hi]]. destruct other as [n' no' dc' [hmi' hma' lo' hi']].
  cbn in *. destruct hmi', hmi, hma', hma; cbn;
    repeat (match goal with |- context [greater ?a ?b] => destruct (greater a b) eqn:?; cbn end); (split; cbn; intros ?; try done;
    try (by apply H1); try (by apply H2); try (eapply le_trans; [eassumption|by apply H1]); try (eapply le_trans; [by apply H2|eassumption])).
Qed.

(** Merging covers what either side covers. *)
Lemma Merge_covers stats other rows1 rows2 : covers stats rows1 -> covers other rows2 -> covers (Merge stats other) (rows1 ++ rows2).
Proof.
  intros H1 H2. apply Forall_app. unfold Merge. set (stats' := set_nulls _ _ stats). destruct (numeric_Merge_nulls stats' other) as [En Eno]. split.
  - eapply Forall_impl; [exact H1|]. intros [v|]; cbn.
    + intros [Hn Hc]. rewrite Eno. cbn. rewrite Hn. split; [done|]. by apply numeric_Merge_left.
    + intros Hn. rewrite En. cbn. by rewrite Hn.
  - eapply Forall_impl; [exact H2|]. intros [v|]; cbn.
    + intros [Hn Hc]. rewrite Eno. cbn. rewrite Hn, orb_true_r. split; [done|]. by apply numeric_Merge_right.
    + intros Hn. rewrite En. cbn. by rewrite Hn, orb_true_r.
Qed.

Lemma Verify_covers stats rows : covers stats rows -> Verify stats rows = Ok tt.
Proof.
  intros H. induction H as [|[v|] rows Hr Hrs IH]; [done| |exact IH]. destruct Hr as [_ [H1 H2]]. cbn.
  unfold MinOrNull, MaxOrNull, HasMin, HasMax, LessThan, GreaterThan, le in *.
  destruct (has_min (numeric_data stats)); [rewrite H1 by done|]; (destruct (has_max (numeric_data stats)); [rewrite H2 by done|]); exact IH.
Qed.

(** *** What a comparison of a value with a constant says *)

Definition compare_value (comparison_type : ExpressionType) (left right : T) : option bool :=
  match comparison_type with
  | COMPARE_EQUAL | COMPARE_NOT_DISTINCT_FROM => Some (Equals left right)
  | COMPARE_NOTEQUAL | COMPARE_DISTINCT_FROM => Some (NotEquals left right)
  | COMPARE_LESSTHAN => Some (LessThan left right)
  | COMPARE_GREATERTHAN => Some (GreaterThan left right)
  | COMPARE_LESSTHANOREQUALTO => Some (LessThanEquals left right)
  | COMPARE_GREATERTHANOREQUALTO => Some (GreaterThanEquals left right)
  | OTHER_TYPE => None
  end.

(** Saturates the comparisons of the context. *)
Ltac order :=
  repeat match goal with
    | H : negb _ = true |- _ => apply negb_true_iff in H
    | H : negb _ = false |- _ => apply negb_false_iff in H
    | H : _ && _ = true |- _ => apply andb_true_iff in H as [? ?]
    | H : _ || _ = false |- _ => apply orb_false_iff in H as [? ?]
    | H : equals _ _ = true |- _ => apply equals_le in H as [? ?]
    | H : le _ _ |- _ => unfold le in H
    | H : greater ?x ?y = true |- _ =>
        lazymatch goal with _ : greater y x = false |- _ => fail | _ => pose proof (greater_asym x y H) end
    end;
  repeat match goal with
    | H1 : greater ?x ?y = false, H2 : greater ?y ?z = false |- _ =>
        lazymatch goal with _ : greater x z = false |- _ => fail | _ => pose proof (le_trans x y z H1 H2 : greater x z = false) end
    end;
  congruence.

Lemma equals_false x y : greater x y = true \/ greater y x = true -> equals x y = false.
Proof. intros H. rewrite equals_greater. destruct H as [->| ->]; [done|]. by rewrite andb_false_r. Qed.

Lemma greater_intro x y : ~ le x y -> greater x y = true.
Proof. unfold le. by destruct (greater x y). Qed.

Lemma CheckZonemapValue_sound ty lo hi c v r :
  le lo v -> le v hi -> CheckZonemapValue ty lo hi c = Ok r ->
  match r with
  | FILTER_ALWAYS_TRUE => compare_value ty v c = Some true
  | FILTER_ALWAYS_FALSE => compare_value ty v c = Some false
  | _ => True
  end.
Proof.
  intros Hlo Hhi. unfold CheckZonemapValue, ConstantExactRange, ConstantValueInRange, compare_value, NotEquals, Equals, LessThanEquals, GreaterThanEquals,
    LessThan, GreaterThan in *.
  assert (forall x, equals c lo && equals c hi = true -> x = v -> equals x c = true) as Hexact.
  { intros x [H1 H2]%andb_true_iff ->. apply equals_le in H1 as [? ?], H2 as [? ?]. apply equals_le. split; [by apply (le_trans _ hi)|by apply (le_trans _ lo)]. }
  assert (greater lo c || greater c hi = true -> equals v c = false) as Hout.
  { intros [H|H]%orb_true_iff; apply equals_false; [left|right]; apply greater_intro; intros ?; order. }
  destruct ty; cbn; try done;
    repeat match goal with |- context [if ?b then _ else _] => destruct b eqn:? end; intros [= <-]; try done; f_equal;
    try (by apply Hexact); try (apply Hout; by apply negb_false_iff); try (apply negb_true_iff, Hout; by rewrite <-(negb_involutive (_ || _))); try (by rewrite Hexact);
    try (apply greater_intro; intros ?; order);
    try (match goal with |- greater ?x ?y = false => destruct (greater x y) eqn:?; [exfalso; order|done] end);
    try (match goal with |- negb (greater ?x ?y) = true => destruct (greater x y) eqn:?; [exfalso; order|done] end);
    try (match goal with |- negb (greater ?x ?y) = false => destruct (greater x y) eqn:?; [done|exfalso; order] end).
Qed.

End numeric_stats.
End NumericStats.
