(* ===== verification/TableFilter.v ===== *)
(** * Filters pushed into a table scan

    Models src/src/planner/filter/{constant,in,null,conjunction,optional}_filter.cpp, [TableFilterSet::PushFilter]
    (src/src/planner/table_filter.cpp), [ColumnData::CheckZonemap] (src/src/storage/table/column_data.cpp) and
    [ColumnSegment::FilterSelection] (src/src/storage/table/column_segment.cpp): the filters on one column, what
    the statistics say about them, and how they thin out the selection of a vector.

    The values of the column are those of a numeric type, [NumericStats.Comparison].  [holds] is what the
    expression of a filter ([ToExpression]) says of a row. *)

From S2P Require Import Prelude ValidityMask NumericStats.

Module TableFilter.
Import NumericStats.

(** ** Filters *)

#[local] Set Warnings "-register-all".

Inductive TableFilter (T : Type) : Type :=
| ConstantFilter (comparison_type : ExpressionType) (constant : T)
| InFilter (values : list T)
| IsNullFilter
| IsNotNullFilter
| ConjunctionOrFilter (child_filters : list (TableFilter T))
| ConjunctionAndFilter (child_filters : list (TableFilter T))
| OptionalFilter (child_filter : TableFilter T).
Arguments ConstantFilter {T}.
Arguments InFilter {T}.
Arguments IsNullFilter {T}.
Arguments IsNotNullFilter {T}.
Arguments ConjunctionOrFilter {T}.
Arguments ConjunctionAndFilter {T}.
Arguments OptionalFilter {T}.

(** [SelectionVector]: no array is the selection of every row. *)
Definition SelectionVector : Type := option (list nat).

Definition get_index (sel : SelectionVector) (idx : nat) : nat :=
  match sel with
  | Some l => l !!! idx
  | None => idx
  end.

Record UnifiedVectorFormat (T : Type) : Type := mkVdata {
  vsel : SelectionVector;
  vdata : list T;
  validity : ValidityMask.t
}.
Arguments mkVdata {T}.
Arguments vsel {T}.
Arguments vdata {T}.
Arguments validity {T}.

Section table_filter.
Context {T : Type} `{!Comparison T}.
Abbreviation Value := (option T).
Abbreviation Filter := (TableFilter T).
Implicit Types (f : Filter) (fs : list Filter).

(** The constructors of ConstantFilter and InFilter refuse NULLs. *)
Definition new_ConstantFilter (comparison_type : ExpressionType) (constant : Value) : result Filter :=
  match constant with
  | None => Throw InternalException
  | Some c => Ok (ConstantFilter comparison_type c)
  end.

Definition new_InFilter (values : list Value) : result Filter :=
  if existsb (fun v => negb (bool_decide (is_Some v))) values then Throw InternalException
  else match values with
       | [] => Throw InternalException
       | _ => Ok (InFilter (omap id values))
       end.

(** [ConstantFilter::Compare] *)
Definition Compare (comparison_type : ExpressionType) (constant : T) (value : Value) : result bool :=
  match comparison_type with
  | COMPARE_EQUAL => Ok (wrapper Equals value (Some constant))
  | COMPARE_NOTEQUAL => Ok (wrapper NotEquals value (Some constant))
  | COMPARE_GREATERTHAN => Ok (wrapper GreaterThan value (Some constant))
  | COMPARE_GREATERTHANOREQUALTO => Ok (wrapper GreaterThanEquals value (Some constant))
  | COMPARE_LESSTHAN => Ok (wrapper LessThan value (Some constant))
  | COMPARE_LESSTHANOREQUALTO => Ok (wrapper LessThanEquals value (Some constant))
  | _ => Throw InternalException
  end.

(** [TableFilterSet::PushFilter] on the filter the column has, if any. *)
Definition PushFilter (entry : option Filter) (filter : Filter) : Filter :=
  match entry with
  | None => filter
  | Some (ConjunctionAndFilter child_filters) => ConjunctionAndFilter (child_filters ++ [filter])
  | Some entry => ConjunctionAndFilter [entry; filter]
  end.

(** ** Zone maps *)

Definition ConstantFilter_CheckStatistics (comparison_type : ExpressionType) (constant : T) (stats : BaseStatistics T)
    : result FilterPropagateResult :=
  if negb (CanHaveNoNull stats) then Ok FILTER_ALWAYS_FALSE
  else
    result ← CheckZonemap stats comparison_type [constant];
    if bool_decide (result = FILTER_ALWAYS_TRUE) && CanHaveNull stats then Ok NO_PRUNING_POSSIBLE else Ok result.

Definition InFilter_CheckStatistics (values : list T) (stats : BaseStatistics T) : result FilterPropagateResult :=
  CheckZonemap stats COMPARE_EQUAL values.

Definition IsNullFilter_CheckStatistics (stats : BaseStatistics T) : FilterPropagateResult :=
  if negb (CanHaveNull stats) then FILTER_ALWAYS_FALSE
  else if negb (CanHaveNoNull stats) then FILTER_ALWAYS_TRUE else NO_PRUNING_POSSIBLE.

Definition IsNotNullFilter_CheckStatistics (stats : BaseStatistics T) : FilterPropagateResult :=
  if negb (CanHaveNoNull stats) then FILTER_ALWAYS_FALSE
  else if negb (CanHaveNull stats) then FILTER_ALWAYS_TRUE else NO_PRUNING_POSSIBLE.

Section conjunctions.
Variable CheckStatistics : Filter -> result FilterPropagateResult.

Fixpoint Or_CheckStatistics fs : result FilterPropagateResult :=
  match fs with
  | [] => Ok FILTER_ALWAYS_FALSE
  | filter :: fs =>
      prune_result ← CheckStatistics filter;
      match prune_result with
      | NO_PRUNING_POSSIBLE => Ok NO_PRUNING_POSSIBLE
      | FILTER_ALWAYS_TRUE => Ok FILTER_ALWAYS_TRUE
      | _ => Or_CheckStatistics fs
      end
  end.

Fixpoint And_CheckStatistics (result : FilterPropagateResult) fs : Prelude.result FilterPropagateResult :=
  match fs with
  | [] => Ok result
  | filter :: fs =>
      prune_result ← CheckStatistics filter;
      if bool_decide (prune_result = FILTER_ALWAYS_FALSE) then Ok FILTER_ALWAYS_FALSE
      else And_CheckStatistics (if bool_decide (prune_result = result) then result else NO_PRUNING_POSSIBLE) fs
  end.
End conjunctions.

Fixpoint CheckStatistics (stats : BaseStatistics T) f {struct f} : result FilterPropagateResult :=
  match f with
  | ConstantFilter comparison_type constant => ConstantFilter_CheckStatistics comparison_type constant stats
  | InFilter values => InFilter_CheckStatistics values stats
  | IsNullFilter => Ok (IsNullFilter_CheckStatistics stats)
  | IsNotNullFilter => Ok (IsNotNullFilter_CheckStatistics stats)
  | ConjunctionOrFilter child_filters => Or_CheckStatistics (CheckStatistics stats) child_filters
  | ConjunctionAndFilter child_filters => And_CheckStatistics (CheckStatistics stats) FILTER_ALWAYS_TRUE child_filters
  | OptionalFilter child_filter => CheckStatistics stats child_filter
  end.

(** [ColumnData::CheckZonemap] of a column and, given whether the segment was checked before, the statistics of
    the current segment and those of the updates, of a segment: the result and the new [segment_checked]. *)
Definition Column_CheckZonemap (stats : option (BaseStatistics T)) (filter : Filter) : result FilterPropagateResult :=
  match stats with
  | None => Throw InternalException
  | Some statistics => CheckStatistics statistics filter
  end.

Definition Segment_CheckZonemap (segment_checked : bool) (current updates : option (BaseStatistics T)) (filter : Filter)
    : result (FilterPropagateResult * bool) :=
  if segment_checked then Ok (NO_PRUNING_POSSIBLE, segment_checked)
  else match current with
       | None => Ok (NO_PRUNING_POSSIBLE, segment_checked)
       | Some statistics =>
           prune_result ← CheckStatistics statistics filter;
           if bool_decide (prune_result = NO_PRUNING_POSSIBLE) then Ok (NO_PRUNING_POSSIBLE, true)
           else match updates with
                | None => Ok (prune_result, true)
                | Some update_stats =>
                    update_result ← CheckStatistics update_stats filter;
                    Ok (if bool_decide (prune_result = update_result) then prune_result else NO_PRUNING_POSSIBLE, true)
                end
       end.

(** ** Selections *)

Context `{!Inhabited T}.
Implicit Types (d : UnifiedVectorFormat T) (sel : SelectionVector) (approved_tuple_count : nat).

Section loops.
Variables (OP : T -> T -> bool) (HAS_NULL IS_NULL : bool).

(** One tuple of [TemplatedFilterSelection]: the index is written whether or not it is kept. *)
Definition filter_tuple d (predicate : T) sel (state : list nat * nat) (i : nat) : list nat * nat :=
  let '(result_sel, result_count) := state in
  let idx := get_index sel i in
  let vector_idx := get_index (vsel d) idx in
  let comparison_result := (negb HAS_NULL || ValidityMask.RowIsValid (validity d) vector_idx) && OP (vdata d !!! vector_idx) predicate in
  (<[result_count := idx]> result_sel, (result_count + if comparison_result then 1 else 0)%nat).

Definition TemplatedFilterSelection d (predicate : T) sel approved_tuple_count (result_sel : list nat) : list nat * nat :=
  fold_left (filter_tuple d predicate sel) (seq 0 approved_tuple_count) (result_sel, 0%nat).

Definition null_tuple d sel (state : list nat * nat) (i : nat) : list nat * nat :=
  let '(result_sel, result_count) := state in
  let idx := get_index sel i in
  let vector_idx := get_index (vsel d) idx in
  if xorb (ValidityMask.RowIsValid (validity d) vector_idx) IS_NULL then (<[result_count := idx]> result_sel, S result_count) else state.

(** The returned count, the selection and [approved_tuple_count]. *)
Definition TemplatedNullSelection d sel approved_tuple_count : nat * (SelectionVector * nat) :=
  if ValidityMask.AllValid (validity d) then
    if IS_NULL then (0%nat, (sel, 0%nat)) else (approved_tuple_count, (sel, approved_tuple_count))
  else
    let '(result_sel, result_count) := fold_left (null_tuple d sel) (seq 0 approved_tuple_count) (replicate approved_tuple_count 0%nat, 0%nat) in
    (result_count, (Some result_sel, result_count)).
End loops.

(** The comparison of a type of comparison the switch knows. *)
Definition comparison_operator (comparison_type : ExpressionType) : result (T -> T -> bool) :=
  match comparison_type with
  | COMPARE_EQUAL => Ok Equals
  | COMPARE_NOTEQUAL => Ok NotEquals
  | COMPARE_LESSTHAN => Ok LessThan
  | COMPARE_GREATERTHAN => Ok GreaterThan
  | COMPARE_LESSTHANOREQUALTO => Ok LessThanEquals
  | COMPARE_GREATERTHANOREQUALTO => Ok GreaterThanEquals
  | _ => Throw NotImplementedException
  end.

Definition FilterSelectionSwitch d (predicate : T) sel approved_tuple_count (comparison_type : ExpressionType)
    : result (SelectionVector * nat) :=
  OP ← comparison_operator comparison_type;
  let new_sel := replicate approved_tuple_count 0%nat in
  let '(new_sel, count) :=
    TemplatedFilterSelection OP (negb (ValidityMask.AllValid (validity d))) d predicate sel approved_tuple_count new_sel in
  Ok (Some new_sel, count).

Section conjunctions.
Variable FilterSelection : Filter -> SelectionVector -> nat -> result (nat * (SelectionVector * nat)).

(** Moves the tuples that pass a child of an OR into the result, each one once. *)
Definition move_tuple (temp_sel : SelectionVector) (state : list nat * nat) (i : nat) : list nat * nat :=
  let '(result_sel, count_total) := state in
  let new_idx := get_index temp_sel i in
  if existsb (fun res_idx => (result_sel !!! res_idx =? new_idx)%nat) (seq 0 count_total) then state
  else (<[count_total := new_idx]> result_sel, S count_total).

Fixpoint Or_FilterSelection fs sel approved_tuple_count (state : list nat * nat) : result (list nat * nat) :=
  match fs with
  | [] => Ok state
  | child_filter :: fs =>
      r ← FilterSelection child_filter sel approved_tuple_count;
      let '(temp_count, (temp_sel, _)) := r in
      Or_FilterSelection fs sel approved_tuple_count (fold_left (move_tuple temp_sel) (seq 0 temp_count) state)
  end.

Fixpoint And_FilterSelection fs sel approved_tuple_count : result (SelectionVector * nat) :=
  match fs with
  | [] => Ok (sel, approved_tuple_count)
  | child_filter :: fs =>
      r ← FilterSelection child_filter sel approved_tuple_count;
      And_FilterSelection fs r.2.1 r.2.2
  end.
End conjunctions.

Fixpoint FilterSelection d (scan_count : nat) f sel approved_tuple_count {struct f} : result (nat * (SelectionVector * nat)) :=
  match f with
  | OptionalFilter _ => Ok (scan_count, (sel, approved_tuple_count))
  | ConjunctionOrFilter child_filters =>
      r ← Or_FilterSelection (FilterSelection d scan_count) child_filters sel approved_tuple_count
            (replicate approved_tuple_count 0%nat, 0%nat);
      let '(result_sel, count_total) := r in
      Ok (count_total, (Some result_sel, count_total))
  | ConjunctionAndFilter child_filters =>
      r ← And_FilterSelection (FilterSelection d scan_count) child_filters sel approved_tuple_count;
      Ok (r.2, r)
  | ConstantFilter comparison_type constant =>
      r ← FilterSelectionSwitch d constant sel approved_tuple_count comparison_type;
      Ok (r.2, r)
  | IsNullFilter => Ok (TemplatedNullSelection true d sel approved_tuple_count)
  | IsNotNullFilter => Ok (TemplatedNullSelection false d sel approved_tuple_count)
  | InFilter _ => Throw InternalException
  end.

(** ** What the filters mean *)

Lemma TableFilter_nested_ind (P : Filter -> Prop) :
  (forall ty c, P (ConstantFilter ty c)) -> (forall vs, P (InFilter vs)) -> P IsNullFilter -> P IsNotNullFilter ->
  (forall fs, Forall P fs -> P (ConjunctionOrFilter fs)) -> (forall fs, Forall P fs -> P (ConjunctionAndFilter fs)) ->
  (forall f, P f -> P (OptionalFilter f)) -> forall f, P f.
Proof.
  intros H1 H2 H3 H4 H5 H6 H7. fix IH 1. intros [ty c|vs| | |fs|fs|f]; [done..| | |by apply H7].
  - apply H5. induction fs; constructor; auto.
  - apply H6. induction fs; constructor; auto.
Qed.

(** The comparison of a row with a constant, as the expression executor does it. *)
Definition compares (comparison_type : ExpressionType) (left right : Value) : bool :=
  match comparison_type with
  | COMPARE_EQUAL => wrapper Equals left right
  | COMPARE_NOTEQUAL => wrapper NotEquals left right
  | COMPARE_LESSTHAN => wrapper LessThan left right
  | COMPARE_GREATERTHAN => wrapper GreaterThan left right
  | COMPARE_LESSTHANOREQUALTO => wrapper LessThanEquals left right
  | COMPARE_GREATERTHANOREQUALTO => wrapper GreaterThanEquals left right
  | COMPARE_DISTINCT_FROM => DistinctFrom left right
  | COMPARE_NOT_DISTINCT_FROM => NotDistinctFrom left right
  | OTHER_TYPE => false
  end.

(** The row satisfies the filter; with [optional], an optional filter is satisfied by every row. *)
Fixpoint holds (optional : bool) f (row : Value) : bool :=
  match f with
  | ConstantFilter comparison_type constant => compares comparison_type row (Some constant)
  | InFilter values => existsb (fun v => wrapper Equals row (Some v)) values
  | IsNullFilter => negb (bool_decide (is_Some row))
  | IsNotNullFilter => bool_decide (is_Some row)
  | ConjunctionOrFilter fs => existsb (fun f => holds optional f row) fs
  | ConjunctionAndFilter fs => forallb (fun f => holds optional f row) fs
  | OptionalFilter f => optional || holds optional f row
  end.

(** No IS DISTINCT FROM, which a NULL satisfies, if there can be NULLs. *)
Fixpoint null_rejecting (nulls : bool) f : bool :=
  match f with
  | ConstantFilter comparison_type _ => negb nulls || negb (bool_decide (comparison_type = COMPARE_DISTINCT_FROM))
  | ConjunctionOrFilter fs | ConjunctionAndFilter fs => forallb (null_rejecting nulls) fs
  | OptionalFilter f => null_rejecting nulls f
  | _ => true
  end.

Lemma null_rejecting_false f : null_rejecting false f = true.
Proof.
  induction f as [ty c|vs| | |fs IH|fs IH|f IH] using TableFilter_nested_ind; cbn; try done;
    apply forallb_forall; intros f Hf; rewrite List.Forall_forall in IH; by apply IH.
Qed.

(** No IN, whose zone map ignores the NULLs; with [optional], none but in optional filters. *)
Fixpoint no_in_filter (optional : bool) f : bool :=
  match f with
  | InFilter _ => false
  | ConjunctionOrFilter fs | ConjunctionAndFilter fs => forallb (no_in_filter optional) fs
  | OptionalFilter f => optional || no_in_filter optional f
  | _ => true
  end.

(** No comparison of another type. *)
Fixpoint checkable f : bool :=
  match f with
  | ConstantFilter comparison_type _ => negb (bool_decide (comparison_type = OTHER_TYPE))
  | ConjunctionOrFilter fs | ConjunctionAndFilter fs => forallb checkable fs
  | OptionalFilter f => checkable f
  | _ => true
  end.

Lemma CheckZonemapTemplated_ok ty lo hi cs : ty <> OTHER_TYPE -> is_ok (CheckZonemapTemplated ty lo hi cs) = true.
Proof.
  intros Hty. induction cs as [|c cs IH]; [done|]. cbn [CheckZonemapTemplated].
  assert (exists r, CheckZonemapValue ty lo hi c = Ok r) as [r ->] by (destruct ty; cbn; repeat case_match; eauto; done).
  cbn. by destruct r.
Qed.

Lemma CheckZonemap_ok stats ty cs : ty <> OTHER_TYPE -> is_ok (CheckZonemap stats ty cs) = true.
Proof. intros Hty. unfold CheckZonemap. destruct (negb _); [done|]. by apply CheckZonemapTemplated_ok. Qed.

Lemma CheckStatistics_ok stats f : checkable f = true -> is_ok (CheckStatistics stats f) = true.
Proof.
  induction f as [ty c|vs| | |fs IH|fs IH|f IH] using TableFilter_nested_ind; cbn; intros Hc; try done.
  - unfold ConstantFilter_CheckStatistics. destruct (negb (CanHaveNoNull _)); [done|]. apply negb_true_iff, bool_decide_eq_false in Hc.
    pose proof (CheckZonemap_ok stats ty [c] Hc). destruct (CheckZonemap _ _ _); [|done]. cbn. by destruct (_ && _).
  - by apply CheckZonemap_ok.
  - induction IH as [|f fs Hf _ IH]; [done|]. cbn in *. apply andb_true_iff in Hc as [H1 H2]. specialize (Hf H1).
    destruct (CheckStatistics stats f) as [[]|]; cbn; try done; by apply IH.
  - generalize FILTER_ALWAYS_TRUE. induction IH as [|f fs Hf _ IH]; [done|]. intros acc. cbn in *. apply andb_true_iff in Hc as [H1 H2]. specialize (Hf H1).
    destruct (CheckStatistics stats f) as [r|]; cbn; [|done]. destruct (bool_decide (r = FILTER_ALWAYS_FALSE)); [done|]. by apply IH.
  - by apply IH.
Qed.

(** ** The zone maps are right *)

Section zonemaps.
Context {laws : CompareLaws T}.

(** What a result of the statistics promises of a row. *)
Definition promises (r : FilterPropagateResult) (rejecting no_in passes passes_optional : bool) : Prop :=
  match r with
  | NO_PRUNING_POSSIBLE => True
  | FILTER_ALWAYS_TRUE => no_in = true -> passes_optional = true
  | FILTER_ALWAYS_FALSE => rejecting = true -> passes = false
  | _ => False
  end.

Lemma compares_value ty v c b : compare_value ty v c = Some b -> compares ty (Some v) (Some c) = b.
Proof. destruct ty; cbn; unfold NotDistinctFrom, DistinctFrom, NotEquals; intros [= <-]; try done. by rewrite negb_involutive. Qed.

Lemma compares_NULL ty c : ty <> COMPARE_DISTINCT_FROM -> compares ty None (Some c) = false.
Proof. by destruct ty. Qed.

Lemma HasMinMax_covers stats v :
  HasMinMax stats = true -> covers_row stats (Some v) -> le (min (numeric_data stats)) v /\ le v (max (numeric_data stats)).
Proof. intros [[H1 H2]%andb_true_iff _]%andb_true_iff [_ [H3 H4]]. by split; [apply H3|apply H4]. Qed.

Lemma CheckZonemapValue_range ty lo hi c r :
  CheckZonemapValue ty lo hi c = Ok r -> r = NO_PRUNING_POSSIBLE \/ r = FILTER_ALWAYS_TRUE \/ r = FILTER_ALWAYS_FALSE.
Proof. destruct ty; cbn; repeat case_match; intros [= <-]; auto. Qed.

Lemma CheckZonemapTemplated_range ty lo hi cs r :
  CheckZonemapTemplated ty lo hi cs = Ok r -> r = NO_PRUNING_POSSIBLE \/ r = FILTER_ALWAYS_TRUE \/ r = FILTER_ALWAYS_FALSE.
Proof. induction cs as [|c cs IH]; cbn; [intros [= <-]; auto|]. destruct (CheckZonemapValue _ _ _ _) as [[]|]; cbn; try intros [= <-]; auto; done. Qed.

Lemma CheckZonemapTemplated_false ty lo hi cs :
  CheckZonemapTemplated ty lo hi cs = Ok FILTER_ALWAYS_FALSE -> Forall (fun c => CheckZonemapValue ty lo hi c = Ok FILTER_ALWAYS_FALSE) cs.
Proof.
  induction cs as [|c cs IH]; [constructor|]. cbn. destruct (CheckZonemapValue ty lo hi c) as [r|] eqn:E; cbn; [|done].
  destruct (CheckZonemapValue_range _ _ _ _ _ E) as [-> |[-> | ->]]; [done..|]. intros H. constructor; auto.
Qed.

Lemma Constant_sound stats ty c (nulls : bool) row r :
  (row = None -> nulls = true) -> covers_row stats row -> ConstantFilter_CheckStatistics ty c stats = Ok r ->
  promises r (negb nulls || negb (bool_decide (ty = COMPARE_DISTINCT_FROM))) true (compares ty row (Some c)) (compares ty row (Some c)).
Proof.
  intros Hnulls Hrow. unfold ConstantFilter_CheckStatistics, CanHaveNoNull, CanHaveNull, CheckZonemap. destruct (has_no_null stats) eqn:Eno; cbn.
  2:{ intros [= <-] Hty. destruct row as [v|]; [by destruct Hrow; congruence|]. rewrite Hnulls in Hty by done. apply compares_NULL. by apply negb_true_iff, bool_decide_eq_false in Hty. }
  destruct (HasMinMax stats) eqn:Emm; cbn; [|by intros [= <-]].
  destruct (CheckZonemapValue ty _ _ c) as [r0|] eqn:E; cbn; [|done]. destruct row as [v|].
  - destruct (HasMinMax_covers _ _ Emm Hrow) as [H1 H2]. pose proof (CheckZonemapValue_sound _ _ _ _ _ _ H1 H2 E) as Hs.
    destruct (CheckZonemapValue_range _ _ _ _ _ E) as [-> |[-> | ->]]; cbn; [by intros [= <-]| |intros [= <-] _; by apply compares_value].
    destruct (has_null stats); intros [= <-]; [done|]. intros _. by apply compares_value.
  - cbn in Hrow. rewrite Hrow. destruct (CheckZonemapValue_range _ _ _ _ _ E) as [-> |[-> | ->]]; cbn; intros [= <-]; [done..|].
    rewrite Hnulls by done. intros Hty. apply compares_NULL. by apply negb_true_iff, bool_decide_eq_false in Hty.
Qed.

Lemma In_sound stats vs row r :
  covers_row stats row -> InFilter_CheckStatistics vs stats = Ok r ->
  promises r true false (existsb (fun v => wrapper Equals row (Some v)) vs) (existsb (fun v => wrapper Equals row (Some v)) vs).
Proof.
  intros Hrow. unfold InFilter_CheckStatistics, CheckZonemap. destruct (HasMinMax stats) eqn:Emm; cbn; [|by intros [= <-]]. intros E.
  destruct (CheckZonemapTemplated_range _ _ _ _ _ E) as [-> |[-> | ->]]; [done..|]. intros _. apply CheckZonemapTemplated_false in E.
  induction E as [|c vs Hc _ IH]; [done|]. cbn -[wrapper]. rewrite IH, orb_false_r. destruct row as [v|]; [|done].
  destruct (HasMinMax_covers _ _ Emm Hrow) as [H1 H2]. by apply (compares_value COMPARE_EQUAL), (CheckZonemapValue_sound _ _ _ _ _ _ H1 H2 Hc).
Qed.

Section children.
Variables (optional nulls : bool) (check : Filter -> result FilterPropagateResult) (row : Value).

Definition sound f : Prop := forall r, check f = Ok r ->
  promises r (null_rejecting nulls f) (no_in_filter optional f) (holds false f row) (holds optional f row).

Lemma Or_sound fs r :
  Forall sound fs -> Or_CheckStatistics check fs = Ok r ->
  promises r (forallb (null_rejecting nulls) fs) (forallb (no_in_filter optional) fs)
    (existsb (fun f => holds false f row) fs) (existsb (fun f => holds optional f row) fs).
Proof.
  induction 1 as [|f fs Hf _ IH]; cbn; [by intros [= <-]|]. unfold sound in Hf. destruct (check f) as [r0|]; cbn; [|done]. specialize (Hf r0 eq_refl).
  destruct r0; cbn in Hf; try done.
  - by intros [= <-].
  - intros [= <-]. cbn. intros [H1 _]%andb_true_iff. by rewrite Hf.
  - intros E. specialize (IH E). destruct r; cbn in *; try done.
    + intros [_ H2]%andb_true_iff. by rewrite IH, orb_true_r.
    + intros [H1 H2]%andb_true_iff. by rewrite Hf, IH.
Qed.

Lemma And_sound fs acc r b :
  Forall sound fs -> acc = NO_PRUNING_POSSIBLE \/ (acc = FILTER_ALWAYS_TRUE /\ b = true) ->
  And_CheckStatistics check acc fs = Ok r ->
  promises r (forallb (null_rejecting nulls) fs) (forallb (no_in_filter optional) fs)
    (forallb (fun f => holds false f row) fs) (b && forallb (fun f => holds optional f row) fs).
Proof.
  intros Hfs. revert acc b. induction Hfs as [|f fs Hf _ IH]; cbn; intros acc b Hacc.
  { intros [= <-]. by destruct Hacc as [-> |[-> ->]]. }
  unfold sound in Hf. destruct (check f) as [r0|]; cbn; [|done]. specialize (Hf r0 eq_refl). destruct (decide (r0 = FILTER_ALWAYS_FALSE)) as [-> |Hne].
  { intros [= <-]. cbn in *. intros [H1 H2]%andb_true_iff. by rewrite Hf. }
  rewrite bool_decide_eq_false_2 by done. intros E. rewrite andb_assoc.
  assert (exists acc', And_CheckStatistics check acc' fs = Ok r /\ (acc' = NO_PRUNING_POSSIBLE \/
    (acc' = FILTER_ALWAYS_TRUE /\ (no_in_filter optional f = true -> b && holds optional f row = true)))) as (acc' & E' & Hacc').
  { eexists. split; [exact E|]. destruct (decide (r0 = acc)) as [<- |Hneq]; [rewrite bool_decide_eq_true_2 by done|rewrite bool_decide_eq_false_2 by done; by left].
    destruct Hacc as [-> |[-> ->]]; [by left|]. by right. }
  destruct (no_in_filter optional f) eqn:Ein.
  - pose proof (IH acc' (b && holds optional f row)) as H. specialize (H ltac:(naive_solver) E'). destruct r; cbn in *; try done;
      intros [_ H2]%andb_true_iff; rewrite H by done; by rewrite ?andb_false_r.
  - pose proof (IH acc' true ltac:(naive_solver) E') as H. destruct r; cbn in *; try done. intros [_ H2]%andb_true_iff. rewrite H by done. by rewrite andb_false_r.
Qed.
End children.

Lemma CheckStatistics_row optional nulls stats f row r :
  (row = None -> nulls = true) -> covers_row stats row -> CheckStatistics stats f = Ok r ->
  promises r (null_rejecting nulls f) (no_in_filter optional f) (holds false f row) (holds optional f row).
Proof.
  intros Hnulls Hrow. revert r. induction f as [ty c|vs| | |fs IH|fs IH|f IH] using TableFilter_nested_ind; intros r; cbn [CheckStatistics holds].
  - by apply Constant_sound.
  - intros E. apply (In_sound _ _ row) in E; [|done]. by destruct r.
  - intros [= <-]. unfold IsNullFilter_CheckStatistics, CanHaveNull, CanHaveNoNull. destruct row as [v|]; cbn in Hrow.
    + destruct Hrow as [-> _]. by destruct (has_null stats).
    + rewrite Hrow. by destruct (has_no_null stats).
  - intros [= <-]. unfold IsNotNullFilter_CheckStatistics, CanHaveNull, CanHaveNoNull. destruct row as [v|]; cbn in Hrow.
    + destruct Hrow as [-> _]. by destruct (has_null stats).
    + rewrite Hrow. by destruct (has_no_null stats).
  - by apply Or_sound.
  - intros E. apply (And_sound optional nulls (CheckStatistics stats) row fs _ r true) in E; [done|done|by right].
  - intros E. specialize (IH r E). destruct optional; [|exact IH]. destruct r; cbn in *; try done; auto.
Qed.

(** A segment is pruned by its own statistics and those of its updates. *)
Lemma Segment_CheckZonemap_false checked current updates f v c :
  Segment_CheckZonemap checked current updates f = Ok (FILTER_ALWAYS_FALSE, c) ->
  (exists s, current = Some s /\ covers_row s (Some v)) \/ (exists s, updates = Some s /\ covers_row s (Some v)) -> holds false f (Some v) = false.
Proof.
  unfold Segment_CheckZonemap. destruct checked; [done|]. destruct current as [s|]; [|done].
  destruct (CheckStatistics s f) as [r|] eqn:E; cbn; [|done]. destruct (decide (r = NO_PRUNING_POSSIBLE)) as [-> |Hne]; [done|].
  rewrite bool_decide_eq_false_2 by done. intros H Hrow.
  assert (r = FILTER_ALWAYS_FALSE /\ forall u, updates = Some u -> CheckStatistics u f = Ok FILTER_ALWAYS_FALSE) as [-> Hu].
  { destruct updates as [u|]; [|by injection H as ->]. destruct (CheckStatistics u f) as [r'|] eqn:E'; cbn in H; [|done].
    destruct (decide (r = r')) as [<- |Hr]; [rewrite bool_decide_eq_true_2 in H by done|by rewrite bool_decide_eq_false_2 in H by done].
    injection H as ->. split; [done|]. by intros u' [= ->]. }
  assert (forall s', covers_row s' (Some v) -> CheckStatistics s' f = Ok FILTER_ALWAYS_FALSE -> holds false f (Some v) = false) as Hs.
  { intros s' Hc Ec. by apply (CheckStatistics_row false false s' f (Some v) _ ltac:(done) Hc Ec), null_rejecting_false. }
  destruct Hrow as [(s' & [= ->] & Hc)|(u & Eu & Hc)]; eauto.
Qed.
End zonemaps.

(** ** The selections are right *)

(** The rows of a selection and the value of a row. *)
Definition selected sel (count : nat) : list nat := map (get_index sel) (seq 0 count).

Definition row d (i : nat) : Value :=
  let vector_idx := get_index (vsel d) i in
  if ValidityMask.RowIsValid (validity d) vector_idx then Some (vdata d !!! vector_idx) else None.

Lemma selected_S sel n : selected sel (S n) = selected sel n ++ [get_index sel n].
Proof. unfold selected. by rewrite seq_S, map_app. Qed.

Lemma selected_take (l : list nat) n : (n <= length l)%nat -> selected (Some l) n = take n l.
Proof.
  induction n as [|n IH]; intros Hn; [by rewrite take_0|]. rewrite selected_S, IH by lia.
  rewrite (take_S_r _ _ (l !!! n)) by (apply list_lookup_lookup_total_lt; lia). done.
Qed.

Lemma take_S_insert (l : list nat) n x : (n < length l)%nat -> take (S n) (<[n := x]> l) = take n l ++ [x].
Proof. intros Hn. rewrite (take_S_r _ _ x) by by apply list_lookup_insert_eq. by rewrite take_insert_ge. Qed.

Lemma AllValid_row m i : ValidityMask.AllValid m = true -> ValidityMask.RowIsValid m i = true.
Proof. unfold ValidityMask.AllValid, ValidityMask.RowIsValid. by destruct (ValidityMask.validity_mask m). Qed.

(** A loop that keeps in a result the tuples a test holds of. *)
Lemma keep_loop (step : list nat * nat -> nat -> list nat * nat) (test : nat -> bool) sel :
  (forall rs c i, exists rs', step (rs, c) i = (rs', (c + if test (get_index sel i) then 1 else 0)%nat)
    /\ length rs' = length rs /\ ((c < length rs)%nat -> take c rs' = take c rs)
    /\ (test (get_index sel i) = true -> (c < length rs)%nat -> take (S c) rs' = take c rs ++ [get_index sel i])) ->
  forall n rs0, (n <= length rs0)%nat -> exists rs c, fold_left step (seq 0 n) (rs0, 0%nat) = (rs, c) /\ length rs = length rs0
    /\ (c <= n)%nat /\ selected (Some rs) c = List.filter test (selected sel n).
Proof.
  intros Hstep n rs0 Hn.
  assert (exists rs c, fold_left step (seq 0 n) (rs0, 0%nat) = (rs, c) /\ length rs = length rs0
    /\ (c <= n)%nat /\ take c rs = List.filter test (selected sel n)) as (rs & c & E & Hl & Hc & Ht).
  2:{ exists rs, c. rewrite selected_take by lia. done. }
  induction n as [|n IH]; [exists rs0, 0%nat; by rewrite take_0|]. destruct IH as (rs & c & E & Hl & Hc & Ht); [lia|].
  rewrite seq_S, fold_left_app, E, selected_S, List.filter_app, <-Ht. cbn. destruct (Hstep rs c n) as (rs' & -> & Hl' & Hk & Ht').
  exists rs'. eexists. split; [done|]. rewrite Hl', Hl. destruct (test (get_index sel n)); (split; [done|]); (split; [lia|]).
  - rewrite Nat.add_1_r. apply Ht'; [done|lia].
  - rewrite Nat.add_0_r, app_nil_r. apply Hk. lia.
Qed.

Lemma TemplatedFilterSelection_spec OP d c sel n rs0 :
  (n <= length rs0)%nat ->
  exists rs k, TemplatedFilterSelection OP (negb (ValidityMask.AllValid (validity d))) d c sel n rs0 = (rs, k) /\ length rs = length rs0 /\ (k <= n)%nat
    /\ selected (Some rs) k = List.filter (fun i => wrapper OP (row d i) (Some c)) (selected sel n).
Proof.
  apply keep_loop. intros rs k i. cbn.
  assert ((negb (negb (ValidityMask.AllValid (validity d))) || ValidityMask.RowIsValid (validity d) (get_index (vsel d) (get_index sel i)))
    && OP (vdata d !!! get_index (vsel d) (get_index sel i)) c = wrapper OP (row d (get_index sel i)) (Some c)) as ->.
  { unfold row. rewrite negb_involutive. destruct (ValidityMask.AllValid (validity d)) eqn:E; [by rewrite AllValid_row|]. cbn.
    by destruct (ValidityMask.RowIsValid _ _). }
  eexists. split; [done|]. rewrite length_insert. split; [done|]. split; [intros _; by apply take_insert_ge|]. intros _. apply take_S_insert.
Qed.

Lemma TemplatedNullSelection_spec (null : bool) d sel n :
  exists sel' k, TemplatedNullSelection null d sel n = (k, (sel', k))
    /\ selected sel' k = List.filter (fun i => xorb (bool_decide (is_Some (row d i))) null) (selected sel n).
Proof.
  assert (forall i, bool_decide (is_Some (row d i)) = ValidityMask.RowIsValid (validity d) (get_index (vsel d) i)) as Hv.
  { intros i. unfold row. by destruct (ValidityMask.RowIsValid _ _). }
  unfold TemplatedNullSelection. destruct (ValidityMask.AllValid (validity d)) eqn:Ha.
  - destruct null; eexists _, _; (split; [done|]).
    + symmetry. induction (selected sel n) as [|x l IH]; [done|]. cbn. by rewrite Hv, AllValid_row.
    + symmetry. induction (selected sel n) as [|x l IH]; [done|]. cbn. rewrite Hv, AllValid_row by done. cbn. by f_equal.
  - destruct (keep_loop (null_tuple null d sel) (fun i => xorb (bool_decide (is_Some (row d i))) null) sel) with (n := n) (rs0 := replicate n 0%nat)
      as (rs & k & E & Hl & Hk & Hs); [|by rewrite length_replicate|rewrite E; eauto].
    intros rs k i. cbn. rewrite <-Hv. destruct (xorb _ _).
    + eexists. split; [by rewrite Nat.add_1_r|]. rewrite length_insert. split; [done|]. split; [intros _; by apply take_insert_ge|]. intros _. apply take_S_insert.
    + exists rs. by rewrite Nat.add_0_r.
Qed.

(** Moving the tuples of one child of an OR: the result stays without duplicates and gets all of them. *)
Lemma move_loop (base : list nat) temp_sel k rs c :
  (length base <= length rs)%nat -> (c <= length rs)%nat -> NoDup (take c rs) ->
  (forall x, x ∈ take c rs -> x ∈ base) -> (forall x, x ∈ selected temp_sel k -> x ∈ base) ->
  exists rs' c', fold_left (move_tuple temp_sel) (seq 0 k) (rs, c) = (rs', c') /\ length rs' = length rs /\ (c' <= length rs)%nat
    /\ NoDup (take c' rs') /\ forall x, x ∈ take c' rs' <-> x ∈ take c rs \/ x ∈ selected temp_sel k.
Proof.
  intros Hb Hc Hnd Hin. induction k as [|k IH]; intros Hk.
  { exists rs, c. repeat split; try done; [by left|]. intros [?|?%elem_of_nil]; done. }
  assert (forall x, x ∈ selected temp_sel (S k) <-> x ∈ selected temp_sel k \/ x = get_index temp_sel k) as HS.
  { intros x. by rewrite selected_S, elem_of_app, list_elem_of_singleton. }
  destruct IH as (rs1 & c1 & E & Hl & Hc1 & Hnd1 & Hmem); [intros x Hx; apply Hk, HS; by left|].
  rewrite seq_S, fold_left_app, E. cbn. set (x0 := get_index temp_sel k) in *.
  assert (existsb (fun i => (rs1 !!! i =? x0)%nat) (seq 0 c1) = true <-> x0 ∈ take c1 rs1) as Hex.
  { rewrite <-selected_take by lia. unfold selected. rewrite existsb_exists, list_elem_of_fmap. setoid_rewrite <-list_elem_of_In. setoid_rewrite Nat.eqb_eq. cbn. naive_solver. }
  destruct (existsb _ _); [exists rs1, c1|exists (<[c1 := x0]> rs1), (S c1)].
  - assert (x0 ∈ take c1 rs1) as H0 by by apply Hex. do 4 (split; [done|]). intros x. rewrite HS, Hmem.
    split; [tauto|]. intros [H|[H| ->]]; [tauto..|]. by apply Hmem.
  - assert (x0 ∉ take c1 rs1) as Hn0 by (intros H0%Hex; done).
    assert (forall x, x ∈ take c1 rs1 ++ [x0] -> x ∈ base) as Hbase.
    { intros x [H|H%list_elem_of_singleton]%elem_of_app; [|subst; apply Hk, HS; by right].
      apply Hmem in H as [H|H]; [by apply Hin|]. apply Hk, HS. by left. }
    assert (NoDup (take c1 rs1 ++ [x0])) as Hnd2.
    { apply NoDup_app. split; [done|]. split; [|apply NoDup_singleton]. by intros x Hx ->%list_elem_of_singleton. }
    assert (c1 < length rs1)%nat as Hlt.
    { assert (length (take c1 rs1 ++ [x0]) <= length base)%nat as H.
      { apply NoDup_incl_length; [by apply NoDup_ListNoDup|]. intros x Hx. apply list_elem_of_In, Hbase. by apply list_elem_of_In. }
      rewrite length_app, length_take_le in H by lia. cbn in H. lia. }
    rewrite length_insert, take_S_insert by done. split; [done|]. split; [done|]. split; [lia|]. split; [done|].
    intros x. rewrite HS, elem_of_app, Hmem, list_elem_of_singleton. tauto.
Qed.

(** What a filter selects of a selection. *)
Definition thins d f sel n sel' n' : Prop :=
  NoDup (selected sel' n') /\ forall i, i ∈ selected sel' n' <-> i ∈ selected sel n /\ holds true f (row d i) = true.

(** The scan can run the filter: only comparisons it knows, an IN only below an OPTIONAL, and no OPTIONAL that
    is a child of an OR. *)
Fixpoint scannable (in_or : bool) f : bool :=
  match f with
  | ConstantFilter comparison_type _ => is_ok (comparison_operator comparison_type)
  | InFilter _ => false
  | IsNullFilter | IsNotNullFilter => true
  | ConjunctionOrFilter fs => forallb (scannable true) fs
  | ConjunctionAndFilter fs => forallb (scannable false) fs
  | OptionalFilter _ => negb in_or
  end.

Lemma scannable_no_in in_or f : scannable in_or f = true -> no_in_filter true f = true.
Proof.
  revert in_or. induction f as [ty c|vs| | |fs IH|fs IH|f IH] using TableFilter_nested_ind; cbn; intros in_or Hs; try done.
  - apply forallb_forall. intros f Hf. rewrite forallb_forall in Hs. rewrite List.Forall_forall in IH. by eapply IH, Hs.
  - apply forallb_forall. intros f Hf. rewrite forallb_forall in Hs. rewrite List.Forall_forall in IH. by eapply IH, Hs.
Qed.

Definition runs d (scan_count : nat) f : Prop := forall in_or sel n,
  scannable in_or f = true -> NoDup (selected sel n) ->
  exists count sel' n', FilterSelection d scan_count f sel n = Ok (count, (sel', n')) /\ (in_or = true -> count = n') /\ thins d f sel n sel' n'.

Lemma thins_filter d f sel n sel' n' :
  NoDup (selected sel n) -> selected sel' n' = List.filter (fun i => holds true f (row d i)) (selected sel n) -> thins d f sel n sel' n'.
Proof.
  intros Hnd E. unfold thins. rewrite E. split; [by apply NoDup_ListNoDup, List.NoDup_filter, NoDup_ListNoDup|].
  intros i. rewrite !list_elem_of_In, filter_In. done.
Qed.

Lemma comparison_operator_compares ty OP v c : comparison_operator ty = Ok OP -> compares ty v (Some c) = wrapper OP v (Some c).
Proof. destruct ty; cbn; intros [= <-]; done. Qed.

Lemma Or_runs d sc fs sel n rs c :
  Forall (runs d sc) fs -> forallb (scannable true) fs = true -> NoDup (selected sel n) ->
  length rs = n -> (c <= n)%nat -> NoDup (take c rs) -> (forall x, x ∈ take c rs -> x ∈ selected sel n) ->
  exists rs' c', Or_FilterSelection (FilterSelection d sc) fs sel n (rs, c) = Ok (rs', c') /\ length rs' = n /\ (c' <= n)%nat /\ NoDup (take c' rs')
    /\ forall i, i ∈ take c' rs' <-> i ∈ take c rs \/ (i ∈ selected sel n /\ existsb (fun f => holds true f (row d i)) fs = true).
Proof.
  intros Hfs Hsc Hnd. revert rs c. induction Hfs as [|f fs Hf Hfs IH]; intros rs c Hl Hc Hr Hin; cbn.
  { exists rs, c. repeat split; try done; [by left|]. by intros [?|[_ ?]]. }
  cbn in Hsc. apply andb_true_iff in Hsc as [Hsc1 Hsc2]. destruct (Hf true sel n Hsc1 Hnd) as (count & sel1 & n1 & E & Hcount & Hnd1 & Hmem1).
  rewrite E. cbn. rewrite Hcount by done.
  destruct (move_loop (selected sel n) sel1 n1 rs c) as (rs1 & c1 & -> & Hl1 & Hc1 & Hr1 & Hm1); [|lia|done|done| |].
  { unfold selected. rewrite length_map, length_seq. lia. }
  { by intros x [H _]%Hmem1. }
  destruct (IH Hsc2 rs1 c1) as (rs2 & c2 & E2 & Hl2 & Hc2 & Hr2 & Hm2); [lia|lia|done| |].
  { intros x [Hx|[Hx _]%Hmem1]%Hm1; [by apply Hin|done]. }
  exists rs2, c2. repeat split; try done; rewrite Hm2, Hm1, Hmem1, orb_true_iff; tauto.
Qed.

Lemma And_runs d sc fs sel n :
  Forall (runs d sc) fs -> forallb (scannable false) fs = true -> NoDup (selected sel n) ->
  exists sel' n', And_FilterSelection (FilterSelection d sc) fs sel n = Ok (sel', n') /\ thins d (ConjunctionAndFilter fs) sel n sel' n'.
Proof.
  intros Hfs Hsc. revert sel n. induction Hfs as [|f fs Hf Hfs IH]; intros sel n Hnd; cbn.
  { exists sel, n. repeat split; try done. by intros [? _]. }
  cbn in Hsc. apply andb_true_iff in Hsc as [Hsc1 Hsc2]. destruct (Hf false sel n Hsc1 Hnd) as (count & sel1 & n1 & E & _ & Hnd1 & Hmem1).
  rewrite E. cbn. destruct (IH Hsc2 sel1 n1 Hnd1) as (sel2 & n2 & E2 & Hnd2 & Hmem2). exists sel2, n2. split; [done|]. split; [done|].
  intros i. rewrite Hmem2, Hmem1. cbn. rewrite andb_true_iff. tauto.
Qed.

Lemma FilterSelection_runs d sc f : runs d sc f.
Proof.
  induction f as [ty c|vs| | |fs IH|fs IH|f IH] using TableFilter_nested_ind; intros in_or sel n Hsc Hnd; cbn [FilterSelection].
  - cbn in Hsc. unfold FilterSelectionSwitch. destruct (comparison_operator ty) as [OP|] eqn:EOP; [|done]. cbn.
    destruct (TemplatedFilterSelection_spec OP d c sel n (replicate n 0%nat)) as (rs & k & -> & _ & _ & Hs); [by rewrite length_replicate|].
    cbn. eexists _, _, _. split; [done|]. split; [done|]. apply thins_filter; [done|]. rewrite Hs. apply filter_ext. intros i. cbn. symmetry. by apply comparison_operator_compares.
  - done.
  - destruct (TemplatedNullSelection_spec true d sel n) as (sel' & k & -> & Hs). eexists _, _, _. split; [done|]. split; [done|].
    apply thins_filter; [done|]. rewrite Hs. apply filter_ext. intros i. cbn. by rewrite xorb_true_r.
  - destruct (TemplatedNullSelection_spec false d sel n) as (sel' & k & -> & Hs). eexists _, _, _. split; [done|]. split; [done|].
    apply thins_filter; [done|]. rewrite Hs. apply filter_ext. intros i. cbn. by rewrite xorb_false_r.
  - destruct (Or_runs d sc fs sel n (replicate n 0%nat) 0 IH Hsc Hnd) as (rs & k & -> & Hl & Hk & Hr & Hm); [by rewrite length_replicate|lia|by rewrite take_0; constructor| |].
    { intros x. rewrite take_0. by intros ?%elem_of_nil. }
    cbn. eexists _, _, _. split; [done|]. split; [done|]. unfold thins. rewrite selected_take by lia. split; [done|].
    intros i. rewrite Hm, take_0, elem_of_nil. cbn. tauto.
  - destruct (And_runs d sc fs sel n IH Hsc Hnd) as (sel' & n' & -> & Ht). cbn. eexists _, _, _. split; [done|]. split; [done|]. done.
  - cbn in Hsc. destruct in_or; [done|]. eexists _, _, _. split; [done|]. split; [done|]. split; [done|]. intros i. cbn. tauto.
Qed.
End table_filter.

(** ** The theorems *)




(** A filter leaves of a selection exactly the rows that satisfy it, every one once; an optional filter leaves
    all of them. *)
Theorem filter_selection_correct {T} `{!Comparison T} `{!Inhabited T} (d : UnifiedVectorFormat T) scan_count f sel n :
  scannable false f = true -> NoDup (selected sel n) ->
  exists count sel' n', FilterSelection d scan_count f sel n = Ok (count, (sel', n'))
    /\ selected sel' n' ≡ₚ List.filter (fun i => holds true f (row d i)) (selected sel n).
Proof.
  intros Hf Hnd. destruct (FilterSelection_runs d scan_count f false sel n Hf Hnd) as (count & sel' & n' & E & _ & Hnd' & Hm).
  exists count, sel', n'. split; [done|]. apply NoDup_Permutation; [done|by apply NoDup_ListNoDup, List.NoDup_filter, NoDup_ListNoDup|].
  intros i. rewrite Hm, !list_elem_of_In, filter_In. done.
Qed.

Lemma filter_selection_correct_witness :
  let d := mkVdata None [4; 8; 15; 16; 23; 42] (ValidityMask.mk (Some [lnotU 64 4]) 64) in
  let f := ConjunctionAndFilter [ConjunctionOrFilter [ConstantFilter COMPARE_GREATERTHAN 20; ConstantFilter COMPARE_EQUAL 8; IsNullFilter];
                                 OptionalFilter (InFilter [1])] in
  exists count sel' n', FilterSelection d 6 f None 6 = Ok (count, (sel', n')) /\ selected sel' n' ≡ₚ [1; 2; 4; 5]%nat.
Proof.
  intros d f. exact (filter_selection_correct d 6 f None 6 eq_refl (NoDup_seq 0 6)).
Defined.

End TableFilter.
