(* ===== verification/ScanFilter.v ===== *)
(** * The filters of a scan of a row group

    Models [ScanFilterInfo] (src/src/storage/table/scan_state.cpp), [AdaptiveFilter]
    (src/src/execution/adaptive_filter.cpp), and of src/src/storage/table/row_group.cpp the zone maps of a row
    group ([CheckZonemap]) and of its segments ([CheckZonemapSegments], [NextVector]) and the filter loop of
    [TemplatedScan].

    The columns of the table have their own types: [T i] is the type of column [i].  A row group is what the
    filters use of it: the statistics of its columns and of their segments, and the scanned vectors. *)

From S2P Require Import Prelude ValidityMask NumericStats TableFilter.

(** ** The order of the filters *)

Module AdaptiveFilter.

(** [std::swap] of two elements of a vector, whose access is checked. *)
Definition swap (l : list nat) (i j : nat) : result (list nat) :=
  match l !! i, l !! j with
  | Some x, Some y => Ok (<[j := x]> (<[i := y]> l))
  | _, _ => Throw InternalException
  end.

Section adaptive.
(** The running times: doubles in the code. *)
Context {R : Type} (zero : R) (plus : R -> R -> R) (mean : R -> nat -> R) (not_faster : R -> R -> bool).

Record t : Type := mk {
  permutation : list nat;
  disable_permutations : bool;
  iteration_count : nat;
  swap_idx : nat;
  right_random_border : nat;
  observe_interval : nat;
  execute_interval : nat;
  runtime_sum : R;
  prev_mean : R;
  observe : bool;
  warmup : bool;
  swap_likeliness : list nat
}.

(** [AdaptiveFilter(const TableFilterSet &)]: [initial_order] is [ExpressionHeuristics::GetInitialOrder]. *)
Definition from_filters (initial_order : list nat) (filters : nat) : t :=
  mk initial_order false 0 0 (100 * (filters - 1)) 10 20 zero zero false true (replicate (filters - 1) 100%nat).

(** [AdaptiveFilter(const Expression &)], given of each child whether it can throw. *)
Definition from_expression (can_throw : list bool) : t :=
  let n := length can_throw in
  mk (seq 0 n) (existsb id can_throw) 0 0 (100 * (n - 1)) 10 20 zero zero false true (replicate (n - 1) 100%nat).

Definition reset (a : t) : t :=
  mk (permutation a) (disable_permutations a) 0 (swap_idx a) (right_random_border a) (observe_interval a) (execute_interval a)
    zero (prev_mean a) (observe a) (warmup a) (swap_likeliness a).

(** [random min max] is the next number of the generator. *)
Definition AdaptRuntimeStatistics (random : nat -> nat -> nat) (duration : R) (a0 : t) : result t :=
  let a := mk (permutation a0) (disable_permutations a0) (S (iteration_count a0)) (swap_idx a0) (right_random_border a0)
    (observe_interval a0) (execute_interval a0) (plus (runtime_sum a0) duration) (prev_mean a0) (observe a0) (warmup a0) (swap_likeliness a0) in
  if negb (warmup a) then
    if observe a && (iteration_count a =? observe_interval a)%nat then
      pl ← (if not_faster (prev_mean a) (mean (runtime_sum a) (iteration_count a)) then
              p ← swap (permutation a) (swap_idx a) (swap_idx a + 1);
              match swap_likeliness a !! swap_idx a with
              | Some l => Ok (p, if (1 <? l)%nat then <[swap_idx a := (l / 2)%nat]> (swap_likeliness a) else swap_likeliness a)
              | None => Throw InternalException
              end
            else match swap_likeliness a !! swap_idx a with
                 | Some _ => Ok (permutation a, <[swap_idx a := 100%nat]> (swap_likeliness a))
                 | None => Throw InternalException
                 end);
      let '(p, l) := pl in
      Ok (mk p (disable_permutations a) 0 (swap_idx a) (right_random_border a) (observe_interval a) (execute_interval a)
            zero (prev_mean a) false (warmup a) l)
    else if negb (observe a) && (iteration_count a =? execute_interval a)%nat then
      if Z.of_nat (right_random_border a) >=? 2 ^ 32 then Throw InternalException
      else
        let random_number := random 1%nat (right_random_border a) in
        let idx := (random_number / 100)%nat in
        let likeliness := (random_number - 100 * idx)%nat in
        match swap_likeliness a !! idx with
        | None => Throw InternalException
        | Some l =>
            po ← (if (likeliness <? l)%nat then p ← swap (permutation a) idx (idx + 1); Ok (p, true) else Ok (permutation a, observe a));
            let '(p, o) := po in
            Ok (mk p (disable_permutations a) 0 idx (right_random_border a) (observe_interval a) (execute_interval a)
                  zero (mean (runtime_sum a) (iteration_count a)) o (warmup a) (swap_likeliness a))
        end
    else Ok a
  else if (iteration_count a =? 5)%nat then
    Ok (mk (permutation a) (disable_permutations a) 0 (swap_idx a) (right_random_border a) (observe_interval a) (execute_interval a)
          zero (prev_mean a) false false (swap_likeliness a))
  else Ok a.

(** [EndFilter] after a scan that took [duration]. *)
Definition EndFilter (random : nat -> nat -> nat) (duration : R) (a : t) : result t :=
  if (length (permutation a) <=? 1)%nat || disable_permutations a then Ok a else AdaptRuntimeStatistics random duration a.

(** A scan after the other. *)
Fixpoint run (calls : list ((nat -> nat -> nat) * R)) (a : t) : result t :=
  match calls with
  | [] => Ok a
  | (random, duration) :: calls => a ← EndFilter random duration a; run calls a
  end.

(** *** The permutation stays one *)

Definition wf (n : nat) (a : t) : Prop :=
  Permutation (seq 0 n) (permutation a) /\ right_random_border a = (100 * (n - 1))%nat /\ length (swap_likeliness a) = (n - 1)%nat
  /\ Forall (fun l => (1 <= l <= 100)%nat) (swap_likeliness a) /\ ((2 <= n)%nat -> (swap_idx a + 1 < n)%nat).

(** What the generator promises: a number from the lower bound up to below the upper one. *)
Definition generates (random : nat -> nat -> nat) : Prop := forall lo hi, (lo < hi)%nat -> (lo <= random lo hi < hi)%nat.

Lemma swap_permutation l i j : (i < length l)%nat -> (j < length l)%nat -> i <> j -> exists l', swap l i j = Ok l' /\ Permutation l l'.
Proof.
  intros Hi Hj Hne. unfold swap. destruct (lookup_lt_is_Some_2 l i Hi) as [x Hx]. destruct (lookup_lt_is_Some_2 l j Hj) as [y Hy].
  rewrite Hx, Hy. eexists. split; [done|]. apply Permutation_inj. rewrite !length_insert. split; [done|].
  exists (fun k => if decide (k = i) then j else if decide (k = j) then i else k). split.
  - intros k k'. repeat case_decide; congruence.
  - intros k. repeat case_decide; subst; repeat (rewrite ?list_lookup_insert_eq, ?list_lookup_insert_ne by (rewrite ?length_insert; done)); rewrite ?length_insert; try done.
Qed.

Lemma from_filters_wf order n : Permutation (seq 0 n) order -> wf n (from_filters order n).
Proof.
  intros H. split; [done|]. split; [done|]. cbn. rewrite length_replicate. split; [done|]. split; [|lia].
  apply Forall_replicate. lia.
Qed.

Lemma from_expression_wf can_throw : wf (length can_throw) (from_expression can_throw).
Proof. split; [done|]. split; [done|]. cbn. rewrite length_replicate. split; [done|]. split; [|lia]. apply Forall_replicate. lia. Qed.

Lemma swap_next n p i : Permutation (seq 0 n) p -> (i + 1 < n)%nat -> exists p', swap p i (i + 1) = Ok p' /\ Permutation (seq 0 n) p'.
Proof.
  intros Hp Hi. assert (length p = n) as Hl by (rewrite <-(Permutation_length Hp); apply length_seq).
  destruct (swap_permutation p i (i + 1)) as (p' & E & Hp'); [lia..|]. exists p'. split; [done|]. by etransitivity.
Qed.

Lemma likeliness_insert l i x n :
  length l = n -> Forall (fun l => (1 <= l <= 100)%nat) l -> (1 <= x <= 100)%nat ->
  length (<[i := x]> l) = n /\ Forall (fun l => (1 <= l <= 100)%nat) (<[i := x]> l).
Proof. intros Hl Hf Hx. split; [by rewrite length_insert|]. by apply Forall_insert. Qed.

Lemma AdaptRuntimeStatistics_wf random duration n a :
  (2 <= n)%nat -> Z.of_nat n <= 2 ^ 24 -> generates random -> wf n a ->
  exists a', AdaptRuntimeStatistics random duration a = Ok a' /\ wf n a' /\ disable_permutations a' = disable_permutations a.
Proof.
  intros Hn Hn' Hg (Hp & Hr & Hl & Hf & Hs). specialize (Hs Hn). unfold AdaptRuntimeStatistics. cbn -[Nat.ltb Nat.eqb].
  destruct (warmup a); cbn -[Nat.ltb Nat.eqb].
  { match goal with |- context [if ?b then Ok _ else _] => destruct b end; (eexists; split; [reflexivity|]; split; [|reflexivity]; repeat split; cbn; auto). }
  destruct (lookup_lt_is_Some_2 (swap_likeliness a) (swap_idx a)) as [l Hlk]; [lia|].
  destruct (observe a && _) eqn:E1.
  { destruct (swap_next n _ _ Hp Hs) as (p' & E & Hp'). pose proof (proj1 (Forall_lookup _ _) Hf _ _ Hlk) as Hlb. cbn in Hlb.
    destruct (not_faster _ _); [rewrite E|]; cbn -[Nat.ltb]; rewrite Hlk; cbn -[Nat.ltb]; (eexists; split; [reflexivity|]; split; [|reflexivity]).
    - destruct (1 <? l)%nat eqn:El; [|by repeat split; cbn; auto]. apply Nat.ltb_lt in El.
      destruct (likeliness_insert (swap_likeliness a) (swap_idx a) (l / 2) (n - 1) Hl Hf) as [H1 H2].
      { split; [apply Nat.div_le_lower_bound; lia|]. apply Nat.Div0.div_le_upper_bound. lia. }
      by repeat split; cbn; auto.
    - destruct (likeliness_insert (swap_likeliness a) (swap_idx a) 100 (n - 1) Hl Hf) as [H1 H2]; [lia|]. by repeat split; cbn; auto. }
  destruct (negb (observe a) && _) eqn:E2; [|eexists; split; [reflexivity|]; split; [|reflexivity]; repeat split; cbn; auto].
  rewrite Hr. assert ((Z.of_nat (100 * (n - 1)) >=? 2 ^ 32) = false) as -> by (rewrite Z.geb_leb; apply Z.leb_gt; lia).
  set (x := random 1%nat (100 * (n - 1))%nat). assert (1 <= x < 100 * (n - 1))%nat as Hx by (apply Hg; lia).
  assert (x / 100 < n - 1)%nat as Hidx by (apply Nat.Div0.div_lt_upper_bound; lia).
  destruct (lookup_lt_is_Some_2 (swap_likeliness a) (x / 100)) as [l' Hlk']; [lia|]. rewrite Hlk'.
  destruct (swap_next n _ (x / 100) Hp) as (p' & E & Hp'); [lia|].
  destruct (_ <? l')%nat; [rewrite E|]; cbn -[Nat.ltb Nat.eqb]; (eexists; split; [reflexivity|]; split; [|reflexivity]; repeat split; cbn; auto; lia).
Qed.

Lemma run_wf n calls a :
  Z.of_nat n <= 2 ^ 24 -> Forall (fun c => generates c.1) calls -> wf n a -> exists a', run calls a = Ok a' /\ wf n a'.
Proof.
  intros Hn Hg. revert a. induction Hg as [|[random duration] calls Hc _ IH]; cbn; intros a Hw; [by exists a|].
  assert (exists a', EndFilter random duration a = Ok a' /\ wf n a') as (a' & -> & Hw'); [|by apply IH].
  unfold EndFilter. destruct (_ || _) eqn:E; [by exists a|]. apply orb_false_iff in E as [E _]. apply Nat.leb_gt in E.
  rewrite <-(Permutation_length (proj1 Hw)), length_seq in E. destruct (AdaptRuntimeStatistics_wf random duration n a) as (a' & ? & ? & _); eauto.
Qed.

End adaptive.



End AdaptiveFilter.

(** ** The filters of a scan and the row group *)

Module ScanFilter.
Import NumericStats TableFilter.

Section scan_filter.
(** The types of the columns of the table. *)
Context {T : nat -> Type} {comparison : forall i, Comparison (T i)} {inhabited : forall i, Inhabited (T i)}.

Record ScanFilter : Type := mkScanFilter {
  scan_column_index : nat;
  table_column_index : nat;
  filter : TableFilter (T table_column_index);
  always_true : bool
}.

Record ScanFilterInfo : Type := mkInfo {
  table_filters : bool;
  filter_list : list ScanFilter;
  column_has_filter : list bool;
  base_column_has_filter : list bool;
  always_true_filters : nat
}.

(** [Initialize]: the filters of the set, by the index into [column_ids] of their column. *)
Definition Initialize (column_ids : list nat) (filters : list {index : nat & TableFilter (T (column_ids !!! index))}) : ScanFilterInfo :=
  let has := map (fun col_idx => existsb (fun f => (projT1 f =? col_idx)%nat) filters) (seq 0 (length column_ids)) in
  mkInfo true (map (fun f => mkScanFilter (projT1 f) (column_ids !!! projT1 f) (projT2 f) false) filters) has has 0.

Definition no_filters : ScanFilterInfo := mkInfo false [] [] [] 0.

Definition ColumnHasFilters (info : ScanFilterInfo) (column_idx : nat) : bool :=
  match column_has_filter info !! column_idx with
  | Some b => b
  | None => false
  end.

Definition HasFilters (info : ScanFilterInfo) : bool :=
  if negb (table_filters info) then false else (always_true_filters info <? length (filter_list info))%nat.

Definition set_always_true (b : bool) (f : ScanFilter) : ScanFilter := mkScanFilter (scan_column_index f) (table_column_index f) (filter f) b.

Definition CheckAllFilters (info : ScanFilterInfo) : ScanFilterInfo :=
  mkInfo (table_filters info) (map (set_always_true false) (filter_list info)) (base_column_has_filter info) (base_column_has_filter info) 0.

Definition SetFilterAlwaysTrue (filter_idx : nat) (info : ScanFilterInfo) : result ScanFilterInfo :=
  match filter_list info !! filter_idx with
  | None => Throw InternalException
  | Some f =>
      if always_true f then Ok info
      else Ok (mkInfo (table_filters info) (<[filter_idx := set_always_true true f]> (filter_list info))
                 (<[scan_column_index f := false]> (column_has_filter info)) (base_column_has_filter info) (S (always_true_filters info)))
  end.

(** *** [RowGroup::CheckZonemap] *)

Definition is_optional {i} (f : TableFilter (T i)) : bool :=
  match f with
  | OptionalFilter _ => true
  | _ => false
  end.

Fixpoint zonemap_filters (stats : forall i, option (BaseStatistics (T i))) (idxs : list nat) (info : ScanFilterInfo)
    : result (bool * ScanFilterInfo) :=
  match idxs with
  | [] => Ok (true, info)
  | i :: idxs =>
      match filter_list info !! i with
      | None => Throw InternalException
      | Some entry =>
          prune_result ← Column_CheckZonemap (stats (table_column_index entry)) (filter entry);
          if bool_decide (prune_result = FILTER_ALWAYS_FALSE) then Ok (false, info)
          else if is_optional (filter entry) || bool_decide (prune_result = FILTER_ALWAYS_TRUE)
          then info ← SetFilterAlwaysTrue i info; zonemap_filters stats idxs info
          else zonemap_filters stats idxs info
      end
  end.

Definition CheckZonemap (stats : forall i, option (BaseStatistics (T i))) (info : ScanFilterInfo) : result (bool * ScanFilterInfo) :=
  let info := CheckAllFilters info in
  zonemap_filters stats (seq 0 (length (filter_list info))) info.

(** *** The filter loop of [TemplatedScan] *)

(** [vectors] are the scanned vectors of the columns, [scan_count] how many rows they have. *)
Fixpoint filter_loop (vectors : forall i, UnifiedVectorFormat (T i)) (scan_count : nat) (info : ScanFilterInfo) (permutation : list nat)
    (idxs : list nat) (sel : SelectionVector) (approved_tuple_count : nat) : result (SelectionVector * nat) :=
  match idxs with
  | [] => Ok (sel, approved_tuple_count)
  | i :: idxs =>
      match permutation !! i ≫= fun filter_idx => filter_list info !! filter_idx with
      | None => Throw InternalException
      | Some f =>
          if always_true f then filter_loop vectors scan_count info permutation idxs sel approved_tuple_count
          else if (approved_tuple_count =? 0)%nat then filter_loop vectors scan_count info permutation idxs sel approved_tuple_count
          else
            r ← FilterSelection (vectors (table_column_index f)) scan_count (filter f) sel approved_tuple_count;
            filter_loop vectors scan_count info permutation idxs r.2.1 r.2.2
      end
  end.

(** The rows of a vector that a scan keeps, [count] of [max_count] being visible to the transaction. *)
Definition scan_vector (vectors : forall i, UnifiedVectorFormat (T i)) (info : ScanFilterInfo) (permutation : list nat)
    (valid_sel : list nat) (count max_count : nat) : result (SelectionVector * nat) :=
  let has_filters := HasFilters info in
  if (count =? max_count)%nat && negb has_filters then Ok (None, count)
  else
    let sel := if negb (count =? max_count)%nat then Some valid_sel else None in
    if has_filters then filter_loop vectors max_count info permutation (seq 0 (length (filter_list info))) sel count
    else Ok (sel, count).

(** *** [CheckZonemapSegments] *)

Record ColumnSegment (A : Type) : Type := mkSegment {
  seg_start : nat;
  seg_count : nat;
  seg_stats : BaseStatistics A
}.
Arguments mkSegment {A}.
Arguments seg_start {A}.
Arguments seg_count {A}.
Arguments seg_stats {A}.

(** [current] is the index of the segment the scan of the column is in. *)
Record ColumnScanState : Type := mkColumnScan {
  row_index : nat;
  current : option nat;
  segment_checked : bool
}.

(** The loop of [NextInternal], [rest] being the segments from number [k]. *)
Fixpoint next_segment {A} (rest : list (ColumnSegment A)) (k row : nat) (checked : bool) : option nat * bool :=
  match rest with
  | [] => (None, false)
  | s :: rest =>
      if (seg_start s + seg_count s <=? row)%nat then next_segment rest (S k) row false
      else (Some k, checked)
  end.

Definition NextInternal {A} (segments : list (ColumnSegment A)) (count : nat) (st : ColumnScanState) : ColumnScanState :=
  match current st with
  | None => st
  | Some k =>
      let row := (row_index st + count)%nat in
      let '(c, checked) := next_segment (drop k segments) k row (segment_checked st) in mkColumnScan row c checked
  end.

Record CollectionScanState : Type := mkScan {
  vector_index : nat;
  max_row : nat;
  column_ids : list nat;
  column_scans : list ColumnScanState
}.

Context (segments : forall i, list (ColumnSegment (T i))) (updates : forall i, option (BaseStatistics (T i))) (start : nat).

Definition NextVector (st : CollectionScanState) : CollectionScanState :=
  mkScan (S (vector_index st)) (max_row st) (column_ids st)
    (zip_with (fun c => NextInternal (segments c) STANDARD_VECTOR_SIZE) (column_ids st) (column_scans st)).

Fixpoint segment_filters (entries : list ScanFilter) (st : CollectionScanState) : result (bool * CollectionScanState) :=
  match entries with
  | [] => Ok (true, st)
  | entry :: entries =>
      if always_true entry then segment_filters entries st
      else match column_scans st !! scan_column_index entry with
           | None => Throw InternalException
           | Some scan =>
               let segs := segments (table_column_index entry) in
               r ← Segment_CheckZonemap (segment_checked scan) (seg_stats <$> (current scan ≫= fun k => segs !! k))
                     (updates (table_column_index entry)) (filter entry);
               let '(prune_result, checked) := r in
               let st := mkScan (vector_index st) (max_row st) (column_ids st)
                 (<[scan_column_index entry := mkColumnScan (row_index scan) (current scan) checked]> (column_scans st)) in
               if negb (bool_decide (prune_result = FILTER_ALWAYS_FALSE)) then segment_filters entries st
               else match current scan ≫= fun k => segs !! k with
                    | None => segment_filters entries st
                    | Some current_segment =>
                        let target_row := Nat.min (seg_start current_segment + seg_count current_segment) (max_row st) in
                        let target_vector_index := ((target_row - start) / STANDARD_VECTOR_SIZE)%nat in
                        if (vector_index st =? target_vector_index)%nat then Ok (true, st)
                        else Ok (false, Nat.iter (target_vector_index - vector_index st) NextVector st)
                    end
           end
  end.

Definition CheckZonemapSegments (info : ScanFilterInfo) (st : CollectionScanState) : result (bool * CollectionScanState) :=
  segment_filters (filter_list info) st.


(** ** Theorems *)

Context {laws : forall i, CompareLaws (T i)}.

Definition marks (l : list ScanFilter) : nat := length (List.filter always_true l).

(** The count of the filters that are always true is right, and without a set of filters there is none. *)
Definition wf (info : ScanFilterInfo) : Prop :=
  always_true_filters info = marks (filter_list info) /\ (table_filters info = false -> filter_list info = []).

Lemma CheckAllFilters_wf info : (table_filters info = false -> filter_list info = []) -> wf (CheckAllFilters info).
Proof.
  intros H. split; cbn; [|by intros ->%H]. unfold marks. clear H. induction (filter_list info) as [|f l IH]; [done|exact IH].
Qed.

Lemma marks_insert l i f : l !! i = Some f -> always_true f = false -> marks (<[i := set_always_true true f]> l) = S (marks l).
Proof.
  revert i. induction l as [|g l IH]; intros [|i]; [done..| |].
  - intros [= ->] Hf. unfold marks. cbn. by rewrite Hf.
  - intros Hi Hf. specialize (IH i Hi Hf). change (<[S i := set_always_true true f]> (g :: l)) with (g :: <[i := set_always_true true f]> l).
    unfold marks in *. cbn [List.filter]. destruct (always_true g); cbn [length]; lia.
Qed.

Lemma SetFilterAlwaysTrue_spec i f info :
  filter_list info !! i = Some f -> wf info -> exists info', SetFilterAlwaysTrue i info = Ok info' /\ wf info'
    /\ filter_list info' = <[i := set_always_true true f]> (filter_list info) /\ table_filters info' = table_filters info.
Proof.
  intros Hi [Hc Ht]. unfold SetFilterAlwaysTrue. rewrite Hi. destruct (always_true f) eqn:Hf.
  - exists info. repeat split; try done. symmetry. apply list_insert_id. rewrite Hi. f_equal. destruct f; cbn in *. by subst.
  - eexists. split; [reflexivity|]. split; [|done]. split.
    + change (S (always_true_filters info) = marks (<[i := set_always_true true f]> (filter_list info))). by rewrite (marks_insert _ _ f), Hc.
    + intros H%Ht. by rewrite H in Hi.
Qed.

(** What the filter is that the scan may skip in a row group with these statistics. *)
Definition skippable (stats : forall i, option (BaseStatistics (T i))) (f : ScanFilter) : Prop :=
  is_optional (filter f) = true \/ Column_CheckZonemap (stats (table_column_index f)) (filter f) = Ok FILTER_ALWAYS_TRUE.

(** The filters are the same but for marks of filters that may be skipped. *)
Definition marked stats : list ScanFilter -> list ScanFilter -> Prop :=
  Forall2 (fun f f' => f' = set_always_true (always_true f') f /\ (always_true f' = true -> always_true f = true \/ skippable stats f)).

Lemma marked_refl stats l : marked stats l l.
Proof. apply Forall_Forall2_diag, Forall_true. intros f. split; [by destruct f|auto]. Qed.

Lemma marked_trans stats l1 l2 l3 : marked stats l1 l2 -> marked stats l2 l3 -> marked stats l1 l3.
Proof.
  intros H12. revert l3. induction H12 as [|f1 f2 l1 l2 [E12 H1] _ IH]; intros l3 H23; inversion H23 as [|? f3 ? l3' [E23 H2] H23']; subst; constructor; [|by apply IH].
  split; [by rewrite E23, E12|]. intros Hf. destruct (H2 Hf) as [H'|H']; [by apply H1|]. right. by rewrite E12 in H'.
Qed.

Lemma marked_insert stats l i f : l !! i = Some f -> skippable stats f -> marked stats l (<[i := set_always_true true f]> l).
Proof.
  intros Hi Hs. apply Forall2_same_length_lookup. split; [by rewrite length_insert|]. intros j x y Hx Hy.
  destruct (decide (i = j)) as [<- |Hne].
  - rewrite list_lookup_insert_eq in Hy by (apply lookup_lt_Some in Hi; done). injection Hy as <-. rewrite Hi in Hx. injection Hx as <-. split; [done|]. auto.
  - rewrite list_lookup_insert_ne in Hy by done. assert (x = y) as <- by congruence. split; [by destruct x|auto].
Qed.

Lemma zonemap_filters_spec stats idxs info b info' :
  zonemap_filters stats idxs info = Ok (b, info') -> wf info ->
  wf info' /\ table_filters info' = table_filters info /\ marked stats (filter_list info) (filter_list info')
  /\ (b = false -> exists f, f ∈ filter_list info /\ Column_CheckZonemap (stats (table_column_index f)) (filter f) = Ok FILTER_ALWAYS_FALSE).
Proof.
  revert info. induction idxs as [|i idxs IH]; cbn; intros info.
  { intros [= <- <-] Hw. split; [done|]. split; [done|]. split; [apply marked_refl|done]. }
  destruct (filter_list info !! i) as [f|] eqn:Hi; [|done]. destruct (Column_CheckZonemap _ _) as [r|] eqn:Er; cbn; [|done].
  destruct (decide (r = FILTER_ALWAYS_FALSE)) as [-> |Hr]; [rewrite bool_decide_eq_true_2 by done|rewrite bool_decide_eq_false_2 by done].
  { intros [= <- <-] Hw. split; [done|]. split; [done|]. split; [apply marked_refl|]. intros _. exists f. split; [by eapply list_elem_of_lookup_2|done]. }
  destruct (is_optional (filter f) || _) eqn:Ho; [|apply IH]. intros E Hw.
  assert (skippable stats f) as Hs by (apply orb_true_iff in Ho as [Ho|Ho%bool_decide_eq_true]; [by left|right; by rewrite Er, Ho]).
  destruct (SetFilterAlwaysTrue_spec i f info Hi Hw) as (info1 & E1 & Hw1 & Hl1 & Ht1). rewrite E1 in E. cbn in E.
  destruct (IH info1 E Hw1) as (Hw' & Ht' & Hm' & Hb'). pose proof (marked_insert stats _ _ _ Hi Hs) as Hm1. rewrite <-Hl1 in Hm1.
  split; [done|]. split; [congruence|]. split; [by eapply marked_trans|]. intros (g & Hg & Eg)%Hb'.
  apply list_elem_of_lookup in Hg as [j Hg]. destruct (Forall2_lookup_r _ _ _ _ _ Hm1 Hg) as (g0 & Hg0 & Egg & _). exists g0.
  split; [by eapply list_elem_of_lookup_2|]. by rewrite Egg in Eg.
Qed.
(** The row satisfies the filters that the scan has to check. *)
Definition keeps (vectors : forall i, UnifiedVectorFormat (T i)) (fs : list ScanFilter) (i : nat) : Prop :=
  forall f, f ∈ fs -> always_true f = false -> holds true (filter f) (row (vectors (table_column_index f)) i) = true.

Definition runnable (f : ScanFilter) : Prop := scannable false (filter f) = true.

Lemma filter_loop_spec vectors sc info perm idxs sel n fs :
  Forall2 (fun j f => perm !! j ≫= (fun k => filter_list info !! k) = Some f) idxs fs ->
  Forall runnable (filter_list info) -> NoDup (selected sel n) ->
  exists sel' n', filter_loop vectors sc info perm idxs sel n = Ok (sel', n') /\ NoDup (selected sel' n')
    /\ forall i, i ∈ selected sel' n' <-> i ∈ selected sel n /\ keeps vectors fs i.
Proof.
  intros Hfs Hrun. revert sel n. induction Hfs as [|j f idxs fs Hj _ IH]; intros sel n Hnd; cbn.
  { exists sel, n. split; [done|]. split; [done|]. intros i. split; [|tauto]. intros H. split; [done|]. by intros g ?%elem_of_nil. }
  rewrite Hj. assert (runnable f) as Hf.
  { destruct (perm !! j) as [k|]; [|done]. cbn in Hj. rewrite Forall_lookup in Hrun. by eapply Hrun. }
  assert (forall i, keeps vectors (f :: fs) i <-> (always_true f = false -> holds true (filter f) (row (vectors (table_column_index f)) i) = true) /\ keeps vectors fs i) as Hk.
  { intros i. unfold keeps. split; [intros H; split; [apply H; by left|]|]; [intros g Hg; apply H; by right|].
    intros [H1 H2] g [-> |Hg]%elem_of_cons; [done|by apply H2]. }
  destruct (always_true f) eqn:Ea; [|destruct (n =? 0)%nat eqn:En].
  - destruct (IH sel n Hnd) as (sel' & n' & -> & Hnd' & Hm). exists sel', n'. split; [done|]. split; [done|]. intros i. rewrite Hm, Hk. naive_solver.
  - apply Nat.eqb_eq in En as ->. destruct (IH sel 0%nat Hnd) as (sel' & n' & -> & Hnd' & Hm). exists sel', n'. split; [done|]. split; [done|].
    intros i. rewrite Hm. change (selected sel 0) with ([] : list nat). rewrite elem_of_nil. tauto.
  - destruct (FilterSelection_runs (vectors (table_column_index f)) sc (filter f) false sel n Hf Hnd) as (c & sel1 & n1 & E & _ & Hnd1 & Hm1).
    rewrite E. cbn. destruct (IH sel1 n1 Hnd1) as (sel' & n' & -> & Hnd' & Hm). exists sel', n'. split; [done|]. split; [done|].
    intros i. rewrite Hm, Hm1, Hk. naive_solver.
Qed.

(** The rows the transaction sees. *)
Definition visible (valid_sel : list nat) (count max_count : nat) : list nat :=
  if (count =? max_count)%nat then selected None count else selected (Some valid_sel) count.

Lemma HasFilters_false vectors info i : wf info -> HasFilters info = false -> keeps vectors (filter_list info) i.
Proof.
  intros [Hc Ht] H f Hf Ha. unfold HasFilters in H. destruct (table_filters info) eqn:E; cbn in H; [|rewrite Ht in Hf by done; by apply elem_of_nil in Hf].
  apply Nat.ltb_ge in H. rewrite Hc in H. unfold marks in H. exfalso. clear -H Hf Ha.
  induction (filter_list info) as [|g l IH]; [by apply elem_of_nil in Hf|]. cbn in H.
  pose proof (filter_length_le always_true l) as Hle.
  apply elem_of_cons in Hf as [<- |Hf]; [rewrite Ha in H; lia|]. destruct (always_true g); cbn in H; [apply IH; [lia|done]|lia].
Qed.

Lemma permuted_filters info perm :
  Permutation (seq 0 (length (filter_list info))) perm ->
  exists fs, Forall2 (fun j f => perm !! j ≫= (fun k => filter_list info !! k) = Some f) (seq 0 (length (filter_list info))) fs
    /\ forall f, f ∈ fs <-> f ∈ filter_list info.
Proof.
  intros Hp. pose proof (Permutation_length Hp) as Hl. rewrite length_seq in Hl. exists (omap (fun k => filter_list info !! k) perm).
  assert (forall k, k ∈ perm -> is_Some (filter_list info !! k)) as Hsome.
  { intros k Hk. apply lookup_lt_is_Some. rewrite <-Hp in Hk. apply elem_of_seq in Hk. lia. }
  split.
  - rewrite Hl. clear Hl Hp. set (g := fun k => filter_list info !! k) in *. change (forall k, k ∈ perm -> is_Some (g k)) in Hsome. clearbody g.
    enough (forall l0, Forall2 (fun j f => (l0 ++ perm) !! j ≫= g = Some f) (seq (length l0) (length perm)) (omap g perm)) as H by exact (H []).
    induction perm as [|k perm IH]; intros l0; cbn; [constructor|]. destruct (Hsome k ltac:(by left)) as [f Hf]. rewrite Hf. constructor.
    + by rewrite lookup_app_r, Nat.sub_diag by done.
    + specialize (IH ltac:(intros; apply Hsome; by right) (l0 ++ [k])). rewrite length_app, Nat.add_1_r in IH. cbn in IH.
      eapply Forall2_impl; [exact IH|]. cbn. intros j y. by rewrite <-app_assoc.
  - intros f. rewrite list_elem_of_omap. setoid_rewrite <-Hp. rewrite list_elem_of_lookup. split.
    + intros (k & _ & Hk). by exists k.
    + intros (k & Hk). exists k. split; [|done]. apply elem_of_seq. apply lookup_lt_Some in Hk. lia.
Qed.

Lemma scan_vector_spec vectors info perm valid_sel count max_count :
  wf info -> Permutation (seq 0 (length (filter_list info))) perm -> Forall runnable (filter_list info) ->
  NoDup (visible valid_sel count max_count) ->
  exists sel' n', scan_vector vectors info perm valid_sel count max_count = Ok (sel', n') /\ NoDup (selected sel' n')
    /\ forall i, i ∈ selected sel' n' <-> i ∈ visible valid_sel count max_count /\ keeps vectors (filter_list info) i.
Proof.
  intros Hw Hp Hrun Hnd. unfold scan_vector, visible in *. destruct (HasFilters info) eqn:Hh; cbn.
  - rewrite andb_false_r. destruct (permuted_filters info perm Hp) as (fs & Hfs & Hin).
    assert (forall i, keeps vectors fs i <-> keeps vectors (filter_list info) i) as Hk by (intros i; unfold keeps; by setoid_rewrite Hin).
    destruct (count =? max_count)%nat; cbn;
      [destruct (filter_loop_spec vectors max_count info perm _ None count fs Hfs Hrun Hnd) as (sel' & n' & -> & Hnd' & Hm)
      |destruct (filter_loop_spec vectors max_count info perm _ (Some valid_sel) count fs Hfs Hrun Hnd) as (sel' & n' & -> & Hnd' & Hm)];
      (exists sel', n'; split; [done|]; split; [done|]; intros i; by rewrite Hm, Hk).
  - rewrite andb_true_r. destruct (count =? max_count)%nat; cbn; (eexists _, _; split; [done|]; split; [done|]; intros i;
      split; [intros H; split; [done|by apply HasFilters_false]|by intros [? _]]).
Qed.
(** The filters the planner pushes: the scan can run them, the statistics know their comparisons, and none of
    them holds of a NULL that its statistics ignore. *)
Definition supported (f : ScanFilter) : bool :=
  scannable false (filter f) && checkable (filter f) && null_rejecting true (filter f).

Lemma supported_spec fs :
  Forall (fun f => supported f = true) fs ->
  Forall (fun f => runnable f /\ checkable (filter f) = true /\ null_rejecting true (filter f) = true /\ no_in_filter true (filter f) = true) fs.
Proof.
  intros H. eapply Forall_impl; [exact H|]. intros f [[H1 H2]%andb_true_iff H3]%andb_true_iff. repeat split; try done. by eapply scannable_no_in.
Qed.

Lemma zonemap_filters_ok stats idxs info :
  wf info -> Forall (fun i => (i < length (filter_list info))%nat) idxs ->
  Forall (fun f => checkable (filter f) = true /\ is_Some (stats (table_column_index f))) (filter_list info) ->
  is_ok (zonemap_filters stats idxs info) = true.
Proof.
  intros Hw Hi. revert info Hw Hi. induction idxs as [|i idxs IH]; intros info Hw Hi Hfs; [done|]. cbn. apply Forall_cons in Hi as [Hi Hi'].
  destruct (lookup_lt_is_Some_2 _ _ Hi) as [f Hf]. rewrite Hf. destruct (proj1 (Forall_lookup _ _) Hfs _ _ Hf) as [Hc [s Hs]].
  rewrite Hs. cbn. pose proof (CheckStatistics_ok s (filter f) Hc) as Hok. destruct (CheckStatistics s (filter f)) as [r|]; cbn; [|done].
  destruct (bool_decide (r = FILTER_ALWAYS_FALSE)); [done|]. destruct (is_optional (filter f) || _); [|by apply IH].
  destruct (SetFilterAlwaysTrue_spec i f info Hf Hw) as (info1 & -> & Hw1 & Hl1 & _). cbn. apply IH; [done|by rewrite Hl1, length_insert|].
  rewrite Hl1. apply Forall_insert; [done|]. by split; [|exists s].
Qed.

(** A filter that is skipped holds of every row its statistics cover. *)
Lemma skippable_holds stats f s v :
  skippable stats f -> stats (table_column_index f) = Some s -> covers_row s v -> no_in_filter true (filter f) = true -> holds true (filter f) v = true.
Proof.
  intros [Ho|Hc] Hs Hv Hin; [by destruct (filter f)|]. rewrite Hs in Hc. by apply (CheckStatistics_row true true s (filter f) v _ ltac:(done) Hv Hc).
Qed.

Lemma CheckZonemap_spec stats info :
  (table_filters info = false -> filter_list info = []) ->
  Forall (fun f => checkable (filter f) = true /\ is_Some (stats (table_column_index f))) (filter_list info) ->
  exists b info', CheckZonemap stats info = Ok (b, info') /\ wf info'
    /\ marked stats (map (set_always_true false) (filter_list info)) (filter_list info')
    /\ (b = false -> exists f, f ∈ filter_list info /\ Column_CheckZonemap (stats (table_column_index f)) (filter f) = Ok FILTER_ALWAYS_FALSE).
Proof.
  intros Hw Hfs. unfold CheckZonemap. pose proof (CheckAllFilters_wf info Hw) as Hw'.
  assert (is_ok (zonemap_filters stats (seq 0 (length (filter_list (CheckAllFilters info)))) (CheckAllFilters info)) = true) as Hok.
  { apply zonemap_filters_ok; [done| |cbn; by apply Forall_map]. apply Forall_forall. intros i Hi%elem_of_seq. lia. }
  destruct (zonemap_filters stats _ (CheckAllFilters info)) as [[b info']|] eqn:E; [|done]. exists b, info'. split; [done|].
  destruct (zonemap_filters_spec _ _ _ _ _ E Hw') as (H1 & _ & H2 & H3). split; [done|]. split; [done|].
  intros (f & Hf & Ef)%H3. cbn in Hf. apply list_elem_of_fmap in Hf as (f0 & -> & Hf0). by exists f0.
Qed.

Lemma keeps_marked vectors stats fs fs' i :
  marked stats (map (set_always_true false) fs) fs' ->
  (forall f, f ∈ fs -> exists s, stats (table_column_index f) = Some s /\ covers_row s (row (vectors (table_column_index f)) i)) ->
  Forall (fun f => no_in_filter true (filter f) = true) fs ->
  keeps vectors fs' i <-> forall f, f ∈ fs -> holds true (filter f) (row (vectors (table_column_index f)) i) = true.
Proof.
  intros Hm Hs Hin. unfold keeps. split.
  - intros H f Hf. destruct (Hs f Hf) as (s & Es & Hc). pose proof (proj1 (Forall_forall _ _) Hin f Hf) as Hnf. cbn in Hnf.
    apply list_elem_of_lookup in Hf as [j Hj].
    destruct (Forall2_lookup_l _ _ _ j (set_always_true false f) Hm) as (f' & Hf' & E & Hskip); [by rewrite list_lookup_fmap, Hj|].
    destruct (always_true f') eqn:Ha.
    + destruct (Hskip eq_refl) as [?|Hsk]; [done|]. by eapply (skippable_holds stats (set_always_true false f)).
    + specialize (H f' ltac:(by eapply list_elem_of_lookup_2) Ha). by rewrite E in H.
  - intros H f' Hf' _. apply list_elem_of_lookup in Hf' as [j Hj]. destruct (Forall2_lookup_r _ _ _ _ _ Hm Hj) as (f0 & Hf0 & E & _).
    rewrite list_lookup_fmap in Hf0. destruct (fs !! j) as [f|] eqn:Ef; [|done]. injection Hf0 as <-. rewrite E. apply (H f). by eapply list_elem_of_lookup_2.
Qed.
(** *** Skipping the vectors of a segment *)

Definition contains {A} (segs : list (ColumnSegment A)) (k row : nat) : Prop :=
  exists s, segs !! k = Some s /\ (seg_start s <= row < seg_start s + seg_count s)%nat.

Definition contiguous {A} (segs : list (ColumnSegment A)) : Prop :=
  forall k s s', segs !! k = Some s -> segs !! S k = Some s' -> seg_start s' = (seg_start s + seg_count s)%nat.

(** The scan of every column is in the segment of the first row of the vector, or at the end. *)
Definition positioned (st : CollectionScanState) : Prop :=
  length (column_scans st) = length (column_ids st) /\
  forall x c scan k, column_ids st !! x = Some c -> column_scans st !! x = Some scan -> current scan = Some k ->
    row_index scan = (start + vector_index st * STANDARD_VECTOR_SIZE)%nat /\ contains (segments c) k (row_index scan).

Lemma next_segment_spec {A} (segs : list (ColumnSegment A)) k row checked k' :
  contiguous segs -> (forall s, segs !! k = Some s -> (seg_start s <= row)%nat) ->
  (next_segment (drop k segs) k row checked).1 = Some k' -> contains segs k' row.
Proof.
  intros Hc. remember (drop k segs) as rest eqn:Hr. revert k checked Hr.
  induction rest as [|s rest IH]; cbn; intros k checked Hr Hk; [done|].
  assert (segs !! k = Some s) as Hs by (rewrite <-(Nat.add_0_r k), <-lookup_drop, <-Hr; done).
  destruct (seg_start s + seg_count s <=? row)%nat eqn:E.
  - apply Nat.leb_le in E. apply IH.
    + pose proof (f_equal (drop 1) Hr) as H. rewrite drop_drop, Nat.add_1_r in H. exact H.
    + intros s' Hs'. by rewrite (Hc k s s' Hs Hs').
  - intros [= <-]. apply Nat.leb_gt in E. exists s. split; [done|]. split; [by apply Hk|done].
Qed.

Lemma NextInternal_spec {A} (segs : list (ColumnSegment A)) count scan k' :
  contiguous segs -> (forall k, current scan = Some k -> contains segs k (row_index scan)) ->
  current (NextInternal segs count scan) = Some k' ->
  exists k, current scan = Some k /\ row_index (NextInternal segs count scan) = (row_index scan + count)%nat
    /\ contains segs k' (row_index scan + count).
Proof.
  intros Hc Hk. unfold NextInternal. destruct (current scan) as [k|] eqn:Ek; [|by rewrite Ek].
  pose proof (next_segment_spec segs k (row_index scan + count) (segment_checked scan) k' Hc) as H.
  destruct (next_segment _ _ _ _) as [c checked]. cbn in *. intros Hc'. exists k. split; [done|]. split; [done|]. apply H; [|done].
  intros s Hs. destruct (Hk k eq_refl) as (s' & Hs' & Hr). assert (s' = s) as -> by congruence. lia.
Qed.

Section segment_scan.
Hypothesis Hcontiguous : forall c, contiguous (segments c).

Lemma NextVector_positioned st : positioned st -> positioned (NextVector st).
Proof.
  intros [Hl Hp]. split; [cbn; by rewrite length_zip_with, Hl, Nat.min_id|]. intros x c scan k Hx Hs Hk. cbn in *.
  rewrite lookup_zip_with, Hx in Hs. cbn in Hs. destruct (column_scans st !! x) as [scan0|] eqn:E0; [|done]. injection Hs as <-.
  destruct (NextInternal_spec (segments c) STANDARD_VECTOR_SIZE scan0 k (Hcontiguous c)) as (k0 & Ek0 & Er & Hcn); [|done|].
  - intros k0 Ek0. by apply (Hp x c scan0 k0).
  - destruct (Hp x c scan0 k0 Hx E0 Ek0) as [Erow _]. rewrite Er. split; [lia|done].
Qed.

Lemma NextVectors_positioned n st : positioned st -> positioned (Nat.iter n NextVector st) /\ vector_index (Nat.iter n NextVector st) = (n + vector_index st)%nat.
Proof. intros H. induction n as [|n [IH1 IH2]]; [done|].
  change (Nat.iter (S n) NextVector st) with (NextVector (Nat.iter n NextVector st)). split; [by apply NextVector_positioned|]. cbn [vector_index NextVector]. by rewrite IH2. Qed.

Lemma mark_positioned st x scan checked :
  positioned st -> column_scans st !! x = Some scan ->
  positioned (mkScan (vector_index st) (max_row st) (column_ids st) (<[x := mkColumnScan (row_index scan) (current scan) checked]> (column_scans st))).
Proof.
  intros [Hl Hp] Hx. split; [cbn; by rewrite length_insert|]. intros y c scan' k Hy Hs Hk. cbn in *. destruct (decide (x = y)) as [<- |Hne].
  - rewrite list_lookup_insert_eq in Hs by (by apply lookup_lt_Some in Hx). injection Hs as <-. by apply (Hp x c scan k).
  - rewrite list_lookup_insert_ne in Hs by done. by apply (Hp y c scan' k).
Qed.

(** The values of the rows of the columns, those of a segment or of its updates.  The statistics of a segment
    are those of its data and know nothing of the NULLs, which are in the segments of the validity. *)
Variable value : forall c, nat -> option (T c).
Hypothesis Hcovers : forall c k s r v, segments c !! k = Some s -> (seg_start s <= r < seg_start s + seg_count s)%nat ->
  value c r = Some v -> covers_row (seg_stats s) (Some v) \/ exists u, updates c = Some u /\ covers_row u (Some v).

Definition skips (entries : list ScanFilter) (st : CollectionScanState) (b : bool) (st' : CollectionScanState) : Prop :=
  if b then vector_index st' = vector_index st
  else (vector_index st < vector_index st')%nat /\ forall r,
    (start + vector_index st * STANDARD_VECTOR_SIZE <= r < start + vector_index st' * STANDARD_VECTOR_SIZE)%nat ->
    exists f, f ∈ entries /\ always_true f = false /\ holds false (filter f) (value (table_column_index f) r) = false.

Lemma Segment_CheckZonemap_ok {A} `{!Comparison A} checked cur upd (f : TableFilter A) :
  checkable f = true -> is_ok (Segment_CheckZonemap checked cur upd f) = true.
Proof.
  intros Hf. unfold Segment_CheckZonemap. destruct checked; [done|]. destruct cur as [s|]; [|done]. pose proof (CheckStatistics_ok s f Hf).
  destruct (CheckStatistics s f) as [r|]; [|done]. cbn. destruct (bool_decide _); [done|]. destruct upd as [u|]; [|done].
  pose proof (CheckStatistics_ok u f Hf). by destruct (CheckStatistics u f).
Qed.

(** One filter whose segment is pruned: the vectors up to the end of the segment can be skipped. *)
Lemma target_vector st f scan k s c :
  positioned st -> column_ids st !! scan_column_index f = Some (table_column_index f) -> column_scans st !! scan_column_index f = Some scan ->
  current scan = Some k -> segments (table_column_index f) !! k = Some s -> (start + vector_index st * STANDARD_VECTOR_SIZE < max_row st)%nat ->
  holds false (filter f) None = false ->
  Segment_CheckZonemap (segment_checked scan) (Some (seg_stats s)) (updates (table_column_index f)) (filter f) = Ok (FILTER_ALWAYS_FALSE, c) ->
  let target := ((Nat.min (seg_start s + seg_count s) (max_row st) - start) / STANDARD_VECTOR_SIZE)%nat in
  (vector_index st <= target)%nat /\ forall r, (start + vector_index st * STANDARD_VECTOR_SIZE <= r < start + target * STANDARD_VECTOR_SIZE)%nat ->
    holds false (filter f) (value (table_column_index f) r) = false.
Proof.
  intros [_ Hp] Hid Hsc Hk Hs Hmax Hrej Hprune target. destruct (Hp _ _ _ _ Hid Hsc Hk) as [Hrow (s' & Es' & Hin)]. assert (s' = s) as -> by congruence.
  rewrite Hrow in Hin. pose proof SVS_pos as HV.
  assert (target * STANDARD_VECTOR_SIZE <= Nat.min (seg_start s + seg_count s) (max_row st) - start)%nat as Ht.
  { unfold target. rewrite Nat.mul_comm. apply Nat.Div0.mul_div_le. }
  split; [unfold target; apply Nat.div_le_lower_bound; lia|]. intros r Hr.
  destruct (value (table_column_index f) r) as [v|] eqn:Ev; [|done]. apply (Segment_CheckZonemap_false _ _ _ _ _ _ Hprune).
  destruct (Hcovers (table_column_index f) k s r v Hs) as [H|H]; [lia|done|left; by exists (seg_stats s)|by right].
Qed.

Lemma segment_filters_spec entries st :
  positioned st -> (start + vector_index st * STANDARD_VECTOR_SIZE < max_row st)%nat ->
  Forall (fun f => always_true f = false -> checkable (filter f) = true /\ holds false (filter f) None = false
    /\ column_ids st !! scan_column_index f = Some (table_column_index f)) entries ->
  exists b st', segment_filters entries st = Ok (b, st') /\ positioned st' /\ skips entries st b st'.
Proof.
  intros Hp Hmax Hfs. revert st Hp Hmax Hfs. induction entries as [|f entries IH]; intros st Hp Hmax Hfs; cbn; [by exists true, st|].
  apply Forall_cons in Hfs as [Hf Hfs].
  assert (forall st1, vector_index st1 = vector_index st -> max_row st1 = max_row st -> column_ids st1 = column_ids st -> positioned st1 ->
    exists b st', segment_filters entries st1 = Ok (b, st') /\ positioned st' /\ skips (f :: entries) st b st') as Hnext.
  { intros st1 E1 E2 E3 Hp1. destruct (IH st1 Hp1) as (b & st' & E & Hp' & Hsk); [by rewrite E1, E2|by rewrite E3|]. exists b, st'. split; [done|]. split; [done|].
    unfold skips in *. rewrite E1 in Hsk. destruct b; [done|]. destruct Hsk as [H1 H2]. split; [done|]. intros r (g & Hg & ?)%H2. exists g. split; [by right|done]. }
  destruct (always_true f) eqn:Ha; [by apply Hnext|]. destruct (Hf eq_refl) as (Hchk & Hrej & Hid).
  destruct (lookup_lt_is_Some_2 (column_scans st) (scan_column_index f)) as [scan Hscan]; [rewrite (proj1 Hp); by apply lookup_lt_Some in Hid|].
  rewrite Hscan. set (cur := current scan ≫= _). pose proof (Segment_CheckZonemap_ok (segment_checked scan) (seg_stats <$> cur) (updates (table_column_index f)) (filter f) Hchk) as Hok.
  destruct (Segment_CheckZonemap _ _ _ _) as [[r c]|] eqn:E; [|done]. cbn. pose proof (mark_positioned st _ scan c Hp Hscan) as Hp1.
  destruct (decide (r = FILTER_ALWAYS_FALSE)) as [-> |Hne]; [rewrite bool_decide_eq_true_2 by done; cbn|rewrite bool_decide_eq_false_2 by done; cbn; by apply Hnext].
  destruct cur as [s|] eqn:Ecur; [|by apply Hnext]. unfold cur in Ecur. destruct (current scan) as [k|] eqn:Ek; [|done]. cbn in Ecur.
  destruct (target_vector st f scan k s c Hp Hid Hscan Ek Ecur Hmax Hrej E) as [Hle Hrows].
  set (target := ((_ - start) / STANDARD_VECTOR_SIZE)%nat) in *. destruct (vector_index st =? target)%nat eqn:Et.
  - eexists true, _. split; [done|]. split; [done|]. done.
  - apply Nat.eqb_neq in Et. eexists false, _. split; [done|]. destruct (NextVectors_positioned (target - vector_index st) _ Hp1) as [Hp2 Hv].
    split; [done|]. unfold skips. rewrite Hv. cbn [vector_index]. split; [lia|]. intros r Hr. exists f. split; [by left|]. split; [done|].
    apply Hrows. rewrite Nat.sub_add in Hr by lia. done.
Qed.
End segment_scan.

End scan_filter.

Arguments mkSegment {A}.
Arguments seg_start {A}.
Arguments seg_count {A}.
Arguments seg_stats {A}.

(** ** The theorems *)

Section theorems.
Context {T : nat -> Type} {comparison : forall i, Comparison (T i)} {inhabited : forall i, Inhabited (T i)} {laws : forall i, CompareLaws (T i)}.
Abbreviation Filters := (@ScanFilterInfo T).


End theorems.

(** *** A table of one column of integers *)

Definition Ints : nat -> Type := fun _ => Z.
#[local] Instance ints_comparison : forall i, Comparison (Ints i) := fun _ => Z_comparison.
#[local] Instance ints_laws : forall i, CompareLaws (Ints i) := fun _ => Z_compare_laws.
#[local] Instance ints_inhabited : forall i, Inhabited (Ints i) := fun _ => populate 0.

Definition demo_info (f : TableFilter Z) : @ScanFilterInfo Ints := @Initialize Ints [0%nat] [existT 0%nat f].


(** A column of one segment of 4096 rows from row 0, its data those of a column that has a 9 and NULLs. *)
Definition demo_segments : forall i, list (ColumnSegment (Ints i)) :=
  fun _ => [mkSegment 0 4096 (UpdateNumericStats 9 (CreateEmpty 100 (-100) (mkData false false 0 0)))].
Definition demo_scan : CollectionScanState := mkScan 0 4096 [0%nat] [mkColumnScan 0 (Some 0%nat) false].



End ScanFilter.
