(* ===== verification/ValiditySegment.v ===== *)
(** * Segments of a validity column

    Models src/src/storage/compression/validity_uncompressed.cpp: the NULLs of a segment as a bitmap, appended,
    reverted, fetched, selected and scanned with the bit shifts of [UnalignedScan], and the ranges of rows that
    [ArrayColumnData::Select] (src/src/storage/table/array_column_data.cpp) scans.

    The memory of a segment is its list of 64-bit words ([input_data]); the result of a scan is the mask of the
    result vector. *)

From S2P Require Import Prelude ValidityMask TableFilter.

Module ValiditySegment.
Import ValidityMask.
Abbreviation SelectionVector := TableFilter.SelectionVector.
Abbreviation get_index := TableFilter.get_index.
Abbreviation UnifiedVectorFormat := TableFilter.UnifiedVectorFormat.
Abbreviation vsel := TableFilter.vsel.
Abbreviation validity := TableFilter.validity.

(** ** Masks *)

Definition LOWER_MASKS : list Z :=
  [0x0; 0x1; 0x3; 0x7; 0xf; 0x1f; 0x3f; 0x7f; 0xff; 0x1ff; 0x3ff; 0x7ff; 0xfff; 0x1fff; 0x3fff; 0x7fff; 0xffff;
   0x1ffff; 0x3ffff; 0x7ffff; 0xfffff; 0x1fffff; 0x3fffff; 0x7fffff; 0xffffff; 0x1ffffff; 0x3ffffff; 0x7ffffff;
   0xfffffff; 0x1fffffff; 0x3fffffff; 0x7fffffff; 0xffffffff; 0x1ffffffff; 0x3ffffffff; 0x7ffffffff; 0xfffffffff;
   0x1fffffffff; 0x3fffffffff; 0x7fffffffff; 0xffffffffff; 0x1ffffffffff; 0x3ffffffffff; 0x7ffffffffff;
   0xfffffffffff; 0x1fffffffffff; 0x3fffffffffff; 0x7fffffffffff; 0xffffffffffff; 0x1ffffffffffff; 0x3ffffffffffff;
   0x7ffffffffffff; 0xfffffffffffff; 0x1fffffffffffff; 0x3fffffffffffff; 0x7fffffffffffff; 0xffffffffffffff;
   0x1ffffffffffffff; 0x3ffffffffffffff; 0x7ffffffffffffff; 0xfffffffffffffff; 0x1fffffffffffffff;
   0x3fffffffffffffff; 0x7fffffffffffffff; 0xffffffffffffffff].

Definition UPPER_MASKS : list Z :=
  [0x0; 0x8000000000000000; 0xc000000000000000; 0xe000000000000000; 0xf000000000000000; 0xf800000000000000;
   0xfc00000000000000; 0xfe00000000000000; 0xff00000000000000; 0xff80000000000000; 0xffc0000000000000;
   0xffe0000000000000; 0xfff0000000000000; 0xfff8000000000000; 0xfffc000000000000; 0xfffe000000000000;
   0xffff000000000000; 0xffff800000000000; 0xffffc00000000000; 0xffffe00000000000; 0xfffff00000000000;
   0xfffff80000000000; 0xfffffc0000000000; 0xfffffe0000000000; 0xffffff0000000000; 0xffffff8000000000;
   0xffffffc000000000; 0xffffffe000000000; 0xfffffff000000000; 0xfffffff800000000; 0xfffffffc00000000;
   0xfffffffe00000000; 0xffffffff00000000; 0xffffffff80000000; 0xffffffffc0000000; 0xffffffffe0000000;
   0xfffffffff0000000; 0xfffffffff8000000; 0xfffffffffc000000; 0xfffffffffe000000; 0xffffffffff000000;
   0xffffffffff800000; 0xffffffffffc00000; 0xffffffffffe00000; 0xfffffffffff00000; 0xfffffffffff80000;
   0xfffffffffffc0000; 0xfffffffffffe0000; 0xffffffffffff0000; 0xffffffffffff8000; 0xffffffffffffc000;
   0xffffffffffffe000; 0xfffffffffffff000; 0xfffffffffffff800; 0xfffffffffffffc00; 0xfffffffffffffe00;
   0xffffffffffffff00; 0xffffffffffffff80; 0xffffffffffffffc0; 0xffffffffffffffe0; 0xfffffffffffffff0;
   0xfffffffffffffff8; 0xfffffffffffffffc; 0xfffffffffffffffe; 0xffffffffffffffff].

(** ** Scans of the bitmap *)

Record scan_state : Type := mkScanState {
  result_entry : nat;
  result_idx : nat;
  input_entry : nat;
  input_idx : nat;
  pos : nat;
  result_mask : t
}.

(** [input_mask |= UPPER_MASKS[...]]; the mask is merged into the result unless it has every bit. *)
Definition merge_mask (m : t) (entry : nat) (input_mask : Z) : t :=
  if input_mask =? MAX_ENTRY then m
  else set_entry (EnsureWritable m) entry (fun e => Z.land e input_mask).

(** One round of the loop of [UnalignedScan]. *)
Definition unaligned_step (input : list Z) (scan_count : nat) (s : scan_state) : scan_state :=
  let current_result_idx := result_entry s in
  let input_mask := input !!! input_entry s in
  let '(input_mask, offset, s') :=
    if (result_idx s <? input_idx s)%nat then
      let shift_amount := (input_idx s - result_idx s)%nat in
      let input_mask := Z.lor (Z.shiftr input_mask (Z.of_nat shift_amount)) (UPPER_MASKS !!! shift_amount) in
      let input_mask := if (pos s =? 0)%nat then Z.lor input_mask (LOWER_MASKS !!! result_idx s) else input_mask in
      let offset := (BITS_PER_VALUE - input_idx s)%nat in
      (input_mask, offset, mkScanState (result_entry s) (result_idx s + offset) (S (input_entry s)) 0 (pos s) (result_mask s))
    else if (input_idx s <? result_idx s)%nat then
      let shift_amount := (result_idx s - input_idx s)%nat in
      let input_mask := shlU 64 (Z.land input_mask (lnotU 64 (UPPER_MASKS !!! shift_amount))) (Z.of_nat shift_amount) in
      let input_mask := Z.lor input_mask (LOWER_MASKS !!! shift_amount) in
      let offset := (BITS_PER_VALUE - result_idx s)%nat in
      (input_mask, offset, mkScanState (S (result_entry s)) 0 (input_entry s) (input_idx s + offset) (pos s) (result_mask s))
    else
      let offset := (BITS_PER_VALUE - result_idx s)%nat in
      (input_mask, offset, mkScanState (S (result_entry s)) 0 (S (input_entry s)) 0 (pos s) (result_mask s)) in
  let pos' := (pos s + offset)%nat in
  let input_mask := if (scan_count <? pos')%nat then Z.lor input_mask (UPPER_MASKS !!! (pos' - scan_count)%nat) else input_mask in
  mkScanState (result_entry s') (result_idx s') (input_entry s') (input_idx s') pos' (merge_mask (result_mask s) current_result_idx input_mask).

(** Every round moves on by at least one row, so [scan_count] rounds are enough. *)
Fixpoint unaligned_loop (fuel : nat) (input : list Z) (scan_count : nat) (s : scan_state) : scan_state :=
  match fuel with
  | O => s
  | S fuel => if (pos s <? scan_count)%nat then unaligned_loop fuel input scan_count (unaligned_step input scan_count s) else s
  end.

Definition UnalignedScan (input : list Z) (input_start : nat) (result : t) (result_offset scan_count : nat) : t :=
  result_mask (unaligned_loop scan_count input scan_count
    (mkScanState (result_offset / BITS_PER_VALUE) (result_offset - result_offset / BITS_PER_VALUE * BITS_PER_VALUE)
       (input_start / BITS_PER_VALUE) (input_start - input_start / BITS_PER_VALUE * BITS_PER_VALUE) 0 result)).

(** The loop for tiny vectors, of which the comment says that the bit operations do the same. *)
Definition fallback_scan (input : list Z) (input_size input_start : nat) (result : t) (result_offset scan_count : nat) : t :=
  let source_mask := mk (Some input) input_size in
  fold_left (fun m i => if negb (RowIsValid source_mask (input_start + i)) then SetInvalid m (result_offset + i) else m)
    (seq 0 scan_count) result.

Definition aligned_step (input : list Z) (start_offset : nat) (result : t) (i : nat) : t :=
  let input_entry := input !!! (start_offset + i)%nat in
  if AllValid result && (input_entry =? MAX_ENTRY) then result
  else set_entry (EnsureWritable result) i (fun _ => input_entry).

Definition AlignedScan (input : list Z) (input_start : nat) (result : t) (scan_count : nat) : t :=
  let start_offset := (input_start / BITS_PER_VALUE)%nat in
  let entry_scan_count := ((scan_count + BITS_PER_VALUE - 1) / BITS_PER_VALUE)%nat in
  fold_left (aligned_step input start_offset) (seq 0 entry_scan_count) result.

(** ** Segments *)

Record Segment : Type := mkSegment {
  seg_start : nat;
  seg_count : nat;
  segment_size : nat;
  words : list Z;
  has_null : bool;
  has_no_null : bool
}.

Definition STANDARD_MASK_SIZE : nat := (EntryCount STANDARD_VECTOR_SIZE * 8)%nat.

Definition max_tuples (seg : Segment) : nat := (segment_size seg / STANDARD_MASK_SIZE * STANDARD_VECTOR_SIZE)%nat.

(** A new transient segment: [ValidityInitSegment] fills the memory with ones, and the statistics of a validity
    start empty. *)
Definition ValidityInitSegment (start size : nat) : Segment :=
  mkSegment start 0 size (replicate (size / 8) MAX_ENTRY) false false.

Definition append_row {A} (data : UnifiedVectorFormat A) (offset count : nat) (state : t * (bool * bool)) (i : nat) : t * (bool * bool) :=
  let '(mask, (null, no_null)) := state in
  let idx := get_index (vsel data) (offset + i) in
  if negb (RowIsValid (validity data) idx) then (SetInvalidUnsafe mask (count + i), (true, no_null))
  else (mask, (null, true)).

Definition ValidityAppend {A} (seg : Segment) (data : UnifiedVectorFormat A) (offset vcount : nat) : Segment * nat :=
  let append_count := Nat.min vcount (max_tuples seg - seg_count seg) in
  if AllValid (validity data) then
    (mkSegment (seg_start seg) (seg_count seg + append_count) (segment_size seg) (words seg) (has_null seg) true, append_count)
  else
    let '(mask, (null, no_null)) :=
      fold_left (append_row data offset (seg_count seg)) (seq 0 append_count) (mk (Some (words seg)) (max_tuples seg), (has_null seg, has_no_null seg)) in
    (mkSegment (seg_start seg) (seg_count seg + append_count) (segment_size seg)
       (match validity_mask mask with Some w => w | None => words seg end) null no_null, append_count).

Definition ValidityFinalizeAppend (seg : Segment) : nat :=
  ((seg_count seg + STANDARD_VECTOR_SIZE - 1) / STANDARD_VECTOR_SIZE * STANDARD_MASK_SIZE)%nat.

(** The byte [b] of the words becomes 0xFF. *)
Definition set_byte (ws : list Z) (b : nat) : list Z :=
  <[(b / 8)%nat := Z.lor (ws !!! (b / 8)%nat) (Z.shiftl 255 (8 * Z.of_nat (b mod 8)))]> ws.

(** [ValidityRevertAppend] and the count that [ColumnSegment::RevertAppend] sets. *)
Definition ValidityRevertAppend (seg : Segment) (start_row : nat) : Segment :=
  let start_bit := (start_row - seg_start seg)%nat in
  let '(ws, revert_start) :=
    if negb (start_bit mod 8 =? 0)%nat then
      let bit_end := ((start_bit / 8 + 1) * 8)%nat in
      let mask := fold_left SetValid (seq start_bit (bit_end - start_bit)) (mk (Some (words seg)) (seg_count seg)) in
      (match validity_mask mask with Some w => w | None => words seg end, (bit_end / 8)%nat)
    else (words seg, (start_bit / 8)%nat) in
  mkSegment (seg_start seg) start_bit (segment_size seg)
    (fold_left set_byte (seq revert_start (segment_size seg - revert_start)) ws) (has_null seg) (has_no_null seg).

Definition ValidityScanPartial (seg : Segment) (row_index scan_count : nat) (result : t) (result_offset : nat) : t :=
  UnalignedScan (words seg) (row_index - seg_start seg) result result_offset scan_count.

Definition ValidityScan (seg : Segment) (row_index scan_count : nat) (result : t) : t :=
  let start := (row_index - seg_start seg)%nat in
  if (start mod BITS_PER_VALUE =? 0)%nat then AlignedScan (words seg) start result scan_count
  else ValidityScanPartial seg row_index scan_count result 0.

Definition ValiditySelect (seg : Segment) (row_index : nat) (sel : SelectionVector) (sel_count : nat) (result : t) : t :=
  let source_mask := mk (Some (words seg)) (seg_count seg) in
  fold_left (fun m i => if negb (RowIsValid source_mask (row_index - seg_start seg + get_index sel i)) then SetInvalid m i else m)
    (seq 0 sel_count) result.

Definition ValidityFetchRow (seg : Segment) (row_id : nat) (result : t) (result_idx : nat) : t :=
  if negb (RowIsValid (mk (Some (words seg)) (seg_count seg)) row_id) then SetInvalid result result_idx else result.

(** *** [ArrayColumnData::Select] *)

(** The end of the range of consecutive rows that [end_idx] ends, and the rows after it. *)
Fixpoint extend_range (end_idx : nat) (rest : list nat) : nat * list nat :=
  match rest with
  | [] => (end_idx, [])
  | next_idx :: rest' => if (end_idx <? next_idx)%nat then (end_idx, rest) else extend_range (S next_idx) rest'
  end.

(** The ranges of a selection: one round per row is enough. *)
Fixpoint ranges (fuel : nat) (sel : list nat) : list (nat * nat) :=
  match fuel, sel with
  | S fuel, start_idx :: rest => let '(end_idx, rest) := extend_range (S start_idx) rest in (start_idx, end_idx) :: ranges fuel rest
  | _, _ => []
  end.

(** The validity of the selected arrays of a vector that begins at [row_index] of the segment; [None] when the
    columns are scanned and sliced instead. *)
Definition Array_Select (seg : Segment) (row_index array_size : nat) (sel : list nat) (result : t) : option t :=
  let rs := ranges (length sel) sel in
  if (array_size / 2 <? length rs)%nat then None
  else Some (fold_left (fun state range =>
      let '(m, current_offset) := state in let '(start_idx, end_idx) := range in
      (ValidityScanPartial seg (row_index + start_idx) (end_idx - start_idx) m current_offset, (current_offset + (end_idx - start_idx))%nat))
    rs (result, 0%nat)).1.

(** ** The bit operations of a scan *)

Lemma masks_bits :
  forallb (fun k => forallb (fun b =>
    Bool.eqb (Z.testbit (UPPER_MASKS !!! k) (Z.of_nat b)) (64 - k <=? b)%nat && Bool.eqb (Z.testbit (LOWER_MASKS !!! k) (Z.of_nat b)) (b <? k)%nat)
    (seq 0 64)) (seq 0 65)
  && forallb (fun k => inUb 64 (UPPER_MASKS !!! k) && inUb 64 (LOWER_MASKS !!! k)) (seq 0 65) = true.
Proof. by vm_compute. Qed.

Lemma mask_bit k b : (k <= 64)%nat -> (b < 64)%nat ->
  Z.testbit (UPPER_MASKS !!! k) (Z.of_nat b) = (64 - k <=? b)%nat /\ Z.testbit (LOWER_MASKS !!! k) (Z.of_nat b) = (b <? k)%nat.
Proof.
  intros Hk Hb. pose proof masks_bits as [H _]%andb_true_iff. rewrite forallb_forall in H.
  specialize (H k ltac:(apply in_seq; lia)). rewrite forallb_forall in H. specialize (H b ltac:(apply in_seq; lia)).
  apply andb_true_iff in H as [H1 H2]. by apply Bool.eqb_prop in H1, H2.
Qed.

Lemma UPPER_bit k b : (k <= 64)%nat -> (b < 64)%nat -> Z.testbit (UPPER_MASKS !!! k) (Z.of_nat b) = (64 - k <=? b)%nat.
Proof. intros Hk Hb. apply (mask_bit k b Hk Hb). Qed.

Lemma LOWER_bit k b : (k <= 64)%nat -> (b < 64)%nat -> Z.testbit (LOWER_MASKS !!! k) (Z.of_nat b) = (b <? k)%nat.
Proof. intros Hk Hb. apply (mask_bit k b Hk Hb). Qed.

Lemma mask_inU k : (k <= 64)%nat -> inU 64 (UPPER_MASKS !!! k) /\ inU 64 (LOWER_MASKS !!! k).
Proof.
  intros Hk. pose proof masks_bits as [_ H]%andb_true_iff. rewrite forallb_forall in H.
  specialize (H k ltac:(apply in_seq; lia)). apply andb_true_iff in H as [H1 H2]. by rewrite inUb_spec in H1, H2.
Qed.

(** Merging a mask into an entry. *)
Lemma merge_mask_spec m k M :
  wf m -> inU 64 M -> (k < EntryCount (capacity m))%nat ->
  wf (merge_mask m k M) /\ capacity (merge_mask m k M) = capacity m
  /\ forall j, (j < capacity m)%nat ->
       RowIsValid (merge_mask m k M) j = RowIsValid m j && (if decide (j / 64 = k)%nat then Z.testbit M (Z.of_nat (j mod 64)) else true).
Proof.
  intros Hm HM Hk. unfold merge_mask. destruct (Z.eqb_spec M MAX_ENTRY) as [-> |Hne].
  - split; [done|]. split; [done|]. intros j Hj. case_decide; [rewrite MAX_ENTRY_bit by apply mod64_lt|]; by rewrite andb_true_r.
  - pose proof (EnsureWritable_wf m Hm) as Hw. destruct (EnsureWritable_Some m) as [es E]. destruct (Hw es E) as [Hl _]. rewrite EnsureWritable_capacity in Hl.
    split; [apply set_entry_wf; [done|]; intros e He; apply inU_land; [lia|done|apply HM]|]. split; [by rewrite set_entry_capacity, EnsureWritable_capacity|].
    intros j Hj. rewrite (set_entry_row _ _ _ _ es) by (done || lia). rewrite <-(EnsureWritable_row m j Hj), (RowIsValid_bit _ es) by done.
    unfold bit. case_decide as Hd; [|by rewrite andb_true_r]. by rewrite Z.land_spec, Hd.
Qed.

(** What the mask of one round says of bit [b] of the result: with [r] and [i] the bits the result and the input
    are at, and [n] rows left. *)
Definition mask_ok (e M : Z) (r i n offset : nat) (first : bool) : Prop :=
  inU 64 M /\ forall b, (b < 64)%nat ->
    ((r <= b < r + Nat.min offset n)%nat -> Z.testbit M (Z.of_nat b) = Z.testbit e (Z.of_nat (i + (b - r))))
    /\ ((r + Nat.min offset n <= b < r + offset)%nat -> Z.testbit e (Z.of_nat (i + (b - r))) = true -> Z.testbit M (Z.of_nat b) = true)
    /\ ((r + offset <= b)%nat -> Z.testbit M (Z.of_nat b) = true)
    /\ ((b < r)%nat -> i = 0%nat \/ (r < i)%nat /\ first = true -> Z.testbit M (Z.of_nat b) = true).

Lemma right_mask_ok e M r i n offset p sc first :
  (p < sc)%nat -> n = (sc - p)%nat -> (offset <= 64 - r)%nat -> (offset <= 64)%nat ->
  mask_ok e M r i offset offset first ->
  (forall b, (b < 64)%nat -> (r <= b < r + Nat.min offset n)%nat -> (b < 64 - (p + offset - sc))%nat) ->
  mask_ok e (if (sc <? p + offset)%nat then Z.lor M (UPPER_MASKS !!! (p + offset - sc)%nat) else M) r i n offset first.
Proof.
  intros Hp -> Hr Ho [HM Hb] Hleft. destruct (sc <? p + offset)%nat eqn:E; [apply Nat.ltb_lt in E|apply Nat.ltb_ge in E].
  - split; [apply inU_lor; [lia|done|apply mask_inU; lia]|]. intros b Hb64. rewrite Z.lor_spec, UPPER_bit by lia.
    destruct (Hb b Hb64) as (H1 & H2 & H3 & H4). split; [|split; [|split]].
    + intros H. specialize (Hleft b Hb64 H). rewrite H1 by lia. destruct (_ <=? b)%nat eqn:El; [apply Nat.leb_le in El; lia|by rewrite orb_false_r].
    + intros H He. rewrite H1 by lia. by rewrite He.
    + intros H. by rewrite H3.
    + intros H H'. by rewrite H4.
  - split; [done|]. intros b Hb64. destruct (Hb b Hb64) as (H1 & H2 & H3 & H4). replace (Nat.min offset (sc - p)) with offset by lia.
    rewrite Nat.min_id in H1. split; [done|]. split; [lia|]. by split.
Qed.

Lemma shift_right_ok e r i (first : bool) :
  inU 64 e -> (r < i < 64)%nat ->
  mask_ok e (let M := Z.lor (Z.shiftr e (Z.of_nat (i - r))) (UPPER_MASKS !!! (i - r)%nat) in if first then Z.lor M (LOWER_MASKS !!! r) else M)
    r i (64 - i) (64 - i) first.
Proof.
  intros He Hr. split.
  { cbv zeta. destruct (mask_inU (i - r)) as [HU _]; [lia|]. destruct (mask_inU r) as [_ HL]; [lia|].
    assert (inU 64 (Z.lor (Z.shiftr e (Z.of_nat (i - r))) (UPPER_MASKS !!! (i - r)%nat))) by (apply inU_lor; [lia|apply inU_shiftr; [lia|done]|done]).
    destruct first; [apply inU_lor; [lia|done..]|done]. }
  intros b Hb. rewrite Nat.min_id.
  assert (Z.testbit (let M := Z.lor (Z.shiftr e (Z.of_nat (i - r))) (UPPER_MASKS !!! (i - r)%nat) in if first then Z.lor M (LOWER_MASKS !!! r) else M) (Z.of_nat b)
    = Z.testbit e (Z.of_nat (b + (i - r))) || (64 - (i - r) <=? b)%nat || (first && (b <? r)%nat)) as ->.
  { cbv zeta. destruct first; rewrite ?Z.lor_spec, Z.shiftr_spec, UPPER_bit, ?LOWER_bit by lia; rewrite ?orb_false_r; (f_equal; f_equal; f_equal; lia) || (f_equal; f_equal; lia). }
  split; [|split; [|split]].
  - intros H. assert ((64 - (i - r) <=? b)%nat = false) as -> by (apply Nat.leb_gt; lia). assert ((b <? r)%nat = false) as -> by (apply Nat.ltb_ge; lia).
    rewrite andb_false_r, !orb_false_r. do 2 f_equal. lia.
  - lia.
  - intros H. assert ((64 - (i - r) <=? b)%nat = true) as -> by (apply Nat.leb_le; lia). by rewrite orb_true_r.
  - intros H [->|[_ ->]]; [lia|]. assert ((b <? r)%nat = true) as -> by (by apply Nat.ltb_lt). by rewrite orb_true_r.
Qed.

Lemma shift_left_ok e r i (first : bool) :
  inU 64 e -> (i < r < 64)%nat ->
  mask_ok e (Z.lor (shlU 64 (Z.land e (lnotU 64 (UPPER_MASKS !!! (r - i)%nat))) (Z.of_nat (r - i))) (LOWER_MASKS !!! (r - i)%nat))
    r i (64 - r) (64 - r) first.
Proof.
  intros He Hr. destruct (mask_inU (r - i)) as [HU HL]; [lia|]. split; [apply inU_lor; [lia|apply inU_shlU; lia|done]|].
  intros b Hb. rewrite Nat.min_id.
  assert (Z.testbit (Z.lor (shlU 64 (Z.land e (lnotU 64 (UPPER_MASKS !!! (r - i)%nat))) (Z.of_nat (r - i))) (LOWER_MASKS !!! (r - i)%nat)) (Z.of_nat b)
    = if (r - i <=? b)%nat then Z.testbit e (Z.of_nat (b - (r - i))) else true) as ->.
  { rewrite Z.lor_spec, LOWER_bit, testbit_shlU by lia. destruct (Nat.leb_spec (r - i) b) as [H|H].
    - assert ((b <? r - i)%nat = false) as -> by (apply Nat.ltb_ge; lia).
      replace (Z.of_nat b - Z.of_nat (r - i)) with (Z.of_nat (b - (r - i))) by lia.
      rewrite Z.land_spec, testbit_lnotU by (lia || done). rewrite UPPER_bit by lia.
      assert ((64 - (r - i) <=? b - (r - i))%nat = false) as -> by (apply Nat.leb_gt; lia).
      assert ((Z.of_nat b <? 64) = true) as -> by (apply Z.ltb_lt; lia). assert ((Z.of_nat (r - i) <=? Z.of_nat b) = true) as -> by (apply Z.leb_le; lia).
      assert ((Z.of_nat (b - (r - i)) <? 64) = true) as -> by (apply Z.ltb_lt; lia). cbn. by rewrite andb_true_r, orb_false_r.
    - assert ((b <? r - i)%nat = true) as -> by (apply Nat.ltb_lt; lia). by rewrite orb_true_r. }
  split; [|split; [|split]].
  - intros H. assert ((r - i <=? b)%nat = true) as -> by (apply Nat.leb_le; lia). do 2 f_equal. lia.
  - lia.
  - lia.
  - intros H [->|[? _]]; [|lia]. assert ((r - 0 <=? b)%nat = false) as -> by (apply Nat.leb_gt; lia). done.
Qed.

Lemma in_place_ok e r (first : bool) : inU 64 e -> (r < 64)%nat -> mask_ok e e r r (64 - r) (64 - r) first.
Proof.
  intros He Hr. split; [done|]. intros b Hb. rewrite Nat.min_id. split; [intros H; do 2 f_equal; lia|]. split; [lia|]. split; [lia|]. lia.
Qed.

(** *** One round *)

Definition result_pos (s : scan_state) : nat := (result_entry s * 64 + result_idx s)%nat.
Definition input_pos (s : scan_state) : nat := (input_entry s * 64 + input_idx s)%nat.

Definition ready (s : scan_state) : Prop :=
  wf (result_mask s) /\ (result_idx s < 64)%nat /\ (input_idx s < 64)%nat /\ (pos s = 0%nat \/ result_idx s = 0%nat \/ input_idx s = 0%nat).

(** The first round does not touch what is before the result. *)
Definition starts_well (s : scan_state) : Prop := pos s = 0%nat -> input_idx s = 0%nat \/ (result_idx s < input_idx s)%nat.

Lemma row_bit input k b : bit input (k * 64 + b)%nat = Z.testbit (input !!! (k + b / 64)%nat) (Z.of_nat (b mod 64)).
Proof. unfold bit. replace (k * 64 + b)%nat with (b + k * 64)%nat by lia. rewrite Nat.div_add, Nat.Div0.mod_add by lia. do 2 f_equal; lia. Qed.

Lemma unaligned_step_spec input sc s :
  Forall (inU 64) input -> ready s -> (pos s < sc)%nat -> (result_pos s < capacity (result_mask s))%nat ->
  let s' := unaligned_step input sc s in
  exists offset, (1 <= offset)%nat /\ (offset <= 64 - input_idx s)%nat /\ pos s' = (pos s + offset)%nat /\ result_pos s' = (result_pos s + offset)%nat /\ input_pos s' = (input_pos s + offset)%nat
    /\ ready s' /\ capacity (result_mask s') = capacity (result_mask s)
    /\ forall j, (j < capacity (result_mask s))%nat -> exists c, RowIsValid (result_mask s') j = RowIsValid (result_mask s) j && c
      /\ ((result_pos s <= j < result_pos s + Nat.min offset (sc - pos s))%nat -> c = bit input (input_pos s + (j - result_pos s)))
      /\ ((result_pos s + Nat.min offset (sc - pos s) <= j < result_pos s + offset)%nat -> bit input (input_pos s + (j - result_pos s)) = true -> c = true)
      /\ ((result_pos s + offset <= j)%nat -> c = true)
      /\ ((j < result_pos s)%nat -> starts_well s -> c = true).
Proof.
  intros Hin (Hw & Hr & Hi & Hz) Hp Hcap s'.
  assert (inU 64 (input !!! input_entry s)) as He.
  { destruct (decide (input_entry s < length input)%nat) as [Hl|Hl]; [rewrite Forall_lookup_total in Hin; by apply Hin|].
    rewrite list_lookup_total_alt, lookup_ge_None_2 by lia. by split. }
  assert (result_entry s < EntryCount (capacity (result_mask s)))%nat as Hentry.
  { unfold result_pos in Hcap. unfold EntryCount, BITS_PER_VALUE. clear -Hcap Hr. dlia. }
  (* the three cases of the round *)
  assert (exists offset M, (1 <= offset)%nat /\ mask_ok (input !!! input_entry s) M (result_idx s) (input_idx s) (sc - pos s) offset (pos s =? 0)%nat
    /\ (offset <= 64 - result_idx s)%nat /\ (offset <= 64 - input_idx s)%nat
    /\ pos s' = (pos s + offset)%nat /\ result_pos s' = (result_pos s + offset)%nat /\ input_pos s' = (input_pos s + offset)%nat
    /\ result_mask s' = merge_mask (result_mask s) (result_entry s) M
    /\ (result_idx s' < 64)%nat /\ (input_idx s' < 64)%nat /\ (result_idx s' = 0%nat \/ input_idx s' = 0%nat)) as Hround.
  { subst s'. unfold unaligned_step, result_pos, input_pos, BITS_PER_VALUE. destruct (Nat.ltb_spec (result_idx s) (input_idx s)) as [Hlt|Hge].
    - exists (64 - input_idx s)%nat; eexists. cbn -[Nat.sub Nat.mul Nat.add Nat.ltb]. split; [lia|].
      split; [eapply (right_mask_ok _ _ _ _ _ _ (pos s)); [done|done|lia|lia|by apply shift_right_ok|lia]|].
      do 5 (split; [lia|]). split; [reflexivity|]. lia.
    - destruct (Nat.ltb_spec (input_idx s) (result_idx s)) as [Hlt|Hge'].
      + exists (64 - result_idx s)%nat; eexists. cbn -[Nat.sub Nat.mul Nat.add Nat.ltb]. split; [lia|].
        split; [eapply (right_mask_ok _ _ _ _ _ _ (pos s)); [done|done|lia|lia|by apply shift_left_ok|lia]|].
        do 5 (split; [lia|]). split; [reflexivity|]. lia.
      + assert (input_idx s = result_idx s) as Heq by lia. exists (64 - result_idx s)%nat; eexists. cbn -[Nat.sub Nat.mul Nat.add Nat.ltb]. split; [lia|].
        split; [rewrite Heq; eapply (right_mask_ok _ _ _ _ _ _ (pos s)); [done|done|lia|lia|by apply in_place_ok|lia]|].
        do 5 (split; [lia|]). split; [reflexivity|]. lia. }
  clearbody s'. destruct Hround as (offset & M & Ho1 & [HM Hb] & Hor & Hoi & Ep & Er & Ei & Em & Hr' & Hi' & Hz').
  exists offset. destruct (merge_mask_spec (result_mask s) (result_entry s) M Hw HM Hentry) as (Hw' & Hc' & Hrow). rewrite <-Em in Hw', Hc', Hrow.
  split; [done|]. split; [done|]. split; [done|]. split; [done|]. split; [done|]. split; [split; [done|]; split; [done|]; split; [done|]; by right|]. split; [done|].
  intros j Hj. eexists. split; [by apply Hrow|]. unfold result_pos, input_pos in *.
  assert ((j / 64 = result_entry s)%nat -> j = (result_entry s * 64 + j mod 64)%nat) as Hj64 by (intros <-; pose proof (Nat.div_mod_eq j 64); lia).
  assert ((j / 64 <> result_entry s)%nat -> (j < result_entry s * 64 \/ result_entry s * 64 + 64 <= j)%nat) as Hjn by (clear; intros; dlia).
  destruct (Hb (j mod 64)%nat (mod64_lt j)) as (H1 & H2 & H3 & H4).
  assert (forall d, (input_idx s + d < 64)%nat -> bit input (input_entry s * 64 + input_idx s + d) = Z.testbit (input !!! input_entry s) (Z.of_nat (input_idx s + d))) as Hbit.
  { intros d Hd. rewrite <-Nat.add_assoc, row_bit. rewrite Nat.div_small, Nat.mod_small by done. by rewrite Nat.add_0_r. }
  case_decide as Hd; [specialize (Hj64 Hd)|specialize (Hjn Hd)].
  - split; [|split; [|split]].
    + intros H. rewrite Hbit by lia. rewrite H1 by lia. do 2 f_equal. lia.
    + intros H Hbt. rewrite Hbit in Hbt by lia. apply H2; [lia|]. rewrite <-Hbt. do 2 f_equal. lia.
    + intros H. apply H3. lia.
    + intros H Hs. apply H4; [lia|]. destruct (decide (pos s = 0%nat)) as [H0|H0]; [destruct (Hs H0); [by left|right; split; [done|by rewrite H0]]|].
      destruct Hz as [?|[?|?]]; [done|lia|by left].
  - split; [lia|]. split; [lia|]. done.
Qed.

(** *** The loops *)

(** The rows after the [n] from [start] have a value as far as they are in the same word as the last of those. *)
Definition word_tail (input : list Z) (start n : nat) : Prop :=
  forall k, (n <= k)%nat -> ((start + k) / 64 = (start + n - 1) / 64)%nat -> bit input (start + k) = true.

Definition scanned input sc s (m' : t) : Prop :=
  wf m' /\ capacity m' = capacity (result_mask s)
  /\ forall j, (j < capacity (result_mask s))%nat -> exists c, RowIsValid m' j = RowIsValid (result_mask s) j && c
    /\ ((result_pos s <= j < result_pos s + (sc - pos s))%nat -> c = bit input (input_pos s + (j - result_pos s)))
    /\ ((result_pos s + (sc - pos s) <= j)%nat ->
        word_tail input (input_pos s) (sc - pos s) -> c = true)
    /\ ((j < result_pos s)%nat -> starts_well s -> c = true) /\ ((sc <= pos s)%nat -> c = true).

Lemma unaligned_loop_spec fuel input sc s :
  Forall (inU 64) input -> ready s -> (sc - pos s <= fuel)%nat -> (result_pos s + (sc - pos s) <= capacity (result_mask s))%nat ->
  scanned input sc s (result_mask (unaligned_loop fuel input sc s)).
Proof.
  intros Hin. revert s. induction fuel as [|fuel IH]; intros s Hs Hf Hcap.
  - cbn. split; [apply Hs|]. split; [done|]. intros j Hj. exists true. rewrite andb_true_r. split; [done|]. split; [lia|done].
  - cbn -[Nat.ltb]. destruct (Nat.ltb_spec (pos s) sc) as [Hp|Hp].
    2:{ split; [apply Hs|]. split; [done|]. intros j Hj. exists true. rewrite andb_true_r. split; [done|]. split; [lia|done]. }
    destruct (unaligned_step_spec input sc s Hin Hs Hp) as (o & Ho & Hoi & Ep & Er & Ei & Hs' & Hc' & Hrow); [lia|]. set (s1 := unaligned_step input sc s) in *. clearbody s1.
    assert (scanned input sc s1 (result_mask (unaligned_loop fuel input sc s1))) as (Hw2 & Hc2 & Hrow2).
    { destruct (decide (sc <= pos s1)%nat) as [Hd|Hd].
      - assert (unaligned_loop fuel input sc s1 = s1) as ->.
        { destruct fuel; [done|]. cbn -[Nat.ltb]. assert ((pos s1 <? sc)%nat = false) as -> by (by apply Nat.ltb_ge). done. }
        split; [apply Hs'|]. split; [done|]. intros j Hj. exists true. rewrite andb_true_r. split; [done|]. split; [lia|done].
      - apply IH; [done|lia|rewrite Hc'; lia]. }
    split; [done|]. split; [by rewrite Hc2|]. intros j Hj. destruct (Hrow j Hj) as (c1 & E1 & H1 & H2 & H3 & H4). rewrite <-Hc' in Hj.
    destruct (Hrow2 j Hj) as (c2 & E2 & H1' & H2' & H4' & H5'). exists (c1 && c2). rewrite E2, E1, andb_assoc. split; [done|]. rewrite Ep, Er, Ei in *.
    assert (starts_well s1) as Hsw by (intros ?; lia). split; [|split; [|split; [|lia]]].
    + intros H. destruct (decide (j < result_pos s + o)%nat) as [Hd|Hd].
      * rewrite H1 by lia. rewrite H4' by done. by rewrite andb_true_r.
      * rewrite H3, H1' by lia. cbn. f_equal. lia.
    + intros H Hb. assert (c1 = true) as ->.
      { destruct (decide (j < result_pos s + o)%nat) as [Hd|Hd]; [|apply H3; lia]. apply H2; [lia|]. apply Hb; [lia|]. pose proof Hs as (_ & _ & Hi & _). clear -Ho Hoi Hi H Hd Hp. unfold input_pos. dlia. }
      destruct (decide (j < result_pos s + o)%nat) as [Hd|Hd]; [by rewrite H4'|]. cbn. destruct (decide (pos s + o <= sc)%nat) as [Hd'|Hd'].
      * apply H2'; [lia|]. intros k Hk Ew. rewrite <-Nat.add_assoc. apply Hb; [lia|]. rewrite Nat.add_assoc, Ew. do 2 f_equal. lia.
      * apply H5'. lia.
    + intros H Hsw0. by rewrite H4, H4' by (done || lia).
Qed.

(** ** Theorems *)

Lemma UnalignedScan_rows input start result roff n :
  Forall (inU 64) input -> wf result -> (roff + n <= capacity result)%nat ->
  let m := UnalignedScan input start result roff n in
  wf m /\ capacity m = capacity result /\ forall j, (j < capacity result)%nat -> exists c, RowIsValid m j = RowIsValid result j && c
    /\ ((roff <= j < roff + n)%nat -> c = bit input (start + (j - roff)))
    /\ ((roff + n <= j)%nat -> word_tail input start n -> c = true)
    /\ ((j < roff)%nat -> (start mod 64 = 0 \/ roff mod 64 < start mod 64)%nat -> c = true).
Proof.
  intros Hin Hw Hcap m. unfold m, UnalignedScan, BITS_PER_VALUE. set (s := mkScanState _ _ _ _ _ _).
  assert (forall x, x - x / 64 * 64 = x mod 64)%nat as Hmod by (intros x; pose proof (Nat.div_mod_eq x 64); lia).
  assert (ready s) as Hs by (unfold ready, s; cbn -[Nat.div Nat.mul Nat.sub]; rewrite !Hmod; split; [done|]; split; [apply mod64_lt|]; split; [apply mod64_lt|by left]).
  assert (result_pos s = roff /\ input_pos s = start) as [Er Ei].
  { unfold result_pos, input_pos, s. cbn -[Nat.div Nat.mul Nat.sub]. rewrite !Hmod. pose proof (Nat.div_mod_eq roff 64). pose proof (Nat.div_mod_eq start 64). lia. }
  destruct (unaligned_loop_spec n input n s Hin Hs) as (H1 & H2 & H3); [cbn; lia|rewrite Er; cbn; lia|]. split; [done|]. split; [done|].
  intros j Hj. destruct (H3 j Hj) as (c & E & Hc1 & Hc2 & Hc3 & _). rewrite Er, Ei in Hc1, Hc2. rewrite Er in Hc3. cbn in Hc1, Hc2. rewrite Nat.sub_0_r in Hc1, Hc2.
  exists c. split; [done|]. split; [done|]. split; [done|]. intros H H'. apply Hc3; [done|]. intros _. unfold s. cbn -[Nat.div Nat.mul Nat.sub]. by rewrite !Hmod.
Qed.

Lemma fallback_scan_rows input size start result roff n :
  wf result -> (roff + n <= capacity result)%nat ->
  let m := fallback_scan input size start result roff n in
  wf m /\ capacity m = capacity result /\ forall j, (j < capacity result)%nat ->
    RowIsValid m j = RowIsValid result j && (if decide (roff <= j < roff + n)%nat then bit input (start + (j - roff)) else true).
Proof.
  intros Hw. unfold fallback_scan. induction n as [|n IH]; intros Hcap; cbv zeta.
  { cbn. split; [done|]. split; [done|]. intros j Hj. rewrite decide_False by lia. by rewrite andb_true_r. }
  destruct IH as (H1 & H2 & H3); [lia|]. rewrite seq_S, fold_left_app. cbn [fold_left]. set (m := fold_left _ _ result) in *. clearbody m.
  rewrite (RowIsValid_bit _ input) by done. rewrite Nat.add_0_l. destruct (bit input (start + n)) eqn:E; cbn [negb].
  - split; [done|]. split; [done|]. intros j Hj. rewrite H3 by done. f_equal. destruct (decide (j = roff + n)%nat) as [-> |Hne].
    + rewrite decide_False, decide_True by lia. by replace (start + (roff + n - roff))%nat with (start + n)%nat by lia.
    + repeat case_decide; (done || lia).
  - change (SetInvalid m (roff + n)) with (Set_ m (roff + n) false). split; [by apply Set_wf|]. split; [by rewrite Set_capacity|].
    intros j Hj. rewrite Set_row by (done || rewrite H2; lia). rewrite H3 by done. destruct (decide (roff + n = j)%nat) as [<- |Hne].
    + rewrite decide_True by lia. replace (start + (roff + n - roff))%nat with (start + n)%nat by lia. by rewrite E, andb_false_r.
    + f_equal. repeat case_decide; (done || lia).
Qed.

Lemma AlignedScan_rows input start result n :
  Forall (inU 64) input -> wf result -> (n <= capacity result)%nat -> (start mod 64 = 0)%nat ->
  let m := AlignedScan input start result n in
  wf m /\ capacity m = capacity result /\ forall j, (j < n)%nat -> RowIsValid m j = bit input (start + j).
Proof.
  intros Hin Hw Hcap Hs. unfold AlignedScan, BITS_PER_VALUE. set (k := ((n + 64 - 1) / 64)%nat).
  assert (forall i, inU 64 (input !!! i)) as Hinl by (intros i; by apply lookup_inU).
  assert (forall q, (q <= k)%nat -> let m := fold_left (aligned_step input (start / 64)) (seq 0 q) result in
    wf m /\ capacity m = capacity result /\ forall j, (j < n)%nat -> (j / 64 < q)%nat -> RowIsValid m j = bit input (start + j)) as H.
  { induction q as [|q IH]; intros Hq; cbv zeta; [split; [done|]; split; [done|]; lia|].
    destruct IH as (H1 & H2 & H3); [lia|]. rewrite seq_S, fold_left_app. cbn [fold_left]. set (m := fold_left _ _ result) in *. clearbody m.
    rewrite Nat.add_0_l. assert (q < EntryCount (capacity result))%nat as Hqe by (unfold EntryCount, BITS_PER_VALUE, k in *; clear -Hq Hcap; dlia).
    assert (forall j, (j / 64 = q)%nat -> bit input (start + j) = Z.testbit (input !!! (start / 64 + q)%nat) (Z.of_nat (j mod 64))) as Hbit.
    { intros j <-. unfold bit. assert ((start + j) / 64 = start / 64 + j / 64)%nat as -> by (clear -Hs; dlia). do 2 f_equal. clear -Hs; dlia. }
    unfold aligned_step. destruct (AllValid m && _) eqn:E.
    - apply andb_true_iff in E as [Ea Ee%Z.eqb_eq]. split; [done|]. split; [done|]. intros j Hj Hjq. destruct (decide (j / 64 = q)%nat) as [Hd|Hd]; [|apply H3; [done|lia]].
      rewrite Hbit, Ee, MAX_ENTRY_bit by (done || apply mod64_lt). unfold AllValid in Ea. unfold RowIsValid. by destruct (validity_mask m).
    - pose proof (EnsureWritable_wf m H1) as Hw'. destruct (EnsureWritable_Some m) as [es Ees]. destruct (Hw' es Ees) as [Hl _]. rewrite EnsureWritable_capacity, H2 in Hl.
      split; [by apply set_entry_wf|]. split; [by rewrite set_entry_capacity, EnsureWritable_capacity|].
      intros j Hj Hjq. rewrite (set_entry_row _ _ _ _ es) by (done || lia). case_decide as Hd; [by rewrite Hbit|]. rewrite EnsureWritable_row by lia. apply H3; [done|lia]. }
  destruct (H k (le_n k)) as (H1 & H2 & H3). split; [done|]. split; [done|]. intros j Hj. apply H3; [done|]. unfold k. clear -Hj. dlia.
Qed.

(** *** Rows of a segment *)

Definition rows (seg : Segment) : list bool := map (bit (words seg)) (seq 0 (seg_count seg)).

Record seg_wf (seg : Segment) : Prop := {
  w_inU : Forall (inU 64) (words seg);
  w_length : (length (words seg) * 8)%nat = segment_size seg;
  w_count : (seg_count seg <= max_tuples seg)%nat;
  w_tail : forall i, (seg_count seg <= i < 64 * length (words seg))%nat -> bit (words seg) i = true
}.

Lemma SMS_eq : STANDARD_MASK_SIZE = 256%nat.
Proof. by vm_compute. Qed.

Lemma max_tuples_bits seg : (length (words seg) * 8)%nat = segment_size seg -> (max_tuples seg <= 64 * length (words seg))%nat.
Proof.
  intros H. unfold max_tuples. rewrite SMS_eq, <-H. change STANDARD_VECTOR_SIZE with 2048%nat. generalize (length (words seg)). clear. intros n. dlia.
Qed.

Lemma write_bit (b : bool) ws cap i :
  Forall (inU 64) ws -> (i < 64 * length ws)%nat ->
  exists ws', (if b then SetValid (mk (Some ws) cap) i else SetInvalidUnsafe (mk (Some ws) cap) i) = mk (Some ws') cap
    /\ length ws' = length ws /\ Forall (inU 64) ws' /\ forall j, (j < 64 * length ws)%nat -> bit ws' j = if decide (i = j) then b else bit ws j.
Proof.
  intros Hws Hi. set (m := mk (Some ws) (64 * length ws)).
  assert (EntryCount (64 * length ws) = length ws) as HE by (unfold EntryCount, BITS_PER_VALUE; clear; dlia).
  assert (wf m) as Hm by (intros es [= <-]; change (capacity m) with (64 * length ws)%nat; rewrite HE; done).
  pose proof (Set_wf m i b Hm) as Hw. pose proof (fun j => Set_row m i b j Hm Hi) as Hrow. change (capacity m) with (64 * length ws)%nat in Hrow.
  assert (exists ws', validity_mask (Set_ m i b) = Some ws' /\ length ws' = length ws
    /\ (if b then SetValid (mk (Some ws) cap) i else SetInvalidUnsafe (mk (Some ws) cap) i) = mk (Some ws') cap) as (ws' & Ews & Hl & E).
  { destruct b; cbn; (eexists; split; [reflexivity|]; split; [by rewrite length_insert|reflexivity]). }
  exists ws'. split; [done|]. split; [done|]. split; [by apply (Hw ws' Ews)|]. intros j Hj. rewrite <-(RowIsValid_bit _ ws' j Ews), Hrow by done.
  case_decide; [done|by apply RowIsValid_bit].
Qed.

Lemma append_loop {A} (data : UnifiedVectorFormat A) offset count k ws cap nl nn :
  let valid i := RowIsValid (validity data) (get_index (vsel data) (offset + i)) in
  Forall (inU 64) ws -> (count + k <= 64 * length ws)%nat -> (forall i, (count <= i < 64 * length ws)%nat -> bit ws i = true) ->
  exists ws' nl' nn', fold_left (append_row data offset count) (seq 0 k) (mk (Some ws) cap, (nl, nn)) = (mk (Some ws') cap, (nl', nn'))
    /\ length ws' = length ws /\ Forall (inU 64) ws'
    /\ (forall j, (j < 64 * length ws)%nat -> bit ws' j = if decide (count <= j < count + k)%nat then valid (j - count)%nat else bit ws j)
    /\ (nl = true -> nl' = true) /\ (nn = true -> nn' = true)
    /\ (forall i, (i < k)%nat -> if valid i then nn' = true else nl' = true).
Proof.
  intros valid Hws Hk Htail. induction k as [|k IH].
  { exists ws, nl, nn. split; [done|]. split; [done|]. split; [done|]. split; [|by split; [|split; [|lia]]]. intros j Hj. by rewrite decide_False by lia. }
  destruct IH as (ws1 & nl1 & nn1 & E & Hl1 & Hws1 & Hb1 & Hn1 & Hn2 & Hn3); [lia|]. rewrite seq_S, fold_left_app, E. cbn. fold (valid k).
  destruct (valid k) eqn:Ev; cbn.
  - exists ws1, nl1, true. split; [done|]. split; [done|]. split; [done|]. split; [|split; [done|split; [done|]]].
    + intros j Hj. rewrite Hb1 by done. destruct (decide (j = count + k)%nat) as [-> |Hne].
      * rewrite decide_False, decide_True by lia. replace (count + k - count)%nat with k by lia. rewrite Ev. apply Htail. lia.
      * repeat case_decide; (done || lia).
    + intros i Hi. destruct (decide (i = k)) as [-> |Hne]; [by rewrite Ev|]. specialize (Hn3 i ltac:(lia)). by destruct (valid i).
  - destruct (write_bit false ws1 cap (count + k) Hws1) as (ws2 & E2 & Hl2 & Hws2 & Hb2); [lia|]. cbn in E2.
    exists ws2, true, nn1. split; [by rewrite E2|]. split; [by rewrite Hl2|]. split; [done|]. split; [|split; [done|split; [done|]]].
    + intros j Hj. rewrite Hb2 by lia. destruct (decide (count + k = j)%nat) as [<- |Hne].
      * rewrite decide_True by lia. by replace (count + k - count)%nat with k by lia.
      * rewrite Hb1 by done. repeat case_decide; (done || lia).
    + intros i Hi. destruct (decide (i = k)) as [-> |Hne]; [by rewrite Ev|]. specialize (Hn3 i ltac:(lia)). by destruct (valid i).
Qed.

(** The rows that an append of [n] rows of a vector takes. *)
Definition taken {A} (data : UnifiedVectorFormat A) (offset k : nat) : list bool :=
  map (fun i => RowIsValid (validity data) (get_index (vsel data) (offset + i))) (seq 0 k).

Lemma map_seq_shift (f g : nat -> bool) a b n :
  (forall i, (i < n)%nat -> f (a + i)%nat = g (b + i)%nat) -> map f (seq a n) = map g (seq b n).
Proof.
  revert a b. induction n as [|n IH]; intros a b H; [done|]. cbn. f_equal.
  - specialize (H 0%nat ltac:(lia)). by rewrite !Nat.add_0_r in H.
  - apply IH. intros i Hi. specialize (H (S i) ltac:(lia)). by rewrite !Nat.add_succ_r in H.
Qed.

Lemma rows_extend seg seg' k (f : nat -> bool) :
  seg_count seg' = (seg_count seg + k)%nat ->
  (forall j, (j < seg_count seg + k)%nat -> bit (words seg') j = if decide (seg_count seg <= j)%nat then f (j - seg_count seg)%nat else bit (words seg) j) ->
  rows seg' = rows seg ++ map f (seq 0 k).
Proof.
  intros E H. unfold rows. rewrite E, seq_app, map_app. f_equal.
  - apply map_ext_in. intros j Hj%in_seq. rewrite H by lia. by rewrite decide_False by lia.
  - apply map_seq_shift. intros i Hi. rewrite Nat.add_0_l, H by lia. rewrite decide_True by lia. f_equal. lia.
Qed.

Lemma ValidityAppend_spec {A} seg (data : UnifiedVectorFormat A) offset n :
  seg_wf seg -> exists seg', ValidityAppend seg data offset n = (seg', Nat.min n (max_tuples seg - seg_count seg)) /\ seg_wf seg'
    /\ seg_start seg' = seg_start seg /\ segment_size seg' = segment_size seg
    /\ rows seg' = rows seg ++ taken data offset (Nat.min n (max_tuples seg - seg_count seg))
    /\ (has_null seg = true -> has_null seg' = true) /\ (has_no_null seg = true -> has_no_null seg' = true)
    /\ (forall b : bool, b ∈ taken data offset (Nat.min n (max_tuples seg - seg_count seg)) -> if b then has_no_null seg' = true else has_null seg' = true).
Proof.
  intros [H1 H2 H3 H4]. unfold ValidityAppend, taken. set (k := Nat.min n (max_tuples seg - seg_count seg)). pose proof (max_tuples_bits seg H2) as Hmax.
  destruct (AllValid (validity data)) eqn:Ha.
  - assert (forall i, RowIsValid (validity data) i = true) as Hv by (intros i; unfold AllValid in Ha; unfold RowIsValid; by destruct (validity_mask (validity data))).
    eexists. split; [reflexivity|]. split; [constructor; cbn; [done|done|unfold max_tuples in *; cbn; lia|intros; apply H4; lia]|]. split; [done|]. split; [done|].
    split; [|split; [done|split; [done|]]].
    + apply rows_extend; [done|]. cbn. intros j Hj. case_decide; [|done]. rewrite Hv. apply H4. lia.
    + intros b (i & -> & _)%list_elem_of_fmap. by rewrite Hv.
  - destruct (append_loop data offset (seg_count seg) k (words seg) (max_tuples seg) (has_null seg) (has_no_null seg) H1) as (ws' & nl & nn & E & Hl & Hws & Hb & Hn1 & Hn2 & Hn3); [lia|done|].
    rewrite E. eexists. split; [reflexivity|]. split.
    { constructor; cbn; [done|by rewrite Hl|unfold max_tuples in *; cbn; lia|]. intros i Hi. rewrite Hl in Hi. rewrite Hb by lia. rewrite decide_False by lia. apply H4. lia. }
    split; [done|]. split; [done|]. split; [|split; [done|split; [done|]]].
    + apply rows_extend; [done|]. cbn. intros j Hj. rewrite Hb by lia. repeat case_decide; (done || lia).
    + intros b (i & -> & Hi)%list_elem_of_fmap. apply elem_of_seq in Hi. apply Hn3. lia.
Qed.

(** *** Reverting *)

Lemma set_byte_spec ws b :
  Forall (inU 64) ws -> (b < 8 * length ws)%nat ->
  length (set_byte ws b) = length ws /\ Forall (inU 64) (set_byte ws b)
  /\ forall j, bit (set_byte ws b) j = (j / 8 =? b)%nat || bit ws j.
Proof.
  intros Hws Hb. unfold set_byte. assert (b / 8 < length ws)%nat as Hlt by (clear -Hb; dlia). assert (b mod 8 < 8)%nat as Hm by (clear; dlia).
  assert (forall k, (k < 64)%nat -> Z.testbit (Z.shiftl 255 (8 * Z.of_nat (b mod 8))) (Z.of_nat k) = (k / 8 =? b mod 8)%nat) as Hbits.
  { intros k Hk. rewrite Z.shiftl_spec by lia. change 255 with (2 ^ 8 - 1). destruct (Nat.eqb_spec (k / 8) (b mod 8)) as [E|E].
    - rewrite testbit_ones by (clear -E Hk Hm; dlia). apply Z.ltb_lt. clear -E Hk Hm; dlia.
    - destruct (decide (k < 8 * (b mod 8))%nat) as [Hlt'|Hge]; [by rewrite Z.testbit_neg_r by lia|].
      rewrite testbit_ones by lia. apply Z.ltb_ge. clear -E Hk Hm Hge; dlia. }
  split; [by rewrite length_insert|]. split.
  - apply Forall_insert; [done|]. apply inU_lor; [lia|by apply lookup_inU|]. split; [apply Z.shiftl_nonneg; lia|].
    rewrite Z.shiftl_mul_pow2 by lia. apply Z.lt_le_trans with (2 ^ 8 * 2 ^ (8 * Z.of_nat (b mod 8))).
    + apply Z.mul_lt_mono_pos_r; [apply Z.pow_pos_nonneg; lia|lia].
    + rewrite <-Z.pow_add_r by lia. apply Z.pow_le_mono_r; lia.
  - intros j. rewrite bit_insert by done. case_decide as Hd.
    + rewrite Z.lor_spec, Hbits by apply mod64_lt. rewrite orb_comm. f_equal; [|unfold bit; by rewrite Hd].
      apply eq_bool_prop_intro. rewrite !Is_true_true, !Nat.eqb_eq. clear -Hd. dlia.
    + assert ((j / 8 =? b)%nat = false) as -> by (apply Nat.eqb_neq; clear -Hd; dlia). done.
Qed.

Lemma set_bytes_spec from n ws :
  Forall (inU 64) ws -> (from + n <= 8 * length ws)%nat ->
  let ws' := fold_left set_byte (seq from n) ws in
  length ws' = length ws /\ Forall (inU 64) ws' /\ forall j, bit ws' j = (if decide (from <= j / 8 < from + n)%nat then true else bit ws j).
Proof.
  intros Hws. induction n as [|n IH]; intros Hn; cbv zeta.
  { cbn. split; [done|]. split; [done|]. intros j. by rewrite decide_False by lia. }
  destruct IH as (H1 & H2 & H3); [lia|]. rewrite seq_S, fold_left_app. cbn [fold_left]. set (ws1 := fold_left _ _ ws) in *. clearbody ws1.
  destruct (set_byte_spec ws1 (from + n) H2) as (H4 & H5 & H6); [lia|]. split; [lia|]. split; [done|]. intros j. rewrite H6, H3.
  destruct (Nat.eqb_spec (j / 8) (from + n)) as [E|E]; cbn; repeat case_decide; (done || lia).
Qed.

Lemma set_valids from n ws cap :
  Forall (inU 64) ws -> (from + n <= 64 * length ws)%nat ->
  exists ws', fold_left SetValid (seq from n) (mk (Some ws) cap) = mk (Some ws') cap
    /\ length ws' = length ws /\ Forall (inU 64) ws' /\ forall j, (j < 64 * length ws)%nat -> bit ws' j = if decide (from <= j < from + n)%nat then true else bit ws j.
Proof.
  intros Hws. induction n as [|n IH]; intros Hn.
  { exists ws. split; [done|]. split; [done|]. split; [done|]. intros j Hj. by rewrite decide_False by lia. }
  destruct IH as (ws1 & E & H1 & H2 & H3); [lia|]. rewrite seq_S, fold_left_app, E. cbn [fold_left].
  destruct (write_bit true ws1 cap (from + n) H2) as (ws2 & E2 & H4 & H5 & H6); [lia|]. exists ws2. split; [exact E2|]. split; [lia|]. split; [done|].
  intros j Hj. rewrite H6, H3 by lia. repeat case_decide; (done || lia).
Qed.

Lemma ValidityRevertAppend_spec seg start_row :
  seg_wf seg -> (seg_start seg <= start_row <= seg_start seg + seg_count seg)%nat ->
  let seg' := ValidityRevertAppend seg start_row in
  seg_wf seg' /\ seg_start seg' = seg_start seg /\ segment_size seg' = segment_size seg /\ rows seg' = take (start_row - seg_start seg) (rows seg)
  /\ has_null seg' = has_null seg /\ has_no_null seg' = has_no_null seg.
Proof.
  intros [H1 H2 H3 H4] Hr seg'. unfold seg', ValidityRevertAppend. cbv zeta. set (sb := (start_row - seg_start seg)%nat). pose proof (max_tuples_bits seg H2) as Hmax.
  assert (exists ws rs, (if negb (sb mod 8 =? 0)%nat then
      (match validity_mask (fold_left SetValid (seq sb ((sb / 8 + 1) * 8 - sb)) (mk (Some (words seg)) (seg_count seg))) with
       | Some w => w | None => words seg end, ((sb / 8 + 1) * 8 / 8)%nat)
    else (words seg, (sb / 8)%nat)) = (ws, rs) /\ length ws = length (words seg) /\ Forall (inU 64) ws /\ (rs <= segment_size seg)%nat /\ (sb <= rs * 8)%nat
    /\ forall j, (j < 64 * length (words seg))%nat -> bit ws j = if decide (sb <= j < rs * 8)%nat then true else bit (words seg) j) as (ws & rs & -> & Hl & Hws & Hrs & Hsb & Hb).
  { destruct (Nat.eqb_spec (sb mod 8) 0) as [E|E]; cbn [negb].
    - exists (words seg), (sb / 8)%nat. split; [done|]. split; [done|]. split; [done|]. split; [clear -H2 H3 Hmax Hr sb; dlia|]. split; [clear -E; dlia|].
      intros j Hj. rewrite decide_False by (clear -E; dlia). done.
    - destruct (set_valids sb ((sb / 8 + 1) * 8 - sb) (words seg) (seg_count seg) H1) as (ws & Ew & Hl & Hws & Hb); [clear -E H2 H3 Hmax Hr sb; dlia|].
      rewrite Ew. exists ws, ((sb / 8 + 1) * 8 / 8)%nat. split; [done|]. split; [done|]. split; [done|]. split; [clear -E H2 H3 Hmax Hr sb; dlia|]. split; [clear; dlia|].
      intros j Hj. rewrite Hb by done. rewrite Nat.div_mul by done. clear. repeat case_decide; (done || (exfalso; dlia)). }
  destruct (set_bytes_spec rs (segment_size seg - rs) ws Hws) as (H5 & H6 & H7); [lia|].
  assert (forall j, (j < 64 * length (words seg))%nat -> bit (fold_left set_byte (seq rs (segment_size seg - rs)) ws) j = if decide (sb <= j)%nat then true else bit (words seg) j) as Hbit.
  { intros j Hj. rewrite H7, Hb by done. assert (j / 8 < segment_size seg)%nat as Hj8 by (rewrite <-H2; clear -Hj; dlia).
    clear -Hj8 Hsb Hrs. repeat case_decide; try done; exfalso; dlia. }
  split; [constructor; cbn|]; cbn; [done|lia|unfold max_tuples in *; cbn; lia| |].
  - intros i Hi. rewrite Hbit by lia. by rewrite decide_True by lia.
  - split; [done|]. split; [done|]. split; [|done]. unfold rows. cbn. rewrite firstn_map, take_seq. rewrite Nat.min_l by lia. apply map_ext_in.
    intros j Hj%in_seq. rewrite Hbit by lia. by rewrite decide_False by lia.
Qed.

(** *** Reading *)

Lemma rows_lookup seg i : (i < seg_count seg)%nat -> rows seg !! i = Some (bit (words seg) i).
Proof. intros Hi. unfold rows. change (map ?f ?l) with (f <$> l). rewrite list_lookup_fmap, lookup_seq_lt by done. done. Qed.

(** The rows that are scanned, and those that a scan up to the end of the segment leaves alone. *)
Lemma ValidityScanPartial_rows seg row n result roff :
  seg_wf seg -> wf result -> (seg_start seg <= row)%nat -> (row - seg_start seg + n <= seg_count seg)%nat -> (roff + n <= capacity result)%nat ->
  let m := ValidityScanPartial seg row n result roff in
  wf m /\ capacity m = capacity result /\ forall j, (j < capacity result)%nat ->
    ((roff <= j < roff + n)%nat -> RowIsValid m j = RowIsValid result j && bit (words seg) (row - seg_start seg + (j - roff)))
    /\ ((roff + n <= j)%nat -> (row - seg_start seg + n = seg_count seg)%nat -> RowIsValid m j = RowIsValid result j)
    /\ ((j < roff)%nat -> ((row - seg_start seg) mod 64 = 0 \/ roff mod 64 < (row - seg_start seg) mod 64)%nat -> RowIsValid m j = RowIsValid result j).
Proof.
  intros [H1 H2 H3 H4] Hw Hr Hn Hcap m. destruct (UnalignedScan_rows (words seg) (row - seg_start seg) result roff n H1 Hw Hcap) as (Hw' & Hc' & Hrow).
  split; [done|]. split; [done|]. intros j Hj. destruct (Hrow j Hj) as (c & E & Hc1 & Hc2 & Hc3). unfold m, ValidityScanPartial. rewrite E.
  split; [|split].
  - intros H. by rewrite Hc1.
  - intros H Hend. destruct (decide (n = 0%nat)) as [-> |Hn0].
    { rewrite <-E. unfold UnalignedScan. done. }
    rewrite Hc2; [by rewrite andb_true_r|done|]. intros k Hk Ew. apply H4. split; [lia|]. pose proof (max_tuples_bits seg H2) as Hmax.
    assert ((row - seg_start seg + n - 1) < 64 * length (words seg))%nat as Hlt by lia. clear -Ew Hlt. dlia.
  - intros H H'. rewrite Hc3 by done. by rewrite andb_true_r.
Qed.

Lemma ValidityScan_rows seg row n result :
  seg_wf seg -> wf result -> (seg_start seg <= row)%nat -> (row - seg_start seg + n <= seg_count seg)%nat -> (n <= capacity result)%nat ->
  (forall j, (j < n)%nat -> RowIsValid result j = true) ->
  forall j, (j < n)%nat -> RowIsValid (ValidityScan seg row n result) j = bit (words seg) (row - seg_start seg + j).
Proof.
  intros Hs Hw Hr Hn Hcap Hfresh j Hj. unfold ValidityScan, BITS_PER_VALUE. destruct (Nat.eqb_spec ((row - seg_start seg) mod 64) 0) as [E|E].
  - by apply AlignedScan_rows; [apply Hs|..].
  - destruct (ValidityScanPartial_rows seg row n result 0 Hs Hw Hr Hn) as (_ & _ & H); [lia|]. destruct (H j) as [H1 _]; [lia|].
    rewrite H1 by lia. rewrite Hfresh by done. cbn. f_equal. lia.
Qed.

Lemma ValidityFetchRow_row seg row_id result idx :
  wf result -> (idx < capacity result)%nat -> RowIsValid result idx = true -> RowIsValid (ValidityFetchRow seg row_id result idx) idx = bit (words seg) row_id.
Proof.
  intros Hw Hi Hv. unfold ValidityFetchRow. rewrite (RowIsValid_bit (mk (Some (words seg)) (seg_count seg)) (words seg)) by done. destruct (bit (words seg) row_id); cbn [negb]; [done|].
  change (SetInvalid result idx) with (Set_ result idx false). rewrite Set_row by done. by rewrite decide_True.
Qed.

Lemma ValiditySelect_rows seg row sel n result :
  wf result -> (n <= capacity result)%nat -> (forall j, (j < n)%nat -> RowIsValid result j = true) ->
  forall j, (j < n)%nat -> RowIsValid (ValiditySelect seg row sel n result) j = bit (words seg) (row - seg_start seg + get_index sel j).
Proof.
  intros Hw Hcap Hfresh. unfold ValiditySelect. set (step := fun m i => _).
  assert (forall k, (k <= n)%nat -> let m := fold_left step (seq 0 k) result in wf m /\ capacity m = capacity result
    /\ forall j, (j < n)%nat -> RowIsValid m j = if decide (j < k)%nat then bit (words seg) (row - seg_start seg + get_index sel j) else true) as H.
  { induction k as [|k IH]; intros Hk; cbv zeta; [split; [done|]; split; [done|]; intros j Hj; by rewrite decide_False, Hfresh by lia|].
    destruct IH as (H1 & H2 & H3); [lia|]. rewrite seq_S, fold_left_app. cbn [fold_left]. set (m := fold_left _ _ result) in *. clearbody m.
    unfold step at 1 2 3. rewrite (RowIsValid_bit (mk (Some (words seg)) (seg_count seg)) (words seg)) by done. rewrite Nat.add_0_l. destruct (bit (words seg) (row - seg_start seg + get_index sel k)) eqn:E; cbn [negb].
    - split; [done|]. split; [done|]. intros j Hj. rewrite H3 by done. destruct (decide (j = k)) as [-> |Hne]; [by rewrite decide_False, decide_True by lia|].
      repeat case_decide; (done || lia).
    - change (SetInvalid m k) with (Set_ m k false). split; [by apply Set_wf|]. split; [by rewrite Set_capacity|]. intros j Hj. rewrite Set_row by (done || lia). rewrite H3 by done.
      destruct (decide (k = j)) as [<- |Hne]; [by rewrite decide_True by lia|]. repeat case_decide; (done || lia). }
  intros j Hj. destruct (H n (le_n n)) as (_ & _ & Hr). rewrite Hr by done. by rewrite decide_True by done.
Qed.

(** *** Histories *)

Inductive operation (A : Type) : Type :=
| Append (data : UnifiedVectorFormat A) (offset count : nat)
| Revert (start_row : nat).
Arguments Append {A}.
Arguments Revert {A}.

Definition apply_op {A} (seg : Segment) (op : operation A) : Segment :=
  match op with
  | Append data offset count => (ValidityAppend seg data offset count).1
  | Revert start_row => ValidityRevertAppend seg start_row
  end.

(** The rows as a list: a segment of [max] rows that starts at row [start]. *)
Definition spec_op {A} (start max : nat) (rs : list bool) (op : operation A) : list bool :=
  match op with
  | Append data offset count => rs ++ taken data offset (Nat.min count (max - length rs))
  | Revert start_row => take (start_row - start) rs
  end.

(** Reverts are to a row of the segment or its end. *)
Definition valid_op {A} (start : nat) (rs : list bool) (op : operation A) : bool :=
  match op with
  | Append _ _ _ => true
  | Revert start_row => (start <=? start_row)%nat && (start_row <=? start + length rs)%nat
  end.

Fixpoint valid_history {A} (start max : nat) (rs : list bool) (ops : list (operation A)) : bool :=
  match ops with
  | [] => true
  | op :: ops => valid_op start rs op && valid_history start max (spec_op start max rs op) ops
  end.

Lemma rows_length seg : length (rows seg) = seg_count seg.
Proof. unfold rows. by rewrite length_map, length_seq. Qed.

Lemma init_wf start size : (size mod 8 = 0)%nat -> seg_wf (ValidityInitSegment start size).
Proof.
  intros H. assert (forall i, (i < 64 * (size / 8))%nat -> bit (replicate (size / 8) MAX_ENTRY) i = true) as Hb.
  { intros i Hi. unfold bit. rewrite lookup_total_replicate by (clear -Hi; dlia). apply MAX_ENTRY_bit, mod64_lt. }
  constructor; cbn; [apply Forall_replicate, MAX_ENTRY_inU|rewrite length_replicate; clear -H; dlia|lia|].
  intros i. rewrite length_replicate. intros Hi. apply Hb. lia.
Qed.

Lemma history_spec {A} start max (ops : list (operation A)) seg :
  seg_wf seg -> seg_start seg = start -> max_tuples seg = max -> valid_history start max (rows seg) ops = true ->
  let seg' := fold_left apply_op ops seg in
  seg_wf seg' /\ seg_start seg' = start /\ rows seg' = fold_left (spec_op start max) ops (rows seg).
Proof.
  revert seg. induction ops as [|op ops IH]; cbn; intros seg Hs Est Emax Hv; [done|]. apply andb_true_iff in Hv as [Hop Hv].
  assert (seg_wf (apply_op seg op) /\ seg_start (apply_op seg op) = start /\ max_tuples (apply_op seg op) = max /\ rows (apply_op seg op) = spec_op start max (rows seg) op) as (H1 & H2 & H3 & H4).
  { destruct op as [data offset count|r]; cbn in *.
    - destruct (ValidityAppend_spec seg data offset count Hs) as (seg' & -> & H1 & H2 & H3 & H4 & _). cbn. rewrite rows_length, <-Emax. repeat split; try done; try apply H1; [congruence|].
      unfold max_tuples. by rewrite H3.
    - apply andb_true_iff in Hop as [Hop1%Nat.leb_le Hop2%Nat.leb_le]. rewrite rows_length in Hop2.
      destruct (ValidityRevertAppend_spec seg r Hs) as (H1 & H2 & H3 & H4 & _); [lia|]. split; [done|]. split; [congruence|]. split; [unfold max_tuples; by rewrite H3|]. by rewrite H4, Est. }
  rewrite <-H4. apply IH; [done..|]. by rewrite H4.
Qed.

(** What was appended to a validity segment and not reverted is what is scanned, selected and fetched. *)
Theorem validity_segment_roundtrip {A} start size (ops : list (operation A)) :
  (size mod 8 = 0)%nat -> valid_history start (max_tuples (ValidityInitSegment start size)) [] ops = true ->
  let seg := fold_left apply_op ops (ValidityInitSegment start size) in
  let rs := fold_left (spec_op start (max_tuples (ValidityInitSegment start size))) ops [] in
  forall row n result, (start <= row)%nat -> (row - start + n <= length rs)%nat -> wf result -> (n <= capacity result)%nat ->
    (forall j, (j < n)%nat -> RowIsValid result j = true) ->
    (forall j, (j < n)%nat -> rs !! (row - start + j)%nat = Some (RowIsValid (ValidityScan seg row n result) j))
    /\ (forall sel j, (j < n)%nat -> (row - start + get_index sel j < length rs)%nat ->
          rs !! (row - start + get_index sel j)%nat = Some (RowIsValid (ValiditySelect seg row sel n result) j))
    /\ (forall row_id j, (j < n)%nat -> (row_id < length rs)%nat -> rs !! row_id = Some (RowIsValid (ValidityFetchRow seg row_id result j) j)).
Proof.
  intros Hsize Hv seg rs row n result Hr Hn Hw Hcap Hfresh.
  destruct (history_spec start _ ops (ValidityInitSegment start size) (init_wf start size Hsize) eq_refl eq_refl Hv) as (Hs & Est & Erows).
  fold seg in Hs, Est, Erows. change (rows (ValidityInitSegment start size)) with ([] : list bool) in Erows. fold rs in Erows. rewrite <-Erows in *. rewrite rows_length in *.
  rewrite <-Est in *. split; [|split].
  - intros j Hj. rewrite rows_lookup by lia. by rewrite ValidityScan_rows.
  - intros sel j Hj Hs'. rewrite rows_lookup by lia. by rewrite ValiditySelect_rows.
  - intros row_id j Hj Hid. rewrite rows_lookup by done. rewrite ValidityFetchRow_row; [done|done|lia|by apply Hfresh].
Qed.

Lemma validity_segment_roundtrip_witness :
  let data : UnifiedVectorFormat nat := TableFilter.mkVdata (Some [1; 2; 0]%nat) [] (mk (Some [lnotU 64 2]) 64) in
  let ops := [Append data 0 3; Revert 2%nat; Append data 2 1] in
  let seg := fold_left apply_op ops (ValidityInitSegment 0 256) in
  [false; true; true] !! (0 - 0 + 0)%nat = Some (RowIsValid (ValidityScan seg 0 3 (mk None 2048)) 0)
  /\ [false; true; true] !! (0 - 0 + 1)%nat = Some (RowIsValid (ValidityScan seg 0 3 (mk None 2048)) 1).
Proof.
  intros data ops seg.
  destruct (validity_segment_roundtrip 0 256 ops ltac:(by vm_compute) ltac:(by vm_compute) 0 3 (mk None 2048)) as (H & _ & _);
    [lia|by vm_compute; lia|by intros es [=]|by apply Nat.leb_le|done|].
  split; [exact (H 0%nat ltac:(lia))|exact (H 1%nat ltac:(lia))].
Defined.




End ValiditySegment.
