(* ===== verification/ChunkInfo.v ===== *)
(** * Version information of one vector of rows

    Models src/src/storage/table/chunk_info.cpp: the MVCC visibility rule, [ChunkConstantInfo]
    (one insert and one delete id for the whole vector) and [ChunkVectorInfo] (one pair of ids per
    row), with every operation on them, serialization included. *)

From S2P Require Import Prelude ValidityMask.

Module ChunkInfo.

(** ** Identifiers

    A [transaction_t] below [TRANSACTION_ID_START] is a timestamp (a start time or the commit id of
    a committed transaction); from [TRANSACTION_ID_START] on it is the id of a running
    transaction; [NOT_DELETED_ID] marks a row nobody deleted. *)

Definition TRANSACTION_ID_START : Z := 4611686018427388000.
Definition MAX_TRANSACTION_ID : Z := 2 ^ 64 - 1.
Definition NOT_DELETED_ID : Z := 2 ^ 64 - 2.
Definition MAXIMUM_QUERY_ID : Z := 2 ^ 64 - 1.

Record TransactionData : Type := mkTransactionData {
  transaction_id : Z;
  start_time : Z
}.

(** The template parameter [OP] of the selection functions. *)
Record VersionOperator : Type := mkVersionOperator {
  UseInsertedVersion : Z -> Z -> Z -> bool;
  UseDeletedVersion : Z -> Z -> Z -> bool
}.

Definition TransactionVersionOperator : VersionOperator :=
  let use_inserted start_time transaction_id id := (id <? start_time) || (id =? transaction_id) in
  mkVersionOperator use_inserted
    (fun start_time transaction_id id => negb (use_inserted start_time transaction_id id)).

Definition CommittedVersionOperator : VersionOperator :=
  mkVersionOperator
    (fun _ _ _ => true)
    (fun min_start_time _ id =>
       ((min_start_time <=? id) && (id <? TRANSACTION_ID_START)) || (id =? NOT_DELETED_ID)).

Definition UseVersion (transaction : TransactionData) (id : Z) : bool :=
  UseInsertedVersion TransactionVersionOperator (start_time transaction)
                     (transaction_id transaction) id.

(** ** Selection vectors

    [for (i < max_count) if (P(i)) sel_vector.set_index(count++, i)]: the count and the buffer. *)

Definition sel_fill (P : nat -> bool) (sel : list nat) (max_count : nat) : nat * list nat :=
  fold_left (fun st i => let '(count, sel) := st in
                         if P i then (S count, <[count := i]> sel) else (count, sel))
            (seq 0 max_count) (0%nat, sel).

(** ** Constant info *)

Record ChunkConstantInfo : Type := mkConstant {
  c_start : Z;
  c_insert_id : Z;
  c_delete_id : Z
}.

Definition new_constant (start : Z) : ChunkConstantInfo := mkConstant start 0 NOT_DELETED_ID.

Definition c_TemplatedGetSelVector (OP : VersionOperator) (start_time transaction_id : Z)
    (info : ChunkConstantInfo) (sel : list nat) (max_count : nat) : nat * list nat :=
  if UseInsertedVersion OP start_time transaction_id (c_insert_id info)
     && UseDeletedVersion OP start_time transaction_id (c_delete_id info)
  then (max_count, sel) else (0%nat, sel).

Definition c_Fetch (info : ChunkConstantInfo) (transaction : TransactionData) (row : nat) : bool :=
  UseVersion transaction (c_insert_id info) && negb (UseVersion transaction (c_delete_id info)).

Definition c_CommitAppend (info : ChunkConstantInfo) (commit_id : Z) (start stop : nat)
    : ChunkConstantInfo :=
  mkConstant (c_start info) commit_id (c_delete_id info).

Definition c_HasDeletes (info : ChunkConstantInfo) : bool :=
  (TRANSACTION_ID_START <=? c_insert_id info) || (c_delete_id info <? TRANSACTION_ID_START).

Definition c_GetCommittedDeletedCount (info : ChunkConstantInfo) (max_count : nat) : nat :=
  if c_delete_id info <? TRANSACTION_ID_START then max_count else 0%nat.

Definition c_Cleanup (info : ChunkConstantInfo) (lowest_transaction : Z) : bool :=
  if negb (c_delete_id info =? NOT_DELETED_ID) then false
  else if lowest_transaction <? c_insert_id info then false
  else true.

(** ** Vector info *)

Record ChunkVectorInfo : Type := mkVector {
  v_start : Z;
  inserted : list Z;
  insert_id : Z;
  same_inserted_id : bool;
  deleted : list Z;
  any_deleted : bool
}.

Definition new_vector (start : Z) : ChunkVectorInfo :=
  mkVector start (replicate STANDARD_VECTOR_SIZE 0) 0 true
           (replicate STANDARD_VECTOR_SIZE NOT_DELETED_ID) false.

Definition v_TemplatedGetSelVector (OP : VersionOperator) (start_time transaction_id : Z)
    (info : ChunkVectorInfo) (sel : list nat) (max_count : nat) : nat * list nat :=
  let use_ins := UseInsertedVersion OP start_time transaction_id in
  let use_del := UseDeletedVersion OP start_time transaction_id in
  if same_inserted_id info && negb (any_deleted info) then
    if use_ins (insert_id info) then (max_count, sel) else (0%nat, sel)
  else if same_inserted_id info then
    if negb (use_ins (insert_id info)) then (0%nat, sel)
    else sel_fill (fun i => use_del (deleted info !!! i)) sel max_count
  else if negb (any_deleted info) then
    sel_fill (fun i => use_ins (inserted info !!! i)) sel max_count
  else
    sel_fill (fun i => use_ins (inserted info !!! i) && use_del (deleted info !!! i)) sel max_count.

Definition v_Fetch (info : ChunkVectorInfo) (transaction : TransactionData) (row : nat) : bool :=
  UseVersion transaction (inserted info !!! row) && negb (UseVersion transaction (deleted info !!! row)).

(** The loop of [Delete] from row position [i] on.  [rows] is the caller's array: the code
    compacts the row ids it really deleted to its front while it reads ahead of them.  A
    conflicting row resets the rows at positions below [i] and throws. *)
Fixpoint delete_loop (remaining i : nat) (transaction_id : Z) (deleted : list Z) (rows : list nat)
    (deleted_tuples : nat) : list Z * list nat * result nat :=
  match remaining with
  | O => (deleted, rows, Ok deleted_tuples)
  | S remaining =>
      let row := rows !!! i in
      if deleted !!! row =? transaction_id then
        delete_loop remaining (S i) transaction_id deleted rows deleted_tuples
      else if negb (deleted !!! row =? NOT_DELETED_ID) then
        (write_all (take i rows) NOT_DELETED_ID deleted, rows, Throw TransactionException)
      else
        delete_loop remaining (S i) transaction_id (<[row := transaction_id]> deleted)
                    (<[deleted_tuples := row]> rows) (S deleted_tuples)
  end.

Definition set_deleted (info : ChunkVectorInfo) (del : list Z) (any : bool) : ChunkVectorInfo :=
  mkVector (v_start info) (inserted info) (insert_id info) (same_inserted_id info) del any.

Definition Delete (info : ChunkVectorInfo) (transaction_id : Z) (rows : list nat) (count : nat)
    : ChunkVectorInfo * list nat * result nat :=
  let '(del, rows, res) := delete_loop count 0 transaction_id (deleted info) rows 0 in
  (set_deleted info del true, rows, res).

(** [DeleteInfo]: the rows of one deletion, stored as a count when they are [0 .. count - 1]. *)
Record DeleteInfo : Type := mkDeleteInfo {
  vector_idx : nat;
  del_count : nat;
  is_consecutive : bool;
  del_rows : list nat
}.

Definition v_CommitDelete (info : ChunkVectorInfo) (commit_id : Z) (d : DeleteInfo)
    : ChunkVectorInfo :=
  let del :=
    if is_consecutive d then write_range 0 (del_count d) commit_id (deleted info)
    else write_all (take (del_count d) (del_rows d)) commit_id (deleted info) in
  set_deleted info del (any_deleted info).

Definition v_Append (info : ChunkVectorInfo) (start stop : nat) (commit_id : Z) : ChunkVectorInfo :=
  let '(id, same) :=
    if (start =? 0)%nat then (commit_id, same_inserted_id info)
    else if negb (insert_id info =? commit_id) then (NOT_DELETED_ID, false)
    else (insert_id info, same_inserted_id info) in
  mkVector (v_start info) (write_range start stop commit_id (inserted info)) id same
           (deleted info) (any_deleted info).

Definition v_CommitAppend (info : ChunkVectorInfo) (commit_id : Z) (start stop : nat)
    : ChunkVectorInfo :=
  mkVector (v_start info) (write_range start stop commit_id (inserted info))
           (if same_inserted_id info then commit_id else insert_id info) (same_inserted_id info)
           (deleted info) (any_deleted info).

Definition v_Cleanup (info : ChunkVectorInfo) (lowest_transaction : Z) : bool :=
  if any_deleted info then false
  else if negb (same_inserted_id info) then
    forallb (fun idx => negb (lowest_transaction <? inserted info !!! idx))
            (seq 1 (STANDARD_VECTOR_SIZE - 1))
  else if lowest_transaction <? insert_id info then false
  else true.

Definition v_HasDeletes (info : ChunkVectorInfo) : bool := any_deleted info.

Definition v_GetCommittedDeletedCount (info : ChunkVectorInfo) (max_count : nat) : nat :=
  if negb (any_deleted info) then 0%nat
  else length (select (fun i => deleted info !!! i <? TRANSACTION_ID_START) max_count).

(** ** Either kind *)

Inductive t : Type :=
| CONSTANT_INFO (info : ChunkConstantInfo)
| VECTOR_INFO (info : ChunkVectorInfo).

Definition TemplatedGetSelVector (OP : VersionOperator) (start_time transaction_id : Z) (c : t)
    (sel : list nat) (max_count : nat) : nat * list nat :=
  match c with
  | CONSTANT_INFO info => c_TemplatedGetSelVector OP start_time transaction_id info sel max_count
  | VECTOR_INFO info => v_TemplatedGetSelVector OP start_time transaction_id info sel max_count
  end.

Definition GetSelVector (c : t) (transaction : TransactionData) (sel : list nat) (max_count : nat)
    : nat * list nat :=
  TemplatedGetSelVector TransactionVersionOperator (start_time transaction)
                        (transaction_id transaction) c sel max_count.

Definition GetCommittedSelVector (c : t) (min_start_id min_transaction_id : Z) (sel : list nat)
    (max_count : nat) : nat * list nat :=
  TemplatedGetSelVector CommittedVersionOperator min_start_id min_transaction_id c sel max_count.

Definition Fetch (c : t) (transaction : TransactionData) (row : nat) : bool :=
  match c with
  | CONSTANT_INFO info => c_Fetch info transaction row
  | VECTOR_INFO info => v_Fetch info transaction row
  end.

Definition CommitAppend (c : t) (commit_id : Z) (start stop : nat) : t :=
  match c with
  | CONSTANT_INFO info => CONSTANT_INFO (c_CommitAppend info commit_id start stop)
  | VECTOR_INFO info => VECTOR_INFO (v_CommitAppend info commit_id start stop)
  end.

Definition GetCommittedDeletedCount (c : t) (max_count : nat) : nat :=
  match c with
  | CONSTANT_INFO info => c_GetCommittedDeletedCount info max_count
  | VECTOR_INFO info => v_GetCommittedDeletedCount info max_count
  end.

Definition Cleanup (c : t) (lowest_transaction : Z) : bool :=
  match c with
  | CONSTANT_INFO info => c_Cleanup info lowest_transaction
  | VECTOR_INFO info => v_Cleanup info lowest_transaction
  end.

Definition HasDeletes (c : t) : bool :=
  match c with
  | CONSTANT_INFO info => c_HasDeletes info
  | VECTOR_INFO info => v_HasDeletes info
  end.

Definition set_start (c : t) (start : Z) : t :=
  match c with
  | CONSTANT_INFO info => CONSTANT_INFO (mkConstant start (c_insert_id info) (c_delete_id info))
  | VECTOR_INFO info =>
      VECTOR_INFO (mkVector start (inserted info) (insert_id info) (same_inserted_id info)
                            (deleted info) (any_deleted info))
  end.

(** ** Serialization *)

(** The values of [ChunkInfoType]. *)
Definition TYPE_CONSTANT_INFO : Z := 0.
Definition TYPE_VECTOR_INFO : Z := 1.
Definition TYPE_EMPTY_INFO : Z := 2.

Definition c_Write (info : ChunkConstantInfo) : result (list Z) :=
  Ok (TYPE_CONSTANT_INFO :: le_bytes 8 (c_start info)).

Definition v_Write (info : ChunkVectorInfo) : result (list Z) :=
  let '(count, sel) :=
    v_TemplatedGetSelVector TransactionVersionOperator (TRANSACTION_ID_START - 1) INVALID_INDEX info
      (replicate STANDARD_VECTOR_SIZE 0%nat) STANDARD_VECTOR_SIZE in
  if (count =? STANDARD_VECTOR_SIZE)%nat then Ok [TYPE_EMPTY_INFO]
  else if (count =? 0)%nat then Ok (TYPE_CONSTANT_INFO :: le_bytes 8 (v_start info))
  else
    let mask := ValidityMask.InitializeCount (ValidityMask.mk None STANDARD_VECTOR_SIZE)
                                             STANDARD_VECTOR_SIZE in
    let mask := fold_left (fun mask i => ValidityMask.SetInvalid mask (sel !!! i)) (seq 0 count) mask in
    bytes ← ValidityMask.Write mask STANDARD_VECTOR_SIZE;
    Ok (TYPE_VECTOR_INFO :: le_bytes 8 (v_start info) ++ bytes).

Definition Write (c : t) : result (list Z) :=
  match c with
  | CONSTANT_INFO info => c_Write info
  | VECTOR_INFO info => v_Write info
  end.

Definition c_Read (s : list Z) : result (ChunkConstantInfo * list Z) :=
  '(start, s) ← read_le 8 s;
  Ok (mkConstant start 0 0, s).

Definition v_Read (s : list Z) : result (ChunkVectorInfo * list Z) :=
  '(start, s) ← read_le 8 s;
  '(mask, s) ← ValidityMask.Read STANDARD_VECTOR_SIZE s;
  let info := new_vector start in
  let del := fold_left (fun del i => if ValidityMask.RowIsValid mask i then <[i := 0]> del else del)
                       (seq 0 STANDARD_VECTOR_SIZE) (deleted info) in
  Ok (set_deleted info del true, s).

(** [ChunkInfo::Read]; [None] is the null pointer of [EMPTY_INFO]. *)
Definition Read (s : list Z) : result (option t * list Z) :=
  '(type, s) ← read_le 1 s;
  if type =? TYPE_EMPTY_INFO then Ok (None, s)
  else if type =? TYPE_CONSTANT_INFO then
    '(info, s) ← c_Read s; Ok (Some (CONSTANT_INFO info), s)
  else if type =? TYPE_VECTOR_INFO then
    '(info, s) ← v_Read s; Ok (Some (VECTOR_INFO info), s)
  else Throw SerializationException.

(** ** Selection *)

Lemma sel_fill_spec P sel n :
  (n <= length sel)%nat ->
  let '(count, sel') := sel_fill P sel n in
  count = length (select P n) /\ take count sel' = select P n /\ length sel' = length sel.
Proof.
  unfold sel_fill. induction n as [|n IH]; intros Hn.
  - simpl. by rewrite take_0.
  - rewrite seq_S, fold_left_app. cbn [fold_left]. specialize (IH ltac:(lia)).
    destruct (fold_left _ _ _) as [count sel'] eqn:E. destruct IH as (Hc & Ht & Hl).
    pose proof (select_length_le P n). rewrite select_S, length_app. simpl (0 + n)%nat.
    destruct (P n); simpl.
    + rewrite length_insert. split_and!; [lia| |done].
      rewrite (take_S_r _ _ n) by (apply list_lookup_insert_eq; lia).
      by rewrite take_insert_ge by lia; rewrite Ht.
    + rewrite Nat.add_0_r, app_nil_r. done.
Qed.

(** The rows a caller uses: all of them when the count is [max_count] (the buffer may then be
    untouched), else the filled prefix of the buffer. *)
Definition selected_rows (max_count : nat) (r : nat * list nat) : list nat :=
  if (r.1 =? max_count)%nat then seq 0 max_count else take r.1 r.2.

(** [r] selects exactly the rows below [max_count] that satisfy [P]. *)
Definition selects (P : nat -> bool) (max_count : nat) (r : nat * list nat) : Prop :=
  r.1 = length (select P max_count) /\ selected_rows max_count r = select P max_count.

Lemma selects_fill P sel n : (n <= length sel)%nat -> selects P n (sel_fill P sel n).
Proof.
  intros Hn. pose proof (sel_fill_spec P sel n Hn) as Hs. destruct (sel_fill P sel n) as [count sel'].
  destruct Hs as (Hc & Ht & _). split; [done|]. unfold selected_rows. simpl.
  destruct (Nat.eqb_spec count n) as [->|]; [|done].
  symmetry. apply select_true, select_full. congruence.
Qed.

Lemma selects_const (b : bool) P sel n :
  (forall i, (i < n)%nat -> P i = b) -> selects P n (if b then (n, sel) else (0%nat, sel)).
Proof.
  intros HP. unfold selects, selected_rows. destruct b; simpl.
  - rewrite select_true by done. by rewrite length_seq, Nat.eqb_refl.
  - rewrite select_false by done. split; [done|]. by destruct n.
Qed.

Lemma selects_ext P Q n r :
  (forall i, (i < n)%nat -> P i = Q i) -> selects P n r -> selects Q n r.
Proof. intros H. unfold selects. by rewrite (select_ext P Q). Qed.

(** ** Well-formedness

    [n] is the number of rows of the vector that have been appended so far.  The summary fields
    are only allowed to speak for the per-row arrays when they are right about them. *)
Record wf_vec (n : nat) (info : ChunkVectorInfo) : Prop := {
  wf_inserted : length (inserted info) = STANDARD_VECTOR_SIZE;
  wf_deleted : length (deleted info) = STANDARD_VECTOR_SIZE;
  wf_count : (n <= STANDARD_VECTOR_SIZE)%nat;
  wf_same : same_inserted_id info = true ->
    forall i, (i < n)%nat -> inserted info !!! i = insert_id info;
  wf_any : any_deleted info = false ->
    forall i, (i < STANDARD_VECTOR_SIZE)%nat -> deleted info !!! i = NOT_DELETED_ID
}.

Definition wf (n : nat) (c : t) : Prop :=
  match c with
  | CONSTANT_INFO _ => (n <= STANDARD_VECTOR_SIZE)%nat
  | VECTOR_INFO info => wf_vec n info
  end.

(** Identifiers under which [NOT_DELETED_ID] reads as "not deleted". *)
Definition valid_ids (start_time transaction_id : Z) : Prop :=
  start_time <= NOT_DELETED_ID /\ transaction_id <> NOT_DELETED_ID.

Definition valid_transaction (T : TransactionData) : Prop :=
  valid_ids (start_time T) (transaction_id T).

Lemma use_deleted_NOT_DELETED s i :
  valid_ids s i -> UseDeletedVersion TransactionVersionOperator s i NOT_DELETED_ID = true.
Proof.
  intros [H1 H2]. unfold TransactionVersionOperator. cbn [UseDeletedVersion].
  destruct (Z.ltb_spec NOT_DELETED_ID s); [lia|]. by destruct (Z.eqb_spec NOT_DELETED_ID i).
Qed.

(** The per-row rule the summary fields are shortcuts for. *)
Definition row_visible (OP : VersionOperator) (s i : Z) (c : t) (row : nat) : bool :=
  match c with
  | CONSTANT_INFO info => UseInsertedVersion OP s i (c_insert_id info)
                          && UseDeletedVersion OP s i (c_delete_id info)
  | VECTOR_INFO info => UseInsertedVersion OP s i (inserted info !!! row)
                        && UseDeletedVersion OP s i (deleted info !!! row)
  end.

Lemma TemplatedGetSelVector_selects OP s i n c sel max_count :
  wf n c -> (max_count <= n)%nat -> (max_count <= length sel)%nat ->
  UseDeletedVersion OP s i NOT_DELETED_ID = true ->
  selects (row_visible OP s i c) max_count (TemplatedGetSelVector OP s i c sel max_count).
Proof.
  intros Hwf Hn Hs Hnd. destruct c as [info|info]; simpl.
  - unfold c_TemplatedGetSelVector. by apply selects_const.
  - destruct Hwf as [Hli Hld Hln Hsame Hany]. unfold v_TemplatedGetSelVector.
    destruct (same_inserted_id info), (any_deleted info); simpl.
    + specialize (Hsame eq_refl). destruct (UseInsertedVersion OP s i (insert_id info)) eqn:E; simpl.
      * eapply selects_ext; [|by apply selects_fill]. intros k Hk. simpl.
        by rewrite Hsame, E by lia.
      * apply (selects_const false). intros k Hk. cbn [row_visible]. by rewrite Hsame, E by lia.
    + specialize (Hsame eq_refl). specialize (Hany eq_refl). apply selects_const.
      intros k Hk. cbn [row_visible]. rewrite Hsame, Hany, Hnd by lia. by rewrite andb_true_r.
    + by apply selects_fill.
    + specialize (Hany eq_refl). eapply selects_ext; [|by apply selects_fill]. intros k Hk. simpl.
      by rewrite Hany, Hnd, andb_true_r by lia.
Qed.

Lemma Fetch_visible c T row :
  Fetch c T row = row_visible TransactionVersionOperator (start_time T) (transaction_id T) c row.
Proof. by destruct c. Qed.

(** ** Preservation of well-formedness *)

Lemma new_vector_wf start n : (n <= STANDARD_VECTOR_SIZE)%nat -> wf_vec n (new_vector start).
Proof.
  intros Hn. split; simpl.
  - apply length_replicate.
  - apply length_replicate.
  - done.
  - intros _ i Hi. apply lookup_total_replicate. lia.
  - intros _ i Hi. by apply lookup_total_replicate.
Qed.

Lemma v_Append_wf n info stop id :
  wf_vec n info -> (n <= stop <= STANDARD_VECTOR_SIZE)%nat -> wf_vec stop (v_Append info n stop id).
Proof.
  intros [Hli Hld Hln Hsame Hany] Hs. unfold v_Append.
  destruct (Nat.eqb_spec n 0) as [->|Hn0]; [|destruct (Z.eqb_spec (insert_id info) id) as [He|He]]; simpl.
  - split; simpl; [by rewrite write_range_length|done|lia| |done].
    intros _ i Hi. rewrite write_range_lookup by lia. by rewrite decide_True by lia.
  - split; simpl; [by rewrite write_range_length|done|lia| |done].
    intros Hsm i Hi. rewrite write_range_lookup by lia. case_decide; [done|]. apply Hsame; [done|lia].
  - split; simpl; [by rewrite write_range_length|done|lia|done|done].
Qed.

(** Committing the appended suffix [start, n) of a vector: when the vector has a single insert id,
    the whole vector is being committed. *)
Lemma v_CommitAppend_wf n info id start :
  wf_vec n info -> (same_inserted_id info = true -> start = 0%nat) ->
  wf_vec n (v_CommitAppend info id start n).
Proof.
  intros [Hli Hld Hln Hsame Hany] Hst. split; simpl; [by rewrite write_range_length|done|lia| |done].
  intros Hsm. rewrite Hsm in *. intros i Hi. rewrite write_range_lookup by lia.
  rewrite Hst by done. by rewrite decide_True by lia.
Qed.

(** ** Deletion *)

Definition in_range (rows : list nat) : Prop :=
  Forall (fun r => (r < STANDARD_VECTOR_SIZE)%nat) rows.

(** Rows a delete by [tid] does not conflict on. *)
Definition deletable (tid : Z) (del : list Z) (r : nat) : Prop :=
  del !!! r = tid \/ del !!! r = NOT_DELETED_ID.

(** The state of the deletion loop at position [i], with [d] rows deleted so far. *)
Record del_inv (tid : Z) (del0 : list Z) (rows0 : list nat) (i d : nat) (del : list Z)
    (rows : list nat) : Prop := {
  di_len : length rows = length rows0;
  di_dlen : length del = length del0;
  di_pos : (d <= i <= length rows0)%nat;
  di_ahead : drop i rows = drop i rows0;
  di_nodup : NoDup (take d rows);
  di_seen : forall r, r ∈ take i rows -> r ∈ take i rows0;
  di_ok : forall r, r ∈ take i rows0 -> deletable tid del0 r;
  di_new : forall r, r ∈ take d rows <-> r ∈ take i rows0 /\ del0 !!! r = NOT_DELETED_ID;
  di_del : forall r, del !!! r = if decide (r ∈ take i rows0) then tid else del0 !!! r
}.

Lemma del_inv_init tid del0 rows0 : del_inv tid del0 rows0 0 0 del0 rows0.
Proof.
  split; rewrite ?take_0; try done; try lia.
  - constructor.
  - by intros r ?%not_elem_of_nil.
  - intros r. split; [by intros ?%not_elem_of_nil|by intros [?%not_elem_of_nil _]].
Qed.

Lemma del_inv_row tid del0 rows0 i d del rows :
  del_inv tid del0 rows0 i d del rows -> (i < length rows0)%nat ->
  rows !! i = Some (rows !!! i) /\ rows0 !! i = Some (rows !!! i).
Proof.
  intros Hi Hl. assert (rows !! i = Some (rows !!! i)) as H.
  { apply list_lookup_lookup_total_lt. by rewrite (di_len _ _ _ _ _ _ _ Hi). }
  split; [done|]. rewrite <- (Nat.add_0_r i) at 1. rewrite <- lookup_drop.
  rewrite <- (di_ahead _ _ _ _ _ _ _ Hi), lookup_drop. by rewrite Nat.add_0_r.
Qed.

Lemma drop_S_eq {A} (l k : list A) i : drop i l = drop i k -> drop (S i) l = drop (S i) k.
Proof. intros H. replace (S i) with (i + 1)%nat by lia. by rewrite <- !drop_drop, H. Qed.

(** A row this transaction already deleted is skipped. *)
Lemma del_inv_skip tid del0 rows0 i d del rows :
  tid <> NOT_DELETED_ID -> (i < length rows0)%nat ->
  del_inv tid del0 rows0 i d del rows -> del !!! (rows !!! i) = tid ->
  del_inv tid del0 rows0 (S i) d del rows.
Proof.
  intros Htid Hi Hinv Hrow. destruct (del_inv_row _ _ _ _ _ _ _ Hinv Hi) as [Hr Hr0].
  destruct Hinv as [H1 H2 H3 H4 H5 H6 H7 H8 H9].
  pose proof (take_S_r rows i _ Hr) as Ht. pose proof (take_S_r rows0 i _ Hr0) as Ht0.
  set (row := rows !!! i) in *. rewrite H9 in Hrow.
  split; try done; try lia.
  - by apply drop_S_eq.
  - intros r. rewrite Ht, Ht0, !elem_of_app. intros [?%H6|?]; auto.
  - intros r. rewrite Ht0, elem_of_app, list_elem_of_singleton. intros [?| ->]; [by apply H7|].
    destruct (decide (row ∈ take i rows0)); [by apply H7|by left].
  - intros r. rewrite H8, Ht0, elem_of_app, list_elem_of_singleton. split; [naive_solver|].
    intros [[?| ->] Hnd]; [done|]. destruct (decide (row ∈ take i rows0)); [done|congruence].
  - intros r. rewrite H9, Ht0.
    destruct (decide (r ∈ take i rows0)) as [Hin|Hin], (decide (r ∈ take i rows0 ++ [row])) as [Hin'|Hin'];
      rewrite ?elem_of_app, ?list_elem_of_singleton in *; try done; try tauto.
    destruct Hin' as [?| ->]; [done|]. by destruct (decide (row ∈ take i rows0)).
Qed.

(** A row nobody deleted is marked and its id moved to the front of the array. *)
Lemma del_inv_mark tid del0 rows0 i d del rows :
  tid <> NOT_DELETED_ID -> (i < length rows0)%nat -> (rows !!! i < length del0)%nat ->
  del_inv tid del0 rows0 i d del rows -> del !!! (rows !!! i) = NOT_DELETED_ID ->
  del_inv tid del0 rows0 (S i) (S d) (<[rows !!! i := tid]> del) (<[d := rows !!! i]> rows).
Proof.
  intros Htid Hi Hlt Hinv Hrow. destruct (del_inv_row _ _ _ _ _ _ _ Hinv Hi) as [Hr Hr0].
  destruct Hinv as [H1 H2 H3 H4 H5 H6 H7 H8 H9].
  pose proof (take_S_r rows0 i _ Hr0) as Ht0. set (row := rows !!! i) in *.
  rewrite H9 in Hrow. destruct (decide (row ∈ take i rows0)) as [|Hnew]; [congruence|].
  assert (take (S d) (<[d := row]> rows) = take d rows ++ [row]) as Htd.
  { rewrite (take_S_r _ d row) by (apply list_lookup_insert_eq; lia).
    by rewrite take_insert_ge by lia. }
  split; rewrite ?length_insert, ?Htd; try done; try lia.
  - rewrite drop_insert_lt by lia. by apply drop_S_eq.
  - apply NoDup_app. split_and!; [done| |apply NoDup_singleton].
    intros x Hx%H8. rewrite list_elem_of_singleton. naive_solver.
  - intros r. rewrite Ht0, elem_of_app, list_elem_of_singleton.
    rewrite !elem_of_take. intros (k & Hk & HkS).
    destruct (decide (k = d)) as [->|Hkd].
    + rewrite list_lookup_insert_eq in Hk by lia. right. congruence.
    + rewrite list_lookup_insert_ne in Hk by done. destruct (decide (k = i)) as [->|].
      * right. congruence.
      * left. apply elem_of_take. apply H6, elem_of_take. exists k. split; [done|lia].
  - intros r. rewrite Ht0, elem_of_app, list_elem_of_singleton. intros [?| ->]; [by apply H7|by right].
  - intros r. rewrite Ht0, !elem_of_app, !list_elem_of_singleton, H8. naive_solver.
  - intros r. rewrite upd_lookup_total by lia. rewrite H9, Ht0.
    repeat case_decide; rewrite ?elem_of_app, ?list_elem_of_singleton in *; naive_solver.
Qed.

(** The outcome of [Delete] on the [deleted] array. *)
Definition delete_outcome (tid : Z) (del0 : list Z) (rows0 : list nat) (count : nat)
    (out : list Z * list nat * result nat) : Prop :=
  let '(del, rows, res) := out in
  length del = length del0 /\
  match res with
  | Ok n =>
      (forall r, r ∈ take count rows0 -> deletable tid del0 r)
      /\ NoDup (take n rows)
      /\ (forall r, r ∈ take n rows <-> r ∈ take count rows0 /\ del0 !!! r = NOT_DELETED_ID)
      /\ (forall r, del !!! r = if decide (r ∈ take count rows0) then tid else del0 !!! r)
  | Throw e =>
      e = TransactionException
      /\ (exists r, r ∈ take count rows0 /\ ~ deletable tid del0 r)
      /\ (forall r, del0 !!! r <> tid -> del !!! r = del0 !!! r)
      /\ (forall r, del !!! r = tid -> del0 !!! r = tid)
  end.

Lemma delete_conflict tid del0 rows0 i d del rows :
  tid <> NOT_DELETED_ID -> length del0 = STANDARD_VECTOR_SIZE -> in_range rows0 ->
  (i < length rows0)%nat -> del_inv tid del0 rows0 i d del rows ->
  del !!! (rows !!! i) <> tid -> del !!! (rows !!! i) <> NOT_DELETED_ID ->
  forall count, (i < count)%nat ->
  delete_outcome tid del0 rows0 count
    (write_all (take i rows) NOT_DELETED_ID del, rows, Throw TransactionException).
Proof.
  intros Htid Hl0 Hrange Hi Hinv Hn1 Hn2 count Hcount.
  destruct (del_inv_row _ _ _ _ _ _ _ Hinv Hi) as [Hr Hr0].
  destruct Hinv as [H1 H2 H3 H4 H5 H6 H7 H8 H9]. set (row := rows !!! i) in *.
  assert (Forall (fun k => (k < length del)%nat) (take i rows)) as Hall.
  { apply Forall_forall. intros r Hr'%H6. rewrite H2, Hl0.
    unfold in_range in Hrange. rewrite Forall_forall in Hrange. apply Hrange.
    apply elem_of_take in Hr' as (k & Hk & _). by eapply list_elem_of_lookup_2. }
  simpl. rewrite write_all_length, H2. split_and!; [done..| | |].
  - exists row. split.
    + apply elem_of_take. exists i. split; [done|lia].
    + rewrite H9 in Hn1, Hn2. destruct (decide (row ∈ take i rows0)); [done|].
      intros [?|?]; done.
  - intros r Hne. rewrite write_all_lookup by done. rewrite H9. case_decide as Hin.
    + apply H6, H7 in Hin as [?|?]; [done|]. by symmetry.
    + case_decide as Hin0; [|done]. destruct (H7 r Hin0) as [?|Hnd]; [done|].
      exfalso. apply Hin. assert (r ∈ take d rows) as Hd by (by apply H8).
      apply elem_of_take in Hd as (k & Hk & ?). apply elem_of_take. exists k. split; [done|lia].
  - intros r. rewrite write_all_lookup by done. rewrite H9. case_decide as Hin; [congruence|].
    case_decide as Hin0; [|done]. intros _. destruct (H7 r Hin0) as [?|Hnd]; [done|].
    exfalso. apply Hin. assert (r ∈ take d rows) as Hd by (by apply H8).
    apply elem_of_take in Hd as (k & Hk & ?). apply elem_of_take. exists k. split; [done|lia].
Qed.

Lemma delete_loop_outcome tid del0 rows0 remaining i d del rows :
  tid <> NOT_DELETED_ID -> length del0 = STANDARD_VECTOR_SIZE -> in_range rows0 ->
  (i + remaining <= length rows0)%nat -> del_inv tid del0 rows0 i d del rows ->
  delete_outcome tid del0 rows0 (i + remaining) (delete_loop remaining i tid del rows d).
Proof.
  intros Htid Hl0 Hrange. revert i d del rows.
  induction remaining as [|remaining IH]; intros i d del rows Hle Hinv; cbn [delete_loop].
  - rewrite Nat.add_0_r. destruct Hinv. by split_and!.
  - rewrite Nat.add_succ_r, <- Nat.add_succ_l.
    destruct (Z.eqb_spec (del !!! (rows !!! i)) tid) as [Heq|Hne].
    + apply IH; [lia|]. apply del_inv_skip; [done|lia|done|done].
    + destruct (Z.eqb_spec (del !!! (rows !!! i)) NOT_DELETED_ID) as [Heq'|Hne']; cbn [negb].
      * apply IH; [lia|]. apply del_inv_mark; [done|lia| |done|done].
        destruct (del_inv_row _ _ _ _ _ _ _ Hinv ltac:(lia)) as [_ Hr0]. rewrite Hl0.
        unfold in_range in Hrange. rewrite Forall_forall in Hrange. apply Hrange.
        by eapply list_elem_of_lookup_2.
      * eapply delete_conflict; try done; lia.
Qed.

Lemma delete_loop_count remaining i tid del rows d :
  let '(_, rows', res) := delete_loop remaining i tid del rows d in
  length rows' = length rows /\ forall k, res = Ok k -> (k <= d + remaining)%nat.
Proof.
  revert i del rows d. induction remaining as [|remaining IH]; intros i del rows d; simpl.
  - split; [done|]. intros k [= <-]. lia.
  - destruct (del !!! (rows !!! i) =? tid).
    + specialize (IH (S i) del rows d). destruct (delete_loop remaining (S i) tid del rows d) as [[? ?] res].
      destruct IH as [H1 H2]. split; [done|]. intros k Hk. specialize (H2 k Hk). lia.
    + destruct (negb (del !!! (rows !!! i) =? NOT_DELETED_ID)); [by split|].
      specialize (IH (S i) (<[rows !!! i := tid]> del) (<[d := rows !!! i]> rows) (S d)).
      destruct (delete_loop remaining _ _ _ _ _) as [[? ?] res]. destruct IH as [H1 H2].
      rewrite length_insert in H1. split; [done|]. intros k Hk. specialize (H2 k Hk). lia.
Qed.

(** ** Dropping version information *)

(** The insert ids of a full vector never decrease: rows are appended and committed in order. *)
Definition insert_order (info : ChunkVectorInfo) : Prop :=
  inserted info !!! 0%nat <= inserted info !!! 1%nat.

(** Whether a missing version info (null pointer) may stand for [c] as far as [T] is concerned. *)
Definition all_visible (c : t) (T : TransactionData) : Prop :=
  forall row, (row < STANDARD_VECTOR_SIZE)%nat -> Fetch c T row = true.

Lemma UseVersion_committed T id : id < start_time T -> UseVersion T id = true.
Proof.
  intros Hid. unfold UseVersion, TransactionVersionOperator. cbn [UseInsertedVersion].
  by destruct (Z.ltb_spec id (start_time T)); [|lia].
Qed.

Lemma UseVersion_NOT_DELETED T : valid_transaction T -> UseVersion T NOT_DELETED_ID = false.
Proof.
  intros H. apply use_deleted_NOT_DELETED in H. unfold UseVersion, TransactionVersionOperator in *.
  cbn [UseInsertedVersion UseDeletedVersion] in *. by apply negb_true_iff in H.
Qed.

(** No commit id equals the start time of [T]: both are drawn from one counter. *)
Definition distinct_ids (c : t) (T : TransactionData) : Prop :=
  match c with
  | CONSTANT_INFO info => c_insert_id info <> start_time T
  | VECTOR_INFO info =>
      forall row, (row < STANDARD_VECTOR_SIZE)%nat -> inserted info !!! row <> start_time T
  end.

Lemma Cleanup_visible c lowest T :
  wf STANDARD_VECTOR_SIZE c ->
  (forall info, c = VECTOR_INFO info -> insert_order info) ->
  Cleanup c lowest = true -> valid_transaction T -> lowest <= start_time T -> distinct_ids c T ->
  all_visible c T.
Proof.
  intros Hwf Hord Hcl HT Hlow Hd row Hrow. destruct c as [info|info]; simpl in *.
  - unfold c_Cleanup in Hcl. destruct (Z.eqb_spec (c_delete_id info) NOT_DELETED_ID) as [E|]; [|done].
    simpl in Hcl. destruct (Z.ltb_spec lowest (c_insert_id info)); [done|].
    unfold c_Fetch. rewrite E, UseVersion_NOT_DELETED, UseVersion_committed by (done || lia). done.
  - destruct Hwf as [Hli Hld Hln Hsame Hany]. unfold v_Cleanup in Hcl.
    destruct (any_deleted info); [done|]. specialize (Hany eq_refl). unfold v_Fetch.
    rewrite Hany, (UseVersion_NOT_DELETED T) by done. rewrite andb_true_r. apply UseVersion_committed.
    specialize (Hd row Hrow). destruct (same_inserted_id info); simpl in Hcl.
    + rewrite Hsame in * by done. destruct (Z.ltb_spec lowest (insert_id info)); [done|lia].
    + rewrite forallb_forall in Hcl. specialize (Hord info eq_refl). unfold insert_order in Hord.
      assert (forall k, (1 <= k < STANDARD_VECTOR_SIZE)%nat -> inserted info !!! k <= lowest) as Hk.
      { intros k Hk. specialize (Hcl k). rewrite in_seq in Hcl. specialize (Hcl ltac:(lia)).
        destruct (Z.ltb_spec lowest (inserted info !!! k)); [done|lia]. }
      pose proof SVS_eq. destruct (decide (row = 0%nat)) as [->|].
      * specialize (Hk 1%nat ltac:(lia)). lia.
      * specialize (Hk row ltac:(lia)). lia.
Qed.

(** ** Committing deletions *)

Definition deleted_rows (d : DeleteInfo) : list nat :=
  if is_consecutive d then seq 0 (del_count d) else take (del_count d) (del_rows d).

Lemma v_CommitDelete_lookup info commit_id d r :
  length (deleted info) = STANDARD_VECTOR_SIZE -> in_range (deleted_rows d) ->
  deleted (v_CommitDelete info commit_id d) !!! r
  = if decide (r ∈ deleted_rows d) then commit_id else deleted info !!! r.
Proof.
  intros Hl Hr. unfold v_CommitDelete, deleted_rows, in_range in *. simpl.
  destruct (is_consecutive d).
  - unfold write_range. rewrite Nat.sub_0_r. apply write_all_lookup. by rewrite Hl.
  - apply write_all_lookup. by rewrite Hl.
Qed.

Lemma v_CommitDelete_wf n info commit_id d :
  wf_vec n info -> any_deleted info = true -> wf_vec n (v_CommitDelete info commit_id d).
Proof.
  intros [Hli Hld Hln Hsame Hany] Ha. split; simpl; try done; [|congruence].
  destruct (is_consecutive d); by rewrite ?write_range_length, ?write_all_length.
Qed.

Lemma Delete_wf n info tid rows count :
  tid <> NOT_DELETED_ID -> wf_vec n info -> in_range rows -> (count <= length rows)%nat ->
  wf_vec n (Delete info tid rows count).1.1.
Proof.
  intros Htid Hwf Hr Hc. destruct Hwf as [Hli Hld Hln Hsame Hany]. unfold Delete.
  pose proof (delete_loop_outcome tid (deleted info) rows count 0 0 (deleted info) rows Htid Hld Hr
                Hc (del_inv_init _ _ _)) as Ho.
  destruct (delete_loop _ _ _ _ _ _) as [[del rows'] res]. destruct Ho as [Hlen _].
  split; simpl; try done. congruence.
Qed.

Lemma Delete_spec info tid rows count :
  tid <> NOT_DELETED_ID -> length (deleted info) = STANDARD_VECTOR_SIZE -> in_range rows ->
  (count <= length rows)%nat ->
  let '(info', rows', res) := Delete info tid rows count in
  inserted info' = inserted info
  /\ match res with
     | Ok n =>
         (forall r, r ∈ take count rows -> deletable tid (deleted info) r)
         /\ NoDup (take n rows')
         /\ (forall r, r ∈ take n rows' <-> r ∈ take count rows /\ deleted info !!! r = NOT_DELETED_ID)
         /\ (forall r, deleted info' !!! r
                      = if decide (r ∈ take count rows) then tid else deleted info !!! r)
     | Throw e =>
         e = TransactionException
         /\ (exists r, r ∈ take count rows /\ ~ deletable tid (deleted info) r)
         /\ (forall r, deleted info !!! r <> tid -> deleted info' !!! r = deleted info !!! r)
         /\ (forall r, deleted info' !!! r = tid -> deleted info !!! r = tid)
     end.
Proof.
  intros Htid Hl Hr Hc. unfold Delete.
  pose proof (delete_loop_outcome tid (deleted info) rows count 0 0 (deleted info) rows Htid Hl Hr
                Hc (del_inv_init _ _ _)) as Ho.
  destruct (delete_loop _ _ _ _ _ _) as [[del rows'] res]. destruct Ho as [_ Ho].
  split; [done|]. by destruct res.
Qed.

(** ** Serialization *)

(** The reader a checkpoint writes for: it sees every committed change. *)
Definition checkpoint_visible (c : t) (row : nat) : bool :=
  row_visible TransactionVersionOperator (TRANSACTION_ID_START - 1) INVALID_INDEX c row.

Definition opt_Fetch (c : option t) (T : TransactionData) (row : nat) : bool :=
  match c with None => true | Some c => Fetch c T row end.

Lemma checkpoint_ids : valid_ids (TRANSACTION_ID_START - 1) INVALID_INDEX.
Proof. by vm_compute. Qed.

Lemma SetInvalid_fold m sel count :
  (count <= length sel)%nat ->
  fold_left (fun mask i => ValidityMask.SetInvalid mask (sel !!! i)) (seq 0 count) m
  = fold_left (fun mask i => ValidityMask.Set_ mask i false) (take count sel) m.
Proof. intros Hc. by rewrite (fold_left_lookup ValidityMask.SetInvalid sel count m Hc). Qed.

Lemma v_Read_mask start mask bytes rest :
  inU 64 start -> ValidityMask.Read STANDARD_VECTOR_SIZE (bytes ++ rest) = Ok (mask, rest) ->
  exists info, v_Read (le_bytes 8 start ++ bytes ++ rest) = Ok (info, rest)
    /\ forall T row, valid_transaction T -> 0 < start_time T -> (row < STANDARD_VECTOR_SIZE)%nat ->
         v_Fetch info T row = negb (ValidityMask.RowIsValid mask row).
Proof.
  intros Hs Hm. unfold v_Read. rewrite read_le_write by done. cbn [mbind result_bind].
  rewrite Hm. cbn [mbind result_bind]. eexists. split; [done|]. intros T row HT H0 Hrow.
  unfold v_Fetch. simpl.
  rewrite lookup_total_replicate by done. rewrite UseVersion_committed by done.
  rewrite (fold_left_cond_write (ValidityMask.RowIsValid mask) 0)
    by (by rewrite length_replicate).
  rewrite decide_True by done. destruct (ValidityMask.RowIsValid mask row); simpl.
  - by rewrite UseVersion_committed by done.
  - rewrite lookup_total_replicate by done. by rewrite UseVersion_NOT_DELETED.
Qed.

Lemma v_Write_Read info rest :
  wf_vec STANDARD_VECTOR_SIZE info -> inU 64 (v_start info) ->
  exists bytes c', v_Write info = Ok bytes /\ Read (bytes ++ rest) = Ok (c', rest)
    /\ forall T row, valid_transaction T -> 0 < start_time T -> (row < STANDARD_VECTOR_SIZE)%nat ->
         opt_Fetch c' T row = checkpoint_visible (VECTOR_INFO info) row.
Proof.
  intros Hwf Hst. set (P := checkpoint_visible (VECTOR_INFO info)).
  assert (selects P STANDARD_VECTOR_SIZE
    (v_TemplatedGetSelVector TransactionVersionOperator (TRANSACTION_ID_START - 1) INVALID_INDEX info
      (replicate STANDARD_VECTOR_SIZE 0%nat) STANDARD_VECTOR_SIZE)) as Hsel.
  { apply (TemplatedGetSelVector_selects TransactionVersionOperator (TRANSACTION_ID_START - 1)
             INVALID_INDEX STANDARD_VECTOR_SIZE (VECTOR_INFO info)); [done|done| |].
    - by rewrite length_replicate.
    - apply use_deleted_NOT_DELETED, checkpoint_ids. }
  unfold v_Write. destruct (v_TemplatedGetSelVector _ _ _ _ _ _) as [count sel].
  destruct Hsel as [Hc Hr]. unfold selected_rows in Hr. simpl in Hc, Hr.
  destruct (Nat.eqb_spec count STANDARD_VECTOR_SIZE) as [Hfull|Hnf].
  { eexists _, None. split; [done|]. split; [done|]. intros T row _ _ Hrow. simpl.
    symmetry. apply (select_full P STANDARD_VECTOR_SIZE); [congruence|done]. }
  destruct (Nat.eqb_spec count 0) as [->|Hn0].
  { eexists _, (Some (CONSTANT_INFO (mkConstant (v_start info) 0 0))). split; [done|]. split.
    - unfold Read. change ((TYPE_CONSTANT_INFO :: ?x) ++ rest) with (le_bytes 1 TYPE_CONSTANT_INFO ++ (x ++ rest)).
      rewrite read_le_write by done. cbn [mbind result_bind]. unfold c_Read. simpl (_ =? _). cbv iota.
      rewrite read_le_write by done. done.
    - intros T row HT H0 Hrow. simpl. unfold c_Fetch. simpl. rewrite UseVersion_committed by done.
      simpl. symmetry. destruct (P row) eqn:E; [|done].
      assert (row ∈ select P STANDARD_VECTOR_SIZE) as Hin by (by apply elem_of_select).
      symmetry in Hc. apply nil_length_inv in Hc. rewrite Hc in Hin. by apply not_elem_of_nil in Hin. }
  assert (count <= length sel)%nat as Hcl.
  { apply (f_equal length) in Hr. rewrite length_take in Hr. lia. }
  rewrite SetInvalid_fold by done. rewrite Hr.
  set (m0 := ValidityMask.InitializeCount _ _).
  assert (ValidityMask.wf m0) as Hm0 by apply (ValidityMask.Initialize_wf (ValidityMask.mk None STANDARD_VECTOR_SIZE)).
  destruct (ValidityMask.Set_list m0 (select P STANDARD_VECTOR_SIZE) false) as (Hw & Hcap & Hrows).
  { done. }
  { apply Forall_forall. by intros i [??]%elem_of_select. }
  destruct (ValidityMask.Write_Read_rows _ STANDARD_VECTOR_SIZE Hw) as (bytes & HW & HR).
  { by rewrite Hcap. }
  { rewrite SVS_eq. done. }
  rewrite HW. cbn [mbind result_bind]. destruct (HR rest) as (mask & HRm & Hmask).
  destruct (v_Read_mask (v_start info) mask bytes rest Hst HRm) as (info' & HRv & Hf).
  eexists _, (Some (VECTOR_INFO info')). split; [done|]. split.
  - unfold Read. change ((TYPE_VECTOR_INFO :: ?x) ++ rest) with (le_bytes 1 TYPE_VECTOR_INFO ++ (x ++ rest)).
    rewrite read_le_write by done. cbn [mbind result_bind]. simpl (_ =? _). cbv iota.
    rewrite <- app_assoc, HRv. done.
  - intros T row HT H0 Hrow. simpl. rewrite Hf, Hmask by done. rewrite Hrows by done.
    rewrite (ValidityMask.RowIsValid_bit m0 (ValidityMask.ValidityData STANDARD_VECTOR_SIZE)) by done.
    rewrite ValidityMask.bit_ValidityData by done.
    case_decide as Hd; rewrite elem_of_select in Hd; simpl; symmetry; fold (P row).
    + by destruct Hd.
    + destruct (P row); [exfalso; by apply Hd|done].
Qed.

(** ** Properties *)

(** A vector in which transaction [tid] has deleted rows 3 and 5, for the examples below. *)
Definition example_info (tid : Z) : ChunkVectorInfo :=
  (Delete (v_Append (new_vector 0) 0 STANDARD_VECTOR_SIZE 7) tid [3; 5]%nat 2).1.1.

Lemma example_info_wf tid :
  tid <> NOT_DELETED_ID -> wf_vec STANDARD_VECTOR_SIZE (example_info tid).
Proof.
  intros Htid. apply Delete_wf; [done| | |done].
  - apply v_Append_wf; [apply new_vector_wf|]; lia.
  - pose proof SVS_eq. repeat constructor; lia.
Qed.

Definition example_transaction : TransactionData :=
  mkTransactionData (TRANSACTION_ID_START + 1) 9.

(** A vectorised scan and a point lookup agree: the selection vector [GetSelVector] produces
    for a transaction lists, in increasing order and without gaps, exactly the rows below
    [max_count] for which [Fetch] answers that the transaction sees them, and the count it returns
    is their number.  This covers the constant info and all four shortcuts of the vector info. *)
Theorem scan_matches_fetch n c T sel max_count :
  wf n c -> valid_transaction T -> (max_count <= n)%nat -> (max_count <= length sel)%nat ->
  let r := GetSelVector c T sel max_count in
  r.1 = length (List.filter (Fetch c T) (seq 0 max_count))
  /\ selected_rows max_count r = List.filter (Fetch c T) (seq 0 max_count).
Proof.
  intros Hwf HT Hn Hs.
  change (selects (Fetch c T) max_count (GetSelVector c T sel max_count)).
  eapply selects_ext; [|eapply TemplatedGetSelVector_selects; try done; by apply use_deleted_NOT_DELETED].
  intros i _. by rewrite Fetch_visible.
Qed.

Lemma scan_matches_fetch_witness :
  selected_rows 8 (GetSelVector (VECTOR_INFO (example_info 8)) example_transaction
                                (replicate 8 0%nat) 8) = [0; 1; 2; 4; 6; 7]%nat.
Proof.
  destruct (scan_matches_fetch STANDARD_VECTOR_SIZE (VECTOR_INFO (example_info 8))
              example_transaction (replicate 8 0%nat) 8) as [_ H].
  - apply example_info_wf. discriminate.
  - split; vm_compute; congruence.
  - pose proof SVS_eq. lia.
  - simpl. lia.
  - etransitivity; [exact H|]. vm_compute. reflexivity.
Defined.

(** Deleting rows is all or nothing with respect to other transactions.  If [Delete] succeeds,
    no requested row was deleted by anybody else, exactly the requested rows now carry the
    transaction's id, and the front of the caller's array lists, without duplicates, exactly the
    rows that were still undeleted.  It throws only if some requested row was deleted by another
    transaction; then no entry that was not the transaction's own has changed and no row is marked
    by the transaction that was not marked by it before. *)
Theorem delete_correct info tid rows count :
  tid <> NOT_DELETED_ID -> length (deleted info) = STANDARD_VECTOR_SIZE -> in_range rows ->
  (count <= length rows)%nat ->
  let '(info', rows', res) := Delete info tid rows count in
  inserted info' = inserted info
  /\ match res with
     | Ok n =>
         (forall r, r ∈ take count rows -> deletable tid (deleted info) r)
         /\ NoDup (take n rows')
         /\ (forall r, r ∈ take n rows' <-> r ∈ take count rows /\ deleted info !!! r = NOT_DELETED_ID)
         /\ (forall r, deleted info' !!! r
                      = if decide (r ∈ take count rows) then tid else deleted info !!! r)
     | Throw e =>
         e = TransactionException
         /\ (exists r, r ∈ take count rows /\ ~ deletable tid (deleted info) r)
         /\ (forall r, deleted info !!! r <> tid -> deleted info' !!! r = deleted info !!! r)
         /\ (forall r, deleted info' !!! r = tid -> deleted info !!! r = tid)
     end.
Proof. apply Delete_spec. Qed.

Lemma delete_correct_witness :
  (Delete (example_info 100) 200 [4; 4; 6]%nat 3).2 = Ok 2%nat
  /\ deleted (Delete (example_info 100) 200 [4; 4; 6]%nat 3).1.1 !!! 6%nat = 200
  /\ (Delete (example_info 100) 200 [4; 5]%nat 2).2 = Throw TransactionException
  /\ deleted (Delete (example_info 100) 200 [4; 5]%nat 2).1.1 !!! 5%nat = 100.
Proof.
  assert (Hl : length (deleted (example_info 100)) = STANDARD_VECTOR_SIZE) by (vm_compute; reflexivity).
  assert (H5 : deleted (example_info 100) !!! 5%nat = 100) by (vm_compute; reflexivity).
  pose proof SVS_eq as HS.
  pose proof (delete_correct (example_info 100) 200 [4; 4; 6]%nat 3 ltac:(discriminate) Hl
                ltac:(repeat constructor; lia) ltac:(simpl; lia)) as A.
  pose proof (delete_correct (example_info 100) 200 [4; 5]%nat 2 ltac:(discriminate) Hl
                ltac:(repeat constructor; lia) ltac:(simpl; lia)) as B.
  assert (RA : (Delete (example_info 100) 200 [4; 4; 6]%nat 3).2 = Ok 2%nat) by (vm_compute; reflexivity).
  assert (RB : (Delete (example_info 100) 200 [4; 5]%nat 2).2 = Throw TransactionException)
    by (vm_compute; reflexivity).
  destruct (Delete (example_info 100) 200 [4; 4; 6]%nat 3) as [[ia ra] resa].
  destruct (Delete (example_info 100) 200 [4; 5]%nat 2) as [[ib rb] resb].
  simpl in RA, RB. subst resa resb. simpl. split; [reflexivity|]. split.
  - destruct A as (_ & _ & _ & _ & A). rewrite A. reflexivity.
  - split; [reflexivity|]. destruct B as (_ & _ & _ & B & _).
    etransitivity; [apply (B 5%nat)|exact H5]. rewrite H5. discriminate.
Defined.

(** The roll-back loop of a conflicting [Delete] is not limited to the tuples marked by the
    failing call, as its comment says: a row the same transaction had deleted earlier and names
    again is reset to undeleted as well. *)
Lemma delete_conflict_resets_earlier_deletion :
  let info := set_deleted (new_vector 0) (<[1%nat := 300]> (<[0%nat := 200]> (deleted (new_vector 0)))) true in
  deleted info !!! 0%nat = 200
  /\ (Delete info 200 [0; 1]%nat 2).2 = Throw TransactionException
  /\ deleted (Delete info 200 [0; 1]%nat 2).1.1 !!! 0%nat = NOT_DELETED_ID.
Proof. vm_compute. auto. Qed.

(** Version information is only dropped when nobody can tell: if [Cleanup] approves of removing
    a full vector's info at horizon [lowest_transaction], then every transaction starting at or
    after the horizon sees every row of the vector, which is what a missing info means.  (The
    check of the per-row ids skips row 0; it is sound because insert ids never decrease within a
    vector.) *)
Theorem cleanup_sound c lowest T :
  wf STANDARD_VECTOR_SIZE c -> (forall info, c = VECTOR_INFO info -> insert_order info) ->
  Cleanup c lowest = true -> valid_transaction T -> lowest <= start_time T -> distinct_ids c T ->
  forall row, (row < STANDARD_VECTOR_SIZE)%nat -> Fetch c T row = true.
Proof. apply Cleanup_visible. Qed.

Lemma cleanup_sound_witness :
  Fetch (VECTOR_INFO (v_Append (v_Append (new_vector 0) 0 10 5) 10 STANDARD_VECTOR_SIZE 7))
        example_transaction 2000 = true.
Proof.
  pose proof SVS_eq as HS.
  apply (cleanup_sound _ 8).
  - simpl. apply v_Append_wf; [apply v_Append_wf; [apply new_vector_wf|]|]; lia.
  - intros info [= <-]. vm_compute. discriminate.
  - vm_compute. reflexivity.
  - split; vm_compute; congruence.
  - simpl. lia.
  - intros row Hrow. simpl. rewrite write_range_lookup by (rewrite write_range_length, length_replicate; lia).
    rewrite write_range_lookup by (rewrite length_replicate; lia).
    rewrite lookup_total_replicate by lia. repeat case_decide; lia.
  - lia.
Defined.

(** Checkpointing a vector's version information and loading it again preserves the committed
    state: whichever of the three formats [Write] chooses (nothing, a constant, a bit mask), [Read]
    consumes exactly the written bytes and every later transaction sees exactly the rows that
    were committed and not deleted by a committed transaction when the checkpoint was taken. *)
Theorem checkpoint_roundtrip info rest :
  wf_vec STANDARD_VECTOR_SIZE info -> inU 64 (v_start info) ->
  exists bytes c', Write (VECTOR_INFO info) = Ok bytes /\ Read (bytes ++ rest) = Ok (c', rest)
    /\ forall T row, valid_transaction T -> 0 < start_time T -> (row < STANDARD_VECTOR_SIZE)%nat ->
         opt_Fetch c' T row = checkpoint_visible (VECTOR_INFO info) row.
Proof. apply v_Write_Read. Qed.

Lemma checkpoint_roundtrip_witness :
  exists bytes c', Write (VECTOR_INFO (example_info 20)) = Ok bytes
    /\ Read (bytes ++ []) = Ok (c', [])
    /\ opt_Fetch c' example_transaction 3 = false
    /\ opt_Fetch c' example_transaction 4 = true.
Proof.
  destruct (checkpoint_roundtrip (example_info 20) []) as (bytes & c' & H1 & H2 & H3).
  - apply example_info_wf. discriminate.
  - split; vm_compute; congruence.
  - pose proof SVS_eq. exists bytes, c'. split; [exact H1|]. split; [exact H2|].
    rewrite !H3; try lia; try (split; vm_compute; congruence); try reflexivity.
Defined.

End ChunkInfo.
