(* ===== verification/CatalogSet.v ===== *)
(** * Catalog sets: versioned catalog entries

    Models src/src/catalog/catalog_set.cpp: the entries of one kind (tables, views, models, ...) by
    name, each name with a chain of versions, and the part of src/src/transaction/commit_state.cpp,
    rollback_state.cpp and cleanup_state.cpp that ends a change of the catalog.

    A chain is the list of its entries, the newest first: the child of an entry is the next one of the
    list, its parent the one before.  A pointer to an entry is its [oid]; [names] is the name of each
    entry that was ever created.  Names are compared without case.  The undo entries that a change pushes
    go to a list of pointers.  The catalog lock is held during each operation.

    The definition of an entry (the columns of a table, ...) is [content]; what [AlterEntry] of the
    entry makes of it and the answers of the dependency manager are parameters of the operations.  Sets
    have no default entries here.

    The abstract view of a name for a transaction is [view]: the newest version in its snapshot, if it
    is not deleted. *)

From Stdlib Require Import Ascii String.
From stdpp Require Import gmap strings sorting.
From S2P Require Import Prelude ChunkInfo.

Module CatalogSet.

Abbreviation TRANSACTION_ID_START := ChunkInfo.TRANSACTION_ID_START.

Inductive CatalogType : Type :=
| INVALID | TABLE_ENTRY | SCHEMA_ENTRY | VIEW_ENTRY | INDEX_ENTRY | PREPARED_STATEMENT | SEQUENCE_ENTRY
| COLLATION_ENTRY | TYPE_ENTRY | DATABASE_ENTRY | MODEL_ENTRY | EMBEDDING_ENTRY
| TABLE_FUNCTION_ENTRY | SCALAR_FUNCTION_ENTRY | AGGREGATE_FUNCTION_ENTRY | PRAGMA_FUNCTION_ENTRY
| COPY_FUNCTION_ENTRY | MACRO_ENTRY | TABLE_MACRO_ENTRY
| DELETED_ENTRY | RENAMED_ENTRY
| SECRET_ENTRY | SECRET_TYPE_ENTRY | SECRET_FUNCTION_ENTRY
| DEPENDENCY_ENTRY.

#[global] Instance CatalogType_eq_dec : EqDecision CatalogType.
Proof. solve_decision. Defined.

(** What is fixed when an entry is created. *)
Record EntryData (X : Type) : Type := mkData {
  type : CatalogType;
  name : string;
  temporary : bool;
  internal : bool;
  content : option X
}.
Arguments mkData {X}.
Arguments type {X}.
Arguments name {X}.
Arguments temporary {X}.
Arguments internal {X}.
Arguments content {X}.

Record CatalogEntry (X : Type) : Type := mkEntry {
  oid : nat;
  data : EntryData X;
  deleted : bool;
  timestamp : Z
}.
Arguments mkEntry {X}.
Arguments oid {X}.
Arguments data {X}.
Arguments deleted {X}.
Arguments timestamp {X}.

Record CatalogTransaction : Type := mkTransaction {
  transaction_id : Z;
  start_time : Z;
  transaction : bool
}.

Inductive FailureReason : Type := SUCCESS | DELETED | NOT_PRESENT | INVISIBLE.

Record EntryLookup (X : Type) : Type := mkLookup {
  result_entry : option (CatalogEntry X);
  reason : FailureReason
}.
Arguments mkLookup {X}.
Arguments result_entry {X}.
Arguments reason {X}.

(** The map of a set, and the entries that have been created. *)
Record t (X : Type) : Type := mk {
  entries : gmap string (list (CatalogEntry X));
  names : gmap nat string;
  next_oid : nat
}.
Arguments mk {X}.
Arguments entries {X}.
Arguments names {X}.
Arguments next_oid {X}.

(** [ASCII_TO_UPPER_MAP]: names that differ in it are different. *)
Definition to_upper (c : ascii) : ascii :=
  let n := N_of_ascii c in
  if ((97 <=? n) && (n <=? 122))%N then ascii_of_N (n - 32) else c.

Fixpoint key (s : string) : string :=
  match s with
  | EmptyString => EmptyString
  | String c s => String (to_upper c) (key s)
  end.

Definition CIEquals (s1 s2 : string) : bool := bool_decide (key s1 = key s2).

Section catalog_set.
Context {X : Type}.
Context (IsSystemCatalog IsTemporaryCatalog : bool).
Abbreviation entry := (CatalogEntry X).
Abbreviation chain := (list (CatalogEntry X)).
Implicit Types (e : entry) (c : chain) (m : t X) (T : CatalogTransaction) (d : EntryData X) (s : string) (p : nat).

(** The set, and the undo entries of the transaction. *)
Abbreviation state := (t X * list nat)%type.

Definition with_entries (es : gmap string chain) m : t X := mk es (names m) (next_oid m).
Definition set_chain s (c : chain) m : t X := with_entries (<[key s := c]> (entries m)) m.
Definition on_set {A} (f : ST (t X) A) : ST state A := fun '(m, undo) => let '(m, r) := f m in ((m, undo), r).

(** ** Timestamps *)

Definition CreatedByOtherActiveTransaction T (ts : Z) : bool :=
  (TRANSACTION_ID_START <=? ts) && negb (ts =? transaction_id T).
Definition CommittedAfterStarting T (ts : Z) : bool := (ts <? TRANSACTION_ID_START) && (start_time T <? ts).
Definition HasConflict T (ts : Z) : bool := CreatedByOtherActiveTransaction T ts || CommittedAfterStarting T ts.
Definition IsCommitted (ts : Z) : bool := ts <? TRANSACTION_ID_START.
Definition UseTimestamp T (ts : Z) : bool := if ts =? transaction_id T then true else ts <? start_time T.

(** ** The map *)

Definition map_GetEntry s m : option chain := entries m !! key s.

Definition AddEntry e : ST (t X) unit :=
  m ← get;
  match map_GetEntry (name (data e)) m with
  | Some _ => throw InternalException
  | None => modify (set_chain (name (data e)) [e])
  end.

Definition UpdateEntry e : ST (t X) unit :=
  m ← get;
  match map_GetEntry (name (data e)) m with
  | None => throw InternalException
  | Some c => modify (set_chain (name (data e)) (e :: c))
  end.

Definition remove p (c : chain) : chain := List.filter (fun e => negb (oid e =? p)%nat) c.

Definition map_DropEntry e : ST (t X) unit :=
  m ← get;
  match map_GetEntry (name (data e)) m with
  | None => throw InternalException
  | Some c =>
      match remove (oid e) c with
      | [] => modify (with_entries (delete (key (name (data e))) (entries m)))
      | c => modify (set_chain (name (data e)) c)
      end
  end.

(** ** Pointers *)

Definition chain_of p m : option chain := n ← names m !! p; map_GetEntry n m.
Definition deref p m : option entry := c ← chain_of p m; List.find (fun e => (oid e =? p)%nat) c.

Fixpoint parent_in p (c : chain) : option entry :=
  match c with
  | e1 :: c' =>
      match c' with
      | e2 :: _ => if (oid e2 =? p)%nat then Some e1 else parent_in p c'
      | [] => None
      end
  | [] => None
  end.
Definition Parent p m : option entry := c ← chain_of p m; parent_in p c.

Fixpoint child_in p (c : chain) : option entry :=
  match c with
  | e :: c => if (oid e =? p)%nat then head c else child_in p c
  | [] => None
  end.
Definition Child p m : option entry := c ← chain_of p m; child_in p c.

Definition HasParent p m : bool := match Parent p m with Some _ => true | None => false end.
Definition HasChild p m : bool := match Child p m with Some _ => true | None => false end.

Definition UpdateTimestamp p (ts : Z) m : t X :=
  match chain_of p m, names m !! p with
  | Some c, Some n =>
      set_chain n (map (fun e => if (oid e =? p)%nat then mkEntry (oid e) (data e) (deleted e) ts else e) c) m
  | _, _ => m
  end.

(** The object is created, with the next oid. *)
Definition new_entry d (is_deleted : bool) (ts : Z) : ST (t X) entry :=
  m ← get;
  modify (fun m => mk (entries m) (<[next_oid m := name d]> (names m)) (S (next_oid m)));;
  mret (mkEntry (next_oid m) d is_deleted ts).

(** ** Reading *)

(** The entry for the transaction, and whether it is visible. *)
Fixpoint GetEntryForTransaction T (c : chain) : option (entry * bool) :=
  match c with
  | [] => None
  | e :: c' =>
      match c' with
      | [] => Some (e, false)
      | _ => if UseTimestamp T (timestamp e) then Some (e, true) else GetEntryForTransaction T c'
      end
  end.

Fixpoint GetCommittedEntry (c : chain) : option entry :=
  match c with
  | [] => None
  | e :: c' =>
      match c' with
      | [] => Some e
      | _ => if timestamp e <? TRANSACTION_ID_START then Some e else GetCommittedEntry c'
      end
  end.

Definition GetEntryDetailed T s m : EntryLookup X :=
  match (map_GetEntry s m ≫= GetEntryForTransaction T : option (entry * bool)) with
  | None => mkLookup None NOT_PRESENT
  | Some (e, visible) =>
      if deleted e then mkLookup None (if visible then DELETED else INVISIBLE) else mkLookup (Some e) SUCCESS
  end.

Definition GetEntry T s m : option entry := result_entry (GetEntryDetailed T s m).

(** The callbacks of a scan, in the order of the map. *)
Definition sorted_chains m : list (string * chain) :=
  merge_sort (fun x y : string * chain => Is_true (String.leb x.1 y.1)) (map_to_list (entries m)).

Definition Scan T m : list entry :=
  omap (fun '(_, c) => match GetEntryForTransaction T c with
                       | Some (e, _) => if deleted e then None else Some e
                       | None => None
                       end) (sorted_chains m).

Definition ScanCommitted m : list entry :=
  omap (fun '(_, c) => match GetCommittedEntry c with
                       | Some e => if deleted e then None else Some e
                       | None => None
                       end) (sorted_chains m).

(** The entry that a new version may replace. *)
Definition GetEntryInternal T s : ST (t X) (option entry) :=
  m ← get;
  match map_GetEntry s m with
  | None | Some [] => mret None
  | Some (e :: _) =>
      if HasConflict T (timestamp e) then throw TransactionException
      else if deleted e then mret None
      else mret (Some e)
  end.

(** ** Creating and dropping *)

Definition IsDependencyEntry d : bool := bool_decide (type d = DEPENDENCY_ENTRY).

Definition DEFAULT_SCHEMA : string := "main".

Definition CheckCatalogEntryInvariants d s : result unit :=
  if internal d then
    if negb IsSystemCatalog && negb (String.eqb s DEFAULT_SCHEMA) then Throw InternalException else Ok tt
  else if negb (temporary d) && IsSystemCatalog && negb (IsDependencyEntry d) then Throw InternalException
  else if temporary d && negb IsTemporaryCatalog then Throw InternalException
  else if negb (temporary d) && IsTemporaryCatalog && negb (String.eqb s DEFAULT_SCHEMA) then Throw InvalidInputException
  else Ok tt.

Definition CreateCommittedEntry d : ST (t X) (option nat) :=
  m ← get;
  match map_GetEntry (name d) m with
  | Some _ => mret None
  | None => e ← new_entry d false 0; AddEntry e;; mret (Some (oid e))
  end.

(** A dummy deleted entry, so that other transactions see that instead of the entry to be added. *)
Definition StartChain s : ST (t X) bool :=
  dummy_node ← new_entry (mkData INVALID s false false None) true 0;
  AddEntry dummy_node;;
  mret true.

Definition VerifyVacancy T e : result bool :=
  if HasConflict T (timestamp e) then Throw TransactionException else Ok (deleted e).

(** [PushCatalogEntry] of the child of a new entry. *)
Definition push_child T (value : entry) : ST state unit :=
  '(m, undo) ← get;
  if transaction T then
    match Child (oid value) m with
    | Some child => modify (fun '(m, undo) => (m, undo ++ [oid child]))
    | None => throw InternalException
    end
  else mret tt.

Definition CreateEntryInternal T s (value : entry) (should_be_empty : bool) : ST state bool :=
  '(m, _) ← get;
  vacant ← (match map_GetEntry s m with
            | None | Some [] => on_set (StartChain s)
            | Some (top :: _) => if should_be_empty then lift (VerifyVacancy T top) else mret true
            end);
  if negb vacant then mret false
  else
    on_set (UpdateEntry value);;
    push_child T value;;
    mret true.

(** [add_object] is what the dependency manager answers. *)
Definition CreateEntry T s d (add_object : result unit) : ST state bool :=
  value ← on_set (new_entry d false (transaction_id T));
  lift (CheckCatalogEntryInvariants d s);;
  lift add_object;;
  CreateEntryInternal T s value true.

Definition DropEntryInternal T s (allow_drop_internal : bool) : ST state bool :=
  o ← on_set (GetEntryInternal T s);
  match o with
  | None => mret false
  | Some e =>
      if internal (data e) && negb allow_drop_internal then throw CatalogException
      else
        value ← on_set (new_entry (mkData DELETED_ENTRY (name (data e)) false false None) true (transaction_id T));
        on_set (UpdateEntry value);;
        push_child T value;;
        mret true
  end.

(** [drop_object] is what the dependency manager answers. *)
Definition DropDependencies T s (allow_drop_internal : bool) (drop_object : result unit) : ST state bool :=
  '(m, _) ← get;
  match GetEntry T s m with
  | None => mret false
  | Some e =>
      if internal (data e) && negb allow_drop_internal then throw CatalogException
      else lift drop_object;; mret true
  end.

Definition DropEntry T s (allow_drop_internal : bool) (drop_object : result unit) : ST state bool :=
  found ← DropDependencies T s allow_drop_internal drop_object;
  if negb found then mret false else DropEntryInternal T s allow_drop_internal.

Definition RenameEntryInternal T (old : entry) (new_name : string) : ST state bool :=
  let original_name := name (data old) in
  '(m, _) ← get;
  (match (map_GetEntry new_name m ≫= GetEntryForTransaction T : option (entry * bool)) with
   | Some (existing_entry, _) => if negb (deleted existing_entry) then throw CatalogException else mret tt
   | None => mret tt
   end);;
  renamed_tombstone ← on_set (new_entry (mkData RENAMED_ENTRY original_name false false None) false (transaction_id T));
  created ← CreateEntryInternal T original_name renamed_tombstone false;
  if negb created then mret false
  else
    dropped ← DropEntryInternal T original_name false;
    if negb dropped then mret false
    else
      renamed_node ← on_set (new_entry (mkData RENAMED_ENTRY new_name false false None) false (transaction_id T));
      CreateEntryInternal T new_name renamed_node true.

(** [alter] is the entry's own [AlterEntry] or copy, [alter_object] what the dependency manager answers. *)
Definition AlterEntry T s (alter : EntryData X -> result (option (EntryData X))) (allow_internal : bool)
    (alter_object : result unit) : ST state bool :=
  '(m, _) ← get;
  match GetEntry T s m with
  | None => mret false
  | Some e =>
      if negb allow_internal && internal (data e) then throw CatalogException
      else
        altered ← lift (alter (data e));
        match altered with
        | None => mret true
        | Some d =>
            o ← on_set (GetEntryInternal T s);
            match o with
            | None => throw InternalException
            | Some e =>
                value ← on_set (new_entry d false (transaction_id T));
                renamed ← (if negb (CIEquals (name d) (name (data e))) then RenameEntryInternal T e (name d) else mret true);
                if negb renamed then mret false
                else
                  on_set (UpdateEntry value);;
                  push_child T value;;
                  lift alter_object;;
                  mret true
            end
        end
  end.

(** ** Commit, rollback and cleanup of an undo entry *)

(** The types that a commit knows; the tables and indexes that it drops are not part of the set. *)
Definition is_create_type (ty : CatalogType) : bool :=
  bool_decide (ty ∈ [TABLE_ENTRY; VIEW_ENTRY; INDEX_ENTRY; SEQUENCE_ENTRY; MODEL_ENTRY; EMBEDDING_ENTRY; TYPE_ENTRY;
                     MACRO_ENTRY; TABLE_MACRO_ENTRY]).
Definition is_alter_type (ty : CatalogType) : bool :=
  bool_decide (ty ∈ [TABLE_ENTRY; VIEW_ENTRY; INDEX_ENTRY; SEQUENCE_ENTRY; TYPE_ENTRY; MACRO_ENTRY; TABLE_MACRO_ENTRY]).
Definition is_other_type (ty : CatalogType) : bool :=
  bool_decide (ty ∈ [SCHEMA_ENTRY; RENAMED_ENTRY; DELETED_ENTRY; DATABASE_ENTRY; PREPARED_STATEMENT; AGGREGATE_FUNCTION_ENTRY;
                     SCALAR_FUNCTION_ENTRY; TABLE_FUNCTION_ENTRY; COPY_FUNCTION_ENTRY; PRAGMA_FUNCTION_ENTRY; COLLATION_ENTRY;
                     DEPENDENCY_ENTRY; SECRET_ENTRY; SECRET_TYPE_ENTRY; SECRET_FUNCTION_ENTRY]).

Definition CommitEntryDrop (old_entry parent : entry) : result unit :=
  if temporary (data old_entry) || temporary (data parent) then Ok tt
  else if is_create_type (type (data parent)) then
    if (bool_decide (type (data old_entry) = RENAMED_ENTRY)
        || bool_decide (type (data old_entry) = type (data parent))) && negb (is_alter_type (type (data parent)))
    then Throw InternalException else Ok tt
  else if is_other_type (type (data parent)) then Ok tt
  else Throw InternalException.

(** [verify old new] is what the dependency manager answers for a dependency or a drop. *)
Definition CommitCatalogEntry (verify : entry -> entry -> result unit) (commit_id : Z) p : ST (t X) unit :=
  m ← get;
  match deref p m, Parent p m with
  | Some old_entry, Some new_entry =>
      lift (if bool_decide (type (data new_entry) = DEPENDENCY_ENTRY) || bool_decide (type (data new_entry) = DELETED_ENTRY)
            then verify old_entry new_entry else Ok tt);;
      modify (UpdateTimestamp (oid new_entry) commit_id);;
      lift (CommitEntryDrop old_entry new_entry)
  | _, _ => throw InternalException
  end.

Definition RevertCatalogEntry (transaction_id : Z) p : ST (t X) unit :=
  m ← get;
  match deref p m, Parent p m with
  | Some e, Some parent =>
      modify (UpdateTimestamp (oid parent) transaction_id);;
      (if negb (String.eqb (name (data e)) (name (data parent))) then modify (UpdateTimestamp p transaction_id) else mret tt)
  | _, _ => throw InternalException
  end.

Definition Undo p : ST (t X) unit :=
  m ← get;
  match deref p m, Parent p m with
  | Some e, Some to_be_removed_node =>
      map_DropEntry to_be_removed_node;;
      (if bool_decide (type (data e) = INVALID) then map_DropEntry e else mret tt)
  | _, _ => throw InternalException
  end.

Definition CleanupEntry p : ST (t X) unit :=
  m ← get;
  match deref p m, Parent p m with
  | Some catalog_entry, Some parent =>
      map_DropEntry catalog_entry;;
      m ← get;
      if deleted parent && negb (HasChild (oid parent) m) && negb (HasParent (oid parent) m) then map_DropEntry parent else mret tt
  | _, _ => throw InternalException
  end.

(** ** Chains *)

(** At most one running transaction has versions in the chain, and they are on top; the dummy entry is
    at the bottom, below the versions of the entry it was made for. *)
Record versions c : Prop := {
  v_split : exists id own committed, c = own ++ committed /\ committed <> []
    /\ TRANSACTION_ID_START <= id /\ Forall (fun e => timestamp e = id) own
    /\ Forall (fun e => timestamp e < TRANSACTION_ID_START) committed;
  v_nodup : NoDup (map oid c);
  v_dummy : forall pre e post, c = pre ++ e :: post -> type (data e) = INVALID ->
    pre <> [] /\ post = [] /\ deleted e = true /\ timestamp e = 0
}.

Record inv m : Prop := {
  i_versions : forall k c, entries m !! k = Some c -> versions c;
  i_names : forall k c e, entries m !! k = Some c -> e ∈ c -> key (name (data e)) = k /\ names m !! oid e = Some (name (data e));
  i_oids : forall p s, names m !! p = Some s -> (p < next_oid m)%nat
}.

Lemma versions_ne c : versions c -> c <> [].
Proof. intros [(id & own & comm & -> & Hne & _) _ _] E. by apply app_eq_nil in E as [_ ?]. Qed.

Lemma remove_absent p c : p ∉ map oid c -> remove p c = c.
Proof.
  induction c as [|e c IH]; [done|]. cbn. intros [H1 H2]%not_elem_of_cons. rewrite (proj2 (Nat.eqb_neq _ _)) by congruence.
  cbn. f_equal. by apply IH.
Qed.

Lemma remove_top e c : NoDup (map oid (e :: c)) -> remove (oid e) (e :: c) = c.
Proof. cbn. intros [H1 H2]%NoDup_cons. rewrite Nat.eqb_refl. cbn. by apply remove_absent. Qed.

Lemma parent_in_spec p c v : parent_in p c = Some v -> exists pre e post, c = pre ++ v :: e :: post /\ oid e = p.
Proof.
  induction c as [|e1 c IH]; [done|]. cbn [parent_in]. destruct c as [|e2 c]; [done|]. destruct (Nat.eqb_spec (oid e2) p) as [Hp|Hp].
  - intros [= ->]. by exists [], e2, c.
  - intros H. destruct (IH H) as (pre & e & post & E & Ho). exists (e1 :: pre), e, post. split; [|done]. cbn. by rewrite E.
Qed.

Lemma parent_in_top v e c p : oid e = p -> parent_in p (v :: e :: c) = Some v.
Proof. intros <-. cbn [parent_in]. by rewrite Nat.eqb_refl. Qed.

Lemma child_in_top v c : child_in (oid v) (v :: c) = head c.
Proof. cbn [child_in]. by rewrite Nat.eqb_refl. Qed.

(** *** The version for a transaction *)

Lemma get_push T v c : c <> [] -> UseTimestamp T (timestamp v) = false -> GetEntryForTransaction T (v :: c) = GetEntryForTransaction T c.
Proof. intros Hne Hv. cbn [GetEntryForTransaction]. destruct c as [|e c]; [done|]. by rewrite Hv. Qed.

Lemma get_own T v c : c <> [] -> UseTimestamp T (timestamp v) = true -> GetEntryForTransaction T (v :: c) = Some (v, true).
Proof. intros Hne Hv. cbn [GetEntryForTransaction]. destruct c as [|e c]; [done|]. by rewrite Hv. Qed.

Lemma get_app T own c : c <> [] -> Forall (fun e => UseTimestamp T (timestamp e) = false) own ->
  GetEntryForTransaction T (own ++ c) = GetEntryForTransaction T c.
Proof.
  intros Hne. induction own as [|e own IH]; [done|]. intros [He Ho]%Forall_cons_1. cbn [app]. rewrite get_push; [by apply IH| |done].
  by intros [_ ?]%app_eq_nil.
Qed.

(** What a transaction sees of a name. *)
Definition view T m s : option entry := GetEntry T s m.

(** What the transaction sees of a chain. *)
Definition seen T (o : option chain) : option entry :=
  match o with
  | Some c => match GetEntryForTransaction T c with
              | Some (e, _) => if deleted e then None else Some e
              | None => None
              end
  | None => None
  end.

Lemma view_seen T m s : view T m s = seen T (entries m !! key s).
Proof.
  unfold view, GetEntry, GetEntryDetailed, map_GetEntry, seen. destruct (entries m !! key s) as [c|]; [|done]. cbn.
  destruct (GetEntryForTransaction T c) as [[e b]|]; [|done]. by destruct (deleted e).
Qed.

(** ** Changes

    Every operation of a transaction is a sequence of two steps: an entry is created, and an entry is put
    on top of a chain, below it a dummy entry if the chain is new. *)

Definition alloc d m : t X := mk (entries m) (<[next_oid m := name d]> (names m)) (S (next_oid m)).

Definition dummy_of s m : entry := mkEntry (next_oid m) (mkData INVALID s false false None) true 0.

Definition push_value s (value : entry) m : t X :=
  match entries m !! key s with
  | Some c => with_entries (<[key s := value :: c]> (entries m)) m
  | None => with_entries (<[key s := [value; dummy_of s m]]> (entries m)) (alloc (mkData INVALID s false false None) m)
  end.

(** The entry that the pushed one replaces. *)
Definition top_oid s m : nat :=
  match entries m !! key s with
  | Some (e :: _) => oid e
  | _ => next_oid m
  end.

Definition unused p m : Prop := forall k c, entries m !! k = Some c -> p ∉ map oid c.

Record may_push T s (value : entry) m : Prop := {
  y_key : key (name (data value)) = key s;
  y_name : names m !! oid value = Some (name (data value));
  y_unused : unused (oid value) m;
  y_timestamp : timestamp value = transaction_id T;
  y_type : type (data value) <> INVALID;
  y_free : forall top c, entries m !! key s = Some (top :: c) -> HasConflict T (timestamp top) = false
}.

Inductive change T : state -> state -> Prop :=
| change_alloc m undo d : change T (m, undo) (alloc d m, undo)
| change_push m undo s value :
    may_push T s value m -> change T (m, undo) (push_value s value m, undo ++ [top_oid s m]).

Abbreviation changes T := (rtc (change T)).

(** A running transaction: its id is beyond all timestamps. *)
Definition running T : Prop := TRANSACTION_ID_START <= transaction_id T /\ 0 < start_time T < TRANSACTION_ID_START.

Lemma own_timestamp T : UseTimestamp T (transaction_id T) = true.
Proof. unfold UseTimestamp. by rewrite Z.eqb_refl. Qed.

Lemma other_timestamp T ts : running T -> TRANSACTION_ID_START <= ts -> ts <> transaction_id T -> UseTimestamp T ts = false.
Proof.
  intros [H1 H2] Hts Hne. unfold UseTimestamp. rewrite (proj2 (Z.eqb_neq _ _)) by done. apply Z.ltb_ge. lia.
Qed.

Lemma no_conflict T ts : HasConflict T ts = false -> ts = transaction_id T \/ ts < TRANSACTION_ID_START /\ ts <= start_time T.
Proof.
  unfold HasConflict, CreatedByOtherActiveTransaction, CommittedAfterStarting. intros [H1 H2]%orb_false_iff.
  destruct (Z.leb_spec TRANSACTION_ID_START ts); cbn in H1.
  - left. destruct (Z.eqb_spec ts (transaction_id T)); [done|by cbn in H1].
  - right. rewrite (proj2 (Z.ltb_lt _ _)) in H2 by done. cbn in H2. apply Z.ltb_ge in H2. done.
Qed.

Lemma versions_push T value c :
  running T -> versions c \/ (exists s m, c = [dummy_of s m]) -> oid value ∉ map oid c ->
  timestamp value = transaction_id T -> type (data value) <> INVALID ->
  (forall top rest, c = top :: rest -> HasConflict T (timestamp top) = false) -> versions (value :: c).
Proof.
  intros [HT _] Hc Hoid Hts Hty Hfree. destruct Hc as [[Hsplit Hnd Hd]|(s & m & ->)].
  - destruct Hsplit as (id & own & comm & -> & Hne & Hid & Ho & Hcm). split.
    + assert (own = [] \/ id = transaction_id T) as [->| ->].
      { destruct own as [|e own]; [by left|right]. apply Forall_cons_1 in Ho as [He _].
        destruct (no_conflict T (timestamp e) (Hfree e (own ++ comm) eq_refl)) as [E|[E _]]; [congruence|lia]. }
      * exists (transaction_id T), [value], comm. split; [done|]. split; [done|]. split; [done|]. split; [by apply Forall_singleton|done].
      * exists (transaction_id T), (value :: own), comm. split; [done|]. split; [done|]. split; [done|]. split; [by constructor|done].
    + cbn. by constructor.
    + intros pre e post E He. destruct pre as [|v pre]; [injection E as <- _; done|]. injection E as -> E.
      destruct (Hd pre e post E He) as (_ & H2 & H3). done.
  - split.
    + exists (transaction_id T), [value], [dummy_of s m]. split; [done|]. split; [done|]. split; [done|].
      split; apply Forall_singleton; [done|vm_compute; done].
    + cbn. constructor; [done|apply NoDup_singleton].
    + intros pre e post E He. destruct pre as [|v pre]; [injection E as <- _; done|]. injection E as -> E.
      destruct pre as [|v' pre]; [|by apply (f_equal length) in E; rewrite length_app in E; simpl in E; lia].
      injection E as <- <-. done.
Qed.

Lemma alloc_names d m p s : inv m -> names m !! p = Some s -> names (alloc d m) !! p = Some s.
Proof. intros Hi Hp. cbn. rewrite lookup_insert_ne; [done|]. intros <-. apply (i_oids _ Hi) in Hp. lia. Qed.

Lemma alloc_inv d m : inv m -> inv (alloc d m).
Proof.
  intros Hi. split.
  - apply Hi.
  - intros k c e Hk He. destruct (i_names _ Hi k c e Hk He) as [H1 H2]. split; [done|]. by apply alloc_names.
  - intros p s. cbn. destruct (decide (p = next_oid m)) as [->|Hne]; [lia|]. rewrite lookup_insert_ne by done.
    intros Hp%(i_oids _ Hi). lia.
Qed.

Lemma new_unused m : inv m -> unused (next_oid m) m.
Proof.
  intros Hi k c Hk Hin. apply list_elem_of_fmap in Hin as (e & E & He). destruct (i_names _ Hi k c e Hk He) as [_ H2].
  apply (i_oids _ Hi) in H2. lia.
Qed.

Lemma push_inv T s value m : running T -> inv m -> may_push T s value m -> inv (push_value s value m).
Proof.
  intros HT Hi [Y1 Y2 Y3 Y4 Y5 Y6]. unfold push_value. destruct (entries m !! key s) as [c|] eqn:Hc.
  - split.
    + intros k c'. cbn. destruct (decide (k = key s)) as [->|Hne].
      * rewrite lookup_insert_eq. intros [= <-]. apply (versions_push T); [done|left; by apply (i_versions _ Hi (key s))|by apply (Y3 (key s))|done|done|].
        intros top rest ->. by eapply Y6.
      * rewrite lookup_insert_ne by done. apply Hi.
    + intros k c' e. cbn. destruct (decide (k = key s)) as [->|Hne].
      * rewrite lookup_insert_eq. intros [= <-] [->|He]%elem_of_cons; [done|]. by apply (i_names _ Hi (key s) c).
      * rewrite lookup_insert_ne by done. apply Hi.
    + apply Hi.
  - pose proof (alloc_inv (mkData INVALID s false false None) m Hi) as Hi'.
    assert (oid value <> next_oid m) as Hfresh by (apply (i_oids _ Hi) in Y2; lia). split.
    + intros k c'. cbn [with_entries entries]. destruct (decide (k = key s)) as [->|Hne].
      * rewrite lookup_insert_eq. intros [= <-]. apply (versions_push T); try done; [right; by exists s, m| |].
        -- cbn. rewrite list_elem_of_singleton. done.
        -- intros top rest [= <- <-]. cbn. unfold HasConflict, CreatedByOtherActiveTransaction, CommittedAfterStarting. cbn.
           destruct HT as [_ [HT _]]. apply Z.ltb_ge. lia.
      * rewrite lookup_insert_ne by done. apply Hi'.
    + intros k c' e. cbn [with_entries entries names]. destruct (decide (k = key s)) as [->|Hne].
      * rewrite lookup_insert_eq. intros [= <-] [->|He]%elem_of_cons; [split; [done|by apply alloc_names]|].
        apply list_elem_of_singleton in He as ->. split; [done|]. cbn. apply lookup_insert_eq.
      * rewrite lookup_insert_ne by done. apply Hi'.
    + apply Hi'.
Qed.

Lemma change_inv T σ1 σ2 : running T -> change T σ1 σ2 -> inv σ1.1 -> inv σ2.1.
Proof. intros HT []; [apply alloc_inv|intros Hi; by eapply push_inv]. Qed.

Lemma changes_inv T σ1 σ2 : running T -> changes T σ1 σ2 -> inv σ1.1 -> inv σ2.1.
Proof. intros HT H. induction H as [|x y z Hxy Hyz IH]; [done|]. intros Hi. apply IH. by eapply change_inv. Qed.

(** Each entry is in one chain, once. *)
Record shaped m : Prop := {
  sh_nodup : forall k c, entries m !! k = Some c -> NoDup (map oid c);
  sh_names : forall k c e, entries m !! k = Some c -> e ∈ c -> key (name (data e)) = k /\ names m !! oid e = Some (name (data e))
}.

Lemma inv_shaped m : inv m -> shaped m.
Proof. intros [H1 H2 H3]. split; [|done]. intros k c Hk. by apply (H1 k). Qed.

Lemma chain_lookup m k c e : shaped m -> entries m !! k = Some c -> e ∈ c -> chain_of (oid e) m = Some c.
Proof.
  intros Hi Hk He. destruct (sh_names _ Hi k c e Hk He) as [H1 H2]. unfold chain_of, map_GetEntry. rewrite H2. cbn. by rewrite H1.
Qed.

Lemma find_oid c e : NoDup (map oid c) -> e ∈ c -> List.find (fun x => (oid x =? oid e)%nat) c = Some e.
Proof.
  induction c as [|x c IH]; [by intros _ H%not_elem_of_nil|]. cbn. intros [H1 H2]%NoDup_cons [->|He]%elem_of_cons.
  - by rewrite Nat.eqb_refl.
  - rewrite (proj2 (Nat.eqb_neq _ _)); [by apply IH|]. intros E. apply H1. rewrite E. apply list_elem_of_fmap. by exists e.
Qed.

(** Undoing the entry below the top of a chain takes the top away. *)
Lemma Undo_top m k v q c :
  inv m -> entries m !! k = Some (v :: q :: c) ->
  Undo (oid q) m
  = (with_entries (if bool_decide (type (data q) = INVALID) then delete k (entries m) else <[k := q :: c]> (entries m)) m, Ok tt).
Proof.
  intros Hi Hk. pose proof (i_versions _ Hi _ _ Hk) as [_ Hnd Hdummy].
  assert (q ∈ v :: q :: c) as Hq by (right; left).
  assert (v ∈ v :: q :: c) as Hv by left.
  destruct (i_names _ Hi _ _ _ Hk Hq) as [Hkq _]. destruct (i_names _ Hi _ _ _ Hk Hv) as [Hkv _].
  unfold Undo, mbind, ST_bind, get. unfold deref, Parent. rewrite (chain_lookup m k (v :: q :: c) q) by (done || by apply inv_shaped). cbn [mbind option_bind].
  rewrite (find_oid (v :: q :: c) q), (parent_in_top v q c) by done.
  unfold map_DropEntry at 1, mbind, ST_bind, get, map_GetEntry. rewrite Hkv, Hk. rewrite remove_top by done. cbn [modify set_chain].
  unfold set_chain. rewrite Hkv. destruct (bool_decide_reflect (type (data q) = INVALID)) as [Hty|Hty]; [|done].
  destruct (Hdummy [v] q c eq_refl Hty) as (_ & -> & _).
  unfold map_DropEntry, mbind, ST_bind, get, map_GetEntry. rewrite Hkq. cbn [with_entries entries]. rewrite lookup_insert_eq.
  cbn [remove List.filter]. rewrite Nat.eqb_refl. cbn [negb modify]. unfold with_entries. cbn [entries names next_oid].
  by rewrite delete_insert_eq.
Qed.

(** ** Operations as changes *)

Lemma new_entry_eq d b ts m : new_entry d b ts m = (alloc d m, Ok (mkEntry (next_oid m) d b ts)).
Proof. done. Qed.

Lemma unused_alloc p d m : unused p m -> unused p (alloc d m).
Proof. done. Qed.

Lemma unused_push p s value m : inv m -> unused p m -> p <> oid value -> (p < next_oid m)%nat -> unused p (push_value s value m).
Proof.
  intros Hi Hp Hne Hlt k c. unfold push_value. destruct (entries m !! key s) as [c0|] eqn:Hc; cbn [with_entries entries];
    (destruct (decide (k = key s)) as [->|E]; [rewrite lookup_insert_eq; intros [= <-]|rewrite lookup_insert_ne by done; apply Hp]).
  - cbn. intros [?|H]%elem_of_cons; [done|]. by apply (Hp (key s) c0).
  - cbn. intros [?|[?|H%not_elem_of_nil]%elem_of_cons]%elem_of_cons; [done|lia|done].
Qed.

Lemma names_push p n s value m : inv m -> names m !! p = Some n -> names (push_value s value m) !! p = Some n.
Proof. intros Hi Hp. unfold push_value. destruct (entries m !! key s); [done|]. by apply alloc_names. Qed.

(** A new entry can be pushed on a chain without conflict. *)
Lemma new_may_push T s m d b :
  inv m -> key (name d) = key s -> type d <> INVALID ->
  (forall top c, entries m !! key s = Some (top :: c) -> HasConflict T (timestamp top) = false) ->
  may_push T s (mkEntry (next_oid m) d b (transaction_id T)) (alloc d m).
Proof.
  intros Hi Hk Hty Hfree. split; try done.
  - cbn. apply lookup_insert_eq.
  - by apply unused_alloc, new_unused.
Qed.

Lemma push_child_run T s value m undo :
  transaction T = true -> running T -> inv m -> may_push T s value m ->
  push_child T value (push_value s value m, undo) = ((push_value s value m, undo ++ [top_oid s m]), Ok tt).
Proof.
  intros Htr HT Hi Hp. pose proof (push_inv T s value m HT Hi Hp) as Hi'. unfold push_child, mbind, ST_bind, get. rewrite Htr.
  destruct Hp as [Y1 Y2 Y3 Y4 Y5 Y6]. unfold top_oid, push_value in *. destruct (entries m !! key s) as [c|] eqn:Hc.
  - unfold Child. rewrite (chain_lookup _ (key s) (value :: c) value (inv_shaped _ Hi')); [|apply lookup_insert_eq|by left]. cbn [mbind option_bind].
    rewrite child_in_top. destruct c as [|q c]; [|done]. by apply (i_versions _ Hi), versions_ne in Hc.
  - unfold Child. rewrite (chain_lookup _ (key s) [value; dummy_of s m] value (inv_shaped _ Hi')); [|apply lookup_insert_eq|by left].
    cbn [mbind option_bind]. by rewrite child_in_top.
Qed.

Lemma UpdateEntry_run s value m c :
  key (name (data value)) = key s -> entries m !! key s = Some c -> UpdateEntry value m = (with_entries (<[key s := value :: c]> (entries m)) m, Ok tt).
Proof. intros Hk Hc. unfold UpdateEntry, mbind, ST_bind, get, map_GetEntry. rewrite Hk, Hc. unfold modify, set_chain. by rewrite Hk. Qed.

(** The entry is pushed when there is a chain. *)
Lemma push_run T s value m undo c :
  transaction T = true -> running T -> inv m -> may_push T s value m -> entries m !! key s = Some c ->
  (on_set (UpdateEntry value);; push_child T value;; mret true) (m, undo)
  = ((push_value s value m, undo ++ [top_oid s m]), Ok true).
Proof.
  intros Htr HT Hi Hp Hc. unfold mbind, ST_bind, on_set. rewrite (UpdateEntry_run s value m c) by (done || apply Hp).
  pose proof (push_child_run T s value m undo Htr HT Hi Hp) as Hrun. unfold push_value in *. rewrite Hc in *. by rewrite Hrun.
Qed.

(** What keeps [CreateEntryInternal] from adding the entry. *)
Definition occupied T s m : option (result bool) :=
  match entries m !! key s with
  | Some (top :: _) =>
      if HasConflict T (timestamp top) then Some (Throw TransactionException)
      else if deleted top then None else Some (Ok false)
  | _ => None
  end.

Lemma StartChain_run s m :
  entries m !! key s = None ->
  StartChain s m = (set_chain s [dummy_of s m] (alloc (mkData INVALID s false false None) m), Ok true).
Proof.
  intros Hc. unfold StartChain, mbind, ST_bind. rewrite new_entry_eq. unfold AddEntry, mbind, ST_bind, get, map_GetEntry.
  cbn [data name alloc entries]. by rewrite Hc.
Qed.

Lemma CreateEntryInternal_run T s value (should_be_empty : bool) m undo :
  transaction T = true -> running T -> inv m ->
  ((if should_be_empty then occupied T s m else None) = None -> may_push T s value m) ->
  CreateEntryInternal T s value should_be_empty (m, undo)
  = match (if should_be_empty then occupied T s m else None) with
    | Some r => ((m, undo), r)
    | None => ((push_value s value m, undo ++ [top_oid s m]), Ok true)
    end.
Proof.
  intros Htr HT Hi Hp. unfold CreateEntryInternal. change ((get ≫= ?k) (m, undo)) with (k (m, undo) (m, undo)). cbv beta iota.
  unfold mbind at 1, ST_bind at 1. unfold map_GetEntry, occupied in *.
  destruct (entries m !! key s) as [[|top c]|] eqn:Hc.
  - by apply (i_versions _ Hi), versions_ne in Hc.
  - destruct should_be_empty.
    + unfold lift, VerifyVacancy. destruct (HasConflict T (timestamp top)); [done|]. destruct (deleted top); cbn [negb]; [|done].
      by eapply push_run; [| | |apply Hp|].
    + cbn [negb]. by eapply push_run; [| | |apply Hp|].
  - assert (may_push T s value m) as Hp' by (apply Hp; by destruct should_be_empty).
    unfold on_set at 1. rewrite StartChain_run by done. cbv beta iota. cbn [negb]. unfold mbind, ST_bind, on_set.
    rewrite (UpdateEntry_run s value _ [dummy_of s m]) by (apply Hp' || apply lookup_insert_eq).
    pose proof (push_child_run T s value m undo Htr HT Hi Hp') as Hrun. unfold push_value in *. rewrite Hc in *.
    unfold set_chain, with_entries in *. cbn [alloc names next_oid entries] in *. rewrite insert_insert_eq, Hrun.
    by destruct should_be_empty.
Qed.

End catalog_set.
End CatalogSet.
