(* ===== verification/CatalogHistory.v ===== *)
(** * The history of a catalog set

    What the versions of CatalogSet.v mean.  [cell] is the specification of one name: the value that a
    running transaction has given it, the value that each snapshot sees, and the time of the last commit.
    [write], [commit] and [rollback] change it, [spec_CreateEntry], [spec_DropEntry] and [spec_AlterEntry]
    are the operations on it.  A [world] is a set with the undo entries of its transactions; its steps are
    the operations, the commits (also those that fail), the rollbacks and the cleanups, of any
    transactions, in any order.  Each step does on the set what its specification does on the cells. *)

From Stdlib Require Import Ascii String.
From stdpp Require Import gmap strings sorting.
From S2P Require Import Prelude ChunkInfo CatalogSet.

Module CatalogHistory.
Import CatalogSet.

Section history.
Context {X : Type}.
Context (IsSystemCatalog IsTemporaryCatalog : bool).
Abbreviation entry := (CatalogEntry X).
Abbreviation chain := (list (CatalogEntry X)).
Abbreviation state := (t X * list nat)%type.
Abbreviation changes T := (rtc (change T)).
Implicit Types (e : entry) (c : chain) (m : t X) (T : CatalogTransaction) (d : EntryData X) (s : string) (p : nat).

(** ** The specification *)

Record cell : Type := mkCell {
  pending : option (Z * option (EntryData X));
  snapshot : Z -> option (EntryData X);
  latest : Z
}.
Abbreviation db := (string -> cell).
Implicit Types (x : cell) (σ : db).

Definition empty_db : db := fun _ => mkCell None (fun _ => None) 0.

Definition read T x : option (EntryData X) :=
  match pending x with
  | Some (id, v) => if id =? transaction_id T then v else snapshot x (start_time T)
  | None => snapshot x (start_time T)
  end.

Definition conflict T x : bool :=
  match pending x with
  | Some (id, _) => negb (id =? transaction_id T)
  | None => start_time T <? latest x
  end.

Definition write T (k : string) (v : option (EntryData X)) σ : db := fun k' =>
  if decide (k' = k) then mkCell (Some (transaction_id T, v)) (snapshot (σ k)) (latest (σ k)) else σ k'.

Definition commit (id cid : Z) σ : db := fun k =>
  match pending (σ k) with
  | Some (id', v) =>
      if id' =? id then mkCell None (fun start => if cid <? start then v else snapshot (σ k) start) cid else σ k
  | None => σ k
  end.

Definition rollback (id : Z) σ : db := fun k =>
  match pending (σ k) with
  | Some (id', _) => if id' =? id then mkCell None (snapshot (σ k)) (latest (σ k)) else σ k
  | None => σ k
  end.

Definition spec_CreateEntry T d (add_object : result unit) : ST db bool :=
  lift (CheckCatalogEntryInvariants IsSystemCatalog IsTemporaryCatalog d (name d));;
  lift add_object;;
  σ ← get;
  if conflict T (σ (key (name d))) then throw TransactionException
  else
    match read T (σ (key (name d))) with
    | Some _ => mret false
    | None => modify (write T (key (name d)) (Some d));; mret true
    end.

Definition spec_DropEntry T s (allow_drop_internal : bool) (drop_object : result unit) : ST db bool :=
  σ ← get;
  match read T (σ (key s)) with
  | None => mret false
  | Some d =>
      if internal d && negb allow_drop_internal then throw CatalogException
      else
        lift drop_object;;
        if conflict T (σ (key s)) then throw TransactionException else modify (write T (key s) None);; mret true
  end.

Definition spec_AlterEntry T s (alter : EntryData X -> result (option (EntryData X))) (allow_internal : bool)
    (alter_object : result unit) : ST db bool :=
  σ ← get;
  match read T (σ (key s)) with
  | None => mret false
  | Some d =>
      if negb allow_internal && internal d then throw CatalogException
      else
        altered ← lift (alter d);
        match altered with
        | None => mret true
        | Some d' =>
            if conflict T (σ (key s)) then throw TransactionException
            else
              (if CIEquals (name d') (name d) then mret tt
               else
                 match read T (σ (key (name d'))) with
                 | Some _ => throw CatalogException
                 | None =>
                     modify (write T (key s) None);;
                     if conflict T (σ (key (name d'))) then throw TransactionException else mret tt
                 end);;
              modify (write T (key (name d')) (Some d'));;
              lift alter_object;;
              mret true
        end
  end.

(** ** A chain and its cell *)

Definition value e : option (EntryData X) := if deleted e then None else Some (data e).

(** What a snapshot sees of committed versions. *)
Fixpoint asof (start : Z) c : option (EntryData X) :=
  match c with
  | [] => None
  | e :: c' =>
      match c' with
      | [] => value e
      | _ => if timestamp e <? start then value e else asof start c'
      end
  end.

Lemma asof_old start e c : timestamp e < start -> asof start (e :: c) = value e.
Proof. intros H. cbn [asof]. destruct c; [done|]. by rewrite (proj2 (Z.ltb_lt _ _) H). Qed.

Lemma asof_new start e c : start <= timestamp e -> c <> [] -> asof start (e :: c) = asof start c.
Proof. intros H Hc. cbn [asof]. destruct c; [done|]. by rewrite (proj2 (Z.ltb_ge _ _) H). Qed.

(** Of a chain, the versions of the transaction [id] and the committed ones, from [top]. *)
Record split_of c (id : Z) own top comm : Prop := {
  sp_eq : c = own ++ top :: comm;
  sp_id : TRANSACTION_ID_START <= id;
  sp_own : Forall (fun e => timestamp e = id) own;
  sp_comm : Forall (fun e => timestamp e < TRANSACTION_ID_START) (top :: comm)
}.

Lemma versions_split c : versions c -> exists id own top comm, split_of c id own top comm.
Proof.
  intros [(id & own & comm & -> & Hne & Hid & Ho & Hc) _ _]. destruct comm as [|top comm]; [done|]. by exists id, own, top, comm.
Qed.

Lemma seen_committed T c : running T -> c <> [] -> Forall (fun e => timestamp e < TRANSACTION_ID_START) c ->
  data <$> seen T (Some c) = asof (start_time T) c.
Proof.
  intros HT. induction c as [|e c IH]; [done|]. intros _ [He Hc]%Forall_cons_1.
  assert (UseTimestamp T (timestamp e) = (timestamp e <? start_time T)) as Hu.
  { unfold UseTimestamp. rewrite (proj2 (Z.eqb_neq _ _)) by (destruct HT; lia). by destruct (timestamp e <? start_time T). }
  destruct c as [|e' c].
  - cbn. unfold value. by destruct (deleted e).
  - destruct (Z.ltb_spec (timestamp e) (start_time T)) as [Hlt|Hge].
    + rewrite asof_old by done. unfold seen. rewrite get_own by done. unfold value. by destruct (deleted e).
    + rewrite asof_new by done. rewrite <- IH by done. unfold seen. by rewrite get_push by done.
Qed.

Lemma seen_split T c id own top comm : running T -> split_of c id own top comm ->
  data <$> seen T (Some c)
  = match own with
    | v :: _ => if id =? transaction_id T then value v else asof (start_time T) (top :: comm)
    | [] => asof (start_time T) (top :: comm)
    end.
Proof.
  intros HT [-> Hid Ho Hc]. destruct (Z.eqb_spec id (transaction_id T)) as [->|Hne].
  - destruct own as [|v own]; [by apply seen_committed|]. apply Forall_cons_1 in Ho as [Hv _]. cbn [app]. unfold seen.
    rewrite get_own; [|by intros [_ ?]%app_eq_nil|by rewrite Hv, own_timestamp]. unfold value. by destruct (deleted v).
  - transitivity (asof (start_time T) (top :: comm)); [|by destruct own]. rewrite <- seen_committed by done. unfold seen.
    rewrite get_app; [done|done|]. eapply Forall_impl; [exact Ho|]. intros e He. cbn in He. rewrite He. by apply other_timestamp.
Qed.

Definition cell_of (lowest : Z) (o : option chain) x : Prop :=
  match o with
  | None => pending x = None /\ forall start, lowest <= start -> snapshot x start = None /\ (start <? latest x) = false
  | Some c =>
      exists id own top comm, split_of c id own top comm
        /\ pending x = match own with v :: _ => Some (id, value v) | [] => None end
        /\ forall start, lowest <= start ->
             snapshot x start = asof start (top :: comm) /\ (start <? latest x) = (start <? timestamp top)
  end.

Definition abs (lowest : Z) m σ : Prop := forall k, cell_of lowest (entries m !! k) (σ k).

Lemma abs_ext lowest m σ σ' : abs lowest m σ -> (forall k, σ' k = σ k) -> abs lowest m σ'.
Proof. intros H E k. rewrite E. apply H. Qed.

(** A transaction whose snapshot is taken between commits. *)
Record reader (lowest : Z) m T : Prop := {
  d_running : running T;
  d_lowest : 0 <= lowest <= start_time T;
  d_start : forall k c e, entries m !! k = Some c -> e ∈ c -> timestamp e <> start_time T
}.

Lemma view_read lowest m σ T s : abs lowest m σ -> reader lowest m T -> data <$> view T m s = read T (σ (key s)).
Proof.
  intros Ha [HT Hl _]. rewrite view_seen. specialize (Ha (key s)). unfold read. destruct (entries m !! key s) as [c|].
  - destruct Ha as (id & own & top & comm & Hs & -> & Hc). rewrite (seen_split T c id own top comm) by done.
    destruct (Hc (start_time T)) as [-> _]; [lia|]. by destruct own.
  - destruct Ha as [-> Hc]. destruct (Hc (start_time T)) as [-> _]; [lia|done].
Qed.

Lemma top_conflict lowest m σ T k top c :
  abs lowest m σ -> reader lowest m T -> entries m !! k = Some (top :: c) -> HasConflict T (timestamp top) = conflict T (σ k).
Proof.
  intros Ha [HT Hl _] Hk. specialize (Ha k). rewrite Hk in Ha. destruct Ha as (id & own & q & comm & [E Hid Ho Hc] & Hp & Hl').
  unfold HasConflict, CreatedByOtherActiveTransaction, CommittedAfterStarting, conflict. rewrite Hp.
  destruct own as [|v own]; injection E as -> ->.
  - apply Forall_cons_1 in Hc as [Hc _]. rewrite (proj2 (Z.leb_gt _ _)), (proj2 (Z.ltb_lt (timestamp q) _)) by done. cbn.
    symmetry. apply Hl'. lia.
  - apply Forall_cons_1 in Ho as [-> _]. rewrite (proj2 (Z.leb_le _ _)), (proj2 (Z.ltb_ge id _)) by lia. cbn. by rewrite orb_false_r.
Qed.

Lemma top_read lowest m σ T k top c :
  abs lowest m σ -> reader lowest m T -> entries m !! k = Some (top :: c) -> conflict T (σ k) = false -> read T (σ k) = value top.
Proof.
  intros Ha [HT Hl Hd] Hk. specialize (Ha k). rewrite Hk in Ha. destruct Ha as (id & own & q & comm & [E Hid Ho Hc] & Hp & Hl').
  unfold conflict, read. rewrite Hp. destruct (Hl' (start_time T)) as [Hsn Hla]; [lia|]. rewrite Hsn, Hla.
  destruct own as [|v own]; injection E as -> ->.
  - intros Hf%Z.ltb_ge. apply asof_old. assert (timestamp q <> start_time T); [|lia]. apply (Hd k (q :: comm)); [done|by left].
  - by destruct (id =? transaction_id T).
Qed.

(** ** A change and its write *)

Lemma abs_alloc lowest d m σ : abs lowest m σ -> abs lowest (alloc d m) σ.
Proof. done. Qed.

Lemma abs_push lowest m σ T s v :
  abs lowest m σ -> reader lowest m T -> inv m -> may_push T s v m -> abs lowest (push_value s v m) (write T (key s) (value v) σ).
Proof.
  intros Ha Hr Hi [Y1 Y2 Y3 Y4 Y5 Y6] k. unfold write, push_value. destruct (decide (k = key s)) as [->|Hne];
    [|destruct (entries m !! key s); cbn; rewrite lookup_insert_ne by done; apply Ha].
  destruct (entries m !! key s) as [c|] eqn:Hc; cbn [with_entries entries]; rewrite lookup_insert_eq; cbn [cell_of pending snapshot latest].
  - pose proof (Ha (key s)) as Hx. rewrite Hc in Hx. destruct Hx as (id & own & top & comm & [-> Hid Ho Hcm] & Hp & Hl).
    exists (transaction_id T), (v :: own), top, comm. split; [|by split]. split; [done|by destruct Hr as [[? _] _ _]| |done].
    constructor; [done|]. destruct own as [|v' own]; [done|]. apply Forall_cons_1 in Ho as [Hv' Ho].
    specialize (Y6 v' (own ++ top :: comm) eq_refl). apply no_conflict in Y6. destruct Y6 as [E|[E _]]; [|lia].
    constructor; [done|]. eapply Forall_impl; [exact Ho|]. intros e He. cbn in He. congruence.
  - pose proof (Ha (key s)) as Hx. rewrite Hc in Hx. destruct Hx as [Hp Hl].
    exists (transaction_id T), [v], (dummy_of s m), []. split; [|split; [done|]].
    + split; [done|by destruct Hr as [[? _] _ _]|by apply Forall_singleton|apply Forall_singleton; vm_compute; done].
    + intros start Hst. destruct (Hl start Hst) as [-> ->]. split; [done|]. symmetry. apply Z.ltb_ge. cbn. destruct Hr as [_ ? _]. lia.
Qed.

Lemma reader_push lowest m T s v : reader lowest m T -> may_push T s v m -> reader lowest (push_value s v m) T.
Proof.
  intros [HT Hl Hd] [Y1 Y2 Y3 Y4 Y5 Y6]. split; [done|done|]. intros k c e. unfold push_value.
  assert (timestamp v <> start_time T) as Hv by (destruct HT; lia).
  destruct (entries m !! key s) as [c0|] eqn:Hc; cbn [with_entries entries]; (destruct (decide (k = key s)) as [->|E];
    [rewrite lookup_insert_eq; intros [= <-]|rewrite lookup_insert_ne by done; apply Hd]).
  - intros [->|He]%elem_of_cons; [done|]. by apply (Hd (key s) c0).
  - intros [->|[->|H%not_elem_of_nil]%elem_of_cons]%elem_of_cons; [done| |done]. cbn. destruct HT; lia.
Qed.

(** What an operation has done: its changes are the writes of its specification. *)
Record sim (lowest : Z) T (w1 : state) (w2 : state) σ : Prop := {
  s_changes : changes T w1 w2;
  s_inv : inv w2.1;
  s_reader : reader lowest w2.1 T;
  s_abs : abs lowest w2.1 σ
}.

Definition refines (lowest : Z) T {A} (f : ST state A) (g : ST db A) : Prop :=
  forall m undo σ, inv m -> reader lowest m T -> abs lowest m σ ->
    exists w2 σ' r, f (m, undo) = (w2, r) /\ g σ = (σ', r) /\ sim lowest T (m, undo) w2 σ'.

Lemma sim_alloc lowest T w1 m undo σ d : sim lowest T w1 (m, undo) σ -> sim lowest T w1 (alloc d m, undo) σ.
Proof.
  intros [H1 H2 H3 H4]. split; [by eapply rtc_r; [exact H1|constructor]|by apply alloc_inv| |done].
  destruct H3 as [HT Hl Hd]. by split.
Qed.

Lemma sim_push lowest T w1 m undo σ s v :
  sim lowest T w1 (m, undo) σ -> may_push T s v m ->
  sim lowest T w1 (push_value s v m, undo ++ [top_oid s m]) (write T (key s) (value v) σ).
Proof.
  intros [H1 H2 H3 H4] Hp. cbn in *. split.
  - eapply rtc_r; [exact H1|]. by constructor.
  - apply (push_inv T); [apply H3|done|done].
  - by apply reader_push.
  - by apply abs_push.
Qed.

Lemma sim_refl lowest T m undo σ : inv m -> reader lowest m T -> abs lowest m σ -> sim lowest T (m, undo) (m, undo) σ.
Proof. intros H1 H2 H3. by split; [apply rtc_refl|..]. Qed.

Lemma sim_ext lowest T w1 w2 σ σ' : sim lowest T w1 w2 σ -> (forall k, σ' k = σ k) -> sim lowest T w1 w2 σ'.
Proof. intros [H1 H2 H3 H4] E. split; [done..|]. by eapply abs_ext. Qed.

(** ** The operations *)

Lemma GetEntryInternal_read lowest T s m σ :
  inv m -> reader lowest m T -> abs lowest m σ ->
  if conflict T (σ (key s)) then GetEntryInternal T s m = (m, Throw TransactionException)
  else
    match read T (σ (key s)) with
    | None => GetEntryInternal T s m = (m, Ok None)
    | Some d => exists e c, GetEntryInternal T s m = (m, Ok (Some e)) /\ entries m !! key s = Some (e :: c) /\ data e = d
    end.
Proof.
  intros Hi Hr Ha. unfold GetEntryInternal. change ((get ≫= ?k) m) with (k m m). cbv beta. unfold map_GetEntry.
  destruct (entries m !! key s) as [[|top c]|] eqn:Hk.
  - by apply (i_versions _ Hi), versions_ne in Hk.
  - rewrite (top_conflict lowest m σ T (key s) top c) by done. destruct (conflict T (σ (key s))) eqn:Hcf; [done|].
    rewrite (top_read lowest m σ T (key s) top c) by done. unfold value. destruct (deleted top); [done|]. by exists top, c.
  - pose proof (Ha (key s)) as Hx. rewrite Hk in Hx. destruct Hx as [Hp Hl]. destruct (Hl (start_time T)) as [Hsn Hla]; [apply Hr|].
    unfold conflict, read. by rewrite Hp, Hla, Hsn.
Qed.

Lemma occupied_read lowest T s m σ :
  inv m -> reader lowest m T -> abs lowest m σ ->
  occupied T s m
  = if conflict T (σ (key s)) then Some (Throw TransactionException)
    else match read T (σ (key s)) with Some _ => Some (Ok false) | None => None end.
Proof.
  intros Hi Hr Ha. pose proof (GetEntryInternal_read lowest T s m σ Hi Hr Ha) as H. revert H.
  unfold GetEntryInternal. change ((get ≫= ?k) m) with (k m m). cbv beta. unfold map_GetEntry, occupied.
  destruct (conflict T (σ (key s))), (read T (σ (key s))) as [d|], (entries m !! key s) as [[|top c]|]; try done;
    try (destruct (HasConflict T (timestamp top)), (deleted top)); try done; by intros (? & ? & ? & ? & ?).
Qed.

(** An entry that was created but is in no chain yet. *)
Definition fresh p (n : string) m : Prop := names m !! p = Some n /\ unused p m.

Lemma fresh_alloc p n d m : inv m -> fresh p n m -> fresh p n (alloc d m).
Proof. intros Hi [H1 H2]. split; [by apply alloc_names|by apply unused_alloc]. Qed.

Lemma fresh_push p n s v m : inv m -> fresh p n m -> p <> oid v -> fresh p n (push_value s v m).
Proof. intros Hi [H1 H2] Hne. split; [by apply names_push|apply unused_push; try done]. by eapply i_oids. Qed.

Lemma fresh_ne p n m : inv m -> fresh p n m -> p <> next_oid m.
Proof. intros Hi [H1 _]. apply (i_oids _ Hi) in H1. lia. Qed.

Lemma push_lookup s v m : exists c, entries (push_value s v m) !! key s = Some (v :: c).
Proof. unfold push_value. destruct (entries m !! key s) as [c|]; cbn; rewrite lookup_insert_eq; by eexists. Qed.

(** There is no conflict at the top of a chain that may be changed. *)
Lemma free_top lowest T s m σ top c :
  reader lowest m T -> abs lowest m σ -> conflict T (σ (key s)) = false -> entries m !! key s = Some (top :: c) ->
  HasConflict T (timestamp top) = false.
Proof. intros Hr Ha Hcf Hk. by rewrite (top_conflict lowest m σ T (key s) top c). Qed.

Lemma DropEntryInternal_run lowest T s (allow_drop_internal : bool) m undo σ d :
  transaction T = true -> inv m -> reader lowest m T -> abs lowest m σ ->
  conflict T (σ (key s)) = false -> read T (σ (key s)) = Some d -> internal d && negb allow_drop_internal = false ->
  exists w2, DropEntryInternal T s allow_drop_internal (m, undo) = (w2, Ok true)
    /\ sim lowest T (m, undo) w2 (write T (key s) None σ) /\ forall p n, fresh p n m -> fresh p n w2.1.
Proof.
  intros Htr Hi Hr Ha Hcf Hrd Hint. pose proof (GetEntryInternal_read lowest T s m σ Hi Hr Ha) as H. rewrite Hcf, Hrd in H.
  destruct H as (e & c & Hg & Hk & <-). destruct (i_names _ Hi (key s) (e :: c) e Hk) as [Hkey _]; [by left|].
  unfold DropEntryInternal. unfold mbind at 1, ST_bind at 1. unfold on_set at 1. rewrite Hg. cbv beta iota. rewrite Hint.
  unfold mbind at 1, ST_bind at 1. unfold on_set at 1. rewrite new_entry_eq. cbv beta iota.
  assert (may_push T s (mkEntry (next_oid m) (mkData DELETED_ENTRY (name (data e)) false false None) true (transaction_id T))
    (alloc (mkData DELETED_ENTRY (name (data e)) false false None) m)) as Hp.
  { apply new_may_push; [done|done|done|]. intros top c' Hk'. by eapply free_top. }
  erewrite (push_run T s _ _ undo (e :: c)); [|done|apply Hr|by apply alloc_inv|done|done].
  eexists. split; [reflexivity|]. split.
  - apply (sim_push lowest T (m, undo) (alloc _ m) undo σ s); [|done]. by apply sim_alloc, sim_refl.
  - intros p n Hf. apply fresh_push; [by apply alloc_inv|by apply fresh_alloc|by eapply fresh_ne].
Qed.

Lemma refines_intro lowest T m undo (w2 : state) (σ' : db) (r : result bool) (fm : state * result bool) (gm : db * result bool) :
  fm = (w2, r) -> gm = (σ', r) -> sim lowest T (m, undo) w2 σ' ->
  exists w2 σ' r, fm = (w2, r) /\ gm = (σ', r) /\ sim lowest T (m, undo) w2 σ'.
Proof. intros H1 H2 H3. by exists w2, σ', r. Qed.

Lemma CreateEntry_refines lowest T d add_object :
  transaction T = true -> type d <> INVALID ->
  refines lowest T (CreateEntry IsSystemCatalog IsTemporaryCatalog T (name d) d add_object) (spec_CreateEntry T d add_object).
Proof.
  intros Htr Hty m undo σ Hi Hr Ha. pose proof (sim_refl lowest T m undo σ Hi Hr Ha) as Hs.
  apply (sim_alloc lowest T _ m undo σ d) in Hs. unfold CreateEntry, spec_CreateEntry. unfold mbind, ST_bind, on_set at 1.
  rewrite new_entry_eq. unfold lift.
  destruct (CheckCatalogEntryInvariants _ _ d (name d)) as [[]|ex]; [|by eapply refines_intro].
  destruct add_object as [[]|ex]; [|by eapply refines_intro].
  assert (occupied T (name d) (alloc d m) = occupied T (name d) m) as Ho by done.
  rewrite (CreateEntryInternal_run T (name d) _ true (alloc d m) undo Htr); [|by destruct Hr|by apply alloc_inv|].
  - rewrite Ho, (occupied_read lowest T (name d) m σ) by done. unfold get.
    destruct (conflict T (σ (key (name d)))) eqn:Hcf; [by eapply refines_intro|].
    destruct (read T (σ (key (name d)))) as [d'|]; [by eapply refines_intro|].
    eapply refines_intro; [reflexivity|reflexivity|]. apply (sim_push lowest T _ (alloc d m) undo σ (name d)); [done|].
    apply new_may_push; [done..|]. intros top c Hk. by eapply free_top.
  - rewrite Ho, (occupied_read lowest T (name d) m σ) by done. destruct (conflict T (σ (key (name d)))) eqn:Hcf; [done|].
    intros _. apply new_may_push; [done..|]. intros top c Hk. by eapply free_top.
Qed.

Lemma DropDependencies_run lowest T s allow_drop_internal drop_object m undo σ :
  reader lowest m T -> abs lowest m σ ->
  DropDependencies T s allow_drop_internal drop_object (m, undo)
  = ((m, undo), match read T (σ (key s)) with
                | None => Ok false
                | Some d => if internal d && negb allow_drop_internal then Throw CatalogException
                            else match drop_object with Ok _ => Ok true | Throw ex => Throw ex end
                end).
Proof.
  intros Hr Ha. unfold DropDependencies. change ((get ≫= ?k) (m, undo)) with (k (m, undo) (m, undo)). cbv beta iota.
  rewrite <- (view_read lowest m σ T s) by done. unfold view. destruct (GetEntry T s m) as [e|]; [|done]. cbn.
  destruct (internal (data e) && negb allow_drop_internal); [done|]. by destruct drop_object.
Qed.

Lemma DropEntry_refines lowest T s allow_drop_internal drop_object :
  transaction T = true ->
  refines lowest T (DropEntry T s allow_drop_internal drop_object) (spec_DropEntry T s allow_drop_internal drop_object).
Proof.
  intros Htr m undo σ Hi Hr Ha. pose proof (sim_refl lowest T m undo σ Hi Hr Ha) as Hs.
  unfold DropEntry, spec_DropEntry. unfold mbind, ST_bind at 1. rewrite (DropDependencies_run lowest T s _ _ m undo σ) by done.
  change ((get ≫= ?k) σ) with (k σ σ). cbv beta. unfold ST_bind at 1, get.
  destruct (read T (σ (key s))) as [d|] eqn:Hrd; [|by eapply refines_intro].
  destruct (internal d && negb allow_drop_internal) eqn:Hint; [by eapply refines_intro|].
  destruct drop_object as [[]|ex]; [|by eapply refines_intro]. cbn [negb]. cbv iota. unfold ST_bind at 1, lift.
  destruct (conflict T (σ (key s))) eqn:Hcf.
  - pose proof (GetEntryInternal_read lowest T s m σ Hi Hr Ha) as Hg. rewrite Hcf in Hg.
    unfold DropEntryInternal, mbind, ST_bind, on_set at 1. rewrite Hg. by eapply refines_intro.
  - destruct (DropEntryInternal_run lowest T s allow_drop_internal m undo σ d) as (w2 & -> & Hw & _); [done..|].
    by eapply refines_intro.
Qed.

Lemma write_conflict T T' k v σ : transaction_id T' = transaction_id T -> conflict T' (write T k v σ k) = false.
Proof. intros E. unfold conflict, write. rewrite decide_True by done. cbn. rewrite E. by rewrite Z.eqb_refl. Qed.

Lemma write_read T k v σ : read T (write T k v σ k) = v.
Proof. unfold read, write. rewrite decide_True by done. cbn. by rewrite Z.eqb_refl. Qed.

Lemma write_ne T k k' v σ : k' <> k -> write T k v σ k' = σ k'.
Proof. intros E. unfold write. by rewrite decide_False. Qed.

Lemma write_write T k v v' σ k' : write T k v' (write T k v σ) k' = write T k v' σ k'.
Proof. unfold write. destruct (decide (k' = k)); [|done]. by rewrite decide_True. Qed.

Lemma write_cong T k v σ σ' k' : (forall k, σ k = σ' k) -> write T k v σ k' = write T k v σ' k'.
Proof. intros E. unfold write. destruct (decide (k' = k)); [by rewrite !E|by rewrite E]. Qed.

Lemma sim_trans lowest T w1 w2 w3 σ σ' : sim lowest T w1 w2 σ -> sim lowest T w2 w3 σ' -> sim lowest T w1 w3 σ'.
Proof. intros [H1 H2 H3 H4] [H5 H6 H7 H8]. split; [by etrans|done..]. Qed.

Lemma bind_alloc {B} d b ts (g : entry -> ST state B) m undo :
  (on_set (new_entry d b ts) ≫= g) (m, undo) = g (mkEntry (next_oid m) d b ts) (alloc d m, undo).
Proof. done. Qed.

(** A marker that is put on a chain without conflict, the name's own chain or an empty one. *)
Lemma marker_run lowest T s dm (should_be_empty : bool) m undo σ :
  transaction T = true -> inv m -> reader lowest m T -> abs lowest m σ -> key (name dm) = key s -> type dm <> INVALID ->
  conflict T (σ (key s)) = false -> (should_be_empty = true -> read T (σ (key s)) = None) ->
  exists w2, CreateEntryInternal T s (mkEntry (next_oid m) dm false (transaction_id T)) should_be_empty (alloc dm m, undo) = (w2, Ok true)
    /\ sim lowest T (m, undo) w2 (write T (key s) (Some dm) σ)
    /\ (forall p n, fresh p n m -> fresh p n w2.1)
    /\ exists e c, entries w2.1 !! key s = Some (e :: c).
Proof.
  intros Htr Hi Hr Ha Hkey Hty Hcf Hrd.
  assert (may_push T s (mkEntry (next_oid m) dm false (transaction_id T)) (alloc dm m)) as Hp.
  { apply new_may_push; [done|done|done|]. intros top c' Hk'. by eapply free_top. }
  assert ((if should_be_empty then occupied T s (alloc dm m) else None) = None) as Ho.
  { destruct should_be_empty; [|done]. change (occupied T s m = None). rewrite (occupied_read lowest T s m σ) by done.
    by rewrite Hcf, Hrd. }
  rewrite (CreateEntryInternal_run T s _ should_be_empty (alloc dm m) undo Htr); [|apply Hr|by apply alloc_inv|done].
  rewrite Ho. eexists. split; [reflexivity|]. split; [|split].
  - apply (sim_push lowest T (m, undo) (alloc dm m) undo σ s); [|done]. by apply sim_alloc, sim_refl.
  - intros p n Hf. apply fresh_push; [by apply alloc_inv|by apply fresh_alloc|by eapply fresh_ne].
  - cbn [fst]. destruct (push_lookup s (mkEntry (next_oid m) dm false (transaction_id T)) (alloc dm m)) as [c Hc]. by exists (mkEntry (next_oid m) dm false (transaction_id T)), c.
Qed.

Lemma RenameEntryInternal_run lowest T s (old : entry) (new_name : string) m undo σ d :
  transaction T = true -> inv m -> reader lowest m T -> abs lowest m σ ->
  key (name (data old)) = key s -> key new_name <> key s -> conflict T (σ (key s)) = false -> read T (σ (key s)) = Some d ->
  match read T (σ (key new_name)) with
  | Some _ => RenameEntryInternal T old new_name (m, undo) = ((m, undo), Throw CatalogException)
  | None =>
      exists w2, (forall p n, fresh p n m -> fresh p n w2.1)
        /\ if conflict T (σ (key new_name))
           then RenameEntryInternal T old new_name (m, undo) = (w2, Throw TransactionException)
                /\ sim lowest T (m, undo) w2 (write T (key s) None σ)
           else RenameEntryInternal T old new_name (m, undo) = (w2, Ok true)
                /\ (exists dm, sim lowest T (m, undo) w2 (write T (key new_name) (Some dm) (write T (key s) None σ)))
                /\ exists e c, entries w2.1 !! key new_name = Some (e :: c)
  end.
Proof.
  intros Htr Hi Hr Ha Hold Hnew Hcf Hrd. unfold RenameEntryInternal.
  change ((get ≫= ?k) (m, undo)) with (k (m, undo) (m, undo)). cbv beta iota.
  pose proof (view_read lowest m σ T new_name Ha Hr) as Hv. rewrite view_seen in Hv. unfold seen in Hv. unfold map_GetEntry.
  assert (forall r : result unit, (match read T (σ (key new_name)) with Some _ => Throw CatalogException | None => Ok tt end) = r ->
    (match (entries m !! key new_name ≫= GetEntryForTransaction T : option (entry * bool)) with
     | Some (existing_entry, _) => if negb (deleted existing_entry) then throw CatalogException else mret tt
     | None => mret tt
     end) (m, undo) = ((m, undo), r)) as Hexists.
  { intros r <-. rewrite <- Hv. destruct (entries m !! key new_name) as [c|]; [|done]. cbn.
    destruct (GetEntryForTransaction T c) as [[e b]|]; [|done]. by destruct (deleted e). }
  destruct (read T (σ (key new_name))) as [d'|] eqn:Hrn; [by apply ST_bind_Throw, Hexists|].
  rewrite !(ST_bind_Ok _ _ _ _ _ (Hexists _ eq_refl)).
  clear Hexists Hv. rewrite <- Hold in *. clear s Hold.
  pose (dm := mkData RENAMED_ENTRY (name (data old)) false false None : EntryData X).
  destruct (marker_run lowest T (name (data old)) dm false m undo σ) as ([m1 u1] & E1 & S1 & F1 & _); [done..|].
  destruct (DropEntryInternal_run lowest T (name (data old)) false m1 u1 (write T (key (name (data old))) (Some dm) σ) dm)
    as ([m2 u2] & E2 & S2 & F2); [done|by apply S1|by apply S1|by apply S1|by apply write_conflict|by apply write_read|done|].
  assert (sim lowest T (m, undo) (m2, u2) (write T (key (name (data old))) None σ)) as S3.
  { eapply sim_ext; [eapply sim_trans; [exact S1|exact S2]|]. intros k. by rewrite write_write. }
  assert (forall k, k <> key (name (data old)) -> write T (key (name (data old))) None σ k = σ k) as Hother by (intros; by apply write_ne).
  assert (forall p n, fresh p n m -> fresh p n m2) as F3 by (intros p n Hf; apply F2, F1, Hf).
  rewrite !bind_alloc, !(ST_bind_Ok _ _ _ _ _ E1). cbn [negb]. rewrite !(ST_bind_Ok _ _ _ _ _ E2). cbn [negb]. rewrite !bind_alloc.
  destruct (conflict T (σ (key new_name))) eqn:Hcn.
  - exists (alloc (mkData RENAMED_ENTRY new_name false false None) m2, u2). split; [intros p n Hf; apply fresh_alloc; [apply S3|by apply F3]|].
    apply sim_alloc with (d := mkData RENAMED_ENTRY new_name false false None) in S3. split; [|done].
    rewrite (CreateEntryInternal_run T new_name _ true _ u2 Htr); [|apply Hr|apply S3|].
    + rewrite (occupied_read lowest T new_name _ (write T (key (name (data old))) None σ)); [|apply S3..].
      by rewrite Hother, Hcn.
    + rewrite (occupied_read lowest T new_name _ (write T (key (name (data old))) None σ)); [|apply S3..].
      by rewrite Hother, Hcn.
  - pose (dn := mkData RENAMED_ENTRY new_name false false None : EntryData X).
    destruct (marker_run lowest T new_name dn true m2 u2 (write T (key (name (data old))) None σ)) as (w3 & E4 & S4 & F4 & Htop);
      [done|apply S3|apply S3|apply S3|done|done|by rewrite Hother|by rewrite Hother|].
    exists w3. split; [intros p n Hf; by apply F4, F3|]. split; [done|]. split; [|done]. exists dn. by eapply sim_trans.
Qed.

(** The new version goes on its chain, and then the dependency manager answers. *)
Lemma version_run lowest T s p d (ao : result unit) w1 m undo σ e c :
  transaction T = true -> sim lowest T w1 (m, undo) σ -> fresh p (name d) m -> key (name d) = key s -> type d <> INVALID ->
  entries m !! key s = Some (e :: c) -> conflict T (σ (key s)) = false ->
  exists w2, (on_set (UpdateEntry (mkEntry p d false (transaction_id T)));; push_child T (mkEntry p d false (transaction_id T));;
              lift ao;; mret true) (m, undo)
             = (w2, match ao with Ok _ => Ok true | Throw ex => Throw ex end)
    /\ sim lowest T w1 w2 (write T (key s) (Some d) σ).
Proof.
  intros Htr Hs [Hf1 Hf2] Hkey Hty Hk Hcf. set (v := mkEntry p d false (transaction_id T)).
  assert (may_push T s v m) as Hp.
  { split; [done..|]. intros top c' Hk'. eapply free_top; [apply Hs|apply Hs|done|done]. }
  exists (push_value s v m, undo ++ [top_oid s m]). split; [|by apply (sim_push lowest T w1 m undo σ s v)].
  rewrite (ST_bind_Ok _ (on_set (UpdateEntry v)) _ (push_value s v m, undo) tt).
  - rewrite (ST_bind_Ok _ _ _ _ _ (push_child_run T s v m undo Htr (d_running _ _ _ (s_reader _ _ _ _ _ Hs)) (s_inv _ _ _ _ _ Hs) Hp)).
    by destruct ao.
  - unfold on_set. rewrite (UpdateEntry_run s v m (e :: c)) by done. unfold push_value. by rewrite Hk.
Qed.

Lemma AlterEntry_refines lowest T s alter allow_internal alter_object :
  transaction T = true -> (forall d d', alter d = Ok (Some d') -> type d' <> INVALID) ->
  refines lowest T (AlterEntry T s alter allow_internal alter_object) (spec_AlterEntry T s alter allow_internal alter_object).
Proof.
  intros Htr Hty m undo σ Hi Hr Ha. pose proof (sim_refl lowest T m undo σ Hi Hr Ha) as Hs. unfold AlterEntry, spec_AlterEntry.
  change ((get ≫= ?k) (m, undo)) with (k (m, undo) (m, undo)). change ((get ≫= ?k) σ) with (k σ σ). cbv beta iota.
  pose proof (view_read lowest m σ T s Ha Hr) as Hv. unfold view in Hv.
  destruct (GetEntry T s m) as [e|] eqn:Hget; cbn in Hv; rewrite <- Hv; [|by eapply refines_intro].
  destruct (negb allow_internal && internal (data e)); [by eapply refines_intro|].
  destruct (alter (data e)) as [[d'|]|ex] eqn:Halter; [|by eapply refines_intro..]. specialize (Hty _ _ Halter).
  change ((lift (Ok ?a) ≫= ?k) ?st) with (k a st). cbv beta iota.
  pose proof (GetEntryInternal_read lowest T s m σ Hi Hr Ha) as Hg. rewrite <- Hv in Hg.
  destruct (conflict T (σ (key s))) eqn:Hcf.
  { eapply refines_intro; [|reflexivity|exact Hs]. apply ST_bind_Throw. unfold on_set. by rewrite Hg. }
  destruct Hg as (e1 & c & Hg & Hk & Hd). rewrite (ST_bind_Ok _ (on_set (GetEntryInternal T s)) _ (m, undo) (Some e1)) by (unfold on_set; by rewrite Hg).
  rewrite bind_alloc, Hd. destruct (i_names _ Hi (key s) (e1 :: c) e1 Hk) as [Hkey _]; [by left|].
  apply (sim_alloc lowest T _ m undo σ d') in Hs. set (m1 := alloc d' m) in *.
  assert (fresh (next_oid m) (name d') m1) as Hf by (split; [apply lookup_insert_eq|by apply unused_alloc, new_unused]).
  rewrite Hd in Hkey. unfold CIEquals. destruct (bool_decide_reflect (key (name d') = key (name (data e)))) as [E|E]; cbn [negb].
  - rewrite (ST_bind_Ok _ (mret true) (m1, undo) (m1, undo) true) by done. cbn [negb].
    destruct (version_run lowest T s (next_oid m) d' alter_object (m, undo) m1 undo σ e1 c) as (w2 & -> & Hw); [done..|congruence|done|done|done|].
    exists w2, (write T (key s) (Some d') σ). eexists. split; [reflexivity|]. split; [|done].
    rewrite E, Hkey. by destruct alter_object.
  - assert (key (name d') <> key s) as Hne by congruence.
    assert (reader lowest m1 T) as Hr1 by apply Hs.
    pose proof (RenameEntryInternal_run lowest T s e1 (name d') m1 undo σ (data e) Htr (alloc_inv d' m Hi) Hr1 Ha) as Hren.
    rewrite Hd in Hren. specialize (Hren Hkey Hne Hcf (eq_sym Hv)). destruct (read T (σ (key (name d')))) as [dx|] eqn:Hrn.
    { eapply refines_intro; [by apply ST_bind_Throw|by apply ST_bind_Throw|done]. }
    destruct Hren as ([m2 u2] & Hfr & Hren). specialize (Hfr _ _ Hf). destruct (conflict T (σ (key (name d')))) eqn:Hcn.
    { destruct Hren as [Hren Hs2]. eapply refines_intro; [by apply ST_bind_Throw|reflexivity|]. by eapply sim_trans. }
    destruct Hren as (Hren & (dm & Hs2) & (e2 & c2 & Hk2)).
    destruct (version_run lowest T (name d') (next_oid m) d' alter_object (m, undo) m2 u2
      (write T (key (name d')) (Some dm) (write T (key s) None σ)) e2 c2) as (w3 & Hv3 & Hs3);
      [done|by eapply sim_trans|done|done|done|done|by apply write_conflict|].
    exists w3, (write T (key (name d')) (Some d') (write T (key s) None σ)). eexists. split; [|split].
    + rewrite (ST_bind_Ok _ _ _ _ _ Hren). cbn [negb]. exact Hv3.
    + by destruct alter_object.
    + eapply sim_ext; [exact Hs3|]. intros k. by rewrite write_write.
Qed.

End history.
End CatalogHistory.
