(* ===== verification/CatalogUndo.v ===== *)
(** * The undo entries of a catalog set

    What a commit, a rollback and a cleanup do with the versions of CatalogSet.v: [stacked] says that the
    undo entries of a transaction point, the last first, to the entries below its versions.  Undoing them
    in that order takes its versions away ([base_of]), committing them gives its versions the commit id
    ([settle]), also when another transaction changes other names in between ([framed]); a commit that
    fails half-way and is reverted leaves what a rollback leaves. *)

From Stdlib Require Import Ascii String.
From stdpp Require Import gmap strings sorting.
From S2P Require Import Prelude ChunkInfo CatalogSet CatalogHistory.

Module CatalogUndo.
Import CatalogSet.
Abbreviation reader := CatalogHistory.reader.
Abbreviation abs := CatalogHistory.abs.

Section undo.
Context {X : Type}.
Abbreviation entry := (CatalogEntry X).
Abbreviation chain := (list (CatalogEntry X)).
Abbreviation state := (t X * list nat)%type.
Abbreviation changes T := (rtc (change T)).
Abbreviation db := (string -> CatalogHistory.cell (X := X)).
Implicit Types (e q qe ve : entry) (c : chain) (m : t X) (T : CatalogTransaction) (d : EntryData X) (s : string) (p : nat) (σ : db).

(** ** The undo entries of a transaction *)

Fixpoint commit_all (verify : entry -> entry -> result unit) (commit_id : Z) (ps : list nat) : ST (t X) unit :=
  match ps with
  | [] => mret tt
  | p :: ps => CommitCatalogEntry verify commit_id p;; commit_all verify commit_id ps
  end.

Fixpoint revert_all (id : Z) (ps : list nat) : ST (t X) unit :=
  match ps with
  | [] => mret tt
  | p :: ps => RevertCatalogEntry id p;; revert_all id ps
  end.

Fixpoint undo_all (ps : list nat) : ST (t X) unit :=
  match ps with
  | [] => mret tt
  | p :: ps => Undo p;; undo_all ps
  end.

(** *** Rolling back *)

Definition pop (k : string) q c (es : gmap string chain) : gmap string chain :=
  if bool_decide (type (data q) = INVALID) then delete k es else <[k := q :: c]> es.

(** No version of the transaction is on top. *)
Definition no_top (id : Z) (o : option chain) : Prop := forall v c, o = Some (v :: c) -> timestamp v <> id.

(** Each undo entry, the last first, points to the entry below the top of a chain. *)
Fixpoint stacked (id : Z) (ps : list nat) (es : gmap string chain) : Prop :=
  match ps with
  | [] => forall k, no_top id (es !! k)
  | p :: ps => exists k v q c, es !! k = Some (v :: q :: c) /\ timestamp v = id /\ oid q = p /\ stacked id ps (pop k q c es)
  end.

Fixpoint drop_own (id : Z) c : chain :=
  match c with
  | e :: c' => if timestamp e =? id then drop_own id c' else c
  | [] => []
  end.

(** The chain without the versions of the transaction. *)
Definition base_of (id : Z) (o : option chain) : option chain :=
  match o with
  | Some (e :: c) =>
      if timestamp e =? id then
        match drop_own id c with
        | q :: c' => if bool_decide (type (data q) = INVALID) then None else Some (q :: c')
        | [] => None
        end
      else o
  | _ => o
  end.

Lemma base_no_top id o : no_top id o -> base_of id o = o.
Proof. intros H. destruct o as [[|v c]|]; [done| |done]. cbn. by rewrite (proj2 (Z.eqb_neq _ _)) by (by eapply H). Qed.

Lemma lookup_pop k q c es k' : pop k q c es !! k' = if decide (k' = k) then (if bool_decide (type (data q) = INVALID) then None else Some (q :: c)) else es !! k'.
Proof.
  unfold pop. destruct (decide (k' = k)) as [->|Hne]; destruct (bool_decide _).
  - apply lookup_delete_eq.
  - apply lookup_insert_eq.
  - by rewrite lookup_delete_ne.
  - by rewrite lookup_insert_ne.
Qed.

Lemma versions_tail v q c : versions (v :: q :: c) -> type (data q) <> INVALID -> versions (q :: c).
Proof.
  intros [(id & own & comm & E & Hne & Hid & Ho & Hc) Hnd Hd] Hty. split.
  - exists id. destruct own as [|v' own].
    + destruct comm as [|v' comm]; [done|]. injection E as -> <-. exists [], (q :: c). apply Forall_cons_1 in Hc as [_ Hc]. done.
    + injection E as -> E. apply Forall_cons_1 in Ho as [_ Ho]. by exists own, comm.
  - by apply NoDup_cons in Hnd as [_ ?].
  - intros pre e post Ec He. destruct pre as [|e' pre].
    + injection Ec as <- _. done.
    + destruct (Hd (v :: e' :: pre) e post) as (_ & H1 & H2); [cbn; by rewrite Ec|done|done].
Qed.

Lemma pop_inv m k v q c : inv m -> entries m !! k = Some (v :: q :: c) -> inv (with_entries (pop k q c (entries m)) m).
Proof.
  intros Hi Hk. split; cbn.
  - intros k' c'. rewrite lookup_pop. destruct (decide (k' = k)) as [->|Hne]; [|apply Hi].
    destruct (bool_decide_reflect (type (data q) = INVALID)) as [|Hty]; [done|]. intros [= <-].
    eapply versions_tail; [by apply (i_versions _ Hi k)|done].
  - intros k' c' e. rewrite lookup_pop. destruct (decide (k' = k)) as [->|Hne]; [|apply Hi].
    destruct (bool_decide _); [done|]. intros [= <-] He. apply (i_names _ Hi k (v :: q :: c)); [done|by right].
  - apply Hi.
Qed.

(** A dummy entry is at the bottom of its chain and committed. *)
Lemma dummy_bottom m k v q c : inv m -> entries m !! k = Some (v :: q :: c) -> type (data q) = INVALID ->
  c = [] /\ deleted q = true /\ timestamp q = 0.
Proof. intros Hi Hk Hty. destruct (i_versions _ Hi k _ Hk) as [_ _ Hd]. by destruct (Hd [v] q c eq_refl Hty) as (_ & ? & ? & ?). Qed.

Lemma id_ne_0 id : TRANSACTION_ID_START <= id -> 0 <> id.
Proof. intros H <-. by apply H. Qed.

Lemma base_pop id m k v q c k' :
  TRANSACTION_ID_START <= id -> inv m -> entries m !! k = Some (v :: q :: c) -> timestamp v = id ->
  base_of id (pop k q c (entries m) !! k') = base_of id (entries m !! k').
Proof.
  intros Hid Hi Hk Hv. rewrite lookup_pop. destruct (decide (k' = k)) as [->|Hne]; [|done]. rewrite Hk. cbn [base_of].
  rewrite Hv, Z.eqb_refl. cbn [drop_own]. destruct (bool_decide_reflect (type (data q) = INVALID)) as [Hty|Hty].
  - destruct (dummy_bottom m k v q c Hi Hk Hty) as (_ & _ & ->).
    rewrite (proj2 (Z.eqb_neq _ _)) by (by apply id_ne_0). by rewrite bool_decide_eq_true_2.
  - cbn [base_of]. destruct (timestamp q =? id) eqn:E; [done|]. by rewrite bool_decide_eq_false_2.
Qed.

Lemma undo_all_run id ps : forall m, TRANSACTION_ID_START <= id -> inv m -> stacked id ps (entries m) ->
  exists m', undo_all ps m = (m', Ok tt) /\ inv m' /\ forall k, entries m' !! k = base_of id (entries m !! k).
Proof.
  induction ps as [|p ps IH]; intros m Hid Hi Hs.
  - exists m. split; [done|]. split; [done|]. intros k. symmetry. apply base_no_top, Hs.
  - destruct Hs as (k & v & q & c & Hk & Hv & <- & Hs). cbn [undo_all].
    rewrite (ST_bind_Ok _ _ _ _ _ (Undo_top m k v q c Hi Hk)). fold (pop k q c (entries m)).
    destruct (IH (with_entries (pop k q c (entries m)) m) Hid (pop_inv m k v q c Hi Hk) Hs) as (m' & -> & Hi' & Hb).
    exists m'. split; [done|]. split; [done|]. intros k'. rewrite Hb. by eapply base_pop.
Qed.

Lemma drop_own_app id own q c :
  Forall (fun e => timestamp e = id) own -> timestamp q <> id -> drop_own id (own ++ q :: c) = q :: c.
Proof.
  intros Ho Hq. induction own as [|e own IH]; cbn.
  - by rewrite (proj2 (Z.eqb_neq _ _)).
  - apply Forall_cons_1 in Ho as [-> Ho]. rewrite Z.eqb_refl. by apply IH.
Qed.

Lemma split_ne c id own top comm id' : CatalogHistory.split_of c id own top comm -> TRANSACTION_ID_START <= id' -> timestamp top <> id'.
Proof. intros [_ _ _ Hc] Hid. apply Forall_cons_1 in Hc as [Hc _]. lia. Qed.

Lemma abs_rollback lowest id m m' σ :
  TRANSACTION_ID_START <= id -> 0 <= lowest -> inv m -> abs lowest m σ ->
  (forall k, entries m' !! k = base_of id (entries m !! k)) -> abs lowest m' (CatalogHistory.rollback id σ).
Proof.
  intros Hid Hlow Hi Ha Hb k. rewrite Hb. specialize (Ha k). unfold CatalogHistory.rollback.
  destruct (entries m !! k) as [c|] eqn:Hk.
  - destruct Ha as (id' & own & top & comm & Hsp & Hp & Hl). pose proof (split_ne _ _ _ _ _ id Hsp Hid) as Hne.
    rewrite Hp. destruct Hsp as [-> Hid' Ho Hc]. destruct own as [|v own].
    + cbn [app]. rewrite base_no_top by (by intros ? ? [= <- <-]). exists id', [], top, comm. by rewrite Hp.
    + cbn [app base_of]. apply Forall_cons_1 in Ho as [Hv Ho]. rewrite Hv. destruct (Z.eqb_spec id' id) as [->|Hne'].
      * rewrite drop_own_app by done. destruct (bool_decide_reflect (type (data top) = INVALID)) as [Hty|Hty].
        -- cbn. split; [done|]. intros start Hst. destruct (Hl start Hst) as [-> ->].
           destruct (i_versions _ Hi k _ Hk) as [_ _ Hd]. destruct (Hd (v :: own) top comm eq_refl Hty) as (_ & -> & Hdel & ->).
           cbn. unfold CatalogHistory.value. rewrite Hdel. split; [done|]. apply Z.ltb_ge. lia.
        -- by exists id, [], top, comm.
      * exists id', (v :: own), top, comm. rewrite Hp. split; [|done]. by split; [|done|constructor|].
  - destruct Ha as [Hp Hl]. by rewrite Hp.
Qed.

(** *** The entries of the others *)

(** A chain changes only where no version of the transaction is on top, or below the first version
    that is not its own. *)
Definition framed (id : Z) (o o' : option chain) : Prop :=
  (no_top id o /\ no_top id o')
  \/ exists own q rest rest', o = Some (own ++ q :: rest) /\ o' = Some (own ++ q :: rest') /\ own <> []
       /\ Forall (fun e => timestamp e = id) own /\ timestamp q <> id.

Lemma framed_refl id o : TRANSACTION_ID_START <= id -> (forall c, o = Some c -> versions c) -> framed id o o.
Proof.
  intros Hid Hv. destruct o as [c|]; [|left; by split].
  destruct (CatalogHistory.versions_split c (Hv c eq_refl)) as (id' & own & top & comm & Hsp).
  pose proof (split_ne _ _ _ _ _ id Hsp Hid) as Hne. destruct Hsp as [-> Hid' Ho Hc].
  destruct (decide (own <> [] /\ id' = id)) as [[Hown ->]|Hn]; [right; by exists own, top, comm, comm|].
  left. assert (no_top id (Some (own ++ top :: comm))); [|done]. intros v c [= E].
  destruct own as [|v' own]; injection E as -> _; [done|]. apply Forall_cons_1 in Ho as [-> _]. intros ->. by apply Hn.
Qed.

Lemma stacked_framed id ps : forall es es',
  stacked id ps es -> (forall k, framed id (es !! k) (es' !! k)) -> stacked id ps es'.
Proof.
  induction ps as [|p ps IH]; intros es es' Hs Hf.
  - intros k. destruct (Hf k) as [[_ ?]|(own & q & rest & rest' & E & _ & Hown & Ho & _)]; [done|].
    destruct own as [|v own]; [done|]. apply Forall_cons_1 in Ho as [Hv _]. by destruct (Hs k v _ E).
  - destruct Hs as (k & v & q & c & Hk & Hv & Hq & Hs). destruct (Hf k) as [[Hn _]|(own & q0 & rest & rest' & E & E' & Hown & Ho & Hne)].
    { by destruct (Hn v (q :: c) Hk). }
    destruct own as [|v0 own]; [done|]. rewrite Hk in E. injection E as <- E. apply Forall_cons_1 in Ho as [_ Ho].
    assert (exists c', es' !! k = Some (v :: q :: c') /\ framed id (Some (q :: c)) (Some (q :: c'))) as (c' & Hk' & Hfr).
    { destruct own as [|v1 own]; injection E as <- ->.
      - exists rest'. split; [done|]. left. split; by intros ? ? [= <- _].
      - exists (own ++ q0 :: rest'). split; [done|]. right. by exists (q :: own), q0, rest, rest'. }
    exists k, v, q, c'. split; [done|]. split; [done|]. split; [done|]. apply (IH _ _ Hs). intros k'. rewrite !lookup_pop.
    destruct (decide (k' = k)) as [->|Hk'ne]; [|apply Hf]. destruct (bool_decide _); [left; by split|done].
Qed.

(** *** New timestamps *)

(** The function changes only timestamps, of the entries [os]. *)
Record retimes (os : list nat) (g : entry -> entry) : Prop := {
  g_oid : forall e, oid (g e) = oid e;
  g_data : forall e, data (g e) = data e;
  g_deleted : forall e, deleted (g e) = deleted e;
  g_other : forall e, oid e ∉ os -> g e = e
}.

Definition map_set (g : entry -> entry) m : t X := with_entries (map g <$> entries m) m.

Lemma lookup_map_set g m k : entries (map_set g m) !! k = map g <$> entries m !! k.
Proof. apply lookup_fmap. Qed.

Lemma map_set_compose os f g m : retimes os f -> map_set f (map_set g m) = map_set (fun e => f (g e)) m.
Proof.
  intros _. unfold map_set, with_entries. cbn. f_equal. apply map_eq. intros k. rewrite !lookup_fmap.
  destruct (entries m !! k); cbn; [|done]. by rewrite map_map.
Qed.

Lemma map_set_ext f g m : (forall e, f e = g e) -> map_set f m = map_set g m.
Proof.
  intros E. unfold map_set, with_entries. f_equal. apply map_eq. intros k. rewrite !lookup_fmap.
  destruct (entries m !! k); cbn; [|done]. f_equal. by apply map_ext.
Qed.

Lemma map_set_id m : map_set (fun e => e) m = m.
Proof.
  destruct m as [es ns n]. unfold map_set, with_entries. cbn. f_equal. apply map_eq. intros k. rewrite lookup_fmap.
  destruct (es !! k); cbn; [|done]. by rewrite map_id.
Qed.

Section map_set.
Context (os : list nat) (g : entry -> entry) (Hg : retimes os g).

Lemma chain_of_map p m : chain_of p (map_set g m) = map g <$> chain_of p m.
Proof. unfold chain_of, map_GetEntry. cbn. destruct (names m !! p); [|done]. cbn. apply lookup_fmap. Qed.

Lemma deref_map p m : deref p (map_set g m) = g <$> deref p m.
Proof.
  unfold deref. rewrite chain_of_map. destruct (chain_of p m) as [c|]; [|done]. cbn. induction c as [|e c IH]; [done|]. cbn.
  rewrite (g_oid _ _ Hg). by destruct (oid e =? p)%nat.
Qed.

Lemma Parent_map p m : Parent p (map_set g m) = g <$> Parent p m.
Proof.
  unfold Parent. rewrite chain_of_map. destruct (chain_of p m) as [c|]; [|done]. cbn. induction c as [|e c IH]; [done|].
  destruct c as [|e' c]; [done|]. cbn [map parent_in]. rewrite (g_oid _ _ Hg). by destruct (oid e' =? p)%nat.
Qed.

Lemma remove_map p c : remove p (map g c) = map g (remove p c).
Proof.
  unfold remove. induction c as [|e c IH]; [done|]. cbn. rewrite (g_oid _ _ Hg). destruct (negb (oid e =? p)%nat); cbn; by rewrite IH.
Qed.

Lemma map_DropEntry_map e m : map_DropEntry (g e) (map_set g m) = (map_set g (map_DropEntry e m).1, (map_DropEntry e m).2).
Proof.
  unfold map_DropEntry. change ((get ≫= ?k) ?st) with (k st st). cbv beta. unfold map_GetEntry.
  rewrite lookup_map_set, (g_data _ _ Hg), (g_oid _ _ Hg). destruct (entries m !! key (name (data e))) as [c|]; [|done]. cbn [fmap option_fmap option_map].
  rewrite remove_map. destruct (remove (oid e) c) as [|e' c']; cbn; unfold map_set, set_chain, with_entries; cbn.
  - by rewrite fmap_delete.
  - by rewrite fmap_insert.
Qed.

Lemma Undo_map p m : Undo p (map_set g m) = (map_set g (Undo p m).1, (Undo p m).2).
Proof.
  unfold Undo. change ((get ≫= ?k) ?st) with (k st st). cbv beta. rewrite deref_map, Parent_map.
  destruct (deref p m) as [e|]; [|done]. destruct (Parent p m) as [v|]; [|done]. cbn [fmap option_fmap option_map].
  unfold mbind, ST_bind. rewrite map_DropEntry_map, (g_data _ _ Hg). destruct (map_DropEntry v m) as [m1 [[]|ex]]; [|done]. cbn [fst snd].
  destruct (bool_decide _); [|done]. apply map_DropEntry_map.
Qed.

Lemma undo_all_map ps m : undo_all ps (map_set g m) = (map_set g (undo_all ps m).1, (undo_all ps m).2).
Proof.
  revert m. induction ps as [|p ps IH]; intros m; [done|]. cbn [undo_all]. unfold mbind, ST_bind. rewrite Undo_map.
  destruct (Undo p m) as [m1 [[]|ex]]; [|done]. apply IH.
Qed.

Lemma shaped_map m : shaped m -> shaped (map_set g m).
Proof.
  intros [H1 H2]. split.
  - intros k c. rewrite lookup_map_set. destruct (entries m !! k) as [c0|] eqn:Hk; [|done]. intros [= <-]. rewrite map_map.
    erewrite map_ext; [by apply (H1 k)|]. apply Hg.
  - intros k c e. rewrite lookup_map_set. destruct (entries m !! k) as [c0|] eqn:Hk; [|done]. intros [= <-] He.
    apply list_elem_of_fmap in He as (e0 & -> & He0). rewrite (g_data _ _ Hg), (g_oid _ _ Hg). by apply (H2 k c0).
Qed.

End map_set.

Definition stamp (p : nat) (ts : Z) e : entry := if (oid e =? p)%nat then mkEntry (oid e) (data e) (deleted e) ts else e.

Lemma stamp_retimes p ts os : p ∈ os -> retimes os (stamp p ts).
Proof.
  intros Hp. split; intros e; unfold stamp; destruct (Nat.eqb_spec (oid e) p) as [E|E]; try done. intros Hn. by rewrite E in Hn.
Qed.

Lemma retimes_compose os f g : retimes os f -> retimes os g -> retimes os (fun e => f (g e)).
Proof.
  intros [F1 F2 F3 F4] [G1 G2 G3 G4]. split; intros e.
  - by rewrite F1, G1.
  - by rewrite F2, G2.
  - by rewrite F3, G3.
  - intros H. rewrite G4 by done. by apply F4.
Qed.

Lemma retimes_id os : retimes os (fun e => e).
Proof. by split. Qed.

Lemma UpdateTimestamp_stamp m k c e ts :
  shaped m -> entries m !! k = Some c -> e ∈ c -> UpdateTimestamp (oid e) ts m = map_set (stamp (oid e) ts) m.
Proof.
  intros Hs Hk He. destruct (sh_names _ Hs k c e Hk He) as [Hkey Hn]. unfold UpdateTimestamp.
  rewrite (chain_lookup m k c e), Hn by done. unfold set_chain, map_set, with_entries. f_equal. rewrite Hkey. apply map_eq. intros k'.
  rewrite lookup_fmap. destruct (decide (k' = k)) as [->|Hne].
  - by rewrite lookup_insert_eq, Hk.
  - rewrite lookup_insert_ne by done. destruct (entries m !! k') as [c'|] eqn:Hk'; [|done]. cbn. f_equal.
    rewrite <- (map_id c') at 1. apply map_ext_in. intros x Hx. unfold stamp. destruct (Nat.eqb_spec (oid x) (oid e)) as [E|E]; [|done].
    exfalso. apply list_elem_of_In in Hx. destruct (sh_names _ Hs k' c' x Hk' Hx) as [Hkx Hnx]. rewrite E in Hnx. congruence.
Qed.

(** *** Committing *)

(** The entry [v] is the parent of the entry [p]. *)
Definition linked m (p v : nat) : Prop :=
  exists k pre ve qe post, entries m !! k = Some (pre ++ ve :: qe :: post) /\ oid qe = p /\ oid ve = v.

Lemma parent_in_mid pre ve qe post : NoDup (map oid (pre ++ ve :: qe :: post)) -> parent_in (oid qe) (pre ++ ve :: qe :: post) = Some ve.
Proof.
  induction pre as [|e pre IH]; intros Hnd; [by apply parent_in_top|]. cbn in Hnd. apply NoDup_cons in Hnd as [_ Hnd].
  specialize (IH Hnd). destruct pre as [|e' pre]; cbn [app] in *.
  - cbn [parent_in] in *. cbn in Hnd. apply NoDup_cons in Hnd as [Hn _]. rewrite (proj2 (Nat.eqb_neq (oid ve) _)); [done|].
    intros E. apply Hn. rewrite E. by left.
  - change (parent_in (oid qe) (e :: e' :: pre ++ ve :: qe :: post)) with
      (if (oid e' =? oid qe)%nat then Some e else parent_in (oid qe) (e' :: pre ++ ve :: qe :: post)).
    rewrite (proj2 (Nat.eqb_neq (oid e') _)); [done|]. intros E. cbn in Hnd. apply NoDup_cons in Hnd as [Hn _]. apply Hn. rewrite E.
    rewrite map_app. apply elem_of_app. right. right. by left.
Qed.

Lemma linked_spec m p v : shaped m -> linked m p v ->
  exists k c qe ve, entries m !! k = Some c /\ qe ∈ c /\ ve ∈ c /\ deref p m = Some qe /\ Parent p m = Some ve /\ oid qe = p /\ oid ve = v.
Proof.
  intros Hs (k & pre & ve & qe & post & Hk & <- & <-). exists k, (pre ++ ve :: qe :: post), qe, ve.
  assert (qe ∈ pre ++ ve :: qe :: post) as Hq by (apply elem_of_app; right; right; by left).
  assert (ve ∈ pre ++ ve :: qe :: post) as Hv by (apply elem_of_app; right; by left).
  split; [done|]. split; [done|]. split; [done|]. unfold deref, Parent. rewrite (chain_lookup m k _ qe Hs Hk Hq). cbn [mbind option_bind].
  rewrite find_oid; [|by apply (sh_nodup _ Hs k)|done]. by rewrite parent_in_mid by (by apply (sh_nodup _ Hs k)).
Qed.

Lemma linked_map os g m p v : retimes os g -> linked m p v -> linked (map_set g m) p v.
Proof.
  intros Hg (k & pre & ve & qe & post & Hk & <- & <-). exists k, (map g pre), (g ve), (g qe), (map g post).
  rewrite lookup_map_set, Hk. cbn. rewrite map_app. split; [done|]. by rewrite !(g_oid _ _ Hg).
Qed.

Lemma linked_all_map os g m ps vs : retimes os g -> Forall2 (linked m) ps vs -> Forall2 (linked (map_set g m)) ps vs.
Proof. intros Hg H. eapply Forall2_impl; [exact H|]. intros p v. by apply (linked_map os). Qed.

Lemma retimes_weaken os os' g : (forall p, p ∈ os -> p ∈ os') -> retimes os g -> retimes os' g.
Proof. intros H [H1 H2 H3 H4]. split; [done..|]. intros e He. apply H4. intros ?. by apply He, H. Qed.

Lemma stamp_linked m p v ts : shaped m -> linked m p v -> UpdateTimestamp v ts m = map_set (stamp v ts) m.
Proof.
  intros Hs Hl. destruct (linked_spec m p v Hs Hl) as (k & c & qe & ve & Hk & _ & Hv & _ & _ & _ & <-).
  by eapply UpdateTimestamp_stamp.
Qed.

Lemma CommitCatalogEntry_run verify cid m p v : shaped m -> linked m p v ->
  exists g r, CommitCatalogEntry verify cid p m = (map_set g m, r) /\ retimes [v] g /\ (r = Ok tt -> forall e, oid e = v -> timestamp (g e) = cid).
Proof.
  intros Hs Hl. destruct (linked_spec m p v Hs Hl) as (k & c & qe & ve & Hk & _ & Hv & Hd & Hpar & _ & Ho). unfold CommitCatalogEntry.
  change ((get ≫= ?f) m) with (f m m). cbv beta. rewrite Hd, Hpar. unfold mbind, ST_bind, lift.
  destruct (if _ : bool then _ else _) as [[]|ex].
  - cbn [modify]. rewrite Ho, (stamp_linked m p v) by done. exists (stamp v cid).
    assert (retimes [v] (stamp v cid)) as Hg by (apply stamp_retimes; by left).
    destruct (CommitEntryDrop qe ve) as [[]|ex]; eexists; (split; [reflexivity|]); (split; [done|]); [|done].
    intros _ e He. unfold stamp. by rewrite He, Nat.eqb_refl.
  - exists (fun e => e), (Throw ex). rewrite map_set_id. split; [done|]. split; [apply retimes_id|done].
Qed.

Lemma commit_all_run verify cid ps : forall m vs, shaped m -> Forall2 (linked m) ps vs ->
  exists g r, commit_all verify cid ps m = (map_set g m, r) /\ retimes vs g /\ (r = Ok tt -> forall e, oid e ∈ vs -> timestamp (g e) = cid).
Proof.
  induction ps as [|p ps IH]; intros m vs Hs Hl; inversion Hl as [|? v ? vs' Hlp Hls]; subst.
  - exists (fun e => e), (Ok tt). rewrite map_set_id. split; [done|]. split; [apply retimes_id|]. by intros _ e He%not_elem_of_nil.
  - cbn [commit_all]. destruct (CommitCatalogEntry_run verify cid m p v Hs Hlp) as (g & r & E & Hg & Hts). unfold mbind, ST_bind. rewrite E.
    assert (retimes (v :: vs') g) as Hg' by (eapply retimes_weaken; [|exact Hg]; intros x ->%list_elem_of_singleton; by left).
    destruct r as [[]|ex]; [|by exists g, (Throw ex)].
    destruct (IH (map_set g m) vs') as (g2 & r & E2 & Hg2 & Hts2); [by eapply shaped_map|by eapply linked_all_map|].
    rewrite E2. exists (fun e => g2 (g e)), r. split; [f_equal; by eapply map_set_compose|]. split.
    + apply retimes_compose; [|done]. eapply retimes_weaken; [|exact Hg2]. intros x Hx. by right.
    + intros Hr e He. destruct (decide (oid e ∈ vs')) as [Hin|Hn].
      * apply Hts2; [done|]. by rewrite (g_oid _ _ Hg).
      * rewrite (g_other _ _ Hg2) by (by rewrite (g_oid _ _ Hg)). apply Hts; [done|]. by apply elem_of_cons in He as [?|?].
Qed.

(** The entry and the one that replaced it have the same name, also in case. *)
Definition same_name m p : Prop :=
  forall qe ve, deref p m = Some qe -> Parent p m = Some ve -> name (data qe) = name (data ve).

Lemma revert_all_run id ps : forall m vs, shaped m -> Forall2 (linked m) ps vs -> Forall (same_name m) ps ->
  exists g, revert_all id ps m = (map_set g m, Ok tt) /\ retimes vs g.
Proof.
  induction ps as [|p ps IH]; intros m vs Hs Hl Hn; inversion Hl as [|? v ? vs' Hlp Hls]; subst.
  - exists (fun e => e). rewrite map_set_id. split; [done|]. apply retimes_id.
  - apply Forall_cons_1 in Hn as [Hn Hns]. cbn [revert_all].
    destruct (linked_spec m p v Hs Hlp) as (k & c & qe & ve & Hk & _ & Hv & Hd & Hpar & _ & Ho).
    assert (RevertCatalogEntry id p m = (map_set (stamp v id) m, Ok tt)) as E.
    { unfold RevertCatalogEntry. change ((get ≫= ?f) m) with (f m m). cbv beta. rewrite Hd, Hpar. unfold mbind, ST_bind. cbn [modify].
      rewrite Ho, (stamp_linked m p v) by done. rewrite (Hn qe ve Hd Hpar). by rewrite String.eqb_refl. }
    assert (retimes (v :: vs') (stamp v id)) as Hg by (apply stamp_retimes; by left).
    rewrite (ST_bind_Ok _ _ _ _ _ E).
    destruct (IH (map_set (stamp v id) m) vs') as (g2 & E2 & Hg2); [by eapply shaped_map|by eapply linked_all_map| |].
    + eapply Forall_impl; [exact Hns|]. intros p' Hp' qe' ve'. rewrite (deref_map _ _ Hg), (Parent_map _ _ Hg).
      destruct (deref p' m) as [x|] eqn:Hx; [|done]. destruct (Parent p' m) as [y|] eqn:Hy; [|done]. intros [= <-] [= <-].
      rewrite !(g_data _ _ Hg). by apply Hp'.
    + rewrite E2. exists (fun e => g2 (stamp v id e)). split; [f_equal; by eapply map_set_compose|]. apply retimes_compose; [|done].
      eapply retimes_weaken; [|exact Hg2]. intros x Hx. by right.
Qed.

Lemma oid_inj m k c e k' c' e' :
  shaped m -> entries m !! k = Some c -> e ∈ c -> entries m !! k' = Some c' -> e' ∈ c' -> oid e = oid e' -> e = e' /\ k = k'.
Proof.
  intros Hs Hk He Hk' He' E. destruct (sh_names _ Hs k c e Hk He) as [H1 H2]. destruct (sh_names _ Hs k' c' e' Hk' He') as [H3 H4].
  assert (k = k') as <- by congruence. split; [|done]. assert (c' = c) as -> by congruence.
  pose proof (find_oid c e (sh_nodup _ Hs k c Hk) He) as F. rewrite E, (find_oid c e' (sh_nodup _ Hs k c Hk) He') in F. congruence.
Qed.

(** The undo entries are those below the versions of the transaction. *)
Lemma stacked_linked id ps : forall m, TRANSACTION_ID_START <= id -> inv m -> stacked id ps (entries m) ->
  exists vs, Forall2 (linked m) (rev ps) vs
    /\ forall k c e, entries m !! k = Some c -> e ∈ c -> oid e ∈ vs <-> timestamp e = id.
Proof.
  induction ps as [|p ps IH]; intros m Hid Hi Hs.
  - exists []. split; [done|]. intros k c e Hk He. split; [by intros H%not_elem_of_nil|]. intros Ht. exfalso.
    destruct (CatalogHistory.versions_split c (i_versions _ Hi k c Hk)) as (id' & own & top & comm & [-> Hid' Ho Hc]).
    assert (id' = id -> own = []) as Hnil.
    { intros ->. destruct own as [|v own]; [done|]. apply Forall_cons_1 in Ho as [Hv _]. by destruct (Hs k v _ Hk). }
    apply elem_of_app in He as [He|He].
    + pose proof (proj1 (Forall_forall _ _) Ho e He) as Ht'. cbn in Ht'. rewrite Ht in Ht'. rewrite Hnil in He by done. by apply not_elem_of_nil in He.
    + pose proof (proj1 (Forall_forall _ _) Hc e He) as Ht'. cbn in Ht'. lia.
  - destruct Hs as (k & v & q & c & Hk & Hv & <- & Hs). pose proof (inv_shaped m Hi) as Hsh.
    pose proof (pop_inv m k v q c Hi Hk) as Hi'. destruct (IH _ Hid Hi' Hs) as (vs & Hl & Hvs).
    exists (vs ++ [oid v]). split.
    + cbn. apply Forall2_app; [|apply Forall2_cons; split; [|done]].
      * eapply Forall2_impl; [exact Hl|]. intros p u (k' & pre & ve & qe & post & Hk' & Hp & Hu). cbn in Hk'. rewrite lookup_pop in Hk'.
        destruct (decide (k' = k)) as [->|Hne]; [|by exists k', pre, ve, qe, post].
        destruct (bool_decide _); [done|]. injection Hk' as E. exists k, (v :: pre), ve, qe, post. split; [by rewrite Hk, E|done].
      * by exists k, [], v, q, c.
    + intros k' c' e Hk' He. rewrite elem_of_app, list_elem_of_singleton.
      destruct (decide (oid e = oid v)) as [Eo|Eo].
      * destruct (oid_inj m k' c' e k (v :: q :: c) v Hsh Hk' He Hk ltac:(by left) Eo) as [-> _]. split; [done|by right].
      * assert (oid e ∈ vs <-> timestamp e = id) as Hiff; [|rewrite <- Hiff; split; [by intros [?|?]|by left]].
        assert (forall c'', entries (with_entries (pop k q c (entries m)) m) !! k' = Some c'' -> e ∈ c'' -> oid e ∈ vs <-> timestamp e = id) as Hrec
          by (intros c'' H1 H2; by eapply Hvs).
        cbn in Hrec. rewrite lookup_pop in Hrec. destruct (decide (k' = k)) as [->|Hne]; [|by eapply Hrec].
        rewrite Hk in Hk'. injection Hk' as <-. apply elem_of_cons in He as [->|He]; [done|].
        destruct (bool_decide_reflect (type (data q) = INVALID)) as [Hty|Hty]; [|by eapply Hrec].
        destruct (dummy_bottom m k v q c Hi Hk Hty) as (-> & _ & Hts). apply list_elem_of_singleton in He as ->. rewrite Hts.
        split; [|intros E0; exfalso; by apply (id_ne_0 id Hid)].
        intros Hin. exfalso. apply list_elem_of_lookup in Hin as (n & Hn). destruct (Forall2_lookup_r _ _ _ _ _ Hl Hn) as (p & _ & Hp).
        destruct Hp as (k' & pre & ve & qe & post & Hk' & _ & Hu). cbn in Hk'. rewrite lookup_pop in Hk'.
        destruct (decide (k' = k)) as [->|Hne]; [by rewrite bool_decide_eq_true_2 in Hk' by done|].
        destruct (oid_inj m k' _ ve k _ q Hsh Hk' ltac:(apply elem_of_app; right; by left) Hk ltac:(right; by left) Hu). done.
Qed.

(** The versions of the transaction get the commit id. *)
Definition settle (id cid : Z) e : entry := if timestamp e =? id then mkEntry (oid e) (data e) (deleted e) cid else e.

Lemma commit_settles verify id cid ps m m' :
  TRANSACTION_ID_START <= id -> inv m -> stacked id (rev ps) (entries m) -> commit_all verify cid ps m = (m', Ok tt) ->
  m' = map_set (settle id cid) m.
Proof.
  intros Hid Hi Hs Hc. destruct (stacked_linked id (rev ps) m Hid Hi Hs) as (vs & Hl & Hvs). rewrite rev_involutive in Hl.
  destruct (commit_all_run verify cid ps m vs (inv_shaped m Hi) Hl) as (g & r & E & Hg & Hts). rewrite Hc in E. injection E as -> <-.
  specialize (Hts eq_refl). unfold map_set, with_entries. f_equal. apply map_eq. intros k. rewrite !lookup_fmap.
  destruct (entries m !! k) as [c|] eqn:Hk; [|done]. cbn. f_equal. apply map_ext_in. intros e He%list_elem_of_In.
  unfold settle. specialize (Hvs k c e Hk He). destruct (Z.eqb_spec (timestamp e) id) as [Et|Et].
  - assert (oid e ∈ vs) as Hin by (by apply Hvs). specialize (Hts e Hin).
    pose proof (g_oid _ _ Hg e). pose proof (g_data _ _ Hg e). pose proof (g_deleted _ _ Hg e). destruct (g e). cbn in *. by subst.
  - apply (g_other _ _ Hg). intros Hin. by apply Et, Hvs.
Qed.

Lemma settle_other id cid e : timestamp e <> id -> settle id cid e = e.
Proof. intros H. unfold settle. by rewrite (proj2 (Z.eqb_neq _ _)). Qed.

Lemma settle_own id cid e : timestamp e = id -> settle id cid e = mkEntry (oid e) (data e) (deleted e) cid.
Proof. intros H. unfold settle. by rewrite H, Z.eqb_refl. Qed.

Lemma settle_map_other id cid c : Forall (fun e => timestamp e <> id) c -> map (settle id cid) c = c.
Proof. intros H. induction H as [|e c He Hc IH]; [done|]. cbn. by rewrite settle_other, IH. Qed.

Lemma settle_committed id cid c :
  TRANSACTION_ID_START <= id -> Forall (fun e => timestamp e < TRANSACTION_ID_START) c -> map (settle id cid) c = c.
Proof. intros Hid H. apply settle_map_other. eapply Forall_impl; [exact H|]. intros e He. cbn in *. lia. Qed.

(** A chain after the commit: the versions of the transaction have joined the committed ones. *)
Lemma settle_split c id own top comm id' cid :
  TRANSACTION_ID_START <= id -> cid < TRANSACTION_ID_START -> CatalogHistory.split_of c id' own top comm ->
  map (settle id cid) c = c /\ (own = [] \/ id' <> id)
  \/ id' = id /\ own <> [] /\ map (settle id cid) c = map (settle id cid) own ++ top :: comm
     /\ Forall (fun e => timestamp e < TRANSACTION_ID_START) (map (settle id cid) c).
Proof.
  intros Hid Hcid [-> Hid' Ho Hc]. rewrite map_app, (settle_committed id cid (top :: comm)) by done.
  destruct (decide (own = [] \/ id' <> id)) as [Hn|Hn].
  - left. split; [|done]. f_equal. destruct Hn as [->|Hn]; [done|]. apply settle_map_other. eapply Forall_impl; [exact Ho|].
    intros e He. cbn in He. by rewrite He.
  - right. destruct (decide (id' = id)) as [->|]; [|by destruct Hn; right]. split; [done|]. split; [by intros ->; apply Hn; left|].
    split; [done|]. apply Forall_app; split; [|done]. apply Forall_map. eapply Forall_impl; [exact Ho|]. intros e He. cbn in *.
    by rewrite settle_own.
Qed.

Lemma settle_inv id cid m : TRANSACTION_ID_START <= id -> cid < TRANSACTION_ID_START -> inv m -> inv (map_set (settle id cid) m).
Proof.
  intros Hid Hcid Hi.
  assert (forall e, oid (settle id cid e) = oid e /\ data (settle id cid e) = data e /\ deleted (settle id cid e) = deleted e) as Hse.
  { intros e. unfold settle. by destruct (_ =? _). }
  assert (forall c, map oid (map (settle id cid) c) = map oid c) as Hoids by (intros c; rewrite map_map; apply map_ext, Hse).
  split.
  - intros k c'. rewrite lookup_map_set. destruct (entries m !! k) as [c|] eqn:Hk; [|done]. intros [= <-].
    destruct (i_versions _ Hi k c Hk) as [Hsp Hnd Hd]. split.
    + destruct (CatalogHistory.versions_split c (i_versions _ Hi k c Hk)) as (id' & own & top & comm & Hsplit).
      destruct (settle_split c id own top comm id' cid Hid Hcid Hsplit) as [[-> _]|(_ & _ & _ & Hc)]; [done|].
      exists id, [], (map (settle id cid) c). split; [done|]. split; [|by split]. destruct Hsplit as [-> _ _ _]. by destruct own.
    + by rewrite Hoids.
    + intros pre e post E He. apply map_eq_app in E as (pre0 & c0 & -> & <- & E).
      apply map_eq_cons in E as (e0 & post0 & -> & <- & <-). destruct (Hse e0) as (_ & Hda & Hde). rewrite Hda in He. rewrite Hde.
      destruct (Hd pre0 e0 post0 eq_refl He) as (H1 & -> & -> & Hts). split; [by destruct pre0|]. split; [done|]. split; [done|].
      rewrite settle_other; [done|]. rewrite Hts. by apply id_ne_0.
  - intros k c' e. rewrite lookup_map_set. destruct (entries m !! k) as [c|] eqn:Hk; [|done]. intros [= <-] (e0 & -> & He)%list_elem_of_fmap.
    destruct (Hse e0) as (-> & -> & _). by apply (i_names _ Hi k c).
  - apply Hi.
Qed.

Lemma settle_value id cid e : CatalogHistory.value (settle id cid e) = CatalogHistory.value e.
Proof. unfold settle. by destruct (_ =? _). Qed.

Lemma asof_settled id cid start own c :
  Forall (fun e => timestamp e = id) own -> own <> [] -> c <> [] ->
  CatalogHistory.asof start (map (settle id cid) own ++ c)
  = if cid <? start then match own with v :: _ => CatalogHistory.value v | [] => None end else CatalogHistory.asof start c.
Proof.
  intros Ho Hne Hc. destruct (Z.ltb_spec cid start) as [Hlt|Hge].
  - destruct own as [|v own]; [done|]. apply Forall_cons_1 in Ho as [Hv _]. cbn [map app].
    rewrite CatalogHistory.asof_old; [apply settle_value|]. by rewrite settle_own.
  - clear Hne. induction own as [|v own IH]; [done|]. apply Forall_cons_1 in Ho as [Hv Ho]. cbn [map app].
    rewrite CatalogHistory.asof_new; [by apply IH| |by intros [_ ?]%app_eq_nil]. by rewrite settle_own.
Qed.

Lemma abs_commit lowest id cid m σ :
  TRANSACTION_ID_START <= id -> cid < TRANSACTION_ID_START -> abs lowest m σ ->
  abs lowest (map_set (settle id cid) m) (CatalogHistory.commit id cid σ).
Proof.
  intros Hid Hcid Ha k. rewrite lookup_map_set. specialize (Ha k). unfold CatalogHistory.commit. destruct (entries m !! k) as [c|].
  - destruct Ha as (id' & own & top & comm & Hsp & Hp & Hl). cbn [fmap option_fmap option_map].
    destruct (settle_split c id own top comm id' cid Hid Hcid Hsp) as [[-> Hn]|(-> & Hown & E & Hc)].
    + rewrite Hp. destruct own as [|v own]; [by exists id', [], top, comm; rewrite Hp|].
      destruct Hn as [?|Hn]; [done|]. rewrite (proj2 (Z.eqb_neq _ _)) by done. exists id', (v :: own), top, comm. by rewrite Hp.
    + rewrite Hp. destruct own as [|v own]; [done|]. rewrite Z.eqb_refl. rewrite E in *. destruct Hsp as [_ _ Ho _].
      exists id, [], (settle id cid v), (map (settle id cid) own ++ top :: comm). split; [by split|]. split; [done|].
      intros start Hst. destruct (Hl start Hst) as [Hsn _]. cbn [CatalogHistory.snapshot CatalogHistory.latest]. rewrite Hsn. split.
      * symmetry. by apply (asof_settled id cid start (v :: own)).
      * apply Forall_cons_1 in Ho as [Hv _]. by rewrite settle_own.
  - destruct Ha as [Hp Hl]. by rewrite Hp.
Qed.

(** *** What a step of one transaction is for the undo entries of the others *)

Lemma no_top_settle id cid c : cid < TRANSACTION_ID_START -> TRANSACTION_ID_START <= id ->
  no_top id (Some (map (settle id cid) c)).
Proof.
  intros Hcid Hid v c' [= E]. destruct c as [|e c]; [done|]. injection E as <- _. unfold settle.
  destruct (Z.eqb_spec (timestamp e) id); [cbn; lia|done].
Qed.

Lemma framed_settle id cid id' m k :
  TRANSACTION_ID_START <= id -> TRANSACTION_ID_START <= id' -> cid < TRANSACTION_ID_START -> id' <> id -> inv m ->
  framed id' (entries m !! k) (entries (map_set (settle id cid) m) !! k).
Proof.
  intros Hid Hid' Hcid Hne Hi. rewrite lookup_map_set. destruct (entries m !! k) as [c|] eqn:Hk; [|left; by split].
  destruct (CatalogHistory.versions_split c (i_versions _ Hi k c Hk)) as (id0 & own & top & comm & Hsp).
  cbn. destruct (settle_split c id own top comm id0 cid Hid Hcid Hsp) as [[-> _]|(-> & Hown & E & Hc)].
  - apply framed_refl; [done|]. intros c' [= <-]. by apply (i_versions _ Hi k).
  - left. destruct Hsp as [-> _ Ho _]. split; intros v c' [= Ec].
    + destruct own as [|v' own]; [done|]. injection Ec as -> _. apply Forall_cons_1 in Ho as [-> _]. by intros ->.
    + rewrite Ec in Hc. apply Forall_cons_1 in Hc as [Hv _]. lia.
Qed.

Lemma framed_base id id' m k :
  TRANSACTION_ID_START <= id -> TRANSACTION_ID_START <= id' -> id' <> id -> inv m ->
  framed id' (entries m !! k) (base_of id (entries m !! k)).
Proof.
  intros Hid Hid' Hne Hi. destruct (entries m !! k) as [c|] eqn:Hk; [|left; by split].
  destruct (CatalogHistory.versions_split c (i_versions _ Hi k c Hk)) as (id0 & own & top & comm & Hsp).
  pose proof (split_ne _ _ _ _ _ id' Hsp Hid') as Htop. pose proof (split_ne _ _ _ _ _ id Hsp Hid) as Htop'.
  destruct (decide (own = [] \/ id0 <> id)) as [Hn|Hn].
  - rewrite base_no_top; [apply framed_refl; [done|]; intros c' [= <-]; by apply (i_versions _ Hi k)|].
    destruct Hsp as [-> _ Ho _]. intros v c' [= E]. destruct own as [|v' own]; injection E as -> _; [done|].
    destruct Hn as [?|Hn]; [done|]. apply Forall_cons_1 in Ho as [-> _]. done.
  - left. destruct Hsp as [-> _ Ho _]. destruct own as [|v own]; [by destruct Hn; left|].
    assert (id0 = id) as -> by (destruct (decide (id0 = id)); [done|by destruct Hn; right]).
    apply Forall_cons_1 in Ho as [Hv Ho]. split.
    + intros v' c' [= <- _]. by rewrite Hv.
    + cbn [app base_of]. rewrite Hv, Z.eqb_refl, drop_own_app by done. destruct (bool_decide _); [done|]. by intros v' c' [= <- _].
Qed.

Lemma no_top_base id m k : TRANSACTION_ID_START <= id -> inv m -> no_top id (base_of id (entries m !! k)).
Proof.
  intros Hid Hi. destruct (entries m !! k) as [c|] eqn:Hk; [|done].
  destruct (CatalogHistory.versions_split c (i_versions _ Hi k c Hk)) as (id0 & own & top & comm & Hsp).
  pose proof (split_ne _ _ _ _ _ id Hsp Hid) as Htop. destruct Hsp as [-> _ Ho _].
  destruct own as [|v own]; cbn [app base_of].
  - rewrite (proj2 (Z.eqb_neq _ _)) by done. by intros v c [= <- _].
  - apply Forall_cons_1 in Ho as [Hv Ho]. destruct (Z.eqb_spec (timestamp v) id) as [E|E]; [|by intros v' c [= <- _]].
    rewrite drop_own_app; [|by rewrite <- E, Hv|done]. destruct (bool_decide _); [done|]. by intros v' c [= <- _].
Qed.

Lemma framed_push T s value m id' k :
  running T -> TRANSACTION_ID_START <= id' -> id' <> transaction_id T -> inv m -> may_push T s value m ->
  framed id' (entries m !! k) (entries (push_value s value m) !! k).
Proof.
  intros HT Hid' Hne Hi Hp. unfold push_value. destruct (decide (k = key s)) as [->|Hk].
  - left. destruct Hp as [_ _ _ Hts _ Hfree]. split.
    + intros v c Hc. specialize (Hfree v c Hc). apply no_conflict in Hfree. lia.
    + destruct (entries m !! key s); cbn; rewrite lookup_insert_eq; intros v c [= <- _]; by rewrite Hts.
  - destruct (entries m !! key s); cbn; rewrite lookup_insert_ne by done; (apply framed_refl; [done|]; intros c Hc; by apply (i_versions _ Hi k)).
Qed.

(** An operation keeps the undo entries of all transactions in order. *)
Lemma change_stacked T w1 w2 id ps :
  running T -> TRANSACTION_ID_START <= id -> change T w1 w2 -> inv w1.1 ->
  stacked id (if decide (id = transaction_id T) then rev w1.2 else ps) (entries w1.1) ->
  stacked id (if decide (id = transaction_id T) then rev w2.2 else ps) (entries w2.1).
Proof.
  intros HT Hid [m undo d|m undo s value Hp] Hi Hs; [done|]. cbn [fst snd] in *. destruct (decide (id = transaction_id T)) as [->|Hne].
  - rewrite rev_app_distr. cbn. pose proof (y_timestamp _ _ _ _ Hp) as Hts. unfold push_value, top_oid.
    destruct (entries m !! key s) as [c|] eqn:Hc; [destruct c as [|q c]; [by apply (i_versions _ Hi), versions_ne in Hc|]|].
    + exists (key s), value, q, c. cbn. rewrite lookup_insert_eq. split; [done|]. split; [done|]. split; [done|]. unfold pop.
      rewrite bool_decide_eq_false_2.
      * by rewrite insert_insert_eq, insert_id.
      * intros Hty. destruct (i_versions _ Hi _ _ Hc) as [_ _ Hd]. by destruct (Hd [] q c eq_refl Hty).
    + exists (key s), value, (dummy_of s m), []. cbn. rewrite lookup_insert_eq. split; [done|]. split; [done|]. split; [done|]. unfold pop. cbn.
      by rewrite delete_insert_eq, delete_id.
  - eapply stacked_framed; [exact Hs|]. intros k. by eapply framed_push.
Qed.

Lemma changes_stacked T w1 w2 id ps :
  running T -> TRANSACTION_ID_START <= id -> changes T w1 w2 -> inv w1.1 ->
  stacked id (if decide (id = transaction_id T) then rev w1.2 else ps) (entries w1.1) ->
  stacked id (if decide (id = transaction_id T) then rev w2.2 else ps) (entries w2.1).
Proof.
  intros HT Hid H. induction H as [|x y z Hxy Hyz IH]; [done|]. intros Hi Hs. apply IH; [by eapply change_inv|by eapply change_stacked].
Qed.

(** *** A commit that fails *)

Lemma base_member id m k c e : TRANSACTION_ID_START <= id -> inv m -> base_of id (entries m !! k) = Some c -> e ∈ c ->
  timestamp e <> id /\ exists c0, entries m !! k = Some c0 /\ e ∈ c0.
Proof.
  intros Hid Hi. destruct (entries m !! k) as [c0|] eqn:Hk; [|done].
  destruct (CatalogHistory.versions_split c0 (i_versions _ Hi k c0 Hk)) as (id0 & own & top & comm & Hsp).
  pose proof (split_ne _ _ _ _ _ id Hsp Hid) as Htop. destruct Hsp as [-> _ Ho Hc].
  assert (forall x, x ∈ top :: comm -> timestamp x <> id) as Hcomm.
  { intros x Hx. pose proof (proj1 (Forall_forall _ _) Hc x Hx) as Hx'. cbn in Hx'. lia. }
  destruct (decide (own <> [] /\ id0 = id)) as [[Hown ->]|Hn].
  - destruct own as [|v own]; [done|]. apply Forall_cons_1 in Ho as [Hv Ho]. cbn [app base_of]. rewrite Hv, Z.eqb_refl, drop_own_app by done.
    destruct (bool_decide _); [done|]. intros [= <-] He. split; [by apply Hcomm|]. eexists. split; [done|].
    right. apply elem_of_app. by right.
  - rewrite base_no_top.
    + intros [= <-] He. split; [|by eexists]. apply elem_of_app in He as [He|He]; [|by apply Hcomm].
      pose proof (proj1 (Forall_forall _ _) Ho e He) as He'. cbn in He'. rewrite He'. intros ->. apply Hn. split; [|done]. intros ->. by apply not_elem_of_nil in He.
    + intros v c' [= E]. destruct own as [|v' own]; injection E as -> _; [done|]. apply Forall_cons_1 in Ho as [-> _]. intros ->. by apply Hn.
Qed.

Lemma map_set_fixed g m : (forall k c e, entries m !! k = Some c -> e ∈ c -> g e = e) -> map_set g m = m.
Proof.
  intros H. destruct m as [es ns n]. unfold map_set, with_entries. cbn in *. f_equal. apply map_eq. intros k. rewrite lookup_fmap.
  destruct (es !! k) as [c|] eqn:Hk; [|done]. cbn. f_equal. rewrite <- (map_id c) at 2. apply map_ext_in. intros e He%list_elem_of_In.
  by apply (H k c).
Qed.

Lemma failed_commit verify cid id ps n m m1 ex :
  TRANSACTION_ID_START <= id -> inv m -> stacked id (rev ps) (entries m) -> Forall (same_name m) ps ->
  commit_all verify cid ps m = (m1, Throw ex) ->
  exists m', (revert_all id (take n ps);; undo_all (rev ps)) m1 = (m', Ok tt)
    /\ inv m' /\ forall k, entries m' !! k = base_of id (entries m !! k).
Proof.
  intros Hid Hi Hs Hn Hc. destruct (stacked_linked id (rev ps) m Hid Hi Hs) as (vs & Hl & Hvs). rewrite rev_involutive in Hl.
  destruct (commit_all_run verify cid ps m vs (inv_shaped m Hi) Hl) as (g & r & E & Hg & _). rewrite Hc in E. injection E as -> <-.
  destruct (revert_all_run id (take n ps) (map_set g m) (take n vs)) as (g2 & E2 & Hg2).
  { eapply shaped_map; [done|by apply inv_shaped]. }
  { apply Forall2_take. by eapply linked_all_map. }
  { apply Forall_take. eapply Forall_impl; [exact Hn|]. intros p' Hp' qe ve. rewrite (deref_map _ _ Hg), (Parent_map _ _ Hg).
    destruct (deref p' m) as [x|] eqn:Hx; [|done]. destruct (Parent p' m) as [y|] eqn:Hy; [|done]. intros [= <-] [= <-].
    rewrite !(g_data _ _ Hg). by apply Hp'. }
  rewrite (ST_bind_Ok _ _ _ _ _ E2). assert (retimes vs g2) as Hg2'.
  { eapply retimes_weaken; [|exact Hg2]. intros x Hx. by apply elem_of_take in Hx as (i & Hx%list_elem_of_lookup_2 & _). }
  rewrite (map_set_compose vs) by done. destruct (undo_all_run id (rev ps) m Hid Hi Hs) as (m' & Eu & Hi' & Hb).
  rewrite (undo_all_map vs) by (by apply retimes_compose). rewrite Eu. cbn [fst snd]. exists m'. split; [|done]. f_equal.
  apply map_set_fixed. intros k c e Hk He. rewrite Hb in Hk. destruct (base_member id m k c e Hid Hi Hk He) as (Hts & c0 & Hk0 & He0).
  assert (oid e ∉ vs) as Hnot by (by rewrite (Hvs k c0 e Hk0 He0)). rewrite (g_other _ _ Hg) by done. by apply (g_other _ _ Hg2').
Qed.

(** *** Cleaning up *)

(** The chain without the entry below [v]; a deleted [v] that is alone goes, too. *)
Definition cleaned (k : string) pre v post m : t X :=
  with_entries (if deleted v && bool_decide (pre = [] /\ post = []) then delete k (entries m) else <[k := pre ++ v :: post]> (entries m)) m.

Lemma remove_mid p pre v q post : NoDup (map oid (pre ++ v :: q :: post)) -> oid q = p -> remove p (pre ++ v :: q :: post) = pre ++ v :: post.
Proof.
  intros Hnd <-. induction pre as [|e pre IH]; cbn [app] in *.
  - cbn in Hnd. apply NoDup_cons in Hnd as [H1 Hnd]. unfold remove. cbn [List.filter]. rewrite (proj2 (Nat.eqb_neq (oid v) _)).
    + cbn [negb]. f_equal. by apply remove_top.
    + intros E. apply H1. rewrite E. by left.
  - cbn in Hnd. apply NoDup_cons in Hnd as [H1 Hnd]. unfold remove. cbn [List.filter]. rewrite (proj2 (Nat.eqb_neq (oid e) _)).
    + cbn [negb]. f_equal. by apply IH.
    + intros E. apply H1. rewrite E, map_app. apply elem_of_app. right. right. by left.
Qed.

Lemma child_in_mid pre (v : entry) post : NoDup (map oid (pre ++ v :: post)) -> child_in (oid v) (pre ++ v :: post) = head post.
Proof.
  induction pre as [|e pre IH]; intros Hnd; [by apply child_in_top|]. cbn in Hnd. apply NoDup_cons in Hnd as [Hn Hnd]. cbn [app child_in].
  rewrite (proj2 (Nat.eqb_neq (oid e) _)); [by apply IH|]. intros E. apply Hn. rewrite E, map_app. apply elem_of_app. right. by left.
Qed.

Lemma parent_in_first (v : entry) post : NoDup (map oid (v :: post)) -> parent_in (oid v) (v :: post) = None.
Proof.
  intros Hnd. destruct (parent_in (oid v) (v :: post)) as [u|] eqn:E; [|done]. apply parent_in_spec in E as (pre & e & post' & E & Ho).
  cbn in Hnd. apply NoDup_cons in Hnd as [Hn _]. exfalso. apply Hn. rewrite <- Ho. apply list_elem_of_fmap. exists e. split; [done|].
  destruct pre as [|x pre]; injection E as _ ->; [by left|]. apply elem_of_app. right. right. by left.
Qed.

Lemma parent_in_last pre (u v : entry) post : NoDup (map oid (pre ++ u :: v :: post)) -> parent_in (oid v) (pre ++ u :: v :: post) = Some u.
Proof. apply parent_in_mid. Qed.

Lemma nodup_mid pre (v q : entry) post : NoDup (map oid (pre ++ v :: q :: post)) -> NoDup (map oid (pre ++ v :: post)).
Proof.
  rewrite !map_app. cbn. rewrite !NoDup_app, !NoDup_cons. intros (H1 & H2 & H3 & H4 & H5). split; [done|]. split; [|split; [|done]].
  - intros x Hx Hin. apply (H2 x Hx). apply elem_of_cons in Hin as [->|Hin]; [left|right; by right].
  - intros Hin. apply H3. by right.
Qed.

Lemma CleanupEntry_run p v m : inv m -> Parent p m = Some v ->
  exists k pre q post, entries m !! k = Some (pre ++ v :: q :: post) /\ oid q = p
    /\ CleanupEntry p m = (cleaned k pre v post m, Ok tt).
Proof.
  intros Hi Hpar. pose proof (inv_shaped m Hi) as Hs. pose proof Hpar as Hpar'. unfold Parent, chain_of, map_GetEntry in Hpar'.
  destruct (names m !! p) as [n|]; [|done]. cbn in Hpar'. set (k := key n) in *. destruct (entries m !! k) as [c|] eqn:Hk; [|done].
  cbn in Hpar'. apply parent_in_spec in Hpar' as (pre & q & post & -> & Hq). exists k, pre, q, post. split; [done|]. split; [done|].
  assert (linked m p (oid v)) as Hl by (by exists k, pre, v, q, post).
  destruct (linked_spec m p (oid v) Hs Hl) as (k2 & c2 & q2 & v2 & Hk2 & Hq2 & _ & Hd & Hpar2 & Ho2 & _). rewrite Hpar in Hpar2. injection Hpar2 as <-.
  pose proof (sh_nodup _ Hs k _ Hk) as Hnd.
  assert (q ∈ pre ++ v :: q :: post) as Hqin by (apply elem_of_app; right; right; by left).
  assert (v ∈ pre ++ v :: q :: post) as Hvin by (apply elem_of_app; right; by left).
  destruct (oid_inj m k2 c2 q2 k _ q Hs Hk2 Hq2 Hk Hqin) as [-> ->]; [by rewrite Hq|].
  destruct (sh_names _ Hs k _ q Hk Hqin) as [Hkq _]. destruct (sh_names _ Hs k _ v Hk Hvin) as [Hkv Hnv].
  unfold CleanupEntry. change ((get ≫= ?f) m) with (f m m). cbv beta. rewrite Hd, Hpar.
  set (c' := pre ++ v :: post). set (m1 := with_entries (<[k := c']> (entries m)) m).
  assert (NoDup (map oid c')) as Hnd'.
  { by apply (nodup_mid pre v q post). }
  assert (map_DropEntry q m = (m1, Ok tt)) as Edrop.
  { unfold map_DropEntry. change ((get ≫= ?f) m) with (f m m). cbv beta. unfold map_GetEntry. rewrite Hkq, Hk, Hq, remove_mid by done.
    unfold m1, c'. destruct pre; unfold modify, set_chain; by rewrite Hkq. }
  rewrite (ST_bind_Ok _ _ _ _ _ Edrop). change ((get ≫= ?f) m1) with (f m1 m1). cbv beta.
  assert (chain_of (oid v) m1 = Some c') as Hch.
  { unfold chain_of, map_GetEntry, m1. cbn. rewrite Hnv. cbn. rewrite Hkv. apply lookup_insert_eq. }
  assert (negb (HasChild (oid v) m1) && negb (HasParent (oid v) m1) = bool_decide (pre = [] /\ post = [])) as Hcond.
  { unfold HasChild, HasParent, Child, Parent. rewrite Hch. cbn [mbind option_bind]. unfold c' in *. rewrite child_in_mid by done.
    destruct post as [|y post]; [|by rewrite bool_decide_eq_false_2 by (by intros [_ ?])]. destruct pre as [|x pre _] using rev_ind; cbn [app] in *.
    - by rewrite parent_in_first.
    - rewrite <- app_assoc in Hnd'. rewrite <- app_assoc. cbn [app] in *. rewrite parent_in_last by done.
      rewrite bool_decide_eq_false_2; [done|]. intros [E _]. by apply app_eq_nil in E as [_ ?]. }
  unfold cleaned. rewrite <- andb_assoc, Hcond. destruct (deleted v && bool_decide (pre = [] /\ post = [])) eqn:E; [|done].
  apply andb_true_iff in E as [_ [-> ->]%bool_decide_eq_true]. unfold map_DropEntry. change ((get ≫= ?f) m1) with (f m1 m1). cbv beta.
  unfold map_GetEntry, m1, c'. cbn [with_entries entries app]. rewrite Hkv, lookup_insert_eq. unfold remove. cbn [List.filter]. rewrite Nat.eqb_refl. cbn.
  unfold with_entries. cbn. by rewrite delete_insert_eq.
Qed.

(** [v] is committed: with all entries above it but those of the transaction, it stays. *)
Lemma cleanup_split c id own top comm pre (v q : entry) post :
  CatalogHistory.split_of c id own top comm -> c = pre ++ v :: q :: post -> timestamp v < TRANSACTION_ID_START ->
  exists pre', pre = own ++ pre' /\ top :: comm = pre' ++ v :: q :: post.
Proof.
  intros [-> Hid Ho Hc] E Hv. revert pre E. induction own as [|e own IH]; intros pre E.
  - exists pre. by split.
  - apply Forall_cons_1 in Ho as [He Ho]. destruct pre as [|e' pre]; injection E as -> E; [lia|].
    destruct (IH Ho pre E) as (pre' & -> & E'). by exists pre'.
Qed.

Lemma cleaned_split c id own top comm pre (v q : entry) post :
  CatalogHistory.split_of c id own top comm -> c = pre ++ v :: q :: post -> timestamp v < TRANSACTION_ID_START ->
  exists comm', CatalogHistory.split_of (pre ++ v :: post) id own top comm'
    /\ forall start, timestamp v < start -> CatalogHistory.asof start (top :: comm') = CatalogHistory.asof start (top :: comm).
Proof.
  intros Hsp E Hv. destruct (cleanup_split c id own top comm pre v q post Hsp E Hv) as (pre' & -> & E').
  destruct Hsp as [_ Hid Ho Hc]. rewrite E' in Hc. apply Forall_app in Hc as [Hpre Hc]. apply Forall_cons_1 in Hc as [_ Hc].
  apply Forall_cons_1 in Hc as [_ Hc]. rewrite <- app_assoc.
  assert (forall start pre1, timestamp v < start ->
    CatalogHistory.asof start (pre1 ++ v :: post) = CatalogHistory.asof start (pre1 ++ v :: q :: post)) as Hasof.
  { intros start pre1 Hst. induction pre1 as [|e pre1 IH]; cbn [app].
    - by rewrite !CatalogHistory.asof_old.
    - destruct (Z.lt_ge_cases (timestamp e) start); [by rewrite !CatalogHistory.asof_old|].
      rewrite !CatalogHistory.asof_new; [apply IH|done| |done|]; by intros [_ ?]%app_eq_nil. }
  destruct pre' as [|e pre']; injection E' as <- ->.
  - exists post. split; [split; [done|done|done|by constructor]|]. intros start Hst. apply (Hasof start [] Hst).
  - exists (pre' ++ v :: post). split; [split; [done|done|done|]|].
    + apply Forall_cons_1 in Hpre as [He Hpre]. constructor; [done|]. apply Forall_app. split; [done|by constructor].
    + intros start Hst. apply (Hasof start (top :: pre') Hst).
Qed.

Lemma cleaned_inv k pre v q post m :
  inv m -> entries m !! k = Some (pre ++ v :: q :: post) -> timestamp v < TRANSACTION_ID_START -> inv (cleaned k pre v post m).
Proof.
  intros Hi Hk Hv. pose proof (i_versions _ Hi k _ Hk) as Hver.
  assert (versions (pre ++ v :: post)) as Hver'.
  { destruct (CatalogHistory.versions_split _ Hver) as (id & own & top & comm & Hsp).
    destruct (cleaned_split _ id own top comm pre v q post Hsp eq_refl Hv) as (comm' & [E H1 H2 H3] & _). split.
    - exists id, own, (top :: comm'). by split.
    - apply (nodup_mid pre v q post), Hver.
    - destruct Hver as [_ _ Hd]. intros pre1 e post1 E1 Hty. symmetry in E1. apply app_eq_app in E1 as (l & [[-> E1]|[-> E1]]).
      + destruct l as [|x l]; [injection E1 as <- <-|injection E1 as <- ->].
        * by destruct (Hd pre v (q :: post) eq_refl Hty) as (_ & ? & _).
        * destruct (Hd (pre ++ v :: q :: l) e post1) as (_ & ? & ?); [by rewrite <- app_assoc|done|]. split; [|done]. by intros [_ ?]%app_eq_nil.
      + destruct l as [|x l]; [injection E1 as -> ->|injection E1 as <- ->].
        * destruct (Hd (pre1 ++ []) v (q :: post) eq_refl Hty) as (_ & ? & _). done.
        * destruct (Hd pre1 e (l ++ v :: q :: post)) as (_ & E0 & _); [by rewrite <- app_assoc|done|]. by apply app_eq_nil in E0 as [_ ?]. }
  assert (forall k' c, entries (cleaned k pre v post m) !! k' = Some c ->
    k' = k /\ c = pre ++ v :: post \/ entries m !! k' = Some c) as Hlook.
  { intros k' c. unfold cleaned. destruct (_ && _); cbn.
    - destruct (decide (k' = k)) as [->|]; [by rewrite lookup_delete_eq|rewrite lookup_delete_ne by done; by right].
    - destruct (decide (k' = k)) as [->|]; [rewrite lookup_insert_eq; intros [= <-]; by left|rewrite lookup_insert_ne by done; by right]. }
  split.
  - intros k' c [[-> ->]|Hc]%Hlook; [done|by apply (i_versions _ Hi k')].
  - intros k' c e [[-> ->]|Hc]%Hlook He; [|by apply (i_names _ Hi k' c)]. apply (i_names _ Hi k _ e Hk). set_solver.
  - apply Hi.
Qed.

Lemma abs_cleaned lowest lowest' k pre v q post m σ :
  inv m -> entries m !! k = Some (pre ++ v :: q :: post) -> 0 <= lowest <= lowest' -> lowest' <= TRANSACTION_ID_START -> timestamp v < lowest' ->
  abs lowest m σ -> abs lowest' (cleaned k pre v post m) σ.
Proof.
  intros Hi Hk Hl Hmax Hv Ha k'. specialize (Ha k').
  assert (k' <> k -> entries (cleaned k pre v post m) !! k' = entries m !! k') as Hne.
  { intros E. unfold cleaned. destruct (_ && _); cbn; [by rewrite lookup_delete_ne|by rewrite lookup_insert_ne]. }
  destruct (decide (k' = k)) as [->|E].
  - rewrite Hk in Ha. destruct Ha as (id & own & top & comm & Hsp & Hp & Hc).
    destruct (cleaned_split _ id own top comm pre v q post Hsp eq_refl) as (comm' & Hsp' & Has); [lia|].
    unfold cleaned. destruct (deleted v && bool_decide (pre = [] /\ post = [])) eqn:Ed; cbn.
    + rewrite lookup_delete_eq. apply andb_true_iff in Ed as [Hdel [-> ->]%bool_decide_eq_true].
      destruct Hsp' as [E' _ _ _]. destruct own as [|? own]; injection E' as -> E'; [|by apply (f_equal length) in E'; rewrite length_app in E'; cbn in E'; lia].
      split; [done|]. intros start Hst. destruct (Hc start) as [-> ->]; [lia|]. rewrite CatalogHistory.asof_old by lia.
      unfold CatalogHistory.value. rewrite Hdel. split; [done|]. apply Z.ltb_ge. lia.
    + rewrite lookup_insert_eq. exists id, own, top, comm'. split; [done|]. split; [done|]. intros start Hst.
      destruct (Hc start) as [-> ->]; [lia|]. split; [|done]. symmetry. apply Has. lia.
  - rewrite Hne by done. destruct (entries m !! k') as [c|].
    + destruct Ha as (id & own & top & comm & Hsp & Hp & Hc). exists id, own, top, comm. split; [done|]. split; [done|].
      intros start Hst. apply Hc. lia.
    + destruct Ha as [Hp Hc]. split; [done|]. intros start Hst. apply Hc. lia.
Qed.

Lemma framed_cleaned id k pre v q post m k' :
  TRANSACTION_ID_START <= id -> inv m -> entries m !! k = Some (pre ++ v :: q :: post) -> timestamp v < TRANSACTION_ID_START ->
  framed id (entries m !! k') (entries (cleaned k pre v post m) !! k').
Proof.
  intros Hid Hi Hk Hv. destruct (decide (k' = k)) as [->|Hne].
  - rewrite Hk. destruct (CatalogHistory.versions_split _ (i_versions _ Hi k _ Hk)) as (id' & own & top & comm & Hsp).
    destruct (cleaned_split _ id' own top comm pre v q post Hsp eq_refl Hv) as (comm' & Hsp' & _).
    pose proof (split_ne _ _ _ _ _ id Hsp Hid) as Htop. destruct Hsp as [E Hid' Ho Hc]. destruct Hsp' as [E' _ _ _].
    unfold cleaned. destruct (deleted v && bool_decide (pre = [] /\ post = [])) eqn:Ed; cbn.
    + rewrite lookup_delete_eq. apply andb_true_iff in Ed as [_ [-> ->]%bool_decide_eq_true]. left. split; [|done].
      intros v' c [= <- _]. lia.
    + rewrite lookup_insert_eq, E, E'. destruct (decide (own <> [] /\ id' = id)) as [[Hown ->]|Hn].
      * right. by exists own, top, comm, comm'.
      * left. destruct own as [|e own]; [split; by intros ? ? [= <- _]|]. apply Forall_cons_1 in Ho as [He _].
        split; intros v' c [= <- _]; rewrite He; intros ->; by apply Hn.
  - unfold cleaned. destruct (_ && _); cbn; [rewrite lookup_delete_ne by done|rewrite lookup_insert_ne by done];
      (apply framed_refl; [done|]; intros c Hc; by apply (i_versions _ Hi k')).
Qed.

End undo.
End CatalogUndo.
