(* ===== verification/CatalogRun.v ===== *)
(** * Runs of a catalog set

    A [world] is a catalog set with the undo entries of the transactions that change it.  Its steps are
    the operations of CatalogSet.v, the commit of all undo entries of a transaction, a commit that fails
    and is rolled back, a rollback, the cleanup of an old version, and entries that are created as
    committed.  Each step does on the set what the specification of CatalogHistory.v does on the cells. *)

From Stdlib Require Import Ascii String.
From stdpp Require Import gmap strings sorting.
From S2P Require Import Prelude ChunkInfo CatalogSet CatalogHistory CatalogUndo.

Module CatalogRun.
Import CatalogSet CatalogUndo.
Abbreviation reader := CatalogHistory.reader.
Abbreviation abs := CatalogHistory.abs.

Section runs.
Context {X : Type}.
Context (IsSystemCatalog IsTemporaryCatalog : bool).
Abbreviation entry := (CatalogEntry X).
Abbreviation chain := (list (CatalogEntry X)).
Abbreviation state := (t X * list nat)%type.
Abbreviation changes T := (rtc (change T)).
Abbreviation db := (string -> CatalogHistory.cell (X := X)).
Implicit Types (e q qe ve : entry) (c : chain) (m : t X) (T : CatalogTransaction) (d : EntryData X) (s : string) (p : nat) (σ : db).

(** ** The operations *)

Inductive op : Type :=
| OpCreate (d : EntryData X) (add_object : result unit)
| OpDrop (s : string) (allow_drop_internal : bool) (drop_object : result unit)
| OpAlter (s : string) (alter : EntryData X -> result (option (EntryData X))) (allow_internal : bool) (alter_object : result unit).
Implicit Types (o : op).

Definition run_op T o : ST state bool :=
  match o with
  | OpCreate d add_object => CreateEntry IsSystemCatalog IsTemporaryCatalog T (name d) d add_object
  | OpDrop s allow_drop_internal drop_object => DropEntry T s allow_drop_internal drop_object
  | OpAlter s alter allow_internal alter_object => AlterEntry T s alter allow_internal alter_object
  end.

Definition spec_op T o : ST db bool :=
  match o with
  | OpCreate d add_object => CatalogHistory.spec_CreateEntry IsSystemCatalog IsTemporaryCatalog T d add_object
  | OpDrop s allow_drop_internal drop_object => CatalogHistory.spec_DropEntry T s allow_drop_internal drop_object
  | OpAlter s alter allow_internal alter_object => CatalogHistory.spec_AlterEntry T s alter allow_internal alter_object
  end.

(** Objects have the type of an object, not that of a dummy. *)
Definition op_ok o : Prop :=
  match o with
  | OpCreate d _ => type d <> INVALID
  | OpDrop _ _ _ => True
  | OpAlter _ alter _ _ => forall d d', alter d = Ok (Some d') -> type d' <> INVALID
  end.

Lemma op_refines lowest T o : transaction T = true -> op_ok o -> CatalogHistory.refines lowest T (run_op T o) (spec_op T o).
Proof.
  intros Htr Ho. destruct o; [by apply CatalogHistory.CreateEntry_refines|by apply CatalogHistory.DropEntry_refines|by apply CatalogHistory.AlterEntry_refines].
Qed.

Definition spec_committed d σ : db := fun k =>
  if decide (k = key (name d)) then CatalogHistory.mkCell None (fun _ => Some d) 0 else σ k.

Lemma CreateCommittedEntry_run lowest d m σ :
  inv m -> 0 <= lowest -> abs lowest m σ -> type d <> INVALID ->
  if bool_decide (entries m !! key (name d) = None) then
    CreateCommittedEntry d m = (set_chain (name d) [mkEntry (next_oid m) d false 0] (alloc d m), Ok (Some (next_oid m)))
    /\ inv (set_chain (name d) [mkEntry (next_oid m) d false 0] (alloc d m))
    /\ abs lowest (set_chain (name d) [mkEntry (next_oid m) d false 0] (alloc d m)) (spec_committed d σ)
  else CreateCommittedEntry d m = (m, Ok None).
Proof.
  intros Hi Hl Ha Hty. unfold CreateCommittedEntry. change ((get ≫= ?f) m) with (f m m). cbv beta. unfold map_GetEntry.
  destruct (entries m !! key (name d)) as [c|] eqn:Hk; [done|]. cbn [bool_decide decide_rel]. rewrite bool_decide_eq_true_2 by done.
  rewrite (ST_bind_Ok _ _ _ _ _ (new_entry_eq d false 0 m)). split; [|split].
  - unfold AddEntry, mbind, ST_bind, get, map_GetEntry. cbn [data alloc entries]. by rewrite Hk.
  - pose proof (alloc_inv d m Hi) as Hi'. split; cbn [set_chain with_entries entries names next_oid].
    + intros k c. destruct (decide (k = key (name d))) as [->|Hne]; [rewrite lookup_insert_eq; intros [= <-]|rewrite lookup_insert_ne by done; apply Hi'].
      split; [|by apply NoDup_singleton|].
      * exists TRANSACTION_ID_START, [], [mkEntry (next_oid m) d false 0]. split; [done|]. split; [done|]. split; [lia|]. split; [done|].
        by apply Forall_singleton.
      * intros pre e post E He. destruct pre as [|x pre]; [by injection E as <- _|]. injection E as _ E. by apply app_cons_not_nil in E.
    + intros k c e. destruct (decide (k = key (name d))) as [->|Hne]; [rewrite lookup_insert_eq; intros [= <-] ->%list_elem_of_singleton|rewrite lookup_insert_ne by done; apply Hi'].
      cbn. by rewrite lookup_insert_eq.
    + apply Hi'.
  - intros k. cbn. unfold spec_committed. destruct (decide (k = key (name d))) as [->|Hne]; [|rewrite lookup_insert_ne by done; apply Ha].
    rewrite lookup_insert_eq. exists TRANSACTION_ID_START, [], (mkEntry (next_oid m) d false 0), []. split; [|by split].
    split; [done|lia|done|by apply Forall_singleton].
Qed.

(** ** Worlds *)

Record world : Type := mkWorld {
  set : t X;
  undo : gmap Z (list nat);
  lowest : Z
}.

Definition undo_of (id : Z) (w : world) : list nat := default [] (undo w !! id).

Inductive event : Type :=
| ERun (T : CatalogTransaction) (o : op) (r : result bool)
| ECommit (id cid : Z)
| ERollback (id : Z) (r : result unit)
| ECleanup (r : result unit)
| ECommitted (d : EntryData X) (r : result (option nat)).

(** [n] is the number of entries that a failed commit reverts before the rollback. *)
Inductive step w : event -> world -> Prop :=
| step_run T o m undo' r :
    transaction T = true -> reader (lowest w) (set w) T -> op_ok o ->
    run_op T o (set w, undo_of (transaction_id T) w) = ((m, undo'), r) ->
    step w (ERun T o r) (mkWorld m (<[transaction_id T := undo']> (undo w)) (lowest w))
| step_commit id cid verify m :
    TRANSACTION_ID_START <= id -> cid < TRANSACTION_ID_START ->
    commit_all verify cid (undo_of id w) (set w) = (m, Ok tt) ->
    step w (ECommit id cid) (mkWorld m (<[id := []]> (undo w)) (lowest w))
| step_failed id cid verify m ex n m' r :
    TRANSACTION_ID_START <= id -> Forall (same_name (set w)) (undo_of id w) ->
    commit_all verify cid (undo_of id w) (set w) = (m, Throw ex) ->
    (revert_all id (take n (undo_of id w));; undo_all (rev (undo_of id w))) m = (m', r) ->
    step w (ERollback id r) (mkWorld m' (<[id := []]> (undo w)) (lowest w))
| step_rollback id m r :
    TRANSACTION_ID_START <= id ->
    undo_all (rev (undo_of id w)) (set w) = (m, r) ->
    step w (ERollback id r) (mkWorld m (<[id := []]> (undo w)) (lowest w))
| step_cleanup p v lowest' m r :
    Parent p (set w) = Some v -> timestamp v < lowest' -> lowest w <= lowest' <= TRANSACTION_ID_START ->
    CleanupEntry p (set w) = (m, r) ->
    step w (ECleanup r) (mkWorld m (undo w) lowest')
| step_committed d m r :
    type d <> INVALID -> CreateCommittedEntry d (set w) = (m, r) ->
    step w (ECommitted d r) (mkWorld m (undo w) (lowest w)).

Definition empty_world : world := mkWorld (mk ∅ ∅ 0) ∅ 0.

Inductive steps : world -> list event -> world -> Prop :=
| steps_nil w : steps w [] w
| steps_cons w1 ev w2 evs w3 : step w1 ev w2 -> steps w2 evs w3 -> steps w1 (ev :: evs) w3.

(** What the specification does in a step. *)
Definition spec_step (ev : event) σ σ' : Prop :=
  match ev with
  | ERun T o r => spec_op T o σ = (σ', r)
  | ECommit id cid => σ' = CatalogHistory.commit id cid σ
  | ERollback id r => r = Ok tt /\ σ' = CatalogHistory.rollback id σ
  | ECleanup r => r = Ok tt /\ σ' = σ
  | ECommitted d r => r = Ok None /\ σ' = σ \/ (exists p, r = Ok (Some p)) /\ σ' = spec_committed d σ
  end.

Inductive spec_steps : db -> list event -> db -> Prop :=
| spec_nil σ : spec_steps σ [] σ
| spec_cons σ1 ev σ2 evs σ3 : spec_step ev σ1 σ2 -> spec_steps σ2 evs σ3 -> spec_steps σ1 (ev :: evs) σ3.

Record matches w σ : Prop := {
  w_inv : inv (set w);
  w_stacked : forall id, TRANSACTION_ID_START <= id -> stacked id (rev (undo_of id w)) (entries (set w));
  w_abs : abs (lowest w) (set w) σ;
  w_lowest : 0 <= lowest w <= TRANSACTION_ID_START
}.

Lemma undo_of_insert id ps (w : world) m l id' :
  undo_of id' (mkWorld m (<[id := ps]> (undo w)) l) = if decide (id' = id) then ps else undo_of id' w.
Proof.
  unfold undo_of. cbn. destruct (decide (id' = id)) as [->|Hne]; [by rewrite lookup_insert_eq|by rewrite lookup_insert_ne].
Qed.

(** The undo entries of a transaction are gone when none of its versions is on top of a chain. *)
Lemma stacked_done w m id l :
  TRANSACTION_ID_START <= id ->
  (forall id', TRANSACTION_ID_START <= id' -> stacked id' (rev (undo_of id' w)) (entries (set w))) ->
  (forall k, no_top id (entries m !! k)) ->
  (forall id' k, TRANSACTION_ID_START <= id' -> id' <> id -> framed id' (entries (set w) !! k) (entries m !! k)) ->
  forall id', TRANSACTION_ID_START <= id' ->
    stacked id' (rev (undo_of id' (mkWorld m (<[id := []]> (undo w)) l))) (entries m).
Proof.
  intros Hid Hs Hn Hf id' Hid'. rewrite undo_of_insert. destruct (decide (id' = id)) as [->|Hne]; [done|].
  eapply stacked_framed; [by apply Hs|]. intros k. by apply Hf.
Qed.

Lemma rollback_matches w σ id m :
  matches w σ -> TRANSACTION_ID_START <= id -> inv m -> (forall k, entries m !! k = base_of id (entries (set w) !! k)) ->
  matches (mkWorld m (<[id := []]> (undo w)) (lowest w)) (CatalogHistory.rollback id σ).
Proof.
  intros [Hi Hs Ha Hl] Hid Him Hb. split; cbn [set lowest]; [done| | |done].
  - apply stacked_done; [done|done| |].
    + intros k. rewrite Hb. by apply no_top_base.
    + intros id' k Hid' Hne. rewrite Hb. by apply framed_base.
  - apply (abs_rollback (lowest w) id (set w)); [done|apply Hl|done|done|done].
Qed.

Lemma step_matches w ev w' σ : matches w σ -> step w ev w' -> exists σ', spec_step ev σ σ' /\ matches w' σ'.
Proof.
  intros Hm Hstep. pose proof Hm as [Hi Hs Ha Hl].
  destruct Hstep as [T o m undo' r Htr Hr Ho E|id cid verify m Hid Hcid E|id cid verify m ex n m' r Hid Hn E E'|id m r Hid E
                    |p v lowest' m r Hp Hv Hlow E|d m r Hty E].
  - destruct (op_refines (lowest w) T o Htr Ho (set w) (undo_of (transaction_id T) w) σ Hi Hr Ha) as (w2 & σ' & r' & E1 & E2 & [H1 H2 H3 H4]).
    rewrite E in E1. injection E1 as <- <-. exists σ'. split; [done|]. split; cbn [set lowest fst snd] in *; [done| |done|done].
    intros id Hid. rewrite undo_of_insert.
    pose proof (changes_stacked T _ _ id (rev (undo_of id w)) (CatalogHistory.d_running _ _ _ Hr) Hid H1 Hi) as Hch. cbn [fst snd] in Hch.
    destruct (decide (id = transaction_id T)) as [->|Hne]; apply Hch, Hs, Hid.
  - exists (CatalogHistory.commit id cid σ). split; [done|]. apply (commit_settles verify id cid) in E; [|done|done|by apply Hs]. subst m.
    split; cbn [set lowest]; [by apply settle_inv| |by apply abs_commit|done].
    apply stacked_done; [done|done| |].
    + intros k. rewrite lookup_map_set. destruct (entries (set w) !! k) as [c|]; [|done]. by apply no_top_settle.
    + intros id' k Hid' Hne. by apply framed_settle.
  - destruct (failed_commit verify cid id (undo_of id w) n (set w) m ex) as (m2 & E2 & Him & Hb); [done|done|by apply Hs|done|done|].
    rewrite E' in E2. injection E2 as -> ->. exists (CatalogHistory.rollback id σ). split; [done|]. by apply rollback_matches.
  - destruct (undo_all_run id (rev (undo_of id w)) (set w) Hid Hi (Hs id Hid)) as (m2 & E2 & Him & Hb).
    rewrite E in E2. injection E2 as -> ->. exists (CatalogHistory.rollback id σ). split; [done|]. by apply rollback_matches.
  - destruct (CleanupEntry_run p v (set w) Hi Hp) as (k & pre & q & post & Hk & _ & E2). rewrite E in E2. injection E2 as -> ->.
    exists σ. split; [done|]. assert (timestamp v < TRANSACTION_ID_START) as Hv' by lia.
    split; cbn [set lowest]; [by eapply cleaned_inv| | |lia].
    + intros id Hid. eapply stacked_framed; [by apply Hs|]. intros k'. by eapply framed_cleaned.
    + eapply abs_cleaned; [done|done| | | |done]; lia.
  - pose proof (CreateCommittedEntry_run (lowest w) d (set w) σ Hi (proj1 Hl) Ha Hty) as Hc.
    destruct (bool_decide_reflect (entries (set w) !! key (name d) = None)) as [Hk|Hk].
    + destruct Hc as (E2 & Hi2 & Ha2). rewrite E in E2. injection E2 as -> ->. exists (spec_committed d σ). split; [right; split; [by eexists|done]|].
      split; cbn [set lowest]; [done| |done|done]. intros id Hid. eapply stacked_framed; [by apply Hs|]. intros k. cbn.
      destruct (decide (k = key (name d))) as [->|Hne].
      * rewrite lookup_insert_eq, Hk. left. split; [done|]. intros v c [= <- _]. cbn. by apply id_ne_0.
      * rewrite lookup_insert_ne by done. apply framed_refl; [done|]. intros c Hc. by apply (i_versions _ Hi k).
    + rewrite E in Hc. injection Hc as -> ->. exists σ. split; [by left|]. by split.
Qed.

Lemma empty_matches : matches empty_world CatalogHistory.empty_db.
Proof.
  split; cbn.
  - split; cbn.
    + intros k c. by rewrite lookup_empty.
    + intros k c e. by rewrite lookup_empty.
    + intros p s. by rewrite lookup_empty.
  - intros id _. unfold undo_of. cbn [undo empty_world]. rewrite lookup_empty. cbn. intros k. by rewrite lookup_empty.
  - intros k. cbn. rewrite lookup_empty. split; [done|]. intros start Hst. cbn. split; [done|]. apply Z.ltb_ge. lia.
  - done.
Qed.

Lemma steps_match w evs w' σ : matches w σ -> steps w evs w' -> exists σ', spec_steps σ evs σ' /\ matches w' σ'.
Proof.
  intros Hm H. revert σ Hm. induction H as [w|w1 ev w2 evs w3 H1 H2 IH]; intros σ Hm; [exists σ; by split; [constructor|]|].
  destruct (step_matches w1 ev w2 σ Hm H1) as (σ2 & Hs & Hm2). destruct (IH σ2 Hm2) as (σ3 & Hs3 & Hm3).
  exists σ3. split; [by econstructor|done].
Qed.


Lemma omap_elem T (l : list (string * chain)) e :
  e ∈ omap (fun '(_, c) => match GetEntryForTransaction T c with Some (e, _) => if deleted e then None else Some e | None => None end) l
  <-> exists k c, (k, c) ∈ l /\ seen T (Some c) = Some e.
Proof.
  rewrite list_elem_of_omap. split.
  - intros ([k c'] & Hin & He). by exists k, c'.
  - intros (k & c' & Hin & He). by exists (k, c').
Qed.

Lemma seen_member T c e : seen T (Some c) = Some e -> e ∈ c.
Proof.
  unfold seen. intros H. assert (exists b, GetEntryForTransaction T c = Some (e, b)) as [b Hb].
  { destruct (GetEntryForTransaction T c) as [[x b]|]; [|done]. destruct (deleted x); [done|]. injection H as ->. by exists b. }
  clear H. revert b Hb. induction c as [|x c IH]; [done|]. intros b. cbn [GetEntryForTransaction]. destruct c as [|y c].
  - intros [= -> _]. by left.
  - destruct (UseTimestamp T (timestamp x)); [intros [= -> _]; by left|]. intros Hb. right. by eapply IH.
Qed.

(** C22 A scan finds exactly the entries that the lookups of the same transaction find, and each name
    once. *)
Theorem catalog_scan_complete evs w T :
  steps empty_world evs w ->
  NoDup (map (fun e => key (name (data e))) (Scan T (set w)))
  /\ forall e, e ∈ Scan T (set w) <-> exists s, GetEntry T s (set w) = Some e.
Proof.
  intros H. destruct (steps_match _ _ _ _ empty_matches H) as (σ & _ & [Hi _ _ _]).
  assert (forall k c, (k, c) ∈ sorted_chains (set w) <-> entries (set w) !! k = Some c) as Hl.
  { intros k c. unfold sorted_chains. rewrite merge_sort_Permutation. apply elem_of_map_to_list. }
  split.
  - assert (NoDup (map fst (sorted_chains (set w)))) as Hnd.
    { unfold sorted_chains. rewrite merge_sort_Permutation. apply NoDup_fst_map_to_list. }
    assert (forall k c, (k, c) ∈ sorted_chains (set w) -> entries (set w) !! k = Some c) as Hl' by (intros; by apply Hl).
    unfold Scan. clear Hl. induction (sorted_chains (set w)) as [|[k c] l IH]; [constructor|]. cbn in Hnd. apply NoDup_cons in Hnd as [Hk Hnd].
    cbn [omap list_omap]. specialize (IH Hnd (fun k c Hin => Hl' k c (list_elem_of_further _ _ _ Hin))).
    destruct (match GetEntryForTransaction T c with Some (e, _) => if deleted e then None else Some e | None => None end) as [e|] eqn:E; [|exact IH].
    cbn [map]. apply NoDup_cons. split; [|exact IH]. intros (e' & Ek & He')%list_elem_of_fmap. apply omap_elem in He' as (k' & c' & Hin & He').
    apply Hk. apply list_elem_of_fmap. exists (k', c'). split; [cbn|done].
    pose proof (Hl' k c ltac:(by left)) as H1. pose proof (Hl' k' c' ltac:(by right)) as H2.
    destruct (i_names _ Hi k c e H1 (seen_member T c e E)) as [<- _]. by destruct (i_names _ Hi k' c' e' H2 (seen_member T c' e' He')) as [<- _].
  - intros e. unfold Scan. rewrite omap_elem. split.
    + intros (k & c & Hin%Hl & He). exists (name (data e)). destruct (i_names _ Hi k c e Hin (seen_member T c e He)) as [Hk _].
      change (view T (set w) (name (data e)) = Some e). by rewrite view_seen, Hk, Hin.
    + intros (s & Hs). change (view T (set w) s = Some e) in Hs. rewrite view_seen in Hs. destruct (entries (set w) !! key s) as [c|] eqn:Hk; [|done].
      exists (key s), c. by rewrite Hl.
Qed.

(** A commit that fails after it committed the entry: what it committed is reverted, then everything is undone. *)
Definition fail_after (id : Z) (entry : nat) := revert_all (X := X) id [entry];; undo_all [entry].

(** C23 A commit that fails after an entry got a new name that differs in case only: the revert gives the
    transaction's id to the old entry, too, and it keeps it after the rollback.  No other transaction
    can see the entry or change it any more. *)
Theorem case_rename_stuck id m k v q rest T s :
  inv m -> entries m !! k = Some (v :: q :: rest) -> type (data q) <> INVALID -> name (data q) <> name (data v) ->
  TRANSACTION_ID_START <= id -> running T -> transaction_id T <> id -> key s = k -> rest <> [] ->
  exists m', fail_after id (oid q) m = (m', Ok tt)
    /\ GetEntryInternal T s m' = (m', Throw TransactionException)
    /\ forall e, GetEntry T s m' = Some e -> oid e <> oid q.
Proof.
  intros Hi Hk Hty Hname Hid HT Hne <- Hrest. pose proof (inv_shaped m Hi) as Hs.
  assert (linked m (oid q) (oid v)) as Hl by (by exists (key s), [], v, q, rest).
  assert (q ∈ v :: q :: rest) as Hq by (right; left).
  assert (exists g, retimes [oid v; oid q] g /\ timestamp (g q) = id /\ RevertCatalogEntry id (oid q) m = (map_set g m, Ok tt)) as (g & Hg & Hts & E).
  { destruct (linked_spec m (oid q) (oid v) Hs Hl) as (k1 & c1 & qe & ve & Hk1 & Hqe & Hve & Hd & Hpar & Eq & Ev).
    destruct (oid_inj m k1 c1 qe (key s) _ q Hs Hk1 Hqe Hk Hq Eq) as [-> ->].
    destruct (oid_inj m (key s) c1 ve (key s) _ v Hs Hk1 Hve Hk ltac:(by left) Ev) as [-> _].
    exists (fun e => stamp (oid q) id (stamp (oid v) id e)). split; [|split].
    - apply retimes_compose; apply stamp_retimes; [right|]; by left.
    - unfold stamp at 1. assert (oid (stamp (oid v) id q) = oid q) as -> by (unfold stamp; by destruct (_ =? _)%nat). by rewrite Nat.eqb_refl.
    - unfold RevertCatalogEntry. change ((get ≫= ?f) m) with (f m m). cbv beta. rewrite Hd, Hpar.
      rewrite (proj2 (String.eqb_neq _ _) Hname). cbn [negb]. unfold mbind, ST_bind, modify.
      rewrite (stamp_linked m (oid q) (oid v) id Hs Hl). f_equal.
      assert (retimes (X := X) [oid v] (stamp (oid v) id)) as Hst by (apply stamp_retimes; by left).
      pose proof (UpdateTimestamp_stamp (map_set (stamp (oid v) id) m) (key s) (map (stamp (oid v) id) (v :: q :: rest)) (stamp (oid v) id q) id) as U.
      rewrite (g_oid _ _ Hst) in U. rewrite U.
      + by apply (map_set_compose [oid q]), stamp_retimes; left.
      + by eapply shaped_map.
      + by rewrite lookup_map_set, Hk.
      + apply list_elem_of_fmap. by exists q. }
  assert (fail_after id (oid q) m = (map_set g (Undo (oid q) m).1, (Undo (oid q) m).2)) as E2.
  { unfold fail_after. cbn [revert_all undo_all]. unfold mbind, ST_bind. rewrite E. unfold mret, ST_ret. rewrite (Undo_map _ _ Hg).
    rewrite (Undo_top m (key s) v q rest Hi Hk). done. }
  rewrite E2, (Undo_top m (key s) v q rest Hi Hk), bool_decide_eq_false_2 by done. cbn [fst snd]. eexists. split; [reflexivity|].
  pose proof (sh_nodup _ Hs _ _ Hk) as Hnd. cbn in Hnd. apply NoDup_cons in Hnd as [_ Hnd]. apply NoDup_cons in Hnd as [Hnq _].
  split; [|intros e He; change (view T (map_set g (with_entries (<[key s := q :: rest]> (entries m)) m)) s = Some e) in He].
  2:{ rewrite view_seen, lookup_map_set in He. cbn [with_entries entries] in He. rewrite lookup_insert_eq in He. cbn [fmap option_fmap option_map map] in He.
      unfold seen in He. rewrite get_push in He; [|by destruct rest|rewrite Hts; by apply other_timestamp].
      apply (seen_member T (map g rest)) in He. apply list_elem_of_fmap in He as (e0 & -> & He0). rewrite (g_oid _ _ Hg). intros E0.
      apply Hnq. rewrite <- E0. apply list_elem_of_fmap. by exists e0. }
  unfold GetEntryInternal. change ((get ≫= ?f) ?st) with (f st st). cbv beta. unfold map_GetEntry.
  rewrite lookup_map_set. cbn [with_entries entries]. rewrite lookup_insert_eq. cbn [fmap option_fmap option_map map]. rewrite Hts.
  unfold HasConflict, CreatedByOtherActiveTransaction. rewrite (proj2 (Z.leb_le _ _) Hid), (proj2 (Z.eqb_neq id _)) by (by intros ->). done.
Qed.

End runs.

(** ** A history *)

Definition run_world (T : CatalogTransaction) (o : op (X := nat)) (w : world (X := nat)) : world (X := nat) :=
  let '((m, u), _) := run_op (X := nat) false false T o (set w, undo_of (transaction_id T) w) in
  mkWorld m (<[transaction_id T := u]> (undo w)) (lowest w).

Definition commit_world (id cid : Z) (w : world (X := nat)) : world (X := nat) :=
  mkWorld (commit_all (fun _ _ => Ok tt) cid (undo_of id w) (set w)).1 (<[id := []]> (undo w)) (lowest w).

Definition rollback_world (id : Z) (w : world (X := nat)) : world (X := nat) :=
  mkWorld (undo_all (rev (undo_of id w)) (set w)).1 (<[id := []]> (undo w)) (lowest w).

Definition demo_T (n : nat) : CatalogTransaction := mkTransaction (TRANSACTION_ID_START + Z.of_nat n) (2 * Z.of_nat n) true.

Definition demo_table (s : string) (x : nat) : EntryData nat := mkData TABLE_ENTRY s false false (Some x).

(** The first transaction creates a table while a second one cannot, commits at 3; the third gives it
    another name, and is rolled back. *)
Definition demo_create : op (X := nat) := OpCreate (demo_table "foo" 7) (Ok tt).
Definition demo_rename (s : string) : op (X := nat) := OpAlter "foo" (fun d : EntryData nat => Ok (Some (mkData TABLE_ENTRY s false false (content d)))) false (Ok tt).
Definition demo_w1 : world (X := nat) := run_world (demo_T 1) demo_create empty_world.
Definition demo_w2 : world (X := nat) := run_world (demo_T 2) demo_create demo_w1.
Definition demo_w3 : world (X := nat) := commit_world (transaction_id (demo_T 1)) 3 demo_w2.
Definition demo_w4 : world (X := nat) := run_world (demo_T 3) (demo_rename "bar") demo_w3.
Definition demo_w5 : world (X := nat) := rollback_world (transaction_id (demo_T 3)) demo_w4.
Definition demo_events : list (event (X := nat)) :=
  [ERun (demo_T 1) demo_create (Ok true); ERun (demo_T 2) demo_create (Throw TransactionException);
   ECommit (transaction_id (demo_T 1)) 3; ERun (demo_T 3) (demo_rename "bar") (Ok true); ERollback (transaction_id (demo_T 3)) (Ok tt)].

Definition demo_case : world (X := nat) := run_world (demo_T 3) (demo_rename "FOO") demo_w3.

Lemma reader_intro {X} low (m : t X) T :
  bool_decide (TRANSACTION_ID_START <= transaction_id T /\ 0 < start_time T < TRANSACTION_ID_START) = true ->
  bool_decide (0 <= low <= start_time T) = true ->
  bool_decide (map_Forall (fun _ c => Forall (fun e => timestamp e <> start_time T) c) (entries m)) = true -> reader low m T.
Proof.
  intros H1%bool_decide_eq_true H2%bool_decide_eq_true H3%bool_decide_eq_true. split; [done|done|].
  intros k c e Hk He. by apply (proj1 (Forall_forall _ _) (H3 k c Hk)).
Qed.

Lemma demo_run T o r (w : world (X := nat)) :
  transaction T = true -> reader (lowest w) (set w) T -> op_ok o ->
  (run_op (X := nat) false false T o (set w, undo_of (transaction_id T) w)).2 = r -> step false false w (ERun T o r) (run_world T o w).
Proof.
  intros H1 H2 H3 H4. unfold run_world. destruct (run_op false false T o (set w, undo_of (transaction_id T) w)) as [[m u] r'] eqn:E.
  cbn in H4. subst r'. by apply step_run.
Qed.

Lemma demo_steps : steps false false empty_world demo_events demo_w5.
Proof.
  eapply steps_cons; [apply demo_run; [done|by apply reader_intro; vm_compute|done|by vm_compute]|].
  eapply steps_cons; [apply demo_run; [done|by apply reader_intro; vm_compute|done|by vm_compute]|].
  eapply steps_cons; [apply (step_commit _ _ _ _ _ (fun _ _ => Ok tt)); [by vm_compute|by vm_compute|by vm_compute]|].
  eapply steps_cons; [apply demo_run; [done|by apply reader_intro; vm_compute|by intros d d' [= <-]|by vm_compute]|].
  eapply steps_cons; [apply step_rollback; [by vm_compute|by vm_compute]|]. constructor.
Qed.


Lemma catalog_scan_complete_witness :
  Scan (demo_T 4) (set demo_w5) = [mkEntry 0 (demo_table "foo" 7) false 3]
  /\ (NoDup (map (fun e => key (name (data e))) (Scan (demo_T 4) (set demo_w5)))
     /\ forall e, e ∈ Scan (demo_T 4) (set demo_w5) <-> exists s, GetEntry (demo_T 4) s (set demo_w5) = Some e).
Proof. split; [by vm_compute|]. apply (catalog_scan_complete false false demo_events demo_w5 (demo_T 4) demo_steps). Defined.

(** The third transaction writes the name in capitals, and its commit at 9 is reverted. *)
Definition demo_committed : world (X := nat) := commit_world (transaction_id (demo_T 3)) 9 demo_case.

Lemma demo_committed_inv : inv (set demo_committed).
Proof.
  assert (exists evs, steps false false empty_world evs demo_committed) as [evs H].
  { exists [ERun (demo_T 1) demo_create (Ok true); ERun (demo_T 2) demo_create (Throw TransactionException);
      ECommit (transaction_id (demo_T 1)) 3; ERun (demo_T 3) (demo_rename "FOO") (Ok true); ECommit (transaction_id (demo_T 3)) 9].
    eapply steps_cons; [apply demo_run; [done|by apply reader_intro; vm_compute|done|by vm_compute]|].
    eapply steps_cons; [apply demo_run; [done|by apply reader_intro; vm_compute|done|by vm_compute]|].
    eapply steps_cons; [apply (step_commit _ _ _ _ _ (fun _ _ => Ok tt)); [by vm_compute|by vm_compute|by vm_compute]|].
    eapply steps_cons; [apply demo_run; [done|by apply reader_intro; vm_compute|by intros d d' [= <-]|by vm_compute]|].
    eapply steps_cons; [apply (step_commit _ _ _ _ _ (fun _ _ => Ok tt)); [by vm_compute|by vm_compute|by vm_compute]|]. constructor. }
  destruct (steps_match false false _ _ _ _ empty_matches H) as (σ & _ & Hm). apply Hm.
Qed.

Lemma case_rename_stuck_witness :
  exists v q rest, entries (set demo_committed) !! "FOO"%string = Some (v :: q :: rest) /\ name (data q) = "foo"%string
    /\ exists m', fail_after (transaction_id (demo_T 3)) (oid q) (set demo_committed) = (m', Ok tt)
      /\ GetEntryInternal (demo_T 6) "foo" m' = (m', Throw TransactionException)
      /\ forall e, GetEntry (demo_T 6) "foo" m' = Some e -> oid e <> oid q.
Proof.
  exists (mkEntry 3 (demo_table "FOO" 7) false 9), (mkEntry 0 (demo_table "foo" 7) false 3),
    [mkEntry 1 (mkData INVALID "foo" false false None) true 0].
  split; [by vm_compute|]. split; [done|].
  apply (case_rename_stuck (transaction_id (demo_T 3)) (set demo_committed) "FOO"%string
    (mkEntry 3 (demo_table "FOO" 7) false 9) (mkEntry 0 (demo_table "foo" 7) false 3)
    [mkEntry 1 (mkData INVALID "foo" false false None) true 0] (demo_T 6) "foo"%string demo_committed_inv);
    [by vm_compute|done|done|by vm_compute|by split; vm_compute|by vm_compute|by vm_compute|done].
Defined.

End CatalogRun.
