(* ===== verification/RowVersionManager.v ===== *)
(** * Version information of a row group

    Models src/src/storage/table/row_version_manager.cpp: one optional [ChunkInfo] per vector of
    a row group, the operations transactions apply to ranges of rows (append, commit, revert,
    delete, cleanup) and the checkpoint format.  The abstract view of a row group is the pair of
    an insert and a delete id per row ([row_ids]); the theorems state every operation as an
    effect on that view.

    [storage_pointers] is represented by the bytes the metadata blocks it names hold, so that
    [MetadataWriter] and [MetadataReader] are byte streams; the empty stream is the invalid
    pointer.  The version lock makes every operation atomic. *)

From S2P Require Import Prelude ValidityMask ChunkInfo.
Import ChunkInfo.

Module RowVersionManager.

Record t : Type := mk {
  start : Z;
  vector_info : list (option ChunkInfo.t);
  has_unserialized_changes : bool;
  storage_pointers : list Z
}.

Definition new_manager (start : Z) : t := mk start [] false [].

Definition set_vectors (m : t) (vs : list (option ChunkInfo.t)) : t :=
  mk (start m) vs (has_unserialized_changes m) (storage_pointers m).

Definition mark_changed (m : t) (b : bool) : t :=
  mk (start m) (vector_info m) (b || has_unserialized_changes m) (storage_pointers m).

Definition vector_start (s : Z) (vector_idx : nat) : Z :=
  wrapU 64 (s + Z.of_nat vector_idx * Z.of_nat STANDARD_VECTOR_SIZE).

Definition SetStart (m : t) (new_start : Z) : t :=
  mk new_start
     (imap (fun i info => (fun c => ChunkInfo.set_start c (vector_start new_start i)) <$> info)
           (vector_info m))
     (has_unserialized_changes m) (storage_pointers m).

(** The null pointer, for an index out of range as for an empty slot. *)
Definition GetChunkInfo (m : t) (vector_idx : nat) : option ChunkInfo.t :=
  match vector_info m !! vector_idx with Some info => info | None => None end.

(** [for (r = 0, i = 0; r < count; r += STANDARD_VECTOR_SIZE, i++)]. *)
Definition vector_count (count : nat) : nat :=
  ((count + (STANDARD_VECTOR_SIZE - 1)) / STANDARD_VECTOR_SIZE)%nat.

Definition GetCommittedDeletedCount (m : t) (count : nat) : nat :=
  fold_left (fun deleted_count i =>
               match GetChunkInfo m i with
               | None => deleted_count
               | Some info =>
                   let max_count := Nat.min STANDARD_VECTOR_SIZE (count - i * STANDARD_VECTOR_SIZE) in
                   (deleted_count + ChunkInfo.GetCommittedDeletedCount info max_count)%nat
               end)
            (seq 0 (vector_count count)) 0%nat.

Definition GetSelVector (m : t) (transaction : TransactionData) (vector_idx : nat) (sel : list nat)
    (max_count : nat) : nat * list nat :=
  match GetChunkInfo m vector_idx with
  | None => (max_count, sel)
  | Some info => ChunkInfo.GetSelVector info transaction sel max_count
  end.

Definition GetCommittedSelVector (m : t) (start_time transaction_id : Z) (vector_idx : nat)
    (sel : list nat) (max_count : nat) : nat * list nat :=
  match GetChunkInfo m vector_idx with
  | None => (max_count, sel)
  | Some info => ChunkInfo.GetCommittedSelVector info start_time transaction_id sel max_count
  end.

Definition Fetch (m : t) (transaction : TransactionData) (row : nat) : bool :=
  let vector_index := (row / STANDARD_VECTOR_SIZE)%nat in
  match GetChunkInfo m vector_index with
  | None => true
  | Some info => ChunkInfo.Fetch info transaction (row - vector_index * STANDARD_VECTOR_SIZE)
  end.

Definition FillVectorInfo (m : t) (vector_idx : nat) : t :=
  if (vector_idx <? length (vector_info m))%nat then m
  else set_vectors m (vector_info m ++ replicate (S vector_idx - length (vector_info m)) None).

(** A loop over vectors.  [f] maps the slot (absent when out of range) to its new content and
    says whether the step sets [has_unserialized_changes]; an exception ends the loop and keeps
    what earlier steps did. *)
Fixpoint for_vectors (f : nat -> option (option ChunkInfo.t) -> result (option ChunkInfo.t * bool))
    (idxs : list nat) (m : t) : t * result unit :=
  match idxs with
  | [] => (m, Ok tt)
  | i :: idxs =>
      match f i (vector_info m !! i) with
      | Throw e => (m, Throw e)
      | Ok (info, b) =>
          for_vectors f idxs (mark_changed (set_vectors m (<[i := info]> (vector_info m))) b)
      end
  end.

(** The part of vector [vector_idx] that the rows [row_group_start, row_group_end) cover. *)
Definition range_start (row_group_start vector_idx : nat) : nat :=
  let start_vector_idx := (row_group_start / STANDARD_VECTOR_SIZE)%nat in
  if (vector_idx =? start_vector_idx)%nat
  then row_group_start - start_vector_idx * STANDARD_VECTOR_SIZE else 0%nat.

Definition range_end (row_group_end vector_idx : nat) : nat :=
  let end_vector_idx := ((row_group_end - 1) / STANDARD_VECTOR_SIZE)%nat in
  if (vector_idx =? end_vector_idx)%nat
  then row_group_end - end_vector_idx * STANDARD_VECTOR_SIZE else STANDARD_VECTOR_SIZE.

(** [vector_idx = row_group_start / SIZE; vector_idx <= (row_group_end - 1) / SIZE]; the code is
    only called with [row_group_start < row_group_end]. *)
Definition range_vectors (row_group_start row_group_end : nat) : list nat :=
  let s := (row_group_start / STANDARD_VECTOR_SIZE)%nat in
  let e := ((row_group_end - 1) / STANDARD_VECTOR_SIZE)%nat in
  seq s (S e - s).

Definition append_vector (m_start : Z) (transaction_id : Z) (row_group_start row_group_end : nat)
    (vector_idx : nat) (slot : option (option ChunkInfo.t)) : result (option ChunkInfo.t * bool) :=
  let vstart := range_start row_group_start vector_idx in
  let vend := range_end row_group_end vector_idx in
  if ((vstart =? 0) && (vend =? STANDARD_VECTOR_SIZE))%nat then
    Ok (Some (CONSTANT_INFO (mkConstant (vector_start m_start vector_idx) transaction_id
                                        NOT_DELETED_ID)), false)
  else
    match slot with
    | None => Throw InternalException
    | Some None =>
        Ok (Some (VECTOR_INFO (v_Append (new_vector (vector_start m_start vector_idx))
                                        vstart vend transaction_id)), false)
    | Some (Some (VECTOR_INFO info)) =>
        Ok (Some (VECTOR_INFO (v_Append info vstart vend transaction_id)), false)
    | Some (Some (CONSTANT_INFO _)) => Throw InternalException
    end.

Definition AppendVersionInfo (m : t) (transaction : TransactionData) (count : nat)
    (row_group_start row_group_end : nat) : t * result unit :=
  let m := mark_changed m true in
  let m := FillVectorInfo m ((row_group_end - 1) / STANDARD_VECTOR_SIZE) in
  for_vectors (append_vector (start m) (transaction_id transaction) row_group_start row_group_end)
              (range_vectors row_group_start row_group_end) m.

(** A null slot or an index out of range is an [InternalException] of the checked pointer and
    vector classes. *)
Definition CommitAppend (m : t) (commit_id : Z) (row_group_start count : nat) : t * result unit :=
  if (count =? 0)%nat then (m, Ok tt)
  else
    let row_group_end := (row_group_start + count)%nat in
    for_vectors (fun vector_idx slot =>
                   match slot with
                   | Some (Some info) =>
                       Ok (Some (ChunkInfo.CommitAppend info commit_id
                                   (range_start row_group_start vector_idx)
                                   (range_end row_group_end vector_idx)), false)
                   | _ => Throw InternalException
                   end)
                (range_vectors row_group_start row_group_end) m.

Definition cleanup_vector (lowest_active_transaction : Z) (row_group_end vector_idx : nat)
    (slot : option (option ChunkInfo.t)) : result (option ChunkInfo.t * bool) :=
  match slot with
  | None | Some None => Ok (None, false)
  | Some (Some info) =>
      if negb (range_end row_group_end vector_idx =? STANDARD_VECTOR_SIZE)%nat
      then Ok (Some info, false)
      else if ChunkInfo.Cleanup info lowest_active_transaction
      then Ok (None, ChunkInfo.HasDeletes info)
      else Ok (Some info, false)
  end.

Definition CleanupAppend (m : t) (lowest_active_transaction : Z) (row_group_start count : nat)
    : t * result unit :=
  if (count =? 0)%nat then (m, Ok tt)
  else
    let row_group_end := (row_group_start + count)%nat in
    for_vectors (cleanup_vector lowest_active_transaction row_group_end)
                (range_vectors row_group_start row_group_end) m.

Definition RevertAppend (m : t) (start_row : nat) : t :=
  let start_vector_idx := ((start_row + (STANDARD_VECTOR_SIZE - 1)) / STANDARD_VECTOR_SIZE)%nat in
  set_vectors m (imap (fun i info => if (start_vector_idx <=? i)%nat then None else info)
                      (vector_info m)).

(** The vector info of a slot after creating or converting it. *)
Definition to_vector_info (m_start : Z) (vector_idx : nat) (slot : option ChunkInfo.t)
    : ChunkVectorInfo :=
  match slot with
  | None => new_vector (vector_start m_start vector_idx)
  | Some (CONSTANT_INFO constant) =>
      let new_info := new_vector (vector_start m_start vector_idx) in
      mkVector (v_start new_info)
               (write_range 0 STANDARD_VECTOR_SIZE (c_insert_id constant) (inserted new_info))
               (c_insert_id constant) (same_inserted_id new_info)
               (deleted new_info) (any_deleted new_info)
  | Some (VECTOR_INFO info) => info
  end.

(** [GetVectorInfo] returns a reference into the manager: the result is the manager with the slot
    filled, and the info in it. *)
Definition GetVectorInfo (m : t) (vector_idx : nat) : t * ChunkVectorInfo :=
  let m := FillVectorInfo m vector_idx in
  let info := to_vector_info (start m) vector_idx (GetChunkInfo m vector_idx) in
  (set_vectors m (<[vector_idx := Some (VECTOR_INFO info)]> (vector_info m)), info).

Definition put_vector_info (m : t) (vector_idx : nat) (info : ChunkVectorInfo) : t :=
  set_vectors m (<[vector_idx := Some (VECTOR_INFO info)]> (vector_info m)).

Definition DeleteRows (m : t) (vector_idx : nat) (transaction_id : Z) (rows : list nat) (count : nat)
    : t * list nat * result nat :=
  let m := mark_changed m true in
  let '(m, info) := GetVectorInfo m vector_idx in
  let '(info, rows, res) := Delete info transaction_id rows count in
  (put_vector_info m vector_idx info, rows, res).

Definition CommitDelete (m : t) (vector_idx : nat) (commit_id : Z) (d : DeleteInfo) : t :=
  let m := mark_changed m true in
  let '(m, info) := GetVectorInfo m vector_idx in
  put_vector_info m vector_idx (v_CommitDelete info commit_id d).

(** The pairs of a vector index and its info that a checkpoint writes. *)
Definition to_serialize (m : t) : list (nat * ChunkInfo.t) :=
  omap (fun vector_idx =>
          match GetChunkInfo m vector_idx with
          | Some info => if ChunkInfo.HasDeletes info then Some (vector_idx, info) else None
          | None => None
          end)
       (seq 0 (length (vector_info m))).

Fixpoint write_entries (entries : list (nat * ChunkInfo.t)) : result (list Z) :=
  match entries with
  | [] => Ok []
  | (vector_idx, info) :: entries =>
      bytes ← ChunkInfo.Write info;
      rest ← write_entries entries;
      Ok (le_bytes 8 (Z.of_nat vector_idx) ++ bytes ++ rest)
  end.

Definition Checkpoint (m : t) : result (t * list Z) :=
  if negb (has_unserialized_changes m) then Ok (m, storage_pointers m)
  else
    let entries := to_serialize m in
    bytes ← match entries with
            | [] => Ok []
            | _ => body ← write_entries entries;
                   Ok (le_bytes 8 (Z.of_nat (length entries)) ++ body)
            end;
    Ok (mk (start m) (vector_info m) false bytes, bytes).

Definition MAX_ROW_GROUP_SIZE : Z := Z.shiftl 1 30.

Fixpoint read_chunks (chunk_count : nat) (m : t) (s : list Z) : result (t * list Z) :=
  match chunk_count with
  | O => Ok (m, s)
  | S chunk_count =>
      '(vector_index, s) ← read_le 8 s;
      if MAX_ROW_GROUP_SIZE <=? wrapU 64 (vector_index * Z.of_nat STANDARD_VECTOR_SIZE)
      then Throw IOException
      else
        let vector_index := Z.to_nat vector_index in
        let m := FillVectorInfo m vector_index in
        '(info, s) ← ChunkInfo.Read s;
        read_chunks chunk_count (set_vectors m (<[vector_index := info]> (vector_info m))) s
  end.

Definition Deserialize (bytes : list Z) (m_start : Z) : result (option t) :=
  match bytes with
  | [] => Ok None
  | _ =>
      '(chunk_count, s) ← read_le 8 bytes;
      '(m, _) ← read_chunks (Z.to_nat chunk_count) (mk m_start [] false bytes) s;
      Ok (Some (mk (start m) (vector_info m) false bytes))
  end.

Definition HasUnserializedChanges (m : t) : bool := has_unserialized_changes m.

(** ** The abstract view *)

(** The insert and the delete id of row [r] of a vector; a missing info stands for a row that
    everybody sees. *)
Definition info_ids (c : option ChunkInfo.t) (r : nat) : Z * Z :=
  match c with
  | None => (0, NOT_DELETED_ID)
  | Some (CONSTANT_INFO info) => (c_insert_id info, c_delete_id info)
  | Some (VECTOR_INFO info) => (inserted info !!! r, deleted info !!! r)
  end.

Definition row_ids (m : t) (row : nat) : Z * Z :=
  info_ids (GetChunkInfo m (row / STANDARD_VECTOR_SIZE)) (row mod STANDARD_VECTOR_SIZE).

(** The MVCC rule of one row. *)
Definition visible (T : TransactionData) (ids : Z * Z) : bool :=
  UseVersion T ids.1 && negb (UseVersion T ids.2).

(** A transaction as the manager hands it out: start times begin at 2. *)
Definition proper (T : TransactionData) : Prop := valid_transaction T /\ 0 < start_time T.

(** Rows of vector [i] that exist when the row group has [count] rows. *)
Definition rows_in (count i : nat) : nat :=
  Nat.min STANDARD_VECTOR_SIZE (count - i * STANDARD_VECTOR_SIZE).

(** The invariant of a row group with [count] rows: every info is right about its rows, only full
    vectors are constant, and no row that does not exist yet is marked as deleted. *)
Definition slot_inv (count i : nat) (c : option ChunkInfo.t) : Prop :=
  match c with
  | None => True
  | Some c =>
      ChunkInfo.wf (rows_in count i) c
      /\ (forall info, c = CONSTANT_INFO info -> rows_in count i = STANDARD_VECTOR_SIZE)
      /\ (forall r, (rows_in count i <= r < STANDARD_VECTOR_SIZE)%nat ->
            (info_ids (Some c) r).2 = NOT_DELETED_ID)
  end.

Definition inv (count : nat) (m : t) : Prop := forall i, slot_inv count i (GetChunkInfo m i).

Lemma vector_row_split row :
  row = (row / STANDARD_VECTOR_SIZE * STANDARD_VECTOR_SIZE + row mod STANDARD_VECTOR_SIZE)%nat
  /\ (row mod STANDARD_VECTOR_SIZE < STANDARD_VECTOR_SIZE)%nat.
Proof.
  pose proof SVS_pos. split; [|apply Nat.mod_upper_bound; lia].
  pose proof (Nat.div_mod_eq row STANDARD_VECTOR_SIZE). lia.
Qed.

Lemma row_join i r :
  (r < STANDARD_VECTOR_SIZE)%nat ->
  ((i * STANDARD_VECTOR_SIZE + r) / STANDARD_VECTOR_SIZE = i
   /\ (i * STANDARD_VECTOR_SIZE + r) mod STANDARD_VECTOR_SIZE = r)%nat.
Proof.
  intros Hr. split.
  - rewrite Nat.div_add_l by lia. rewrite Nat.div_small by lia. lia.
  - rewrite Nat.add_comm, Nat.Div0.mod_add. by apply Nat.mod_small.
Qed.

Lemma visible_default T : proper T -> visible T (0, NOT_DELETED_ID) = true.
Proof.
  intros [HT H0]. unfold visible. cbn [fst snd].
  by rewrite UseVersion_committed, UseVersion_NOT_DELETED by done.
Qed.

Lemma opt_Fetch_ids c T r : proper T -> opt_Fetch c T r = visible T (info_ids c r).
Proof.
  intros HT. destruct c as [[info|info]|]; [done|done|]. simpl. by rewrite visible_default.
Qed.

Lemma Fetch_row_ids m T row : proper T -> Fetch m T row = visible T (row_ids m row).
Proof.
  intros HT. unfold row_ids. rewrite <- opt_Fetch_ids by done. unfold Fetch, opt_Fetch.
  destruct (GetChunkInfo m _) as [c|]; [|done].
  f_equal. destruct (vector_row_split row). lia.
Qed.

(** ** Slots *)

Lemma GetChunkInfo_set m vs i : GetChunkInfo (set_vectors m vs) i = default None (vs !! i).
Proof. unfold GetChunkInfo. simpl. by destruct (vs !! i). Qed.

Lemma GetChunkInfo_default m i : GetChunkInfo m i = default None (vector_info m !! i).
Proof. unfold GetChunkInfo. by destruct (vector_info m !! i). Qed.

Lemma Fill_start m i : start (FillVectorInfo m i) = start m.
Proof. unfold FillVectorInfo. by case_match. Qed.

Lemma Fill_length m i : (i < length (vector_info (FillVectorInfo m i)))%nat.
Proof.
  unfold FillVectorInfo. case_match eqn:E; [by apply Nat.ltb_lt in E|].
  simpl. apply Nat.ltb_ge in E. rewrite length_app, length_replicate. lia.
Qed.

Lemma Fill_info m i j : GetChunkInfo (FillVectorInfo m i) j = GetChunkInfo m j.
Proof.
  unfold FillVectorInfo. case_match; [done|]. rewrite GetChunkInfo_set, GetChunkInfo_default.
  destruct (decide (j < length (vector_info m))%nat).
  - by rewrite lookup_app_l by done.
  - rewrite lookup_app_r, (lookup_ge_None_2 (vector_info m)) by lia.
    destruct (replicate _ _ !! _) as [x|] eqn:E; [|done].
    apply lookup_replicate in E as [-> _]. done.
Qed.

Lemma put_info m i info j :
  (i < length (vector_info m))%nat ->
  GetChunkInfo (set_vectors m (<[i := info]> (vector_info m))) j
  = if decide (j = i) then info else GetChunkInfo m j.
Proof.
  intros Hi. rewrite GetChunkInfo_set. case_decide as Hd.
  - subst. by rewrite list_lookup_insert_eq.
  - by rewrite list_lookup_insert_ne, GetChunkInfo_default by done.
Qed.

(** The loop over distinct slots acts on each of them once. *)
Lemma for_vectors_ok f g idxs m :
  NoDup idxs ->
  (forall i, i ∈ idxs -> (i < length (vector_info m))%nat ->
     exists b, f i (Some (GetChunkInfo m i)) = Ok (g i, b)) ->
  (forall i, i ∈ idxs -> (length (vector_info m) <= i)%nat ->
     exists b, f i None = Ok (None, b) /\ g i = None) ->
  let r := for_vectors f idxs m in
  r.2 = Ok tt /\ start r.1 = start m /\ length (vector_info r.1) = length (vector_info m)
  /\ forall j, GetChunkInfo r.1 j = if decide (j ∈ idxs) then g j else GetChunkInfo m j.
Proof.
  revert m. induction idxs as [|i idxs IH]; intros m Hnd Hin Hout.
  - split_and!; [done..|]. intros j. by rewrite decide_False by apply not_elem_of_nil.
  - apply NoDup_cons in Hnd as [Hni Hnd]. cbn [for_vectors].
    set (m' := fun b => mark_changed (set_vectors m (<[i := g i]> (vector_info m))) b).
    assert (forall b j, GetChunkInfo (m' b) j = if decide (j = i) then g i else GetChunkInfo m j) as Hm'.
    { intros b j. destruct (decide (i < length (vector_info m))%nat) as [Hi|Hi].
      - by apply (put_info m i (g i)).
      - unfold m', mark_changed, GetChunkInfo at 1. simpl.
        rewrite list_insert_ge by lia. case_decide as Hd; [|done].
        destruct (Hout i) as (? & _ & ->); [left|lia|]. by rewrite Hd, lookup_ge_None_2 by lia. }
    assert (exists b, for_vectors f (i :: idxs) m = for_vectors f idxs (m' b)) as [b Heq].
    { cbn [for_vectors]. destruct (decide (i < length (vector_info m))%nat) as [Hi|Hi].
      - destruct (Hin i) as [b Hb]; [left|done|]. exists b. rewrite GetChunkInfo_default in Hb.
        destruct (lookup_lt_is_Some_2 _ _ Hi) as [x Hx]. rewrite Hx in *. simpl in Hb. by rewrite Hb.
      - destruct (Hout i) as (b & Hb & Hg); [left|lia|]. exists b.
        rewrite lookup_ge_None_2 by lia. rewrite Hb. unfold m'. by rewrite Hg. }
    cbn [for_vectors] in Heq. rewrite Heq.
    assert (length (vector_info (m' b)) = length (vector_info m)) as Hlen.
    { unfold m'. simpl. by rewrite length_insert. }
    destruct (IH (m' b)) as (H1 & H2 & H3 & H4).
    + done.
    + intros j Hj Hl. rewrite Hm', decide_False by (intros ->; done). apply Hin; [by right|lia].
    + intros j Hj Hl. apply Hout; [by right|lia].
    + split_and!; [done|by rewrite H2|congruence|]. intros j. rewrite H4, Hm'.
      repeat case_decide; try done; subst; set_solver.
Qed.

(** ** Ranges of rows *)

(** Linear arithmetic with division by the vector size. *)
Ltac slia := zify; rewrite ?SVS_eq in *; Z.div_mod_to_equations; lia.

Lemma elem_of_range s e i :
  i ∈ range_vectors s e
  <-> (s / STANDARD_VECTOR_SIZE <= i <= (e - 1) / STANDARD_VECTOR_SIZE)%nat.
Proof. unfold range_vectors. rewrite elem_of_seq. lia. Qed.

Lemma range_row s e i r :
  (s < e)%nat -> (r < STANDARD_VECTOR_SIZE)%nat ->
  (s <= i * STANDARD_VECTOR_SIZE + r < e)%nat
  <-> i ∈ range_vectors s e /\ (range_start s i <= r < range_end e i)%nat.
Proof.
  intros Hse Hr. rewrite elem_of_range. unfold range_start, range_end.
  destruct (Nat.eqb_spec i (s / STANDARD_VECTOR_SIZE)), (Nat.eqb_spec i ((e - 1) / STANDARD_VECTOR_SIZE));
    split; intros; slia.
Qed.

Lemma range_bounds s e i :
  (s < e)%nat -> i ∈ range_vectors s e ->
  range_start s i = rows_in s i /\ range_end e i = rows_in e i
  /\ (range_start s i < range_end e i <= STANDARD_VECTOR_SIZE)%nat.
Proof.
  intros Hse. rewrite elem_of_range. unfold range_start, range_end, rows_in.
  destruct (Nat.eqb_spec i (s / STANDARD_VECTOR_SIZE)), (Nat.eqb_spec i ((e - 1) / STANDARD_VECTOR_SIZE));
    intros; split_and!; slia.
Qed.

(** A vector outside the appended range keeps its number of rows. *)
Lemma rows_in_other s e i : (s < e)%nat -> i ∉ range_vectors s e -> rows_in s i = rows_in e i.
Proof. intros Hse. rewrite elem_of_range. unfold rows_in. intros. slia. Qed.

Lemma NoDup_range s e : NoDup (range_vectors s e).
Proof. apply NoDup_seq. Qed.

(** ** Appending *)

Lemma v_Append_ids info n stop id r :
  length (inserted info) = STANDARD_VECTOR_SIZE -> (r < STANDARD_VECTOR_SIZE)%nat ->
  (stop <= STANDARD_VECTOR_SIZE)%nat ->
  info_ids (Some (VECTOR_INFO (v_Append info n stop id))) r
  = (if decide (n <= r < stop)%nat then id else inserted info !!! r, deleted info !!! r).
Proof.
  intros Hl Hr Hs. unfold v_Append. destruct (if (n =? 0)%nat then _ else _) as [x y]. simpl.
  f_equal. rewrite write_range_lookup by lia. done.
Qed.

Lemma new_vector_ids s r :
  (r < STANDARD_VECTOR_SIZE)%nat -> info_ids (Some (VECTOR_INFO (new_vector s))) r = (0, NOT_DELETED_ID).
Proof. intros Hr. cbn [info_ids new_vector inserted deleted]. by rewrite !lookup_total_replicate. Qed.

(** The vector info a slot is read as: its own, or the fresh one of a missing info. *)
Lemma to_vector_info_spec st s i c :
  slot_inv s i c -> (forall info, c = Some (CONSTANT_INFO info) -> c_delete_id info = NOT_DELETED_ID) ->
  let v := to_vector_info st i c in
  ChunkInfo.wf_vec (rows_in s i) v
  /\ (forall r, (r < STANDARD_VECTOR_SIZE)%nat -> info_ids (Some (VECTOR_INFO v)) r = info_ids c r)
  /\ (forall r, (rows_in s i <= r < STANDARD_VECTOR_SIZE)%nat -> deleted v !!! r = NOT_DELETED_ID).
Proof.
  intros Hc Hd. destruct c as [[info|info]|]; cbn [to_vector_info].
  - specialize (Hd info eq_refl). destruct Hc as (Hwf & _ & _). split_and!.
    + split; simpl.
      * by rewrite write_range_length, length_replicate.
      * apply length_replicate.
      * done.
      * intros _ r Hr. simpl in Hwf. rewrite write_range_lookup by (rewrite length_replicate; lia).
        by rewrite decide_True by lia.
      * intros _ r Hr. by apply lookup_total_replicate.
    + intros r Hr. cbn [info_ids inserted deleted new_vector].
      rewrite write_range_lookup by (rewrite length_replicate; lia).
      by rewrite decide_True, lookup_total_replicate, Hd by lia.
    + intros r Hr. apply lookup_total_replicate. lia.
  - destruct Hc as (Hwf & _ & Hnd). done.
  - split_and!.
    + apply new_vector_wf. unfold rows_in. lia.
    + intros r Hr. by apply new_vector_ids.
    + intros r Hr. apply lookup_total_replicate. lia.
Qed.

Lemma append_vector_partial st tid s e i c :
  (s < e)%nat -> i ∈ range_vectors s e -> slot_inv s i c ->
  ~ (range_start s i = 0 /\ range_end e i = STANDARD_VECTOR_SIZE)%nat ->
  append_vector st tid s e i (Some c)
  = Ok (Some (VECTOR_INFO (v_Append (to_vector_info st i c) (range_start s i) (range_end e i) tid)), false)
  /\ forall info, c <> Some (CONSTANT_INFO info).
Proof.
  intros Hse Hi Hc Hp. destruct (range_bounds s e i Hse Hi) as (Hs & He & Hb).
  unfold append_vector. destruct (Nat.eqb_spec (range_start s i) 0) as [H0|H0],
    (Nat.eqb_spec (range_end e i) STANDARD_VECTOR_SIZE) as [H1|H1]; cbn [andb]; try tauto;
    (destruct c as [[info|info]|]; [|done|done]);
    destruct Hc as (_ & Hc & _); specialize (Hc info eq_refl); lia.
Qed.

Lemma append_vector_spec st tid s e i c :
  (s < e)%nat -> i ∈ range_vectors s e -> slot_inv s i c ->
  exists c', append_vector st tid s e i (Some c) = Ok (Some c', false)
    /\ slot_inv e i (Some c')
    /\ (forall r, (r < STANDARD_VECTOR_SIZE)%nat ->
         info_ids (Some c') r = if decide (range_start s i <= r < range_end e i)%nat
                                then (tid, NOT_DELETED_ID) else info_ids c r)
    /\ forall info, c' = CONSTANT_INFO info -> range_start s i = 0%nat.
Proof.
  intros Hse Hi Hc. destruct (range_bounds s e i Hse Hi) as (Hs & He & Hb).
  destruct (decide (range_start s i = 0 /\ range_end e i = STANDARD_VECTOR_SIZE)%nat) as [[H0 H1]|Hp].
  - eexists. unfold append_vector. rewrite H0, H1, !Nat.eqb_refl. split; [done|]. split.
    + split_and!; [simpl; lia|by intros; rewrite <- He|]. intros r Hr. lia.
    + split; [|done]. intros r Hr. by rewrite decide_True by lia.
  - destruct (append_vector_partial st tid s e i c) as [-> Hnc]; [done..|].
    destruct (to_vector_info_spec st s i c Hc) as (Hwf & Hids & Hnd).
    { intros info ->. by destruct (Hnc info). }
    set (v := to_vector_info st i c) in *. destruct (Hwf) as [W1 W2 W3 W4 W5].
    eexists. split; [done|]. split.
    + split_and!; [|done|].
      * rewrite <- He, Hs. apply v_Append_wf; [done|lia].
      * intros r Hr. rewrite v_Append_ids by (done || lia). apply Hnd. lia.
    + split; [|done]. intros r Hr. rewrite v_Append_ids by (done || lia). rewrite <- Hids by done.
      case_decide; [|done]. f_equal. apply Hnd. lia.
Qed.

Lemma AppendVersionInfo_spec m T k count e :
  inv count m -> (count < e)%nat ->
  let r := AppendVersionInfo m T k count e in
  r.2 = Ok tt /\ inv e r.1
  /\ (forall row, row_ids r.1 row = if decide (count <= row < e)%nat
                                   then (transaction_id T, NOT_DELETED_ID) else row_ids m row)
  /\ (forall info, GetChunkInfo r.1 (count / STANDARD_VECTOR_SIZE) = Some (CONSTANT_INFO info) ->
        (count mod STANDARD_VECTOR_SIZE = 0)%nat).
Proof.
  intros Hinv Hse. unfold AppendVersionInfo.
  set (m0 := FillVectorInfo _ _).
  assert (forall j, GetChunkInfo m0 j = GetChunkInfo m j) as Hm0.
  { intros j. unfold m0. by rewrite Fill_info. }
  set (f := append_vector (start m0) (transaction_id T) count e).
  set (g := fun i => match f i (Some (GetChunkInfo m i)) with Ok (c, _) => c | Throw _ => None end).
  assert (forall i, i ∈ range_vectors count e -> (i < length (vector_info m0))%nat) as Hlen.
  { intros i Hi. apply elem_of_range in Hi. unfold m0.
    pose proof (Fill_length (mark_changed m true) ((e - 1) / STANDARD_VECTOR_SIZE)). lia. }
  destruct (for_vectors_ok f g (range_vectors count e) m0) as (H1 & H2 & H3 & H4).
  - apply NoDup_range.
  - intros i Hi _. exists false. rewrite Hm0. unfold g, f.
    by destruct (append_vector_spec (start m0) (transaction_id T) count e i (GetChunkInfo m i) Hse Hi (Hinv i))
      as (c' & -> & _).
  - intros i Hi Hl. specialize (Hlen i Hi). lia.
  - split_and!; [done| | |].
    + intros i. rewrite H4. case_decide as Hi.
      * unfold g, f. by destruct (append_vector_spec (start m0) (transaction_id T) count e i _ Hse Hi (Hinv i))
          as (c' & -> & ? & _ & _).
      * rewrite Hm0. unfold inv, slot_inv in *. rewrite <- (rows_in_other count e) by done. apply Hinv.
    + intros row. unfold row_ids. rewrite H4, Hm0. destruct (vector_row_split row) as [Hrow Hr].
      set (i := (row / STANDARD_VECTOR_SIZE)%nat) in *. set (r := (row mod STANDARD_VECTOR_SIZE)%nat) in *.
      pose proof (range_row count e i r Hse Hr) as Hrr. rewrite <- Hrow in Hrr.
      case_decide as Hi.
      * unfold g, f. destruct (append_vector_spec (start m0) (transaction_id T) count e i _ Hse Hi (Hinv i))
          as (c' & -> & _ & Hids & _). rewrite Hids by done. repeat case_decide; tauto.
      * rewrite decide_False by tauto. done.
    + intros info. rewrite H4.
      assert (count / STANDARD_VECTOR_SIZE ∈ range_vectors count e)%nat as Hi
        by (apply elem_of_range; slia).
      rewrite decide_True by done. unfold g, f.
      destruct (append_vector_spec (start m0) (transaction_id T) count e _ _ Hse Hi (Hinv _))
        as (c' & -> & _ & _ & Hc). intros [= ->]. specialize (Hc info eq_refl).
      unfold range_start in Hc. rewrite Nat.eqb_refl in Hc. slia.
Qed.

(** An append of no rows behind a full vector leaves every info alone. *)
Lemma AppendVersionInfo_full m T n :
  (n mod STANDARD_VECTOR_SIZE = 0)%nat -> (0 < n)%nat ->
  let r := AppendVersionInfo m T 0 n n in
  r.2 = Ok tt /\ (forall i, GetChunkInfo r.1 i = GetChunkInfo m i)
  /\ forall row, row_ids r.1 row = row_ids m row.
Proof.
  intros Hmod Hn. unfold AppendVersionInfo.
  assert (range_vectors n n = []) as ->.
  { unfold range_vectors. replace (S ((n - 1) / STANDARD_VECTOR_SIZE) - n / STANDARD_VECTOR_SIZE)%nat with 0%nat; [done|].
    pose proof SVS_pos. pose proof (Nat.div_mod_eq n STANDARD_VECTOR_SIZE) as E. rewrite Hmod in E.
    assert ((n - 1) / STANDARD_VECTOR_SIZE < n / STANDARD_VECTOR_SIZE)%nat; [|lia].
    apply Nat.Div0.div_lt_upper_bound. lia. }
  simpl. split; [done|].
  assert (forall i, GetChunkInfo (FillVectorInfo (mark_changed m true) ((n - 1) / STANDARD_VECTOR_SIZE)) i = GetChunkInfo m i) as H.
  { intros i. by rewrite Fill_info. }
  split; [done|]. intros row. unfold row_ids. by rewrite H.
Qed.

(** ** Committing, reverting and cleaning up an append *)

(** The rows of [m] below [n] that carry the insert id [id] are exactly those in [s, e). *)
Definition appended_range (m : t) (n : nat) (id : Z) (s e : nat) : Prop :=
  forall row, (row < n)%nat -> (row_ids m row).1 = id <-> (s <= row < e)%nat.

Lemma row_ids_join m i r :
  (r < STANDARD_VECTOR_SIZE)%nat ->
  row_ids m (i * STANDARD_VECTOR_SIZE + r) = info_ids (GetChunkInfo m i) r.
Proof. intros Hr. destruct (row_join i r Hr) as [E1 E2]. unfold row_ids. by rewrite E1, E2. Qed.

Lemma rows_in_lt n i r :
  (r < rows_in n i)%nat <-> (r < STANDARD_VECTOR_SIZE /\ i * STANDARD_VECTOR_SIZE + r < n)%nat.
Proof. unfold rows_in. lia. Qed.

(** What is known of a slot that holds appended rows of one transaction. *)
Lemma commit_slot m n id s e i :
  inv n m -> (s < e <= n)%nat -> id <> 0 -> appended_range m n id s e -> i ∈ range_vectors s e ->
  exists c, GetChunkInfo m i = Some c
    /\ match c with
       | CONSTANT_INFO _ => range_start s i = 0%nat /\ range_end e i = STANDARD_VECTOR_SIZE
       | VECTOR_INFO info => same_inserted_id info = true ->
           range_start s i = 0%nat /\ range_end e i = rows_in n i
       end.
Proof.
  intros Hinv Hse Hid Hrange Hi. unfold appended_range in Hrange. destruct (range_bounds s e i) as (Hs & He & Hb); [lia|done|].
  assert (forall r, (r < rows_in n i)%nat ->
            (info_ids (GetChunkInfo m i) r).1 = id <-> (range_start s i <= r < range_end e i)%nat) as Hr.
  { intros r Hr. apply rows_in_lt in Hr as [Hr1 Hr2]. rewrite <- row_ids_join by done.
    rewrite Hrange by done. rewrite range_row by (done || lia). tauto. }
  assert (range_end e i <= rows_in n i)%nat as Hen by (unfold rows_in in *; lia).
  specialize (Hinv i). destruct (GetChunkInfo m i) as [c|] eqn:E.
  2: { destruct (Hr (range_start s i)) as [_ Hx]; [lia|]. specialize (Hx ltac:(lia)).
       simpl in Hx. congruence. }
  exists c. split; [done|].
  assert ((forall r, (r < rows_in n i)%nat -> (info_ids (Some c) r).1 = (info_ids (Some c) (range_start s i)).1) ->
          range_start s i = 0%nat /\ range_end e i = rows_in n i) as Hall.
  { intros Hsame. assert ((info_ids (Some c) (range_start s i)).1 = id) as Hx by (apply Hr; lia).
    rewrite Hx in Hsame. pose proof (Hsame 0%nat ltac:(lia)) as H0. rewrite Hr in H0 by lia.
    pose proof (Hsame (rows_in n i - 1)%nat ltac:(lia)) as H1. rewrite Hr in H1 by lia. lia. }
  destruct Hinv as (Hwf & Hconst & _). destruct c as [info|info].
  - destruct Hall as [H0 H1]; [done|]. split; [done|]. by rewrite H1, (Hconst info).
  - intros Hsame. apply Hall. intros r Hr'. destruct Hwf as [W1 W2 W3 W4 W5].
    cbn [info_ids fst]. rewrite !W4 by (done || lia). done.
Qed.

Lemma CommitAppend_slot_ids n c commit_id a b r :
  ChunkInfo.wf n c -> (r < STANDARD_VECTOR_SIZE)%nat -> (b <= STANDARD_VECTOR_SIZE)%nat ->
  (forall info, c = CONSTANT_INFO info -> a = 0%nat /\ b = STANDARD_VECTOR_SIZE) ->
  info_ids (Some (ChunkInfo.CommitAppend c commit_id a b)) r
  = if decide (a <= r < b)%nat then (commit_id, (info_ids (Some c) r).2) else info_ids (Some c) r.
Proof.
  intros Hwf Hr Hb Hc. destruct c as [info|info]; cbn [ChunkInfo.CommitAppend info_ids fst snd].
  - destruct (Hc info eq_refl) as [-> ->]. by rewrite decide_True by lia.
  - destruct Hwf as [W1 _ _ _ _]. cbn [v_CommitAppend inserted deleted].
    rewrite write_range_lookup by lia. by case_decide.
Qed.

Lemma CommitAppend_spec m n id commit_id s count :
  inv n m -> (0 < count)%nat -> (s + count <= n)%nat -> id <> 0 ->
  appended_range m n id s (s + count) ->
  let r := CommitAppend m commit_id s count in
  r.2 = Ok tt /\ inv n r.1
  /\ forall row, row_ids r.1 row = if decide (s <= row < s + count)%nat
                                   then (commit_id, (row_ids m row).2) else row_ids m row.
Proof.
  intros Hinv H0 Hn Hid Hrange. unfold CommitAppend. destruct (Nat.eqb_spec count 0) as [?|_]; [lia|].
  set (e := (s + count)%nat) in *. assert (Hse : (s < e)%nat) by lia.
  set (g := fun i => (fun c => ChunkInfo.CommitAppend c commit_id (range_start s i) (range_end e i))
                     <$> GetChunkInfo m i).
  match goal with |- context [for_vectors ?f _ _] => set (F := f) end.
  destruct (for_vectors_ok F g (range_vectors s e) m) as (H1 & H2 & H3 & H4).
  - apply NoDup_range.
  - intros i Hi _. destruct (commit_slot m n id s e i) as (c & Hc & _); [done|lia|done..|].
    exists false. unfold F, g. by rewrite Hc.
  - intros i Hi Hl. destruct (commit_slot m n id s e i) as (c & Hc & _); [done|lia|done..|].
    rewrite GetChunkInfo_default, lookup_ge_None_2 in Hc by done. done.
  - split; [done|]. split.
    + intros i. rewrite H4. case_decide as Hi; [|apply Hinv]. unfold g.
      destruct (commit_slot m n id s e i) as (c & Hc & Hcc); [done|lia|done..|].
      destruct (range_bounds s e i Hse Hi) as (Hs & He & Hb).
      specialize (Hinv i). rewrite Hc in *. cbn [fmap option_fmap option_map]. destruct Hinv as (Hwf & Hk & Hnd).
      split_and!.
      * destruct c as [info|info]; [done|]. cbn [ChunkInfo.CommitAppend ChunkInfo.wf].
        destruct Hwf as [W1 W2 W3 W4 W5]. split; cbn [v_CommitAppend inserted deleted same_inserted_id insert_id any_deleted];
          [by rewrite write_range_length|done|done| |done].
        intros Hsm r Hr. destruct (Hcc Hsm) as [E1 E2]. rewrite Hsm, write_range_lookup by lia.
        by rewrite decide_True by lia.
      * intros info. destruct c as [info'|info']; [|done]. intros _. by apply (Hk info').
      * intros r Hr. rewrite (CommitAppend_slot_ids (rows_in n i)) ; [|done|lia|lia|by intros info ->].
        case_decide; by apply Hnd.
    + intros row. unfold row_ids. rewrite H4. destruct (vector_row_split row) as [Hrow Hr].
      set (i := (row / STANDARD_VECTOR_SIZE)%nat) in *. set (r := (row mod STANDARD_VECTOR_SIZE)%nat) in *.
      pose proof (range_row s e i r Hse Hr) as Hrr. rewrite <- Hrow in Hrr.
      case_decide as Hi; [|by rewrite decide_False by tauto].
      unfold g. destruct (commit_slot m n id s e i) as (c & Hc & Hcc); [done|lia|done..|].
      destruct (range_bounds s e i Hse Hi) as (Hs & He & Hb). specialize (Hinv i). rewrite Hc in *.
      cbn [fmap option_fmap option_map].
      rewrite (CommitAppend_slot_ids (rows_in n i)); [|apply Hinv|done|lia|by intros info ->].
      repeat case_decide; tauto.
Qed.

Lemma RevertAppend_info m k i :
  GetChunkInfo (RevertAppend m k) i
  = if decide ((k + (STANDARD_VECTOR_SIZE - 1)) / STANDARD_VECTOR_SIZE <= i)%nat then None else GetChunkInfo m i.
Proof.
  unfold RevertAppend. rewrite GetChunkInfo_set, list_lookup_imap, GetChunkInfo_default.
  destruct (vector_info m !! i) as [c|]; simpl; [|by case_decide].
  case_decide as Hd; [by rewrite (proj2 (Nat.leb_le _ _) Hd)|].
  by destruct (Nat.leb_spec ((k + (STANDARD_VECTOR_SIZE - 1)) / STANDARD_VECTOR_SIZE) i).
Qed.

Lemma RevertAppend_spec m n k :
  inv n m -> (k <= n)%nat ->
  (forall row, (k <= row < n)%nat -> (row_ids m row).2 = NOT_DELETED_ID) ->
  (forall info, GetChunkInfo m (k / STANDARD_VECTOR_SIZE) = Some (CONSTANT_INFO info) ->
     (k mod STANDARD_VECTOR_SIZE = 0)%nat) ->
  inv k (RevertAppend m k) /\ forall row, (row < k)%nat -> row_ids (RevertAppend m k) row = row_ids m row.
Proof.
  intros Hinv Hk Hnd Hconst. split.
  - intros i. rewrite RevertAppend_info. case_decide as Hd; [done|]. specialize (Hinv i).
    destruct (GetChunkInfo m i) as [c|] eqn:E; [|done]. destruct Hinv as (Hwf & Hc & Hn).
    assert (rows_in k i <= rows_in n i)%nat as Hle by (unfold rows_in; lia). split_and!.
    + destruct c as [info|info]; [simpl in *; lia|]. destruct Hwf as [W1 W2 W3 W4 W5].
      split; try done; [lia|]. intros Hs r Hr. apply W4; [done|lia].
    + intros info ->. specialize (Hc info eq_refl).
      destruct (decide (i = k / STANDARD_VECTOR_SIZE)%nat) as [Ei|].
      * rewrite Ei in E. specialize (Hconst info E). unfold rows_in in *. slia.
      * unfold rows_in in *. slia.
    + intros r Hr. destruct (decide (rows_in n i <= r)%nat); [apply Hn; lia|].
      rewrite <- E, <- row_ids_join by lia. apply Hnd. unfold rows_in in *. lia.
  - intros row Hrow. unfold row_ids. rewrite RevertAppend_info. rewrite decide_False; [done|]. slia.
Qed.

Lemma AppendRevert_spec m T k count e :
  inv count m -> (count < e)%nat ->
  let m' := RevertAppend (AppendVersionInfo m T k count e).1 count in
  inv count m' /\ forall row, (row < count)%nat -> row_ids m' row = row_ids m row.
Proof.
  intros Hinv Hce. destruct (AppendVersionInfo_spec m T k count e Hinv Hce) as (_ & Hi & Hids & Hc).
  destruct (RevertAppend_spec (AppendVersionInfo m T k count e).1 e count) as [H1 H2]; [done|lia| |done|].
  - intros row Hrow. by rewrite Hids, decide_True by lia.
  - split; [done|]. intros row Hrow. rewrite H2, Hids by done. by rewrite decide_False by lia.
Qed.

(** Insert ids grow with the row number at the start of every vector. *)
Definition ordered_inserts (m : t) : Prop :=
  forall i, ((row_ids m (i * STANDARD_VECTOR_SIZE)).1 <= (row_ids m (i * STANDARD_VECTOR_SIZE + 1)).1).

Lemma cleanup_vector_result lowest e i c :
  exists b, cleanup_vector lowest e i (Some c)
  = Ok (match c with
        | Some c => if (range_end e i =? STANDARD_VECTOR_SIZE)%nat && ChunkInfo.Cleanup c lowest
                    then None else Some c
        | None => None
        end, b).
Proof.
  destruct c as [c|]; [|by eexists]. unfold cleanup_vector.
  destruct (range_end e i =? STANDARD_VECTOR_SIZE)%nat, (ChunkInfo.Cleanup c lowest); by eexists.
Qed.

Lemma CleanupAppend_spec m n lowest s count T :
  inv n m -> (s + count <= n)%nat -> ordered_inserts m ->
  proper T -> lowest <= start_time T ->
  (forall row, (row < n)%nat -> (row_ids m row).1 <> start_time T) ->
  let r := CleanupAppend m lowest s count in
  r.2 = Ok tt /\ inv n r.1 /\ forall row, Fetch r.1 T row = Fetch m T row.
Proof.
  intros Hinv Hn Hord HT Hlow Hdist. unfold CleanupAppend.
  destruct (Nat.eqb_spec count 0) as [?|H0]; [done|].
  set (e := (s + count)%nat) in *. assert (Hse : (s < e)%nat) by lia.
  set (g := fun i => match GetChunkInfo m i with
                     | Some c => if (range_end e i =? STANDARD_VECTOR_SIZE)%nat && ChunkInfo.Cleanup c lowest
                                 then None else Some c
                     | None => None end).
  destruct (for_vectors_ok (cleanup_vector lowest e) g (range_vectors s e) m) as (H1 & H2 & H3 & H4).
  - apply NoDup_range.
  - intros i Hi _. apply cleanup_vector_result.
  - intros i Hi Hl. exists false. split; [done|]. unfold g.
    by rewrite GetChunkInfo_default, lookup_ge_None_2 by done.
  - split; [done|]. split.
    + intros i. rewrite H4. specialize (Hinv i). case_decide; [|done]. unfold g.
      destruct (GetChunkInfo m i) as [c|]; [|done]. by case_match.
    + intros row. rewrite !Fetch_row_ids by done. unfold row_ids. rewrite H4.
      destruct (vector_row_split row) as [_ Hr]. set (i := (row / STANDARD_VECTOR_SIZE)%nat).
      case_decide as Hi; [|done]. unfold g. specialize (Hinv i).
      destruct (GetChunkInfo m i) as [c|] eqn:E; [|done].
      destruct (range_bounds s e i Hse Hi) as (Hs & He & Hb).
      destruct (Nat.eqb_spec (range_end e i) STANDARD_VECTOR_SIZE) as [Hfull|]; [|done].
      destruct (ChunkInfo.Cleanup c lowest) eqn:Ecl; [|done]. cbn [andb].
      assert (rows_in n i = STANDARD_VECTOR_SIZE) as Hrows by (unfold rows_in in *; lia).
      assert (forall r, (r < STANDARD_VECTOR_SIZE)%nat -> (info_ids (Some c) r).1 <> start_time T) as Hd.
      { intros r Hr'. rewrite <- E, <- row_ids_join by done. apply Hdist.
        apply (rows_in_lt n i r). lia. }
      destruct Hinv as (Hwf & _ & _). rewrite Hrows in Hwf.
      rewrite visible_default by done. rewrite <- opt_Fetch_ids by done. symmetry.
      refine (Cleanup_visible c lowest T Hwf _ Ecl _ Hlow _ _ Hr).
      * intros info ->. specialize (Hord i). pose proof SVS_eq. rewrite <- (Nat.add_0_r (i * _)) in Hord at 1.
        rewrite !row_ids_join, E in Hord by lia. exact Hord.
      * apply HT.
      * pose proof SVS_pos as Hpos.
        destruct c as [info|info]; [exact (Hd 0%nat Hpos)|exact Hd].
Qed.

(** ** Deleting *)

(** Whether a slot can be turned into a vector info without loss: [GetVectorInfo] does not carry a
    constant's delete id over. *)
Definition convertible (c : option ChunkInfo.t) : Prop :=
  forall info, c = Some (CONSTANT_INFO info) -> c_delete_id info = NOT_DELETED_ID.

Lemma GetVectorInfo_slots m i v j :
  GetChunkInfo (put_vector_info (GetVectorInfo m i).1 i v) j
  = if decide (j = i) then Some (VECTOR_INFO v) else GetChunkInfo m j.
Proof.
  unfold put_vector_info, GetVectorInfo. cbn [fst]. pose proof (Fill_length m i) as Hl.
  rewrite put_info by (simpl; by rewrite length_insert). case_decide; [done|].
  rewrite put_info by done. rewrite decide_False by done. apply Fill_info.
Qed.

Lemma GetVectorInfo_info m i :
  (GetVectorInfo m i).2 = to_vector_info (start m) i (GetChunkInfo m i).
Proof. unfold GetVectorInfo. cbn [snd]. by rewrite Fill_info, Fill_start. Qed.

Lemma put_inv n m i v :
  inv n m -> slot_inv n i (Some (VECTOR_INFO v)) -> inv n (put_vector_info (GetVectorInfo m i).1 i v).
Proof. intros Hinv Hv j. rewrite GetVectorInfo_slots. case_decide; [by subst|apply Hinv]. Qed.

Lemma put_ids m i v row :
  row_ids (put_vector_info (GetVectorInfo m i).1 i v) row
  = if decide (row / STANDARD_VECTOR_SIZE = i)%nat
    then (inserted v !!! (row mod STANDARD_VECTOR_SIZE)%nat, deleted v !!! (row mod STANDARD_VECTOR_SIZE)%nat)
    else row_ids m row.
Proof. unfold row_ids. rewrite GetVectorInfo_slots. by case_decide. Qed.

Definition row_deletable (tid : Z) (ids : Z * Z) : Prop := ids.2 = NOT_DELETED_ID \/ ids.2 = tid.

Lemma DeleteRows_spec m n i tid rows count :
  inv n m -> convertible (GetChunkInfo m i) -> tid <> NOT_DELETED_ID -> (count <= length rows)%nat ->
  Forall (fun r => (r < rows_in n i)%nat) rows ->
  let '(m', rows', res) := DeleteRows m i tid rows count in
  let requested row := (row / STANDARD_VECTOR_SIZE = i)%nat
                       /\ (row mod STANDARD_VECTOR_SIZE)%nat ∈ take count rows in
  inv n m'
  /\ match res with
     | Ok k =>
         (forall row, requested row -> row_deletable tid (row_ids m row))
         /\ NoDup (take k rows')
         /\ (forall r, (r < STANDARD_VECTOR_SIZE)%nat ->
               r ∈ take k rows' <-> r ∈ take count rows
                 /\ (row_ids m (i * STANDARD_VECTOR_SIZE + r)).2 = NOT_DELETED_ID)
         /\ (forall row, requested row -> row_ids m' row = ((row_ids m row).1, tid))
         /\ (forall row, ~ requested row -> row_ids m' row = row_ids m row)
     | Throw e =>
         e = TransactionException
         /\ (exists row, requested row /\ ~ row_deletable tid (row_ids m row))
         /\ (forall row, (row_ids m row).2 <> tid -> row_ids m' row = row_ids m row)
     end.
Proof.
  intros Hinv Hconv Htid Hc Hrows. unfold DeleteRows.
  assert (in_range rows) as Hin.
  { unfold in_range. eapply Forall_impl; [exact Hrows|]. unfold rows_in. simpl. lia. }
  rewrite (surjective_pairing (GetVectorInfo _ i)), GetVectorInfo_info.
  change (GetChunkInfo (mark_changed m true) i) with (GetChunkInfo m i).
  set (v := to_vector_info _ i _).
  destruct (to_vector_info_spec (start (mark_changed m true)) n i _ (Hinv i) Hconv) as (Hwf & Hids & Hnd).
  fold v in Hwf, Hids, Hnd.
  pose proof (Delete_wf (rows_in n i) v tid rows count Htid Hwf Hin Hc) as Hwf'.
  destruct Hwf as [W1 W2 W3 W4 W5].
  pose proof (Delete_spec v tid rows count Htid W2 Hin Hc) as Ho.
  destruct (Delete v tid rows count) as [[v' rows'] res]. cbn [fst] in Hwf'. destruct Ho as [Hins Ho].
  assert (forall row, (row / STANDARD_VECTOR_SIZE = i)%nat ->
            row_ids m row = (inserted v !!! (row mod STANDARD_VECTOR_SIZE)%nat, deleted v !!! (row mod STANDARD_VECTOR_SIZE)%nat)) as Hrow.
  { intros row Hr. unfold row_ids. rewrite Hr. symmetry. apply Hids, vector_row_split. }
  split.
  - apply (put_inv n (mark_changed m true)); [done|]. split_and!; [done|done|].
    intros r Hr. cbn [info_ids snd]. destruct res as [k|e].
    + destruct Ho as (_ & _ & _ & Hd). rewrite Hd, decide_False; [by apply Hnd|].
      intros (j & Hj & _)%elem_of_take. rewrite Forall_lookup in Hrows. apply Hrows in Hj. lia.
    + destruct Ho as (_ & _ & Hd & _). rewrite Hd; [by apply Hnd|]. rewrite Hnd by done. congruence.
  - destruct res as [k|e].
    + destruct Ho as (Hdel & HND & Hel & Hd). split_and!.
      * intros row [Hr1 Hr2]. unfold row_deletable. rewrite Hrow by done. cbn [snd].
        destruct (Hdel _ Hr2); auto.
      * done.
      * intros r Hr. rewrite row_ids_join, <- Hids by done. apply Hel.
      * intros row [Hr1 Hr2]. rewrite (put_ids (mark_changed m true)), decide_True by done.
        by rewrite Hins, Hd, decide_True, Hrow by done.
      * intros row Hnr. rewrite (put_ids (mark_changed m true)). case_decide as Hr1; [|done].
        rewrite Hins, Hd, Hrow by done. rewrite decide_False; [done|]. tauto.
    + destruct Ho as (-> & (r & Hr1 & Hr2) & Hd & _). split_and!; [done| |].
      * assert (r < STANDARD_VECTOR_SIZE)%nat as Hrl.
        { apply elem_of_take in Hr1 as (j & Hj & _). unfold in_range in Hin.
          rewrite Forall_lookup in Hin. by apply Hin in Hj. }
        exists (i * STANDARD_VECTOR_SIZE + r)%nat. destruct (row_join i r Hrl) as [E1 E2].
        rewrite E1, E2. split; [done|]. unfold row_deletable. rewrite Hrow by done. rewrite E2.
        cbn [snd]. unfold deletable in Hr2. tauto.
      * intros row Hr. rewrite (put_ids (mark_changed m true)). case_decide as Hi; [|done].
        rewrite Hrow in Hr |- * by done. cbn [snd] in Hr. by rewrite Hins, Hd by done.
Qed.

(** The rows that come back are among the requested ones, and as many as counted. *)
Lemma DeleteRows_returned m n i tid rows count :
  inv n m -> convertible (GetChunkInfo m i) -> tid <> NOT_DELETED_ID -> (count <= length rows)%nat ->
  Forall (fun r => (r < rows_in n i)%nat) rows ->
  let '(_, rows', res) := DeleteRows m i tid rows count in
  forall k, res = Ok k -> length (take k rows') = k /\ forall r, r ∈ take k rows' -> r ∈ take count rows.
Proof.
  intros Hinv Hconv Htid Hc Hrows. unfold DeleteRows.
  assert (in_range rows) as Hin.
  { unfold in_range. eapply Forall_impl; [exact Hrows|]. unfold rows_in. simpl. lia. }
  rewrite (surjective_pairing (GetVectorInfo _ i)), GetVectorInfo_info.
  change (GetChunkInfo (mark_changed m true) i) with (GetChunkInfo m i).
  destruct (to_vector_info_spec (start (mark_changed m true)) n i _ (Hinv i) Hconv) as ([_ W2 _ _ _] & _).
  set (v := to_vector_info _ i _) in *.
  pose proof (Delete_spec v tid rows count Htid W2 Hin Hc) as Ho.
  pose proof (delete_loop_count count 0 tid (deleted v) rows 0) as Hl. unfold Delete in *.
  destruct (delete_loop count 0 tid (deleted v) rows 0) as [[del rows'] res]. destruct Hl as [Hl1 Hl2].
  intros k ->. destruct Ho as (_ & _ & _ & Hel & _). specialize (Hl2 k eq_refl). split.
  - rewrite length_take. lia.
  - intros r Hr. by apply Hel in Hr as [? _].
Qed.

Lemma CommitDelete_spec m n i tid commit_id d :
  inv n m ->
  (forall info, GetChunkInfo m i <> Some (CONSTANT_INFO info)) ->
  Forall (fun r => (r < rows_in n i)%nat) (deleted_rows d) ->
  deleted_rows d <> [] ->
  (forall r, r ∈ deleted_rows d -> (info_ids (GetChunkInfo m i) r).2 = tid) -> tid <> NOT_DELETED_ID ->
  let m' := CommitDelete m i commit_id d in
  inv n m'
  /\ forall row, row_ids m' row
       = if decide ((row / STANDARD_VECTOR_SIZE = i)%nat
                    /\ (row mod STANDARD_VECTOR_SIZE)%nat ∈ deleted_rows d)
         then ((row_ids m row).1, commit_id) else row_ids m row.
Proof.
  intros Hinv Hnc Hrows Hne Htid Hnd'. unfold CommitDelete.
  rewrite (surjective_pairing (GetVectorInfo _ i)), GetVectorInfo_info.
  change (GetChunkInfo (mark_changed m true) i) with (GetChunkInfo m i).
  set (v := to_vector_info _ i _).
  destruct (to_vector_info_spec (start (mark_changed m true)) n i _ (Hinv i)) as (Hwf & Hids & Hnd).
  { intros info Hx. by destruct (Hnc info). }
  fold v in Hwf, Hids, Hnd.
  assert (in_range (deleted_rows d)) as Hin.
  { unfold in_range. eapply Forall_impl; [exact Hrows|]. unfold rows_in. simpl. lia. }
  assert (any_deleted v = true) as Hany.
  { destruct (any_deleted v) eqn:E; [done|]. destruct (deleted_rows d) as [|r l] eqn:Ed; [done|].
    apply Forall_cons_1 in Hin as [Hr _]. destruct Hwf as [_ _ _ _ W5]. specialize (W5 E r Hr).
    specialize (Htid r ltac:(left)). rewrite <- Hids in Htid by done. cbn [info_ids snd] in Htid. congruence. }
  pose proof (v_CommitDelete_wf (rows_in n i) v commit_id d Hwf Hany) as Hwf'.
  destruct Hwf as [W1 W2 W3 W4 W5]. split.
  - apply (put_inv n (mark_changed m true)); [done|]. split_and!; [done|done|].
    intros r Hr. cbn [info_ids snd]. rewrite v_CommitDelete_lookup by done.
    rewrite decide_False; [by apply Hnd|]. intros Hx. rewrite Forall_forall in Hrows.
    apply Hrows in Hx. lia.
  - intros row. rewrite (put_ids (mark_changed m true)). destruct (vector_row_split row) as [_ Hr].
    case_decide as Hi.
    + rewrite v_CommitDelete_lookup by done. unfold row_ids. rewrite Hi, <- Hids by done.
      repeat case_decide; try done; tauto.
    + rewrite decide_False by tauto. done.
Qed.

(** *** Constant infos without deletion *)

(** No constant info of the manager has been deleted. *)
Definition all_convertible (m : t) : Prop := forall i, convertible (GetChunkInfo m i).

Lemma for_vectors_convertible f idxs m :
  (forall i slot info b, f i slot = Ok (info, b) -> convertible (default None slot) -> convertible info) ->
  all_convertible m -> all_convertible (for_vectors f idxs m).1.
Proof.
  intros Hf. revert m. induction idxs as [|i idxs IH]; intros m Hm; [done|]. cbn [for_vectors].
  destruct (f i (vector_info m !! i)) as [[info b]|e] eqn:E; [|done]. apply IH. intros j.
  change (GetChunkInfo (mark_changed ?m' b) j) with (GetChunkInfo m' j).
  destruct (decide (i < length (vector_info m))%nat) as [Hi|Hi].
  - rewrite put_info by done. case_decide; [|apply Hm]. eapply Hf; [exact E|]. rewrite <- GetChunkInfo_default. apply Hm.
  - rewrite GetChunkInfo_set, list_insert_ge, <- GetChunkInfo_default by lia. apply Hm.
Qed.

Lemma new_convertible s : all_convertible (new_manager s).
Proof. by intros [|i] info. Qed.

Lemma CommitAppend_convertible m commit_id s count :
  all_convertible m -> all_convertible (CommitAppend m commit_id s count).1.
Proof.
  unfold CommitAppend. case_match; [done|]. apply for_vectors_convertible.
  intros i [[c|]|] info b; [|done..]. intros [= <- <-] Hc info' [= E].
  destruct c as [c|c]; [|done]. injection E as <-. by apply (Hc c).
Qed.

Lemma AppendVersionInfo_convertible m T count s e :
  all_convertible m -> all_convertible (AppendVersionInfo m T count s e).1.
Proof.
  intros Hm. unfold AppendVersionInfo. apply for_vectors_convertible.
  - intros i slot info b. unfold append_vector. case_match; [by intros [= <- <-] _ info' [= <-]|].
    destruct slot as [[[c|c]|]|]; intros [= <- <-] _; by intros info'.
  - intros i. rewrite Fill_info. apply Hm.
Qed.

Lemma RevertAppend_convertible m k : all_convertible m -> all_convertible (RevertAppend m k).
Proof. intros Hm i. rewrite RevertAppend_info. by case_decide. Qed.

Lemma CommitDelete_convertible m i commit_id d :
  all_convertible m -> all_convertible (CommitDelete m i commit_id d).
Proof.
  intros Hm j. unfold CommitDelete. rewrite (surjective_pairing (GetVectorInfo _ i)).
  rewrite (GetVectorInfo_slots (mark_changed m true)). case_decide; [done|apply Hm].
Qed.

Lemma SetStart_info m new_start i :
  GetChunkInfo (SetStart m new_start) i
  = (fun c => ChunkInfo.set_start c (vector_start new_start i)) <$> GetChunkInfo m i.
Proof.
  unfold GetChunkInfo, SetStart. cbn [vector_info]. rewrite list_lookup_imap. by destruct (vector_info m !! i) as [[c|]|].
Qed.

(** Moving a row group keeps its versions. *)
Lemma SetStart_spec n m new_start :
  (inv n m -> inv n (SetStart m new_start)) /\ (all_convertible m -> all_convertible (SetStart m new_start))
  /\ forall r, row_ids (SetStart m new_start) r = row_ids m r.
Proof.
  assert (forall c s r, info_ids (Some (ChunkInfo.set_start c s)) r = info_ids (Some c) r) as Hids by by intros [c|c].
  split; [|split].
  - intros Hm i. rewrite SetStart_info. specialize (Hm i). destruct (GetChunkInfo m i) as [c|]; [|done].
    destruct Hm as (H1 & H2 & H3). split; [|split].
    + destruct c as [c|c]; [done|]. by destruct H1.
    + intros info. destruct c as [c|c]; [|done]. intros _. by apply (H2 c).
    + intros r Hr. rewrite Hids. by apply H3.
  - intros Hm i info. rewrite SetStart_info. specialize (Hm i). destruct (GetChunkInfo m i) as [[c|c]|]; [|done..].
    intros [= <-]. by apply (Hm c).
  - intros r. unfold row_ids. rewrite SetStart_info. destruct (GetChunkInfo m (r / STANDARD_VECTOR_SIZE)); [apply Hids|done].
Qed.

(** ** Scanning *)

Lemma GetSelVector_selects m n T i sel max_count :
  inv n m -> proper T -> (max_count <= rows_in n i)%nat -> (max_count <= length sel)%nat ->
  selects (fun r => Fetch m T (i * STANDARD_VECTOR_SIZE + r)) max_count
          (GetSelVector m T i sel max_count).
Proof.
  intros Hinv HT Hm Hs. unfold GetSelVector. specialize (Hinv i).
  assert (forall r, (r < max_count)%nat ->
            Fetch m T (i * STANDARD_VECTOR_SIZE + r) = opt_Fetch (GetChunkInfo m i) T r) as Hf.
  { intros r Hr. rewrite Fetch_row_ids, row_ids_join, <- opt_Fetch_ids by (done || unfold rows_in in *; lia). done. }
  destruct (GetChunkInfo m i) as [c|].
  - eapply selects_ext; [|eapply TemplatedGetSelVector_selects;
      [apply Hinv|done|done|apply use_deleted_NOT_DELETED, HT]].
    intros r Hr. by rewrite Hf, <- Fetch_visible by done.
  - eapply (selects_const true). intros r Hr. by rewrite Hf by done.
Qed.

Definition committed_deleted (ids : Z * Z) : bool := ids.2 <? TRANSACTION_ID_START.

Lemma chunk_deleted_count n i c max_count :
  slot_inv n i (Some c) -> (max_count <= STANDARD_VECTOR_SIZE)%nat ->
  ChunkInfo.GetCommittedDeletedCount c max_count
  = length (select (fun r => committed_deleted (info_ids (Some c) r)) max_count).
Proof.
  intros (Hwf & _ & _) Hm. destruct c as [info|info]; cbn [ChunkInfo.GetCommittedDeletedCount].
  - unfold c_GetCommittedDeletedCount, committed_deleted. cbn [info_ids snd].
    destruct (c_delete_id info <? TRANSACTION_ID_START).
    + rewrite select_true by done. by rewrite length_seq.
    + by rewrite select_false.
  - unfold v_GetCommittedDeletedCount. destruct (any_deleted info) eqn:E; [done|].
    simpl. rewrite select_false; [done|]. intros r Hr. destruct Hwf as [_ _ _ _ W5].
    unfold committed_deleted. cbn [info_ids snd]. by rewrite W5 by (done || lia).
Qed.

Lemma deleted_count_loop m n count k :
  inv n m ->
  fold_left (fun deleted_count i =>
               match GetChunkInfo m i with
               | None => deleted_count
               | Some info =>
                   let max_count := Nat.min STANDARD_VECTOR_SIZE (count - i * STANDARD_VECTOR_SIZE) in
                   (deleted_count + ChunkInfo.GetCommittedDeletedCount info max_count)%nat
               end) (seq 0 k) 0%nat
  = length (select (fun row => committed_deleted (row_ids m row)) (Nat.min count (k * STANDARD_VECTOR_SIZE))).
Proof.
  intros Hinv. induction k as [|k IH]; [by rewrite Nat.mul_0_l, Nat.min_0_r|].
  rewrite seq_S, fold_left_app, IH. cbn [fold_left]. rewrite Nat.add_0_l.
  set (mc := Nat.min STANDARD_VECTOR_SIZE (count - k * STANDARD_VECTOR_SIZE)).
  destruct (decide (count <= k * STANDARD_VECTOR_SIZE)%nat) as [Hle|Hgt].
  - assert (mc = 0)%nat as -> by lia. rewrite !Nat.min_l by lia.
    destruct (GetChunkInfo m k) as [c|] eqn:E; [|done]. cbv zeta.
    rewrite (chunk_deleted_count n k) by (first [rewrite <- E; apply Hinv | lia]). simpl. lia.
  - rewrite (Nat.min_r count (k * STANDARD_VECTOR_SIZE)) by lia.
    replace (Nat.min count (S k * STANDARD_VECTOR_SIZE)) with (k * STANDARD_VECTOR_SIZE + mc)%nat by lia.
    rewrite select_add. assert (mc <= STANDARD_VECTOR_SIZE)%nat as Hmc by lia.
    rewrite (select_ext (fun i => committed_deleted (row_ids m (k * STANDARD_VECTOR_SIZE + i)))
               (fun r => committed_deleted (info_ids (GetChunkInfo m k) r)))
      by (intros r Hr; by rewrite row_ids_join by lia).
    destruct (GetChunkInfo m k) as [c|] eqn:E.
    + cbv zeta. by rewrite (chunk_deleted_count n k) by (first [rewrite <- E; apply Hinv | lia]).
    + rewrite (select_false _ mc) by done. simpl. lia.
Qed.

(** ** Checkpoints *)

(** What a reader that sees all committed changes sees. *)
Definition checkpoint_reader : TransactionData :=
  mkTransactionData INVALID_INDEX (TRANSACTION_ID_START - 1).

(** [v_Write] looks at the insert ids through the summary fields only, so rows that were never
    appended do not matter. *)
Lemma v_Write_Read_partial n info rest :
  wf_vec n info -> inU 64 (v_start info) ->
  exists bytes c', v_Write info = Ok bytes /\ ChunkInfo.Read (bytes ++ rest) = Ok (c', rest)
    /\ forall T row, proper T -> (row < n)%nat ->
         opt_Fetch c' T row = checkpoint_visible (VECTOR_INFO info) row.
Proof.
  intros [W1 W2 W3 W4 W5] Hst.
  set (ins := if same_inserted_id info then replicate STANDARD_VECTOR_SIZE (insert_id info) else inserted info).
  set (full := mkVector (v_start info) ins (insert_id info) (same_inserted_id info) (deleted info) (any_deleted info)).
  assert (wf_vec STANDARD_VECTOR_SIZE full) as Hwf.
  { split; unfold full, ins; simpl; try done.
    - case_match; [apply length_replicate|done].
    - intros -> i Hi. by apply lookup_total_replicate. }
  destruct (v_Write_Read full rest Hwf Hst) as (bytes & c' & HW & HR & Hv).
  exists bytes, c'. split; [|split; [done|]].
  - rewrite <- HW. unfold v_Write, v_TemplatedGetSelVector, full, ins. simpl.
    destruct (same_inserted_id info), (any_deleted info); reflexivity.
  - intros T row [HT H0] Hrow. rewrite Hv by (done || lia). unfold checkpoint_visible.
    cbn [row_visible full inserted deleted]. unfold ins. destruct (same_inserted_id info); [|done].
    rewrite lookup_total_replicate by lia. by rewrite W4 by done.
Qed.

(** An id is a timestamp or the id of a running transaction, and not one of the two values the
    checkpoint reader is made of. *)
Definition regular_id (id : Z) : Prop :=
  id < TRANSACTION_ID_START - 1 \/ TRANSACTION_ID_START <= id < INVALID_INDEX.

Definition writable (n i : nat) (c : ChunkInfo.t) : Prop :=
  (forall r, (r < rows_in n i)%nat -> regular_id (info_ids (Some c) r).1 /\ regular_id (info_ids (Some c) r).2)
  /\ match c with
     | CONSTANT_INFO info => inU 64 (c_start info)
     | VECTOR_INFO info => inU 64 (v_start info)
         /\ (any_deleted info = false ->
             forall r, (r < rows_in n i)%nat -> inserted info !!! r < TRANSACTION_ID_START)
     end.

Lemma checkpoint_regular id : regular_id id ->
  UseVersion checkpoint_reader id = (id <? TRANSACTION_ID_START).
Proof.
  intros H. unfold UseVersion, checkpoint_reader, TransactionVersionOperator.
  cbn [UseInsertedVersion start_time transaction_id]. unfold regular_id in H.
  destruct (Z.ltb_spec id (TRANSACTION_ID_START - 1)), (Z.eqb_spec id INVALID_INDEX),
    (Z.ltb_spec id TRANSACTION_ID_START); try done; lia.
Qed.

Lemma Write_Read_slot n i c rest :
  slot_inv n i (Some c) -> writable n i c -> ChunkInfo.HasDeletes c = true ->
  exists bytes c', ChunkInfo.Write c = Ok bytes /\ ChunkInfo.Read (bytes ++ rest) = Ok (c', rest)
    /\ forall T r, proper T -> (r < rows_in n i)%nat ->
         opt_Fetch c' T r = visible checkpoint_reader (info_ids (Some c) r).
Proof.
  intros (Hwf & _ & _) [Hreg Hw] Hd. destruct c as [info|info].
  - eexists _, (Some (CONSTANT_INFO (mkConstant (c_start info) 0 0))). split; [done|]. split.
    + cbn [app]. unfold ChunkInfo.Read.
      change (TYPE_CONSTANT_INFO :: ?x ++ rest) with (le_bytes 1 TYPE_CONSTANT_INFO ++ (x ++ rest)).
      rewrite read_le_write by done. cbn [mbind result_bind]. unfold c_Read. simpl (_ =? _). cbv iota.
      rewrite read_le_write by done. done.
    + intros T r [HT H0] Hr. simpl. unfold c_Fetch. simpl. rewrite UseVersion_committed by done.
      simpl. symmetry. unfold visible. cbn [info_ids fst snd].
      destruct (Hreg r Hr) as [H1 H2]. cbn [info_ids fst snd] in H1, H2.
      rewrite !checkpoint_regular by done. simpl in Hd. unfold c_HasDeletes in Hd.
      destruct (Z.leb_spec TRANSACTION_ID_START (c_insert_id info)),
        (Z.ltb_spec (c_delete_id info) TRANSACTION_ID_START),
        (Z.ltb_spec (c_insert_id info) TRANSACTION_ID_START); try done; lia.
  - destruct Hw as [Hst _]. destruct (v_Write_Read_partial (rows_in n i) info rest Hwf Hst) as (bytes & c' & H1 & H2 & H3).
    by exists bytes, c'.
Qed.

Lemma no_deletes_visible n i c r :
  slot_inv n i (Some c) -> writable n i c -> ChunkInfo.HasDeletes c = false -> (r < rows_in n i)%nat ->
  visible checkpoint_reader (info_ids (Some c) r) = true.
Proof.
  intros (Hwf & _ & _) [Hreg Hw] Hd Hr. unfold visible. destruct (Hreg r Hr) as [H1 H2].
  rewrite !checkpoint_regular by done. destruct c as [info|info]; cbn [info_ids fst snd] in *.
  - simpl in Hd. unfold c_HasDeletes in Hd.
    destruct (Z.leb_spec TRANSACTION_ID_START (c_insert_id info)),
        (Z.ltb_spec (c_delete_id info) TRANSACTION_ID_START),
        (Z.ltb_spec (c_insert_id info) TRANSACTION_ID_START); try done; lia.
  - simpl in Hd. unfold v_HasDeletes in Hd. destruct Hw as [_ Hw]. specialize (Hw Hd r Hr).
    destruct Hwf as [_ _ W3 _ W5]. rewrite W5 by (done || lia).
    by destruct (Z.ltb_spec (inserted info !!! r) TRANSACTION_ID_START); [|lia].
Qed.

Definition entry_ok (n : nat) (entry : nat * ChunkInfo.t) : Prop :=
  slot_inv n entry.1 (Some entry.2) /\ writable n entry.1 entry.2
  /\ ChunkInfo.HasDeletes entry.2 = true
  /\ Z.of_nat entry.1 * Z.of_nat STANDARD_VECTOR_SIZE < MAX_ROW_GROUP_SIZE.

(** A slot that was read back shows what the checkpoint reader saw. *)
Definition reads_as (n : nat) (acc : t) (entry : nat * ChunkInfo.t) : Prop :=
  forall T r, proper T -> (r < rows_in n entry.1)%nat ->
    opt_Fetch (GetChunkInfo acc entry.1) T r = visible checkpoint_reader (info_ids (Some entry.2) r).

Lemma read_chunks_write n entries :
  NoDup entries.*1 -> Forall (entry_ok n) entries ->
  exists body, write_entries entries = Ok body /\ forall acc rest,
    exists acc', read_chunks (length entries) acc (body ++ rest) = Ok (acc', rest)
      /\ Forall (reads_as n acc') entries
      /\ forall i, i ∉ entries.*1 -> GetChunkInfo acc' i = GetChunkInfo acc i.
Proof.
  induction entries as [|[i c] entries IH]; intros Hnd Hok.
  - exists []. split; [done|]. intros acc rest. exists acc. split; [done|]. split; [by constructor|done].
  - rewrite fmap_cons in Hnd. cbn [fst] in Hnd. apply NoDup_cons in Hnd as [Hni Hnd].
    apply Forall_cons_1 in Hok as [(H1 & H2 & H3 & H4) Hok]. cbn [fst snd] in H1, H2, H3, H4.
    destruct (IH Hnd Hok) as (body & Hbody & Hread).
    destruct (Write_Read_slot n i c [] H1 H2 H3) as (bytes & _ & HW & _ & _).
    eexists. split; [cbn [write_entries]; rewrite HW; cbn [mbind result_bind]; rewrite Hbody; reflexivity|].
    intros acc rest.
    destruct (Write_Read_slot n i c (body ++ rest) H1 H2 H3) as (bytes' & c' & HW' & HR & Hv).
    assert (bytes' = bytes) as -> by congruence.
    assert (HM : MAX_ROW_GROUP_SIZE = 2 ^ 30) by reflexivity.
    pose proof SVS_eq as HS. cbn [read_chunks length]. rewrite <- !app_assoc, read_le_write.
    2: { unfold inU. change (2 ^ (8 * Z.of_nat 8)) with (2 ^ 64). rewrite HM, HS in H4. lia. }
    cbn [mbind result_bind]. rewrite (wrapU_small 64).
    2: { unfold inU. rewrite HM in H4. lia. }
    destruct (Z.leb_spec MAX_ROW_GROUP_SIZE (Z.of_nat i * Z.of_nat STANDARD_VECTOR_SIZE)); [lia|].
    rewrite Nat2Z.id, HR. cbn [mbind result_bind].
    match goal with |- context [read_chunks _ ?a _] => destruct (Hread a rest) as (acc' & HRd & Hall & Hother) end.
    assert (forall j, GetChunkInfo (set_vectors (FillVectorInfo acc i)
               (<[i := c']> (vector_info (FillVectorInfo acc i)))) j
             = if decide (j = i) then c' else GetChunkInfo acc j) as Hset.
    { intros j. rewrite put_info by apply Fill_length. by rewrite Fill_info. }
    exists acc'. split; [exact HRd|]. split.
    + constructor; [|done]. intros T r HT Hr. cbn [fst snd] in *. rewrite Hother, Hset by done.
      rewrite decide_True by done. by apply Hv.
    + intros j Hj. rewrite fmap_cons in Hj. cbn [fst] in Hj. apply not_elem_of_cons in Hj as [Hj1 Hj2].
      rewrite Hother, Hset by done. by rewrite decide_False.
Qed.

Lemma to_serialize_elem m i c :
  (i, c) ∈ to_serialize m <-> GetChunkInfo m i = Some c /\ ChunkInfo.HasDeletes c = true.
Proof.
  unfold to_serialize. rewrite list_elem_of_omap. split.
  - intros (j & _ & Hj). destruct (GetChunkInfo m j) as [c'|] eqn:E; [|done].
    destruct (ChunkInfo.HasDeletes c') eqn:Ed; [|done]. injection Hj as <- <-. done.
  - intros [Hc Hd]. exists i. rewrite Hc, Hd. split; [|done]. apply elem_of_seq.
    rewrite GetChunkInfo_default in Hc. destruct (vector_info m !! i) as [x|] eqn:E; [|done].
    apply lookup_lt_Some in E. lia.
Qed.

Lemma to_serialize_NoDup m : NoDup (to_serialize m).*1.
Proof.
  unfold to_serialize. generalize (NoDup_seq 0 (length (vector_info m))).
  generalize (seq 0 (length (vector_info m))) as l. intros l. induction 1 as [|i l Hni Hnd IH]; [constructor|].
  simpl. destruct (GetChunkInfo m i) as [c|]; [|done]. destruct (ChunkInfo.HasDeletes c); [|done].
  simpl. constructor; [|done]. intros (x & -> & Hx)%list_elem_of_fmap.
  apply list_elem_of_omap in Hx as (j & Hj & Hx).
  destruct (GetChunkInfo m j) as [c'|]; [|done]. destruct (ChunkInfo.HasDeletes c'); [|done].
  injection Hx as <-. done.
Qed.

(** Every vector of the row group has writable version information and an index the format takes. *)
Definition checkpointable (n : nat) (m : t) : Prop :=
  (forall i c, GetChunkInfo m i = Some c -> writable n i c)
  /\ Z.of_nat (length (vector_info m)) * Z.of_nat STANDARD_VECTOR_SIZE <= MAX_ROW_GROUP_SIZE.

Lemma Checkpoint_Deserialize m n st :
  inv n m -> has_unserialized_changes m = true -> checkpointable n m ->
  exists m' bytes r, Checkpoint m = Ok (m', bytes) /\ Deserialize bytes st = Ok r
    /\ has_unserialized_changes m' = false
    /\ forall T row, proper T -> (row < n)%nat ->
         match r with Some loaded => Fetch loaded T row | None => true end
         = visible checkpoint_reader (row_ids m row).
Proof.
  intros Hinv Hch [Hwr Hlen]. pose proof SVS_eq as HS.
  assert (HM : MAX_ROW_GROUP_SIZE = 2 ^ 30) by reflexivity.
  assert (forall i c, GetChunkInfo m i = Some c -> (i < length (vector_info m))%nat) as Hi.
  { intros i c Hc. rewrite GetChunkInfo_default in Hc.
    destruct (vector_info m !! i) as [x|] eqn:E; [|done]. by apply lookup_lt_Some in E. }
  assert (Forall (entry_ok n) (to_serialize m)) as Hok.
  { apply Forall_forall. intros [i c] [Hc Hd]%to_serialize_elem. split_and!; cbn [fst snd].
    - rewrite <- Hc. apply Hinv.
    - by apply Hwr.
    - done.
    - specialize (Hi i c Hc). nia. }
  destruct (read_chunks_write n (to_serialize m) (to_serialize_NoDup m) Hok) as (body & Hbody & Hread).
  (* what an unserialized slot shows *)
  assert (forall T row, proper T -> (row < n)%nat ->
            (row / STANDARD_VECTOR_SIZE)%nat ∉ (to_serialize m).*1 ->
            visible checkpoint_reader (row_ids m row) = true) as Hskip.
  { intros T row HT Hrow Hns. unfold row_ids. destruct (vector_row_split row) as [E Hr].
    set (i := (row / STANDARD_VECTOR_SIZE)%nat) in *.
    destruct (GetChunkInfo m i) as [c|] eqn:Ec; [|by vm_compute].
    destruct (ChunkInfo.HasDeletes c) eqn:Ed.
    - destruct Hns. apply list_elem_of_fmap. exists (i, c). split; [done|]. by apply to_serialize_elem.
    - eapply (no_deletes_visible n i); [rewrite <- Ec; apply Hinv|by apply Hwr|done|].
      apply rows_in_lt. lia. }
  unfold Checkpoint. rewrite Hch. cbn [negb].
  destruct (to_serialize m) as [|entry l] eqn:El.
  - eexists _, _, None. split; [done|]. split; [done|]. split; [done|].
    intros T row HT Hrow. symmetry. apply (Hskip T); [done|done|apply not_elem_of_nil].
  - rewrite <- El in *. rewrite Hbody. cbn [mbind result_bind].
    set (hdr := le_bytes 8 (Z.of_nat (length (to_serialize m)))).
    destruct (Hread (mk st [] false (hdr ++ body)) []) as (acc & HR & Hall & Hother).
    eexists _, _, (Some (mk (start acc) (vector_info acc) false (hdr ++ body))).
    split; [done|]. split.
    + unfold Deserialize.
      assert (read_le 8 (hdr ++ body) = Ok (Z.of_nat (length (to_serialize m)), body)) as Hh.
      { unfold hdr. apply read_le_write. unfold inU. change (2 ^ (8 * Z.of_nat 8)) with (2 ^ 64).
        unfold to_serialize. pose proof (omap_length_le
          (fun vector_idx => match GetChunkInfo m vector_idx with
             | Some info => if ChunkInfo.HasDeletes info then Some (vector_idx, info) else None
             | None => None end) (seq 0 (length (vector_info m)))) as Hl.
        rewrite length_seq in Hl. lia. }
      rewrite Hh. rewrite app_nil_r in HR. cbn [mbind result_bind]. rewrite Nat2Z.id, HR.
      destruct (hdr ++ body) eqn:Ehb; [|done].
      unfold hdr in Ehb. apply app_nil in Ehb as [Ehb _]. done.
    + split; [done|]. intros T row HT Hrow.
      rewrite Fetch_row_ids by done. unfold row_ids at 1.
      change (GetChunkInfo (mk _ (vector_info acc) _ _) ?i) with (GetChunkInfo acc i).
      rewrite <- opt_Fetch_ids by done. destruct (vector_row_split row) as [E Hr].
      destruct (decide ((row / STANDARD_VECTOR_SIZE)%nat ∈ (to_serialize m).*1)) as [Hin|Hni].
      * apply list_elem_of_fmap in Hin as ([i c] & Ei & Hin). cbn [fst] in Ei.
        rewrite Forall_forall in Hall. specialize (Hall _ Hin). apply to_serialize_elem in Hin as [Hc _].
        unfold row_ids. rewrite Ei, Hc. apply Hall; [done|]. apply rows_in_lt. cbn [fst]. rewrite <- Ei. lia.
      * rewrite Hother by done. rewrite (Hskip T) by done. done.
Qed.

(** ** Properties *)

Lemma visible_uncommitted T id del :
  start_time T <= id -> id <> transaction_id T -> visible T (id, del) = false.
Proof.
  intros H1 H2. unfold visible, UseVersion, TransactionVersionOperator. cbn [UseInsertedVersion fst].
  destruct (Z.ltb_spec id (start_time T)), (Z.eqb_spec id (transaction_id T)); (done || lia).
Qed.

Lemma empty_inv n st : inv n (new_manager st).
Proof. intros i. done. Qed.

Lemma new_manager_ids st row : row_ids (new_manager st) row = (0, NOT_DELETED_ID).
Proof. reflexivity. Qed.


(** Bounds on a literal list of row offsets. *)
Ltac solve_rows :=
  repeat first [apply Forall_nil_2 | apply Forall_cons_2; [unfold rows_in; slia|]].


(** Reverting an append undoes it: the row group is again a correct one of the old size, and
    every old row has its old ids, also in the vector the append had started to fill. *)
Theorem append_revert_restores m T k count e :
  inv count m -> (count < e)%nat ->
  let m' := RevertAppend (AppendVersionInfo m T k count e).1 count in
  inv count m' /\ forall row, (row < count)%nat -> row_ids m' row = row_ids m row.
Proof. apply AppendRevert_spec. Qed.

Lemma append_revert_restores_witness :
  inv 0 (RevertAppend (AppendVersionInfo (new_manager 0) (mkTransactionData 50 2) 5 0 5).1 0).
Proof.
  destruct (append_revert_restores (new_manager 0) (mkTransactionData 50 2) 5 0 5) as [H _].
  - apply empty_inv.
  - lia.
  - exact H.
Defined.

(** C17 Dropping version information is invisible.  [CleanupAppend], called with the lowest active
    start time, never fails, keeps the invariant, and every transaction that is still active or
    starts later reads every row of the row group exactly as before. *)
Theorem cleanup_append_invisible m n lowest s count T :
  inv n m -> (s + count <= n)%nat -> ordered_inserts m ->
  proper T -> lowest <= start_time T ->
  (forall row, (row < n)%nat -> (row_ids m row).1 <> start_time T) ->
  let r := CleanupAppend m lowest s count in
  r.2 = Ok tt /\ inv n r.1 /\ forall row, Fetch r.1 T row = Fetch m T row.
Proof. apply CleanupAppend_spec. Qed.

Lemma cleanup_append_invisible_witness :
  Fetch (CleanupAppend (AppendVersionInfo (new_manager 0) (mkTransactionData 5 2) 2048 0 2048).1 5 0 2048).1
        (mkTransactionData 50 6) 3 = true.
Proof.
  destruct (AppendVersionInfo_spec (new_manager 0) (mkTransactionData 5 2) 2048 0 2048) as (_ & Hi & Hids & _).
  - apply empty_inv.
  - lia.
  - set (m := (AppendVersionInfo (new_manager 0) (mkTransactionData 5 2) 2048 0 2048).1) in *.
    destruct (cleanup_append_invisible m 2048 5 0 2048 (mkTransactionData 50 6)) as (_ & _ & H).
    + exact Hi.
    + lia.
    + intros i. rewrite !Hids, !new_manager_ids.
      repeat case_decide; cbn [fst transaction_id]; (lia || (exfalso; slia)).
    + split; [split; vm_compute; congruence|vm_compute; reflexivity].
    + cbn [start_time]. lia.
    + intros row Hrow. rewrite Hids. rewrite decide_True by lia. cbn. lia.
    + rewrite H. vm_compute. reflexivity.
Defined.

(** Deleting rows of a vector detects write-write conflicts.  [DeleteRows] succeeds only if no
    requested row carries another transaction's delete id; it then stamps exactly the requested rows and
    reports, without duplicates, exactly those that were not yet deleted.  Otherwise it throws a
    [TransactionException] and changes only rows this transaction had itself deleted. *)
Theorem delete_rows_conflicts m n i tid rows count :
  inv n m -> convertible (GetChunkInfo m i) -> tid <> NOT_DELETED_ID -> (count <= length rows)%nat ->
  Forall (fun r => (r < rows_in n i)%nat) rows ->
  let '(m', rows', res) := DeleteRows m i tid rows count in
  let requested row := (row / STANDARD_VECTOR_SIZE = i)%nat
                       /\ (row mod STANDARD_VECTOR_SIZE)%nat ∈ take count rows in
  inv n m'
  /\ match res with
     | Ok k =>
         (forall row, requested row -> row_deletable tid (row_ids m row))
         /\ NoDup (take k rows')
         /\ (forall r, (r < STANDARD_VECTOR_SIZE)%nat ->
               r ∈ take k rows' <-> r ∈ take count rows
                 /\ (row_ids m (i * STANDARD_VECTOR_SIZE + r)).2 = NOT_DELETED_ID)
         /\ (forall row, requested row -> row_ids m' row = ((row_ids m row).1, tid))
         /\ (forall row, ~ requested row -> row_ids m' row = row_ids m row)
     | Throw e =>
         e = TransactionException
         /\ (exists row, requested row /\ ~ row_deletable tid (row_ids m row))
         /\ (forall row, (row_ids m row).2 <> tid -> row_ids m' row = row_ids m row)
     end.
Proof. apply DeleteRows_spec. Qed.

Lemma delete_rows_conflicts_witness :
  row_ids (DeleteRows (new_manager 0) 1 77 [4; 6]%nat 2).1.1 (2048 + 6) = (0, 77).
Proof.
  pose proof SVS_eq as HS.
  pose proof (delete_rows_conflicts (new_manager 0) 3000 1 77 [4; 6]%nat 2 (empty_inv _ _)
    ltac:(discriminate) ltac:(discriminate) ltac:(simpl; lia)
    ltac:(solve_rows)) as H.
  assert (R : (DeleteRows (new_manager 0) 1 77 [4; 6]%nat 2).2 = Ok 2%nat) by (vm_compute; reflexivity).
  destruct (DeleteRows (new_manager 0) 1 77 [4; 6]%nat 2) as [[m' rows'] res]. cbn [snd] in R. subst res.
  destruct H as (_ & _ & _ & _ & H & _). cbn [fst]. rewrite H.
  - reflexivity.
  - assert (STANDARD_VECTOR_SIZE = 2048%nat) as E by lia. rewrite E.
    split; [vm_compute; reflexivity|]. replace ((2048 + 6) mod 2048)%nat with 6%nat by (vm_compute; reflexivity).
    right. left.
Defined.

(** Scanning vector by vector reads the rows that point lookups report: the selection vector of
    vector [i] lists exactly the rows below [max_count] whose [Fetch] succeeds, and
    [GetCommittedDeletedCount] counts exactly the rows with a committed delete id. *)
Lemma scan_and_count_rows m n T i sel max_count count :
  inv n m -> proper T -> (max_count <= rows_in n i)%nat -> (max_count <= length sel)%nat ->
  selected_rows max_count (GetSelVector m T i sel max_count)
  = List.filter (fun r => Fetch m T (i * STANDARD_VECTOR_SIZE + r)) (seq 0 max_count)
  /\ GetCommittedDeletedCount m count
     = length (List.filter (fun row => (row_ids m row).2 <? TRANSACTION_ID_START) (seq 0 count)).
Proof.
  intros Hinv HT Hm Hs. split.
  - by apply (GetSelVector_selects m n T i sel max_count).
  - unfold GetCommittedDeletedCount. rewrite (deleted_count_loop m n) by done.
    rewrite Nat.min_l; [done|]. unfold vector_count. slia.
Qed.

Lemma scan_and_count_rows_witness :
  selected_rows 8 (GetSelVector (DeleteRows (new_manager 0) 0 5 [4; 6]%nat 2).1.1
                     (mkTransactionData 50 6) 0 (replicate 8 0%nat) 8) = [0; 1; 2; 3; 5; 7]%nat.
Proof.
  pose proof SVS_eq as HS.
  destruct (scan_and_count_rows (DeleteRows (new_manager 0) 0 5 [4; 6]%nat 2).1.1 2000
              (mkTransactionData 50 6) 0 (replicate 8 0%nat) 8 8) as [H _].
  - pose proof (DeleteRows_spec (new_manager 0) 2000 0 5 [4; 6]%nat 2 (empty_inv _ _)
      ltac:(discriminate) ltac:(discriminate) ltac:(simpl; lia)
      ltac:(solve_rows)) as H.
    destruct (DeleteRows (new_manager 0) 0 5 [4; 6]%nat 2) as [[m' rows'] res]. apply H.
  - split; [split; vm_compute; congruence|vm_compute; reflexivity].
  - unfold rows_in. lia.
  - simpl. lia.
  - etransitivity; [exact H|]. vm_compute. reflexivity.
Defined.

(** C19 A checkpoint saves the committed state.  For a row group with unserialized changes,
    [Checkpoint] succeeds and [Deserialize] of what it wrote yields version information under
    which every later transaction sees exactly the rows that are inserted and not deleted by
    committed transactions; vectors without deletes are rightly left out. *)
Theorem checkpoint_restores_committed m n st :
  inv n m -> has_unserialized_changes m = true -> checkpointable n m ->
  exists m' bytes r, Checkpoint m = Ok (m', bytes) /\ Deserialize bytes st = Ok r
    /\ has_unserialized_changes m' = false
    /\ forall T row, proper T -> (row < n)%nat ->
         match r with Some loaded => Fetch loaded T row | None => true end
         = visible checkpoint_reader (row_ids m row).
Proof. apply Checkpoint_Deserialize. Qed.

Lemma checkpoint_restores_committed_witness :
  exists m' bytes r,
    Checkpoint (DeleteRows (new_manager 0) 0 5 [4; 6]%nat 2).1.1 = Ok (m', bytes)
    /\ Deserialize bytes 0 = Ok r
    /\ match r with Some loaded => Fetch loaded (mkTransactionData 50 6) 6 | None => true end = false.
Proof.
  pose proof SVS_eq as HS.
  destruct (checkpoint_restores_committed (DeleteRows (new_manager 0) 0 5 [4; 6]%nat 2).1.1 8 0)
    as (m' & bytes & r & H1 & H2 & _ & H3).
  - pose proof (DeleteRows_spec (new_manager 0) 8 0 5 [4; 6]%nat 2 (empty_inv _ _)
      ltac:(discriminate) ltac:(discriminate) ltac:(simpl; lia)
      ltac:(solve_rows)) as H.
    destruct (DeleteRows (new_manager 0) 0 5 [4; 6]%nat 2) as [[m' rows'] res]. apply H.
  - vm_compute. reflexivity.
  - split.
    + intros i c Hc. destruct i as [|[|i]]; [|vm_compute in Hc; discriminate..].
      assert (c = VECTOR_INFO (Delete (new_vector 0) 5 [4; 6]%nat 2).1.1) as ->
        by (vm_compute in Hc |- *; congruence).
      clear Hc. split.
      * intros r Hr. unfold rows_in in Hr. unfold regular_id.
        do 8 (destruct r as [|r]; [split; [left; vm_compute; reflexivity|];
          first [left; vm_compute; reflexivity | right; split; vm_compute; congruence]|]). lia.
      * split; [split; vm_compute; congruence|]. intros Ha. vm_compute in Ha. discriminate.
    + vm_compute. congruence.
  - exists m', bytes, r. split; [exact H1|]. split; [exact H2|].
    etransitivity; [apply H3|].
    + split; [split; vm_compute; congruence|vm_compute; reflexivity].
    + lia.
    + vm_compute. reflexivity.
Defined.

End RowVersionManager.
