(* ===== verification/TransactionManager.v ===== *)
(** * The transaction manager

    Models src/src/transaction/duck_transaction_manager.cpp: timestamps, the lists of active,
    recently committed and old transactions, and the decision when the undo information of a
    transaction may be cleaned up.  Every operation runs under the transaction lock and is one
    step; the clean-up of a queued [DuckCleanupInfo] is a step of its own, since it runs after the
    lock was released.  A transaction is referred to by its transaction id, which is unique
    ([inv]), where the code uses its address.

    The contents of undo buffers are the subject of UndoBuffer.v; here a transaction only says
    whether it made changes. *)

From stdpp Require Import relations sorting.
From S2P Require Import Prelude ValidityMask ChunkInfo.

Module TransactionManager.
Import ChunkInfo.

Record DuckTransaction : Type := mkTx {
  tx_start_time : Z;
  tx_transaction_id : Z;
  commit_id : Z;
  active_query : Z;
  highest_active_query : Z;
  catalog_version : Z;
  awaiting_cleanup : bool;
  ChangesMade : bool
}.

Definition set_commit_id (t : DuckTransaction) (c : Z) : DuckTransaction :=
  mkTx (tx_start_time t) (tx_transaction_id t) c (active_query t) (highest_active_query t)
       (catalog_version t) (awaiting_cleanup t) (ChangesMade t).
Definition set_active_query (t : DuckTransaction) (q : Z) : DuckTransaction :=
  mkTx (tx_start_time t) (tx_transaction_id t) (commit_id t) q (highest_active_query t)
       (catalog_version t) (awaiting_cleanup t) (ChangesMade t).
Definition set_highest_active_query (t : DuckTransaction) (q : Z) : DuckTransaction :=
  mkTx (tx_start_time t) (tx_transaction_id t) (commit_id t) (active_query t) q
       (catalog_version t) (awaiting_cleanup t) (ChangesMade t).
Definition set_catalog_version (t : DuckTransaction) (v : Z) : DuckTransaction :=
  mkTx (tx_start_time t) (tx_transaction_id t) (commit_id t) (active_query t)
       (highest_active_query t) v (awaiting_cleanup t) (ChangesMade t).
Definition set_awaiting_cleanup (t : DuckTransaction) : DuckTransaction :=
  mkTx (tx_start_time t) (tx_transaction_id t) (commit_id t) (active_query t)
       (highest_active_query t) (catalog_version t) true (ChangesMade t).
Definition set_changes (t : DuckTransaction) : DuckTransaction :=
  mkTx (tx_start_time t) (tx_transaction_id t) (commit_id t) (active_query t)
       (highest_active_query t) (catalog_version t) (awaiting_cleanup t) true.

Record DuckCleanupInfo : Type := mkCleanup {
  lowest_start_time : Z;
  transactions : list DuckTransaction
}.

Definition ScheduleCleanup (info : DuckCleanupInfo) : bool :=
  match transactions info with [] => false | _ => true end.

Record t : Type := mk {
  current_start_timestamp : Z;
  current_transaction_id : Z;
  lowest_active_id : Z;
  lowest_active_start : Z;
  last_commit : Z;
  last_uncommitted_catalog_version : Z;
  last_committed_version : Z;
  active_transactions : list DuckTransaction;
  recently_committed_transactions : list DuckTransaction;
  old_transactions : list DuckTransaction;
  cleanup_queue : list DuckCleanupInfo
}.

Definition DuckTransactionManager : t :=
  mk 2 TRANSACTION_ID_START TRANSACTION_ID_START MAX_TRANSACTION_ID 0
     TRANSACTION_ID_START 0 [] [] [] [].

(** [StartTransaction]; the new transaction is the last active one. *)
Definition StartTransaction (m : t) : result (t * DuckTransaction) :=
  if TRANSACTION_ID_START <=? current_start_timestamp m then Throw InternalException
  else
    let start_time := current_start_timestamp m in
    let transaction_id := current_transaction_id m in
    let '(low_start, low_id) :=
      match active_transactions m with
      | [] => (start_time, transaction_id)
      | _ => (lowest_active_start m, lowest_active_id m)
      end in
    let transaction := mkTx start_time transaction_id 0 MAXIMUM_QUERY_ID 0
                            (last_committed_version m) false false in
    Ok (mk (current_start_timestamp m + 1) (current_transaction_id m + 1) low_id low_start
           (last_commit m) (last_uncommitted_catalog_version m) (last_committed_version m)
           (active_transactions m ++ [transaction]) (recently_committed_transactions m)
           (old_transactions m) (cleanup_queue m), transaction).

Definition GetCommitTimestamp (m : t) : t * Z :=
  let commit_ts := current_start_timestamp m in
  (mk (current_start_timestamp m + 1) (current_transaction_id m) (lowest_active_id m)
      (lowest_active_start m) commit_ts (last_uncommitted_catalog_version m)
      (last_committed_version m) (active_transactions m) (recently_committed_transactions m)
      (old_transactions m) (cleanup_queue m), commit_ts).

(** A change to one active transaction, in place. *)
Definition update_active (tid : Z) (f : DuckTransaction -> DuckTransaction) (m : t) : t :=
  mk (current_start_timestamp m) (current_transaction_id m) (lowest_active_id m)
     (lowest_active_start m) (last_commit m) (last_uncommitted_catalog_version m)
     (last_committed_version m)
     (map (fun x => if tx_transaction_id x =? tid then f x else x) (active_transactions m))
     (recently_committed_transactions m) (old_transactions m) (cleanup_queue m).

Definition find_active (m : t) (tid : Z) : option DuckTransaction :=
  find (fun x => tx_transaction_id x =? tid) (active_transactions m).

(** The longest prefix whose elements satisfy [P], and the rest. *)
Fixpoint split_while {A} (P : A -> bool) (l : list A) : list A * list A :=
  match l with
  | [] => ([], [])
  | x :: l' => if P x then let '(a, b) := split_while P l' in (x :: a, b) else ([], l)
  end.

Definition lowest (f : DuckTransaction -> Z) (init : Z) (l : list DuckTransaction) : Z :=
  fold_left (fun acc x => Z.min acc (f x)) l init.

Definition RemoveTransaction (m : t) (tid : Z) (store_transaction : bool) (current_query : Z)
    : t * DuckCleanupInfo :=
  let others := List.filter (fun x => negb (tx_transaction_id x =? tid)) (active_transactions m) in
  let lowest_start_time := lowest tx_start_time TRANSACTION_ID_START others in
  let lowest_transaction_id := lowest tx_transaction_id MAX_TRANSACTION_ID others in
  let lowest_active_query := lowest active_query MAXIMUM_QUERY_ID others in
  match find_active m tid with
  | None => (m, mkCleanup lowest_start_time [])
  | Some transaction =>
      let '(recent, old, direct) :=
        if store_transaction then
          if negb (commit_id transaction =? 0)
          then (recently_committed_transactions m ++ [transaction], old_transactions m, [])
          else (recently_committed_transactions m,
                old_transactions m ++ [set_highest_active_query transaction current_query], [])
        else if ChangesMade transaction
        then (recently_committed_transactions m, old_transactions m, [set_awaiting_cleanup transaction])
        else (recently_committed_transactions m, old_transactions m, []) in
      let '(moved, recent) := split_while (fun x => commit_id x <? lowest_start_time) recent in
      let old := old ++ map (fun x => set_highest_active_query (set_awaiting_cleanup x) current_query)
                            moved in
      let '(collected, old) :=
        match others with
        | [] => (old, [])
        | _ => split_while (fun x => highest_active_query x <? lowest_active_query) old
        end in
      (mk (current_start_timestamp m) (current_transaction_id m) lowest_transaction_id
          lowest_start_time (last_commit m) (last_uncommitted_catalog_version m)
          (last_committed_version m) others recent old (cleanup_queue m),
       mkCleanup lowest_start_time (direct ++ collected))
  end.

Definition push_cleanup (m : t) (info : DuckCleanupInfo) : t :=
  if ScheduleCleanup info then
    mk (current_start_timestamp m) (current_transaction_id m) (lowest_active_id m)
       (lowest_active_start m) (last_commit m) (last_uncommitted_catalog_version m)
       (last_committed_version m) (active_transactions m) (recently_committed_transactions m)
       (old_transactions m) (cleanup_queue m ++ [info])
  else m.

(** The part of a committing transaction's undo properties that decides whether it is kept. *)
Record UndoBufferProperties : Type := mkProps {
  has_updates : bool;
  has_index_deletes : bool;
  has_catalog_changes : bool;
  has_dropped_entries : bool
}.

(** [CommitTransaction] up to the release of the transaction lock.  [error] says that writing the
    WAL or committing the undo buffer failed, in which case the changes were rolled back. *)
Definition CommitTransaction (m : t) (tid : Z) (undo_properties : UndoBufferProperties)
    (error : bool) (current_query : Z) : t :=
  let '(m, ts) := GetCommitTimestamp m in
  let '(m, stored) :=
    if error then (update_active tid (fun x => set_commit_id x 0) m, true)
    else
      let m := update_active tid (fun x => set_commit_id x ts) m in
      match find_active m tid with
      | Some transaction =>
          if TRANSACTION_ID_START <=? catalog_version transaction then
            let v := last_committed_version m + 1 in
            let m := mk (current_start_timestamp m) (current_transaction_id m) (lowest_active_id m)
                        (lowest_active_start m) (last_commit m)
                        (last_uncommitted_catalog_version m) v (active_transactions m)
                        (recently_committed_transactions m) (old_transactions m) (cleanup_queue m) in
            (update_active tid (fun x => set_catalog_version x v) m, false)
          else (m, false)
      | None => (m, false)
      end in
  let store_transaction := has_updates undo_properties || has_index_deletes undo_properties
                           || has_catalog_changes undo_properties || stored in
  let '(m, cleanup_info) := RemoveTransaction m tid store_transaction current_query in
  push_cleanup m cleanup_info.

Definition RollbackTransaction (m : t) (tid : Z) (current_query : Z) : t :=
  let changes := match find_active m tid with Some x => ChangesMade x | None => false end in
  let '(m, cleanup_info) := RemoveTransaction m tid changes current_query in
  push_cleanup m cleanup_info.

(** The end of both: the first queued info is taken off and its transactions are cleaned up. *)
Definition PopCleanup (m : t) : option (t * DuckCleanupInfo) :=
  match cleanup_queue m with
  | [] => None
  | info :: queue =>
      Some (mk (current_start_timestamp m) (current_transaction_id m) (lowest_active_id m)
               (lowest_active_start m) (last_commit m) (last_uncommitted_catalog_version m)
               (last_committed_version m) (active_transactions m)
               (recently_committed_transactions m) (old_transactions m) queue, info)
  end.

(** [DuckCleanupInfo::Cleanup]: the transactions whose undo buffer is cleaned up. *)
Definition cleaned (info : DuckCleanupInfo) : list DuckTransaction :=
  List.filter awaiting_cleanup (transactions info).

Definition PushCatalogEntry (m : t) (tid : Z) : t :=
  let v := last_uncommitted_catalog_version m + 1 in
  update_active tid (fun x => set_changes (set_catalog_version x v))
    (mk (current_start_timestamp m) (current_transaction_id m) (lowest_active_id m)
        (lowest_active_start m) (last_commit m) v (last_committed_version m)
        (active_transactions m) (recently_committed_transactions m) (old_transactions m)
        (cleanup_queue m)).

(** ** Checkpoint decisions *)

Inductive CheckpointType : Type :=
| FULL_CHECKPOINT
| CONCURRENT_CHECKPOINT
| VACUUM_ONLY.

(** What [CanCheckpoint] asks of the database, the storage manager and the transaction. *)
Record CheckpointContext : Type := mkContext {
  IsSystem : bool;
  IsReadOnly : bool;
  IsLoaded : bool;
  AutomaticCheckpoint : bool;
  SkipCheckpointOnCommit : bool;
  GotCheckpointLock : bool;
  InMemory : bool;
  CompressionIsEnabled : bool
}.

(** The checkpoint type, or none when the commit cannot checkpoint. *)
Definition CanCheckpoint (m : t) (tid : Z) (c : CheckpointContext) (p : UndoBufferProperties)
    : option CheckpointType :=
  if IsSystem c then None
  else if IsReadOnly c then None
  else if negb (IsLoaded c) then None
  else if negb (AutomaticCheckpoint c) then None
  else if SkipCheckpointOnCommit c then None
  else if negb (GotCheckpointLock c) then None
  else
    let has_other_transactions :=
      existsb (fun x => negb (tx_transaction_id x =? tid)) (active_transactions m) in
    if has_other_transactions && (has_updates p || has_dropped_entries p) then None
    else
      let checkpoint_type :=
        if has_other_transactions then CONCURRENT_CHECKPOINT else FULL_CHECKPOINT in
      if InMemory c && negb (CompressionIsEnabled c) then
        match checkpoint_type with
        | CONCURRENT_CHECKPOINT => None
        | _ => Some VACUUM_ONLY
        end
      else Some checkpoint_type.

(** The type an explicit [Checkpoint] uses, once it has the exclusive checkpoint lock. *)
Definition Checkpoint_type (m : t) : CheckpointType :=
  if lowest_active_start m <? last_commit m then CONCURRENT_CHECKPOINT else FULL_CHECKPOINT.

(** ** The step relation *)

Inductive step : t -> t -> Prop :=
| step_start m m' tx : StartTransaction m = Ok (m', tx) -> step m m'
| step_query m tid q : step m (update_active tid (fun x => set_active_query x q) m)
| step_change m tid : step m (update_active tid set_changes m)
| step_catalog m tid : step m (PushCatalogEntry m tid)
| step_commit m tid p error q tx : find_active m tid = Some tx ->
    step m (CommitTransaction m tid p error q)
| step_rollback m tid q tx : find_active m tid = Some tx -> step m (RollbackTransaction m tid q)
| step_cleanup m m' info : PopCleanup m = Some (m', info) -> step m m'.

Definition reachable (m : t) : Prop := rtc step DuckTransactionManager m.

(** ** The invariant *)

(** Timestamps and identifiers of the active transactions.  [tid] may be in the middle of its
    commit with commit id [c]; every other active transaction has none. *)
Definition active_ok (tid c : Z) (m : t) (x : DuckTransaction) : Prop :=
  2 <= tx_start_time x < current_start_timestamp m
  /\ tx_start_time x < TRANSACTION_ID_START
  /\ TRANSACTION_ID_START <= tx_transaction_id x < current_transaction_id m
  /\ tx_transaction_id x < 2 * TRANSACTION_ID_START
  /\ commit_id x = (if tx_transaction_id x =? tid then c else 0).

Definition started_before (x y : DuckTransaction) : Prop :=
  tx_start_time x < tx_start_time y /\ tx_transaction_id x < tx_transaction_id y.

(** A transaction whose undo buffer may be cleaned up must not be needed by an active one: the
    active one started after it committed, or the clean-up respects the active one's start time. *)
Definition safe_for (info : DuckCleanupInfo) (x : DuckTransaction) : Prop :=
  forall y, y ∈ transactions info -> commit_id y <> 0 ->
    commit_id y < tx_start_time x \/ lowest_start_time info <= tx_start_time x.

Record inv_at (tid c : Z) (m : t) : Prop := {
  inv_counter : 2 <= current_start_timestamp m;
  inv_id_counter : TRANSACTION_ID_START <= current_transaction_id m
                   <= TRANSACTION_ID_START + current_start_timestamp m - 2;
  inv_commit : c = 0 \/ (2 < c < current_start_timestamp m
                 /\ Forall (fun y => commit_id y < c) (recently_committed_transactions m)
                 /\ Forall (fun x => tx_start_time x < c) (active_transactions m));
  inv_active : Forall (active_ok tid c m) (active_transactions m);
  inv_active_sorted : StronglySorted started_before (active_transactions m);
  inv_recent : Forall (fun y => tx_start_time y < commit_id y < current_start_timestamp m
                                /\ 2 < commit_id y) (recently_committed_transactions m);
  inv_recent_sorted : StronglySorted (fun x y => commit_id x < commit_id y)
                                     (recently_committed_transactions m);
  inv_distinct : forall x y, x ∈ active_transactions m -> y ∈ recently_committed_transactions m ->
                 tx_start_time x <> commit_id y;
  inv_old : forall x y, x ∈ active_transactions m -> y ∈ old_transactions m ->
            commit_id y <> 0 -> commit_id y < tx_start_time x;
  inv_old_commit : Forall (fun y => commit_id y < current_start_timestamp m) (old_transactions m);
  inv_queue : forall x info, x ∈ active_transactions m -> info ∈ cleanup_queue m -> safe_for info x;
  inv_queue_commit : forall info y, info ∈ cleanup_queue m -> y ∈ transactions info ->
                     commit_id y < current_start_timestamp m;
  inv_lowest : forall x l, active_transactions m = x :: l ->
               lowest_active_start m = tx_start_time x /\ lowest_active_id m = tx_transaction_id x
}.

Definition inv (m : t) : Prop := forall tid, inv_at tid 0 m.

Lemma split_while_spec {A} (P : A -> bool) l :
  let '(a, b) := split_while P l in l = a ++ b /\ Forall (fun x => P x = true) a.
Proof.
  induction l as [|x l IH]; [done|]. simpl. destruct (P x) eqn:E; [|done].
  destruct (split_while P l) as [a b]. destruct IH as [-> IH]. split; [done|]. by constructor.
Qed.

Lemma lowest_le f init l : lowest f init l <= init /\ Forall (fun x => lowest f init l <= f x) l.
Proof.
  unfold lowest. revert init. induction l as [|x l IH]; intros init; simpl; [split; [lia|constructor]|].
  destruct (IH (Z.min init (f x))) as [H1 H2]. split; [lia|]. constructor; [lia|done].
Qed.

(** On a list sorted by [f], the lowest value is the first one. *)
Lemma lowest_head f init x l :
  f x <= init -> Forall (fun y => f x <= f y) l -> lowest f init (x :: l) = f x.
Proof.
  intros Hx Hl. unfold lowest. simpl. rewrite Z.min_r by done. clear Hx.
  induction Hl as [|y l Hy Hl IH]; [done|]. simpl. by rewrite Z.min_l.
Qed.

Lemma filter_sorted {A} (R : A -> A -> Prop) (P : A -> bool) l :
  StronglySorted R l -> StronglySorted R (List.filter P l).
Proof.
  induction 1 as [|x l Hs IH Hx]; [constructor|]. simpl. destruct (P x); [|done].
  constructor; [done|]. rewrite Forall_forall in *. intros y Hy%list_elem_of_In.
  apply List.filter_In in Hy as [Hy _]. apply Hx. by apply list_elem_of_In.
Qed.

Lemma elem_of_filter_bool {A} (P : A -> bool) l x :
  x ∈ List.filter P l <-> x ∈ l /\ P x = true.
Proof. rewrite !list_elem_of_In. apply List.filter_In. Qed.

Lemma StronglySorted_app {A} (R : A -> A -> Prop) l x :
  StronglySorted R l -> Forall (fun y => R y x) l -> StronglySorted R (l ++ [x]).
Proof.
  induction 1 as [|y l Hs IH Hy]; intros Hx; simpl; [by repeat constructor|].
  apply Forall_cons_1 in Hx as [Hyx Hx]. constructor; [by apply IH|].
  apply Forall_app. by repeat constructor.
Qed.

Lemma StronglySorted_suffix {A} (R : A -> A -> Prop) a b :
  StronglySorted R (a ++ b) -> StronglySorted R b.
Proof. induction a as [|x a IH]; [done|]. simpl. intros H. apply IH. by inversion H. Qed.

Lemma inv_init : inv DuckTransactionManager.
Proof.
  intros tid. assert (forall A (x : A) P, x ∈ [] -> P) as Hn by (intros ? ? ? []%not_elem_of_nil).
  split; simpl; try (by constructor); try lia; try (intros; by eapply Hn); done.
Qed.

(** Transaction ids name active transactions. *)
Lemma active_unique tid c m x y :
  inv_at tid c m -> x ∈ active_transactions m -> y ∈ active_transactions m ->
  tx_transaction_id x = tx_transaction_id y -> x = y.
Proof.
  intros Hm. pose proof (inv_active_sorted _ _ _ Hm) as Hs.
  induction Hs as [|z l Hs IH Hz]; intros Hx Hy He; [by apply not_elem_of_nil in Hx|].
  rewrite Forall_forall in Hz.
  apply elem_of_cons in Hx as [->|Hx], Hy as [->|Hy]; [done| | |by apply IH].
  - specialize (Hz y Hy) as [_ ?]. lia.
  - specialize (Hz x Hx) as [_ ?]. lia.
Qed.

Lemma find_active_elem m tid x :
  find_active m tid = Some x -> x ∈ active_transactions m /\ tx_transaction_id x = tid.
Proof.
  unfold find_active. intros H. apply find_some in H as [H1 H2]. split; [by apply list_elem_of_In|].
  by apply Z.eqb_eq.
Qed.

Lemma StartTransaction_inv m m' tx : inv m -> StartTransaction m = Ok (m', tx) -> inv m'.
Proof.
  intros Hinv. unfold StartTransaction.
  destruct (Z.leb_spec TRANSACTION_ID_START (current_start_timestamp m)) as [|Hlt]; [done|].
  destruct (match active_transactions m with [] => _ | _ => _ end) as [ls li] eqn:El.
  intros [= <- <-] tid. destruct (Hinv tid) as [I1 I2 I3 I4 I5 I6 I7 I8 I9 I10 I11 I12 I13].
  split; simpl.
  - lia.
  - lia.
  - by left.
  - apply Forall_app. split.
    + eapply Forall_impl; [exact I4|]. unfold active_ok. simpl. intros x Hx. cbn in Hx |- *. intuition lia.
    + apply Forall_singleton. unfold active_ok. simpl. split_and!; try lia. by destruct (_ =? _).
  - apply StronglySorted_app; [done|]. eapply Forall_impl; [exact I4|].
    unfold active_ok, started_before. simpl. intros x Hx. intuition lia.
  - eapply Forall_impl; [exact I6|]. simpl. intros x Hx. lia.
  - done.
  - intros x y [Hx| ->%list_elem_of_singleton]%elem_of_app Hy; [by apply I8|].
    rewrite Forall_forall in I6. specialize (I6 y Hy). simpl. lia.
  - intros x y [Hx| ->%list_elem_of_singleton]%elem_of_app Hy Hc; [by apply I9|].
    rewrite Forall_forall in I10. specialize (I10 y Hy). simpl. lia.
  - eapply Forall_impl; [exact I10|]. simpl. intros. lia.
  - intros x info [Hx| ->%list_elem_of_singleton]%elem_of_app Hy; [by apply I11|].
    intros y Hin _. left. simpl. by eapply I12.
  - intros info y H1 H2. specialize (I12 info y H1 H2). lia.
  - intros x l Hx. destruct (active_transactions m) as [|z l'].
    + simpl in Hx. injection Hx as <- <-. simpl. by injection El as <- <-.
    + injection Hx as <- _. injection El as <- <-. by eapply I13.
Qed.

(** Changes that leave every id and time of the active transactions alone. *)
Section update.
Context (tid c' : Z) (f : DuckTransaction -> DuckTransaction) (m m1 : t).
(** [f] keeps the times and ids; [m1] is [m] with other counters. *)
Hypothesis f_keeps : forall x, tx_start_time (f x) = tx_start_time x
                               /\ tx_transaction_id (f x) = tx_transaction_id x.

Let g (x : DuckTransaction) := if tx_transaction_id x =? tid then f x else x.

Lemma update_g_keeps x : tx_start_time (g x) = tx_start_time x /\ tx_transaction_id (g x) = tx_transaction_id x.
Proof. unfold g. by case_match. Qed.

Lemma update_active_elem x :
  x ∈ active_transactions (update_active tid f m) -> exists z, x = g z /\ z ∈ active_transactions m.
Proof.
  simpl. intros Hx. apply list_elem_of_In in Hx. apply List.in_map_iff in Hx as (z & <- & Hz).
  exists z. split; [done|]. by apply list_elem_of_In.
Qed.

Lemma update_active_sorted :
  StronglySorted started_before (active_transactions m) ->
  StronglySorted started_before (active_transactions (update_active tid f m)).
Proof.
  simpl. fold g. induction 1 as [|x l Hs IH Hx]; simpl; [constructor|]. constructor; [done|].
  apply Forall_forall. intros y Hy%list_elem_of_In. apply List.in_map_iff in Hy as (z & <- & Hz).
  apply list_elem_of_In in Hz. rewrite Forall_forall in Hx. specialize (Hx z Hz). unfold started_before in *.
  destruct (update_g_keeps x) as (-> & ->), (update_g_keeps z) as (-> & ->). done.
Qed.

Lemma update_active_inv_at c :
  inv_at tid c m ->
  (forall x, x ∈ active_transactions m -> tx_transaction_id x = tid -> commit_id (f x) = c') ->
  (c' = 0 \/ (2 < c' < current_start_timestamp m
              /\ Forall (fun y => commit_id y < c') (recently_committed_transactions m)
              /\ Forall (fun x => tx_start_time x < c') (active_transactions m))) ->
  inv_at tid c' (update_active tid f m).
Proof.
  intros [I1 I2 I3 I4 I5 I6 I7 I8 I9 I10 I11 I12 I13] Hf Hc.
  split; try done.
  - destruct Hc as [|(H1 & H2 & H3)]; [by left|right]. refine (conj H1 (conj H2 _)).
    apply Forall_forall. intros x (z & -> & Hz)%update_active_elem. rewrite Forall_forall in H3.
    destruct (update_g_keeps z) as (-> & _). by apply H3.
  - apply Forall_forall. intros x (z & -> & Hz)%update_active_elem. rewrite Forall_forall in I4.
    specialize (I4 z Hz). unfold active_ok in *. destruct (update_g_keeps z) as (-> & ->).
    destruct I4 as (A1 & A2 & A3 & A4 & Hcz). refine (conj A1 (conj A2 (conj A3 (conj A4 _)))). unfold g.
    destruct (Z.eqb_spec (tx_transaction_id z) tid); [by apply Hf|done].
  - by apply update_active_sorted.
  - intros x y (z & -> & Hz)%update_active_elem Hy. destruct (update_g_keeps z) as (-> & _). by apply I8.
  - intros x y (z & -> & Hz)%update_active_elem Hy. destruct (update_g_keeps z) as (-> & _). by apply I9.
  - intros x info (z & -> & Hz)%update_active_elem Hy. unfold safe_for.
    destruct (update_g_keeps z) as (-> & _). by apply I11.
  - intros x l Hx. cbn [update_active active_transactions] in Hx. fold g in Hx. cbn [lowest_active_start lowest_active_id update_active].
    destruct (active_transactions m) as [|z l']; [done|]. injection Hx as <- _.
    destruct (update_g_keeps z) as (-> & ->). by eapply I13.
Qed.

End update.

Lemma find_update m tid f x :
  (forall y, tx_transaction_id (f y) = tx_transaction_id y) ->
  find_active m tid = Some x -> find_active (update_active tid f m) tid = Some (f x).
Proof.
  intros Hf. unfold find_active. simpl. induction (active_transactions m) as [|y l IH]; [done|].
  simpl. destruct (Z.eqb_spec (tx_transaction_id y) tid) as [He|He].
  - intros [= ->]. by rewrite Hf, He, Z.eqb_refl.
  - destruct (Z.eqb_spec (tx_transaction_id y) tid); [done|]. apply IH.
Qed.

Lemma update_active_inv tid f m :
  (forall x, tx_start_time (f x) = tx_start_time x /\ tx_transaction_id (f x) = tx_transaction_id x
             /\ commit_id (f x) = commit_id x) ->
  inv m -> inv (update_active tid f m).
Proof.
  intros Hf Hinv tid'. assert (inv_at tid 0 (update_active tid f m)) as H.
  { apply (update_active_inv_at tid 0 f m) with (c := 0); [|done| |by left].
    - intros x. destruct (Hf x) as (? & ? & _). done.
    - intros x Hx Hid. destruct (Hf x) as (_ & _ & ->). destruct (Hinv tid) as [_ _ _ I4 _ _ _ _ _ _ _ _ _].
      rewrite Forall_forall in I4. destruct (I4 x Hx) as (_ & _ & _ & _ & Hc).
      by rewrite Hc; case_match. }
  destruct H. split; try done. eapply Forall_impl; [eassumption|].
  unfold active_ok. simpl. intros x (A1 & A2 & A3 & A4 & Hc). refine (conj A1 (conj A2 (conj A3 (conj A4 _)))).
  destruct (_ =? tid) in Hc; by destruct (_ =? tid').
Qed.

(** What the choice between keeping the ending transaction and cleaning it up guarantees. *)
Definition store_choice (m : t) (store_transaction : bool) (q : Z) (x : DuckTransaction)
    : list DuckTransaction * list DuckTransaction * list DuckTransaction :=
  if store_transaction then
    if negb (commit_id x =? 0)
    then (recently_committed_transactions m ++ [x], old_transactions m, [])
    else (recently_committed_transactions m, old_transactions m ++ [set_highest_active_query x q], [])
  else if ChangesMade x
  then (recently_committed_transactions m, old_transactions m, [set_awaiting_cleanup x])
  else (recently_committed_transactions m, old_transactions m, []).

Lemma store_choice_spec m tid c st q x (others : list DuckTransaction) :
  inv_at tid c m -> find_active m tid = Some x ->
  (forall z, z ∈ others -> z ∈ active_transactions m) ->
  let '(recent, old, direct) := store_choice m st q x in
  Forall (fun y => tx_start_time y < commit_id y < current_start_timestamp m /\ 2 < commit_id y) recent
  /\ StronglySorted (fun x y => commit_id x < commit_id y) recent
  /\ (forall z y, z ∈ others -> y ∈ recent -> tx_start_time z <> commit_id y)
  /\ (forall z y, z ∈ others -> y ∈ old -> commit_id y <> 0 -> commit_id y < tx_start_time z)
  /\ Forall (fun y => commit_id y < current_start_timestamp m) (old ++ direct).
Proof.
  intros Hm Hx Ho. destruct (find_active_elem _ _ _ Hx) as [Hin Hid].
  destruct Hm as [I1 I2 I3 I4 I5 I6 I7 I8 I9 I10 I11 I12 I13].
  assert (commit_id x = c) as Hc.
  { rewrite Forall_forall in I4. destruct (I4 x Hin) as (_ & _ & _ & _ & Hc).
    by rewrite Hid, Z.eqb_refl in Hc. }
  assert (c < current_start_timestamp m) as Hcl by (destruct I3; lia).
  unfold store_choice. rewrite Hc. destruct st.
  - destruct (Z.eqb_spec c 0) as [Hc0|Hc0]; cbn [negb].
    + split_and!; try done.
      * by intros z y Hz; apply I8, Ho.
      * intros z y Hz [Hy| ->%list_elem_of_singleton]%elem_of_app; [by apply I9; [apply Ho|]|].
        simpl. lia.
      * rewrite app_nil_r. apply Forall_app. split; [done|]. repeat constructor. simpl. lia.
    + destruct I3 as [|(Hc2 & Hrc & Hac)]; [done|]. rewrite Forall_forall in Hac. split_and!.
      * apply Forall_app. split; [done|]. apply Forall_singleton. rewrite Hc. specialize (Hac x Hin). simpl in Hac. lia.
      * apply StronglySorted_app; [done|]. by rewrite Hc.
      * intros z y Hz [Hy| ->%list_elem_of_singleton]%elem_of_app; [by apply I8; [apply Ho|]|].
        specialize (Hac z (Ho z Hz)). simpl in Hac. lia.
      * by intros z y Hz; apply I9, Ho.
      * by rewrite app_nil_r.
  - destruct (ChangesMade x).
    + split_and!; try done.
      * by intros z y Hz; apply I8, Ho.
      * by intros z y Hz; apply I9, Ho.
      * apply Forall_app. split; [done|]. apply Forall_singleton. simpl. lia.
    + split_and!; try done.
      * by intros z y Hz; apply I8, Ho.
      * by intros z y Hz; apply I9, Ho.
      * by rewrite app_nil_r.
Qed.

Lemma RemoveTransaction_eq m tid st q x :
  find_active m tid = Some x ->
  RemoveTransaction m tid st q =
  let others := List.filter (fun x => negb (tx_transaction_id x =? tid)) (active_transactions m) in
  let low := lowest tx_start_time TRANSACTION_ID_START others in
  let '(recent, old, direct) := store_choice m st q x in
  let '(moved, recent) := split_while (fun x => commit_id x <? low) recent in
  let old := old ++ map (fun x => set_highest_active_query (set_awaiting_cleanup x) q) moved in
  let '(collected, old) :=
    match others with
    | [] => (old, [])
    | _ => split_while (fun x => highest_active_query x <? lowest active_query MAXIMUM_QUERY_ID others) old
    end in
  (mk (current_start_timestamp m) (current_transaction_id m) (lowest tx_transaction_id MAX_TRANSACTION_ID others)
      low (last_commit m) (last_uncommitted_catalog_version m) (last_committed_version m) others recent old
      (cleanup_queue m),
   mkCleanup low (direct ++ collected)).
Proof. intros Hx. unfold RemoveTransaction, store_choice. rewrite Hx. done. Qed.

Lemma collect_spec {A} (others : list A) P (old : list DuckTransaction) :
  let '(collected, rest) := match others with [] => (old, []) | _ => split_while P old end in
  old = collected ++ rest.
Proof.
  destruct others; [by rewrite app_nil_r|]. pose proof (split_while_spec P old) as H.
  destruct (split_while P old). by destruct H.
Qed.

Lemma RemoveTransaction_inv m tid c st q x :
  inv_at tid c m -> find_active m tid = Some x ->
  let '(m', info) := RemoveTransaction m tid st q in
  inv m' /\ (forall z, z ∈ active_transactions m' -> safe_for info z)
  /\ Forall (fun y => commit_id y < current_start_timestamp m') (transactions info).
Proof.
  intros Hm Hx. rewrite (RemoveTransaction_eq m tid st q x Hx). cbv zeta.
  set (others := List.filter _ _). set (low := lowest _ _ others).
  assert (forall z, z ∈ others -> z ∈ active_transactions m /\ tx_transaction_id z <> tid) as Ho.
  { intros z [Hz Hn]%elem_of_filter_bool. split; [done|]. by destruct (Z.eqb_spec (tx_transaction_id z) tid). }
  pose proof (store_choice_spec m tid c st q x others Hm Hx (fun z Hz => proj1 (Ho z Hz))) as Hch.
  destruct (store_choice m st q x) as [[recent old] direct]. destruct Hch as (R1 & R2 & R3 & O1 & O2).
  pose proof (split_while_spec (fun x => commit_id x <? low) recent) as Hsp.
  destruct (split_while _ recent) as [moved recent']. destruct Hsp as [-> Hmoved].
  set (old' := old ++ map _ moved).
  pose proof (collect_spec others
    (fun x => highest_active_query x <? lowest active_query MAXIMUM_QUERY_ID others) old') as Hco.
  destruct (match others with [] => (old', []) | _ => _ end) as [collected rest].
  destruct Hm as [I1 I2 I3 I4 I5 I6 I7 I8 I9 I10 I11 I12 I13].
  destruct (lowest_le tx_start_time TRANSACTION_ID_START others) as [_ Hlow]. fold low in Hlow.
  rewrite Forall_forall in Hlow.
  assert (forall z y, z ∈ others -> y ∈ old' -> commit_id y <> 0 -> commit_id y < tx_start_time z) as Hold.
  { intros z y Hz [Hy|Hy]%elem_of_app Hc0; [by apply O1|].
    apply list_elem_of_In, List.in_map_iff in Hy as (w & <- & Hw). simpl in *.
    apply list_elem_of_In in Hw. rewrite Forall_forall in Hmoved. specialize (Hmoved w Hw).
    apply Z.ltb_lt in Hmoved. specialize (Hlow z Hz). lia. }
  apply Forall_app in O2 as [O2 D2]. apply Forall_app in R1 as [R1m R1].
  assert (Forall (fun y => commit_id y < current_start_timestamp m) old') as Hold'.
  { apply Forall_app. split; [done|]. apply Forall_forall. intros y Hy%list_elem_of_In.
    apply List.in_map_iff in Hy as (w & <- & Hw). apply list_elem_of_In in Hw. simpl.
    rewrite Forall_forall in R1m. specialize (R1m w Hw). simpl in R1m. lia. }
  rewrite Hco in Hold'. apply Forall_app in Hold' as [HoC HoR].
  split; [|split].
  - intros tid'. split; simpl.
    + done.
    + done.
    + by left.
    + apply Forall_forall. intros z Hz. destruct (Ho z Hz) as [Hz1 Hz2]. rewrite Forall_forall in I4.
      specialize (I4 z Hz1). unfold active_ok in *. simpl. destruct I4 as (? & ? & ? & ? & Hc).
      split_and!; try lia. destruct (Z.eqb_spec (tx_transaction_id z) tid); [done|]. by destruct (_ =? tid').
    + by apply filter_sorted.
    + done.
    + by eapply StronglySorted_suffix.
    + intros z y Hz Hy. apply R3; [done|]. apply elem_of_app. by right.
    + intros z y Hz Hy. apply Hold; [done|]. rewrite Hco. apply elem_of_app. by right.
    + done.
    + intros z info Hz Hi. apply I11; [by apply Ho|done].
    + done.
    + intros z l Hz. unfold low. rewrite Hz.
      assert (StronglySorted started_before others) as Hs by by apply filter_sorted.
      rewrite Hz in Hs. apply StronglySorted_inv in Hs as [_ Hs].
      assert (z ∈ others) as Hzo by (rewrite Hz; left). destruct (Ho z Hzo) as [Hz1 _].
      rewrite Forall_forall in I4. destruct (I4 z Hz1) as (? & ? & ? & ? & _).
      assert (2 * TRANSACTION_ID_START < MAX_TRANSACTION_ID) as HM by reflexivity.
      split; apply lowest_head; try lia.
      * eapply Forall_impl; [exact Hs|]. unfold started_before. simpl. intros; lia.
      * eapply Forall_impl; [exact Hs|]. unfold started_before. simpl. intros; lia.
  - intros z Hz y Hy Hc0. simpl in *. apply elem_of_app in Hy as [Hy|Hy].
    + right. by apply Hlow.
    + left. apply Hold; [done| |done]. rewrite Hco. apply elem_of_app. by left.
  - simpl. by apply Forall_app.
Qed.

Lemma GetCommitTimestamp_inv m : inv m -> inv (GetCommitTimestamp m).1.
Proof.
  intros Hinv tid. destruct (Hinv tid) as [I1 I2 I3 I4 I5 I6 I7 I8 I9 I10 I11 I12 I13].
  split; simpl; try done; try lia.
  - eapply Forall_impl; [exact I4|]. unfold active_ok. simpl. intros x Hx. cbn in Hx |- *. intuition lia.
  - eapply Forall_impl; [exact I6|]. simpl. intros x Hx. lia.
  - eapply Forall_impl; [exact I10|]. simpl. intros x Hx. lia.
  - intros info y H1 H2. specialize (I12 info y H1 H2). lia.
Qed.

Lemma push_cleanup_inv m info :
  inv m -> (forall z, z ∈ active_transactions m -> safe_for info z) ->
  Forall (fun y => commit_id y < current_start_timestamp m) (transactions info) ->
  inv (push_cleanup m info).
Proof.
  intros Hinv Hs Hc. unfold push_cleanup. destruct (ScheduleCleanup info); [|done].
  intros tid. destruct (Hinv tid) as [I1 I2 I3 I4 I5 I6 I7 I8 I9 I10 I11 I12 I13].
  rewrite Forall_forall in Hc. split; simpl; try done.
  - intros x i Hx [Hi| ->%list_elem_of_singleton]%elem_of_app; [by apply I11|by apply Hs].
  - intros i y [Hi| ->%list_elem_of_singleton]%elem_of_app; [by apply I12|by apply Hc].
Qed.

Lemma Remove_push_inv m tid c st q x :
  inv_at tid c m -> find_active m tid = Some x ->
  let '(m', info) := RemoveTransaction m tid st q in inv (push_cleanup m' info).
Proof.
  intros Hm Hx. pose proof (RemoveTransaction_inv m tid c st q x Hm Hx) as H.
  destruct (RemoveTransaction m tid st q) as [m' info]. destruct H as (H1 & H2 & H3).
  by apply push_cleanup_inv.
Qed.

(** The state in which a transaction that commits with [ts] is removed. *)
Lemma commit_stamped m tid x :
  inv m -> find_active m tid = Some x ->
  let m1 := (GetCommitTimestamp m).1 in
  let m2 := update_active tid (fun x => set_commit_id x (current_start_timestamp m)) m1 in
  inv_at tid (current_start_timestamp m) m2
  /\ find_active m2 tid = Some (set_commit_id x (current_start_timestamp m)).
Proof.
  intros Hinv Hx m1 m2. split.
  - apply (update_active_inv_at _ _ _ m1) with (c := 0); [done|by apply GetCommitTimestamp_inv|done|].
    right. destruct (Hinv tid) as [I1 _ _ I4 _ I6 _ _ _ _ _ _ _]. simpl.
    destruct (find_active_elem _ _ _ Hx) as [Hin _].
    pose proof I4 as I4'. rewrite Forall_forall in I4'. destruct (I4' x Hin) as (? & _).
    split_and!; try lia.
    + eapply Forall_impl; [exact I6|]. simpl. intros; lia.
    + eapply Forall_impl; [exact I4|]. unfold active_ok. simpl. intros; lia.
  - exact (find_update m1 tid (fun x => set_commit_id x _) x (fun _ => eq_refl) Hx).
Qed.

(** Only transient fields of the active transactions differ. *)
Definition same_shape (m m2 : t) : Prop :=
  map tx_transaction_id (active_transactions m2) = map tx_transaction_id (active_transactions m)
  /\ recently_committed_transactions m2 = recently_committed_transactions m
  /\ old_transactions m2 = old_transactions m
  /\ current_start_timestamp m2 = current_start_timestamp m + 1.

Lemma update_active_ids tid f m :
  (forall x, tx_transaction_id (f x) = tx_transaction_id x) ->
  map tx_transaction_id (active_transactions (update_active tid f m))
  = map tx_transaction_id (active_transactions m).
Proof.
  intros Hf. simpl. rewrite List.map_map. apply List.map_ext. intros x. case_match; [apply Hf|done].
Qed.

(** Every commit ends with the removal of the stamped transaction from a correct state. *)
Lemma CommitTransaction_removes m tid p error q x :
  inv m -> find_active m tid = Some x ->
  exists m2 c z st, inv_at tid c m2 /\ find_active m2 tid = Some z /\ same_shape m m2
    /\ CommitTransaction m tid p error q
       = let '(m3, info) := RemoveTransaction m2 tid st q in push_cleanup m3 info.
Proof.
  intros Hinv Hx. unfold CommitTransaction.
  change (GetCommitTimestamp m) with ((GetCommitTimestamp m).1, current_start_timestamp m).
  destruct (commit_stamped m tid x Hinv Hx) as [Hm2 Hf2]. cbv beta iota zeta.
  pose proof (GetCommitTimestamp_inv m Hinv) as Hm1. set (m1 := (GetCommitTimestamp m).1) in *.
  assert (find_active m1 tid = Some x) as Hx1 by done.
  assert (forall f, (forall y, tx_transaction_id (f y) = tx_transaction_id y) ->
            same_shape m (update_active tid f m1)) as Hshape.
  { intros f Hf. split; [by apply (update_active_ids tid f m1)|done]. }
  set (ts := current_start_timestamp m) in *. destruct error.
  - exists (update_active tid (fun x => set_commit_id x 0) m1), 0. do 2 eexists.
    split; [|split; [by apply find_update|split; [by apply Hshape|reflexivity]]].
    apply (update_active_inv_at _ _ _ m1) with (c := 0); [done|done|done|by left].
  - rewrite Hf2. destruct (TRANSACTION_ID_START <=? catalog_version _).
    + set (m3 := mk _ _ _ _ _ _ _ _ _ _ _). set (v := last_committed_version _ + 1).
      assert (inv_at tid ts m3) as Hm3 by (by destruct Hm2; split).
      exists (update_active tid (fun x => set_catalog_version x v) m3), ts. do 2 eexists.
      split; [|split; [by apply find_update|split; [|reflexivity]]].
      * apply (update_active_inv_at _ _ _ m3) with (c := ts); [done|done| |by destruct Hm3].
        intros y Hy Hid. destruct Hm3 as [_ _ _ I4 _ _ _ _ _ _ _ _ _]. rewrite Forall_forall in I4.
        destruct (I4 y Hy) as (_ & _ & _ & _ & Hc). by rewrite Hid, Z.eqb_refl in Hc.
      * split; [|done]. rewrite (update_active_ids tid _ m3) by done. by apply Hshape.
    + exists (update_active tid (fun x => set_commit_id x ts) m1), ts. do 2 eexists.
      split; [done|split; [exact Hf2|split; [by apply Hshape|reflexivity]]].
Qed.

Lemma CommitTransaction_inv m tid p error q x :
  inv m -> find_active m tid = Some x -> inv (CommitTransaction m tid p error q).
Proof.
  intros Hinv Hx. destruct (CommitTransaction_removes m tid p error q x Hinv Hx)
    as (m2 & c & z & st & H1 & H2 & _ & ->).
  pose proof (Remove_push_inv m2 tid c st q z H1 H2) as H. by destruct (RemoveTransaction _ _ _ _).
Qed.

Lemma step_inv m m' : inv m -> step m m' -> inv m'.
Proof.
  intros Hinv Hs. destruct Hs as [m m' tx H|m tid q|m tid|m tid|m tid p error q tx H|m tid q tx H|m m' info H].
  - by eapply StartTransaction_inv.
  - by apply update_active_inv.
  - by apply update_active_inv.
  - unfold PushCatalogEntry. apply update_active_inv; [done|]. intros tid'. by destruct (Hinv tid'); split.
  - by eapply CommitTransaction_inv.
  - unfold RollbackTransaction. rewrite H. pose proof (Remove_push_inv m tid 0 (ChangesMade tx) q tx (Hinv tid) H) as Hr.
    by destruct (RemoveTransaction _ _ _ _).
  - unfold PopCleanup in H. destruct (cleanup_queue m) as [|i queue] eqn:E; [done|]. injection H as <- <-.
    intros tid. destruct (Hinv tid) as [I1 I2 I3 I4 I5 I6 I7 I8 I9 I10 I11 I12 I13].
    rewrite E in I11, I12. split; simpl; try done.
    + intros x info Hx Hi. apply I11; [done|by right].
    + intros info y Hi. apply I12. by right.
Qed.

Lemma reachable_inv m : reachable m -> inv m.
Proof.
  unfold reachable. intros H. assert (inv DuckTransactionManager) as H0 by apply inv_init.
  induction H as [|x y z Hs _ IH]; [done|]. apply IH. by eapply step_inv.
Qed.

(** ** Properties *)

Lemma sorted_lookup {A} (R : A -> A -> Prop) l i j x y :
  StronglySorted R l -> l !! i = Some x -> l !! j = Some y -> (i < j)%nat -> R x y.
Proof.
  intros Hs. revert i j. induction Hs as [|z l Hs IH Hz]; intros i j Hi Hj Hij; [done|].
  destruct j as [|j]; [lia|]. simpl in Hj. destruct i as [|i]; simpl in Hi.
  - injection Hi as ->. rewrite Forall_forall in Hz. apply Hz. by eapply list_elem_of_lookup_2.
  - eapply IH; [exact Hi|exact Hj|lia].
Qed.

Lemma active_lowest m x :
  inv m -> x ∈ active_transactions m ->
  lowest_active_start m <= tx_start_time x /\ lowest_active_id m <= tx_transaction_id x.
Proof.
  intros Hinv Hx. destruct (Hinv 0) as [_ _ _ _ I5 _ _ _ _ _ _ _ I13].
  destruct (active_transactions m) as [|z l]; [by apply not_elem_of_nil in Hx|].
  destruct (I13 z l eq_refl) as [-> ->]. apply StronglySorted_inv in I5 as [_ Hz].
  apply elem_of_cons in Hx as [->|Hx]; [lia|]. rewrite Forall_forall in Hz.
  specialize (Hz x Hx). unfold started_before in Hz. lia.
Qed.

(** C10 Timestamps keep the roles the visibility rule needs.  In every reachable state the active
    transactions are listed in the order of their distinct start times and distinct ids; every
    start time is at least 2 and below every transaction id, no id is the [NOT_DELETED_ID] mark;
    no commit id of a recently committed transaction equals an active start time; and the
    recorded lowest start time and id are lower bounds for all active transactions. *)
Theorem reachable_timestamps m :
  reachable m ->
  (forall i j x y, active_transactions m !! i = Some x -> active_transactions m !! j = Some y ->
     (i < j)%nat -> tx_start_time x < tx_start_time y /\ tx_transaction_id x < tx_transaction_id y)
  /\ forall x, x ∈ active_transactions m ->
     2 <= tx_start_time x < TRANSACTION_ID_START
     /\ TRANSACTION_ID_START <= tx_transaction_id x < NOT_DELETED_ID
     /\ commit_id x = 0
     /\ (forall y, y ∈ recently_committed_transactions m ->
           tx_start_time y < commit_id y /\ commit_id y <> tx_start_time x)
     /\ lowest_active_start m <= tx_start_time x /\ lowest_active_id m <= tx_transaction_id x.
Proof.
  intros Hr. apply reachable_inv in Hr. split.
  - intros i j x y Hi Hj Hij. destruct (Hr 0) as [_ _ _ _ I5 _ _ _ _ _ _ _ _].
    exact (sorted_lookup started_before _ i j x y I5 Hi Hj Hij).
  - intros x Hx. pose proof (active_lowest m x Hr Hx).
    destruct (Hr 0) as [_ _ _ I4 _ I6 _ I8 _ _ _ _ _]. rewrite Forall_forall in I4, I6.
    destruct (I4 x Hx) as (? & ? & ? & ? & Hc).
    assert (2 * TRANSACTION_ID_START < NOT_DELETED_ID) by reflexivity.
    split_and!; try lia; [by destruct (_ =? 0) in Hc|].
    intros y Hy. specialize (I6 y Hy). specialize (I8 x y Hx Hy). simpl in I6. lia.
Qed.

(** Two started transactions. *)
Definition two_active : t :=
  match StartTransaction DuckTransactionManager with
  | Ok (m, _) => match StartTransaction m with Ok (m, _) => m | Throw _ => m end
  | Throw _ => DuckTransactionManager
  end.

Lemma two_active_reachable : reachable two_active.
Proof.
  eapply rtc_l; [|eapply rtc_l; [|apply rtc_refl]]; eapply step_start; vm_compute; reflexivity.
Qed.

Lemma reachable_timestamps_witness :
  exists x y, active_transactions two_active = [x; y] /\ tx_start_time x < tx_start_time y.
Proof.
  eexists _, _. split; [vm_compute; reflexivity|].
  destruct (reachable_timestamps two_active two_active_reachable) as [H _].
  eapply (H 0%nat 1%nat); [vm_compute; reflexivity|vm_compute; reflexivity|lia].
Defined.


(** The first of two active transactions has changed data and commits without indexes or updates. *)
Definition queued_cleanup : t :=
  CommitTransaction (update_active TRANSACTION_ID_START set_changes two_active) TRANSACTION_ID_START
    (mkProps false false false false) false 1.

Lemma queued_cleanup_reachable : reachable queued_cleanup.
Proof.
  eapply (transitivity (R := rtc step)); [exact two_active_reachable|].
  eapply rtc_l; [apply (step_change _ TRANSACTION_ID_START)|].
  eapply rtc_l; [|apply rtc_refl].
  eapply step_commit. vm_compute. reflexivity.
Qed.


Lemma split_while_all {A} (P : A -> bool) l : Forall (fun x => P x = true) l -> split_while P l = (l, []).
Proof. induction 1 as [|x l Hx Hl IH]; [done|]. simpl. by rewrite Hx, IH. Qed.

(** Every transaction that was waiting in [m] is handed over in the queue of [m']. *)
Definition all_handed_over (m m' : t) : Prop :=
  active_transactions m' = [] /\ recently_committed_transactions m' = [] /\ old_transactions m' = []
  /\ forall y, y ∈ recently_committed_transactions m ++ old_transactions m ->
       exists info y', info ∈ cleanup_queue m' /\ y' ∈ transactions info
         /\ tx_transaction_id y' = tx_transaction_id y /\ commit_id y' = commit_id y.

(** [m2] is [m] in the middle of a commit of its only active transaction. *)
Record ends_last (m m2 : t) (tid : Z) : Prop := {
  el_others : List.filter (fun y => negb (tx_transaction_id y =? tid)) (active_transactions m2) = [];
  el_recent : recently_committed_transactions m2 = recently_committed_transactions m;
  el_old : old_transactions m2 = old_transactions m;
  el_counter : current_start_timestamp m2 <= TRANSACTION_ID_START
}.

Lemma store_choice_keeps m st q x y :
  let '(recent, old, _) := store_choice m st q x in
  (y ∈ recently_committed_transactions m -> y ∈ recent) /\ (y ∈ old_transactions m -> y ∈ old).
Proof.
  unfold store_choice. repeat case_match; simplify_eq; split; intros; try apply elem_of_app; auto.
Qed.

Lemma push_cleanup_hands_over m m3 info :
  active_transactions m3 = [] -> recently_committed_transactions m3 = [] -> old_transactions m3 = [] ->
  (forall y, y ∈ recently_committed_transactions m ++ old_transactions m ->
     exists y', y' ∈ transactions info /\ tx_transaction_id y' = tx_transaction_id y
                /\ commit_id y' = commit_id y) ->
  all_handed_over m (push_cleanup m3 info).
Proof.
  intros H1 H2 H3 Hall. unfold push_cleanup, all_handed_over.
  destruct (ScheduleCleanup info) eqn:Esc; simpl.
  - split_and!; [done..|]. intros y Hy. destruct (Hall y Hy) as (y' & Hy1 & Hy2). exists info, y'.
    split; [apply elem_of_app; right; by apply list_elem_of_singleton|done].
  - split_and!; [done..|]. intros y Hy. destruct (Hall y Hy) as (y' & Hy1 & _).
    unfold ScheduleCleanup in Esc. destruct (transactions info); [by apply not_elem_of_nil in Hy1|done].
Qed.

Lemma remove_last m m2 tid c st q z :
  inv_at tid c m2 -> find_active m2 tid = Some z -> ends_last m m2 tid ->
  let '(m3, info) := RemoveTransaction m2 tid st q in all_handed_over m (push_cleanup m3 info).
Proof.
  intros Hm2 Hz [Ho Er Eo Hle]. rewrite (RemoveTransaction_eq m2 tid st q z Hz), Ho.
  cbv zeta. cbn [lowest fold_left].
  pose proof (store_choice_spec m2 tid c st q z [] Hm2 Hz) as Hch.
  pose proof (store_choice_keeps m2 st q z) as Hk. rewrite Er, Eo in Hk.
  destruct (store_choice m2 st q z) as [[recent old] direct].
  destruct Hch as (R1 & _ & _ & _ & _); [by intros ? ?%not_elem_of_nil|].
  rewrite split_while_all.
  2: { eapply Forall_impl; [exact R1|]. simpl. intros y Hy. apply Z.ltb_lt. lia. }
  apply push_cleanup_hands_over; [done..|].
  intros y [Hy|Hy]%elem_of_app; destruct (Hk y) as [Hk1 Hk2]; simpl.
  - exists (set_highest_active_query (set_awaiting_cleanup y) q). split; [|done].
    apply elem_of_app. right. apply elem_of_app. right. apply list_elem_of_In, List.in_map_iff.
    exists y. split; [reflexivity|]. by apply list_elem_of_In, Hk1.
  - exists y. split; [|done]. apply elem_of_app. right. apply elem_of_app. left. by apply Hk2.
Qed.



(** A full checkpoint, which vacuums old versions, only runs when no active transaction can
    read them: on commit it is chosen only if no other transaction is active, and an explicit
    checkpoint chooses it only if every active transaction started after the last commit.  A
    commit with updates or dropped entries does not checkpoint while others are active. *)
Theorem full_checkpoint_alone m tid c p :
  reachable m ->
  (CanCheckpoint m tid c p = Some FULL_CHECKPOINT \/ CanCheckpoint m tid c p = Some VACUUM_ONLY ->
     forall x, x ∈ active_transactions m -> tx_transaction_id x = tid)
  /\ (forall x, x ∈ active_transactions m -> tx_transaction_id x <> tid ->
        has_updates p || has_dropped_entries p = true -> CanCheckpoint m tid c p = None)
  /\ (Checkpoint_type m = FULL_CHECKPOINT ->
        forall x, x ∈ active_transactions m -> last_commit m <= tx_start_time x).
Proof.
  intros Hr. apply reachable_inv in Hr.
  assert (forall x, x ∈ active_transactions m -> tx_transaction_id x <> tid ->
    existsb (fun x => negb (tx_transaction_id x =? tid)) (active_transactions m) = true) as Hex.
  { intros x Hx Hn. apply existsb_exists. exists x. split; [by apply list_elem_of_In|].
    by destruct (Z.eqb_spec (tx_transaction_id x) tid). }
  split_and!.
  - unfold CanCheckpoint. intros Hd x Hx. destruct (decide (tx_transaction_id x = tid)) as [|Hn]; [done|].
    rewrite (Hex x Hx Hn) in Hd. cbn [andb] in Hd. repeat case_match; destruct Hd; discriminate.
  - intros x Hx Hn Hp. unfold CanCheckpoint. rewrite (Hex x Hx Hn), Hp. by repeat case_match.
  - unfold Checkpoint_type. destruct (Z.ltb_spec (lowest_active_start m) (last_commit m)); [done|].
    intros _ x Hx. pose proof (active_lowest m x Hr Hx). lia.
Qed.

Lemma full_checkpoint_alone_witness :
  CanCheckpoint two_active TRANSACTION_ID_START (mkContext false false true true false true false true)
    (mkProps true false false false) = None.
Proof.
  destruct (full_checkpoint_alone two_active TRANSACTION_ID_START
    (mkContext false false true true false true false true) (mkProps true false false false)
    two_active_reachable) as (_ & H & _).
  assert (Hx : exists x, x ∈ active_transactions two_active /\ tx_transaction_id x <> TRANSACTION_ID_START).
  { eexists. split; [vm_compute; right; left|]. vm_compute. discriminate. }
  destruct Hx as (x & Hx & Hn). apply (H x Hx Hn). reflexivity.
Defined.

End TransactionManager.
