(* ===== verification/StorageLock.v ===== *)
(** * The storage lock

    Models src/src/storage/storage_lock.cpp: a reader-writer lock made of a mutex and an atomic
    counter, with an attempt to upgrade a shared to an exclusive key (the checkpoint lock).
    Threads take steps one at a time; every access to the mutex or to the counter is a step of its
    own, so all interleavings are covered.  A thread's program counter says where in the operations of
    [StorageLockInternals] it is and which keys it holds. *)

From stdpp Require Import relations.
From S2P Require Import Prelude.

Module StorageLock.

Inductive pc : Type :=
| Idle                 (* no key *)
| SharedLocked         (* GetSharedLock: mutex taken, counter not yet incremented *)
| SharedCounted        (* GetSharedLock: counter incremented, mutex not yet released *)
| HoldShared           (* owns a shared key *)
| ExclusiveLocked      (* (Try)GetExclusiveLock: mutex taken, counter not yet seen at 0 *)
| HoldExclusive        (* owns an exclusive key *)
| UpgradeLocked        (* TryUpgradeCheckpointLock: owns a shared key, mutex taken *)
| HoldUpgraded.        (* owns a shared and an exclusive key *)

#[export] Instance pc_eq_dec : EqDecision pc.
Proof. solve_decision. Defined.
#[export] Instance pc_inhabited : Inhabited pc := populate Idle.

Record t : Type := mk {
  exclusive_lock : bool;   (* the mutex is taken *)
  read_count : Z;
  threads : list pc
}.

Definition StorageLockInternals (n : nat) : t := mk false 0 (replicate n Idle).

(** The steps of a thread at [p]: the action on the mutex and the counter, and where it goes.
    [None] is a step that is not enabled (a blocked lock, or the other branch of a test). *)
Inductive action : Type :=
| lock_shared | count_shared | unlock_shared | release_shared
| lock_exclusive | test_exclusive | fail_exclusive | release_exclusive
| lock_upgrade | test_upgrade | fail_upgrade | release_upgrade | release_shared_of_upgraded.

Definition perform (a : action) (p : pc) (mutex : bool) (count : Z) : option (pc * bool * Z) :=
  match a, p with
  | lock_shared, Idle => if mutex then None else Some (SharedLocked, true, count)
  | count_shared, SharedLocked => Some (SharedCounted, mutex, count + 1)
  | unlock_shared, SharedCounted => Some (HoldShared, false, count)
  | release_shared, HoldShared => Some (Idle, mutex, count - 1)
  | lock_exclusive, Idle => if mutex then None else Some (ExclusiveLocked, true, count)
  | test_exclusive, ExclusiveLocked => if count =? 0 then Some (HoldExclusive, mutex, count) else None
  | fail_exclusive, ExclusiveLocked => if count =? 0 then None else Some (Idle, false, count)
  | release_exclusive, HoldExclusive => Some (Idle, false, count)
  | lock_upgrade, HoldShared => if mutex then None else Some (UpgradeLocked, true, count)
  | test_upgrade, UpgradeLocked => if count =? 1 then Some (HoldUpgraded, mutex, count) else None
  | fail_upgrade, UpgradeLocked => if count =? 1 then None else Some (HoldShared, false, count)
  | release_upgrade, HoldUpgraded => Some (HoldShared, false, count)
  | release_shared_of_upgraded, HoldUpgraded => Some (HoldExclusive, mutex, count - 1)
  | _, _ => None
  end.

Definition run (i : nat) (a : action) (s : t) : option t :=
  match threads s !! i with
  | Some p =>
      match perform a p (exclusive_lock s) (read_count s) with
      | Some (p', mutex, count) => Some (mk mutex count (<[i := p']> (threads s)))
      | None => None
      end
  | None => None
  end.

Definition step (s s' : t) : Prop := exists i a, run i a s = Some s'.

Definition reachable (n : nat) (s : t) : Prop := rtc step (StorageLockInternals n) s.

(** ** The invariant *)

(** Whether the thread is counted as a reader, and whether it has the mutex. *)
Definition counted (p : pc) : bool :=
  match p with SharedCounted | HoldShared | UpgradeLocked | HoldUpgraded => true | _ => false end.
Definition owns_mutex (p : pc) : bool :=
  match p with
  | SharedLocked | SharedCounted | ExclusiveLocked | HoldExclusive | UpgradeLocked | HoldUpgraded => true
  | _ => false
  end.

Definition total (f : pc -> bool) (l : list pc) : Z :=
  fold_right (fun p n => (if f p then 1 else 0) + n) 0 l.

(** The counter counts the readers, one thread at most has the mutex, an exclusive holder saw no
    reader and a successful upgrade saw only itself. *)
Record inv (s : t) : Prop := {
  inv_count : read_count s = total counted (threads s);
  inv_mutex : total owns_mutex (threads s) = if exclusive_lock s then 1 else 0;
  inv_exclusive : HoldExclusive ∈ threads s -> read_count s = 0;
  inv_upgraded : HoldUpgraded ∈ threads s -> read_count s = 1
}.

Lemma total_nonneg f l : 0 <= total f l.
Proof. induction l as [|p l IH]; [done|]. simpl. destruct (f p); lia. Qed.

Lemma total_insert f l i p q :
  l !! i = Some p ->
  total f (<[i := q]> l) = total f l - (if f p then 1 else 0) + (if f q then 1 else 0).
Proof.
  revert i. induction l as [|x l IH]; intros [|i]; intros H; [done|done| |].
  - injection H as ->. simpl. lia.
  - simpl. rewrite (IH i H). lia.
Qed.

(** Two different threads that satisfy [f] are counted twice. *)
Lemma total_two f l i j p q :
  f Idle = false -> l !! i = Some p -> l !! j = Some q -> i <> j -> f p = true -> f q = true ->
  2 <= total f l.
Proof.
  intros Hf Hi Hj Hij Hp Hq. pose proof (total_insert f l i p Idle Hi) as H1.
  pose proof (total_insert f (<[i:=Idle]> l) j q Idle) as H2.
  rewrite list_lookup_insert_ne in H2 by done. specialize (H2 Hj).
  pose proof (total_nonneg f (<[j:=Idle]> (<[i:=Idle]> l))) as H3.
  rewrite Hq, Hf in H2. rewrite Hp, Hf in H1. lia.
Qed.

Lemma total_one f l i p : f Idle = false -> l !! i = Some p -> f p = true -> 1 <= total f l.
Proof.
  intros Hf Hi Hp. pose proof (total_insert f l i p Idle Hi) as H1.
  pose proof (total_nonneg f (<[i:=Idle]> l)) as H2. rewrite Hp, Hf in H1. lia.
Qed.

Lemma total_replicate_false f n : f Idle = false -> total f (replicate n Idle) = 0.
Proof. intros Hf. induction n as [|n IH]; [done|]. simpl. by rewrite Hf, IH. Qed.

Lemma lock_inv_init n : inv (StorageLockInternals n).
Proof.
  split; simpl.
  - symmetry. by apply total_replicate_false.
  - by apply total_replicate_false.
  - intros H%elem_of_replicate. by destruct H.
  - intros H%elem_of_replicate. by destruct H.
Qed.

(** The mutex owner is the only thread in a critical section. *)
Lemma mutex_unique s i p q :
  inv s -> threads s !! i = Some p -> owns_mutex p = true -> q ∈ threads s -> owns_mutex q = true ->
  threads s !! i = Some q.
Proof.
  intros Hs Hi Hp [j Hj]%list_elem_of_lookup Hq. destruct (decide (i = j)) as [->|Hij]; [done|].
  pose proof (total_two owns_mutex _ i j p q eq_refl Hi Hj Hij Hp Hq). pose proof (inv_mutex s Hs).
  destruct (exclusive_lock s); lia.
Qed.

(** The enabled actions with their tests decided, from [Hp : perform a p _ _ = Some _]. *)
Ltac perform_cases Hp :=
  match type of Hp with
  | perform ?a ?p _ _ = _ => destruct a, p; simpl in Hp; try discriminate
  end;
  repeat (match type of Hp with context [if ?b then _ else _] => destruct b eqn:? end; try discriminate).

Lemma run_inv i a s s' : inv s -> run i a s = Some s' -> inv s'.
Proof.
  intros Hs Hr. unfold run in Hr. destruct (threads s !! i) as [p|] eqn:Hi; [|done].
  destruct (perform a p (exclusive_lock s) (read_count s)) as [[[p' mutex] count]|] eqn:Hp; [|done].
  injection Hr as <-.
  assert (forall q, owns_mutex q = true -> q ∈ <[i := p']> (threads s) ->
            q = p' \/ (q ∈ threads s /\ owns_mutex p = false)) as Hq.
  { intros q Hoq [j Hj]%list_elem_of_lookup. destruct (decide (i = j)) as [<-|Hij].
    - rewrite list_lookup_insert_eq in Hj by (by eapply lookup_lt_Some). left. congruence.
    - rewrite list_lookup_insert_ne in Hj by done. right. split; [by eapply list_elem_of_lookup_2|].
      destruct (owns_mutex p) eqn:Hop; [|done]. pose proof (total_two owns_mutex _ i j p q eq_refl Hi Hj Hij Hop Hoq).
      pose proof (inv_mutex s Hs). destruct (exclusive_lock s); lia. }
  assert (exclusive_lock s = false -> forall q, q ∈ threads s -> owns_mutex q = false) as Hfree.
  { intros He q [j Hj]%list_elem_of_lookup. destruct (owns_mutex q) eqn:Hoq; [|done].
    pose proof (total_one owns_mutex _ j q eq_refl Hj Hoq). pose proof (inv_mutex s Hs). rewrite He in *. lia. }
  destruct Hs as [I1 I2 I3 I4].
  pose proof (total_insert counted _ i p p' Hi) as T1. pose proof (total_insert owns_mutex _ i p p' Hi) as T2.
  assert (p ∈ threads s) as Hin by (by eapply list_elem_of_lookup_2).
  assert (owns_mutex p = true -> exclusive_lock s = true) as Hlk.
  { intros Ho. destruct (exclusive_lock s) eqn:E; [done|]. by rewrite Hfree in Ho. }
  split; simpl; try rewrite T1; try rewrite T2; rewrite <- ?I1, ?I2.
  - perform_cases Hp;
      injection Hp as <- <- <-; simpl; lia.
  - perform_cases Hp; simpl in Hlk;
      injection Hp as <- <- <-; simpl; try rewrite (Hlk eq_refl); repeat case_match; lia.
  - intros He. destruct (Hq HoldExclusive eq_refl He) as [<-|[He' Hop]].
    + perform_cases Hp;
        injection Hp as <- <-; [|rewrite I4 by done; lia].
      match goal with H : (_ =? 0) = true |- _ => by apply Z.eqb_eq in H end.
    + specialize (I3 He'). pose proof (total_nonneg counted (threads s)).
      perform_cases Hp; simpl in Hop; try discriminate;
        injection Hp as _ _ <-; try done.
      pose proof (total_one counted _ i _ eq_refl Hi eq_refl). lia.
  - intros He. destruct (Hq HoldUpgraded eq_refl He) as [<-|[He' Hop]].
    + perform_cases Hp;
        injection Hp as <- <-.
      match goal with H : (_ =? 1) = true |- _ => by apply Z.eqb_eq in H end.
    + specialize (I4 He'). pose proof He' as [j Hj]%list_elem_of_lookup.
      perform_cases Hp; simpl in Hop; try discriminate;
        injection Hp as _ _ <-; try done.
      assert (i <> j) as Hij by congruence.
      pose proof (total_two counted _ i j _ _ eq_refl Hi Hj Hij eq_refl eq_refl). lia.
Qed.

Lemma lock_reachable_inv n s : reachable n s -> inv s.
Proof.
  unfold reachable. intros H. pose proof (lock_inv_init n) as H0. revert H0.
  induction H as [|x y z (i & a & Hs) _ IH]; [done|]. intros H0. apply IH. by eapply run_inv.
Qed.

(** ** Properties *)

(** Whether a thread owns a shared or an exclusive key. *)
Definition holds_shared (p : pc) : bool :=
  match p with HoldShared | UpgradeLocked | HoldUpgraded => true | _ => false end.
Definition holds_exclusive (p : pc) : bool :=
  match p with HoldExclusive | HoldUpgraded => true | _ => false end.

(** C33 The storage lock excludes: under every interleaving of any number of threads, when a thread
    owns an exclusive key no other thread owns a key of either kind; only the shared key it
    upgraded may coexist, in its own hands. *)
Theorem exclusive_key_excludes n s i j p q :
  reachable n s -> threads s !! i = Some p -> threads s !! j = Some q -> i <> j ->
  holds_exclusive p = true -> holds_shared q = false /\ holds_exclusive q = false.
Proof.
  intros Hr Hi Hj Hij Hp. apply lock_reachable_inv in Hr.
  assert (holds_shared q = true -> counted q = true) as Hc by (by destruct q).
  split.
  - destruct (holds_shared q) eqn:Hq; [|done]. specialize (Hc eq_refl). destruct Hr as [I1 I2 I3 I4].
    assert (p ∈ threads s) as Hin by (by eapply list_elem_of_lookup_2).
    destruct p; try done.
    + specialize (I3 Hin). pose proof (total_one counted _ j q eq_refl Hj Hc). lia.
    + specialize (I4 Hin). pose proof (total_two counted _ i j _ q eq_refl Hi Hj Hij eq_refl Hc). lia.
  - destruct (holds_exclusive q) eqn:Hq; [|done].
    assert (owns_mutex p = true) as Hop by (by destruct p).
    assert (owns_mutex q = true) as Hoq by (by destruct q).
    pose proof (total_two owns_mutex _ i j p q eq_refl Hi Hj Hij Hop Hoq). destruct Hr as [_ I2 _ _].
    destruct (exclusive_lock s); lia.
Qed.

(** Thread 0 takes a shared key, thread 1 fails to get an exclusive one, thread 0 upgrades. *)
Definition example_run : option t :=
  s ← run 0 lock_shared (StorageLockInternals 2);
  s ← run 0 count_shared s; s ← run 0 unlock_shared s;
  s ← run 1 lock_exclusive s; s ← run 1 fail_exclusive s;
  s ← run 0 lock_upgrade s; run 0 test_upgrade s.

Lemma exclusive_key_excludes_witness :
  exists s, example_run = Some s /\ threads s !! 0%nat = Some HoldUpgraded
    /\ forall q, threads s !! 1%nat = Some q -> holds_shared q = false.
Proof.
  eexists. split; [vm_compute; reflexivity|]. split; [reflexivity|]. intros q Hq.
  apply (exclusive_key_excludes 2 (mk true 1 [HoldUpgraded; Idle]) 0%nat 1%nat HoldUpgraded q);
    [|reflexivity|exact Hq|discriminate|reflexivity].
  eapply rtc_l; [exists 0%nat, lock_shared; vm_compute; reflexivity|].
  eapply rtc_l; [exists 0%nat, count_shared; vm_compute; reflexivity|].
  eapply rtc_l; [exists 0%nat, unlock_shared; vm_compute; reflexivity|].
  eapply rtc_l; [exists 1%nat, lock_exclusive; vm_compute; reflexivity|].
  eapply rtc_l; [exists 1%nat, fail_exclusive; vm_compute; reflexivity|].
  eapply rtc_l; [exists 0%nat, lock_upgrade; vm_compute; reflexivity|].
  eapply rtc_l; [exists 0%nat, test_upgrade; vm_compute; reflexivity|].
  apply rtc_refl.
Defined.

End StorageLock.
