(* ===== verification/LimitPlan.v ===== *)
(** * LIMIT and the limited PREDICT filter

    Models the LIMIT operator (src/src/execution/operator/helper/physical_limit.cpp and
    physical_streaming_limit.cpp), the filter that may stop early once a limit is reached
    (src/src/execution/operator/filter/physical_filter.cpp) and the two optimizer passes that move a
    limit around: src/src/optimizer/limit_pushdown.cpp below projections, and
    src/src/optimizer/limit_to_predict_filter_propagation.cpp into a filter whose predicate calls a
    model.  A row is an element of any type [R]; a predicate is a function on rows, so an evaluation
    of it is deterministic. *)

From S2P Require Import Prelude.

Module LimitPlan.

Section limit.
Context {R : Type}.

(** ** The LIMIT operator *)

Definition MAX_LIMIT_VALUE : Z := Z.shiftl 1 62.

(** [BoundLimitNode].  A percentage or an expression stands for the number of rows it
    comes to, given the number of input rows. *)
Inductive LimitNode : Type :=
| UNSET
| CONSTANT_VALUE (v : Z)
| CONSTANT_PERCENTAGE (f : nat -> Z)
| EXPRESSION_VALUE (f : nat -> Z)
| EXPRESSION_PERCENTAGE (f : nat -> Z).

Definition is_expression (n : LimitNode) : bool :=
  match n with EXPRESSION_VALUE _ | EXPRESSION_PERCENTAGE _ => true | _ => false end.

(** Limit and offset, where they are known before the first row. *)
Definition SetInitialLimits (limit_val offset_val : LimitNode) : option Z * option Z :=
  (match limit_val with CONSTANT_VALUE v => Some v | UNSET => Some MAX_LIMIT_VALUE | _ => None end,
   match offset_val with CONSTANT_VALUE v => Some v | UNSET => Some 0 | _ => None end).

(** [ComputeOffset] with both known: the first row that is not wanted any more, or none if the
    operator is finished. *)
Definition ComputeOffset (limit offset current_offset : Z) : option Z :=
  let max_element := wrapU 64 (limit + offset) in
  if (limit =? 0) || (max_element <=? current_offset) then None else Some max_element.

(** The rows of [input] to emit ([None]: skip the chunk) and the offset after it. *)
Definition HandleOffset (input : list R) (current_offset offset limit : Z) : option (list R) * Z :=
  let max_element := if limit =? INVALID_INDEX then INVALID_INDEX else wrapU 64 (limit + offset) in
  let input_size := Z.of_nat (length input) in
  if current_offset <? offset then
    if offset <? current_offset + input_size then
      let start_position := offset - current_offset in
      let chunk_count := Z.min limit (input_size - start_position) in
      (Some (take (Z.to_nat chunk_count) (drop (Z.to_nat start_position) input)),
       current_offset + input_size)
    else (None, current_offset + input_size)
  else
    let chunk_count :=
      if max_element <=? current_offset + input_size then max_element - current_offset
      else input_size in
    (Some (take (Z.to_nat chunk_count) input), current_offset + input_size).

(** [PhysicalStreamingLimit::Execute] on one chunk: the output, the shared offset after it, and
    whether the pipeline is finished. *)
Definition StreamingLimit_Execute (limit offset : Z) (input : list R) (gstate : Z)
    : list R * Z * bool :=
  let current_offset := gstate in
  let gstate := gstate + Z.of_nat (length input) in
  match ComputeOffset limit offset current_offset with
  | None => ([], gstate, true)
  | Some _ =>
      match fst (HandleOffset input current_offset offset limit) with
      | Some chunk => (chunk, gstate, false)
      | None => ([], gstate, false)
      end
  end.

(** A pipeline pushes chunk after chunk until the operator is finished. *)
Fixpoint StreamingLimit_run (limit offset : Z) (chunks : list (list R)) (gstate : Z) : list R :=
  match chunks with
  | [] => []
  | input :: chunks =>
      let '(out, gstate, finished) := StreamingLimit_Execute limit offset input gstate in
      if finished then out else out ++ StreamingLimit_run limit offset chunks gstate
  end.

Lemma take_drop_split (l k : list R) n m :
  take n (drop m (l ++ k)) = take n (drop m l) ++ take (n - (length l - m)) (drop (m - length l) k).
Proof. rewrite drop_app, take_app. by rewrite length_drop. Qed.

Lemma HandleOffset_rows input cur offset limit :
  0 < limit <= MAX_LIMIT_VALUE -> 0 <= offset <= MAX_LIMIT_VALUE -> 0 <= cur < limit + offset ->
  default [] (fst (HandleOffset input cur offset limit))
  = take (Z.to_nat (limit + offset - Z.max cur offset)) (drop (Z.to_nat (offset - cur)) input).
Proof.
  intros Hl Ho Hc. unfold HandleOffset.
  assert (HM : MAX_LIMIT_VALUE = 2 ^ 62) by reflexivity.
  rewrite (wrapU_small 64) by (unfold inU; lia).
  destruct (Z.eqb_spec limit INVALID_INDEX) as [->|_]; [rewrite HM in Hl; unfold INVALID_INDEX in Hl; lia|].
  destruct (Z.ltb_spec cur offset).
  - destruct (Z.ltb_spec offset (cur + Z.of_nat (length input))); simpl.
    + destruct (Z.min_spec limit (Z.of_nat (length input) - (offset - cur))) as [[_ ->]|[? ->]].
      * f_equal. lia.
      * rewrite !take_ge; [done|rewrite length_drop; lia|rewrite length_drop; lia].
    + rewrite drop_ge by lia. by rewrite take_nil.
  - simpl. rewrite (Z.max_l cur offset) by lia. replace (Z.to_nat (offset - cur)) with 0%nat by lia.
    rewrite drop_0. destruct (Z.leb_spec (limit + offset) (cur + Z.of_nat (length input))); [done|].
    rewrite !take_ge by lia. done.
Qed.

Lemma StreamingLimit_rows limit offset chunks cur :
  0 <= limit <= MAX_LIMIT_VALUE -> 0 <= offset <= MAX_LIMIT_VALUE -> 0 <= cur ->
  StreamingLimit_run limit offset chunks cur
  = take (Z.to_nat (limit + offset - Z.max cur offset)) (drop (Z.to_nat (offset - cur)) (concat chunks)).
Proof.
  intros Hl Ho. revert cur. induction chunks as [|input chunks IH]; intros cur Hc.
  - simpl. by rewrite drop_nil, take_nil.
  - cbn [StreamingLimit_run]. unfold StreamingLimit_Execute, ComputeOffset.
    assert (HM : MAX_LIMIT_VALUE = 2 ^ 62) by reflexivity.
    rewrite (wrapU_small 64) by (unfold inU; lia).
    destruct (Z.eqb_spec limit 0) as [->|Hl0].
    { simpl. by replace (Z.to_nat _) with 0%nat by lia. }
    destruct (Z.leb_spec (limit + offset) cur) as [Hm|Hm].
    { simpl. by replace (Z.to_nat (limit + offset - _)) with 0%nat by lia. }
    cbn [orb]. pose proof (HandleOffset_rows input cur offset limit ltac:(lia) Ho ltac:(lia)) as Hh.
    destruct (fst (HandleOffset input cur offset limit)) as [out|]; simpl in Hh; rewrite IH by lia;
      cbn [concat]; rewrite take_drop_split, <- Hh; f_equal; f_equal; try lia; f_equal; lia.
Qed.

(** ** The limited filter *)

Section filter.
Context (P : R -> bool).

(** [SelectExpression(input, sel, nullptr, count)]: the indices below [count] whose row passes. *)
Definition SelectExpression (input : list R) (count : nat) : list nat :=
  select (fun i => match input !! i with Some r => P r | None => false end) count.

(** [chunk.Append(input, true, &sel, n)]. *)
Definition Append (chunk input : list R) (sel : list nat) (n : nat) : list R :=
  chunk ++ omap (fun i => input !! i) (take n sel).

Fixpoint limit_loop (fuel : nat) (LIMIT BATCH_SIZE offset : nat) (input chunk : list R) : list R :=
  match fuel with
  | O => chunk
  | S fuel =>
      if (offset <? length input)%nat && (length chunk <? LIMIT)%nat then
        let count := Nat.min BATCH_SIZE (length input - offset) in
        let sel := SelectExpression input (offset + count) in
        let batch_sel :=
          List.filter (fun i => (offset <=? i) && (i <? offset + count))%nat sel in
        let to_append := Nat.min (length batch_sel) (STANDARD_VECTOR_SIZE - length chunk) in
        let chunk := if (0 <? length batch_sel)%nat then Append chunk input batch_sel to_append
                     else chunk in
        let offset := (offset + count)%nat in
        let BATCH_SIZE := if (BATCH_SIZE <? length input - offset)%nat then (BATCH_SIZE * 2)%nat
                          else BATCH_SIZE in
        limit_loop fuel LIMIT BATCH_SIZE offset input chunk
      else chunk
  end.

(** [ExecuteInternal] on one chunk, whose output starts empty: the output, the shared
    [limit_reached] flag after it and whether the operator is finished.  Every round of the loop
    advances by a row, so the input size is enough fuel. *)
Definition ExecuteInternal (limit : Z) (input : list R) (limit_reached : bool)
    : list R * bool * bool :=
  if negb (limit =? -1) && limit_reached then ([], limit_reached, true)
  else if negb (limit =? -1) && (limit <? Z.of_nat (length input)) then
    let LIMIT := Z.to_nat limit in
    let chunk := limit_loop (length input) LIMIT (LIMIT * 2) 0 input [] in
    (chunk, limit_reached || (limit <=? Z.of_nat (length chunk)), false)
  else
    let sel := SelectExpression input (length input) in
    if (length sel =? length input)%nat then (input, limit_reached, false)
    else (Append [] input sel (length sel), limit_reached, false).

Fixpoint PhysicalFilter_run (limit : Z) (chunks : list (list R)) (limit_reached : bool) : list R :=
  match chunks with
  | [] => []
  | input :: chunks =>
      let '(out, limit_reached, finished) := ExecuteInternal limit input limit_reached in
      if finished then out else out ++ PhysicalFilter_run limit chunks limit_reached
  end.

(** The rows a batch selects. *)
Lemma select_range (Q : nat -> bool) o c :
  List.filter (fun i => (o <=? i) && (i <? o + c))%nat (select Q (o + c)) = List.filter Q (seq o c).
Proof.
  unfold select. rewrite seq_app, !List.filter_app.
  assert (forall l, Forall (fun i => i < o)%nat l ->
    List.filter (fun i => (o <=? i) && (i <? o + c))%nat (List.filter Q l) = []) as H1.
  { induction 1 as [|i l Hi Hl IH]; [done|]. simpl. destruct (Q i); simpl; [|done].
    destruct (Nat.leb_spec o i); [lia|done]. }
  assert (forall l, Forall (fun i => o <= i < o + c)%nat l ->
    List.filter (fun i => (o <=? i) && (i <? o + c))%nat (List.filter Q l) = List.filter Q l) as H2.
  { induction 1 as [|i l Hi Hl IH]; [done|]. simpl. destruct (Q i); simpl; [|done].
    destruct (Nat.leb_spec o i), (Nat.ltb_spec i (o + c)); simpl; try lia. by rewrite IH. }
  rewrite H1 by (apply Forall_seq; lia). by rewrite H2 by (apply Forall_seq; lia).
Qed.

Lemma omap_select (input : list R) o c :
  (o + c <= length input)%nat ->
  omap (fun i => input !! i)
       (List.filter (fun i => match input !! i with Some r => P r | None => false end) (seq o c))
  = List.filter P (take c (drop o input)).
Proof.
  revert o. induction c as [|c IH]; intros o Hoc; [done|].
  destruct (lookup_lt_is_Some_2 input o) as [r Hr]; [lia|].
  rewrite (drop_S input r o Hr). cbn [seq List.filter take firstn]. rewrite Hr.
  specialize (IH (S o) ltac:(lia)). destruct (P r); [|done].
  unfold omap in *. cbn [list_omap]. rewrite Hr. by rewrite IH.
Qed.

Lemma filter_length_le {A} (f : A -> bool) l : (length (List.filter f l) <= length l)%nat.
Proof. induction l as [|x l IH]; [done|]. simpl. destruct (f x); simpl; lia. Qed.

Lemma filter_seq_length (input : list R) o c :
  (o + c <= length input)%nat ->
  length (List.filter (fun i => match input !! i with Some r => P r | None => false end) (seq o c))
  = length (List.filter P (take c (drop o input))).
Proof.
  revert o. induction c as [|c IH]; intros o Hoc; [done|].
  destruct (lookup_lt_is_Some_2 input o) as [r Hr]; [lia|].
  rewrite (drop_S input r o Hr). cbn [seq List.filter take firstn]. rewrite Hr.
  specialize (IH (S o) ltac:(lia)). destruct (P r); simpl; by rewrite ?IH.
Qed.

(** The output of a limited chunk is the filter of a prefix that is long enough. *)
Lemma limit_loop_prefix fuel LIMIT BATCH_SIZE offset input :
  (length input <= STANDARD_VECTOR_SIZE)%nat -> (0 < BATCH_SIZE)%nat ->
  (length input - offset <= fuel)%nat -> (offset <= length input)%nat ->
  exists k, (k <= length input)%nat
    /\ limit_loop fuel LIMIT BATCH_SIZE offset input (List.filter P (take offset input))
       = List.filter P (take k input)
    /\ (k = length input \/ LIMIT <= length (List.filter P (take k input)))%nat.
Proof.
  intros Hs. revert BATCH_SIZE offset. induction fuel as [|fuel IH]; intros B offset HB Hf Ho.
  - exists offset. split; [done|]. split; [done|]. left. lia.
  - cbn [limit_loop]. destruct (Nat.ltb_spec offset (length input)) as [Hlt|Hge]; cbn [andb].
    2: { exists offset. split; [done|]. split; [done|]. left. lia. }
    destruct (Nat.ltb_spec (length (List.filter P (take offset input))) LIMIT) as [Hc|Hc].
    2: { exists offset. split; [done|]. split; [done|]. by right. }
    set (count := Nat.min B (length input - offset)).
    unfold SelectExpression. rewrite select_range.
    assert (List.filter P (take (offset + count) input)
            = List.filter P (take offset input) ++ List.filter P (take count (drop offset input))) as Hsplit.
    { rewrite <- List.filter_app. f_equal. by rewrite take_take_drop. }
    assert (offset + count <= length input)%nat as Hoc by lia.
    set (bs := List.filter _ (seq offset count)).
    assert (length bs = length (List.filter P (take count (drop offset input)))) as Hlen
      by (by apply filter_seq_length).
    assert (length bs <= STANDARD_VECTOR_SIZE - length (List.filter P (take offset input)))%nat as Hfit.
    { pose proof (filter_length_le P (take (offset + count) input)) as Hle.
      rewrite length_take, Hsplit, length_app, <- Hlen in Hle. lia. }
    assert ((if (0 <? length bs)%nat
             then Append (List.filter P (take offset input)) input bs
                    (Nat.min (length bs) (STANDARD_VECTOR_SIZE - length (List.filter P (take offset input))))
             else List.filter P (take offset input))
            = List.filter P (take (offset + count) input)) as ->.
    { rewrite Hsplit. destruct (Nat.ltb_spec 0 (length bs)) as [Hb|Hb].
      - unfold Append. rewrite Nat.min_l by lia. rewrite (take_ge bs) by lia. f_equal. by apply omap_select.
      - destruct (List.filter P (take count (drop offset input))); [by rewrite app_nil_r|simpl in Hlen; lia]. }
    apply IH; [case_match; lia|lia|lia].
Qed.

(** What one chunk contributes: the filter of a prefix, the whole chunk unless the limit was
    reached in it. *)
Lemma ExecuteInternal_prefix limit input reached :
  (length input <= STANDARD_VECTOR_SIZE)%nat -> -1 <= limit -> (reached = false \/ limit = -1) ->
  exists k, (k <= length input)%nat
    /\ ExecuteInternal limit input reached
       = (List.filter P (take k input),
          if decide (limit <> -1 /\ limit < Z.of_nat (length input)
                     /\ limit <= Z.of_nat (length (List.filter P (take k input)))) then true else reached, false)
    /\ (k = length input \/ (limit <> -1 /\ limit < Z.of_nat (length input)
                             /\ limit <= Z.of_nat (length (List.filter P (take k input))))).
Proof.
  intros Hs Hl Hr. unfold ExecuteInternal.
  assert (negb (limit =? -1) && reached = false) as ->.
  { destruct Hr as [->| ->]; [apply andb_false_r|done]. }
  destruct (Z.eqb_spec limit (-1)) as [->|Hl1]; cbn [negb andb];
    [|destruct (Z.ltb_spec limit (Z.of_nat (length input))) as [Hlt|Hge]].
  2: { destruct (decide (limit = 0)) as [->|Hl0].
       - exists 0%nat. split; [lia|]. rewrite take_0.
         assert (forall f B, limit_loop f (Z.to_nat 0) B 0 input [] = []) as ->.
         { intros [|f] B; [done|]. cbn [limit_loop]. by rewrite andb_false_r. }
         cbn [List.filter].
         split; [|right; simpl; lia]. rewrite decide_True by (simpl; lia). by rewrite orb_true_r.
       - destruct (limit_loop_prefix (length input) (Z.to_nat limit) (Z.to_nat limit * 2) 0 input)
           as (k & Hk & He & Hd); [done|lia|lia|lia|]. rewrite take_0 in He. cbn [List.filter] in He.
         exists k. split; [done|]. rewrite He. split.
         + f_equal. f_equal. destruct (Z.leb_spec limit (Z.of_nat (length (List.filter P (take k input))))).
           * by rewrite decide_True, orb_true_r by lia.
           * by rewrite decide_False, orb_false_r by lia.
         + destruct Hd; [by left|right; lia]. }
  all: exists (length input); split; [done|]; rewrite firstn_all; split; [|by left].
  all: rewrite decide_False by lia.
  all: unfold SelectExpression, select.
  all: pose proof (omap_select input 0 (length input) ltac:(lia)) as Ho;
       pose proof (filter_seq_length input 0 (length input) ltac:(lia)) as Hlen;
       rewrite drop_0, firstn_all in Ho, Hlen; rewrite Hlen.
  all: destruct (Nat.eqb_spec (length (List.filter P input)) (length input)) as [He|He];
       [|unfold Append; rewrite take_ge by lia; by rewrite <- Ho].
  all: f_equal; f_equal; symmetry; clear -He; induction input as [|r l IH]; [done|];
       simpl in *; pose proof (filter_length_le P l); destruct (P r); simpl in *; [f_equal; apply IH; lia|lia].
Qed.

Lemma PhysicalFilter_unlimited chunks reached :
  Forall (fun c => length c <= STANDARD_VECTOR_SIZE)%nat chunks ->
  PhysicalFilter_run (-1) chunks reached = List.filter P (concat chunks).
Proof.
  intros Hc. revert reached. induction Hc as [|c chunks Hc Hcs IH]; intros reached; [done|].
  cbn [PhysicalFilter_run concat]. destruct (ExecuteInternal_prefix (-1) c reached) as (k & Hk & -> & Hd); [done|lia|by right|].
  rewrite IH, List.filter_app. destruct Hd as [->|(? & _)]; [by rewrite firstn_all|done].
Qed.

Lemma PhysicalFilter_limited limit chunks n :
  0 <= limit -> Forall (fun c => length c <= STANDARD_VECTOR_SIZE)%nat chunks ->
  (n <= Z.to_nat limit)%nat ->
  take n (PhysicalFilter_run limit chunks false) = take n (List.filter P (concat chunks)).
Proof.
  intros Hl Hc. revert n. induction Hc as [|c chunks Hc Hcs IH]; intros n Hn; [done|].
  cbn [PhysicalFilter_run concat].
  destruct (ExecuteInternal_prefix limit c false) as (k & Hk & -> & Hd); [done|lia|by left|].
  rewrite List.filter_app. case_decide as Hlim.
  - (* the limit was reached: the prefix has enough rows *)
    rewrite !take_app_le; [|rewrite <- (take_drop k c), List.filter_app, length_app; lia|lia].
    rewrite <- (take_drop k c) at 2. rewrite List.filter_app, take_app_le by lia. done.
  - destruct Hd as [->|]; [|done]. rewrite firstn_all, !take_app. f_equal. apply IH. lia.
Qed.

End filter.

(** ** Plans

    The operators the two passes look at; every other operator is some function of the
    results of its children.  A PREDICT operator adds the model's output to each row. *)

(** What [CanOptimize] looks at in a filter expression, with its meaning on a row. *)
Inductive expression : Type :=
| BOUND_COMPARISON (left_predict right_predict : bool) (P : R -> bool)
| PREDICT_EXPRESSION (P : R -> bool)
| OTHER_EXPRESSION (P : R -> bool).

Definition holds (e : expression) : R -> bool :=
  match e with BOUND_COMPARISON _ _ P | PREDICT_EXPRESSION P | OTHER_EXPRESSION P => P end.

Inductive plan : Type :=
| LIMIT (limit_val offset_val : LimitNode) (child : plan)
| FILTER (expressions : list expression) (filter_limit : Z) (child : plan)
| PROJECTION (f : R -> R) (child : plan)
| PREDICT (f : R -> R) (child : plan)
| OTHER (f : list R -> list R -> list R) (left right : plan)
| LEAF (rows : list R).

(** *** The limit of a filter below a LIMIT *)

Definition LimitToPredict_CanOptimize (op : plan) : bool :=
  match op with
  | LIMIT limit_val offset_val (FILTER expressions _ _) =>
      if is_expression offset_val then false
      else
        let hasPredict :=
          existsb (fun e => match e with
                            | BOUND_COMPARISON l r _ => l || r
                            | PREDICT_EXPRESSION _ => true
                            | OTHER_EXPRESSION _ => false
                            end) expressions in
        match limit_val with
        | CONSTANT_VALUE v => hasPredict && (v <? 2048)
        | _ => false
        end
  | _ => false
  end.

(** [op] after its own rewrite; the recursion goes into the children afterwards. *)
Definition set_filter_limit (op : plan) : plan :=
  if LimitToPredict_CanOptimize op then
    match op with
    | LIMIT (CONSTANT_VALUE v as lv) ov (FILTER es _ c) => LIMIT lv ov (FILTER es (wrapS 32 v) c)
    | _ => op
    end
  else op.

Fixpoint LimitToPredict_Optimize (op : plan) : plan :=
  match op with
  | LIMIT lv ov (FILTER es fl c) =>
      (* the filter itself is not rewritten by the recursive call *)
      set_filter_limit (LIMIT lv ov (FILTER es fl (LimitToPredict_Optimize c)))
  | LIMIT lv ov c => LIMIT lv ov (LimitToPredict_Optimize c)
  | FILTER es fl c => FILTER es fl (LimitToPredict_Optimize c)
  | PROJECTION f c => PROJECTION f (LimitToPredict_Optimize c)
  | PREDICT f c => PREDICT f (LimitToPredict_Optimize c)
  | OTHER f l r => OTHER f (LimitToPredict_Optimize l) (LimitToPredict_Optimize r)
  | LEAF rows => LEAF rows
  end.

(** *** LIMIT below projections *)

Definition LimitPushdown_CanOptimize (op : plan) : bool :=
  match op with
  | LIMIT limit_val offset_val (PROJECTION _ _) =>
      if is_expression offset_val then false
      else match limit_val with CONSTANT_VALUE v => v <? 8192 | _ => false end
  | LIMIT _ _ (PREDICT _ _) => true
  | _ => false
  end.

Definition swap_limit (op : plan) : plan :=
  match op with
  | LIMIT lv ov (PROJECTION f c) => PROJECTION f (LIMIT lv ov c)
  | LIMIT lv ov (PREDICT f c) => PREDICT f (LIMIT lv ov c)
  | _ => op
  end.

Fixpoint plan_size (op : plan) : nat :=
  match op with
  | LIMIT _ _ c | FILTER _ _ c | PROJECTION _ c | PREDICT _ c => S (plan_size c)
  | OTHER _ l r => S (plan_size l + plan_size r)
  | LEAF _ => 1
  end.

(** The recursive call is on a rebuilt child, which is smaller than the plan. *)
Fixpoint LimitPushdown_Optimize (fuel : nat) (op : plan) : option plan :=
  match fuel with
  | O => None
  | S fuel =>
      match (if LimitPushdown_CanOptimize op then swap_limit op else op) with
      | LIMIT lv ov c => LIMIT lv ov <$> LimitPushdown_Optimize fuel c
      | FILTER es fl c => FILTER es fl <$> LimitPushdown_Optimize fuel c
      | PROJECTION f c => PROJECTION f <$> LimitPushdown_Optimize fuel c
      | PREDICT f c => PREDICT f <$> LimitPushdown_Optimize fuel c
      | OTHER f l r =>
          l ← LimitPushdown_Optimize fuel l; r ← LimitPushdown_Optimize fuel r; Some (OTHER f l r)
      | LEAF rows => Some (LEAF rows)
      end
  end.

(** *** Meaning of a plan *)

(** Rows travel in chunks: some way to cut a list into chunks of the vector size. *)
Context (chunked : list R -> list (list R)).
Hypothesis chunked_concat : forall l, concat (chunked l) = l.
Hypothesis chunked_size : forall l, Forall (fun c => length c <= STANDARD_VECTOR_SIZE)%nat (chunked l).

Definition rows_of (n : LimitNode) (unset : Z) (input : nat) : Z :=
  match n with
  | UNSET => unset
  | CONSTANT_VALUE v => v
  | CONSTANT_PERCENTAGE f | EXPRESSION_VALUE f | EXPRESSION_PERCENTAGE f => f input
  end.

Definition limit_rows (limit_val offset_val : LimitNode) (rows : list R) : list R :=
  let n := length rows in
  take (Z.to_nat (rows_of limit_val MAX_LIMIT_VALUE n))
       (drop (Z.to_nat (rows_of offset_val 0 n)) rows).

Fixpoint eval (op : plan) : list R :=
  match op with
  | LIMIT lv ov c => limit_rows lv ov (eval c)
  | FILTER es fl c =>
      PhysicalFilter_run (fun r => forallb (fun e => holds e r) es) fl (chunked (eval c)) false
  | PROJECTION f c | PREDICT f c => map f (eval c)
  | OTHER f l r => f (eval l) (eval r)
  | LEAF rows => rows
  end.

(** The filters of a plan before the pass have no limit. *)
Fixpoint unlimited (op : plan) : Prop :=
  match op with
  | FILTER _ fl c => fl = -1 /\ unlimited c
  | LIMIT _ _ c | PROJECTION _ c | PREDICT _ c => unlimited c
  | OTHER _ l r => unlimited l /\ unlimited r
  | LEAF _ => True
  end.

(** No LIMIT directly above a filter skips rows, and constant limits are not negative. *)
Fixpoint no_offset_over_filter (op : plan) : Prop :=
  match op with
  | LIMIT lv ov c =>
      (match c with FILTER _ _ _ => ov = UNSET \/ ov = CONSTANT_VALUE 0 | _ => True end)
      /\ (match lv with CONSTANT_VALUE v => 0 <= v | _ => True end)
      /\ no_offset_over_filter c
  | FILTER _ _ c | PROJECTION _ c | PREDICT _ c => no_offset_over_filter c
  | OTHER _ l r => no_offset_over_filter l /\ no_offset_over_filter r
  | LEAF _ => True
  end.

Lemma eval_filter es c :
  eval (FILTER es (-1) c) = List.filter (fun r => forallb (fun e => holds e r) es) (eval c).
Proof. cbn [eval]. rewrite PhysicalFilter_unlimited by done. by rewrite chunked_concat. Qed.

Lemma set_filter_limit_eval lv ov es c :
  (ov = UNSET \/ ov = CONSTANT_VALUE 0) -> (match lv with CONSTANT_VALUE v => 0 <= v | _ => True end) ->
  eval (set_filter_limit (LIMIT lv ov (FILTER es (-1) c))) = eval (LIMIT lv ov (FILTER es (-1) c)).
Proof.
  intros Ho Hv. unfold set_filter_limit. destruct (LimitToPredict_CanOptimize _) eqn:Hc; [|done].
  cbn in Hc. destruct lv as [|v| | |]; try (by destruct (is_expression ov)).
  assert (v < 2048) as Hlt.
  { destruct (is_expression ov); [done|]. apply andb_true_iff in Hc as [_ Hc]. by apply Z.ltb_lt. }
  rewrite wrapS_small by (unfold inS; lia). cbn [eval]. unfold limit_rows. cbn [rows_of].
  replace (Z.to_nat (rows_of ov 0 _)) with 0%nat by (destruct Ho as [->| ->]; done).
  replace (Z.to_nat (rows_of ov 0 _)) with 0%nat by (destruct Ho as [->| ->]; done).
  rewrite !drop_0, PhysicalFilter_limited by (done || lia).
  by rewrite PhysicalFilter_unlimited.
Qed.

Lemma LimitToPredict_eval op :
  unlimited op -> no_offset_over_filter op -> eval (LimitToPredict_Optimize op) = eval op.
Proof.
  induction op as [lv ov c IH|es fl c IH|f c IH|f c IH|f l IHl r IHr|rows]; intros Hu Hn.
  - destruct Hn as (Hov & Hlv & Hn).
    destruct c as [lv' ov' c'|es fl c'|f c'|f c'|f l r|rows];
      try (cbn [LimitToPredict_Optimize eval]; f_equal; by apply IH).
    cbn [LimitToPredict_Optimize]. destruct Hu as [-> Hu]. rewrite set_filter_limit_eval by done.
    specialize (IH (conj eq_refl Hu) Hn). cbn [LimitToPredict_Optimize] in IH.
    cbn [eval] in IH |- *. by rewrite IH.
  - destruct Hu as [-> Hu]. cbn [LimitToPredict_Optimize eval]. by rewrite IH.
  - cbn [LimitToPredict_Optimize eval]. by rewrite IH.
  - cbn [LimitToPredict_Optimize eval]. by rewrite IH.
  - destruct Hu, Hn. cbn [LimitToPredict_Optimize eval]. by rewrite IHl, IHr.
  - done.
Qed.

Lemma limit_rows_map lv ov f rows : limit_rows lv ov (map f rows) = map f (limit_rows lv ov rows).
Proof. unfold limit_rows. rewrite List.length_map, <- firstn_map, <- skipn_map. done. Qed.

Lemma swap_limit_eval op :
  eval (if LimitPushdown_CanOptimize op then swap_limit op else op) = eval op
  /\ plan_size (if LimitPushdown_CanOptimize op then swap_limit op else op) = plan_size op.
Proof.
  destruct (LimitPushdown_CanOptimize op) eqn:Hc; [|done].
  destruct op as [lv ov c| | | | |]; try done. destruct c; try done; cbn [swap_limit eval plan_size];
    by rewrite limit_rows_map.
Qed.

Lemma LimitPushdown_eval fuel op :
  (plan_size op <= fuel)%nat ->
  exists op', LimitPushdown_Optimize fuel op = Some op' /\ eval op' = eval op.
Proof.
  revert op. induction fuel as [|fuel IH]; intros op Hf; [destruct op; simpl in Hf; lia|].
  cbn [LimitPushdown_Optimize]. destruct (swap_limit_eval op) as [He Hs]. rewrite <- He. rewrite <- Hs in Hf.
  destruct (if LimitPushdown_CanOptimize op then swap_limit op else op) as [lv ov c|es fl c|f c|f c|f l r|rows];
    cbn [plan_size] in Hf.
  1-4: destruct (IH c ltac:(lia)) as (c' & -> & Hc); eexists; split; [done|]; cbn [eval]; by rewrite Hc.
  - destruct (IH l ltac:(lia)) as (l' & -> & Hl), (IH r ltac:(lia)) as (r' & -> & Hr).
    eexists. split; [done|]. cbn [eval]. by rewrite Hl, Hr.
  - by eexists.
Qed.

End limit.

(** ** Properties *)

(** Cutting into chunks of one row. *)
Definition singletons {R} (l : list R) : list (list R) := map (fun r => [r]) l.

Lemma singletons_concat {R} (l : list R) : concat (singletons l) = l.
Proof. induction l as [|x l IH]; [done|]. simpl. by f_equal. Qed.

Lemma singletons_size {R} (l : list R) :
  Forall (fun c => length c <= STANDARD_VECTOR_SIZE)%nat (singletons l).
Proof. pose proof SVS_pos. induction l; repeat constructor; simpl; try lia; done. Qed.

(** One chunk for everything, for short lists. *)
Definition one_chunk {R} (l : list R) : list (list R) :=
  if (length l <=? STANDARD_VECTOR_SIZE)%nat then [l] else singletons l.

Lemma one_chunk_ok {R} (l : list R) :
  concat (one_chunk l) = l /\ Forall (fun c => length c <= STANDARD_VECTOR_SIZE)%nat (one_chunk l).
Proof.
  unfold one_chunk. destruct (Nat.leb_spec (length l) STANDARD_VECTOR_SIZE).
  - simpl. rewrite app_nil_r. by repeat constructor.
  - split; [apply singletons_concat|apply singletons_size].
Qed.

(** The streaming LIMIT operator is the specification of LIMIT/OFFSET: over any sequence of
    chunks it emits exactly the rows [offset, offset + limit) of their concatenation, without
    overflow for every limit and offset the binder admits. *)
Theorem streaming_limit_correct {R} limit offset (chunks : list (list R)) :
  0 <= limit <= MAX_LIMIT_VALUE -> 0 <= offset <= MAX_LIMIT_VALUE ->
  StreamingLimit_run limit offset chunks 0
  = take (Z.to_nat limit) (drop (Z.to_nat offset) (concat chunks)).
Proof. intros Hl Ho. rewrite StreamingLimit_rows by (done || lia). f_equal; [|f_equal]; lia. Qed.

Lemma streaming_limit_correct_witness :
  StreamingLimit_run 3 2 [[1; 2; 3]; []; [4; 5; 6; 7]] 0 = [3; 4; 5].
Proof.
  rewrite streaming_limit_correct.
  - reflexivity.
  - split; vm_compute; discriminate.
  - split; vm_compute; discriminate.
Defined.

(** C18 Stopping a PREDICT filter early is invisible below a LIMIT without offset: however the
    rows are cut into chunks, a filter whose limit is set to that of the LIMIT above it yields
    the same first rows as the full filter, so the propagation pass preserves the result of
    every plan in which no LIMIT with an offset sits directly on a filter. *)
Theorem limit_to_predict_sound {R} (chunked : list R -> list (list R)) op :
  (forall l, concat (chunked l) = l) ->
  (forall l, Forall (fun c => length c <= STANDARD_VECTOR_SIZE)%nat (chunked l)) ->
  unlimited op -> no_offset_over_filter op ->
  eval chunked (LimitToPredict_Optimize op) = eval chunked op.
Proof. intros H1 H2. by apply LimitToPredict_eval. Qed.

Definition example_plan (offset : LimitNode) : plan (R := Z) :=
  LIMIT (CONSTANT_VALUE 2) offset (FILTER [PREDICT_EXPRESSION Z.even] (-1) (LEAF [1; 2; 4; 5; 6; 8; 9; 10])).

Lemma limit_to_predict_sound_witness :
  eval one_chunk (LimitToPredict_Optimize (example_plan UNSET)) = [2; 4]
  /\ LimitToPredict_Optimize (example_plan UNSET) <> example_plan UNSET.
Proof.
  split; [|discriminate].
  etransitivity; [apply limit_to_predict_sound|].
  - apply one_chunk_ok.
  - apply one_chunk_ok.
  - repeat split.
  - repeat split; try (left; reflexivity); discriminate.
  - vm_compute. reflexivity.
Defined.



End LimitPlan.
