(* ===== verification/Date.v ===== *)
(** * Dates

    Models src/src/common/types/date.cpp: a [date_t] is the number of days since 1970-01-01 in an
    [int32]; conversion from and to (year, month, day) goes through tables over one 400-year
    cycle, which are copied here.  Parsing and printing work on byte strings ([list Z] of character
    codes).  The sums of [TryFromDate] are kept at 32 bits; elsewhere the values are bounded by the
    conversion theorems.  A table read is [tbl]; the proofs show every index is in range. *)

From Stdlib Require Import Ascii String.
From S2P Require Import Prelude.

Module Date.

Definition tbl (l : list Z) (i : Z) : Z := nth (Z.to_nat i) l 0.

Definition NORMAL_DAYS : list Z :=
  [0; 31; 28; 31; 30; 31; 30; 31; 31; 30; 31; 30; 31].

Definition CUMULATIVE_DAYS : list Z :=
  [0; 31; 59; 90; 120; 151; 181; 212; 243; 273; 304; 334; 365].

Definition LEAP_DAYS : list Z :=
  [0; 31; 29; 31; 30; 31; 30; 31; 31; 30; 31; 30; 31].

Definition CUMULATIVE_LEAP_DAYS : list Z :=
  [0; 31; 60; 91; 121; 152; 182; 213; 244; 274; 305; 335; 366].

Definition MONTH_PER_DAY_OF_YEAR : list Z :=
  [1; 1; 1; 1; 1; 1; 1; 1; 1; 1; 1; 1; 1; 1; 1; 1; 1; 1; 1; 1; 1; 1; 1; 1; 1; 1; 1; 1; 1; 1; 1;
   2; 2; 2; 2; 2; 2; 2; 2; 2; 2; 2; 2; 2; 2; 2; 2; 2; 2; 2; 2; 2; 2; 2; 2; 2; 2; 2; 2; 3; 3; 3;
   3; 3; 3; 3; 3; 3; 3; 3; 3; 3; 3; 3; 3; 3; 3; 3; 3; 3; 3; 3; 3; 3; 3; 3; 3; 3; 3; 3; 4; 4; 4;
   4; 4; 4; 4; 4; 4; 4; 4; 4; 4; 4; 4; 4; 4; 4; 4; 4; 4; 4; 4; 4; 4; 4; 4; 4; 4; 4; 5; 5; 5; 5;
   5; 5; 5; 5; 5; 5; 5; 5; 5; 5; 5; 5; 5; 5; 5; 5; 5; 5; 5; 5; 5; 5; 5; 5; 5; 5; 5; 6; 6; 6; 6;
   6; 6; 6; 6; 6; 6; 6; 6; 6; 6; 6; 6; 6; 6; 6; 6; 6; 6; 6; 6; 6; 6; 6; 6; 6; 6; 7; 7; 7; 7; 7;
   7; 7; 7; 7; 7; 7; 7; 7; 7; 7; 7; 7; 7; 7; 7; 7; 7; 7; 7; 7; 7; 7; 7; 7; 7; 7; 8; 8; 8; 8; 8;
   8; 8; 8; 8; 8; 8; 8; 8; 8; 8; 8; 8; 8; 8; 8; 8; 8; 8; 8; 8; 8; 8; 8; 8; 8; 8; 9; 9; 9; 9; 9;
   9; 9; 9; 9; 9; 9; 9; 9; 9; 9; 9; 9; 9; 9; 9; 9; 9; 9; 9; 9; 9; 9; 9; 9; 9; 10; 10; 10; 10;
   10; 10; 10; 10; 10; 10; 10; 10; 10; 10; 10; 10; 10; 10; 10; 10; 10; 10; 10; 10; 10; 10; 10;
   10; 10; 10; 10; 11; 11; 11; 11; 11; 11; 11; 11; 11; 11; 11; 11; 11; 11; 11; 11; 11; 11; 11;
   11; 11; 11; 11; 11; 11; 11; 11; 11; 11; 11; 12; 12; 12; 12; 12; 12; 12; 12; 12; 12; 12; 12;
   12; 12; 12; 12; 12; 12; 12; 12; 12; 12; 12; 12; 12; 12; 12; 12; 12; 12; 12].

Definition LEAP_MONTH_PER_DAY_OF_YEAR : list Z :=
  [1; 1; 1; 1; 1; 1; 1; 1; 1; 1; 1; 1; 1; 1; 1; 1; 1; 1; 1; 1; 1; 1; 1; 1; 1; 1; 1; 1; 1; 1; 1;
   2; 2; 2; 2; 2; 2; 2; 2; 2; 2; 2; 2; 2; 2; 2; 2; 2; 2; 2; 2; 2; 2; 2; 2; 2; 2; 2; 2; 2; 3; 3;
   3; 3; 3; 3; 3; 3; 3; 3; 3; 3; 3; 3; 3; 3; 3; 3; 3; 3; 3; 3; 3; 3; 3; 3; 3; 3; 3; 3; 3; 4; 4;
   4; 4; 4; 4; 4; 4; 4; 4; 4; 4; 4; 4; 4; 4; 4; 4; 4; 4; 4; 4; 4; 4; 4; 4; 4; 4; 4; 4; 5; 5; 5;
   5; 5; 5; 5; 5; 5; 5; 5; 5; 5; 5; 5; 5; 5; 5; 5; 5; 5; 5; 5; 5; 5; 5; 5; 5; 5; 5; 5; 6; 6; 6;
   6; 6; 6; 6; 6; 6; 6; 6; 6; 6; 6; 6; 6; 6; 6; 6; 6; 6; 6; 6; 6; 6; 6; 6; 6; 6; 6; 7; 7; 7; 7;
   7; 7; 7; 7; 7; 7; 7; 7; 7; 7; 7; 7; 7; 7; 7; 7; 7; 7; 7; 7; 7; 7; 7; 7; 7; 7; 7; 8; 8; 8; 8;
   8; 8; 8; 8; 8; 8; 8; 8; 8; 8; 8; 8; 8; 8; 8; 8; 8; 8; 8; 8; 8; 8; 8; 8; 8; 8; 8; 9; 9; 9; 9;
   9; 9; 9; 9; 9; 9; 9; 9; 9; 9; 9; 9; 9; 9; 9; 9; 9; 9; 9; 9; 9; 9; 9; 9; 9; 9; 10; 10; 10; 10;
   10; 10; 10; 10; 10; 10; 10; 10; 10; 10; 10; 10; 10; 10; 10; 10; 10; 10; 10; 10; 10; 10; 10;
   10; 10; 10; 10; 11; 11; 11; 11; 11; 11; 11; 11; 11; 11; 11; 11; 11; 11; 11; 11; 11; 11; 11;
   11; 11; 11; 11; 11; 11; 11; 11; 11; 11; 11; 12; 12; 12; 12; 12; 12; 12; 12; 12; 12; 12; 12;
   12; 12; 12; 12; 12; 12; 12; 12; 12; 12; 12; 12; 12; 12; 12; 12; 12; 12; 12].

Definition CUMULATIVE_YEAR_DAYS : list Z :=
  [0; 365; 730; 1096; 1461; 1826; 2191; 2557; 2922; 3287; 3652; 4018; 4383; 4748; 5113; 5479;
   5844; 6209; 6574; 6940; 7305; 7670; 8035; 8401; 8766; 9131; 9496; 9862; 10227; 10592; 10957;
   11323; 11688; 12053; 12418; 12784; 13149; 13514; 13879; 14245; 14610; 14975; 15340; 15706;
   16071; 16436; 16801; 17167; 17532; 17897; 18262; 18628; 18993; 19358; 19723; 20089; 20454;
   20819; 21184; 21550; 21915; 22280; 22645; 23011; 23376; 23741; 24106; 24472; 24837; 25202;
   25567; 25933; 26298; 26663; 27028; 27394; 27759; 28124; 28489; 28855; 29220; 29585; 29950;
   30316; 30681; 31046; 31411; 31777; 32142; 32507; 32872; 33238; 33603; 33968; 34333; 34699;
   35064; 35429; 35794; 36160; 36525; 36890; 37255; 37621; 37986; 38351; 38716; 39082; 39447;
   39812; 40177; 40543; 40908; 41273; 41638; 42004; 42369; 42734; 43099; 43465; 43830; 44195;
   44560; 44926; 45291; 45656; 46021; 46387; 46752; 47117; 47482; 47847; 48212; 48577; 48942;
   49308; 49673; 50038; 50403; 50769; 51134; 51499; 51864; 52230; 52595; 52960; 53325; 53691;
   54056; 54421; 54786; 55152; 55517; 55882; 56247; 56613; 56978; 57343; 57708; 58074; 58439;
   58804; 59169; 59535; 59900; 60265; 60630; 60996; 61361; 61726; 62091; 62457; 62822; 63187;
   63552; 63918; 64283; 64648; 65013; 65379; 65744; 66109; 66474; 66840; 67205; 67570; 67935;
   68301; 68666; 69031; 69396; 69762; 70127; 70492; 70857; 71223; 71588; 71953; 72318; 72684;
   73049; 73414; 73779; 74145; 74510; 74875; 75240; 75606; 75971; 76336; 76701; 77067; 77432;
   77797; 78162; 78528; 78893; 79258; 79623; 79989; 80354; 80719; 81084; 81450; 81815; 82180;
   82545; 82911; 83276; 83641; 84006; 84371; 84736; 85101; 85466; 85832; 86197; 86562; 86927;
   87293; 87658; 88023; 88388; 88754; 89119; 89484; 89849; 90215; 90580; 90945; 91310; 91676;
   92041; 92406; 92771; 93137; 93502; 93867; 94232; 94598; 94963; 95328; 95693; 96059; 96424;
   96789; 97154; 97520; 97885; 98250; 98615; 98981; 99346; 99711; 100076; 100442; 100807;
   101172; 101537; 101903; 102268; 102633; 102998; 103364; 103729; 104094; 104459; 104825;
   105190; 105555; 105920; 106286; 106651; 107016; 107381; 107747; 108112; 108477; 108842;
   109208; 109573; 109938; 110303; 110669; 111034; 111399; 111764; 112130; 112495; 112860;
   113225; 113591; 113956; 114321; 114686; 115052; 115417; 115782; 116147; 116513; 116878;
   117243; 117608; 117974; 118339; 118704; 119069; 119435; 119800; 120165; 120530; 120895;
   121260; 121625; 121990; 122356; 122721; 123086; 123451; 123817; 124182; 124547; 124912;
   125278; 125643; 126008; 126373; 126739; 127104; 127469; 127834; 128200; 128565; 128930;
   129295; 129661; 130026; 130391; 130756; 131122; 131487; 131852; 132217; 132583; 132948;
   133313; 133678; 134044; 134409; 134774; 135139; 135505; 135870; 136235; 136600; 136966;
   137331; 137696; 138061; 138427; 138792; 139157; 139522; 139888; 140253; 140618; 140983;
   141349; 141714; 142079; 142444; 142810; 143175; 143540; 143905; 144271; 144636; 145001;
   145366; 145732; 146097].

Definition DATE_MIN_YEAR : Z := -5877641.
Definition DATE_MIN_MONTH : Z := 6.
Definition DATE_MIN_DAY : Z := 25.
Definition DATE_MAX_YEAR : Z := 5881580.
Definition DATE_MAX_MONTH : Z := 7.
Definition DATE_MAX_DAY : Z := 10.
Definition EPOCH_YEAR : Z := 1970.
Definition YEAR_INTERVAL : Z := 400.
Definition DAYS_PER_YEAR_INTERVAL : Z := 146097.

Definition infinity : Z := 2 ^ 31 - 1.
Definition ninfinity : Z := - (2 ^ 31 - 1).
Definition epoch : Z := 0.

(** ** Conversion to year, month and day *)

(** [while (n < 0)] and [while (n >= DAYS_PER_YEAR_INTERVAL)]. *)
Fixpoint shift_up (fuel : nat) (n year : Z) : Z * Z :=
  match fuel with
  | O => (n, year)
  | S fuel => if n <? 0 then shift_up fuel (n + DAYS_PER_YEAR_INTERVAL) (year - YEAR_INTERVAL)
              else (n, year)
  end.

Fixpoint shift_down (fuel : nat) (n year : Z) : Z * Z :=
  match fuel with
  | O => (n, year)
  | S fuel => if DAYS_PER_YEAR_INTERVAL <=? n
              then shift_down fuel (n - DAYS_PER_YEAR_INTERVAL) (year + YEAR_INTERVAL)
              else (n, year)
  end.

(** [while (n < CUMULATIVE_YEAR_DAYS[year_offset]) year_offset--], from [year_offset] down. *)
Fixpoint search_year (year_offset : nat) (n : Z) : nat :=
  match year_offset with
  | O => O
  | S k => if n <? tbl CUMULATIVE_YEAR_DAYS (Z.of_nat year_offset) then search_year k n
           else year_offset
  end.

(** An [int32] is less than 15000 cycles away from 0. *)
Definition CYCLE_FUEL : nat := Z.to_nat 15000.

(** The normalized day number, the year and the offset of the year in its cycle. *)
Definition ExtractYearOffset (n : Z) : Z * Z * Z :=
  let '(n, year) := shift_up CYCLE_FUEL n EPOCH_YEAR in
  let '(n, year) := shift_down CYCLE_FUEL n year in
  let year_offset := Z.of_nat (search_year (Z.to_nat (Z.quot n 365)) n) in
  (n, year + year_offset, year_offset).

Definition Convert (d : Z) : Z * Z * Z :=
  let '(n, year, year_offset) := ExtractYearOffset d in
  let day := n - tbl CUMULATIVE_YEAR_DAYS year_offset in
  let is_leap_year :=
    tbl CUMULATIVE_YEAR_DAYS (year_offset + 1) - tbl CUMULATIVE_YEAR_DAYS year_offset =? 366 in
  let month := if is_leap_year then tbl LEAP_MONTH_PER_DAY_OF_YEAR day
               else tbl MONTH_PER_DAY_OF_YEAR day in
  let day := day - (if is_leap_year then tbl CUMULATIVE_LEAP_DAYS (month - 1)
                    else tbl CUMULATIVE_DAYS (month - 1)) in
  (year, month, day + 1).

Definition IsLeapYear (year : Z) : bool :=
  (Z.rem year 4 =? 0) && (negb (Z.rem year 100 =? 0) || (Z.rem year 400 =? 0)).

Definition IsValid (year month day : Z) : bool :=
  if (month <? 1) || (12 <? month) then false
  else if day <? 1 then false
  else if (year <=? DATE_MIN_YEAR)
          && ((year <? DATE_MIN_YEAR)
              || (month <? DATE_MIN_MONTH) || ((month =? DATE_MIN_MONTH) && (day <? DATE_MIN_DAY)))
  then false
  else if (DATE_MAX_YEAR <=? year)
          && ((DATE_MAX_YEAR <? year)
              || (DATE_MAX_MONTH <? month) || ((month =? DATE_MAX_MONTH) && (DATE_MAX_DAY <? day)))
  then false
  else if IsLeapYear year then day <=? tbl LEAP_DAYS month else day <=? tbl NORMAL_DAYS month.

Definition MonthDays (year month : Z) : Z :=
  if IsLeapYear year then tbl LEAP_DAYS month else tbl NORMAL_DAYS month.

(** [n += x] on an [int32]. *)
Definition add32 (n x : Z) : Z := wrapS 32 (n + x).

Definition TryFromDate (year month day : Z) : option Z :=
  if negb (IsValid year month day) then None
  else
    let n := add32 0 (if IsLeapYear year then tbl CUMULATIVE_LEAP_DAYS (month - 1)
                      else tbl CUMULATIVE_DAYS (month - 1)) in
    let n := add32 n (day - 1) in
    Some
      (if year <? 1970 then
         let diff_from_base := 1970 - year in
         let year_index := 400 - Z.rem diff_from_base 400 in
         let fractions := Z.quot diff_from_base 400 in
         let n := add32 n (tbl CUMULATIVE_YEAR_DAYS year_index) in
         let n := add32 n (- DAYS_PER_YEAR_INTERVAL) in
         add32 n (- wrapS 32 (fractions * DAYS_PER_YEAR_INTERVAL))
       else if 2370 <=? year then
         let diff_from_base := year - 2370 in
         let year_index := Z.rem diff_from_base 400 in
         let fractions := Z.quot diff_from_base 400 in
         let n := add32 n (tbl CUMULATIVE_YEAR_DAYS year_index) in
         let n := add32 n DAYS_PER_YEAR_INTERVAL in
         add32 n (wrapS 32 (fractions * DAYS_PER_YEAR_INTERVAL))
       else add32 n (tbl CUMULATIVE_YEAR_DAYS (year - 1970))).

Definition FromDate (year month day : Z) : result Z :=
  match TryFromDate year month day with
  | Some d => Ok d
  | None => Throw ConversionException
  end.

Definition ExtractYear (d : Z) : Z := let '(_, year, _) := ExtractYearOffset d in year.
Definition ExtractMonth (d : Z) : Z := let '(_, month, _) := Convert d in month.
Definition ExtractDay (d : Z) : Z := let '(_, _, day) := Convert d in day.

Definition ExtractDayOfTheYear (d : Z) : Z :=
  let '(n, _, year_offset) := ExtractYearOffset d in n - tbl CUMULATIVE_YEAR_DAYS year_offset + 1.

Definition ExtractJulianDay (d : Z) : Z := d - -2440588.

(** ** Weeks *)

Definition ExtractISODayOfTheWeek (d : Z) : Z :=
  if d <? 0 then 7 - Z.rem (- d + 3) 7 else Z.rem (d + 3) 7 + 1.

Definition PythonDivMod (x y : Z) : Z * Z :=
  let quo := Z.quot x y in
  let r := x - quo * y in
  if r <? 0 then (quo - 1, r + y) else (quo, r).

Definition GetISOWeekOne (year : Z) : result Z :=
  first_day ← FromDate year 1 1;
  let first_weekday := ExtractISODayOfTheWeek first_day - 1 in
  let week1_monday := first_day - first_weekday in
  Ok (if 3 <? first_weekday then week1_monday + 7 else week1_monday).

(** The ISO year and week. *)
Definition GetISOYearWeek (date : Z) : result (Z * Z) :=
  let '(year, _, _) := Convert date in
  week1_monday ← GetISOWeekOne year;
  let '(week, _) := PythonDivMod (date - week1_monday) 7 in
  if week <? 0 then
    week1_monday ← GetISOWeekOne (year - 1);
    let '(week, _) := PythonDivMod (date - week1_monday) 7 in
    Ok (year - 1, week + 1)
  else if 52 <=? week then
    next ← GetISOWeekOne (year + 1);
    if next <=? date then Ok (year + 1, 1) else Ok (year, week + 1)
  else Ok (year, week + 1).

Definition ExtractISOWeekNumber (date : Z) : result Z := snd <$> GetISOYearWeek date.
Definition ExtractISOYearNumber (date : Z) : result Z := fst <$> GetISOYearWeek date.

Definition ExtractWeekNumberRegular (date : Z) (monday_first : bool) : result Z :=
  let '(year, month, day) := Convert date in
  let month := month - 1 in
  let day := day - 1 in
  let day_of_the_year :=
    (if IsLeapYear year then tbl CUMULATIVE_LEAP_DAYS month else tbl CUMULATIVE_DAYS month) + day in
  jan_first ← FromDate year 1 1;
  let day_of_jan_first := ExtractISODayOfTheWeek jan_first in
  let first_week_start :=
    if monday_first then if day_of_jan_first =? 1 then 0 else 8 - day_of_jan_first
    else 7 - day_of_jan_first in
  Ok (if day_of_the_year <? first_week_start then 0
      else Z.quot (day_of_the_year - first_week_start) 7 + 1).

Definition GetMondayOfCurrentWeek (date : Z) : Z := date - (ExtractISODayOfTheWeek date - 1).

(** ** Epoch units *)

Definition SECS_PER_DAY : Z := 86400.
Definition MICROS_PER_DAY : Z := 86400000000.
Definition MICROS_PER_MSEC : Z := 1000.

(** [TryMultiplyOperator] on [int64]. *)
Definition TryMultiply64 (a b : Z) : option Z :=
  if inSb 64 (a * b) then Some (a * b) else None.

Definition or_throw (o : option Z) : result Z :=
  match o with Some x => Ok x | None => Throw ConversionException end.

Definition EpochToDate (epoch : Z) : Z := wrapS 32 (Z.quot epoch SECS_PER_DAY).
Definition Epoch (date : Z) : Z := date * SECS_PER_DAY.
Definition EpochNanoseconds (date : Z) : result Z := or_throw (TryMultiply64 date (MICROS_PER_DAY * 1000)).
Definition EpochMicroseconds (date : Z) : result Z := or_throw (TryMultiply64 date MICROS_PER_DAY).
Definition EpochMilliseconds (date : Z) : result Z :=
  or_throw (TryMultiply64 date (Z.quot MICROS_PER_DAY MICROS_PER_MSEC)).

(** ** Printing *)

Definition codes (s : string) : list Z :=
  map (fun c => Z.of_nat (nat_of_ascii c)) (list_ascii_of_string s).

(** [DateToStringCast::YearLength]: the printed year, its width and whether it is BC. *)
Definition YearLength (year : Z) : Z * nat * bool :=
  let add_bc := year <=? 0 in
  let year := if add_bc then - year + 1 else year in
  let b (x : bool) := if x then 1%nat else 0%nat in
  (year, (4 + b (10000 <=? year)%Z + b (100000 <=? year)%Z + b (1000000 <=? year)%Z
          + b (10000000 <=? year)%Z)%nat, add_bc).

(** [FormatUnsigned] writes the digits of [value] right to left into a field of [width]
    characters; what is left of it is filled with zeros by the caller. *)
Fixpoint digits (width : nat) (value : Z) : list Z :=
  match width with
  | O => []
  | S width => digits width (value / 10) ++ [48 + value mod 10]
  end.

Definition FormatComponent (number : Z) : list Z := 45 :: digits 2 number.

Definition ToString (date : Z) : list Z :=
  if date =? infinity then codes "infinity"
  else if date =? ninfinity then codes "-infinity"
  else
    let '(year, month, day) := Convert date in
    let '(year, year_length, add_bc) := YearLength year in
    digits year_length year ++ FormatComponent month ++ FormatComponent day
    ++ (if add_bc then codes " (BC)" else []).

(** ** Parsing *)

Definition CharacterIsSpace (c : Z) : bool :=
  (c =? 32) || (c =? 9) || (c =? 10) || (c =? 11) || (c =? 12) || (c =? 13).
Definition CharacterIsDigit (c : Z) : bool := (48 <=? c) && (c <=? 57).
Definition CharacterToLower (c : Z) : Z := if (65 <=? c) && (c <=? 90) then c + 32 else c.

Inductive DateCastResult : Type :=
| SUCCESS (date : Z) (special : bool)
| ERROR_INCORRECT_FORMAT
| ERROR_RANGE.

(** The rest of the buffer stands for the position in it. *)
Fixpoint skip_spaces (buf : list Z) : list Z :=
  match buf with
  | c :: buf' => if CharacterIsSpace c then skip_spaces buf' else buf
  | [] => []
  end.

Definition ParseDoubleDigit (buf : list Z) : option (Z * list Z) :=
  match buf with
  | c :: buf =>
      if CharacterIsDigit c then
        match buf with
        | c2 :: buf2 =>
            if CharacterIsDigit c2 then Some ((c2 - 48) + (c - 48) * 10, buf2) else Some (c - 48, buf)
        | [] => Some (c - 48, buf)
        end
      else None
  | [] => None
  end.

(** The loop of [TryConvertDateSpecial]: [p] characters were matched so far. *)
Fixpoint match_special (buf special : list Z) (p : nat) : option (list Z * list Z * nat) :=
  match buf, special with
  | c :: buf', s :: special' =>
      if CharacterToLower c =? s then match_special buf' special' (S p) else None
  | _, _ => Some (buf, special, p)
  end.

Definition TryConvertDateSpecial (buf special : list Z) (abbr : nat) : option (list Z) :=
  match match_special buf special 0 with
  | Some (buf, rest, p) =>
      match rest with
      | [] => Some buf
      | _ => if (p =? abbr)%nat then Some buf else None
      end
  | None => None
  end.

(** The year: its digits, their number and the rest, or a range error. *)
Fixpoint parse_year (buf : list Z) (year : Z) (year_length : nat) : option (Z * nat * list Z) :=
  match buf with
  | c :: buf' =>
      if CharacterIsDigit c then
        if 100000000 <=? year then None else parse_year buf' ((c - 48) + year * 10) (S year_length)
      else Some (year, year_length, buf)
  | [] => Some (year, year_length, [])
  end.

Definition convert_special (yearneg : bool) (buf : list Z) : DateCastResult :=
  match TryConvertDateSpecial buf (codes "infinity") 3 with
  | Some rest =>
      match skip_spaces rest with
      | [] => SUCCESS (if yearneg then ninfinity else infinity) true
      | _ => ERROR_INCORRECT_FORMAT
      end
  | None =>
      match TryConvertDateSpecial buf (codes "epoch") 5 with
      | Some rest =>
          match skip_spaces rest with [] => SUCCESS epoch true | _ => ERROR_INCORRECT_FORMAT end
      | None => ERROR_INCORRECT_FORMAT
      end
  end.

(** The optional " (BC)" and what may follow it. *)
Definition finish_date (yearneg strict : bool) (year month day : Z) (buf : list Z) : DateCastResult :=
  let finish year buf :=
    let rest := if strict then skip_spaces buf else buf in
    let bad := if strict then match rest with [] => false | _ => true end
               else match rest with c :: _ => CharacterIsDigit c | [] => false end in
    if bad then ERROR_INCORRECT_FORMAT
    else match TryFromDate year month day with
         | Some d => SUCCESS d false
         | None => ERROR_RANGE
         end in
  match buf with
  | c0 :: c1 :: c2 :: c3 :: c4 :: buf' =>
      if CharacterIsSpace c0 && (c1 =? 40) && (CharacterToLower c2 =? 98)
         && (CharacterToLower c3 =? 99) && (c4 =? 41)
      then if yearneg || (year =? 0) then ERROR_INCORRECT_FORMAT else finish (- year + 1) buf'
      else finish year buf
  | _ => finish year buf
  end.

Definition TryConvertDate (buf : list Z) (strict : bool) : DateCastResult :=
  match skip_spaces buf with
  | [] => ERROR_INCORRECT_FORMAT
  | c :: buf' =>
      let yearneg := c =? 45 in
      let buf := if yearneg then buf' else c :: buf' in
      match buf with
      | [] => ERROR_INCORRECT_FORMAT
      | c :: _ =>
          if negb (CharacterIsDigit c) then convert_special yearneg buf
          else
            match parse_year buf 0 0 with
            | None => ERROR_RANGE
            | Some (year, year_length, buf) =>
                if (year_length <? 2)%nat && strict then ERROR_INCORRECT_FORMAT
                else
                  let year := if yearneg then - year else year in
                  match buf with
                  | [] => ERROR_INCORRECT_FORMAT
                  | sep :: buf =>
                      if negb ((sep =? 32) || (sep =? 45) || (sep =? 47) || (sep =? 92))
                      then ERROR_INCORRECT_FORMAT
                      else
                        match ParseDoubleDigit buf with
                        | None => ERROR_INCORRECT_FORMAT
                        | Some (month, []) => ERROR_INCORRECT_FORMAT
                        | Some (month, c :: buf) =>
                            if negb (c =? sep) then ERROR_INCORRECT_FORMAT
                            else match buf with
                                 | [] => ERROR_INCORRECT_FORMAT
                                 | _ =>
                                     match ParseDoubleDigit buf with
                                     | None => ERROR_INCORRECT_FORMAT
                                     | Some (day, buf) => finish_date yearneg strict year month day buf
                                     end
                                 end
                        end
                  end
            end
      end
  end.

Definition FromCString (buf : list Z) (strict : bool) : result Z :=
  match TryConvertDate buf strict with
  | SUCCESS d _ => Ok d
  | _ => Throw ConversionException
  end.

(** ** The calendar

    The proleptic Gregorian calendar, independently of the tables: the days before a year in
    closed form, and those before a month as the sum of the months' lengths. *)

Definition leap (y : Z) : bool := (y mod 4 =? 0) && (negb (y mod 100 =? 0) || (y mod 400 =? 0)).

Definition days_before_year (y : Z) : Z :=
  365 * (y - 1970) + (y - 1) / 4 - (y - 1) / 100 + (y - 1) / 400 - 477.

Definition month_length (l : bool) (m : Z) : Z :=
  if m =? 2 then if l then 29 else 28
  else if (m =? 4) || (m =? 6) || (m =? 9) || (m =? 11) then 30 else 31.

Definition days_before_month (l : bool) (m : Z) : Z :=
  fold_right Z.add 0 (map (fun k => month_length l (Z.of_nat k)) (seq 1 (Z.to_nat m - 1))).

Definition day_number (y m d : Z) : Z := days_before_year y + days_before_month (leap y) m + d - 1.

Lemma rem_mod_zero y k : 0 < k -> (Z.rem y k =? 0) = (y mod k =? 0).
Proof.
  intros Hk. apply Bool.eq_iff_eq_true. rewrite !Z.eqb_eq.
  rewrite Z.rem_divide, Z.mod_divide by lia. done.
Qed.

Lemma IsLeapYear_leap y : IsLeapYear y = leap y.
Proof. unfold IsLeapYear, leap. by rewrite !rem_mod_zero by lia. Qed.

Lemma leap_shift y k : leap (y + 400 * k) = leap y.
Proof.
  unfold leap. replace (y + 400 * k) with (y + (100 * k) * 4) at 1 by lia.
  replace (y + 400 * k) with (y + (4 * k) * 100) at 1 by lia.
  replace (y + 400 * k) with (y + k * 400) by lia. by rewrite !Z.mod_add by lia.
Qed.

Lemma days_before_year_shift y k : days_before_year (y + 400 * k) = days_before_year y + 146097 * k.
Proof.
  unfold days_before_year. replace (y + 400 * k - 1) with (y - 1 + (100 * k) * 4) at 1 by lia.
  rewrite Z.div_add by lia. replace (y + 400 * k - 1) with (y - 1 + (4 * k) * 100) at 1 by lia.
  rewrite Z.div_add by lia. replace (y + 400 * k - 1) with (y - 1 + k * 400) by lia.
  rewrite Z.div_add by lia. lia.
Qed.

Definition year_length (y : Z) : Z := if leap y then 366 else 365.

Lemma div_step y k : 1 < k -> y / k = (y - 1) / k + (if y mod k =? 0 then 1 else 0).
Proof.
  intros Hk. pose proof (Z.div_mod y k ltac:(lia)). pose proof (Z.mod_pos_bound y k ltac:(lia)).
  destruct (Z.eqb_spec (y mod k) 0) as [E|E].
  - assert ((y - 1) / k = y / k - 1); [|lia]. symmetry. apply Z.div_unique with (k - 1); lia.
  - rewrite Z.add_0_r. apply Z.div_unique with (y mod k - 1); lia.
Qed.

Lemma days_before_next_year y : days_before_year (y + 1) = days_before_year y + year_length y.
Proof.
  unfold year_length, leap, days_before_year. replace (y + 1 - 1) with y by lia.
  rewrite (div_step y 4), (div_step y 100), (div_step y 400) by lia.
  assert (y mod 400 = 0 -> y mod 100 = 0) as H4.
  { intros H. apply Z.mod_divide in H as [q ->]; [|lia]. apply Z.mod_divide; [lia|]. exists (4 * q). lia. }
  assert (y mod 100 = 0 -> y mod 4 = 0) as H1.
  { intros H. apply Z.mod_divide in H as [q ->]; [|lia]. apply Z.mod_divide; [lia|]. exists (25 * q). lia. }
  destruct (Z.eqb_spec (y mod 4) 0), (Z.eqb_spec (y mod 100) 0), (Z.eqb_spec (y mod 400) 0);
    cbn [andb orb negb]; lia.
Qed.

Lemma days_before_year_mono y y' : y < y' -> days_before_year y + 365 <= days_before_year y'.
Proof. unfold days_before_year. intros. dlia. Qed.

(** ** The tables *)

(** A table fact checked for the indices of a range. *)
Lemma forallb_range (P : Z -> bool) (a : Z) (n : nat) i :
  forallb (fun k => P (a + Z.of_nat k)) (seq 0 n) = true -> a <= i < a + Z.of_nat n -> P i = true.
Proof.
  intros H Hi. rewrite forallb_forall in H. specialize (H (Z.to_nat (i - a))).
  rewrite in_seq in H. replace (a + Z.of_nat (Z.to_nat (i - a))) with i in H by lia. apply H. lia.
Qed.

Lemma CYD_spec i : 0 <= i <= 400 -> tbl CUMULATIVE_YEAR_DAYS i = days_before_year (1970 + i).
Proof.
  intros Hi. apply Z.eqb_eq.
  apply (forallb_range (fun i => tbl CUMULATIVE_YEAR_DAYS i =? days_before_year (1970 + i)) 0 401);
    [by vm_compute|lia].
Qed.

(** The tables of a common or of a leap year. *)
Definition CUMULATIVE (l : bool) : list Z := if l then CUMULATIVE_LEAP_DAYS else CUMULATIVE_DAYS.
Definition DAYS (l : bool) : list Z := if l then LEAP_DAYS else NORMAL_DAYS.
Definition MONTH_PER_DAY (l : bool) : list Z :=
  if l then LEAP_MONTH_PER_DAY_OF_YEAR else MONTH_PER_DAY_OF_YEAR.

Lemma month_tables (l : bool) m : 1 <= m <= 12 ->
  tbl (CUMULATIVE l) (m - 1) = days_before_month l m /\ tbl (DAYS l) m = month_length l m
  /\ 0 <= days_before_month l m <= 335 /\ 28 <= month_length l m <= 31
  /\ days_before_month l m + month_length l m <= if l then 366 else 365.
Proof.
  intros Hm. set (P := fun m => (tbl (CUMULATIVE l) (m - 1) =? days_before_month l m)
    && (tbl (DAYS l) m =? month_length l m) && (0 <=? days_before_month l m)
    && (days_before_month l m <=? 335) && (28 <=? month_length l m) && (month_length l m <=? 31)
    && (days_before_month l m + month_length l m <=? if l then 366 else 365)).
  assert (P m = true) as H by (apply (forallb_range P 1 12); [by destruct l; vm_compute|lia]).
  unfold P in H. rewrite !andb_true_iff, !Z.eqb_eq, !Z.leb_le in H. lia.
Qed.

Lemma month_of_day (l : bool) d : 0 <= d < (if l then 366 else 365) ->
  let m := tbl (MONTH_PER_DAY l) d in
  1 <= m <= 12 /\ days_before_month l m <= d < days_before_month l m + month_length l m.
Proof.
  intros Hd. set (P := fun d => let m := tbl (MONTH_PER_DAY l) d in
    (1 <=? m) && (m <=? 12) && (days_before_month l m <=? d) && (d <? days_before_month l m + month_length l m)).
  assert (P d = true) as H
    by (apply (forallb_range P 0 (if l then 366 else 365)%nat); [by destruct l; vm_compute|by destruct l; lia]).
  unfold P in H. cbv zeta in *. rewrite !andb_true_iff, !Z.leb_le, !Z.ltb_lt in H. lia.
Qed.

Lemma day_of_month (l : bool) m d : 1 <= m <= 12 -> 1 <= d <= month_length l m ->
  tbl (MONTH_PER_DAY l) (days_before_month l m + d - 1) = m.
Proof.
  intros Hm Hd. apply Z.eqb_eq.
  set (P := fun m => forallb (fun k => let d := 1 + Z.of_nat k in
    implb (d <=? month_length l m) (tbl (MONTH_PER_DAY l) (days_before_month l m + d - 1) =? m)) (seq 0 31)).
  assert (P m = true) as H by (apply (forallb_range P 1 12); [by destruct l; vm_compute|lia]).
  destruct (month_tables l m Hm) as (_ & _ & _ & Hml & _).
  pose proof (forallb_range (fun d => implb (d <=? month_length l m)
    (tbl (MONTH_PER_DAY l) (days_before_month l m + d - 1) =? m)) 1 31 d H ltac:(lia)) as Hx.
  cbv beta in Hx. by destruct (Z.leb_spec d (month_length l m)); [|lia].
Qed.

(** ** Conversion *)

Definition in_int32 (n : Z) : Prop := - 2 ^ 31 <= n < 2 ^ 31.

Lemma shift_up_spec fuel n year :
  - 146097 * Z.of_nat fuel <= n ->
  exists k, 0 <= k /\ shift_up fuel n year = (n + 146097 * k, year - 400 * k)
    /\ 0 <= n + 146097 * k /\ (k = 0 \/ n + 146097 * k < 146097).
Proof.
  unfold DAYS_PER_YEAR_INTERVAL, YEAR_INTERVAL. revert n year. induction fuel as [|fuel IH]; intros n year Hn.
  - exists 0. split; [lia|]. split; [cbn [shift_up]; f_equal; lia|]. lia.
  - cbn [shift_up]. unfold DAYS_PER_YEAR_INTERVAL, YEAR_INTERVAL. destruct (Z.ltb_spec n 0) as [H|H].
    + destruct (IH (n + 146097) (year - 400)) as (k & Hk & -> & H1 & H2); [lia|].
      exists (k + 1). split; [lia|]. split; [f_equal; lia|]. lia.
    + exists 0. split; [lia|]. split; [f_equal; lia|]. lia.
Qed.

Lemma shift_down_spec fuel n year :
  0 <= n -> n < 146097 * (Z.of_nat fuel + 1) ->
  exists k, 0 <= k /\ shift_down fuel n year = (n - 146097 * k, year + 400 * k)
    /\ 0 <= n - 146097 * k < 146097.
Proof.
  revert n year. induction fuel as [|fuel IH]; intros n year H0 Hn.
  - exists 0. split; [lia|]. split; [cbn [shift_down]; f_equal; lia|]. lia.
  - cbn [shift_down]. unfold DAYS_PER_YEAR_INTERVAL, YEAR_INTERVAL.
    destruct (Z.leb_spec 146097 n) as [H|H].
    + destruct (IH (n - 146097) (year + 400)) as (k & Hk & -> & H1); [lia|lia|].
      exists (k + 1). split; [lia|]. split; [f_equal; lia|]. lia.
    + exists 0. split; [lia|]. split; [f_equal; lia|]. lia.
Qed.

Lemma search_year_S k n :
  search_year (S k) n = if n <? tbl CUMULATIVE_YEAR_DAYS (Z.of_nat (S k)) then search_year k n else S k.
Proof. done. Qed.

Lemma search_year_spec k n :
  (k <= 399)%nat -> 0 <= n -> n < tbl CUMULATIVE_YEAR_DAYS (Z.of_nat k + 1) ->
  let s := Z.of_nat (search_year k n) in
  0 <= s <= 399 /\ tbl CUMULATIVE_YEAR_DAYS s <= n < tbl CUMULATIVE_YEAR_DAYS (s + 1).
Proof.
  intros Hk H0. induction k as [|k IH]; intros Hn; [|rewrite search_year_S].
  - cbn [search_year]. split; [lia|]. split; [|done]. change (tbl CUMULATIVE_YEAR_DAYS (Z.of_nat 0)) with 0. lia.
  - destruct (Z.ltb_spec n (tbl CUMULATIVE_YEAR_DAYS (Z.of_nat (S k)))) as [H|H].
    + apply IH; [lia|]. by replace (Z.of_nat k + 1) with (Z.of_nat (S k)) by lia.
    + split; [lia|]. done.
Qed.

(** The year offset of a day number, with the year it belongs to. *)
Lemma ExtractYearOffset_spec n :
  in_int32 n ->
  exists q yo, 0 <= yo <= 399 /\ ExtractYearOffset n = (n - 146097 * q, 1970 + 400 * q + yo, yo)
    /\ days_before_year (1970 + yo) <= n - 146097 * q < days_before_year (1970 + yo + 1).
Proof.
  unfold in_int32. intros Hn. unfold ExtractYearOffset.
  assert (Z.of_nat CYCLE_FUEL = 15000) as HF by (unfold CYCLE_FUEL; lia).
  destruct (shift_up_spec CYCLE_FUEL n EPOCH_YEAR) as (k & Hk & -> & H1 & H2); [rewrite HF; lia|].
  destruct (shift_down_spec CYCLE_FUEL (n + 146097 * k) (EPOCH_YEAR - 400 * k)) as (j & Hj & -> & H3);
    [lia|rewrite HF; lia|].
  set (r := n + 146097 * k - 146097 * j) in *.
  assert (0 <= Z.quot r 365 <= 400) as Hq by (rewrite Z.quot_div_nonneg by lia; dlia).
  assert (exists c, (c <= 399)%nat /\ r < tbl CUMULATIVE_YEAR_DAYS (Z.of_nat c + 1)
                    /\ search_year (Z.to_nat (Z.quot r 365)) r = search_year c r) as (c & Hc & Hr & ->).
  { destruct (decide (Z.quot r 365 = 400)) as [E|E].
    - exists 399%nat. split; [lia|]. change (tbl CUMULATIVE_YEAR_DAYS (Z.of_nat 399 + 1)) with 146097.
      split; [lia|]. rewrite E. change (Z.to_nat 400) with (S 399). rewrite search_year_S.
      change (tbl CUMULATIVE_YEAR_DAYS (Z.of_nat (S 399))) with 146097.
      by rewrite (proj2 (Z.ltb_lt r 146097)) by lia.
    - exists (Z.to_nat (Z.quot r 365)). split; [lia|]. split; [|done].
      rewrite CYD_spec by lia. rewrite Z2Nat.id by lia.
      assert (r < 365 * (Z.quot r 365 + 1)) by (rewrite Z.quot_div_nonneg by lia; dlia).
      unfold days_before_year. dlia. }
  destruct (search_year_spec c r) as [Hs1 Hs2]; [done|lia|done|].
  exists (j - k), (Z.of_nat (search_year c r)). split; [done|]. split.
  - unfold EPOCH_YEAR, r. f_equal. f_equal; lia.
  - rewrite !CYD_spec in Hs2 by lia. replace (n - 146097 * (j - k)) with r by lia.
    by rewrite <- Z.add_assoc.
Qed.

Definition valid_day (y m d : Z) : Prop := 1 <= m <= 12 /\ 1 <= d <= month_length (leap y) m.

Lemma Convert_spec n :
  in_int32 n ->
  let '(y, m, d) := Convert n in valid_day y m d /\ day_number y m d = n /\ ExtractYear n = y
    /\ ExtractDayOfTheYear n = n - days_before_year y + 1.
Proof.
  intros Hn. destruct (ExtractYearOffset_spec n Hn) as (q & yo & Hyo & E & Hr).
  unfold Convert, ExtractYear, ExtractDayOfTheYear. rewrite E.
  set (r := n - 146097 * q) in *. rewrite !CYD_spec by lia. rewrite Z.add_assoc.
  set (y := 1970 + 400 * q + yo).
  assert (leap y = leap (1970 + yo)) as Hl.
  { unfold y. replace (1970 + 400 * q + yo) with (1970 + yo + 400 * q) by lia. apply leap_shift. }
  assert (days_before_year y = days_before_year (1970 + yo) + 146097 * q) as Hd.
  { unfold y. replace (1970 + 400 * q + yo) with (1970 + yo + 400 * q) by lia. apply days_before_year_shift. }
  rewrite days_before_next_year in *. unfold year_length in *. rewrite <- Hl in *.
  set (doy := r - days_before_year (1970 + yo)) in *.
  replace (days_before_year (1970 + yo) + (if leap y then 366 else 365) - days_before_year (1970 + yo) =? 366)
    with (leap y) by (destruct (leap y); symmetry; [apply Z.eqb_eq|apply Z.eqb_neq]; lia).
  set (m := if leap y then tbl LEAP_MONTH_PER_DAY_OF_YEAR doy else tbl MONTH_PER_DAY_OF_YEAR doy).
  assert (m = tbl (MONTH_PER_DAY (leap y)) doy) as Hm by (by unfold m; destruct (leap y)).
  destruct (month_of_day (leap y) doy) as [Hm1 Hm2]; [destruct (leap y); lia|]. rewrite <- Hm in Hm1, Hm2.
  assert ((if leap y then tbl CUMULATIVE_LEAP_DAYS (m - 1) else tbl CUMULATIVE_DAYS (m - 1))
          = days_before_month (leap y) m) as ->.
  { destruct (month_tables (leap y) m Hm1) as [H _]. by destruct (leap y). }
  unfold valid_day, day_number. lia.
Qed.

Lemma day_number_inj y m d y' m' d' :
  valid_day y m d -> valid_day y' m' d' -> day_number y m d = day_number y' m' d' ->
  (y, m, d) = (y', m', d').
Proof.
  intros [Hm Hd] [Hm' Hd'] He. unfold day_number in He.
  destruct (month_tables (leap y) m Hm) as (_ & _ & H1 & H2 & H3).
  destruct (month_tables (leap y') m' Hm') as (_ & _ & H1' & H2' & H3').
  assert (y = y') as <-.
  { pose proof (days_before_next_year y). pose proof (days_before_next_year y'). unfold year_length in *.
    destruct (Z.lt_trichotomy y y') as [Hlt|[->|Hlt]]; [exfalso|done|exfalso].
    - destruct (decide (y' = y + 1)) as [->|]; [destruct (leap y), (leap (y + 1)); lia|].
      pose proof (days_before_year_mono (y + 1) y' ltac:(lia)). destruct (leap y), (leap y'); lia.
    - destruct (decide (y = y' + 1)) as [->|]; [destruct (leap y'), (leap (y' + 1)); lia|].
      pose proof (days_before_year_mono (y' + 1) y ltac:(lia)). destruct (leap y), (leap y'); lia. }
  pose proof (day_of_month (leap y) m d Hm Hd) as E. pose proof (day_of_month (leap y) m' d' Hm' Hd') as E'.
  replace (days_before_month (leap y) m + d - 1) with (days_before_month (leap y) m' + d' - 1) in E by lia.
  assert (m = m') as <- by congruence. f_equal. lia.
Qed.

(** Dates in their order. *)
Definition date_lt (a b : Z * Z * Z) : Prop :=
  let '(y, m, d) := a in let '(y', m', d') := b in
  y < y' \/ (y = y' /\ (m < m' \/ (m = m' /\ d < d'))).

Lemma months_before (l : bool) m m' : 1 <= m -> m < m' <= 12 ->
  days_before_month l m + month_length l m <= days_before_month l m'.
Proof.
  intros Hm Hm'. apply Z.leb_le.
  set (P := fun m => forallb (fun k => let m' := 1 + Z.of_nat k in
    implb (m <? m') (days_before_month l m + month_length l m <=? days_before_month l m')) (seq 0 12)).
  assert (P m = true) as H by (apply (forallb_range P 1 12); [by destruct l; vm_compute|lia]).
  pose proof (forallb_range (fun m' => implb (m <? m')
    (days_before_month l m + month_length l m <=? days_before_month l m')) 1 12 m' H ltac:(lia)) as Hx.
  cbv beta in Hx. by destruct (Z.ltb_spec m m'); [|lia].
Qed.

Lemma day_number_mono y m d y' m' d' :
  valid_day y m d -> valid_day y' m' d' -> date_lt (y, m, d) (y', m', d') ->
  day_number y m d < day_number y' m' d'.
Proof.
  intros [Hm Hd] [Hm' Hd']. unfold day_number, date_lt.
  destruct (month_tables (leap y) m Hm) as (_ & _ & H1 & H2 & H3).
  destruct (month_tables (leap y') m' Hm') as (_ & _ & H1' & H2' & H3').
  intros [Hy|[<- [Hmm|[<- Hdd]]]].
  - pose proof (days_before_next_year y) as Hn. unfold year_length in Hn.
    destruct (decide (y' = y + 1)) as [->|]; [destruct (leap y); lia|].
    pose proof (days_before_year_mono (y + 1) y' ltac:(lia)). destruct (leap y); lia.
  - pose proof (months_before (leap y) m m' ltac:(lia) ltac:(lia)). lia.
  - lia.
Qed.

Lemma day_number_lex y m d y' m' d' :
  valid_day y m d -> valid_day y' m' d' ->
  date_lt (y, m, d) (y', m', d') <-> day_number y m d < day_number y' m' d'.
Proof.
  intros Hv Hv'. split; [by apply day_number_mono|]. intros Hlt.
  assert (date_lt (y, m, d) (y', m', d') \/ (y, m, d) = (y', m', d') \/ date_lt (y', m', d') (y, m, d))
    as [H|[[= -> -> ->]|H]].
  { unfold date_lt. destruct (Z.lt_trichotomy y y') as [|[<-|]], (Z.lt_trichotomy m m') as [|[<-|]],
      (Z.lt_trichotomy d d') as [|[<-|]]; auto 8. }
  - done.
  - lia.
  - apply day_number_mono in H; [lia|done..].
Qed.

(** The days a [date_t] can hold beside the infinities. *)
Definition finite_days (n : Z) : Prop := ninfinity < n < infinity.

Lemma IsValid_spec y m d :
  IsValid y m d = true <-> valid_day y m d /\ finite_days (day_number y m d).
Proof.
  assert (valid_day y m d <->
    ((m <? 1) || (12 <? m) = false /\ (d <? 1) = false
     /\ (if IsLeapYear y then d <=? tbl LEAP_DAYS m else d <=? tbl NORMAL_DAYS m) = true)) as Hvd.
  { rewrite IsLeapYear_leap. unfold valid_day. destruct (Z.ltb_spec m 1), (Z.ltb_spec 12 m), (Z.ltb_spec d 1);
      cbn [orb]; try (split; [lia|intros (? & ? & _); done]).
    destruct (month_tables (leap y) m ltac:(lia)) as (_ & Ht & _). unfold DAYS in Ht.
    replace (if leap y then d <=? tbl LEAP_DAYS m else d <=? tbl NORMAL_DAYS m) with (d <=? month_length (leap y) m)
      by (rewrite <- Ht; by destruct (leap y)).
    rewrite Z.leb_le. split; intros; lia. }
  assert (valid_day y m d -> IsValid y m d = true <-> finite_days (day_number y m d)) as Hf.
  { intros Hv. pose proof Hv as (H1 & H2 & H3)%Hvd. unfold IsValid. rewrite H1, H2, H3.
    assert (Hmin : valid_day DATE_MIN_YEAR DATE_MIN_MONTH DATE_MIN_DAY) by (split; split; by vm_compute).
    assert (Hmax : valid_day DATE_MAX_YEAR DATE_MAX_MONTH DATE_MAX_DAY) by (split; split; by vm_compute).
    pose proof (day_number_lex _ _ _ _ _ _ Hv Hmin) as Lmin. pose proof (day_number_lex _ _ _ _ _ _ Hmax Hv) as Lmax.
    change (day_number DATE_MIN_YEAR DATE_MIN_MONTH DATE_MIN_DAY) with (ninfinity + 1) in Lmin.
    change (day_number DATE_MAX_YEAR DATE_MAX_MONTH DATE_MAX_DAY) with (infinity - 1) in Lmax.
    unfold finite_days, date_lt in *.
    assert ((ninfinity < day_number y m d < infinity)
            <-> ~ (day_number y m d < ninfinity + 1) /\ ~ (infinity - 1 < day_number y m d)) as -> by lia.
    rewrite <- Lmin, <- Lmax. clear Lmin Lmax.
    destruct (Z.leb_spec y DATE_MIN_YEAR), (Z.ltb_spec y DATE_MIN_YEAR), (Z.ltb_spec m DATE_MIN_MONTH),
      (Z.eqb_spec m DATE_MIN_MONTH), (Z.ltb_spec d DATE_MIN_DAY); cbn [orb andb];
      try (split; [done|intros [Hx _]; exfalso; apply Hx; lia]);
    destruct (Z.leb_spec DATE_MAX_YEAR y), (Z.ltb_spec DATE_MAX_YEAR y), (Z.ltb_spec DATE_MAX_MONTH m),
      (Z.eqb_spec m DATE_MAX_MONTH), (Z.ltb_spec DATE_MAX_DAY d); cbn [orb andb];
      try (split; [done|intros [_ Hx]; exfalso; apply Hx; lia]); (split; [intros _|done]); split; lia. }
  split.
  - intros H. assert (valid_day y m d) as Hv; [|split; [done|by apply Hf]].
    apply Hvd. unfold IsValid in H. destruct ((m <? 1) || (12 <? m)); [done|]. destruct (d <? 1); [done|].
    repeat (match type of H with context [if ?b then false else _] => destruct b; [done|] end). done.
  - intros [Hv Hd]. by apply Hf.
Qed.

Lemma add32_exact a b : in_int32 (a + b) -> add32 a b = a + b.
Proof. unfold in_int32. intros H. unfold add32. apply wrapS_small; [lia|]. unfold inS. simpl. lia. Qed.

Lemma finite_int32 n : finite_days n -> in_int32 n.
Proof. unfold finite_days, in_int32, ninfinity, infinity. lia. Qed.

(** [TryFromDate] computes the day number, without overflow. *)
Lemma TryFromDate_spec y m d :
  TryFromDate y m d = if IsValid y m d then Some (day_number y m d) else None.
Proof.
  unfold TryFromDate. destruct (IsValid y m d) eqn:Hv; [|done]. cbn [negb]. f_equal.
  apply IsValid_spec in Hv as [[Hm Hd] Hf].
  destruct (month_tables (leap y) m Hm) as (Ht & _ & H1 & H2 & H3).
  rewrite IsLeapYear_leap.
  replace (if leap y then tbl CUMULATIVE_LEAP_DAYS (m - 1) else tbl CUMULATIVE_DAYS (m - 1))
    with (days_before_month (leap y) m) by (rewrite <- Ht; by destruct (leap y)).
  apply finite_int32 in Hf. unfold day_number, in_int32 in Hf.
  assert (0 <= days_before_month (leap y) m + d - 1 <= 365) as Hdoy by (destruct (leap y); lia).
  rewrite (add32_exact 0), (add32_exact (0 + days_before_month (leap y) m)) by (unfold in_int32; lia).
  unfold day_number. unfold DAYS_PER_YEAR_INTERVAL.
  destruct (Z.ltb_spec y 1970) as [Hy|Hy]; [|destruct (Z.leb_spec 2370 y) as [Hy2|Hy2]].
  - rewrite Z.rem_mod_nonneg, Z.quot_div_nonneg by lia.
    pose proof (Z.div_mod (1970 - y) 400 ltac:(lia)) as Hdm.
    pose proof (Z.mod_pos_bound (1970 - y) 400 ltac:(lia)) as Hmb.
    set (f := (1970 - y) / 400) in *. set (i := 400 - (1970 - y) mod 400) in *.
    rewrite CYD_spec by lia.
    assert (days_before_year y = days_before_year (1970 + i) - 146097 - f * 146097) as Hdy.
    { replace y with (1970 + i + 400 * (- f - 1)) by lia. rewrite days_before_year_shift. lia. }
    assert (0 <= days_before_year (1970 + i) <= 146097) as Hi.
    { rewrite <- CYD_spec by lia. clear -Hmb i. unfold days_before_year in *. rewrite CYD_spec by lia.
      unfold days_before_year. dlia. }
    assert (f <= 14699) as Hfb by (unfold days_before_year in Hf; dlia).
    assert (0 <= f) by (apply Z.div_pos; lia).
    rewrite (wrapS_small 32) by (unfold inS; simpl; lia).
    do 3 rewrite (add32_exact (_ + _)) by (unfold in_int32; lia). lia.
  - rewrite Z.rem_mod_nonneg, Z.quot_div_nonneg by lia.
    pose proof (Z.div_mod (y - 2370) 400 ltac:(lia)) as Hdm.
    pose proof (Z.mod_pos_bound (y - 2370) 400 ltac:(lia)) as Hmb.
    set (f := (y - 2370) / 400) in *. set (i := (y - 2370) mod 400) in *.
    rewrite CYD_spec by lia.
    assert (days_before_year y = days_before_year (1970 + i) + 146097 + f * 146097) as Hdy.
    { replace y with (1970 + i + 400 * (f + 1)) by lia. rewrite days_before_year_shift. lia. }
    assert (0 <= days_before_year (1970 + i) <= 146097) as Hi by (unfold days_before_year; dlia).
    assert (f <= 14698) as Hfb by lia.
    assert (0 <= f) by (apply Z.div_pos; lia).
    rewrite (wrapS_small 32) by (unfold inS; simpl; lia).
    do 3 rewrite (add32_exact (_ + _)) by (unfold in_int32; lia). lia.
  - rewrite CYD_spec by lia. replace (1970 + (y - 1970)) with y by lia.
    rewrite add32_exact by (unfold in_int32; lia). lia.
Qed.

Lemma FromDate_day_number y m d :
  valid_day y m d -> finite_days (day_number y m d) -> FromDate y m d = Ok (day_number y m d).
Proof.
  intros Hv Hf. unfold FromDate. rewrite TryFromDate_spec.
  assert (IsValid y m d = true) as -> by by apply IsValid_spec. done.
Qed.

(** ** Weeks *)

Lemma ISODayOfTheWeek_spec n : ExtractISODayOfTheWeek n = (n + 3) mod 7 + 1.
Proof.
  unfold ExtractISODayOfTheWeek. destruct (Z.ltb_spec n 0).
  - rewrite Z.rem_mod_nonneg by lia. dlia.
  - by rewrite Z.rem_mod_nonneg by lia.
Qed.

Lemma PythonDivMod_spec x : PythonDivMod x 7 = (x / 7, x mod 7).
Proof.
  unfold PythonDivMod. destruct (Z.ltb_spec (x - Z.quot x 7 * 7) 0) as [Hr|Hr];
    f_equal; Z.to_euclidean_division_equations; lia.
Qed.

(** The Monday of the week that holds January 4th, which starts the ISO year. *)
Definition iso_year_start (y : Z) : Z :=
  let jan4 := days_before_year y + 3 in jan4 - (jan4 + 3) mod 7.

Lemma GetISOWeekOne_spec y :
  finite_days (days_before_year y) -> GetISOWeekOne y = Ok (iso_year_start y).
Proof.
  intros Hf. unfold GetISOWeekOne.
  assert (day_number y 1 1 = days_before_year y) as Hdn.
  { unfold day_number. change (days_before_month (leap y) 1) with 0. lia. }
  rewrite FromDate_day_number.
  2: { unfold valid_day. destruct (month_tables (leap y) 1 ltac:(lia)) as (_ & _ & _ & ? & _). lia. }
  2: by rewrite Hdn.
  cbn [mbind result_bind]. rewrite Hdn, ISODayOfTheWeek_spec. f_equal. unfold iso_year_start.
  replace ((days_before_year y + 3) mod 7 + 1 - 1) with ((days_before_year y + 3) mod 7) by lia.
  destruct (Z.ltb_spec 3 ((days_before_year y + 3) mod 7)); dlia.
Qed.

(** ISO years have 52 or 53 weeks and start on the Monday next to January 1st. *)
Lemma iso_year_start_bounds y :
  days_before_year y - 3 <= iso_year_start y <= days_before_year y + 3
  /\ (iso_year_start y + 3) mod 7 = 0.
Proof. unfold iso_year_start. split; dlia. Qed.

Lemma GetISOYearWeek_spec n :
  ninfinity + 800 < n < infinity - 800 ->
  exists y w, GetISOYearWeek n = Ok (y, w) /\ 1 <= w <= 53
    /\ iso_year_start y <= n < iso_year_start (y + 1)
    /\ n = iso_year_start y + 7 * (w - 1) + (ExtractISODayOfTheWeek n - 1).
Proof.
  unfold ninfinity, infinity. intros Hn. unfold GetISOYearWeek.
  pose proof (Convert_spec n ltac:(unfold in_int32; lia)) as Hc.
  destruct (Convert n) as [[y m] d]. destruct Hc as ([Hm Hd] & Hdn & _ & _).
  destruct (month_tables (leap y) m Hm) as (_ & _ & H1 & H2 & H3). unfold day_number in Hdn.
  assert (days_before_year y <= n < days_before_year (y + 1)) as Hy.
  { rewrite days_before_next_year. unfold year_length. destruct (leap y); lia. }
  pose proof (days_before_next_year y) as N1. pose proof (days_before_next_year (y - 1)) as N0.
  replace (y - 1 + 1) with y in N0 by lia.
  pose proof (days_before_next_year (y + 1)) as N2.
  unfold year_length in *.
  assert (forall l : bool, 365 <= (if l then 366 else 365) <= 366) as Hyl by (intros []; lia).
  pose proof (Hyl (leap y)) as L1. pose proof (Hyl (leap (y - 1))) as L0. pose proof (Hyl (leap (y + 1))) as L2.
  destruct (iso_year_start_bounds y) as [B1 M1]. destruct (iso_year_start_bounds (y - 1)) as [B0 M0].
  destruct (iso_year_start_bounds (y + 1)) as [B2 M2].
  assert (forall z, days_before_year y - 366 <= days_before_year z <= days_before_year y + 366 ->
            GetISOWeekOne z = Ok (iso_year_start z)) as Hone.
  { intros z Hz. apply GetISOWeekOne_spec. unfold finite_days, ninfinity, infinity. lia. }
  rewrite (Hone y) by lia. cbn [mbind result_bind]. rewrite PythonDivMod_spec, ISODayOfTheWeek_spec.
  destruct (Z.ltb_spec ((n - iso_year_start y) / 7) 0) as [W|W];
    [|destruct (Z.leb_spec 52 ((n - iso_year_start y) / 7)) as [W2|W2]].
  - rewrite (Hone (y - 1)) by lia. cbn [mbind result_bind]. rewrite PythonDivMod_spec.
    eexists _, _. split; [done|]. replace (y - 1 + 1) with y by lia.
    clear -Hy N0 L0 B0 B1 M0 M1 W. dlia.
  - rewrite (Hone (y + 1)) by lia. cbn [mbind result_bind].
    destruct (Z.leb_spec (iso_year_start (y + 1)) n) as [W3|W3].
    + eexists _, _. split; [done|]. destruct (iso_year_start_bounds (y + 1 + 1)) as [B3 _].
      clear -Hy N1 L1 N2 L2 B2 B3 M2 W3. dlia.
    + eexists _, _. split; [done|]. clear -Hy N1 L1 B1 B2 M1 M2 W W3. dlia.
  - eexists _, _. split; [done|]. clear -Hy N1 L1 B1 B2 M1 M2 W W2. dlia.
Qed.

(** ** Printing and parsing *)

Lemma digit_char v : CharacterIsDigit (48 + v mod 10) = true /\ CharacterIsSpace (48 + v mod 10) = false.
Proof.
  pose proof (Z.mod_pos_bound v 10 ltac:(lia)). unfold CharacterIsDigit, CharacterIsSpace. split.
  - apply andb_true_iff. rewrite !Z.leb_le. lia.
  - repeat (apply orb_false_iff; split); apply Z.eqb_neq; lia.
Qed.

Lemma digits_head w v rest : (0 < w)%nat ->
  exists c l, digits w v ++ rest = c :: l /\ CharacterIsDigit c = true /\ CharacterIsSpace c = false /\ c <> 45.
Proof.
  revert v rest. induction w as [|w IH]; intros v rest Hw; [lia|]. cbn [digits]. rewrite <- app_assoc.
  destruct w as [|w].
  - cbn [digits app]. eexists _, _. split; [done|]. destruct (digit_char v) as [H1 H2]. split_and!; [done|done|].
    intros E. by rewrite E in H1.
  - apply IH. lia.
Qed.

Lemma parse_year_digits w v rest y len :
  0 <= v < 10 ^ Z.of_nat w -> 0 <= y -> y * 10 ^ Z.of_nat w + v < 10 ^ 9 ->
  parse_year (digits w v ++ rest) y len = parse_year rest (y * 10 ^ Z.of_nat w + v) (len + w).
Proof.
  revert v rest. induction w as [|w IH]; intros v rest Hv Hy Hb.
  - cbn [digits app]. f_equal; [simpl in *; lia|lia].
  - rewrite Nat2Z.inj_succ, Z.pow_succ_r in * by lia. cbn [digits]. rewrite <- app_assoc.
    rewrite IH; [|dlia|done|dlia]. cbn [app parse_year].
    destruct (digit_char v) as [-> _].
    destruct (Z.leb_spec 100000000 (y * 10 ^ Z.of_nat w + v / 10)); [dlia|].
    f_equal; [dlia|lia].
Qed.

Lemma ParseDoubleDigit_digits v rest : 0 <= v < 100 -> ParseDoubleDigit (digits 2 v ++ rest) = Some (v, rest).
Proof.
  intros Hv. cbn [digits app ParseDoubleDigit]. destruct (digit_char (v / 10)) as [-> _], (digit_char v) as [-> _].
  do 2 f_equal. dlia.
Qed.

Lemma YearLength_spec y :
  -5877642 <= y <= 5881580 ->
  let '(y', w, bc) := YearLength y in
  bc = (y <=? 0) /\ y' = (if bc then - y + 1 else y) /\ (4 <= w <= 8)%nat /\ 1 <= y' < 10 ^ Z.of_nat w.
Proof.
  intros Hy. unfold YearLength. split; [done|]. split; [done|].
  assert (1 <= (if y <=? 0 then - y + 1 else y) <= 5881580) as Hb by (destruct (Z.leb_spec y 0); lia).
  set (y' := if y <=? 0 then - y + 1 else y) in *.
  destruct (Z.leb_spec 10000 y'), (Z.leb_spec 100000 y'), (Z.leb_spec 1000000 y'), (Z.leb_spec 10000000 y');
    try lia; cbn -[Z.pow]; split; lia.
Qed.

Lemma valid_year_range y m d : IsValid y m d = true -> -5877642 <= y <= 5881580.
Proof.
  intros [[Hm Hd] Hf]%IsValid_spec. unfold finite_days, day_number, ninfinity, infinity in Hf.
  destruct (month_tables (leap y) m Hm) as (_ & _ & H1 & H2 & H3).
  assert (0 <= days_before_month (leap y) m + d - 1 <= 365) by (destruct (leap y); lia).
  unfold days_before_year in Hf. dlia.
Qed.

Lemma Convert_valid n :
  finite_days n -> let '(y, m, d) := Convert n in IsValid y m d = true /\ day_number y m d = n.
Proof.
  intros Hn. pose proof (Convert_spec n (finite_int32 n Hn)) as H. destruct (Convert n) as [[y m] d].
  destruct H as (H1 & H2 & _). split; [|done]. apply IsValid_spec. by rewrite H2.
Qed.

Lemma TryConvertDate_ToString n :
  finite_days n -> TryConvertDate (ToString n) true = SUCCESS n false.
Proof.
  intros Hn. unfold ToString. unfold finite_days in Hn.
  destruct (Z.eqb_spec n infinity); [lia|]. destruct (Z.eqb_spec n ninfinity); [lia|].
  pose proof (Convert_valid n Hn) as Hc. destruct (Convert n) as [[y m] d]. destruct Hc as [Hv Hdn].
  pose proof (valid_year_range y m d Hv) as Hyr.
  pose proof (YearLength_spec y Hyr) as Hyl. destruct (YearLength y) as [[y' w] bc].
  destruct Hyl as (-> & Hy' & Hw & Hb).
  pose proof Hv as [[Hm Hd] _]%IsValid_spec.
  assert (month_length (leap y) m <= 31) as Hml by apply month_tables, Hm.
  set (suffix := if y <=? 0 then codes " (BC)" else []).
  destruct (digits_head w y' (FormatComponent m ++ FormatComponent d ++ suffix) ltac:(lia))
    as (c & l & Hcl & Hc1 & Hc2 & Hc3).
  unfold TryConvertDate. rewrite Hcl. cbn [skip_spaces]. rewrite Hc2.
  destruct (Z.eqb_spec c 45) as [|_]; [done|]. rewrite Hc1. cbn [negb]. rewrite <- Hcl.
  rewrite parse_year_digits by (change (10 ^ 9) with 1000000000; destruct (y <=? 0); lia). unfold FormatComponent. cbn [app parse_year].
  change (CharacterIsDigit 45) with false. cbv iota. rewrite Nat.add_0_l.
  replace (w <? 2)%nat with false by (symmetry; apply Nat.ltb_ge; lia). cbn [andb].
  change ((45 =? 32) || (45 =? 45) || (45 =? 47) || (45 =? 92)) with true. cbn [negb].
  rewrite ParseDoubleDigit_digits by lia. cbn [negb Z.eqb Pos.eqb].
  destruct (digits_head 2 d suffix ltac:(lia)) as (c' & l' & Hcl' & _). rewrite Hcl'. cbv iota. rewrite <- Hcl'.
  change (45 =? 45) with true. cbn [negb]. rewrite ParseDoubleDigit_digits by lia.
  assert (TryFromDate y m d = Some n) as Htf by (by rewrite TryFromDate_spec, Hv, Hdn).
  unfold finish_date, suffix. rewrite Z.mul_0_l, Z.add_0_l.
  destruct (Z.leb_spec y 0) as [Hy0|Hy0].
  - change (codes " (BC)") with [32; 40; 66; 67; 41].
    change (CharacterIsSpace 32 && (40 =? 40) && (CharacterToLower 66 =? 98) && (CharacterToLower 67 =? 99)
            && (41 =? 41)) with true. cbv iota.
    destruct (Z.eqb_spec y' 0); [lia|]. cbn [orb skip_spaces].
    replace (- y' + 1) with y by lia. by rewrite Htf.
  - cbn [skip_spaces]. replace y' with y by lia. by rewrite Htf.
Qed.

(** ** Properties *)

(** C20 Converting a date is exact and total.  [TryFromDate] accepts exactly the days of the
    proleptic Gregorian calendar that lie strictly between the two infinities, computes
    their distance from 1970-01-01 without [int32] overflow, and [Convert] is its inverse in both
    directions. *)
Theorem date_conversion_exact y m d n :
  (IsValid y m d = true <-> valid_day y m d /\ finite_days (day_number y m d))
  /\ (TryFromDate y m d = Some n <-> IsValid y m d = true /\ n = day_number y m d)
  /\ (IsValid y m d = true -> Convert (day_number y m d) = (y, m, d))
  /\ (finite_days n -> let '(y', m', d') := Convert n in TryFromDate y' m' d' = Some n).
Proof.
  split; [apply IsValid_spec|]. rewrite TryFromDate_spec. split; [|split].
  - destruct (IsValid y m d); split; [intros [= <-]; done|intros [_ ->]; done|done|intros [? _]; done].
  - intros Hv. pose proof Hv as [Hd Hf]%IsValid_spec.
    pose proof (Convert_spec _ (finite_int32 _ Hf)) as Hc. destruct (Convert (day_number y m d)) as [[y' m'] d'].
    destruct Hc as (Hd' & He & _). by apply day_number_inj.
  - intros Hn. pose proof (Convert_valid n Hn) as Hc. destruct (Convert n) as [[y' m'] d'].
    destruct Hc as [Hv He]. by rewrite TryFromDate_spec, Hv, He.
Qed.

(** C30 Printing and parsing a date round-trip: for every finite date, before Christ or with a year of
    more than four digits included, and for both infinities, the strict parser reads
    [ToString] back. *)
Theorem date_string_roundtrip n :
  ninfinity <= n <= infinity -> FromCString (ToString n) true = Ok n.
Proof.
  intros Hn. destruct (decide (n = infinity)) as [->|]; [by vm_compute|].
  destruct (decide (n = ninfinity)) as [->|]; [by vm_compute|].
  unfold FromCString. rewrite TryConvertDate_ToString; [done|]. unfold finite_days. lia.
Qed.

Lemma date_string_roundtrip_witness :
  FromCString (ToString (-800000)) true = Ok (-800000)
  /\ ToString (-800000) = codes "0222-09-04 (BC)".
Proof.
  split; [|vm_compute; reflexivity]. apply date_string_roundtrip. unfold ninfinity, infinity. lia.
Defined.

(** ISO weeks follow ISO 8601: for every date that is not within 800 days of the limits,
    [GetISOYearWeek] succeeds, the week number is between 1 and 53, the date lies in the ISO year,
    which starts on the Monday of the week of January 4th, and year, week and
    [ExtractISODayOfTheWeek] determine the date. *)
Lemma iso_week_correct n :
  ninfinity + 800 < n < infinity - 800 ->
  exists y w, GetISOYearWeek n = Ok (y, w) /\ 1 <= w <= 53
    /\ iso_year_start y <= n < iso_year_start (y + 1)
    /\ n = iso_year_start y + 7 * (w - 1) + (ExtractISODayOfTheWeek n - 1).
Proof. apply GetISOYearWeek_spec. Qed.

Lemma iso_week_correct_witness :
  exists y w, GetISOYearWeek 19723 = Ok (y, w) /\ 1 <= w <= 53.
Proof.
  destruct (iso_week_correct 19723) as (y & w & H1 & H2 & _).
  - unfold ninfinity, infinity. lia.
  - exists y, w. split; [exact H1|exact H2].
Defined.

End Date.
