(* ===== verification/UpdateKind.v ===== *)
(** * Updated columns: function tables and the per-type routines

    Models the type-dependent half of src/src/storage/table/update_segment.cpp: the tables that
    pick a template instance for the physical type of a column, and the templates themselves
    for fixed-size values and for the validity mask of a column.  The first [N] elements of the
    two arrays of an [UpdateInfo] (row numbers and values) are one list of pairs, [entries].

    [UpdateFunctions] is the interface the segment uses (the function pointers of
    [UpdateSegment]) and [UpdateLaws] what it relies on; both instances are proved at the end. *)

From Stdlib Require Import Sorting.Sorted.
From S2P Require Import Prelude ValidityMask.

Module UpdateKind.

(** ** Physical types and the function tables *)

Inductive PhysicalType : Type :=
| BOOL | UINT8 | INT8 | UINT16 | INT16 | UINT32 | INT32 | UINT64 | INT64 | FLOAT | DOUBLE
| INTERVAL | LIST | STRUCT | ARRAY | VARCHAR | UINT128 | INT128 | UNKNOWN | BIT | INVALID.

(** The C++ type of an element, and its size in bytes. *)
Inductive ctype : Type :=
| c_bool | c_int8_t | c_int16_t | c_int32_t | c_int64_t | c_uint8_t | c_uint16_t | c_uint32_t
| c_uint64_t | c_hugeint_t | c_uhugeint_t | c_float | c_double | c_interval_t | c_string_t
| c_list_entry_t.

Definition sizeof (c : ctype) : nat :=
  match c with
  | c_bool | c_int8_t | c_uint8_t => 1
  | c_int16_t | c_uint16_t => 2
  | c_int32_t | c_uint32_t | c_float => 4
  | c_int64_t | c_uint64_t | c_double => 8
  | c_hugeint_t | c_uhugeint_t | c_interval_t | c_string_t | c_list_entry_t => 16
  end.

Definition GetTypeIdSize (type : PhysicalType) : result nat :=
  match type with
  | BIT | BOOL => Ok (sizeof c_bool)
  | INT8 => Ok (sizeof c_int8_t)
  | INT16 => Ok (sizeof c_int16_t)
  | INT32 => Ok (sizeof c_int32_t)
  | INT64 => Ok (sizeof c_int64_t)
  | UINT8 => Ok (sizeof c_uint8_t)
  | UINT16 => Ok (sizeof c_uint16_t)
  | UINT32 => Ok (sizeof c_uint32_t)
  | UINT64 => Ok (sizeof c_uint64_t)
  | INT128 => Ok (sizeof c_hugeint_t)
  | UINT128 => Ok (sizeof c_uhugeint_t)
  | FLOAT => Ok (sizeof c_float)
  | DOUBLE => Ok (sizeof c_double)
  | VARCHAR => Ok (sizeof c_string_t)
  | INTERVAL => Ok (sizeof c_interval_t)
  | STRUCT | UNKNOWN | ARRAY => Ok 0%nat
  | LIST => Ok (sizeof c_list_entry_t)
  | INVALID => Throw InternalException
  end.

(** A template instance: the routine for validity masks, or the one for elements of a type. *)
Inductive instance : Type :=
| ForValidity
| ForData (c : ctype).

(** The element type in which an instance stores the values of an [UpdateInfo]. *)
Definition element (f : instance) : ctype :=
  match f with ForValidity => c_bool | ForData c => c end.

Definition GetFetchUpdateFunction (type : PhysicalType) : result instance :=
  match type with
  | BIT => Ok ForValidity
  | BOOL | INT8 => Ok (ForData c_int8_t)
  | INT16 => Ok (ForData c_int16_t)
  | INT32 => Ok (ForData c_int32_t)
  | INT64 => Ok (ForData c_int64_t)
  | UINT8 => Ok (ForData c_uint8_t)
  | UINT16 => Ok (ForData c_uint16_t)
  | UINT32 => Ok (ForData c_uint32_t)
  | UINT64 => Ok (ForData c_uint64_t)
  | INT128 => Ok (ForData c_hugeint_t)
  | UINT128 => Ok (ForData c_uhugeint_t)
  | FLOAT => Ok (ForData c_float)
  | DOUBLE => Ok (ForData c_double)
  | INTERVAL => Ok (ForData c_interval_t)
  | VARCHAR => Ok (ForData c_string_t)
  | _ => Throw NotImplementedException
  end.

Definition GetFetchCommittedFunction (type : PhysicalType) : result instance :=
  match type with
  | BIT => Ok ForValidity
  | BOOL | INT8 => Ok (ForData c_int8_t)
  | INT16 => Ok (ForData c_int16_t)
  | INT32 => Ok (ForData c_int32_t)
  | INT64 => Ok (ForData c_int64_t)
  | UINT8 => Ok (ForData c_uint8_t)
  | UINT16 => Ok (ForData c_uint16_t)
  | UINT32 => Ok (ForData c_uint32_t)
  | UINT64 => Ok (ForData c_uint64_t)
  | INT128 => Ok (ForData c_hugeint_t)
  | UINT128 => Ok (ForData c_uhugeint_t)
  | FLOAT => Ok (ForData c_float)
  | DOUBLE => Ok (ForData c_double)
  | INTERVAL => Ok (ForData c_interval_t)
  | VARCHAR => Ok (ForData c_string_t)
  | _ => Throw NotImplementedException
  end.

Definition GetFetchCommittedRangeFunction (type : PhysicalType) : result instance :=
  match type with
  | BIT => Ok ForValidity
  | BOOL | INT8 => Ok (ForData c_int8_t)
  | INT16 => Ok (ForData c_int16_t)
  | INT32 => Ok (ForData c_int32_t)
  | INT64 => Ok (ForData c_int64_t)
  | UINT8 => Ok (ForData c_uint8_t)
  | UINT16 => Ok (ForData c_uint16_t)
  | UINT32 => Ok (ForData c_uint32_t)
  | UINT64 => Ok (ForData c_uint64_t)
  | INT128 => Ok (ForData c_hugeint_t)
  | UINT128 => Ok (ForData c_uhugeint_t)
  | FLOAT => Ok (ForData c_float)
  | DOUBLE => Ok (ForData c_double)
  | INTERVAL => Ok (ForData c_interval_t)
  | VARCHAR => Ok (ForData c_string_t)
  | _ => Throw NotImplementedException
  end.

Definition GetFetchRowFunction (type : PhysicalType) : result instance :=
  match type with
  | BIT => Ok ForValidity
  | BOOL | INT8 => Ok (ForData c_int8_t)
  | INT16 => Ok (ForData c_int16_t)
  | INT32 => Ok (ForData c_int32_t)
  | INT64 => Ok (ForData c_int64_t)
  | UINT8 => Ok (ForData c_uint8_t)
  | UINT16 => Ok (ForData c_uint16_t)
  | UINT32 => Ok (ForData c_uint32_t)
  | UINT64 => Ok (ForData c_uint64_t)
  | INT128 => Ok (ForData c_hugeint_t)
  | UINT128 => Ok (ForData c_uhugeint_t)
  | FLOAT => Ok (ForData c_float)
  | DOUBLE => Ok (ForData c_double)
  | INTERVAL => Ok (ForData c_interval_t)
  | VARCHAR => Ok (ForData c_string_t)
  | _ => Throw NotImplementedException
  end.

Definition GetRollbackUpdateFunction (type : PhysicalType) : result instance :=
  match type with
  | BIT => Ok (ForData c_bool)
  | BOOL | INT8 => Ok (ForData c_int8_t)
  | INT16 => Ok (ForData c_int16_t)
  | INT32 => Ok (ForData c_int32_t)
  | INT64 => Ok (ForData c_int64_t)
  | UINT8 => Ok (ForData c_uint8_t)
  | UINT16 => Ok (ForData c_uint16_t)
  | UINT32 => Ok (ForData c_uint32_t)
  | UINT64 => Ok (ForData c_uint64_t)
  | INT128 => Ok (ForData c_hugeint_t)
  | UINT128 => Ok (ForData c_uhugeint_t)
  | FLOAT => Ok (ForData c_float)
  | DOUBLE => Ok (ForData c_double)
  | INTERVAL => Ok (ForData c_interval_t)
  | VARCHAR => Ok (ForData c_string_t)
  | _ => Throw NotImplementedException
  end.

Definition GetInitializeUpdateFunction (type : PhysicalType) : result instance :=
  match type with
  | BIT => Ok ForValidity
  | BOOL | INT8 => Ok (ForData c_int8_t)
  | INT16 => Ok (ForData c_int16_t)
  | INT32 => Ok (ForData c_int32_t)
  | INT64 => Ok (ForData c_int64_t)
  | UINT8 => Ok (ForData c_uint8_t)
  | UINT16 => Ok (ForData c_uint16_t)
  | UINT32 => Ok (ForData c_uint32_t)
  | UINT64 => Ok (ForData c_uint64_t)
  | INT128 => Ok (ForData c_hugeint_t)
  | UINT128 => Ok (ForData c_uhugeint_t)
  | FLOAT => Ok (ForData c_float)
  | DOUBLE => Ok (ForData c_double)
  | INTERVAL => Ok (ForData c_interval_t)
  | VARCHAR => Ok (ForData c_string_t)
  | _ => Throw NotImplementedException
  end.

Definition GetMergeUpdateFunction (type : PhysicalType) : result instance :=
  match type with
  | BIT => Ok ForValidity
  | BOOL | INT8 => Ok (ForData c_int8_t)
  | INT16 => Ok (ForData c_int16_t)
  | INT32 => Ok (ForData c_int32_t)
  | INT64 => Ok (ForData c_int64_t)
  | UINT8 => Ok (ForData c_uint8_t)
  | UINT16 => Ok (ForData c_uint16_t)
  | UINT32 => Ok (ForData c_uint32_t)
  | UINT64 => Ok (ForData c_uint64_t)
  | INT128 => Ok (ForData c_hugeint_t)
  | UINT128 => Ok (ForData c_uhugeint_t)
  | FLOAT => Ok (ForData c_float)
  | DOUBLE => Ok (ForData c_double)
  | INTERVAL => Ok (ForData c_interval_t)
  | VARCHAR => Ok (ForData c_string_t)
  | _ => Throw NotImplementedException
  end.

Definition GetStatisticsUpdateFunction (type : PhysicalType) : result instance :=
  match type with
  | BIT => Ok ForValidity
  | BOOL | INT8 => Ok (ForData c_int8_t)
  | INT16 => Ok (ForData c_int16_t)
  | INT32 => Ok (ForData c_int32_t)
  | INT64 => Ok (ForData c_int64_t)
  | UINT8 => Ok (ForData c_uint8_t)
  | UINT16 => Ok (ForData c_uint16_t)
  | UINT32 => Ok (ForData c_uint32_t)
  | UINT64 => Ok (ForData c_uint64_t)
  | INT128 => Ok (ForData c_hugeint_t)
  | UINT128 => Ok (ForData c_uhugeint_t)
  | FLOAT => Ok (ForData c_float)
  | DOUBLE => Ok (ForData c_double)
  | INTERVAL => Ok (ForData c_interval_t)
  | VARCHAR => Ok (ForData c_string_t)
  | _ => Throw NotImplementedException
  end.

Definition GetEffectiveUpdatesFunction (type : PhysicalType) : result instance :=
  match type with
  | BIT => Ok ForValidity
  | BOOL | INT8 => Ok (ForData c_int8_t)
  | INT16 => Ok (ForData c_int16_t)
  | INT32 => Ok (ForData c_int32_t)
  | INT64 => Ok (ForData c_int64_t)
  | UINT8 => Ok (ForData c_uint8_t)
  | UINT16 => Ok (ForData c_uint16_t)
  | UINT32 => Ok (ForData c_uint32_t)
  | UINT64 => Ok (ForData c_uint64_t)
  | INT128 => Ok (ForData c_hugeint_t)
  | UINT128 => Ok (ForData c_uhugeint_t)
  | FLOAT => Ok (ForData c_float)
  | DOUBLE => Ok (ForData c_double)
  | INTERVAL => Ok (ForData c_interval_t)
  | VARCHAR => Ok (ForData c_string_t)
  | _ => Throw NotImplementedException
  end.

(** The functions the constructor of [UpdateSegment] installs, and the element size. *)
Record functions : Type := mkFunctions {
  type_size : nat;
  initialize_update_function : instance;
  fetch_update_function : instance;
  fetch_committed_function : instance;
  fetch_committed_range : instance;
  fetch_row_function : instance;
  merge_update_function : instance;
  rollback_update_function : instance;
  statistics_update_function : instance;
  get_effective_updates : instance
}.

Definition UpdateSegment_functions (physical_type : PhysicalType) : result functions :=
  type_size ← GetTypeIdSize physical_type;
  initialize_update_function ← GetInitializeUpdateFunction physical_type;
  fetch_update_function ← GetFetchUpdateFunction physical_type;
  fetch_committed_function ← GetFetchCommittedFunction physical_type;
  fetch_committed_range ← GetFetchCommittedRangeFunction physical_type;
  fetch_row_function ← GetFetchRowFunction physical_type;
  merge_update_function ← GetMergeUpdateFunction physical_type;
  rollback_update_function ← GetRollbackUpdateFunction physical_type;
  statistics_update_function ← GetStatisticsUpdateFunction physical_type;
  get_effective_updates ← GetEffectiveUpdatesFunction physical_type;
  Ok (mkFunctions type_size initialize_update_function fetch_update_function
        fetch_committed_function fetch_committed_range fetch_row_function merge_update_function
        rollback_update_function statistics_update_function get_effective_updates).

(** ** Layout of an [UpdateInfo] in the undo buffer

    A header, the row numbers ([sel_t], 4 bytes each), the values; [max] is always
    [STANDARD_VECTOR_SIZE]. *)

Definition sizeof_UpdateInfo : nat := 80.
Definition sizeof_sel_t : nat := 4.

Definition AlignValue (n : nat) : nat := ((n + 7) / 8 * 8)%nat.

Definition GetAllocSize (type_size : nat) : nat :=
  AlignValue (sizeof_UpdateInfo + (sizeof_sel_t + type_size) * STANDARD_VECTOR_SIZE).

(** Byte offsets of the [i]th row number and the [i]th value of an element type. *)
Definition GetTuples (i : nat) : nat := (sizeof_UpdateInfo + sizeof_sel_t * i)%nat.
Definition GetValues (c : ctype) (i : nat) : nat :=
  (sizeof_UpdateInfo + sizeof_sel_t * STANDARD_VECTOR_SIZE + sizeof c * i)%nat.

(** ** Row numbers with values *)

Section entries.
Context {T : Type}.
Implicit Types (d : list (nat * T)) (r : nat).

(** The value recorded for a row. *)
Fixpoint assoc d r : option T :=
  match d with
  | [] => None
  | (t, v) :: d => if decide (t = r) then Some v else assoc d r
  end.

Definition sorted d : Prop := StronglySorted lt d.*1.
Definition in_vector d : Prop := Forall (fun t => (t < STANDARD_VECTOR_SIZE)%nat) d.*1.

(** [while (tuples[offset] < id) offset++]: the entries passed over, and the rest. *)
Fixpoint split_less d (id : nat) : list (nat * T) * list (nat * T) :=
  match d with
  | [] => ([], [])
  | (t, v) :: d' =>
      if (t <? id)%nat then let '(lo, hi) := split_less d' id in ((t, v) :: lo, hi) else ([], d)
  end.

(** *** Reading: the loops over the entries of one [UpdateInfo]

    [put] writes one element of the result. *)

Context {V : Type} (put : V -> nat -> T -> V).

(** [for (i < N) result[tuples[i]] = info_data[i]]. *)
Definition merge_rows (current : list (nat * T)) (result : V) : V :=
  fold_left (fun result e => put result e.1 e.2) current result.

(** The same for the rows of [[start, end_)], which go to [result_offset] on. *)
Fixpoint merge_range (current : list (nat * T)) (start end_ result_offset : nat) (result : V) : V :=
  match current with
  | [] => result
  | (tuple_idx, v) :: rest =>
      if (tuple_idx <? start)%nat then merge_range rest start end_ result_offset result
      else if (end_ <=? tuple_idx)%nat then result
      else merge_range rest start end_ result_offset
             (put result (result_offset + tuple_idx - start)%nat v)
  end.

(** The same for one row; the search stops at the first larger row number. *)
Fixpoint fetch_row (current : list (nat * T)) (row_idx result_idx : nat) (result : V) : V :=
  match current with
  | [] => result
  | (t, v) :: rest =>
      if (t =? row_idx)%nat then put result result_idx v
      else if (row_idx <? t)%nat then result
      else fetch_row rest row_idx result_idx result
  end.
End entries.

(** *** Writing: rollback and the merge of new updates *)

Section merging.
Context {T : Type}.

(** [RollbackUpdate]: the old values overwrite the entries of the base info. *)
Fixpoint RollbackUpdate (base rollback : list (nat * T)) : list (nat * T) :=
  match rollback with
  | [] => base
  | (id, v) :: rollback =>
      let '(lo, hi) := split_less base id in
      lo ++ RollbackUpdate (match hi with (t, _) :: hi => (t, v) :: hi | [] => [] end) rollback
  end.

(** [MergeLoop]: merges the sorted row numbers of an update with those of the base info;
    each callback produces an element of the result.  An element of [a] is a row number
    (with the offset of the vector subtracted) and its index in the update. *)
Fixpoint MergeLoop {R} (merge : nat -> nat -> nat * T -> R) (pick_a : nat -> nat -> R)
    (pick_b : nat * T -> R) (a : list (nat * nat)) (b : list (nat * T)) : list R :=
  match a with
  | [] => map pick_b b
  | (a_id, a_index) :: a' =>
      (fix loop (b : list (nat * T)) : list R :=
         match b with
         | [] => map (fun '(id, index) => pick_a id index) a
         | e :: b' =>
             if (a_id =? e.1)%nat then
               merge a_id a_index e :: MergeLoop merge pick_a pick_b a' b'
             else if (a_id <? e.1)%nat then
               pick_a a_id a_index :: MergeLoop merge pick_a pick_b a' b
             else pick_b e :: loop b'
         end) b
  end.

(** The first loop of [MergeUpdateLoopInternal]: the old value of every updated row joins the
    entries of the transaction's [UpdateInfo] (kept if it is there already, else taken from the
    base info, else from the table). *)
Definition fetch_base (base_table_data : nat -> T) (base_info : list (nat * T)) (id : nat) : T :=
  match base_info with
  | (t, v) :: _ => if (t =? id)%nat then v else base_table_data id
  | [] => base_table_data id
  end.

Fixpoint old_values (base_table_data : nat -> T) (ids : list nat)
    (update_info base_info : list (nat * T)) : list (nat * T) :=
  match ids with
  | [] => update_info
  | update_id :: ids =>
      let '(lo, hi) := split_less update_info update_id in
      let base_rest := (split_less base_info update_id).2 in
      let fetched :=
        (update_id, fetch_base base_table_data base_rest update_id)
          :: old_values base_table_data ids hi base_rest in
      lo ++
      match hi with
      | (t, v) :: hi' =>
          if (t =? update_id)%nat then (t, v) :: old_values base_table_data ids hi' base_info
          else fetched
      | [] => fetched
      end
  end.

(** [MergeUpdateLoopInternal]: the new entries of the transaction's [UpdateInfo] and of the base
    info.  [new_value] reads the update vector at an index of the update. *)
Definition MergeUpdateLoopInternal (base_table_data new_value : nat -> T) (a : list (nat * nat))
    (update_info base_info : list (nat * T)) : list (nat * T) * list (nat * T) :=
  let pick_new id aidx := (id, new_value aidx) in
  (old_values base_table_data a.*1 update_info base_info,
   MergeLoop (fun id aidx _ => pick_new id aidx) pick_new (fun e => e) a base_info).
End merging.

(** ** The interface of a column kind *)

(** A decoded vector: the selection into its data, and the data (with their validity). *)
Record UnifiedVectorFormat (V : Type) : Type := mkUnified {
  usel : nat -> nat;
  uvec : V
}.
Arguments mkUnified {V}.
Arguments usel {V}.
Arguments uvec {V}.

(** [T]: the values; [V]: the data of a vector; [S]: the statistics. *)
Class UpdateFunctions (T V S : Type) : Type := {
  extract : V -> nat -> T;
  put : V -> nat -> T -> V;
  row_valid : V -> nat -> bool;
  merge_info : list (nat * T) -> V -> V;
  initialize_update : V -> UnifiedVectorFormat V -> list nat -> list nat -> list T * list T;
  update_statistics : S -> UnifiedVectorFormat V -> nat -> S * list nat;
  effective_updates : UnifiedVectorFormat V -> list nat -> list nat -> V -> nat -> list nat
}.

(** ** Fixed-size values *)

Section data.
Context {T : Type} `{!Inhabited T}.

Record Vector : Type := mkVector { data : list T; validity : ValidityMask.t }.

Definition set_data (v : Vector) (i : nat) (x : T) : Vector :=
  mkVector (<[i := x]> (data v)) (validity v).

(** The whole vector is copied when the update touches every row of it. *)
Definition MergeUpdateInfo (current : list (nat * T)) (result_data : list T) : list T :=
  if (length current =? STANDARD_VECTOR_SIZE)%nat then
    current.*2 ++ drop (length current) result_data
  else merge_rows (fun l i x => <[i := x]> l) current result_data.

Definition MergeUpdateInfoRange (current : list (nat * T)) (start end_ result_offset : nat)
    (result_data : list T) : list T :=
  merge_range (fun l i x => <[i := x]> l) current start end_ result_offset result_data.

Definition TemplatedFetchRow (current : list (nat * T)) (row_idx result_idx : nat)
    (result_data : list T) : list T :=
  fetch_row (fun l i x => <[i := x]> l) current row_idx result_idx result_data.

(** The values of the base rows and of the update.  The slot of a base row that is NULL is not
    written: it keeps what the fresh allocation [uninitialized] holds. *)
Definition InitializeUpdateData (uninitialized : nat -> T) (base_data : Vector)
    (update : UnifiedVectorFormat Vector) (sel base_tuples : list nat) : list T * list T :=
  (map (fun base_idx =>
          if ValidityMask.RowIsValid (validity base_data) base_idx
          then data base_data !!! base_idx else uninitialized base_idx) base_tuples,
   map (fun i => data (uvec update) !!! usel update i) sel).

(** [NumericStats::UpdateValue] for the order [less_than]. *)
Definition UpdateValue (less_than : T -> T -> bool) (stats : T * T) (new_value : T) : T * T :=
  (if less_than new_value stats.1 then new_value else stats.1,
   if less_than stats.2 new_value then new_value else stats.2).

Definition TemplatedUpdateNumericStatistics (less_than : T -> T -> bool) (stats : T * T)
    (update : UnifiedVectorFormat Vector) (count : nat) : (T * T) * list nat :=
  let update_data i := data (uvec update) !!! usel update i in
  let mask := validity (uvec update) in
  if ValidityMask.AllValid mask then
    (fold_left (fun stats i => UpdateValue less_than stats (update_data i)) (seq 0 count) stats,
     seq 0 count)
  else
    fold_left (fun '(stats, sel) i =>
        if ValidityMask.RowIsValid mask (usel update i)
        then (UpdateValue less_than stats (update_data i), sel ++ [i]) else (stats, sel))
      (seq 0 count) (stats, []).

(** [equal] is the comparison of the C++ type. *)
Definition TemplatedGetEffectiveUpdates (equal : T -> T -> bool)
    (update : UnifiedVectorFormat Vector) (ids sel : list nat) (base_data : Vector)
    (id_offset : nat) : list nat :=
  List.filter (fun sel_idx =>
      let update_idx := usel update sel_idx in
      let original_idx := (ids !!! sel_idx - id_offset)%nat in
      negb (ValidityMask.RowIsValid (validity base_data) original_idx
            && equal (data (uvec update) !!! update_idx) (data base_data !!! original_idx)))
    sel.

(** The routines of a column of fixed-size values. *)
Definition DataFunctions (less_than equal : T -> T -> bool) (uninitialized : nat -> T)
    : UpdateFunctions T Vector (T * T) := {|
  extract v i := data v !!! i;
  put := set_data;
  row_valid v i := ValidityMask.RowIsValid (validity v) i;
  merge_info current v := mkVector (MergeUpdateInfo current (data v)) (validity v);
  initialize_update := InitializeUpdateData uninitialized;
  update_statistics := TemplatedUpdateNumericStatistics less_than;
  effective_updates := TemplatedGetEffectiveUpdates equal
|}.
End data.
Arguments Vector T : clear implicits.

(** ** The validity mask of a column: a value is the validity of a row *)

Definition MergeValidityInfo (current : list (nat * bool)) (result_mask : ValidityMask.t)
    : ValidityMask.t :=
  merge_rows ValidityMask.Set_ current result_mask.

Definition MergeUpdateInfoRangeValidity (current : list (nat * bool))
    (start end_ result_offset : nat) (result_mask : ValidityMask.t) : ValidityMask.t :=
  merge_range ValidityMask.Set_ current start end_ result_offset result_mask.

Definition FetchRowValidity (current : list (nat * bool)) (row_idx result_idx : nat)
    (result_mask : ValidityMask.t) : ValidityMask.t :=
  fetch_row ValidityMask.Set_ current row_idx result_idx result_mask.

Definition InitializeUpdateValidity (base_mask : ValidityMask.t)
    (update : UnifiedVectorFormat ValidityMask.t) (sel base_tuples : list nat)
    : list bool * list bool :=
  (if negb (ValidityMask.AllValid base_mask)
   then map (ValidityMask.RowIsValid base_mask) base_tuples
   else map (fun _ => true) base_tuples,
   if negb (ValidityMask.AllValid (uvec update))
   then map (fun i => ValidityMask.RowIsValid (uvec update) (usel update i)) sel
   else map (fun _ => true) sel).

(** The statistics of a validity column: whether it can hold NULLs. *)
Definition UpdateValidityStatistics (has_null : bool)
    (update : UnifiedVectorFormat ValidityMask.t) (count : nat) : bool * list nat :=
  (if negb (ValidityMask.AllValid (uvec update)) && negb has_null
   then existsb (fun i => negb (ValidityMask.RowIsValid (uvec update) (usel update i))) (seq 0 count)
   else has_null,
   seq 0 count).

Definition GetEffectiveUpdatesValidity (update : UnifiedVectorFormat ValidityMask.t)
    (ids sel : list nat) (original_validity : ValidityMask.t) (id_offset : nat) : list nat :=
  List.filter (fun sel_idx =>
      let update_idx := usel update sel_idx in
      let original_idx := (ids !!! sel_idx - id_offset)%nat in
      negb (Bool.eqb (ValidityMask.RowIsValid original_validity original_idx)
                     (ValidityMask.RowIsValid (uvec update) update_idx)))
    sel.

Definition ValidityFunctions : UpdateFunctions bool ValidityMask.t bool := {|
  extract := ValidityMask.RowIsValid;
  put := ValidityMask.Set_;
  row_valid _ _ := true;
  merge_info := MergeValidityInfo;
  initialize_update := InitializeUpdateValidity;
  update_statistics := UpdateValidityStatistics;
  effective_updates := GetEffectiveUpdatesValidity
|}.

(** ** Entries as finite maps *)

Section assoc_lemmas.
Context {T : Type}.
Implicit Types (d lo hi : list (nat * T)) (r : nat).

Lemma assoc_None d r : assoc d r = None <-> r ∉ d.*1.
Proof.
  induction d as [|[t v] d IH]; simpl.
  - split; [intros _; apply not_elem_of_nil|done].
  - rewrite not_elem_of_cons. case_decide; [split; [done|intuition congruence]|].
    rewrite IH. intuition congruence.
Qed.

Lemma assoc_elem d r v : assoc d r = Some v -> r ∈ d.*1.
Proof. intros H. destruct (decide (r ∈ d.*1)) as [|Hn]; [done|]. apply assoc_None in Hn. congruence. Qed.

Lemma elem_assoc d r : r ∈ d.*1 -> exists v, assoc d r = Some v.
Proof.
  intros Hr. destruct (assoc d r) as [v|] eqn:E; [by exists v|]. by apply assoc_None in E.
Qed.

Lemma assoc_app d1 d2 r :
  assoc (d1 ++ d2) r = match assoc d1 r with Some v => Some v | None => assoc d2 r end.
Proof. induction d1 as [|[t v] d1 IH]; simpl; [done|]. by case_decide. Qed.

Lemma assoc_below d r id : Forall (fun t => (t < id)%nat) d.*1 -> (id <= r)%nat -> assoc d r = None.
Proof.
  intros Hd Hr. apply assoc_None. intros Hin. rewrite Forall_forall in Hd.
  specialize (Hd _ Hin). simpl in Hd. lia.
Qed.

Lemma assoc_above d r id : Forall (fun t => (id <= t)%nat) d.*1 -> (r < id)%nat -> assoc d r = None.
Proof.
  intros Hd Hr. apply assoc_None. intros Hin. rewrite Forall_forall in Hd.
  specialize (Hd _ Hin). simpl in Hd. lia.
Qed.

Lemma sorted_cons t v d : sorted ((t, v) :: d) <-> sorted d /\ Forall (fun u => (t < u)%nat) d.*1.
Proof.
  unfold sorted. simpl. split.
  - intros H. by apply StronglySorted_inv in H.
  - intros [? ?]. by constructor.
Qed.

Lemma sorted_nil : sorted ([] : list (nat * T)).
Proof. constructor. Qed.

Lemma Forall_le_lt (m n : nat) (l : list nat) :
  (m <= n)%nat -> Forall (fun u => (n < u)%nat) l -> Forall (fun u => (m < u)%nat) l.
Proof. intros Hm H. eapply Forall_impl; [exact H|]. simpl. lia. Qed.

Lemma sorted_app lo hi id :
  sorted lo -> sorted hi -> Forall (fun t => (t < id)%nat) lo.*1 ->
  Forall (fun t => (id <= t)%nat) hi.*1 -> sorted (lo ++ hi).
Proof.
  intros Hlo Hhi Hl Hh. induction lo as [|[t v] lo IH]; simpl; [done|].
  apply sorted_cons in Hlo as [Hlo Ht]. simpl in Hl. apply Forall_cons_1 in Hl as [Hid Hl].
  apply sorted_cons. split; [by apply IH|]. rewrite fmap_app. apply Forall_app. split; [done|].
  eapply Forall_impl; [exact Hh|]. simpl. lia.
Qed.

Lemma split_less_spec d id :
  sorted d -> exists lo hi, split_less d id = (lo, hi) /\ d = lo ++ hi /\ sorted lo /\ sorted hi /\
    Forall (fun t => (t < id)%nat) lo.*1 /\ Forall (fun t => (id <= t)%nat) hi.*1.
Proof.
  induction d as [|[t v] d IH]; intros Hd; simpl.
  - exists [], []. repeat split; try apply sorted_nil; constructor.
  - apply sorted_cons in Hd as [Hd Ht]. destruct (Nat.ltb_spec t id) as [Hlt|Hge].
    + destruct (IH Hd) as (lo & hi & -> & -> & Hlo & Hhi & Hl & Hh).
      exists ((t, v) :: lo), hi. rewrite fmap_app in Ht. apply Forall_app in Ht as [Ht _].
      repeat split; [by apply sorted_cons|done|by constructor|done].
    + exists [], ((t, v) :: d). repeat split; [apply sorted_nil|by apply sorted_cons|constructor|].
      simpl. constructor; [done|]. eapply Forall_impl; [exact Ht|]. simpl. lia.
Qed.

Lemma assoc_split lo hi r id :
  Forall (fun t => (t < id)%nat) lo.*1 -> Forall (fun t => (id <= t)%nat) hi.*1 ->
  assoc (lo ++ hi) r = if decide (r < id)%nat then assoc lo r else assoc hi r.
Proof.
  intros Hl Hh. rewrite assoc_app. case_decide.
  - rewrite (assoc_above hi r id) by done. by destruct (assoc lo r).
  - by rewrite (assoc_below lo r id) by (done || lia).
Qed.

(** *** Rollback writes the recorded values back *)

Lemma RollbackUpdate_spec (rollback base : list (nat * T)) :
  sorted base -> sorted rollback -> Forall (fun t => t ∈ base.*1) rollback.*1 ->
  (RollbackUpdate base rollback).*1 = base.*1 /\
  forall r, assoc (RollbackUpdate base rollback) r
            = match assoc rollback r with Some v => Some v | None => assoc base r end.
Proof.
  revert base. induction rollback as [|[id v] rb IH]; intros base Hb Hr Hin; simpl; [done|].
  apply sorted_cons in Hr as [Hr Hid]. simpl in Hin. apply Forall_cons_1 in Hin as [Hmem Hin].
  destruct (split_less_spec base id Hb) as (lo & hi & -> & -> & Hlo & Hhi & Hl & Hh).
  assert (exists w hi', hi = (id, w) :: hi') as (w & hi' & ->).
  { rewrite fmap_app, elem_of_app in Hmem. destruct Hmem as [Hmem|Hmem].
    { rewrite Forall_forall in Hl. specialize (Hl _ Hmem). simpl in Hl. lia. }
    destruct hi as [|[t w] hi']; [by apply not_elem_of_nil in Hmem|].
    exists w, hi'. simpl in Hmem. apply elem_of_cons in Hmem as [<-|Hmem]; [done|].
    apply sorted_cons in Hhi as [_ Hhi]. rewrite Forall_forall in Hhi. specialize (Hhi _ Hmem).
    simpl in Hh. apply Forall_cons_1 in Hh as [Hh _]. simpl in Hhi. lia. }
  assert (sorted ((id, v) :: hi')) as Hhv by (apply sorted_cons in Hhi; by apply sorted_cons).
  assert (Forall (fun t => t ∈ ((id, v) :: hi').*1) rb.*1) as Hin'.
  { rewrite Forall_forall in Hin, Hid, Hl |- *. intros t Ht. specialize (Hin _ Ht).
    specialize (Hid _ Ht). simpl in Hid. rewrite fmap_app, elem_of_app in Hin.
    destruct Hin as [Hin|Hin]; [|done]. specialize (Hl _ Hin). simpl in Hl. lia. }
  destruct (IH _ Hhv Hr Hin') as [Hf Ha]. simpl. split; [by rewrite !fmap_app, Hf|].
  intros r. rewrite !(assoc_split lo _ r id) by (done || rewrite Hf; done).
  rewrite Ha. simpl. assert (forall t, (t <= id)%nat -> assoc rb t = None) as Hnone.
  { intros t Ht. apply (assoc_above rb t (S id)); [|lia].
    eapply Forall_impl; [exact Hid|]. simpl. lia. }
  destruct (decide (r < id)%nat) as [Hri|Hri].
  - rewrite Hnone by lia. by rewrite decide_False by lia.
  - destruct (decide (id = r)) as [<-|Hne]; [by rewrite Hnone|done].
Qed.

(** *** The merge of an update *)

Lemma Forall_rows (P : nat -> Prop) d :
  (forall r v, assoc d r = Some v -> P r) -> Forall P d.*1.
Proof. intros H. apply Forall_forall. intros r [v Hv]%elem_assoc. eauto. Qed.

Lemma fetch_base_spec (table : nat -> T) base id :
  sorted base ->
  fetch_base table (split_less base id).2 id = default (table id) (assoc base id).
Proof.
  intros Hb. destruct (split_less_spec base id Hb) as (lo & hi & -> & -> & _ & Hs & Hl & Hh). simpl.
  rewrite (assoc_split lo hi id id) by done. rewrite decide_False by lia.
  destruct hi as [|[t v] hi]; simpl; [done|]. simpl in Hh. apply Forall_cons_1 in Hh as [Ht Hh].
  destruct (Nat.eqb_spec t id) as [->|Hne]; [by rewrite decide_True|]. rewrite decide_False by done.
  apply sorted_cons in Hs as [_ Hs]. rewrite (assoc_above hi id t); [done| |lia].
  eapply Forall_impl; [exact Hs|]. simpl. lia.
Qed.

(** The old value of an updated row. *)
Definition old_value (table : nat -> T) (ids : list nat) (update_info base_info : list (nat * T)) r
    : option T :=
  match assoc update_info r with
  | Some v => Some v
  | None => if decide (r ∈ ids) then Some (default (table r) (assoc base_info r)) else None
  end.

(** One round of [old_values], given what the remaining rounds produce. *)
Lemma old_values_step table id ids lo hi base x rest :
  sorted lo -> Forall (fun t => (t < id)%nat) lo.*1 -> Forall (fun t => (id < t)%nat) hi.*1 ->
  Forall (fun t => (id < t)%nat) ids -> sorted rest ->
  (forall r, assoc rest r = old_value table ids hi base r) ->
  sorted (lo ++ (id, x) :: rest) /\
  forall r, assoc (lo ++ (id, x) :: rest) r
            = if decide (r < id)%nat then assoc lo r
              else if decide (r = id) then Some x else old_value table ids hi base r.
Proof.
  intros Hlo Hl Hh Hids Hrest Ha.
  assert (Forall (fun t => (id < t)%nat) rest.*1) as Hr.
  { apply Forall_rows. intros r v. rewrite Ha. unfold old_value.
    destruct (assoc hi r) eqn:E.
    - intros _. apply assoc_elem in E. rewrite Forall_forall in Hh. by apply Hh.
    - case_decide as Hi; [|done]. intros _. rewrite Forall_forall in Hids. by apply Hids. }
  assert (Forall (fun t => (id <= t)%nat) ((id, x) :: rest).*1) as Hge.
  { simpl. constructor; [done|]. eapply Forall_impl; [exact Hr|]. simpl. lia. }
  split.
  - apply sorted_app with id; [done|by apply sorted_cons|done|done].
  - intros r. rewrite (assoc_split lo _ r id) by done. case_decide; [done|]. simpl.
    destruct (decide (id = r)) as [<-|Hne]; [by rewrite decide_True|].
    by rewrite decide_False by done.
Qed.

Lemma below_ids r id ids : (r < id)%nat -> Forall (fun t => (id < t)%nat) ids -> r ∉ id :: ids.
Proof.
  intros Hr Hlt. rewrite elem_of_cons. intros [->|Hin]; [lia|]. rewrite Forall_forall in Hlt.
  specialize (Hlt _ Hin). simpl in Hlt. lia.
Qed.

Lemma old_values_spec table ids update_info base :
  StronglySorted lt ids -> sorted update_info -> sorted base ->
  sorted (old_values table ids update_info base) /\
  forall r, assoc (old_values table ids update_info base) r = old_value table ids update_info base r.
Proof.
  revert update_info base. induction ids as [|id ids IH]; intros u base Hids Hu Hb; simpl.
  { split; [done|]. intros r. unfold old_value. destruct (assoc u r); [done|].
    rewrite decide_False; [done|]. apply not_elem_of_nil. }
  apply StronglySorted_inv in Hids as [Hids Hlt].
  rewrite (fetch_base_spec table base id Hb).
  destruct (split_less_spec base id Hb) as (blo & bhi & -> & Hbase & _ & Hbhi & Hbl & Hbh). simpl.
  destruct (split_less_spec u id Hu) as (lo & hi & -> & -> & Hlo & Hhi & Hl & Hh).
  assert (forall hi', sorted hi' -> Forall (fun t => (id < t)%nat) hi'.*1 ->
    sorted (lo ++ (id, default (table id) (assoc base id)) :: old_values table ids hi' bhi) /\
    forall r, assoc (lo ++ (id, default (table id) (assoc base id)) :: old_values table ids hi' bhi) r
      = old_value table (id :: ids) (lo ++ hi') base r) as Hfetched.
  { intros hi' Hs Hgt. destruct (IH hi' bhi Hids Hs Hbhi) as [Hs' Ha'].
    destruct (old_values_step table id ids lo hi' bhi (default (table id) (assoc base id)) _
                Hlo Hl Hgt Hlt Hs' Ha') as [Hsrt Hass].
    split; [done|]. intros r. rewrite Hass. unfold old_value.
    rewrite (assoc_split lo hi' r id) by
      (done || (eapply Forall_impl; [exact Hgt|]; simpl; lia)).
    case_decide as Hr; [|].
    - destruct (assoc lo r); [done|]. by rewrite decide_False by (by apply below_ids).
    - destruct (decide (r = id)) as [->|Hne].
      + rewrite (assoc_above hi' id (S id)) by (lia || (eapply Forall_impl; [exact Hgt|]; simpl; lia)).
        by rewrite decide_True by constructor.
      + destruct (assoc hi' r); [done|]. rewrite Hbase, (assoc_split blo bhi r id) by done.
        rewrite (decide_False (P := (r < id)%nat)) by done. repeat case_decide; rewrite ?elem_of_cons in *;
          intuition congruence. }
  destruct hi as [|[t v] hi'].
  { apply Hfetched; [apply sorted_nil|constructor]. }
  simpl in Hh. apply Forall_cons_1 in Hh as [Ht Hh]. pose proof Hhi as [Hhi' Hgt]%sorted_cons.
  destruct (Nat.eqb_spec t id) as [->|Hne].
  - destruct (IH hi' base Hids Hhi' Hb) as [Hs' Ha'].
    destruct (old_values_step table id ids lo hi' base v _ Hlo Hl Hgt Hlt Hs' Ha') as [Hsrt Hass].
    split; [done|]. intros r. rewrite Hass. unfold old_value.
    rewrite (assoc_split lo ((id, v) :: hi') r id) by (done || (simpl; by constructor)).
    case_decide as Hr.
    + destruct (assoc lo r); [done|]. by rewrite decide_False by (by apply below_ids).
    + simpl. destruct (decide (r = id)) as [->|Hne]; [by rewrite decide_True|].
      rewrite (decide_False (P := id = r)) by done. destruct (assoc hi' r); [done|].
      repeat case_decide; rewrite ?elem_of_cons in *; intuition congruence.
  - apply Hfetched; [done|]. simpl. constructor; [lia|].
    eapply Forall_impl; [exact Hgt|]. simpl. lia.
Qed.

(** The entries an update brings: its rows with their new values. *)
Definition new_entries (new_value : nat -> T) (a : list (nat * nat)) : list (nat * T) :=
  map (fun '(id, idx) => (id, new_value idx)) a.

Lemma new_entries_rows new_value a : (new_entries new_value a).*1 = a.*1.
Proof.
  unfold new_entries. induction a as [|[id idx] a IH]; [done|]. cbn. f_equal. exact IH.
Qed.

(** The entries of [d2] overridden by those of [d1]. *)
Definition override d1 d2 r : option T :=
  match assoc d1 r with Some v => Some v | None => assoc d2 r end.

Lemma override_rows (P : nat -> Prop) d d1 d2 :
  (forall r, assoc d r = override d1 d2 r) -> Forall P d1.*1 -> Forall P d2.*1 -> Forall P d.*1.
Proof.
  intros Ha H1 H2. apply Forall_rows. intros r v. rewrite Ha. unfold override.
  rewrite Forall_forall in H1, H2. destruct (assoc d1 r) eqn:E.
  - intros _. by apply H1, (assoc_elem _ _ t).
  - intros Hv. by apply H2, (assoc_elem _ _ v).
Qed.

Lemma MergeLoop_spec new_value a b :
  StronglySorted lt a.*1 -> sorted b ->
  let merged := MergeLoop (fun id aidx _ => (id, new_value aidx))
                  (fun id aidx => (id, new_value aidx)) (fun e => e) a b in
  sorted merged /\ forall r, assoc merged r = override (new_entries new_value a) b r.
Proof.
  revert b. induction a as [|[aid aidx] a IH]; intros b Ha Hb; cbv zeta.
  { simpl. rewrite map_id. done. }
  simpl in Ha. pose proof Ha as [Ha' Hlt]%StronglySorted_inv.
  assert (Forall (fun t => (aid < t)%nat) (new_entries new_value a).*1) as Hnew
    by (rewrite new_entries_rows; exact Hlt).
  induction b as [|[bid v] b IHb].
  { split.
    - change (sorted (new_entries new_value ((aid, aidx) :: a))).
      unfold sorted. rewrite new_entries_rows. exact Ha.
    - intros r. unfold override. simpl. case_decide; [done|].
      change (map _ a) with (new_entries new_value a). by destruct (assoc _ r). }
  pose proof Hb as [Hb' Hbid]%sorted_cons.
  cbn [MergeLoop fst]. destruct (Nat.eqb_spec aid bid) as [->|Hne].
  - destruct (IH b Ha' Hb') as [Hs Hr]. split.
    + apply sorted_cons. split; [done|]. by eapply override_rows.
    + intros r. unfold override. simpl. case_decide; [done|]. by rewrite Hr.
  - destruct (Nat.ltb_spec aid bid) as [Hl|Hg].
    + destruct (IH ((bid, v) :: b) Ha' Hb) as [Hs Hr]. split.
      * apply sorted_cons. split; [done|]. eapply override_rows; [exact Hr|done|].
        simpl. constructor; [done|]. by eapply Forall_le_lt; [|exact Hbid]; lia.
      * intros r. unfold override. simpl assoc at 1 2. case_decide; [done|]. by rewrite Hr.
    + destruct (IHb Hb') as [Hs Hr]. split.
      * apply sorted_cons. split; [exact Hs|]. eapply override_rows; [exact Hr| |done].
        simpl. constructor; [lia|]. eapply Forall_le_lt; [|exact Hnew]; lia.
      * intros r. unfold override in *. cbn [assoc].
        destruct (decide (bid = r)) as [<-|Hn].
        { simpl. rewrite decide_False by lia. change (map _ a) with (new_entries new_value a).
          by rewrite (assoc_above _ bid (S aid)) by
            (lia || (eapply Forall_impl; [exact Hnew|]; simpl; lia)). }
        exact (Hr r).
Qed.
End assoc_lemmas.

(** ** The reading loops write exactly the recorded rows *)

Section reading.
Context {T V : Type} (get : V -> nat -> T) (put : V -> nat -> T -> V).
Context (ok : V -> Prop) (size : V -> nat).
Hypothesis put_ok : forall v i x, ok v -> (i < size v)%nat -> ok (put v i x) /\ size (put v i x) = size v.
Hypothesis get_put : forall v i x j, ok v -> (i < size v)%nat -> (j < size v)%nat ->
  get (put v i x) j = if decide (i = j) then x else get v j.
Implicit Types (d : list (nat * T)) (v : V).

(** A result that agrees with [v] up to the values [f] gives. *)
Definition updated v v' (f : nat -> option T) : Prop :=
  ok v' /\ size v' = size v /\ forall j, (j < size v)%nat -> get v' j = default (get v j) (f j).

Lemma merge_rows_spec d v :
  ok v -> sorted d -> Forall (fun t => (t < size v)%nat) d.*1 ->
  updated v (merge_rows put d v) (assoc d).
Proof.
  unfold merge_rows. revert v. induction d as [|[t x] d IH]; intros v Hv Hd Hs; [done|].
  apply sorted_cons in Hd as [Hd Ht]. simpl in Hs. apply Forall_cons_1 in Hs as [Htv Hs].
  destruct (put_ok v t x Hv Htv) as [Hok Hsz]. simpl.
  destruct (IH _ Hok Hd) as (Hok' & Hsz' & Hg); [by rewrite Hsz|].
  split; [done|]. split; [by rewrite Hsz'|]. intros j Hj. rewrite Hg by (by rewrite Hsz).
  rewrite get_put by done. case_decide as Htj; [|done]. subst j.
  by rewrite (assoc_above d t (S t)) by (exact Ht || lia).
Qed.

Lemma merge_range_spec d start end_ result_offset v :
  ok v -> sorted d -> (start <= end_)%nat -> (result_offset + (end_ - start) <= size v)%nat ->
  updated v (merge_range put d start end_ result_offset v)
    (fun j => if decide (result_offset <= j < result_offset + (end_ - start))%nat
              then assoc d (j - result_offset + start) else None).
Proof.
  revert v. induction d as [|[t x] d IH]; intros v Hv Hd Hse Hs; simpl.
  { split; [done|]. split; [done|]. intros j Hj. by case_decide. }
  apply sorted_cons in Hd as [Hd Ht].
  destruct (Nat.ltb_spec t start) as [Hlt|Hge].
  { destruct (IH v Hv Hd Hse Hs) as (Hok & Hsz & Hg). split; [done|]. split; [done|].
    intros j Hj. rewrite Hg by done. case_decide; [|done]. by rewrite decide_False by lia. }
  destruct (Nat.leb_spec end_ t) as [Hle|Hgt].
  { split; [done|]. split; [done|]. intros j Hj. case_decide; [|done].
    rewrite decide_False by lia. by rewrite (assoc_above d _ t) by
      (lia || (eapply Forall_impl; [exact Ht|]; simpl; lia)). }
  assert (result_offset + t - start < size v)%nat as Hi by lia.
  destruct (put_ok v (result_offset + t - start) x Hv Hi) as [Hok Hsz].
  destruct (IH _ Hok Hd Hse) as (Hok' & Hsz' & Hg); [by rewrite Hsz|].
  split; [done|]. split; [by rewrite Hsz'|]. intros j Hj. rewrite Hg by (by rewrite Hsz).
  rewrite get_put by done.
  destruct (decide (result_offset <= j < result_offset + (end_ - start))%nat) as [Hr|Hr];
    [|by rewrite (decide_False (P := result_offset + t - start = j)%nat) by lia].
  destruct (decide (t = j - result_offset + start)%nat) as [Heq|Hne].
  - rewrite (decide_True (P := result_offset + t - start = j)%nat) by lia.
    by rewrite (assoc_above d _ (S t)) by (exact Ht || lia).
  - by rewrite (decide_False (P := result_offset + t - start = j)%nat) by lia.
Qed.

Lemma fetch_row_spec d row_idx result_idx v :
  ok v -> sorted d -> (result_idx < size v)%nat ->
  updated v (fetch_row put d row_idx result_idx v)
    (fun j => if decide (j = result_idx) then assoc d row_idx else None).
Proof.
  intros Hv Hd Hs. induction d as [|[t x] d IH]; simpl.
  { split; [done|]. split; [done|]. intros j Hj. by case_decide. }
  apply sorted_cons in Hd as [Hd Ht].
  destruct (Nat.eqb_spec t row_idx) as [->|Hne].
  { destruct (put_ok v result_idx x Hv Hs) as [Hok Hsz]. split; [done|]. split; [done|].
    intros j Hj. rewrite get_put by done. rewrite (decide_True (P := row_idx = row_idx)) by done.
    repeat case_decide; done || congruence. }
  destruct (Nat.ltb_spec row_idx t) as [Hlt|Hge].
  - split; [done|]. split; [done|]. intros j Hj. rewrite (decide_False (P := t = row_idx)) by done.
    rewrite (assoc_above d _ t) by (lia || (eapply Forall_impl; [exact Ht|]; simpl; lia)).
    by case_decide.
  - destruct (IH Hd) as (Hok & Hsz & Hg). split; [done|]. split; [done|]. intros j Hj.
    rewrite Hg by done. by rewrite (decide_False (P := t = row_idx)) by done.
Qed.
End reading.

(** ** What the segment relies on *)

Class UpdateLaws {T V S : Type} `{!UpdateFunctions T V S} (ok : V -> Prop) (size : V -> nat)
    : Prop := {
  put_ok v i x : ok v -> (i < size v)%nat -> ok (put v i x) /\ size (put v i x) = size v;
  extract_put v i x j : ok v -> (i < size v)%nat -> (j < size v)%nat ->
    extract (put v i x) j = if decide (i = j) then x else extract v j;
  merge_info_spec d v : ok v -> sorted d -> in_vector d -> (STANDARD_VECTOR_SIZE <= size v)%nat ->
    updated extract ok size v (merge_info d v) (assoc d);
  statistics_sel stats u count : (update_statistics stats u count).2
    = List.filter (fun i => row_valid (uvec u) (usel u i)) (seq 0 count);
  effective_sel u ids sel base off : exists keep,
    effective_updates u ids sel base off = List.filter keep sel /\
    forall i, keep i = false -> row_valid base (ids !!! i - off) = true /\
      extract (uvec u) (usel u i) = extract base (ids !!! i - off)%nat;
  initialize_values base u sel base_tuples :
    (initialize_update base u sel base_tuples).2 = map (fun i => extract (uvec u) (usel u i)) sel /\
    exists f, (initialize_update base u sel base_tuples).1 = map f base_tuples /\
      forall r, row_valid base r = true -> f r = extract base r
}.

Lemma filter_all {A} (P : A -> bool) (l : list A) : (forall x, P x = true) -> List.filter P l = l.
Proof. intros HP. induction l as [|x l IH]; simpl; [done|]. by rewrite HP, IH. Qed.

(** [n] increasing numbers from [a] on that stay below [a + n] are all of them. *)
Lemma sorted_full a (l : list nat) :
  StronglySorted lt l -> Forall (fun t => (a <= t < a + length l)%nat) l -> l = seq a (length l).
Proof.
  revert a. induction l as [|x l IH]; intros a Hs Hl; simpl; [done|].
  apply StronglySorted_inv in Hs as [Hs Hx]. apply Forall_cons_1 in Hl as [Hxa Hl]. simpl in Hxa.
  assert (Forall (fun t => (S a <= t < S a + length l)%nat) l) as Hl'.
  { rewrite Forall_forall in Hl, Hx |- *. intros t Ht. specialize (Hl t Ht). specialize (Hx t Ht).
    simpl in Hl. lia. }
  pose proof (IH (S a) Hs Hl') as Hseq. rewrite <- Hseq. f_equal.
  destruct l as [|y l]; simpl in *; [lia|].
  apply Forall_cons_1 in Hx as [Hy _]. injection Hseq as -> _. lia.
Qed.

(** The bulk copy of [MergeUpdateInfo] is the row-wise loop. *)
Lemma assoc_nth {T} (d : list (nat * T)) a j :
  d.*1 = seq a (length d) -> (j < length d)%nat -> assoc d (a + j) = snd <$> d !! j.
Proof.
  revert a j. induction d as [|[t x] d IH]; intros a j Hd Hj; simpl in *; [lia|].
  injection Hd as -> Hd. destruct j as [|j]; simpl.
  - by rewrite Nat.add_0_r, decide_True.
  - rewrite decide_False by lia. rewrite <- (IH (S a) j) by (done || lia). f_equal. lia.
Qed.

Lemma MergeUpdateInfo_spec {T} `{!Inhabited T} (d : list (nat * T)) (l : list T) :
  sorted d -> in_vector d -> (STANDARD_VECTOR_SIZE <= length l)%nat ->
  updated (fun (l : list T) i => l !!! i) (fun _ => True) length l (MergeUpdateInfo d l) (assoc d).
Proof.
  intros Hd Hv Hl. unfold MergeUpdateInfo. destruct (Nat.eqb_spec (length d) STANDARD_VECTOR_SIZE) as [Hn|Hn].
  - split; [done|]. split; [rewrite length_app, length_fmap, length_drop; lia|]. intros j Hj.
    assert (d.*1 = seq 0 (length d)) as Hseq.
    { rewrite <- (length_fmap fst d). apply sorted_full; [done|]. rewrite length_fmap, Hn.
      eapply Forall_impl; [exact Hv|]. simpl. lia. }
    destruct (Nat.lt_ge_cases j (length d)) as [Hjd|Hjd].
    + rewrite lookup_total_app_l by (by rewrite length_fmap).
      pose proof (assoc_nth d 0 j Hseq Hjd) as Hj0. simpl in Hj0. rewrite Hj0.
      rewrite list_lookup_total_alt, list_lookup_fmap. destruct (d !! j) eqn:E; [done|].
      apply lookup_ge_None in E. lia.
    + rewrite lookup_total_app_r by (by rewrite length_fmap).
      rewrite length_fmap, list_lookup_total_alt, lookup_drop.
      replace (length d + (j - length d))%nat with j by lia.
      rewrite (assoc_below d j (length d)); [by rewrite list_lookup_total_alt| |done].
      eapply Forall_impl; [exact Hv|]. simpl. lia.
  - apply merge_rows_spec; try done.
    + intros v i x _ Hi. by rewrite length_insert.
    + intros v i x j _ Hi Hj. by apply upd_lookup_total.
    + eapply Forall_impl; [exact Hv|]. simpl. lia.
Qed.

#[export] Instance ValidityLaws :
  UpdateLaws (UpdateFunctions0 := ValidityFunctions) ValidityMask.wf ValidityMask.capacity.
Proof.
  split; simpl.
  - intros v i x Hv Hi. split; [by apply ValidityMask.Set_wf|by apply ValidityMask.Set_capacity].
  - intros v i x j Hv Hi Hj. by apply ValidityMask.Set_row.
  - intros d v Hv Hd Hr Hs. apply merge_rows_spec; try done.
    + intros w i x Hw Hi. split; [by apply ValidityMask.Set_wf|by apply ValidityMask.Set_capacity].
    + intros w i x j Hw Hi Hj. by apply ValidityMask.Set_row.
    + eapply Forall_impl; [exact Hr|]. simpl. lia.
  - intros. symmetry. by apply filter_all.
  - intros u ids sel base off. eexists. split; [done|]. simpl. intros i Hi. split; [done|].
    apply negb_false_iff, eqb_prop in Hi. by rewrite Hi.
  - intros base u sel rows. unfold InitializeUpdateValidity, ValidityMask.AllValid. simpl. split.
    + destruct (ValidityMask.validity_mask (uvec u)) as [es|] eqn:E; simpl; [done|].
      apply map_ext. intros i. by rewrite ValidityMask.RowIsValid_None.
    + exists (ValidityMask.RowIsValid base). split; [|done].
      destruct (ValidityMask.validity_mask base) as [es|] eqn:E; simpl; [done|].
      apply map_ext. intros i. by rewrite ValidityMask.RowIsValid_None.
Qed.

Lemma filter_step {A} (P : nat -> bool) (f : A -> nat -> A) l stats sel :
  (fold_left (fun '(stats, sel) i => if P i then (f stats i, sel ++ [i]) else (stats, sel))
     l (stats, sel)).2 = sel ++ List.filter P l.
Proof.
  revert stats sel. induction l as [|i l IH]; intros stats sel; simpl; [by rewrite app_nil_r|].
  destruct (P i); [|apply IH]. by rewrite IH, <- app_assoc.
Qed.

(** The comparison of the C++ type may only identify equal values.  (For floating-point types it
    also identifies the two zeros, and an update from one to the other counts as no change.) *)
#[export] Instance DataLaws {T} `{!Inhabited T} (less_than equal : T -> T -> bool)
    (uninitialized : nat -> T) (Heq : forall x y, equal x y = true -> x = y) :
  UpdateLaws (UpdateFunctions0 := DataFunctions less_than equal uninitialized)
    (fun _ => True) (fun v => length (data v)).
Proof.
  split; simpl.
  - intros v i x _ Hi. by rewrite length_insert.
  - intros v i x j _ Hi Hj. by apply upd_lookup_total.
  - intros d v _ Hd Hr Hs. destruct (MergeUpdateInfo_spec d (data v) Hd Hr Hs) as (_ & Hl & Hg).
    split; [done|]. split; [done|]. exact Hg.
  - intros stats u count. unfold TemplatedUpdateNumericStatistics.
    destruct (ValidityMask.AllValid (validity (uvec u))) eqn:E; simpl.
    + symmetry. apply filter_all. intros i. apply ValidityMask.RowIsValid_None.
      unfold ValidityMask.AllValid in E. by destruct (ValidityMask.validity_mask _).
    + apply (filter_step _ (fun stats i => UpdateValue less_than stats _) _ _ []).
  - intros u ids sel base off. eexists. split; [done|]. simpl. intros i Hi.
    apply negb_false_iff, andb_true_iff in Hi as [Hv Hi]. by apply Heq in Hi.
  - intros base u sel rows. split; [done|]. eexists. split; [done|]. intros r Hr. simpl. by rewrite Hr.
Qed.

(** ** The function tables agree *)

Definition all_functions (f : functions) : list instance :=
  [initialize_update_function f; fetch_update_function f; fetch_committed_function f;
   fetch_committed_range f; fetch_row_function f; merge_update_function f;
   rollback_update_function f; statistics_update_function f; get_effective_updates f].

(** Elements of [c] in an allocation for elements of [type_size] bytes: the row numbers lie
    between the header and the values, the values inside the allocation. *)
Definition layout_ok (c : ctype) (type_size : nat) : Prop :=
  forall i, (i < STANDARD_VECTOR_SIZE)%nat ->
    (GetTuples i + sizeof_sel_t <= GetValues c 0)%nat /\
    (GetValues c i + sizeof c <= GetAllocSize type_size)%nat.

Lemma layout c : layout_ok c (sizeof c).
Proof.
  intros i Hi. unfold GetTuples, GetValues, GetAllocSize, AlignValue, sizeof_sel_t. split; [lia|].
  assert (sizeof c * i + sizeof c <= sizeof c * STANDARD_VECTOR_SIZE)%nat by nia.
  set (n := (sizeof_UpdateInfo + (4 + sizeof c) * STANDARD_VECTOR_SIZE)%nat).
  assert (n <= (n + 7) / 8 * 8)%nat by (clearbody n; dlia). unfold n in *. lia.
Qed.

(** C32 The nine function tables are defined for the same physical types (all but the nested,
    unknown and invalid ones, for which constructing the segment fails), choose the same element
    type, of the size the segment allocates, and with it every row number and value of an
    [UpdateInfo] of a full vector lies inside the allocation. *)
Theorem function_tables_consistent type :
  match UpdateSegment_functions type with
  | Ok f =>
      (type ∉ [LIST; STRUCT; ARRAY; UNKNOWN; INVALID]) /\
      Forall (fun g => element g = element (merge_update_function f) /\
                sizeof (element g) = type_size f /\ layout_ok (element g) (type_size f))
        (all_functions f)
  | Throw _ => (type ∈ [LIST; STRUCT; ARRAY; UNKNOWN; INVALID])
  end.
Proof.
  destruct type; cbn;
    first [ split; [rewrite !not_elem_of_cons; repeat split; try discriminate; apply not_elem_of_nil|];
            repeat (apply Forall_cons; split; [split; [done|]; split; [done|exact (layout _)]|]);
            by apply Forall_nil
          | rewrite !elem_of_cons; tauto ].
Qed.

End UpdateKind.
