(* ===== verification/UpdateSegment.v ===== *)
(** * Update chains of a column

    Models the update chains of src/src/storage/table/update_segment.cpp.  An [UpdateSegment]
    holds, per vector of a column, a pointer to a base [UpdateInfo] with the newest values of all
    updated rows, followed by a doubly linked list of the [UpdateInfo]s of transactions with the
    values they overwrote, newest first.  The [UpdateInfo]s live in undo buffers: here, in one
    heap; a pointer is an address of it.  The routines that depend on the type of the column are
    those of [UpdateKind].  Every operation runs under the lock of the segment. *)

From stdpp Require Import gmap.
From Stdlib Require Import Sorting.Sorted.
From S2P Require Import Prelude ValidityMask ChunkInfo UpdateKind.
Import UpdateKind.

Module UpdateSegment.

Abbreviation TRANSACTION_ID_START := ChunkInfo.TRANSACTION_ID_START.

(** [entries] is the used part of the arrays behind [GetTuples] and [GetValues]; their length is
    the field [N].  [prev] and [next] are unset ([None]) or an address. *)
Record UpdateInfo (T : Type) : Type := mkInfo {
  column_index : nat;
  version_number : Z;
  vector_index : nat;
  entries : list (nat * T);
  prev : option nat;
  next : option nat
}.
Arguments mkInfo {T}.
Arguments column_index {T}.
Arguments version_number {T}.
Arguments vector_index {T}.
Arguments entries {T}.
Arguments prev {T}.
Arguments next {T}.

Section setters.
Context {T : Type}.
Implicit Types (i : UpdateInfo T).
Definition set_version (v : Z) i : UpdateInfo T :=
  mkInfo (column_index i) v (vector_index i) (entries i) (prev i) (next i).
Definition set_entries (es : list (nat * T)) i : UpdateInfo T :=
  mkInfo (column_index i) (version_number i) (vector_index i) es (prev i) (next i).
Definition set_prev (p : option nat) i : UpdateInfo T :=
  mkInfo (column_index i) (version_number i) (vector_index i) (entries i) p (next i).
Definition set_next (p : option nat) i : UpdateInfo T :=
  mkInfo (column_index i) (version_number i) (vector_index i) (entries i) (prev i) p.
End setters.

(** A transaction as the storage sees it; [has_transaction] is false for internal readers and
    writers that pass no transaction object. *)
Record TransactionData : Type := mkTxn {
  start_time : Z;
  transaction_id : Z;
  has_transaction : bool
}.

Definition AppliesToTransaction {T} (i : UpdateInfo T) (start_time transaction_id : Z) : bool :=
  (start_time <? version_number i) && negb (version_number i =? transaction_id).

(** Following [next] pointers.  A chain without a cycle has at most as many nodes as the heap,
    so the fuel [size h] of [chain] is enough. *)
Fixpoint walk {T} (fuel : nat) (h : gmap nat (UpdateInfo T)) (p : option nat)
    : list (nat * UpdateInfo T) :=
  match fuel, p with
  | S fuel, Some a =>
      match h !! a with
      | Some i => (a, i) :: walk fuel h (next i)
      | None => []
      end
  | _, _ => []
  end.

Definition chain {T} (h : gmap nat (UpdateInfo T)) (p : option nat) : list (nat * UpdateInfo T) :=
  walk (size h) h p.

(** The callback runs on every relevant [UpdateInfo] of the chain, newest to oldest. *)
Definition UpdatesForTransaction {T R} (h : gmap nat (UpdateInfo T)) (current : UpdateInfo T)
    (start_time transaction_id : Z) (callback : UpdateInfo T -> R -> R) (r : R) : R :=
  let visit i r := if AppliesToTransaction i start_time transaction_id then callback i r else r in
  fold_left (fun r ai => visit ai.2 r) (chain h (next current)) (visit current r).

(** The merge join of [CheckForConflicts] over the (sorted) updated rows and the rows of a node. *)
Fixpoint find_conflict (ids tuples : list nat) : bool :=
  match ids with
  | [] => false
  | id :: ids' =>
      (fix loop (tuples : list nat) : bool :=
         match tuples with
         | [] => false
         | t :: tuples' =>
             if (id =? t)%nat then true
             else if (id <? t)%nat then find_conflict ids' tuples
             else loop tuples'
         end) tuples
  end.

(** Returns the node of the transaction in the chain, if it has one. *)
Fixpoint CheckForConflicts {T} (nodes : list (nat * UpdateInfo T)) (transaction : TransactionData)
    (ids : list nat) (node_ref : option nat) : result (option nat) :=
  match nodes with
  | [] => Ok node_ref
  | (pin, info) :: nodes =>
      if version_number info =? transaction_id transaction then
        CheckForConflicts nodes transaction ids (Some pin)
      else if (start_time transaction <? version_number info) && find_conflict ids (entries info).*1
      then Throw TransactionException
      else CheckForConflicts nodes transaction ids node_ref
  end.

(** [SortSelectionVector]: the selection ordered by row id without duplicate ids.  [sort] stands
    for [std::sort] with the comparison of the row ids the selection refers to. *)
Fixpoint is_sorted (ids : nat -> nat) (prev : nat) (sel : list nat) : bool :=
  match sel with
  | [] => true
  | idx :: sel => if (ids idx <=? ids prev)%nat then false else is_sorted ids idx sel
  end.

Fixpoint eliminate_duplicates (ids : nat -> nat) (prev : nat) (sel : list nat) : list nat :=
  match sel with
  | [] => []
  | idx :: sel =>
      if (ids prev =? ids idx)%nat then eliminate_duplicates ids idx sel
      else idx :: eliminate_duplicates ids idx sel
  end.

Definition SortSelectionVector (sort : (nat -> nat) -> list nat -> list nat) (sel : list nat)
    (ids : nat -> nat) : list nat :=
  match sel with
  | [] => []
  | first :: rest =>
      if is_sorted ids first rest then sel
      else match sort ids sel with
           | [] => []
           | first :: rest => first :: eliminate_duplicates ids first rest
           end
  end.

Section segment.
Context {T V S : Type} `{!UpdateFunctions T V S}.
Context (sort : (nat -> nat) -> list nat -> list nat).

(** [start] is the first row of the column; [root] is the vector of chains, once there is one. *)
Record t : Type := mk {
  start : nat;
  heap : gmap nat (UpdateInfo T);
  root : option (list (option nat));
  stats : S
}.

Definition with_heap (m : t) (h : gmap nat (UpdateInfo T)) : t := mk (start m) h (root m) (stats m).

Definition GetUpdateNode (m : t) (vector_idx : nat) : option nat :=
  match root m with
  | None => None
  | Some info => mjoin (info !! vector_idx)
  end.

(** The base [UpdateInfo] of a vector. *)
Definition base_info (m : t) (vector_idx : nat) : option (UpdateInfo T) :=
  GetUpdateNode m vector_idx ≫= fun a => heap m !! a.

(** ** Reading *)

Definition FetchUpdates (m : t) (transaction : TransactionData) (vector_index : nat) (result : V)
    : V :=
  match base_info m vector_index with
  | None => result
  | Some info =>
      UpdatesForTransaction (heap m) info (start_time transaction) (transaction_id transaction)
        (fun current result => merge_info (entries current) result) result
  end.

Definition FetchCommitted (m : t) (vector_index : nat) (result : V) : V :=
  match base_info m vector_index with
  | None => result
  | Some info => merge_info (entries info) result
  end.

Definition FetchCommittedRange (m : t) (start_row count : nat) (result : V) : V :=
  let end_row := (start_row + count)%nat in
  let start_vector := (start_row / STANDARD_VECTOR_SIZE)%nat in
  let end_vector := ((end_row - 1) / STANDARD_VECTOR_SIZE)%nat in
  fold_left (fun result vector_idx =>
      match base_info m vector_idx with
      | None => result
      | Some info =>
          let start_in_vector :=
            if (vector_idx =? start_vector)%nat
            then (start_row - start_vector * STANDARD_VECTOR_SIZE)%nat else 0%nat in
          let end_in_vector :=
            if (vector_idx =? end_vector)%nat
            then (end_row - end_vector * STANDARD_VECTOR_SIZE)%nat else STANDARD_VECTOR_SIZE in
          let result_offset :=
            (vector_idx * STANDARD_VECTOR_SIZE + start_in_vector - start_row)%nat in
          merge_range put (entries info) start_in_vector end_in_vector result_offset result
      end) (seq start_vector (end_vector + 1 - start_vector)) result.

Definition FetchRow (m : t) (transaction : TransactionData) (row_id : nat) (result : V)
    (result_idx : nat) : V :=
  let vector_index := ((row_id - start m) / STANDARD_VECTOR_SIZE)%nat in
  match base_info m vector_index with
  | None => result
  | Some info =>
      let row_in_vector := (row_id - start m - vector_index * STANDARD_VECTOR_SIZE)%nat in
      UpdatesForTransaction (heap m) info (start_time transaction) (transaction_id transaction)
        (fun current result => fetch_row put (entries current) row_in_vector result_idx result)
        result
  end.

Definition HasUpdates (m : t) : bool := match root m with Some _ => true | None => false end.

Definition HasUpdatesVector (m : t) (vector_index : nat) : bool :=
  match GetUpdateNode m vector_index with Some _ => true | None => false end.

Definition HasUncommittedUpdates (m : t) (vector_index : nat) : bool :=
  match base_info m vector_index with
  | None => false
  | Some info => match next info with Some _ => true | None => false end
  end.

Definition HasUpdatesRange (m : t) (start_row_index end_row_index : nat) : bool :=
  let base_vector_index := (start_row_index / STANDARD_VECTOR_SIZE)%nat in
  let end_vector_index := (end_row_index / STANDARD_VECTOR_SIZE)%nat in
  HasUpdates m &&
  existsb (HasUpdatesVector m) (seq base_vector_index (end_vector_index + 1 - base_vector_index)).

(** ** Rollback and cleanup of the [UpdateInfo] at an address *)

Definition CleanupUpdateInternal (h : gmap nat (UpdateInfo T)) (info : UpdateInfo T)
    : gmap nat (UpdateInfo T) :=
  let h := match prev info with Some p => alter (set_next (next info)) p h | None => h end in
  match next info with Some n => alter (set_prev (prev info)) n h | None => h end.

Definition CleanupUpdate (m : t) (info_ptr : nat) : t :=
  match heap m !! info_ptr with
  | None => m
  | Some info => with_heap m (CleanupUpdateInternal (heap m) info)
  end.

Definition RollbackUpdate (m : t) (info_ptr : nat) : t :=
  match heap m !! info_ptr with
  | None => m
  | Some info =>
      match GetUpdateNode m (vector_index info) with
      | None => m
      | Some entry =>
          let h := alter (fun base => set_entries (UpdateKind.RollbackUpdate (entries base) (entries info)) base)
                     entry (heap m) in
          with_heap m (CleanupUpdateInternal h info)
      end
  end.

(** The write of [CommitState::CommitEntry] to an update, once its check that the table was not
    altered meanwhile has passed. *)
Definition CommitUpdate (m : t) (info_ptr : nat) (commit_id : Z) : t :=
  with_heap m (alter (set_version commit_id) info_ptr (heap m)).

(** ** Update *)

(** [InitializeUpdateInfo(vector_idx)]: there is a slot for the vector. *)
Definition InitializeRoot (m : t) (vector_idx : nat) : t :=
  let info := default [] (root m) in
  mk (start m) (heap m)
     (Some (info ++ replicate (vector_idx + 1 - length info) None)) (stats m).

(** [merge_update_function] on the base info and the transaction's node. *)
Definition merge_update (update : UnifiedVectorFormat V) (base_data : V) (a : list (nat * nat))
    (base node : UpdateInfo T) : list (nat * T) * list (nat * T) :=
  MergeUpdateLoopInternal (extract base_data) (fun idx => extract (uvec update) (usel update idx))
    a (entries node) (entries base).

(** The branch of [Update] for a vector that has a chain.  [a] lists the updated rows of the
    vector with their index in the update.  Without a transaction object the node is a local
    buffer that cannot be linked.  The result names a node added to the undo buffer. *)
Definition UpdateExisting (m : t) (transaction : TransactionData) (column_index vector_index : nat)
    (update : UnifiedVectorFormat V) (base_data : V) (a : list (nat * nat)) (root_pointer : nat)
    : t * result (option nat) :=
  match heap m !! root_pointer with
  | None => (m, Throw InternalException)
  | Some base =>
      match CheckForConflicts (chain (heap m) (next base)) transaction a.*1 None with
      | Throw e => (m, Throw e)
      | Ok (Some node_ref) =>
          match heap m !! node_ref with
          | None => (m, Throw InternalException)
          | Some node =>
              let '(update_entries, base_entries) := merge_update update base_data a base node in
              (with_heap m (alter (set_entries base_entries) root_pointer
                              (alter (set_entries update_entries) node_ref (heap m))), Ok None)
          end
      | Ok None =>
          let node := mkInfo column_index (transaction_id transaction) vector_index []
                        (Some root_pointer) (next base) in
          let '(update_entries, base_entries) := merge_update update base_data a base node in
          if has_transaction transaction then
            let p := fresh (dom (heap m)) in
            let h := match next base with
                     | Some n => alter (set_prev (Some p)) n (heap m)
                     | None => heap m
                     end in
            let h := <[p := set_entries update_entries node]> h in
            (with_heap m (alter (fun base => set_next (Some p) (set_entries base_entries base))
                            root_pointer h), Ok (Some p))
          else
            match next base with
            | Some _ => (m, Throw InternalException)
            | None =>
                (with_heap m (alter (fun base => set_next None (set_entries base_entries base))
                                root_pointer (heap m)), Ok None)
            end
      end
  end.

(** The branch for a vector without one: the base info gets the new values, the node of the
    transaction the values of the table. *)
Definition UpdateNew (m : t) (transaction : TransactionData) (column_index vector_index : nat)
    (update : UnifiedVectorFormat V) (base_data : V) (sel : list nat) (a : list (nat * nat))
    : t * result (option nat) :=
  let '(base_values, update_values) := initialize_update base_data update sel a.*1 in
  let handle := fresh (dom (heap m)) in
  let p := fresh ({[handle]} ∪ dom (heap m)) in
  let tid := has_transaction transaction in
  let update_info :=
    mkInfo column_index (TRANSACTION_ID_START - 1) vector_index (zip a.*1 update_values) None
      (if tid then Some p else None) in
  let transaction_node :=
    mkInfo column_index (transaction_id transaction) vector_index (zip a.*1 base_values)
      (Some handle) None in
  let h := <[handle := update_info]> (heap m) in
  let h := if tid then <[p := transaction_node]> h else h in
  (mk (start m) h ((fun info => <[vector_index := Some handle]> info) <$> root m) (stats m),
   Ok (if tid then Some p else None)).

(** The updated rows of the vector that starts at row [vector_offset]. *)
Definition row_list (ids sel : list nat) (vector_offset : nat) : list (nat * nat) :=
  map (fun idx => ((ids !!! idx - vector_offset)%nat, idx)) sel.

Definition vector_of (m : t) (row_id : nat) : nat := ((row_id - start m) / STANDARD_VECTOR_SIZE)%nat.
Definition vector_offset (m : t) (vector_index : nat) : nat :=
  (start m + vector_index * STANDARD_VECTOR_SIZE)%nat.

(** The sorted selection, reduced to the rows that change if the vector has no chain yet. *)
Definition update_selection (m : t) (update : UnifiedVectorFormat V) (ids : list nat)
    (sel : list nat) (base_data : V) : list nat :=
  let sel := SortSelectionVector sort sel (fun idx => ids !!! idx) in
  let vector_index := vector_of m (ids !!! (sel !!! 0%nat)) in
  match GetUpdateNode m vector_index with
  | None => effective_updates update ids sel base_data (vector_offset m vector_index)
  | Some _ => sel
  end.

Definition Update (m : t) (transaction : TransactionData) (column_index : nat)
    (update : UnifiedVectorFormat V) (ids : list nat) (count : nat) (base_data : V)
    : t * result (option nat) :=
  let '(stats', sel) := update_statistics (stats m) update count in
  let m := mk (start m) (heap m) (root m) stats' in
  if (length sel =? 0)%nat then (m, Ok None)
  else
    let first_id := ids !!! (SortSelectionVector sort sel (fun idx => ids !!! idx) !!! 0%nat) in
    let vector_index := vector_of m first_id in
    let sel := update_selection m update ids sel base_data in
    if (length sel =? 0)%nat then (m, Ok None)
    else
      let m := InitializeRoot m vector_index in
      let a := row_list ids sel (vector_offset m vector_index) in
      match GetUpdateNode m vector_index with
      | Some root_pointer =>
          UpdateExisting m transaction column_index vector_index update base_data a root_pointer
      | None => UpdateNew m transaction column_index vector_index update base_data sel a
      end.
End segment.

(** ** Chains as lists of nodes *)

Record node (T : Type) : Type := mkNode {
  n_ptr : nat;
  n_version : Z;
  n_entries : list (nat * T)
}.
Arguments mkNode {T}.
Arguments n_ptr {T}.
Arguments n_version {T}.
Arguments n_entries {T}.

Section linked.
Context {T : Type}.
Implicit Types (h : gmap nat (UpdateInfo T)) (l : list (node T)) (i : UpdateInfo T).

Definition node_of (a : nat) i : node T := mkNode a (version_number i) (entries i).

(** The heap holds the doubly linked list [l], entered at [p] from [pv]. *)
Fixpoint linked h (pv p : option nat) l : Prop :=
  match l with
  | [] => p = None
  | n :: l =>
      exists i, p = Some (n_ptr n) /\ h !! n_ptr n = Some i /\ node_of (n_ptr n) i = n /\
        prev i = pv /\ linked h (Some (n_ptr n)) (next i) l
  end.

Lemma linked_elem h pv p l n :
  linked h pv p l -> n ∈ l -> exists i, h !! n_ptr n = Some i /\ node_of (n_ptr n) i = n.
Proof.
  revert pv p. induction l as [|m l IH]; intros pv p Hl Hn; [by apply not_elem_of_nil in Hn|].
  destruct Hl as (i & -> & Hi & Hm & _ & Hl). apply elem_of_cons in Hn as [->|Hn]; eauto.
Qed.

Lemma linked_walk h pv p l fuel :
  linked h pv p l -> (length l <= fuel)%nat ->
  map (fun ai => node_of ai.1 ai.2) (walk fuel h p) = l.
Proof.
  revert pv p fuel. induction l as [|m l IH]; intros pv p fuel Hl Hf; simpl in Hl.
  { subst p. by destruct fuel. }
  destruct Hl as (i & -> & Hi & Hm & _ & Hl). simpl in Hf. destruct fuel as [|fuel]; [lia|].
  simpl. rewrite Hi. simpl. f_equal; [done|]. eapply IH; [done|lia].
Qed.

Lemma linked_size h pv p l :
  linked h pv p l -> NoDup (map n_ptr l) -> (length l <= size h)%nat.
Proof.
  intros Hl Hnd. rewrite <- (length_map n_ptr), <- size_dom.
  assert (size (list_to_set (C := gset nat) (map n_ptr l)) = length (map n_ptr l)) as <-
    by by apply size_list_to_set.
  apply subseteq_size. intros a. rewrite elem_of_list_to_set, list_elem_of_In, in_map_iff.
  intros (n & <- & Hn%list_elem_of_In). destruct (linked_elem h pv p l n Hl Hn) as (i & Hi & _).
  by apply elem_of_dom_2 in Hi.
Qed.

Lemma linked_chain h pv p l :
  linked h pv p l -> NoDup (map n_ptr l) -> map (fun ai => node_of ai.1 ai.2) (chain h p) = l.
Proof. intros Hl Hnd. eapply linked_walk; [done|]. by eapply linked_size. Qed.

Lemma linked_ext h h' pv p l :
  (forall n, n ∈ l -> h' !! n_ptr n = h !! n_ptr n) -> linked h pv p l -> linked h' pv p l.
Proof.
  revert pv p. induction l as [|m l IH]; intros pv p Hext Hl; [done|].
  destruct Hl as (i & -> & Hi & Hm & Hp & Hl). exists i.
  rewrite Hext by (apply elem_of_cons; by left). repeat split; try done.
  apply IH; [|done]. intros n Hn. apply Hext, elem_of_cons. by right.
Qed.

(** Changing the contents of one [UpdateInfo]. *)
Definition at_node (a : nat) (g : node T -> node T) (n : node T) : node T :=
  if decide (n_ptr n = a) then g n else n.

Lemma at_node_eq a g n : n_ptr n = a -> at_node a g n = g n.
Proof. intros. unfold at_node. by rewrite decide_True. Qed.
Lemma at_node_ne a g n : n_ptr n <> a -> at_node a g n = n.
Proof. intros. unfold at_node. by rewrite decide_False. Qed.

Lemma linked_alter h f g a pv p l :
  (forall i, prev (f i) = prev i /\ next (f i) = next i) ->
  (forall i, node_of a (f i) = g (node_of a i)) ->
  linked h pv p l -> linked (alter f a h) pv p (map (at_node a g) l).
Proof.
  intros Hf Hg. assert (forall n, n_ptr n = a -> n_ptr (g n) = a) as Hptr.
  { intros [b v es] Hb. simpl in Hb. subst b.
    specialize (Hg (mkInfo 0%nat v 0%nat es None None)). unfold node_of in Hg. simpl in Hg.
    by rewrite <- Hg. }
  revert pv p. induction l as [|m l IH]; intros pv p Hl; [done|].
  destruct Hl as (i & -> & Hi & Hm & Hp & Hl). simpl. destruct (decide (n_ptr m = a)) as [Ha|Ha].
  - rewrite at_node_eq by done. exists (f i). rewrite (Hptr m Ha). subst a.
    rewrite lookup_alter_eq, Hi. destruct (Hf i) as [Hpi Hni].
    repeat split; [by rewrite Hg, Hm|by rewrite Hpi|]. rewrite Hni. by apply IH.
  - rewrite at_node_ne by done. exists i. rewrite lookup_alter_ne by done.
    repeat split; try done. by apply IH.
Qed.

Definition with_entries (es : list (nat * T)) (n : node T) : node T :=
  mkNode (n_ptr n) (n_version n) es.
Definition with_version (v : Z) (n : node T) : node T := mkNode (n_ptr n) v (n_entries n).

Lemma at_node_ptr a g n : (forall n, n_ptr (g n) = n_ptr n) -> n_ptr (at_node a g n) = n_ptr n.
Proof. intros Hg. unfold at_node. by case_decide. Qed.

Lemma map_at_node_none a g l : a ∉ map n_ptr l -> map (at_node a g) l = l.
Proof.
  induction l as [|m l IH]; simpl; [done|]. rewrite not_elem_of_cons. intros [Hne Hl].
  by rewrite IH, at_node_ne by congruence.
Qed.

Lemma map_at_node a g l1 n l2 :
  n_ptr n = a -> NoDup (map n_ptr (l1 ++ n :: l2)) ->
  map (at_node a g) (l1 ++ n :: l2) = l1 ++ g n :: l2.
Proof.
  intros Ha Hnd. rewrite map_app in Hnd |- *. simpl in *. apply NoDup_app in Hnd as (_ & H1 & H2).
  apply NoDup_cons in H2 as [H2 _]. rewrite Ha in H1, H2.
  rewrite !map_at_node_none; [|done|].
  - f_equal. f_equal. by apply at_node_eq.
  - intros Hin. by apply (H1 a Hin), elem_of_cons; left.
Qed.

Lemma linked_set_prev h pv pv' a n l :
  NoDup (map n_ptr (n :: l)) -> n_ptr n = a -> linked h pv (Some a) (n :: l) ->
  linked (alter (set_prev pv') a h) pv' (Some a) (n :: l).
Proof.
  intros Hnd <- (i & _ & Hi & Hm & Hp & Hl). exists (set_prev pv' i).
  rewrite lookup_alter_eq, Hi. repeat split; [by rewrite <- Hm at 2|].
  eapply linked_ext; [|exact Hl]. intros m Hm'. apply lookup_alter_ne. intros Heq.
  simpl in Hnd. apply NoDup_cons in Hnd as [Hnd _]. apply Hnd. rewrite Heq.
  apply list_elem_of_In, in_map, list_elem_of_In, Hm'.
Qed.

(** [prev] of the entry point, if there is one. *)
Definition relink_head h (p : option nat) (pv : option nat) : gmap nat (UpdateInfo T) :=
  match p with Some n => alter (set_prev pv) n h | None => h end.

Lemma linked_relink h pv pv' p l :
  NoDup (map n_ptr l) -> linked h pv p l -> linked (relink_head h p pv') pv' p l.
Proof.
  intros Hnd Hl. destruct l as [|n l]; [by simpl in *; subst|].
  pose proof Hl as (i & -> & _). simpl relink_head. by eapply linked_set_prev.
Qed.

Lemma linked_set_next h pv a n l p' l' :
  linked h pv (Some a) (n :: l) -> n_ptr n = a -> a ∉ map n_ptr l' -> linked h (Some a) p' l' ->
  linked (alter (set_next p') a h) pv (Some a) (n :: l').
Proof.
  intros (i & _ & Hi & Hm & Hp & Hl) <- Ha Hl'. exists (set_next p' i).
  rewrite lookup_alter_eq, Hi. repeat split; [exact Hm|exact Hp|].
  eapply linked_ext; [|exact Hl']. intros m Hm'. apply lookup_alter_ne. intros Heq.
  apply Ha. rewrite Heq. apply list_elem_of_In, in_map, list_elem_of_In, Hm'.
Qed.

Lemma NoDup_ptr_cons n l :
  NoDup (map n_ptr (n :: l)) <-> (n_ptr n ∉ map n_ptr l) /\ NoDup (map n_ptr l).
Proof. simpl. apply NoDup_cons. Qed.

Lemma relink_head_ne h p pv a : p <> Some a -> relink_head h p pv !! a = h !! a.
Proof. intros Hp. destruct p as [n|]; simpl; [|done]. apply lookup_alter_ne. congruence. Qed.

Lemma linked_relink_ext h pv p l q pv' :
  (forall n, q = Some n -> n ∉ map n_ptr l) -> linked h pv p l -> linked (relink_head h q pv') pv p l.
Proof.
  intros Hq. apply linked_ext. intros n Hn. apply relink_head_ne. intros ->.
  apply (Hq (n_ptr n)); [done|]. apply list_elem_of_In, in_map, list_elem_of_In, Hn.
Qed.

Lemma linked_app h pv p l1 c l2 :
  linked h pv p (l1 ++ c :: l2) ->
  exists i, h !! n_ptr c = Some i /\ node_of (n_ptr c) i = c /\
    (prev i = match last l1 with Some b => Some (n_ptr b) | None => pv end) /\
    linked h (Some (n_ptr c)) (next i) l2.
Proof.
  revert pv p. induction l1 as [|m l1 IH]; intros pv p Hl.
  - destruct Hl as (i & -> & Hi & Hm & Hp & Hl). by exists i.
  - destruct Hl as (i & -> & Hi & Hm & Hp & Hl). destruct (IH _ _ Hl) as (i' & ? & ? & Hp' & ?).
    exists i'. repeat split; try done. rewrite Hp'. destruct l1 as [|n l1]; [done|].
    rewrite last_cons_cons. destruct (last (n :: l1)) eqn:E; [done|]. by apply last_None in E.
Qed.

Lemma linked_next h pv p l q : linked h pv p l -> p = Some q -> q ∈ map n_ptr l.
Proof.
  intros Hl ->. destruct l as [|n l]; [done|]. destruct Hl as (i & [= ->] & _).
  apply elem_of_cons. by left.
Qed.

Lemma CleanupUpdateInternal_relink h i b :
  prev i = Some b ->
  CleanupUpdateInternal h i = relink_head (alter (set_next (next i)) b h) (next i) (Some b).
Proof. intros Hp. unfold CleanupUpdateInternal. by rewrite Hp. Qed.

(** Unlinking a node that is not the first. *)
Lemma linked_remove h pv p l1 b c l2 i :
  linked h pv p (l1 ++ b :: c :: l2) -> NoDup (map n_ptr (l1 ++ b :: c :: l2)) ->
  h !! n_ptr c = Some i -> linked (CleanupUpdateInternal h i) pv p (l1 ++ b :: l2).
Proof.
  intros Hl Hnd Hc. assert (prev i = Some (n_ptr b) /\ linked h (Some (n_ptr c)) (next i) l2) as [Hp Hl2].
  { rewrite cons_middle, app_assoc in Hl. destruct (linked_app _ _ _ _ _ _ Hl) as (i' & Hi & _ & Hp & Hl2).
    rewrite Hc in Hi. injection Hi as <-. rewrite last_snoc in Hp. done. }
  rewrite (CleanupUpdateInternal_relink _ _ _ Hp).
  assert (forall q, next i = Some q -> q ∈ map n_ptr l2) as Hnext by (intros q; by eapply linked_next).
  clear Hp. revert pv p Hl Hnd. induction l1 as [|m l1 IH]; intros pv p Hl Hnd.
  - destruct Hl as (ib & -> & Hib & Hb & Hpb & Hlc). simpl in Hnd.
    apply NoDup_cons in Hnd as [Hbn Hnd]. apply not_elem_of_cons in Hbn as [Hbc Hbn].
    apply NoDup_cons in Hnd as [Hcn Hnd]. exists (set_next (next i) ib).
    rewrite relink_head_ne by (intros Hq; by apply Hnext in Hq).
    rewrite lookup_alter_eq, Hib. repeat split; [exact Hb|exact Hpb|].
    apply linked_relink with (Some (n_ptr c)); [done|].
    eapply linked_ext; [|exact Hl2]. intros n Hn. apply lookup_alter_ne. intros Heq.
    apply Hbn. rewrite Heq. apply list_elem_of_In, in_map, list_elem_of_In, Hn.
  - destruct Hl as (im & -> & Him & Hm & Hpm & Hlm). apply NoDup_ptr_cons in Hnd as [Hmn Hnd].
    rewrite map_app, elem_of_app in Hmn. simpl in Hmn. rewrite !elem_of_cons in Hmn.
    exists im. rewrite relink_head_ne by (intros Hq; apply Hnext in Hq; tauto).
    rewrite lookup_alter_ne by (intros Heq; apply Hmn; right; by left). repeat split; try done. by apply IH.
Qed.

(** Inserting a new node after the first. *)
Lemma linked_insert h pv a r l p i :
  linked h pv (Some a) (r :: l) -> NoDup (map n_ptr (r :: l)) -> n_ptr r = a -> h !! p = None ->
  prev i = Some a ->
  (exists ir, h !! a = Some ir /\ next i = next ir) ->
  linked (alter (set_next (Some p)) a (<[p := i]> (relink_head h (next i) (Some p)))) pv (Some a)
    (r :: node_of p i :: l).
Proof.
  intros Hl Hnd Ha Hp Hpi (ir & Hir & Hni). pose proof Hl as (ir' & _ & Hr & Hrn & Hpr & Hl').
  apply NoDup_ptr_cons in Hnd as [Hra Hnd]. rewrite Ha in *. rewrite Hir in Hr. injection Hr as <-.
  rewrite <- Hni in Hl'. assert (p <> a) as Hpa by congruence.
  assert (p ∉ map n_ptr l) as Hpl.
  { rewrite list_elem_of_In, in_map_iff. intros (n & Hn & Hin%list_elem_of_In).
    destruct (linked_elem _ _ _ _ _ Hl' Hin) as (? & ? & _). congruence. }
  assert (forall q, next i = Some q -> q ∈ map n_ptr l) as Hnext by (intros q; by eapply linked_next).
  exists (set_next (Some p) ir). rewrite Ha, lookup_alter_eq, lookup_insert_ne by done.
  rewrite relink_head_ne by (intros Hq; by apply Hnext in Hq). rewrite Hir.
  repeat split; [exact Hrn|exact Hpr|]. exists i.
  rewrite lookup_alter_ne, lookup_insert_eq by done. repeat split; try done.
  eapply linked_ext, (linked_relink h (Some a) (Some p)); [|done|done].
  intros n Hn. assert (n_ptr n ∈ map n_ptr l) as Hin
    by apply list_elem_of_In, in_map, list_elem_of_In, Hn.
  rewrite lookup_alter_ne, lookup_insert_ne by congruence. done.
Qed.

(** The loop over the relevant nodes, on the list. *)
Definition applies (n : node T) (start_time transaction_id : Z) : bool :=
  (start_time <? n_version n) && negb (n_version n =? transaction_id).

Definition visit {R} (f : list (nat * T) -> R -> R) (s tid : Z) (l : list (node T)) (r : R) : R :=
  fold_left (fun r n => if applies n s tid then f (n_entries n) r else r) l r.

Lemma UpdatesForTransaction_visit {R} h a i l s tid (f : list (nat * T) -> R -> R) (r : R) :
  linked h (Some a) (next i) l -> NoDup (map n_ptr l) ->
  UpdatesForTransaction h i s tid (fun i r => f (entries i) r) r = visit f s tid (node_of a i :: l) r.
Proof.
  intros Hl Hnd. unfold UpdatesForTransaction, visit. simpl.
  rewrite <- (linked_chain h (Some a) (next i) l) by done.
  generalize (chain h (next i)) as c. intros c. change (AppliesToTransaction i s tid) with (applies (node_of a i) s tid).
  generalize (if applies (node_of a i) s tid then f (entries i) r else r) as r0.
  induction c as [|[b j] c IH]; intros r0; simpl; [done|]. apply IH.
Qed.
End linked.

(** ** Conflicts *)

Lemma find_conflict_spec ids tuples :
  StronglySorted lt ids -> StronglySorted lt tuples ->
  find_conflict ids tuples = true <-> exists r, r ∈ ids /\ r ∈ tuples.
Proof.
  revert tuples. induction ids as [|id ids IH]; intros tuples Hi Ht; simpl.
  { split; [done|]. intros (r & Hr & _). by apply not_elem_of_nil in Hr. }
  apply StronglySorted_inv in Hi as [Hi Hid]. rewrite Forall_forall in Hid.
  induction tuples as [|t tuples IHt].
  { split; [done|]. intros (r & _ & Hr). by apply not_elem_of_nil in Hr. }
  pose proof Ht as [Ht' Htt]%StronglySorted_inv. rewrite Forall_forall in Htt.
  destruct (Nat.eqb_spec id t) as [->|Hne].
  { split; [|done]. intros _. exists t. by split; apply elem_of_cons; left. }
  destruct (Nat.ltb_spec id t) as [Hlt|Hge].
  - rewrite (IH _ Hi Ht). split; intros (r & Hr & Hrt); exists r; (split; [|done]).
    + apply elem_of_cons. by right.
    + apply elem_of_cons in Hr as [->|Hr]; [|done]. exfalso.
      apply elem_of_cons in Hrt as [->|Hrt]; [done|]. specialize (Htt _ Hrt). lia.
  - rewrite (IHt Ht'). split; intros (r & Hr & Hrt); exists r; (split; [done|]).
    + apply elem_of_cons. by right.
    + apply elem_of_cons in Hrt as [->|Hrt]; [|done]. exfalso.
      apply elem_of_cons in Hr as [->|Hr]; [done|]. specialize (Hid _ Hr). lia.
Qed.

Section conflicts.
Context {T : Type}.
Implicit Types (l : list (node T)) (n : node T).

(** A node of another transaction, newer than the snapshot, that holds one of the rows. *)
Definition conflicts (x : TransactionData) (ids : list nat) n : Prop :=
  n_version n <> transaction_id x /\ start_time x < n_version n /\
  exists r, r ∈ ids /\ r ∈ (n_entries n).*1.

Definition own_node (x : TransactionData) l (ref : option nat) : option nat :=
  fold_left (fun ref n => if n_version n =? transaction_id x then Some (n_ptr n) else ref) l ref.

Lemma CheckForConflicts_spec (c : list (nat * UpdateInfo T)) x ids ref l :
  map (fun ai => node_of ai.1 ai.2) c = l -> StronglySorted lt ids ->
  Forall (fun n => sorted (n_entries n)) l ->
  (CheckForConflicts c x ids ref = Ok (own_node x l ref) /\ Forall (fun n => ~ conflicts x ids n) l) \/
  (CheckForConflicts c x ids ref = Throw TransactionException /\ Exists (conflicts x ids) l).
Proof.
  intros <- Hids. revert ref. induction c as [|[a i] c IH]; intros ref Hs; simpl in *.
  { left. by split. }
  apply Forall_cons_1 in Hs as [Hi Hs]. simpl in Hi.
  pose proof (find_conflict_spec ids (entries i).*1 Hids Hi) as Hc.
  destruct (Z.eqb_spec (version_number i) (transaction_id x)) as [Heq|Hne]; simpl.
  { destruct (IH (Some a) Hs) as [[H1 H2]|[H1 H2]]; [left|right]; (split; [done|]).
    - constructor; [|done]. intros (Hn & _). done.
    - by apply Exists_cons_tl. }
  destruct (Z.ltb_spec (start_time x) (version_number i)) as [Hlt|Hge]; simpl.
  - destruct (find_conflict ids (entries i).*1); simpl.
    + right. split; [done|]. apply Exists_cons_hd. split; [done|]. split; [done|]. by apply Hc.
    + destruct (IH ref Hs) as [[H1 H2]|[H1 H2]]; [left|right]; (split; [done|]).
      * constructor; [|done]. intros (_ & _ & Hr). by apply Hc in Hr.
      * by apply Exists_cons_tl.
  - destruct (IH ref Hs) as [[H1 H2]|[H1 H2]]; [left|right]; (split; [done|]).
    + constructor; [|done]. intros (_ & Hv & _). simpl in Hv. lia.
    + by apply Exists_cons_tl.
Qed.

Lemma own_node_none x l ref :
  Forall (fun n => n_version n <> transaction_id x) l -> own_node x l ref = ref.
Proof.
  unfold own_node. revert ref. induction l as [|n l IH]; intros ref Hl; simpl; [done|].
  apply Forall_cons_1 in Hl as [Hn Hl]. rewrite IH by done. by destruct (Z.eqb_spec (n_version n) (transaction_id x)).
Qed.

Lemma own_node_one x l1 n l2 ref :
  n_version n = transaction_id x ->
  Forall (fun n => n_version n <> transaction_id x) l2 -> own_node x (l1 ++ n :: l2) ref = Some (n_ptr n).
Proof.
  intros Hn H2. unfold own_node. rewrite fold_left_app. simpl. rewrite (proj2 (Z.eqb_eq _ _) Hn).
  by apply (own_node_none x l2).
Qed.
End conflicts.

(** ** The sorted selection *)

Section sorting.
Context (sort : (nat -> nat) -> list nat -> list nat).

(** What the code relies on from [std::sort]. *)
Definition sorts : Prop := forall ids sel,
  Permutation (sort ids sel) sel /\ StronglySorted (fun i j => (ids i <= ids j)%nat) (sort ids sel).

Lemma is_sorted_spec ids prev sel :
  is_sorted ids prev sel = true -> StronglySorted lt (map ids (prev :: sel)).
Proof.
  revert prev. induction sel as [|i sel IH]; intros prev Hs; simpl in *; [repeat constructor|].
  destruct (Nat.leb_spec (ids i) (ids prev)) as [|Hlt]; [done|]. specialize (IH i Hs).
  constructor; [done|]. constructor; [done|]. apply StronglySorted_inv in IH as [_ IH].
  eapply Forall_impl; [exact IH|]. simpl. lia.
Qed.

Lemma eliminate_spec ids prev sel :
  StronglySorted (fun i j => (ids i <= ids j)%nat) (prev :: sel) ->
  StronglySorted lt (map ids (eliminate_duplicates ids prev sel)) /\
  Forall (fun k => (ids prev < k)%nat) (map ids (eliminate_duplicates ids prev sel)) /\
  eliminate_duplicates ids prev sel ⊆ sel /\
  (forall i, i ∈ sel -> ids i <> ids prev ->
     exists j, j ∈ eliminate_duplicates ids prev sel /\ ids j = ids i).
Proof.
  revert prev. induction sel as [|x sel IH]; intros prev Hs; simpl.
  { repeat split; try constructor; [done|]. intros i Hi. by apply not_elem_of_nil in Hi. }
  apply StronglySorted_inv in Hs as [Hs Hp]. apply Forall_cons_1 in Hp as [Hpx Hp].
  destruct (IH x Hs) as (Hlt & Hall & Hsub & Hrep).
  destruct (Nat.eqb_spec (ids prev) (ids x)) as [Heq|Hne].
  - rewrite Heq. repeat split; [done|done| |].
    + intros i Hi. apply elem_of_cons. right. by apply Hsub.
    + intros i [->|Hi]%elem_of_cons Hne; [done|]. by apply Hrep.
  - simpl. split; [by constructor|]. split; [|split].
    + constructor; [lia|]. eapply Forall_impl; [exact Hall|]. simpl. lia.
    + intros i [->|Hi]%elem_of_cons; apply elem_of_cons; [by left|right; by apply Hsub].
    + intros i Hi Hn. destruct (decide (ids i = ids x)) as [Hix|Hix].
      * exists x. split; [by apply elem_of_cons; left|done].
      * apply elem_of_cons in Hi as [->|Hi]; [done|]. destruct (Hrep i Hi Hix) as (j & Hj & Hji).
        exists j. split; [by apply elem_of_cons; right|done].
Qed.

(** The row ids of the result increase strictly and are those of the selection. *)
Lemma SortSelectionVector_spec sel ids :
  sorts ->
  StronglySorted lt (map ids (SortSelectionVector sort sel ids)) /\
  SortSelectionVector sort sel ids ⊆ sel /\
  (forall i, i ∈ sel -> exists j, j ∈ SortSelectionVector sort sel ids /\ ids j = ids i).
Proof.
  intros Hsort. unfold SortSelectionVector. destruct sel as [|first rest].
  { repeat split; [constructor|done|]. intros i Hi. by apply not_elem_of_nil in Hi. }
  destruct (is_sorted ids first rest) eqn:E.
  { split; [by apply is_sorted_spec|]. split; [done|]. intros i Hi. by exists i. }
  destruct (Hsort ids (first :: rest)) as [Hp Hs].
  destruct (sort ids (first :: rest)) as [|x l]; [by apply Permutation_nil_cons in Hp|].
  destruct (eliminate_spec ids x l Hs) as (Hlt & Hall & Hsub & Hrep).
  split; [by constructor|]. split.
  - intros i [->|Hi]%elem_of_cons; rewrite <- Hp; apply elem_of_cons; [by left|right; by apply Hsub].
  - intros i Hi. rewrite <- Hp in Hi. destruct (decide (ids i = ids x)) as [Hix|Hix].
    + exists x. split; [by apply elem_of_cons; left|done].
    + apply elem_of_cons in Hi as [->|Hi]; [done|]. destruct (Hrep i Hi Hix) as (j & Hj & Hji).
      exists j. split; [by apply elem_of_cons; right|done].
Qed.
End sorting.

(** ** What a reader sees *)

Section values.
Context {T : Type}.
Implicit Types (l : list (node T)) (n : node T) (r : nat) (x : T).

(** What a node changes in the view of a transaction at a row, and the view of a whole chain. *)
Definition contrib (s tid : Z) r n : option T :=
  if applies n s tid then assoc (n_entries n) r else None.

Definition values l (s tid : Z) r x : T := fold_left (fun x n => default x (contrib s tid r n)) l x.

Lemma values_app l1 l2 s tid r x : values (l1 ++ l2) s tid r x = values l2 s tid r (values l1 s tid r x).
Proof. apply fold_left_app. Qed.

Lemma values_none l s tid r x : Forall (fun n => contrib s tid r n = None) l -> values l s tid r x = x.
Proof.
  unfold values. revert x. induction l as [|n l IH]; intros x Hl; simpl; [done|].
  apply Forall_cons_1 in Hl as [-> Hl]. by apply IH.
Qed.

Lemma values_ext l l' s s' tid tid' r x :
  Forall2 (fun n n' => contrib s tid r n = contrib s' tid' r n') l l' ->
  values l s tid r x = values l' s' tid' r x.
Proof.
  unfold values. intros Hl. revert x. induction Hl as [|n n' l l' Hn Hl IH]; intros x; simpl; [done|].
  by rewrite Hn.
Qed.

Definition good_entries (d : list (nat * T)) : Prop := sorted d /\ in_vector d.
End values.

Section fetch.
Context {T V S : Type} {F : UpdateFunctions T V S} (ok : V -> Prop) (size : V -> nat).
Context {L : UpdateLaws ok size}.
Implicit Types (l : list (node T)) (m : t (T := T) (S := S)).

Lemma visit_updated (g : list (nat * T) -> V -> V) (look : list (nat * T) -> nat -> option T) l s tid v :
  (forall d v', good_entries d -> ok v' -> size v' = size v ->
     updated extract ok size v' (g d v') (look d)) ->
  Forall (fun n => good_entries (n_entries n)) l -> ok v ->
  updated extract ok size v (visit g s tid l v)
    (fun j => Some (fold_left (fun x n => default x (if applies n s tid then look (n_entries n) j else None))
                 l (extract v j))).
Proof.
  intros Hg Hl Hv. unfold visit.
  assert (updated extract ok size v v (fun _ => None)) as H0 by done.
  assert (forall l v1 f, Forall (fun n => good_entries (n_entries n)) l -> updated extract ok size v v1 f ->
    updated extract ok size v
      (fold_left (fun r n => if applies n s tid then g (n_entries n) r else r) l v1)
      (fun j => Some (fold_left (fun x n => default x (if applies n s tid then look (n_entries n) j else None))
                   l (default (extract v j) (f j))))) as H; [|by apply (H l v (fun _ => None))].
  clear l Hl. induction l as [|n l IH]; intros v1 f Hl (Hok & Hsz & Hf); simpl; [done|].
  apply Forall_cons_1 in Hl as [Hn Hl]. destruct (applies n s tid); [|by apply IH].
  destruct (Hg (n_entries n) v1 Hn Hok Hsz) as (Hok' & Hsz' & Hf').
  specialize (IH (g (n_entries n) v1)
    (fun j => Some (default (default (extract v j) (f j)) (look (n_entries n) j))) Hl).
  apply IH. split; [done|]. split; [by rewrite Hsz'|]. intros j Hj. simpl.
  rewrite Hf' by (by rewrite Hsz). by rewrite Hf.
Qed.

(** The base node has the version of a change no reader has in its snapshot. *)
Definition base_node (a : nat) (R : list (nat * T)) : node T := mkNode a (TRANSACTION_ID_START - 1) R.

(** The chain of vector [v] in the heap, entered at [a]: the entries of its base info and the
    nodes of the transactions. *)
Definition vec (h : gmap nat (UpdateInfo T)) (a : nat) : option nat := vector_index <$> h !! a.

Record heap_repr (h : gmap nat (UpdateInfo T)) (v a : nat) (R : list (nat * T)) l : Prop := {
  repr_linked : linked h None (Some a) (base_node a R :: l);
  repr_nodup : NoDup (map n_ptr (base_node a R :: l));
  repr_vector : Forall (fun n => vec h (n_ptr n) = Some v) l
}.

(** Both are empty as long as there is no chain. *)
Definition repr m (v : nat) (R : list (nat * T)) l : Prop :=
  match GetUpdateNode m v with
  | None => R = [] /\ l = []
  | Some a => heap_repr (heap m) v a R l
  end.

Definition snapshot_ids (x : TransactionData) : Prop :=
  start_time x < TRANSACTION_ID_START - 1 /\ TRANSACTION_ID_START <= transaction_id x.

Lemma repr_visit m v R l x (g : list (nat * T) -> V -> V) res :
  repr m v R l -> snapshot_ids x ->
  match base_info m v with
  | None => R = [] /\ l = []
  | Some info => UpdatesForTransaction (heap m) info (start_time x) (transaction_id x)
                   (fun current r => g (entries current) r) res
                 = visit g (start_time x) (transaction_id x) l (g R res) /\ entries info = R
  end.
Proof.
  unfold repr, base_info. destruct (GetUpdateNode m v) as [a|]; [|done]. intros [Hl Hnd _] [Hs Hi].
  destruct Hl as (i & _ & Hh & Hn & _ & Hl). simpl in *. rewrite Hh. apply NoDup_cons in Hnd as [_ Hnd].
  rewrite (UpdatesForTransaction_visit (heap m) a i l) by done. rewrite Hn. unfold visit. simpl.
  assert (applies (base_node a R) (start_time x) (transaction_id x) = true) as ->.
  { unfold applies. apply andb_true_iff. split; [by apply Z.ltb_lt|].
    apply negb_true_iff, Z.eqb_neq. simpl. lia. }
  split; [done|]. injection Hn as _ Hn. done.
Qed.

Lemma FetchUpdates_values m v R l x res :
  repr m v R l -> snapshot_ids x -> good_entries R -> Forall (fun n => good_entries (n_entries n)) l ->
  ok res -> (STANDARD_VECTOR_SIZE <= size res)%nat ->
  updated extract ok size res (FetchUpdates m x v res)
    (fun j => Some (values l (start_time x) (transaction_id x) j (default (extract res j) (assoc R j)))).
Proof.
  intros Hr Hx HR Hl Hok Hsz. unfold FetchUpdates.
  pose proof (repr_visit m v R l x merge_info res Hr Hx) as Hv.
  destruct (base_info m v) as [info|]; [|by destruct Hv as [-> ->]]. destruct Hv as [-> _].
  destruct (merge_info_spec R res Hok (proj1 HR) (proj2 HR) Hsz) as (Hok1 & Hsz1 & Hf1).
  destruct (visit_updated merge_info assoc l (start_time x) (transaction_id x) (merge_info R res))
    as (Hok2 & Hsz2 & Hf2); [|done|done|].
  { intros d v' [Hd Hdv] Hv' Hs'. apply merge_info_spec; try done. by rewrite Hs', Hsz1. }
  split; [done|]. split; [by rewrite Hsz2|]. intros j Hj. rewrite Hf2 by (by rewrite Hsz1).
  simpl. by rewrite Hf1.
Qed.

Lemma fetch_row_updated row result_idx d res :
  good_entries d -> ok res -> (result_idx < size res)%nat ->
  updated extract ok size res (fetch_row put d row result_idx res)
    (fun j => if decide (j = result_idx) then assoc d row else None).
Proof.
  intros [Hd _] Hok Hr. apply fetch_row_spec; try done.
  - intros. by apply put_ok.
  - intros. by apply extract_put.
Qed.

Lemma FetchRow_values m row_id R l x res result_idx :
  repr m (vector_of m row_id) R l -> snapshot_ids x -> good_entries R ->
  Forall (fun n => good_entries (n_entries n)) l -> ok res -> (result_idx < size res)%nat ->
  extract (FetchRow m x row_id res result_idx) result_idx
  = values l (start_time x) (transaction_id x) ((row_id - start m) mod STANDARD_VECTOR_SIZE)
      (default (extract res result_idx) (assoc R ((row_id - start m) mod STANDARD_VECTOR_SIZE))).
Proof.
  intros Hr Hx HR Hl Hok Hsz. unfold FetchRow. fold (vector_of m row_id).
  set (row := (row_id - start m - vector_of m row_id * STANDARD_VECTOR_SIZE)%nat).
  assert (((row_id - start m) mod STANDARD_VECTOR_SIZE)%nat = row) as ->.
  { unfold row, vector_of. pose proof (Nat.div_mod_eq (row_id - start m) STANDARD_VECTOR_SIZE). lia. }
  pose proof (repr_visit m _ R l x (fun d r => fetch_row put d row result_idx r) res Hr Hx) as Hv.
  destruct (base_info m (vector_of m row_id)) as [info|]; [|by destruct Hv as [-> ->]].
  destruct Hv as [-> _].
  destruct (fetch_row_updated row result_idx R res HR Hok Hsz) as (Hok1 & Hsz1 & Hf1).
  destruct (visit_updated (fun d r => fetch_row put d row result_idx r)
    (fun d j => if decide (j = result_idx) then assoc d row else None) l (start_time x) (transaction_id x)
    (fetch_row put R row result_idx res)) as (Hok2 & Hsz2 & Hf2); [|done|done|].
  { intros d v' Hd Hv' Hs'. apply fetch_row_updated; try done. by rewrite Hs', Hsz1. }
  rewrite Hf2 by (by rewrite Hsz1). simpl. rewrite Hf1 by done. unfold values, contrib.
  by destruct (decide (result_idx = result_idx)).
Qed.

(** *** Scans of the newest values *)

(** The newest value recorded for a row of the column. *)
Definition newest m (row : nat) : option T :=
  base_info m (row / STANDARD_VECTOR_SIZE) ≫= fun i => assoc (entries i) (row mod STANDARD_VECTOR_SIZE)%nat.

Definition bases_good m : Prop := forall k i, base_info m k = Some i -> good_entries (entries i).

Lemma FetchCommitted_updated m k res :
  bases_good m -> ok res -> (STANDARD_VECTOR_SIZE <= size res)%nat ->
  updated extract ok size res (FetchCommitted m k res) (fun j => base_info m k ≫= fun i => assoc (entries i) j).
Proof.
  intros Hg Hok Hsz. unfold FetchCommitted. destruct (base_info m k) as [i|] eqn:E; [|done].
  apply merge_info_spec; try done; apply (Hg k i E).
Qed.

Lemma SVS_div_mod n : exists q r, (n / STANDARD_VECTOR_SIZE)%nat = q /\ (n mod STANDARD_VECTOR_SIZE)%nat = r /\
  Z.of_nat n = 2048 * Z.of_nat q + Z.of_nat r /\ Z.of_nat r < 2048.
Proof.
  exists (n / STANDARD_VECTOR_SIZE)%nat, (n mod STANDARD_VECTOR_SIZE)%nat. split; [done|]. split; [done|].
  pose proof (Nat.div_mod_eq n STANDARD_VECTOR_SIZE) as H. pose proof SVS_pos.
  pose proof (Nat.mod_upper_bound n STANDARD_VECTOR_SIZE) as Hr. pose proof SVS_eq as HS.
  split; [|lia]. rewrite H at 1. rewrite Nat2Z.inj_add, Nat2Z.inj_mul, HS. done.
Qed.

Lemma SVS_mul n : Z.of_nat (n * STANDARD_VECTOR_SIZE) = 2048 * Z.of_nat n.
Proof. rewrite Nat2Z.inj_mul, SVS_eq. lia. Qed.

(** The rows of vector [k] among those of the range. *)
Lemma range_window k start_row count j :
  let sv := (start_row / STANDARD_VECTOR_SIZE)%nat in
  let ev := ((start_row + count - 1) / STANDARD_VECTOR_SIZE)%nat in
  let s := if (k =? sv)%nat then (start_row - sv * STANDARD_VECTOR_SIZE)%nat else 0%nat in
  let e := if (k =? ev)%nat then (start_row + count - ev * STANDARD_VECTOR_SIZE)%nat else STANDARD_VECTOR_SIZE in
  let off := (k * STANDARD_VECTOR_SIZE + s - start_row)%nat in
  (0 < count)%nat -> (sv <= k <= ev)%nat ->
  (s <= e)%nat /\ (off + (e - s) <= count)%nat /\
  ((off <= j < off + (e - s))%nat <-> (j < count)%nat /\ ((start_row + j) / STANDARD_VECTOR_SIZE)%nat = k) /\
  ((off <= j < off + (e - s))%nat -> (j - off + s)%nat = ((start_row + j) mod STANDARD_VECTOR_SIZE)%nat).
Proof.
  cbv zeta. intros Hc Hk.
  destruct (SVS_div_mod start_row) as (q1 & r1 & -> & _ & H1 & H1').
  destruct (SVS_div_mod (start_row + count - 1)) as (q2 & r2 & -> & _ & H2 & H2').
  destruct (SVS_div_mod (start_row + j)) as (q3 & r3 & -> & -> & H3 & H3').
  pose proof (SVS_mul q1) as Hm1. pose proof (SVS_mul q2) as Hm2. pose proof (SVS_mul k) as Hmk.
  pose proof SVS_eq as HS.
  assert (exists s, (if (k =? q1)%nat then (start_row - q1 * STANDARD_VECTOR_SIZE)%nat else 0%nat) = s /\
    ((k = q1 /\ s = r1) \/ (q1 < k /\ s = 0)%nat)) as (s & -> & Hs).
  { eexists. split; [done|]. destruct (Nat.eqb_spec k q1); [left|right]; (split; [lia|]); [|done].
    clear - Hm1 H1 e. lia. }
  assert (exists e, (if (k =? q2)%nat then (start_row + count - q2 * STANDARD_VECTOR_SIZE)%nat
    else STANDARD_VECTOR_SIZE) = e /\
    ((k = q2 /\ e = (r2 + 1)%nat) \/ (k < q2)%nat /\ Z.of_nat e = 2048)) as (e & -> & He).
  { eexists. split; [done|]. destruct (Nat.eqb_spec k q2); [left|right]; (split; [lia|]); [|done].
    clear - Hm2 H2 Hc e. lia. }
  assert (exists off, (k * STANDARD_VECTOR_SIZE + s - start_row)%nat = off /\
    Z.of_nat off = 2048 * Z.of_nat k + Z.of_nat s - Z.of_nat start_row) as (off & -> & Hoff).
  { eexists. split; [done|]. clear - Hmk H1 H1' Hs. lia. }
  clear Hm1 Hm2 Hmk HS. destruct Hk as [Hk1 Hk2].
  assert (Z.of_nat start_row + Z.of_nat j = 2048 * Z.of_nat q3 + Z.of_nat r3) as H3z by (clear - H3; lia).
  assert (Z.of_nat start_row + Z.of_nat count - 1 = 2048 * Z.of_nat q2 + Z.of_nat r2) as H2z by (clear - H2 Hc; lia).
  clear H2 H3. assert (s <= e)%nat as Hse by lia.
  assert (Z.of_nat (e - s) = Z.of_nat e - Z.of_nat s) as Hd by (clear - Hse; lia).
  generalize dependent (e - s)%nat. intros d Hd. split; [done|]. split; [lia|].
  split; [split|].
  - intros [Hlo Hhi]. split; lia.
  - intros [Hj ->]. lia.
  - intros [Hlo Hhi]. lia.
Qed.

Lemma FetchCommittedRange_updated m start_row count res :
  bases_good m -> ok res -> (0 < count <= size res)%nat ->
  updated extract ok size res (FetchCommittedRange m start_row count res)
    (fun j => if decide (j < count)%nat then newest m (start_row + j) else None).
Proof.
  intros Hg Hok Hc. unfold FetchCommittedRange. cbv zeta.
  set (sv := (start_row / STANDARD_VECTOR_SIZE)%nat).
  set (ev := ((start_row + count - 1) / STANDARD_VECTOR_SIZE)%nat).
  set (body := fun (result : V) (k : nat) => _).
  assert (forall n, (sv + n <= ev + 1)%nat ->
    updated extract ok size res (fold_left body (seq sv n) res)
      (fun j => if decide (j < count /\ (start_row + j) / STANDARD_VECTOR_SIZE < sv + n)%nat
                then newest m (start_row + j) else None)) as Hfold.
  { induction n as [|n IH]; intros Hn.
    - split; [done|]. split; [done|]. intros j Hj. rewrite decide_False; [done|].
      pose proof (Nat.Div0.div_le_mono start_row (start_row + j) STANDARD_VECTOR_SIZE). unfold sv. lia.
    - destruct IH as (Hok1 & Hsz1 & Hf1); [lia|]. rewrite seq_S, fold_left_app. simpl.
      set (res1 := fold_left body (seq sv n) res) in *. unfold body at 1.
      destruct (base_info m (sv + n)) as [i|] eqn:Ei.
      + pose proof (range_window (sv + n) start_row count) as Hw. cbv zeta in Hw. fold sv ev in Hw.
        destruct (Hw 0%nat) as (Hse & Hoff & _); [lia|lia|].
        edestruct (merge_range_spec extract put ok size) as (Hok2 & Hsz2 & Hf2);
          [intros; by apply put_ok|intros; by apply extract_put|exact Hok1|apply (Hg _ i Ei)|exact Hse| |].
        { rewrite Hsz1. etransitivity; [exact Hoff|lia]. }
        split; [exact Hok2|]. split; [by rewrite Hsz2|]. intros j Hj. rewrite Hf2 by (by rewrite Hsz1).
        rewrite Hf1 by done. destruct (Hw j) as (_ & _ & Hiff & Hrow); [lia|lia|].
        unfold newest. set (q := ((start_row + j) / STANDARD_VECTOR_SIZE)%nat) in *.
        destruct (decide (j < count /\ q < sv + n)%nat) as [Hy|Hy].
        * rewrite (decide_True (P := (_ /\ _ < sv + Datatypes.S n)%nat)) by (clear - Hy; lia).
          rewrite decide_False by (rewrite Hiff; clear - Hy; lia). done.
        * simpl. case_decide as Hd.
          { rewrite Hrow by done. apply Hiff in Hd as [Hjc Hdiv].
            rewrite decide_True by (clear - Hjc Hdiv; lia). by rewrite Hdiv, Ei. }
          rewrite decide_False; [done|]. intros [Hjc Hlt]. apply Hd, Hiff.
          split; [done|]. clear - Hy Hjc Hlt. lia.
      + split; [done|]. split; [done|]. intros j Hj. rewrite Hf1 by done.
        destruct (decide (j < count /\ (start_row + j) / STANDARD_VECTOR_SIZE < sv + n)%nat) as [Hy|Hy];
          [by rewrite decide_True by lia|]. simpl. case_decide as Hd; [|done].
        assert ((start_row + j) / STANDARD_VECTOR_SIZE = sv + n)%nat as Hdiv by lia.
        unfold newest. by rewrite Hdiv, Ei. }
  assert (sv <= ev)%nat by (apply Nat.Div0.div_le_mono; lia).
  destruct (Hfold (ev + 1 - sv)%nat) as (Hok1 & Hsz1 & Hf1); [lia|].
  split; [done|]. split; [done|]. intros j Hj. rewrite Hf1 by done.
  destruct (decide (j < count)%nat) as [Hjc|Hjc]; [|by rewrite decide_False by lia].
  rewrite decide_True; [done|]. split; [done|].
  pose proof (Nat.Div0.div_le_mono (start_row + j) (start_row + count - 1) STANDARD_VECTOR_SIZE). unfold ev. lia.
Qed.

(** Scanning a range of rows for their newest values gives the same as scanning the vectors
    one by one: a row of the range that falls on row [r] of vector [k] gets what
    [FetchCommitted] gives at row [r] of vector [k], if both results start from the same value. *)
Lemma fetch_range_agrees m start_row count res vres j :
  bases_good m -> ok res -> ok vres -> (0 < count <= size res)%nat ->
  (STANDARD_VECTOR_SIZE <= size vres)%nat -> (j < count)%nat ->
  extract res j = extract vres ((start_row + j) mod STANDARD_VECTOR_SIZE)%nat ->
  extract (FetchCommittedRange m start_row count res) j
  = extract (FetchCommitted m ((start_row + j) / STANDARD_VECTOR_SIZE) vres)
      ((start_row + j) mod STANDARD_VECTOR_SIZE)%nat.
Proof.
  intros Hg Hok Hokv Hc Hszv Hj Heq. pose proof SVS_pos.
  destruct (FetchCommittedRange_updated m start_row count res Hg Hok Hc) as (_ & _ & Hf).
  destruct (FetchCommitted_updated m ((start_row + j) / STANDARD_VECTOR_SIZE) vres Hg Hokv Hszv) as (_ & _ & Hfv).
  pose proof (Nat.mod_upper_bound (start_row + j) STANDARD_VECTOR_SIZE).
  rewrite Hf, Hfv, decide_True, Heq by lia. done.
Qed.
End fetch.

(** ** What an update does to the chain *)

Lemma StronglySorted_filter {A} (f : A -> nat) (P : A -> bool) (l : list A) :
  StronglySorted lt (map f l) -> StronglySorted lt (map f (List.filter P l)).
Proof.
  induction l as [|x l IH]; intros Hl; simpl in *; [done|]. apply StronglySorted_inv in Hl as [Hl Hx].
  destruct (P x); [|by apply IH]. simpl. constructor; [by apply IH|].
  rewrite Forall_forall in Hx |- *. intros y. rewrite list_elem_of_In, in_map_iff.
  intros (z & <- & Hz). apply filter_In in Hz as [Hz _]. apply Hx, list_elem_of_In, in_map, Hz.
Qed.

Section update.
Context {T V S : Type} {F : UpdateFunctions T V S} (ok : V -> Prop) (size : V -> nat).
Context {L : UpdateLaws ok size} (sort : (nat -> nat) -> list nat -> list nat) (Hsort : sorts sort).
Implicit Types (l : list (node T)) (m : t (T := T) (S := S)) (h : gmap nat (UpdateInfo T)).

Lemma InitializeRoot_node m v w : GetUpdateNode (InitializeRoot m v) w = GetUpdateNode m w.
Proof.
  unfold GetUpdateNode, InitializeRoot. simpl. destruct (root m) as [info|]; simpl.
  - destruct (Nat.lt_ge_cases w (length info)) as [Hw|Hw].
    + by rewrite lookup_app_l.
    + rewrite lookup_app_r by done. rewrite (lookup_ge_None_2 info w) by done.
      destruct (replicate _ None !! _) eqn:E; [|done]. apply lookup_replicate in E as [-> _]. done.
  - destruct (replicate _ None !! w) eqn:E; [|done]. apply lookup_replicate in E as [-> _]. done.
Qed.

Lemma InitializeRoot_insert m v a :
  match root (InitializeRoot m v) with Some info => <[v := Some a]> info !! v = Some (Some a) | None => False end.
Proof.
  simpl. apply list_lookup_insert_eq. rewrite length_app, length_replicate. lia.
Qed.

(** The entries an update brings: the rows it changes with their new values. *)
Definition first_row_id (sel ids : list nat) : nat :=
  ids !!! (SortSelectionVector sort sel (fun idx => ids !!! idx) !!! 0%nat).

Definition written m (update : UnifiedVectorFormat V) (ids : list nat) (count : nat) (base_data : V)
    : list (nat * T) :=
  let sel := (update_statistics (stats m) update count).2 in
  new_entries (fun idx => extract (uvec update) (usel update idx))
    (row_list ids (update_selection sort m update ids sel base_data)
       (vector_offset m (vector_of m (first_row_id sel ids)))).

(** The caller passes rows of one vector. *)
Definition rows_of m (v : nat) (ids : list nat) (count : nat) : Prop :=
  forall idx, (idx < count)%nat -> (start m <= ids !!! idx)%nat /\ vector_of m (ids !!! idx) = v.

Lemma selection_spec m update ids count base_data :
  let sel := update_selection sort m update ids (update_statistics (stats m) update count).2 base_data in
  StronglySorted lt (map (fun idx => ids !!! idx) sel) /\ Forall (fun idx => (idx < count)%nat) sel.
Proof.
  cbv zeta. rewrite statistics_sel. set (sel0 := List.filter _ _).
  assert (Forall (fun idx => (idx < count)%nat) sel0) as H0.
  { apply Forall_forall. intros idx. rewrite list_elem_of_In. unfold sel0. rewrite filter_In, in_seq. lia. }
  unfold update_selection.
  destruct (SortSelectionVector_spec sort sel0 (fun idx => ids !!! idx) Hsort) as (Hlt & Hsub & _).
  set (sel1 := SortSelectionVector sort sel0 _) in *.
  assert (Forall (fun idx => (idx < count)%nat) sel1) as H1.
  { rewrite Forall_forall in H0 |- *. intros idx Hi. by apply H0, Hsub. }
  destruct (GetUpdateNode m _) as [a|]; [done|].
  destruct (effective_sel update ids sel1 base_data
    (vector_offset m (vector_of m (ids !!! (sel1 !!! 0%nat))))) as (keep & -> & _).
  split; [by apply StronglySorted_filter|]. apply Forall_forall. intros idx.
  rewrite list_elem_of_In, filter_In, <- list_elem_of_In. intros [Hi _].
  rewrite Forall_forall in H1. by apply H1.
Qed.

Lemma row_list_rows ids sel off : (row_list ids sel off).*1 = map (fun idx => (ids !!! idx - off)%nat) sel.
Proof. unfold row_list. induction sel as [|i sel IH]; [done|]. cbn. f_equal. exact IH. Qed.

Lemma row_list_good m v ids sel count :
  rows_of m v ids count -> Forall (fun idx => (idx < count)%nat) sel ->
  StronglySorted lt (map (fun idx => ids !!! idx) sel) ->
  StronglySorted lt (row_list ids sel (vector_offset m v)).*1 /\
  Forall (fun r => (r < STANDARD_VECTOR_SIZE)%nat) (row_list ids sel (vector_offset m v)).*1.
Proof.
  intros Hrows Hsel Hlt. rewrite row_list_rows. pose proof SVS_pos.
  assert (forall idx, (idx < count)%nat -> (vector_offset m v <= ids !!! idx < vector_offset m v + STANDARD_VECTOR_SIZE)%nat) as Hb.
  { intros idx Hi. destruct (Hrows idx Hi) as [Hs Hv]. unfold vector_of in Hv. unfold vector_offset.
    pose proof (Nat.div_mod_eq (ids !!! idx - start m) STANDARD_VECTOR_SIZE).
    pose proof (Nat.mod_upper_bound (ids !!! idx - start m) STANDARD_VECTOR_SIZE). nia. }
  split.
  - induction sel as [|i sel IH]; simpl in *; [constructor|]. apply Forall_cons_1 in Hsel as [Hi Hsel].
    apply StronglySorted_inv in Hlt as [Hlt Hx]. constructor; [by apply IH|].
    rewrite Forall_forall in Hx, Hsel |- *. intros r. rewrite list_elem_of_In, in_map_iff.
    intros (j & <- & Hj%list_elem_of_In). specialize (Hsel j Hj). pose proof (Hb i Hi). pose proof (Hb j Hsel).
    assert (ids !!! i < ids !!! j)%nat; [|lia]. apply Hx, list_elem_of_In.
    apply (in_map (fun idx => ids !!! idx)), list_elem_of_In, Hj.
  - apply Forall_forall. intros r. rewrite list_elem_of_In, in_map_iff. intros (j & <- & Hj%list_elem_of_In).
    rewrite Forall_forall in Hsel. pose proof (Hb j (Hsel j Hj)). lia.
Qed.

(** New base entries [R'] and node entries [es] for the entries [w] of an update. *)
Definition merged (base_data : V) (w R R' old es : list (nat * T)) : Prop :=
  good_entries R' /\ good_entries es /\ (forall r, assoc R' r = override w R r) /\
  exists o, (forall r, row_valid base_data r = true -> o r = default (extract base_data r) (assoc R r)) /\
    forall r, assoc es r = match assoc old r with
                           | Some v => Some v
                           | None => if decide (r ∈ w.*1) then Some (o r) else None
                           end.

Lemma good_rows (d : list (nat * T)) :
  sorted d -> (forall r v, assoc d r = Some v -> (r < STANDARD_VECTOR_SIZE)%nat) -> good_entries d.
Proof. intros Hs Hd. split; [done|]. by apply Forall_rows. Qed.

Lemma good_assoc (d : list (nat * T)) r v : good_entries d -> assoc d r = Some v -> (r < STANDARD_VECTOR_SIZE)%nat.
Proof. intros [_ Hd] Hr. unfold in_vector in Hd. rewrite Forall_forall in Hd. by eapply Hd, assoc_elem. Qed.

Lemma merge_update_merged update base_data (a : list (nat * nat)) base nd es R' :
  StronglySorted lt a.*1 -> Forall (fun r => (r < STANDARD_VECTOR_SIZE)%nat) a.*1 ->
  good_entries (entries base) -> good_entries (entries nd) ->
  merge_update update base_data a base nd = (es, R') ->
  merged base_data (new_entries (fun idx => extract (uvec update) (usel update idx)) a)
    (entries base) R' (entries nd) es.
Proof.
  intros Ha Hrows Hb Hn [= <- <-]. set (f := fun idx => extract (uvec update) (usel update idx)).
  destruct (MergeLoop_spec f a (entries base) Ha (proj1 Hb)) as [HsR HR].
  destruct (old_values_spec (extract base_data) a.*1 (entries nd) (entries base) Ha (proj1 Hn) (proj1 Hb))
    as [Hse He].
  assert (forall r, r ∈ a.*1 -> (r < STANDARD_VECTOR_SIZE)%nat) as Hin by by apply Forall_forall.
  split; [|split; [|split; [done|]]].
  - apply good_rows; [done|]. intros r v. rewrite HR. unfold override.
    destruct (assoc (new_entries f a) r) eqn:E.
    + intros _. apply assoc_elem in E. rewrite new_entries_rows in E. by apply Hin.
    + by apply good_assoc.
  - apply good_rows; [done|]. intros r v. rewrite He. unfold old_value.
    destruct (assoc (entries nd) r) eqn:E; [intros _; by eapply good_assoc|].
    case_decide; [|done]. intros _. by apply Hin.
  - exists (fun r => default (extract base_data r) (assoc (entries base) r)). split; [done|].
    intros r. rewrite He, new_entries_rows. done.
Qed.

Lemma heap_repr_base h v a R l :
  heap_repr h v a R l -> exists i, h !! a = Some i /\ node_of a i = base_node a R /\
    linked h (Some a) (next i) l /\ NoDup (map n_ptr l).
Proof.
  intros [(i & _ & Hi & Hn & _ & Hl) Hnd _]. apply NoDup_ptr_cons in Hnd as [_ Hnd]. by exists i.
Qed.

Lemma node_ptr_ne (a : nat) (R : list (nat * T)) l n :
  NoDup (map n_ptr (base_node a R :: l)) -> n ∈ l -> n_ptr n <> a.
Proof.
  intros [Ha _]%NoDup_ptr_cons Hn <-. apply Ha. simpl. apply list_elem_of_In, in_map, list_elem_of_In, Hn.
Qed.

Lemma vec_alter h f a b :
  (forall i : UpdateInfo T, vector_index (f i) = vector_index i) -> vec (alter f a h) b = vec h b.
Proof.
  intros Hf. unfold vec. destruct (decide (a = b)) as [<-|Hne].
  - rewrite lookup_alter_eq. destruct (h !! a); simpl; [by rewrite Hf|done].
  - by rewrite lookup_alter_ne.
Qed.

Lemma vec_relink h p pv b : vec (relink_head h p pv) b = vec h b.
Proof. destruct p; simpl; [by apply vec_alter|done]. Qed.

Lemma vec_Forall h h' v l :
  (forall n, n ∈ l -> vec h' (n_ptr n) = vec h (n_ptr n)) ->
  Forall (fun n => vec h (n_ptr n) = Some v) l -> Forall (fun n => vec h' (n_ptr n) = Some v) l.
Proof. intros Heq Hl. rewrite Forall_forall in Hl |- *. intros n Hn. rewrite Heq by done. by apply Hl. Qed.

Lemma heap_repr_set_base h v a R R' l :
  heap_repr h v a R l -> heap_repr (alter (set_entries R') a h) v a R' l.
Proof.
  intros [Hl Hnd Hv]. apply (linked_alter h (set_entries R') (with_entries R') a) in Hl; [|done|done].
  pose proof (map_at_node a (with_entries R') [] (base_node a R) l eq_refl Hnd) as Hm.
  simpl app in Hm. rewrite Hm in Hl. split; [done|done|].
  eapply vec_Forall; [|exact Hv]. intros. by apply vec_alter.
Qed.

(** Changing the contents of a node. *)
Lemma heap_repr_alter h f g v a R l1 n l2 :
  (forall i, prev (f i) = prev i /\ next (f i) = next i /\ vector_index (f i) = vector_index i) ->
  (forall b i, node_of b (f i) = g (node_of b i)) -> (forall n, n_ptr (g n) = n_ptr n) ->
  heap_repr h v a R (l1 ++ n :: l2) ->
  heap_repr (alter f (n_ptr n) h) v a R (l1 ++ g n :: l2).
Proof.
  intros Hf Hg Hp [Hl Hnd Hv]. apply (linked_alter h f g (n_ptr n)) in Hl;
    [|intros i; split; apply Hf|intros i; apply Hg].
  pose proof (map_at_node (n_ptr n) g (base_node a R :: l1) n l2 eq_refl Hnd) as Hm.
  simpl app in Hm. rewrite Hm in Hl.
  split; [done| |].
  - simpl in *. rewrite map_app in Hnd |- *. simpl in *. by rewrite Hp.
  - rewrite Forall_app, Forall_cons in Hv |- *. rewrite Hp.
    destruct Hv as (H1 & Hn & H2). rewrite vec_alter by (intros; apply Hf).
    split; [|split]; [|done|]; (eapply vec_Forall; [|done]; intros; apply vec_alter; intros; apply Hf).
Qed.

Lemma heap_repr_set_node h v a R l1 n l2 es :
  heap_repr h v a R (l1 ++ n :: l2) ->
  heap_repr (alter (set_entries es) (n_ptr n) h) v a R (l1 ++ with_entries es n :: l2).
Proof. by apply heap_repr_alter. Qed.

Lemma heap_repr_set_version h v a R l1 n l2 ver :
  heap_repr h v a R (l1 ++ n :: l2) ->
  heap_repr (alter (set_version ver) (n_ptr n) h) v a R (l1 ++ with_version ver n :: l2).
Proof. by apply heap_repr_alter. Qed.

Lemma heap_repr_fresh h v a R l p : heap_repr h v a R l -> h !! p = None -> p ∉ map n_ptr (base_node a R :: l).
Proof.
  intros [Hl _ _] Hp. rewrite list_elem_of_In, in_map_iff. intros (n & Hn & Hin%list_elem_of_In).
  destruct (linked_elem _ _ _ _ n Hl Hin) as (j & Hj & _). congruence.
Qed.

Lemma heap_repr_insert h v a R R' l p (i : UpdateInfo T) ib :
  heap_repr h v a R l -> h !! p = None -> h !! a = Some ib -> prev i = Some a -> next i = next ib ->
  vector_index i = v ->
  heap_repr (alter (fun b => set_next (Some p) (set_entries R' b)) a
               (<[p := i]> (relink_head h (next i) (Some p)))) v a R' (node_of p i :: l).
Proof.
  intros Hr Hp Ha Hpi Hni Hvi. pose proof (heap_repr_fresh _ _ _ _ _ p Hr Hp) as Hfresh.
  simpl in Hfresh. rewrite not_elem_of_cons in Hfresh. destruct Hfresh as [Hpa Hpl].
  destruct Hr as [Hl Hnd Hv].
  enough (heap_repr (alter (set_entries R') a (alter (set_next (Some p)) a
            (<[p := i]> (relink_head h (next i) (Some p))))) v a R' (node_of p i :: l)) as He
    by (rewrite alter_alter_eq in He; exact He).
  apply heap_repr_set_base with R. split.
  - apply linked_insert; try done. by exists ib.
  - simpl in Hnd |- *. apply NoDup_cons in Hnd as [Hal Hnd]. apply NoDup_cons. split.
    + rewrite not_elem_of_cons. split; [|done]. congruence.
    + by apply NoDup_cons.
  - constructor.
    + rewrite vec_alter by done. unfold vec. simpl. rewrite lookup_insert_eq. simpl. by rewrite Hvi.
    + eapply vec_Forall; [|exact Hv]. intros n Hn. rewrite vec_alter by done. unfold vec.
      rewrite lookup_insert_ne; [apply vec_relink|]. intros ->. apply Hpl, list_elem_of_In, in_map, list_elem_of_In, Hn.
Qed.

(** *** The branches of [Update] *)

Lemma UpdateExisting_outcome m x col v u B (a : list (nat * nat)) p R l :
  heap_repr (heap m) v p R l -> good_entries R -> Forall (fun n => good_entries (n_entries n)) l ->
  StronglySorted lt a.*1 -> Forall (fun r => (r < STANDARD_VECTOR_SIZE)%nat) a.*1 ->
  has_transaction x = true ->
  Forall (fun n => n_version n <> transaction_id x) l \/
  (exists l1 n l2, l = l1 ++ n :: l2 /\ n_version n = transaction_id x /\
     Forall (fun n => n_version n <> transaction_id x) l2) ->
  let w := new_entries (fun idx => extract (uvec u) (usel u idx)) a in
  (Exists (conflicts x w.*1) l /\ UpdateExisting m x col v u B a p = (m, Throw TransactionException)) \/
  (Forall (fun n => ~ conflicts x w.*1 n) l /\
   ((exists l1 n l2 h' R' es, l = l1 ++ n :: l2 /\ n_version n = transaction_id x /\
       UpdateExisting m x col v u B a p = (with_heap m h', Ok None) /\
       merged B w R R' (n_entries n) es /\ heap_repr h' v p R' (l1 ++ with_entries es n :: l2)) \/
    (exists q h' R' es, Forall (fun n => n_version n <> transaction_id x) l /\
       UpdateExisting m x col v u B a p = (with_heap m h', Ok (Some q)) /\ heap m !! q = None /\
       merged B w R R' [] es /\ heap_repr h' v p R' (mkNode q (transaction_id x) es :: l)))).
Proof.
  intros Hr HR Hl Ha Hrows Hx Hown w. destruct (heap_repr_base _ _ _ _ _ Hr) as (base & Hb & Hbn & Hlk & Hnd).
  assert (entries base = R) as HbR by by injection Hbn.
  unfold UpdateExisting. rewrite Hb.
  assert (Forall (fun n => sorted (n_entries n)) l) as Hls.
  { eapply Forall_impl; [exact Hl|]. intros n Hn. apply Hn. }
  pose proof (CheckForConflicts_spec (chain (heap m) (next base)) x a.*1 None l
                (linked_chain _ _ _ _ Hlk Hnd) Ha Hls) as Hcf.
  assert (a.*1 = w.*1) as Haw by (unfold w; by rewrite new_entries_rows). rewrite <- !Haw.
  destruct Hcf as [[-> Hno]|[-> Hyes]]; [right; split; [done|]|by left].
  destruct Hown as [Hnone|(l1 & n & l2 & -> & Hn & H2)].
  - right. rewrite own_node_none by done. rewrite Hx.
    set (nd := mkInfo col (transaction_id x) v [] (Some p) (next base)).
    destruct (merge_update u B a base nd) as [es R'] eqn:Em.
    set (q := fresh (dom (heap m))).
    assert (heap m !! q = None) as Hq by apply not_elem_of_dom, is_fresh.
    exists q, (alter (fun b => set_next (Some q) (set_entries R' b)) p
                 (<[q := set_entries es nd]> (relink_head (heap m) (next base) (Some q)))), R', es.
    split; [done|]. split; [done|]. split; [done|]. split.
    + apply merge_update_merged in Em; [by rewrite HbR in Em|done|done|by rewrite HbR|].
      split; [apply sorted_nil|constructor].
    + by apply (heap_repr_insert (heap m) v p R R' l q (set_entries es nd) base).
  - left. rewrite own_node_one by done.
    destruct (linked_elem _ _ _ _ n Hlk) as (nd & Hnd' & Hnn); [apply elem_of_app; right; by apply elem_of_cons; left|].
    rewrite Hnd'. destruct (merge_update u B a base nd) as [es R'] eqn:Em.
    exists l1, n, l2, (alter (set_entries R') p (alter (set_entries es) (n_ptr n) (heap m))), R', es.
    assert (entries nd = n_entries n) as Hen by by rewrite <- Hnn.
    split; [done|]. split; [done|]. split; [done|]. split.
    + apply merge_update_merged in Em; [by rewrite HbR, Hen in Em|done|done|by rewrite HbR|].
      rewrite Hen. apply Forall_app in Hl as [_ Hl]. by apply Forall_cons_1 in Hl as [Hl _].
    + eapply heap_repr_set_base, heap_repr_set_node, Hr.
Qed.

Lemma assoc_zip_map (f : nat -> T) (rows : list nat) r :
  assoc (zip rows (map f rows)) r = if decide (r ∈ rows) then Some (f r) else None.
Proof.
  induction rows as [|x rows IH]; simpl; [done|].
  destruct (decide (x = r)) as [->|Hne].
  - by rewrite decide_True by (apply elem_of_cons; by left).
  - rewrite IH. repeat case_decide; rewrite ?elem_of_cons in *; intuition congruence.
Qed.

Lemma zip_map_rows (f : nat -> T) (rows : list nat) : (zip rows (map f rows)).*1 = rows.
Proof. rewrite fst_zip; [done|]. by rewrite length_map. Qed.

Lemma zip_row_list (f : nat -> T) ids sel off :
  zip (row_list ids sel off).*1 (map f sel) = new_entries f (row_list ids sel off).
Proof. unfold row_list, new_entries. induction sel as [|i sel IH]; [done|]. cbn. f_equal. exact IH. Qed.

Lemma new_entries_good f (a : list (nat * nat)) :
  StronglySorted lt a.*1 -> Forall (fun r => (r < STANDARD_VECTOR_SIZE)%nat) a.*1 ->
  good_entries (T := T) (new_entries f a).
Proof. intros Ha Hr. split; unfold sorted, in_vector; by rewrite new_entries_rows. Qed.

Lemma UpdateNew_outcome m x col v u B ids sel off :
  let a := row_list ids sel off in
  let w := new_entries (fun idx => extract (uvec u) (usel u idx)) a in
  StronglySorted lt a.*1 -> Forall (fun r => (r < STANDARD_VECTOR_SIZE)%nat) a.*1 ->
  has_transaction x = true ->
  (match root m with Some info => (v < length info)%nat | None => False end) ->
  exists m' q R' es, UpdateNew m x col v u B sel a = (m', Ok (Some q)) /\ start m' = start m /\
    heap m !! q = None /\ merged B w [] R' [] es /\ repr m' v R' [mkNode q (transaction_id x) es].
Proof.
  intros a w Ha Hrows Hx Hroot. unfold UpdateNew.
  destruct (initialize_values B u sel a.*1) as [Hu (f & Hb & Hf)].
  destruct (initialize_update B u sel a.*1) as [bv uv]. simpl in Hu, Hb. subst bv uv. rewrite Hx.
  set (p := fresh (dom (heap m))). set (q := fresh ({[p]} ∪ dom (heap m))).
  assert (q ∉ {[p]} ∪ dom (heap m)) as Hq by apply is_fresh.
  rewrite not_elem_of_union, not_elem_of_singleton, not_elem_of_dom in Hq. destruct Hq as [Hqp Hq].
  eexists _, q, w, (zip a.*1 (map f a.*1)). split; [done|]. split; [done|]. split; [done|]. split.
  - pose proof (new_entries_good (fun idx => extract (uvec u) (usel u idx)) a Ha Hrows) as Hw.
    split; [done|]. split; [|split].
    + split; unfold sorted, in_vector; by rewrite zip_map_rows.
    + intros r. unfold override. by destruct (assoc w r).
    + exists f. split; [intros r Hr; by apply Hf|]. intros r. simpl.
      rewrite assoc_zip_map. unfold w. by rewrite new_entries_rows.
  - unfold repr, GetUpdateNode. simpl. destruct (root m) as [info|]; [|done]. simpl.
    rewrite list_lookup_insert_eq by done. simpl. split; [| |constructor; [|constructor]].
    + eexists. split; [done|]. rewrite lookup_insert_ne, lookup_insert_eq by done.
      split; [done|]. split; [by unfold base_node, node_of, a; simpl; rewrite zip_row_list|].
      split; [done|]. simpl. eexists. rewrite lookup_insert_eq. repeat split; done.
    + apply NoDup_cons. split; [|apply NoDup_singleton]. rewrite list_elem_of_singleton. simpl. congruence.
    + unfold vec. simpl. by rewrite lookup_insert_eq.
Qed.

(** The four ways an update of a transaction can end. *)
Inductive outcome m (x : TransactionData) (B : V) (v : nat) (w R : list (nat * T)) l
    : t (T := T) (S := S) -> result (option nat) -> Prop :=
| outcome_nothing m' :
    w = [] -> repr m' v R l -> outcome m x B v w R l m' (Ok None)
| outcome_conflict m' :
    Exists (conflicts x w.*1) l -> repr m' v R l ->
    outcome m x B v w R l m' (Throw TransactionException)
| outcome_own l1 n l2 m' R' es :
    Forall (fun n => ~ conflicts x w.*1 n) l -> l = l1 ++ n :: l2 ->
    n_version n = transaction_id x -> merged B w R R' (n_entries n) es ->
    repr m' v R' (l1 ++ with_entries es n :: l2) -> outcome m x B v w R l m' (Ok None)
| outcome_new q m' R' es :
    Forall (fun n => ~ conflicts x w.*1 n) l -> Forall (fun n => n_version n <> transaction_id x) l ->
    heap m !! q = None -> merged B w R R' [] es ->
    repr m' v R' (mkNode q (transaction_id x) es :: l) -> outcome m x B v w R l m' (Ok (Some q)).

Lemma repr_same m m' v R l :
  heap m' = heap m -> GetUpdateNode m' v = GetUpdateNode m v -> repr m v R l -> repr m' v R l.
Proof. unfold repr. by intros -> ->. Qed.

Lemma Update_outcome m x col u ids count B v R l m' res :
  rows_of m v ids count -> repr m v R l -> good_entries R ->
  Forall (fun n => good_entries (n_entries n)) l -> has_transaction x = true ->
  Forall (fun n => n_version n <> transaction_id x) l \/
  (exists l1 n l2, l = l1 ++ n :: l2 /\ n_version n = transaction_id x /\
     Forall (fun n => n_version n <> transaction_id x) l2) ->
  Update sort m x col u ids count B = (m', res) ->
  outcome m x B v (written m u ids count B) R l m' res /\ start m' = start m.
Proof.
  intros Hrows Hr HR Hl Hx Hown HU.
  pose proof (selection_spec m u ids count B) as Hsel. cbv zeta in Hsel.
  unfold Update in HU. unfold written. pose proof (statistics_sel (stats m) u count) as Hstat.
  destruct (update_statistics (stats m) u count) as [st sel]. simpl in Hsel, Hstat |- *.
  set (m1 := mk (start m) (heap m) (root m) st) in *.
  change (update_selection sort m1 u ids sel B) with (update_selection sort m u ids sel B) in HU.
  fold (first_row_id sel ids) in HU.
  change (vector_of m1 (first_row_id sel ids)) with (vector_of m (first_row_id sel ids)) in HU.
  change (vector_offset (InitializeRoot m1 ?x) ?y) with (vector_offset m y) in HU.
  set (vi := vector_of m (first_row_id sel ids)) in *.
  set (sel' := update_selection sort m u ids sel B) in *.
  destruct sel as [|i0 sel].
  { injection HU as <- <-. split; [|done]. apply outcome_nothing; [|by apply (repr_same m)].
    assert (sel' = []) as ->; [|done]. unfold sel', update_selection. simpl.
    destruct (GetUpdateNode m _); [done|].
    match goal with |- context [effective_updates _ _ ?l _ ?o] =>
      by destruct (effective_sel u ids l B o) as (k & -> & _) end. }
  cbn [length Nat.eqb] in HU.
  assert (vi = v) as Hvi.
  { unfold vi, first_row_id.
    destruct (SortSelectionVector_spec sort (i0 :: sel) (fun idx => ids !!! idx) Hsort) as (_ & Hsub & Hrep).
    destruct (Hrep i0) as (j & Hj & _); [by apply elem_of_cons; left|].
    destruct (SortSelectionVector sort (i0 :: sel) _) as [|k ks]; [by apply not_elem_of_nil in Hj|].
    assert (k ∈ i0 :: sel) as Hk by by apply Hsub, elem_of_cons; left.
    rewrite Hstat, list_elem_of_In, filter_In, in_seq in Hk. apply Hrows. simpl. lia. }
  clearbody vi. subst vi.
  destruct (row_list_good m v ids sel' count Hrows (proj2 Hsel) (proj1 Hsel)) as [Ha Har].
  destruct (Nat.eqb_spec (length sel') 0) as [H0|H0].
  { injection HU as <- <-. split; [|done]. apply outcome_nothing; [|by apply (repr_same m)].
    by destruct sel'. }
  destruct (GetUpdateNode (InitializeRoot m1 v) v) as [p|] eqn:Ep; rewrite InitializeRoot_node in Ep;
    change (GetUpdateNode m v = Some p) in Ep || change (GetUpdateNode m v = None) in Ep.
  - assert (heap_repr (heap m) v p R l) as Hh by (unfold repr in Hr; by rewrite Ep in Hr).
    assert (forall h R' l', heap_repr h v p R' l' -> repr (with_heap (InitializeRoot m1 v) h) v R' l') as Hrep.
    { intros h R' l' Hh'. unfold repr.
      change (GetUpdateNode (with_heap (InitializeRoot m1 v) h) v) with (GetUpdateNode (InitializeRoot m1 v) v).
      rewrite InitializeRoot_node. change (GetUpdateNode m1 v) with (GetUpdateNode m v). by rewrite Ep. }
    destruct (UpdateExisting_outcome (InitializeRoot m1 v) x col v u B
                (row_list ids sel' (vector_offset m v)) p R l Hh HR Hl Ha Har Hx Hown)
      as [[Hc Heq]|[Hc [(l1 & n & l2 & h' & R' & es & Hl' & Hn & Heq & Hm & Hh')
                       |(q & h' & R' & es & Hnone & Heq & Hq & Hm & Hh')]]];
      rewrite Heq in HU; injection HU as <- <-; (split; [|done]).
    + apply outcome_conflict; [done|]. eapply (repr_same m); [done| |done]. by rewrite InitializeRoot_node.
    + eapply outcome_own; try done. by apply Hrep.
    + eapply outcome_new; try done. by apply Hrep.
  - destruct (UpdateNew_outcome (InitializeRoot m1 v) x col v u B ids sel' (vector_offset m v))
      as (m2 & q & R' & es & Heq & Hst & Hq & Hm & Hr'); [done|done|done| |].
    { simpl. rewrite length_app, length_replicate. lia. }
    rewrite Heq in HU. injection HU as <- <-. unfold repr in Hr. rewrite Ep in Hr. destruct Hr as [-> ->].
    split; [|done]. eapply outcome_new; try done; constructor.
Qed.
End update.

(** ** What commit, cleanup and rollback do to the chain *)

Section finish.
Context {T S : Type}.
Implicit Types (l : list (node T)) (m : t (T := T) (S := S)) (h : gmap nat (UpdateInfo T)).

Lemma heap_repr_remove h v a R l1 n l2 i :
  heap_repr h v a R (l1 ++ n :: l2) -> h !! n_ptr n = Some i ->
  heap_repr (CleanupUpdateInternal h i) v a R (l1 ++ l2).
Proof.
  intros [Hl Hnd Hv] Hi. split.
  - destruct (exists_last (l := base_node a R :: l1)) as (l0 & b & Hlb); [done|].
    rewrite app_comm_cons, Hlb, <- app_assoc in Hl, Hnd. simpl in Hl, Hnd.
    rewrite app_comm_cons, Hlb, <- app_assoc. simpl. by eapply linked_remove.
  - simpl in *. rewrite map_app in *. simpl in *. apply NoDup_cons in Hnd as [Ha Hnd].
    apply NoDup_cons. rewrite elem_of_app in Ha |- *. rewrite elem_of_cons in Ha. split; [tauto|].
    apply NoDup_app in Hnd as (H1 & H12 & H2). apply NoDup_cons in H2 as [_ H2].
    apply NoDup_app. split; [done|]. split; [|done]. intros x Hx Hx2.
    by apply (H12 x Hx), elem_of_cons; right.
  - rewrite Forall_app, Forall_cons in Hv. destruct Hv as (H1 & _ & H2).
    rewrite Forall_app. split; (eapply vec_Forall; [|done]); intros; unfold CleanupUpdateInternal;
      destruct (prev i), (next i); rewrite ?vec_alter by done; done.
Qed.

Lemma repr_nonempty m v R l : repr m v R l -> l <> [] ->
  exists a, GetUpdateNode m v = Some a /\ heap_repr (heap m) v a R l.
Proof.
  unfold repr. destruct (GetUpdateNode m v) as [a|]; [|by intros [_ ->]]. intros Hr _. by exists a.
Qed.

Lemma app_cons_nil {A} (l1 l2 : list A) x : l1 ++ x :: l2 <> [].
Proof. by destruct l1. Qed.

Lemma heap_repr_lookup h v a R l1 n l2 :
  heap_repr h v a R (l1 ++ n :: l2) ->
  exists i, h !! n_ptr n = Some i /\ entries i = n_entries n /\ vector_index i = v /\ n_ptr n <> a.
Proof.
  intros [Hl Hnd Hv].
  destruct (linked_elem _ _ _ _ n Hl) as (i & Hi & Hn).
  { apply elem_of_cons. right. apply elem_of_app. right. by apply elem_of_cons; left. }
  exists i. split; [done|]. split; [by rewrite <- Hn|]. split.
  - rewrite Forall_app, Forall_cons in Hv. destruct Hv as (_ & Hvn & _). unfold vec in Hvn.
    rewrite Hi in Hvn. by injection Hvn.
  - eapply node_ptr_ne; [exact Hnd|]. apply elem_of_app. right. by apply elem_of_cons; left.
Qed.

Lemma repr_with_heap m v a R l h :
  GetUpdateNode m v = Some a -> heap_repr h v a R l -> repr (with_heap m h) v R l.
Proof.
  intros Ha Hr. unfold repr. change (GetUpdateNode (with_heap m h) v) with (GetUpdateNode m v).
  by rewrite Ha.
Qed.

Lemma CommitUpdate_repr m v R l1 n l2 cid :
  repr m v R (l1 ++ n :: l2) -> repr (CommitUpdate m (n_ptr n) cid) v R (l1 ++ with_version cid n :: l2).
Proof.
  intros (a & Ha & Hr)%repr_nonempty; [|apply app_cons_nil].
  eapply repr_with_heap; [done|]. by apply heap_repr_alter.
Qed.

Lemma CleanupUpdate_repr m v R l1 n l2 :
  repr m v R (l1 ++ n :: l2) -> repr (CleanupUpdate m (n_ptr n)) v R (l1 ++ l2).
Proof.
  intros (a & Ha & Hr)%repr_nonempty; [|apply app_cons_nil].
  destruct (heap_repr_lookup _ _ _ _ _ _ _ Hr) as (i & Hi & _). unfold CleanupUpdate. rewrite Hi.
  eapply repr_with_heap; [done|]. by eapply heap_repr_remove.
Qed.

Lemma RollbackUpdate_repr m v R l1 n l2 :
  repr m v R (l1 ++ n :: l2) ->
  repr (RollbackUpdate m (n_ptr n)) v (UpdateKind.RollbackUpdate R (n_entries n)) (l1 ++ l2).
Proof.
  intros (a & Ha & Hr)%repr_nonempty; [|apply app_cons_nil].
  destruct (heap_repr_lookup _ _ _ _ _ _ _ Hr) as (i & Hi & He & Hv & Hne).
  destruct (heap_repr_base _ _ _ _ _ Hr) as (b & Hb & Hbn & _).
  unfold RollbackUpdate. rewrite Hi, Hv, Ha. eapply repr_with_heap; [done|].
  eapply heap_repr_remove; [|rewrite lookup_alter_ne by done; exact Hi].
  assert (alter (fun base => set_entries (UpdateKind.RollbackUpdate (entries base) (entries i)) base) a (heap m)
          = alter (set_entries (UpdateKind.RollbackUpdate R (n_entries n))) a (heap m)) as ->.
  { apply alter_ext. intros b' Hb'. rewrite Hb in Hb'. injection Hb' as <-.
    injection Hbn as _ Hbe. by rewrite Hbe, He. }
  by eapply heap_repr_set_base.
Qed.
End finish.

(** A validity column whose row 3 became NULL: the range of rows 2 to 4. *)
Definition null_row_segment : t (T := bool) (S := bool) :=
  mk 0 {[0%nat := mkInfo 0 (TRANSACTION_ID_START - 1) 0 [(3%nat, false)] None None]} (Some [Some 0%nat]) true.

Lemma fetch_range_agrees_witness :
  let all_valid n := ValidityMask.mk None n in
  extract (UpdateFunctions := ValidityFunctions)
    (FetchCommittedRange (UpdateFunctions0 := ValidityFunctions) null_row_segment 2%nat 3%nat (all_valid 3%nat)) 1 = false.
Proof.
  assert (bases_good (null_row_segment)) as Hg.
  { intros [|[|k]] i Hi; [|discriminate..]. vm_compute in Hi. injection Hi as <-. split.
    - repeat constructor.
    - constructor; [apply Nat.ltb_lt; vm_compute; reflexivity|constructor]. }
  cbv zeta.
  etransitivity; [apply (fetch_range_agrees (F := ValidityFunctions) ValidityMask.wf ValidityMask.capacity
             null_row_segment 2%nat 3%nat _ (ValidityMask.mk None STANDARD_VECTOR_SIZE) 1%nat)|].
  - exact Hg.
  - done.
  - done.
  - simpl. lia.
  - simpl. lia.
  - lia.
  - reflexivity.
  - vm_compute. reflexivity.
Defined.

End UpdateSegment.
