(* ===== verification/UpdateSnapshot.v ===== *)
(** * Snapshot isolation of updates

    Transactions that update one vector of a column through an [UpdateSegment]
    ([UpdateSegment.v]) as a step relation: begin, update, failed update, commit, rollback and
    cleanup in any interleaving.  The state carries, next to the segment, the history a
    specification would keep: the rows each transaction wrote and the committed writes with their
    commit ids.  The main theorem is that at every reachable state a transaction reads its own
    writes over the writes committed when it started, and nothing else.

    Start times, commit ids and transaction ids are related as [TransactionManager.v] proves
    them for reachable states of the transaction manager. *)

From stdpp Require Import gmap relations sorting.
From Stdlib Require Import Sorting.Sorted.
From S2P Require Import Prelude ValidityMask ChunkInfo UpdateKind UpdateSegment.
Import UpdateKind UpdateSegment.

Module UpdateSnapshot.

(** A running transaction: its start time and id, its node in the chain, the rows it wrote. *)
Record txn (T : Type) : Type := mkTx {
  x_start : Z;
  x_id : Z;
  x_node : option nat;
  x_writes : nat -> option T
}.
Arguments mkTx {T}.
Arguments x_start {T}.
Arguments x_id {T}.
Arguments x_node {T}.
Arguments x_writes {T}.

(** A committed one; the node is gone after cleanup. *)
Record commit (T : Type) : Type := mkCommit {
  c_id : Z;
  c_node : option nat;
  c_writes : nat -> option T
}.
Arguments mkCommit {T}.
Arguments c_id {T}.
Arguments c_node {T}.
Arguments c_writes {T}.

Section snapshot.
Context {T V S : Type} {F : UpdateFunctions T V S} (ok : V -> Prop) (size : V -> nat).
Context {L : UpdateLaws ok size} (sort : (nat -> nat) -> list nat -> list nat) (Hsort : sorts sort).
(** The table data of the vector, and the number of the vector. *)
Context (B : V) (v : nat).
Implicit Types (l : list (node T)) (x : txn T) (cs : list (commit T)) (r : nat).

(** ** Specification *)

(** The last write to a row among the commits up to time [s]; [cs] is newest first. *)
Fixpoint last_write cs (s : Z) r : option T :=
  match cs with
  | [] => None
  | c :: cs =>
      if c_id c <=? s
      then match c_writes c r with Some w => Some w | None => last_write cs s r end
      else last_write cs s r
  end.

Definition snapshot cs (s : Z) r : T := default (extract B r) (last_write cs s r).

(** What a transaction has to see: its own writes, else its snapshot. *)
Definition tx_view cs x r : T := default (snapshot cs (x_start x) r) (x_writes x r).

(** ** The system *)

Record sys : Type := mkSys {
  seg : t (T := T) (S := S);
  now : Z;
  active : list (txn T);
  commits : list (commit T)
}.

Definition data_of x : TransactionData := mkTxn (x_start x) (x_id x) true.

Definition wrote (w : list (nat * T)) x (node : option nat) : txn T :=
  mkTx (x_start x) (x_id x) node
    (fun r => match assoc w r with Some y => Some y | None => x_writes x r end).

Inductive step : sys -> sys -> Prop :=
| step_begin σ s i :
    now σ <= s < TRANSACTION_ID_START - 1 -> TRANSACTION_ID_START <= i -> i ∉ map x_id (active σ) ->
    step σ (mkSys (seg σ) s (mkTx s i None (fun _ => None) :: active σ) (commits σ))
| step_update σ a1 x a2 col u ids count m' p :
    active σ = a1 ++ x :: a2 -> rows_of (seg σ) v ids count ->
    Update sort (seg σ) (data_of x) col u ids count B = (m', Ok p) ->
    step σ (mkSys m' (now σ)
              (a1 ++ wrote (written sort (seg σ) u ids count B) x
                       (match p with Some _ => p | None => x_node x end) :: a2) (commits σ))
| step_update_fails σ a1 x a2 col u ids count m' e :
    active σ = a1 ++ x :: a2 -> rows_of (seg σ) v ids count ->
    Update sort (seg σ) (data_of x) col u ids count B = (m', Throw e) ->
    step σ (mkSys m' (now σ) (active σ) (commits σ))
| step_commit σ a1 x a2 cid :
    active σ = a1 ++ x :: a2 -> now σ < cid < TRANSACTION_ID_START - 1 ->
    step σ (mkSys (match x_node x with Some p => CommitUpdate (seg σ) p cid | None => seg σ end)
              cid (a1 ++ a2) (mkCommit cid (x_node x) (x_writes x) :: commits σ))
| step_rollback σ a1 x a2 :
    active σ = a1 ++ x :: a2 ->
    step σ (mkSys (match x_node x with Some p => RollbackUpdate (seg σ) p | None => seg σ end)
              (now σ) (a1 ++ a2) (commits σ))
| step_cleanup σ c1 c c2 p :
    commits σ = c1 ++ c :: c2 -> c_node c = Some p ->
    Forall (fun x => c_id c <= x_start x) (active σ) ->
    step σ (mkSys (CleanupUpdate (seg σ) p) (now σ) (active σ)
              (c1 ++ mkCommit (c_id c) None (c_writes c) :: c2)).

(** A segment without updates. *)
Definition init (start : nat) (st : S) (time : Z) : sys := mkSys (mk start ∅ None st) time [] [].

Definition reachable (σ : sys) : Prop :=
  exists start st time, 0 <= time < TRANSACTION_ID_START - 1 /\ rtc step (init start st time) σ.

(** ** Invariant

    Stated for the entries [R] of the base info and the nodes [l] behind it. *)

Definition has (d : list (nat * T)) r : Prop := assoc d r <> None.

(** The newest value of a row. *)
Definition cur (R : list (nat * T)) r : T := default (extract B r) (assoc R r).

Definition node_matches x l : Prop :=
  match x_node x with
  | None => forall r, x_writes x r = None
  | Some p => exists n, n ∈ l /\ n_ptr n = p /\ n_version n = x_id x /\
                forall r, x_writes x r = None <-> assoc (n_entries n) r = None
  end.

Definition commit_matches l (act : list (txn T)) (c : commit T) : Prop :=
  match c_node c with
  | None => forall r x, c_writes c r <> None -> x ∈ act -> c_id c <= x_start x
  | Some p => exists n, n ∈ l /\ n_ptr n = p /\ n_version n = c_id c /\
                forall r, c_writes c r = None <-> assoc (n_entries n) r = None
  end.

Record inv (R : list (nat * T)) l (time : Z) (act : list (txn T)) cs : Prop := {
  i_base : good_entries R;
  i_good : Forall (fun n => good_entries (n_entries n)) l;
  i_rows : forall n r, n ∈ l -> has (n_entries n) r -> has R r;
  i_ptr : NoDup (map n_ptr l);
  i_time : 0 <= time < TRANSACTION_ID_START - 1;
  i_active : forall x, x ∈ act -> x_start x <= time /\ TRANSACTION_ID_START <= x_id x;
  i_ids : NoDup (map x_id act);
  i_commits : forall c, c ∈ cs -> c_id c <= time;
  i_cids : NoDup (map c_id cs);
  i_owner : forall n, n ∈ l ->
    (exists x, x ∈ act /\ x_node x = Some (n_ptr n) /\ n_version n = x_id x) \/ n_version n <= time;
  i_node : forall x, x ∈ act -> node_matches x l;
  i_cnode : forall c, c ∈ cs -> commit_matches l act c;
  i_cowner : forall n, n ∈ l -> n_version n < TRANSACTION_ID_START ->
    exists c, c ∈ cs /\ c_node c = Some (n_ptr n) /\ n_version n = c_id c;
  (** Nodes in front of the node of a running transaction are newer than its snapshot. *)
  i_order : forall x l1 n l2, x ∈ act -> l = l1 ++ n :: l2 -> n_version n = x_id x ->
    Forall (fun m => x_start x < n_version m) l1;
  (** Rows of a running transaction are in no other node its snapshot does not contain. *)
  i_excl : forall x n m r, x ∈ act -> n ∈ l -> m ∈ l -> n_version n = x_id x ->
    n_version m <> x_id x -> has (n_entries n) r -> has (n_entries m) r -> n_version m <= x_start x;
  i_cur : forall x r w, x ∈ act -> x_writes x r = Some w -> cur R r = w;
  i_view : forall x r, x ∈ act -> row_valid B r = true ->
    values l (x_start x) (x_id x) r (cur R r) = tx_view cs x r;
  i_now : forall r, row_valid B r = true -> values l time 0 r (cur R r) = snapshot cs time r
}.

(** *** Contributions of nodes *)

Lemma contrib_skip_old s tid r (n : node T) : n_version n <= s -> contrib s tid r n = None.
Proof. intros Hn. unfold contrib, applies. by rewrite (proj2 (Z.ltb_ge _ _)). Qed.

Lemma contrib_skip_own s r (n : node T) : contrib s (n_version n) r n = None.
Proof. unfold contrib, applies. by rewrite Z.eqb_refl, andb_false_r. Qed.

Lemma contrib_skip_row s tid r (n : node T) : assoc (n_entries n) r = None -> contrib s tid r n = None.
Proof. intros Hn. unfold contrib. rewrite Hn. by destruct (applies n s tid). Qed.

Lemma contrib_use s tid r (n : node T) :
  s < n_version n -> n_version n <> tid -> contrib s tid r n = assoc (n_entries n) r.
Proof.
  intros Hs Ht. unfold contrib, applies. rewrite (proj2 (Z.ltb_lt _ _)) by done.
  by rewrite (proj2 (Z.eqb_neq _ _)).
Qed.

Lemma last_write_later cs s s' r :
  (forall c, c ∈ cs -> c_id c <= s) -> s <= s' -> last_write cs s' r = last_write cs s r.
Proof.
  intros Hc Hs. induction cs as [|c cs IH]; simpl; [done|].
  assert (c_id c <= s) by (apply Hc, elem_of_cons; by left).
  rewrite !(proj2 (Z.leb_le _ _)) by lia. rewrite IH; [done|]. intros c' Hc'. apply Hc, elem_of_cons. by right.
Qed.

Lemma elem_mid {A} (y x : A) (l1 l2 : list A) : y ∈ l1 ++ x :: l2 <-> y = x \/ y ∈ l1 ++ l2.
Proof. rewrite !elem_of_app, elem_of_cons. tauto. Qed.

Lemma elem_mid_hd {A} (x : A) (l1 l2 : list A) : x ∈ l1 ++ x :: l2.
Proof. apply elem_mid. by left. Qed.

Lemma elem_mid_tl {A} (y x : A) (l1 l2 : list A) : y ∈ l1 ++ l2 -> y ∈ l1 ++ x :: l2.
Proof. intros. apply elem_mid. by right. Qed.
Hint Resolve elem_mid_hd elem_mid_tl : core.

(** *** Nodes and their owners *)

Lemma id_inj act x y : NoDup (map x_id act) -> x ∈ act -> y ∈ act -> x_id x = x_id y -> x = y.
Proof.
  induction act as [|z act IH]; [intros _ Hx; by apply not_elem_of_nil in Hx|].
  simpl. intros [Hz Hnd]%NoDup_cons Hx Hy Hxy.
  assert (forall y, y ∈ act -> x_id y ∈ map x_id act) as Hin
    by (intros y' Hy'; apply list_elem_of_In, in_map, list_elem_of_In, Hy').
  apply elem_of_cons in Hx as [->|Hx]; apply elem_of_cons in Hy as [->|Hy]; try done.
  - exfalso. apply Hz. rewrite Hxy. by apply Hin.
  - exfalso. apply Hz. rewrite <- Hxy. by apply Hin.
  - by apply IH.
Qed.

Lemma ptr_inj l (n m : node T) : NoDup (map n_ptr l) -> n ∈ l -> m ∈ l -> n_ptr n = n_ptr m -> n = m.
Proof.
  induction l as [|z l IH]; [intros _ Hx; by apply not_elem_of_nil in Hx|].
  simpl. intros [Hz Hnd]%NoDup_cons Hx Hy Hxy.
  assert (forall y, y ∈ l -> n_ptr y ∈ map n_ptr l) as Hin
    by (intros y' Hy'; apply list_elem_of_In, in_map, list_elem_of_In, Hy').
  apply elem_of_cons in Hx as [->|Hx]; apply elem_of_cons in Hy as [->|Hy]; try done.
  - exfalso. apply Hz. rewrite Hxy. by apply Hin.
  - exfalso. apply Hz. rewrite <- Hxy. by apply Hin.
  - by apply IH.
Qed.

Section with_inv.
Context {R : list (nat * T)} {l : list (node T)} {time : Z} {act : list (txn T)} {cs : list (commit T)}.
Context (I : inv R l time act cs).

Lemma own_ptr x n : x ∈ act -> n ∈ l -> n_version n = x_id x -> x_node x = Some (n_ptr n).
Proof.
  intros Hx Hn Hv. destruct (i_owner _ _ _ _ _ I n Hn) as [(y & Hy & Hp & Hvy)|Hle].
  - rewrite (id_inj act x y (i_ids _ _ _ _ _ I) Hx Hy); [done|]. congruence.
  - destruct (i_active _ _ _ _ _ I x Hx) as [_ Hid]. pose proof (i_time _ _ _ _ _ I). lia.
Qed.

Lemma own_unique x n m : x ∈ act -> n ∈ l -> m ∈ l -> n_version n = x_id x -> n_version m = x_id x -> n = m.
Proof.
  intros Hx Hn Hm Hvn Hvm. apply (ptr_inj l); [apply I|done|done|].
  pose proof (own_ptr x n Hx Hn Hvn). pose proof (own_ptr x m Hx Hm Hvm). congruence.
Qed.

Lemma node_version n : n ∈ l -> n_version n <= time \/ TRANSACTION_ID_START <= n_version n.
Proof.
  intros Hn. destruct (i_owner _ _ _ _ _ I n Hn) as [(x & Hx & _ & ->)|Hle]; [right|by left].
  by apply (i_active _ _ _ _ _ I x).
Qed.
End with_inv.

Lemma own_not_other R l1 n l2 time act cs x m :
  inv R (l1 ++ n :: l2) time act cs -> x ∈ act -> n_version n = x_id x -> m ∈ l1 ++ l2 -> n_version m <> x_id x.
Proof.
  intros I Hx Hn Hm Hv. assert (m = n) as -> by (eapply (own_unique I); eauto).
  pose proof (i_ptr _ _ _ _ _ I) as Hnd. rewrite map_app in Hnd. simpl in Hnd.
  apply NoDup_app in Hnd as (_ & H1 & H2). apply NoDup_cons in H2 as [H2 _].
  assert (forall l, n ∈ l -> n_ptr n ∈ map n_ptr l) as Hin
    by (intros l Hl; apply list_elem_of_In, in_map, list_elem_of_In, Hl).
  apply elem_of_app in Hm as [Hm|Hm]; [|by apply H2, Hin].
  apply (H1 (n_ptr n)); [by apply Hin|]. apply elem_of_cons. by left.
Qed.

(** A commit keeps its node while other nodes change. *)
Lemma commit_matches_other (c : commit T) l l' act act' :
  (forall m, m ∈ l -> n_version m = c_id c -> m ∈ l') ->
  (forall x', x' ∈ act' -> c_id c <= x_start x' \/ exists x, x ∈ act /\ x_start x = x_start x') ->
  commit_matches l act c -> commit_matches l' act' c.
Proof.
  unfold commit_matches. intros Hl Ha. destruct (c_node c) as [p|].
  - intros (m & Hm & Hp & Hv & Hw). exists m. split; [by apply Hl|done].
  - intros Hc r x' Hr Hx'. destruct (Ha x' Hx') as [|(x & Hx & <-)]; [done|]. by apply (Hc r).
Qed.

(** *** Begin *)

Lemma values_later R l time act cs s i r y :
  inv R l time act cs -> time <= s < TRANSACTION_ID_START - 1 ->
  (forall x, x ∈ act -> x_id x <> i) -> (i = 0 \/ TRANSACTION_ID_START <= i) ->
  values l s i r y = values l time 0 r y.
Proof.
  intros I Hs Hi Hi0. apply values_ext, Forall_Forall2_diag, Forall_forall. intros n Hn.
  pose proof (i_time _ _ _ _ _ I) as Ht.
  destruct (i_owner _ _ _ _ _ I n Hn) as [(x & Hx & _ & Hv)|Hle].
  - pose proof (i_active _ _ _ _ _ I x Hx) as [_ Hid]. specialize (Hi x Hx).
    rewrite !contrib_use; lia || congruence.
  - rewrite !contrib_skip_old by lia. done.
Qed.

Lemma inv_begin R l time act cs s i :
  inv R l time act cs -> time <= s < TRANSACTION_ID_START - 1 -> TRANSACTION_ID_START <= i ->
  i ∉ map x_id act -> inv R l s (mkTx s i None (fun _ => None) :: act) cs.
Proof.
  intros I Hs Hi Hfresh. pose proof (i_time _ _ _ _ _ I) as Ht.
  assert (forall x, x ∈ act -> x_id x <> i) as Hne.
  { intros x Hx <-. apply Hfresh, list_elem_of_In, in_map, list_elem_of_In, Hx. }
  assert (forall r, snapshot cs s r = snapshot cs time r) as Hsnap.
  { intros r. unfold snapshot. by rewrite (last_write_later cs time s) by (apply I || lia). }
  split; try apply I.
  - lia.
  - intros x [->|Hx]%elem_of_cons; simpl; [lia|]. pose proof (i_active _ _ _ _ _ I x Hx). lia.
  - simpl. apply NoDup_cons. split; [done|apply I].
  - intros c Hc. pose proof (i_commits _ _ _ _ _ I c Hc). lia.
  - intros n Hn. destruct (i_owner _ _ _ _ _ I n Hn) as [(x & Hx & ?)|Hle]; [left|right; lia].
    exists x. split; [by apply elem_of_cons; right|done].
  - intros x [->|Hx]%elem_of_cons; [done|by apply I].
  - intros c Hc. eapply commit_matches_other; [| |by apply I]; [done|].
    intros x' [->|Hx']%elem_of_cons; [left|right; by exists x'].
    pose proof (i_commits _ _ _ _ _ I c Hc). simpl. lia.
  - intros x l1 n l2 [->|Hx]%elem_of_cons Hl Hv; [|by eapply (i_order _ _ _ _ _ I)].
    exfalso. simpl in Hv. destruct (i_owner _ _ _ _ _ I n) as [(y & Hy & _ & Hvy)|Hle]; [by subst l| |lia].
    apply (Hne y Hy). congruence.
  - intros x n m r [->|Hx]%elem_of_cons Hn Hm Hv; [|by eapply (i_excl _ _ _ _ _ I)].
    exfalso. simpl in Hv. destruct (i_owner _ _ _ _ _ I n Hn) as [(y & Hy & _ & Hvy)|Hle]; [|lia].
    apply (Hne y Hy). congruence.
  - intros x r w [->|Hx]%elem_of_cons; [done|by apply I].
  - intros x r [->|Hx]%elem_of_cons Hr; [|by apply I]. unfold tx_view. simpl.
    rewrite (values_later R l time act cs) by (done || by right). rewrite Hsnap. by apply I.
  - intros r Hr. rewrite Hsnap, (values_later R l time act cs); [by apply I|done|done| |by left].
    intros x Hx. pose proof (i_active _ _ _ _ _ I x Hx). lia.
Qed.

(** *** Ending a transaction: the others keep what they know about their nodes *)

Lemma NoDup_mid (a1 : list (txn T)) x a2 :
  NoDup (map x_id (a1 ++ x :: a2)) -> NoDup (map x_id (a1 ++ a2)) /\
  forall y, y ∈ a1 ++ a2 -> x_id y <> x_id x.
Proof.
  rewrite !map_app. simpl. intros (H1 & H12 & H2)%NoDup_app. apply NoDup_cons in H2 as [Hx H2].
  split.
  - apply NoDup_app. split; [done|]. split; [|done]. intros i Hi Hi2.
    by apply (H12 i Hi), elem_of_cons; right.
  - assert (forall y (l : list (txn T)), y ∈ l -> x_id y ∈ map x_id l) as Hin
      by (intros y l Hy; apply list_elem_of_In, in_map, list_elem_of_In, Hy).
    intros y [Hy|Hy]%elem_of_app Heq; [|apply Hx; rewrite <- Heq; by apply Hin].
    apply (H12 (x_id y)); [by apply Hin|]. rewrite Heq. apply elem_of_cons. by left.
Qed.

Lemma tx_view_commit cs x c r :
  (x_start x < c_id c) -> tx_view (c :: cs) x r = tx_view cs x r.
Proof.
  intros Hc. unfold tx_view, snapshot. simpl. by rewrite (proj2 (Z.leb_gt _ _)).
Qed.

Lemma values_mid l1 (n : node T) l2 s tid r y :
  (forall m, m ∈ l1 -> contrib s tid r m = None) ->
  values (l1 ++ n :: l2) s tid r y = values l2 s tid r (default y (contrib s tid r n)).
Proof.
  intros H1. rewrite values_app, (values_none l1); [done|]. by apply Forall_forall.
Qed.

Lemma values_mid_ext l1 l2 (n n' : node T) s s' tid tid' r y :
  (forall m, m ∈ l1 ++ l2 -> contrib s tid r m = contrib s' tid' r m) ->
  contrib s tid r n = contrib s' tid' r n' ->
  values (l1 ++ n :: l2) s tid r y = values (l1 ++ n' :: l2) s' tid' r y.
Proof.
  intros Hl Hn. apply values_ext, Forall2_app; [|constructor; [done|]];
    apply Forall_Forall2_diag, Forall_forall; intros m Hm; apply Hl, elem_of_app; auto.
Qed.

Lemma values_remove l1 (n : node T) l2 s tid r y :
  contrib s tid r n = None -> values (l1 ++ n :: l2) s tid r y = values (l1 ++ l2) s tid r y.
Proof. intros Hn. rewrite !values_app. unfold values at 1. simpl. by rewrite Hn. Qed.

(** The node of another transaction is not affected by a change to [n]. *)
Lemma node_matches_other y l l' (n : node T) :
  n_version n <> x_id y -> (forall m, m ∈ l -> m <> n -> m ∈ l') ->
  node_matches y l -> node_matches y l'.
Proof.
  unfold node_matches. intros Hn Hl. destruct (x_node y) as [p|]; [|done].
  intros (m & Hm & Hp & Hv & Hw). exists m. split; [|done]. apply Hl; [done|congruence].
Qed.

Lemma ptr_mid l1 (n n' : node T) l2 :
  n_ptr n' = n_ptr n -> map n_ptr (l1 ++ n' :: l2) = map n_ptr (l1 ++ n :: l2).
Proof. intros Hp. rewrite !map_app. simpl. by rewrite Hp. Qed.

Lemma ptr_remove l1 (n : node T) l2 : NoDup (map n_ptr (l1 ++ n :: l2)) -> NoDup (map n_ptr (l1 ++ l2)).
Proof.
  rewrite !map_app. simpl. intros (H1 & H12 & H2)%NoDup_app. apply NoDup_cons in H2 as [_ H2].
  apply NoDup_app. split; [done|]. split; [|done]. intros i Hi Hi2. by apply (H12 i Hi), elem_of_cons; right.
Qed.

Lemma Forall_mid {A} (P : A -> Prop) (l1 l2 : list A) (x : A) :
  Forall P (l1 ++ x :: l2) <-> P x /\ Forall P (l1 ++ l2).
Proof. rewrite !Forall_app, Forall_cons. tauto. Qed.

(** In a list with one element replaced, a split at another element is a split of the original. *)
Lemma split_replaced {A} (l1 l2 k1 k2 : list A) (n n' m : A) :
  m <> n' -> l1 ++ n' :: l2 = k1 ++ m :: k2 ->
  (exists j1 j2, l1 ++ n :: l2 = j1 ++ m :: j2 /\ forall P : A -> Prop, (P n -> P n') -> Forall P j1 -> Forall P k1).
Proof.
  intros Hm. revert k1. induction l1 as [|z l1 IH]; intros k1 Heq; simpl in *.
  - destruct k1 as [|z k1]; simpl in Heq; injection Heq as -> ->; [done|].
    exists (n :: k1), k2. split; [done|]. intros P HP [Hn Hk]%Forall_cons. constructor; auto.
  - destruct k1 as [|z' k1]; simpl in Heq; injection Heq as -> Heq.
    + exists [], (l1 ++ n :: l2). split; [done|]. intros P _ _. constructor.
    + destruct (IH k1 Heq) as (j1 & j2 & -> & HP). exists (z' :: j1), j2. split; [done|].
      intros P HPn [Hz Hj]%Forall_cons. constructor; [done|]. by apply HP.
Qed.

(** The same after a removal. *)
Lemma split_removed {A} (l1 l2 k1 k2 : list A) (n m : A) :
  l1 ++ l2 = k1 ++ m :: k2 ->
  exists j1 j2, l1 ++ n :: l2 = j1 ++ m :: j2 /\ forall P : A -> Prop, Forall P j1 -> Forall P k1.
Proof.
  revert k1. induction l1 as [|z l1 IH]; intros k1 Heq; simpl in *.
  - subst l2. exists (n :: k1), k2. split; [done|]. by intros P [_ Hk]%Forall_cons.
  - destruct k1 as [|z' k1]; simpl in Heq; injection Heq as -> Heq.
    + exists [], (l1 ++ n :: l2). split; [done|]. intros P _. constructor.
    + destruct (IH k1 Heq) as (j1 & j2 & -> & HP). exists (z' :: j1), j2. split; [done|].
      intros P [Hz Hj]%Forall_cons. constructor; [done|]. by apply HP.
Qed.

Lemma split_unique {A} (l1 l2 k1 k2 : list A) (z : A) :
  NoDup (l1 ++ z :: l2) -> l1 ++ z :: l2 = k1 ++ z :: k2 -> k1 = l1.
Proof.
  revert k1. induction l1 as [|y l1 IH]; intros [|y' k1] Hnd Heq; simpl in *; try done.
  - injection Heq as -> ->. apply NoDup_cons in Hnd as [Hz _]. destruct Hz. apply elem_mid_hd.
  - injection Heq as -> Heq. apply NoDup_cons in Hnd as [Hz _]. destruct Hz. apply elem_mid_hd.
  - injection Heq as -> Heq. apply NoDup_cons in Hnd as [_ Hnd]. f_equal. by apply IH.
Qed.

(** *** Commit *)

Section commit.
Context (R : list (nat * T)) (time cid : Z) (a1 : list (txn T)) (x : txn T) (a2 : list (txn T)) (cs : list (commit T)).
Hypothesis Hcid : time < cid < TRANSACTION_ID_START - 1.

Lemma new_commit_id R' l t' act (c : commit T) :
  inv R' l t' act cs -> t' < c_id c -> NoDup (map c_id (c :: cs)).
Proof.
  intros I Ht. simpl. apply NoDup_cons. split; [|apply I].
  rewrite list_elem_of_In, in_map_iff. intros (c' & Heq & Hc%list_elem_of_In).
  pose proof (i_commits _ _ _ _ _ I c' Hc). lia.
Qed.

Lemma inv_commit_empty l :
  inv R l time (a1 ++ x :: a2) cs -> x_node x = None ->
  inv R l cid (a1 ++ a2) (mkCommit cid None (x_writes x) :: cs).
Proof.
  intros I Hn. pose proof (i_node _ _ _ _ _ I x (elem_mid_hd _ _ _)) as Hw. unfold node_matches in Hw.
  rewrite Hn in Hw. destruct (NoDup_mid a1 x a2 (i_ids _ _ _ _ _ I)) as [Hnd Hne].
  pose proof (i_time _ _ _ _ _ I) as Ht.
  assert (forall s r, snapshot (mkCommit cid None (x_writes x) :: cs) s r = snapshot cs s r) as Hsnap.
  { intros s r. unfold snapshot. simpl. rewrite Hw. by destruct (cid <=? s). }
  split; try apply I.
  - lia.
  - intros y Hy. pose proof (i_active _ _ _ _ _ I y). destruct H; [by apply elem_mid_tl|]. lia.
  - done.
  - intros c [->|Hc]%elem_of_cons; [done|]. pose proof (i_commits _ _ _ _ _ I c Hc). lia.
  - apply (new_commit_id R l time (a1 ++ x :: a2)); [done|simpl; lia].
  - intros n Hin. destruct (i_owner _ _ _ _ _ I n Hin) as [(y & Hy & Hp & Hv)|Hle]; [|right; lia].
    apply elem_mid in Hy as [->|Hy]; [congruence|]. left. by exists y.
  - intros y Hy. apply I. by apply elem_mid_tl.
  - intros c [->|Hc]%elem_of_cons; [intros r y Hr; destruct Hr; apply Hw|].
    eapply commit_matches_other; [| |by apply I]; [done|].
    intros y Hy. right. exists y. by split; [apply elem_mid_tl|].
  - intros m Hm Hmv. destruct (i_cowner _ _ _ _ _ I m Hm Hmv) as (c & Hc & ?). exists c.
    by split; [apply elem_of_cons; right|].
  - intros y l1 n l2 Hy. by apply (i_order _ _ _ _ _ I), elem_mid_tl.
  - intros y n m r Hy. by apply (i_excl _ _ _ _ _ I), elem_mid_tl.
  - intros y r w Hy. by apply (i_cur _ _ _ _ _ I), elem_mid_tl.
  - intros y r Hy Hr. unfold tx_view. rewrite Hsnap. by apply I; [apply elem_mid_tl|].
  - intros r Hr. rewrite Hsnap. rewrite (values_later R l time (a1 ++ x :: a2) cs);
      [|done|lia| |by left].
    + rewrite (i_now _ _ _ _ _ I r Hr). unfold snapshot. rewrite (last_write_later cs time cid); [done| |lia]. apply I.
    + intros y Hy. pose proof (i_active _ _ _ _ _ I y Hy). lia.
Qed.

Lemma inv_commit_node l1 n l2 :
  inv R (l1 ++ n :: l2) time (a1 ++ x :: a2) cs -> x_node x = Some (n_ptr n) -> n_version n = x_id x ->
  (forall r, x_writes x r = None <-> assoc (n_entries n) r = None) ->
  inv R (l1 ++ with_version cid n :: l2) cid (a1 ++ a2) (mkCommit cid (x_node x) (x_writes x) :: cs).
Proof.
  intros I Hn Hv Hw. destruct (NoDup_mid a1 x a2 (i_ids _ _ _ _ _ I)) as [Hnd Hne].
  pose proof (i_time _ _ _ _ _ I) as Ht.
  assert (x ∈ a1 ++ x :: a2) as Hx by apply elem_mid_hd. pose proof (i_active _ _ _ _ _ I x Hx) as [Hxs Hxi].
  assert (forall y, y ∈ a1 ++ a2 -> x_start y <= time /\ TRANSACTION_ID_START <= x_id y) as Hact
    by (intros y Hy; by apply (i_active _ _ _ _ _ I), elem_mid_tl).
  split.
  - apply I.
  - pose proof (i_good _ _ _ _ _ I) as Hg. rewrite Forall_mid in Hg |- *. exact Hg.
  - intros m r [->|Hm]%elem_mid; [apply (i_rows _ _ _ _ _ I n); apply elem_mid_hd|].
    apply (i_rows _ _ _ _ _ I m). by apply elem_mid_tl.
  - rewrite (ptr_mid l1 n); [apply I|done].
  - lia.
  - intros y Hy. specialize (Hact y Hy). lia.
  - done.
  - intros c [->|Hc]%elem_of_cons; [done|]. pose proof (i_commits _ _ _ _ _ I c Hc). lia.
  - apply (new_commit_id R (l1 ++ n :: l2) time (a1 ++ x :: a2)); [done|simpl; lia].
  - intros m [->|Hm]%elem_mid; [right; simpl; lia|].
    destruct (i_owner _ _ _ _ _ I m) as [(y & Hy & Hp & Hvy)|Hle]; [by apply elem_mid_tl| |right; lia].
    apply elem_mid in Hy as [->|Hy]; [|left; by exists y].
    exfalso. eapply (own_not_other R l1 n l2); eauto.
  - intros y Hy. apply (node_matches_other y (l1 ++ n :: l2) _ n); [rewrite Hv; by apply not_eq_sym, Hne| |].
    + intros m [->|Hm]%elem_mid Hmn; [done|by apply elem_mid_tl].
    + apply I. by apply elem_mid_tl.
  - intros c [->|Hc]%elem_of_cons.
    + unfold commit_matches. simpl. rewrite Hn. exists (with_version cid n).
      split; [apply elem_mid_hd|]. by repeat split; try apply Hw.
    + eapply commit_matches_other; [| |by apply I].
      * intros m [->|Hm]%elem_mid Hmv; [|by apply elem_mid_tl].
        exfalso. pose proof (i_commits _ _ _ _ _ I c Hc). lia.
      * intros y Hy. right. exists y. by split; [apply elem_mid_tl|].
  - intros m [->|Hm]%elem_mid Hmv.
    + eexists. split; [apply elem_of_cons; by left|]. by rewrite Hn.
    + destruct (i_cowner _ _ _ _ _ I m (elem_mid_tl _ _ _ _ Hm) Hmv) as (c & Hc & ?). exists c.
      by split; [apply elem_of_cons; right|].
  - intros y k1 m k2 Hy Heq Hm. assert (m <> with_version cid n) as Hmn.
    { intros ->. simpl in Hm. specialize (Hact y Hy). lia. }
    destruct (split_replaced l1 l2 k1 k2 n (with_version cid n) m Hmn Heq) as (j1 & j2 & Hj & HP).
    apply HP; [simpl; specialize (Hact y Hy); lia|]. by eapply (i_order _ _ _ _ _ I); [apply elem_mid_tl| |].
  - intros y k m r Hy Hk Hm Hkv Hmv Hkr Hmr. specialize (Hact y Hy).
    apply elem_mid in Hk as [->|Hk]; [simpl in Hkv; lia|].
    apply elem_mid in Hm as [->|Hm].
    + exfalso. assert (n_version n <= x_start y); [|lia].
      apply (i_excl _ _ _ _ _ I y k n r); try done; try (by apply elem_mid_tl); try apply elem_mid_hd.
      rewrite Hv. by apply not_eq_sym, Hne.
    + apply (i_excl _ _ _ _ _ I y k m r); try done; by apply elem_mid_tl.
  - intros y r w Hy. by apply (i_cur _ _ _ _ _ I), elem_mid_tl.
  - intros y r Hy Hr. specialize (Hact y Hy). rewrite tx_view_commit by (simpl; lia).
    rewrite <- (i_view _ _ _ _ _ I y r (elem_mid_tl _ _ _ _ Hy) Hr). apply values_mid_ext; [done|].
    rewrite !contrib_use; simpl; try done; try lia. rewrite Hv. by apply not_eq_sym, Hne.
  - intros r Hr. unfold snapshot. simpl. rewrite Z.leb_refl.
    assert (values (l1 ++ with_version cid n :: l2) cid 0 r (cur R r)
            = values (l1 ++ l2) cid 0 r (cur R r)) as ->.
    { apply values_remove, contrib_skip_old. simpl. lia. }
    destruct (x_writes x r) as [w|] eqn:Ew; simpl.
    + rewrite (i_cur _ _ _ _ _ I x r w Hx Ew). apply values_none, Forall_forall. intros m Hm.
      destruct (assoc (n_entries m) r) eqn:Em; [|by apply contrib_skip_row]. apply contrib_skip_old.
      assert (n_version m <= x_start x); [|lia].
      apply (i_excl _ _ _ _ _ I x n m r); try done; try (by apply elem_mid_tl); try apply elem_mid_hd.
      * eapply (own_not_other R l1 n l2); eauto.
      * intros HN. apply Hw in HN. congruence.
      * unfold has. congruence.
    + rewrite <- (values_remove l1 n l2 cid 0 r) by (by apply contrib_skip_row, Hw).
      rewrite (values_later R (l1 ++ n :: l2) time (a1 ++ x :: a2) cs); [|done|lia| |by left].
      * rewrite (i_now _ _ _ _ _ I r Hr). unfold snapshot. rewrite (last_write_later cs time cid); [done| |lia]. apply I.
      * intros y Hy. pose proof (i_active _ _ _ _ _ I y Hy). lia.
Qed.
End commit.

(** *** Rollback *)

Lemma inv_drop R l time a1 x a2 cs :
  inv R l time (a1 ++ x :: a2) cs -> x_node x = None -> inv R l time (a1 ++ a2) cs.
Proof.
  intros I Hn. destruct (NoDup_mid a1 x a2 (i_ids _ _ _ _ _ I)) as [Hnd Hne].
  split; try apply I; try done.
  - intros y Hy. by apply (i_active _ _ _ _ _ I), elem_mid_tl.
  - intros n Hin. destruct (i_owner _ _ _ _ _ I n Hin) as [(y & Hy & Hp & Hv)|Hle]; [|by right].
    apply elem_mid in Hy as [->|Hy]; [congruence|]. left. by exists y.
  - intros y Hy. apply I. by apply elem_mid_tl.
  - intros c Hc. eapply commit_matches_other; [| |by apply I]; [done|].
    intros y Hy. right. exists y. by split; [apply elem_mid_tl|].
  - intros y l1 n l2 Hy. by apply (i_order _ _ _ _ _ I), elem_mid_tl.
  - intros y n m r Hy. by apply (i_excl _ _ _ _ _ I), elem_mid_tl.
  - intros y r w Hy. by apply (i_cur _ _ _ _ _ I), elem_mid_tl.
  - intros y r Hy Hr. by apply I; [apply elem_mid_tl|].
Qed.

Section rollback.
Context (R : list (nat * T)) (time : Z) (a1 : list (txn T)) (x : txn T) (a2 : list (txn T)) (cs : list (commit T)).
Context (l1 : list (node T)) (n : node T) (l2 : list (node T)).
Hypothesis I : inv R (l1 ++ n :: l2) time (a1 ++ x :: a2) cs.
Hypothesis Hv : n_version n = x_id x.

Lemma RollbackUpdate_base :
  (UpdateKind.RollbackUpdate R (n_entries n)).*1 = R.*1 /\
  forall r, assoc (UpdateKind.RollbackUpdate R (n_entries n)) r
            = match assoc (n_entries n) r with Some y => Some y | None => assoc R r end.
Proof.
  apply RollbackUpdate_spec; [apply I| |].
  - pose proof (i_good _ _ _ _ _ I) as Hg. rewrite Forall_mid in Hg. apply Hg.
  - apply Forall_rows. intros r y Hr. destruct (assoc R r) as [z|] eqn:E; [by eapply assoc_elem|].
    exfalso. apply (i_rows _ _ _ _ _ I n r); [apply elem_mid_hd|congruence|done].
Qed.

(** Nodes in front do not hold the rows that are rolled back. *)
Lemma front_rows m r : m ∈ l1 -> has (n_entries n) r -> assoc (n_entries m) r = None.
Proof.
  intros Hm Hr. destruct (assoc (n_entries m) r) as [y|] eqn:E; [exfalso|done].
  pose proof (i_order _ _ _ _ _ I x l1 n l2 (elem_mid_hd _ _ _) eq_refl Hv) as Ho.
  rewrite Forall_forall in Ho. specialize (Ho m Hm). simpl in Ho.
  assert (n_version m <= x_start x); [|lia].
  apply (i_excl _ _ _ _ _ I x n m r); try done; try apply elem_mid_hd.
  - by apply elem_mid_tl, elem_of_app; left.
  - eapply (own_not_other R l1 n l2); eauto. by apply elem_of_app; left.
  - unfold has. congruence.
Qed.

Lemma rollback_values s tid r :
  contrib s tid r n = assoc (n_entries n) r ->
  values (l1 ++ l2) s tid r (cur (UpdateKind.RollbackUpdate R (n_entries n)) r)
  = values (l1 ++ n :: l2) s tid r (cur R r).
Proof.
  intros Hc. unfold cur. rewrite (proj2 RollbackUpdate_base).
  destruct (assoc (n_entries n) r) as [y|] eqn:E; simpl.
  - rewrite values_mid.
    + rewrite Hc. simpl. rewrite values_app, (values_none l1); [done|]. apply Forall_forall. intros m Hm.
      apply contrib_skip_row, front_rows; [done|]. unfold has. congruence.
    + intros m Hm. apply contrib_skip_row, front_rows; [done|]. unfold has. congruence.
  - by rewrite values_remove.
Qed.

Lemma inv_rollback : inv (UpdateKind.RollbackUpdate R (n_entries n)) (l1 ++ l2) time (a1 ++ a2) cs.
Proof.
  destruct (NoDup_mid a1 x a2 (i_ids _ _ _ _ _ I)) as [Hnd Hne].
  destruct RollbackUpdate_base as [Hf Ha]. pose proof (i_time _ _ _ _ _ I) as Ht.
  assert (x ∈ a1 ++ x :: a2) as Hx by apply elem_mid_hd. pose proof (i_active _ _ _ _ _ I x Hx) as [Hxs Hxi].
  assert (forall y, y ∈ a1 ++ a2 -> x_start y <= time /\ TRANSACTION_ID_START <= x_id y) as Hact
    by (intros y Hy; by apply (i_active _ _ _ _ _ I), elem_mid_tl).
  split; try apply I; try done.
  - pose proof (i_base _ _ _ _ _ I) as [Hs Hi]. split; unfold sorted, in_vector; by rewrite Hf.
  - pose proof (i_good _ _ _ _ _ I) as Hg. rewrite Forall_mid in Hg. apply Hg.
  - intros m r Hm Hr. unfold has. rewrite Ha. destruct (assoc (n_entries n) r); [done|].
    apply (i_rows _ _ _ _ _ I m); [by apply elem_mid_tl|done].
  - by eapply ptr_remove, I.
  - intros m Hm. destruct (i_owner _ _ _ _ _ I m) as [(y & Hy & Hp & Hvy)|Hle]; [by apply elem_mid_tl| |by right].
    apply elem_mid in Hy as [->|Hy]; [|left; by exists y].
    exfalso. eapply (own_not_other R l1 n l2); eauto.
  - intros y Hy. apply (node_matches_other y (l1 ++ n :: l2) _ n); [rewrite Hv; by apply not_eq_sym, Hne| |].
    + by intros m [->|Hm]%elem_mid Hmn.
    + apply I. by apply elem_mid_tl.
  - intros c Hc. eapply commit_matches_other; [| |by apply I].
    + intros m [->|Hm]%elem_mid Hmv; [|done]. exfalso. pose proof (i_commits _ _ _ _ _ I c Hc). lia.
    + intros y Hy. right. exists y. by split; [apply elem_mid_tl|].
  - intros m Hm. apply (i_cowner _ _ _ _ _ I). by apply elem_mid_tl.
  - intros y k1 m k2 Hy Heq Hm. destruct (split_removed l1 l2 k1 k2 n m Heq) as (j1 & j2 & Hj & HP).
    apply HP. by eapply (i_order _ _ _ _ _ I); [apply elem_mid_tl| |].
  - intros y k m r Hy Hk Hm. by apply (i_excl _ _ _ _ _ I); apply elem_mid_tl.
  - intros y r w Hy Hw. unfold cur. rewrite Ha.
    destruct (assoc (n_entries n) r) as [z|] eqn:E; [exfalso|by apply (i_cur _ _ _ _ _ I y); [apply elem_mid_tl|]].
    pose proof (i_node _ _ _ _ _ I y (elem_mid_tl _ _ _ _ Hy)) as Hn. unfold node_matches in Hn.
    destruct (x_node y) as [p|]; [|by rewrite Hn in Hw]. destruct Hn as (m & Hm & _ & Hmv & Hmw).
    assert (n_version m <= x_start x); [|specialize (Hact y Hy); lia].
    apply (i_excl _ _ _ _ _ I x n m r); try done; try apply elem_mid_hd.
    + rewrite Hmv. by apply Hne.
    + unfold has. congruence.
    + intros HN. apply Hmw in HN. congruence.
  - intros y r Hy Hr. specialize (Hact y Hy). rewrite <- (i_view _ _ _ _ _ I y r (elem_mid_tl _ _ _ _ Hy) Hr).
    apply rollback_values, contrib_use; [lia|]. rewrite Hv. by apply not_eq_sym, Hne.
  - intros r Hr. rewrite <- (i_now _ _ _ _ _ I r Hr). apply rollback_values, contrib_use; lia.
Qed.
End rollback.

(** *** Cleanup *)

Lemma last_write_mid c1 c c2 p s r :
  last_write (c1 ++ mkCommit (c_id c) p (c_writes c) :: c2) s r = last_write (c1 ++ c :: c2) s r.
Proof. induction c1 as [|c' c1 IH]; simpl; [done|]. by rewrite IH. Qed.

Lemma commit_id_other (c1 : list (commit T)) c c2 c' :
  NoDup (map c_id (c1 ++ c :: c2)) -> c' ∈ c1 ++ c2 -> c_id c <> c_id c'.
Proof.
  intros Hn Hc' Heq. rewrite map_app in Hn. simpl in Hn.
  apply NoDup_app in Hn as (_ & H1 & H2). apply NoDup_cons in H2 as [H2 _].
  assert (forall cs, c' ∈ cs -> c_id c ∈ map c_id cs) as Hin.
  { intros cs Hcs. rewrite Heq. apply list_elem_of_In, in_map, list_elem_of_In, Hcs. }
  apply elem_of_app in Hc' as [Hc'|Hc']; [|by apply H2, Hin].
  apply (H1 (c_id c)); [by apply Hin|]. apply elem_of_cons. by left.
Qed.

Lemma mid_not_elem {A} (l1 : list A) (z : A) (l2 : list A) : NoDup (l1 ++ z :: l2) -> z ∉ l1 ++ l2.
Proof.
  rewrite NoDup_app, NoDup_cons, elem_of_app. intros (_ & H1 & H2 & _) [Hz|Hz]; [|done].
  apply (H1 z Hz), elem_of_cons. by left.
Qed.

Lemma inv_cleanup R l1 n l2 time act c1 c c2 :
  inv R (l1 ++ n :: l2) time act (c1 ++ c :: c2) -> c_node c = Some (n_ptr n) -> n_version n = c_id c ->
  Forall (fun x => c_id c <= x_start x) act ->
  inv R (l1 ++ l2) time act (c1 ++ mkCommit (c_id c) None (c_writes c) :: c2).
Proof.
  intros I Hp Hv Hst. pose proof (i_time _ _ _ _ _ I) as Ht. rewrite Forall_forall in Hst.
  pose proof (i_commits _ _ _ _ _ I c (elem_mid_hd _ _ _)) as Hc.
  assert (forall s r, snapshot (c1 ++ mkCommit (c_id c) None (c_writes c) :: c2) s r
                      = snapshot (c1 ++ c :: c2) s r) as Hsnap
    by (intros s r; unfold snapshot; by rewrite last_write_mid).
  split; try apply I.
  - pose proof (i_good _ _ _ _ _ I) as Hg. rewrite Forall_mid in Hg. apply Hg.
  - intros m r Hm. by apply (i_rows _ _ _ _ _ I m), elem_mid_tl.
  - by eapply ptr_remove, I.
  - intros c' [->|Hc']%elem_mid; [done|]. by apply (i_commits _ _ _ _ _ I), elem_mid_tl.
  - pose proof (i_cids _ _ _ _ _ I) as Hn. rewrite map_app in Hn |- *. exact Hn.
  - intros m Hm. by apply (i_owner _ _ _ _ _ I), elem_mid_tl.
  - intros y Hy. apply (node_matches_other y (l1 ++ n :: l2) _ n).
    + pose proof (i_active _ _ _ _ _ I y Hy). lia.
    + by intros m [->|Hm]%elem_mid Hmn.
    + by apply I.
  - intros c' [->|Hc']%elem_mid; [intros r y Hr Hy; by apply Hst|].
    eapply commit_matches_other; [| |apply I; by apply elem_mid_tl].
    + intros m [->|Hm]%elem_mid Hmv; [|done]. exfalso. rewrite Hv in Hmv.
      by apply (commit_id_other c1 c c2 c' (i_cids _ _ _ _ _ I)).
    + intros y Hy. right. by exists y.
  - intros m Hm Hmv. destruct (i_cowner _ _ _ _ _ I m (elem_mid_tl _ _ _ _ Hm) Hmv) as (c' & Hc' & Hp' & Hv').
    apply elem_mid in Hc' as [->|Hc']; [exfalso|exists c'; split; [by apply elem_mid_tl|done]].
    assert (m = n) as -> by (apply (ptr_inj (l1 ++ n :: l2)); [apply I|by apply elem_mid_tl|apply elem_mid_hd|congruence]).
    by eapply (mid_not_elem l1 n l2), Hm; eapply NoDup_fmap_1, I.
  - intros y k1 m k2 Hy Heq Hm. destruct (split_removed l1 l2 k1 k2 n m Heq) as (j1 & j2 & Hj & HP).
    apply HP. by eapply (i_order _ _ _ _ _ I).
  - intros y k m r Hy Hk Hm. by apply (i_excl _ _ _ _ _ I); [done|apply elem_mid_tl..].
  - intros y r Hy Hr. unfold tx_view. rewrite Hsnap.
    rewrite <- (values_remove l1 n l2) by (apply contrib_skip_old; rewrite Hv; by apply Hst).
    by apply (i_view _ _ _ _ _ I).
  - intros r Hr. rewrite Hsnap, <- (values_remove l1 n l2) by (apply contrib_skip_old; lia).
    by apply (i_now _ _ _ _ _ I).
Qed.

(** *** Update: first an empty node is linked, then rows are merged into the node *)

Section update.
Context (R : list (nat * T)) (time : Z) (a1 : list (txn T)) (x : txn T) (a2 : list (txn T)) (cs : list (commit T)).

(** A transaction that changes neither its start nor its id. *)
Lemma act_same x' (P : Z -> Z -> Prop) :
  x_start x' = x_start x -> x_id x' = x_id x ->
  (forall y, y ∈ a1 ++ x :: a2 -> P (x_start y) (x_id y)) ->
  forall y, y ∈ a1 ++ x' :: a2 -> P (x_start y) (x_id y).
Proof.
  intros Hs Hi HP y [->|Hy]%elem_mid; [rewrite Hs, Hi; apply HP, elem_mid_hd|by apply HP, elem_mid_tl].
Qed.

Lemma same_start x' y :
  x_start x' = x_start x -> y ∈ a1 ++ x' :: a2 -> exists z, z ∈ a1 ++ x :: a2 /\ x_start z = x_start y.
Proof.
  intros Hs [->|Hy]%elem_mid; [exists x; split; [apply elem_mid_hd|done]|exists y; split; [by apply elem_mid_tl|done]].
Qed.

Lemma ids_same x' : x_id x' = x_id x -> map x_id (a1 ++ x' :: a2) = map x_id (a1 ++ x :: a2).
Proof. intros Hi. rewrite !map_app. simpl. by rewrite Hi. Qed.

Lemma inv_insert l q :
  inv R l time (a1 ++ x :: a2) cs -> Forall (fun n => n_version n <> x_id x) l -> q ∉ map n_ptr l ->
  inv R (mkNode q (x_id x) [] :: l) time (a1 ++ mkTx (x_start x) (x_id x) (Some q) (x_writes x) :: a2) cs.
Proof.
  intros I Hown Hq. set (x' := mkTx (x_start x) (x_id x) (Some q) (x_writes x)). set (nq := mkNode q (x_id x) []).
  assert (x ∈ a1 ++ x :: a2) as Hx by apply elem_mid_hd. rewrite Forall_forall in Hown.
  destruct (NoDup_mid a1 x a2 (i_ids _ _ _ _ _ I)) as [Hnd Hne].
  assert (x_node x = None /\ forall r, x_writes x r = None) as [Hxn Hxw].
  { pose proof (i_node _ _ _ _ _ I x Hx) as Hn. unfold node_matches in Hn.
    destruct (x_node x) as [p|]; [|done]. destruct Hn as (m & Hm & _ & Hmv & _). by apply Hown in Hm. }
  assert (forall s tid r y, values (nq :: l) s tid r y = values l s tid r y) as Hval.
  { intros s tid r y. unfold values. simpl. by rewrite (contrib_skip_row s tid r nq). }
  pose proof (i_active _ _ _ _ _ I x Hx) as Hxa. pose proof (i_time _ _ _ _ _ I) as Ht.
  split; try apply I.
  - constructor; [|apply I]. split; [apply sorted_nil|constructor].
  - intros m r [->|Hm]%elem_of_cons; [done|by apply I].
  - simpl. apply NoDup_cons. split; [done|apply I].
  - apply (act_same x' (fun s i => s <= time /\ TRANSACTION_ID_START <= i)); [done|done|apply I].
  - rewrite (ids_same x') by done. apply I.
  - intros m [->|Hm]%elem_of_cons; [left; exists x'; split; [apply elem_mid_hd|done]|].
    destruct (i_owner _ _ _ _ _ I m Hm) as [(y & Hy & Hp & Hvy)|Hle]; [left|by right].
    apply elem_mid in Hy as [->|Hy]; [congruence|]. exists y. split; [by apply elem_mid_tl|done].
  - intros y [->|Hy]%elem_mid.
    + exists nq. split; [apply elem_of_cons; by left|]. split; [done|]. split; [done|]. intros r. simpl. by rewrite Hxw.
    + apply (node_matches_other y l _ nq); [by apply not_eq_sym, Hne| |apply I; by apply elem_mid_tl].
      intros m Hm _. apply elem_of_cons. by right.
  - intros c Hc. eapply commit_matches_other; [| |by apply I].
    + intros m Hm _. apply elem_of_cons. by right.
    + intros y Hy. right. by apply (same_start x').
  - intros m [->|Hm]%elem_of_cons Hmv; [simpl in Hmv; lia|by apply (i_cowner _ _ _ _ _ I)].
  - intros y k1 m k2 Hy Heq Hm. destruct k1 as [|z k1]; [constructor|]. simpl in Heq.
    injection Heq as <- Heq. apply elem_mid in Hy as [->|Hy].
    { exfalso. apply (Hown m); [|done]. rewrite Heq. apply elem_mid_hd. }
    pose proof (i_active _ _ _ _ _ I y (elem_mid_tl _ _ _ _ Hy)).
    constructor; [simpl; lia|]. by eapply (i_order _ _ _ _ _ I); [apply elem_mid_tl| |].
  - intros y k m r Hy [->|Hk]%elem_of_cons [->|Hm]%elem_of_cons Hkv Hmv Hkr Hmr; try done.
    apply elem_mid in Hy as [->|Hy]; [by apply Hown in Hk|].
    by apply (i_excl _ _ _ _ _ I y k m r); [apply elem_mid_tl|..].
  - intros y r w [->|Hy]%elem_mid; [apply (i_cur _ _ _ _ _ I x r w Hx)|].
    by apply (i_cur _ _ _ _ _ I), elem_mid_tl.
  - intros y r Hy Hr. rewrite Hval. apply elem_mid in Hy as [->|Hy].
    + apply (i_view _ _ _ _ _ I x r Hx Hr).
    + by apply (i_view _ _ _ _ _ I); [apply elem_mid_tl|].
  - intros r Hr. rewrite Hval. by apply (i_now _ _ _ _ _ I).
Qed.

Section merge.
Context (l1 : list (node T)) (n : node T) (l2 : list (node T)) (w R' es : list (nat * T)).
Hypothesis I : inv R (l1 ++ n :: l2) time (a1 ++ x :: a2) cs.
Hypothesis Hv : n_version n = x_id x.
Hypothesis Hfree : Forall (fun m => ~ conflicts (data_of x) w.*1 m) (l1 ++ n :: l2).
Hypothesis Hmerged : merged B w R R' (n_entries n) es.

Lemma update_others m r : m ∈ l1 ++ l2 -> r ∈ w.*1 -> has (n_entries m) r -> n_version m <= x_start x.
Proof.
  intros Hm Hr Hh. rewrite Forall_forall in Hfree. destruct (Z.le_gt_cases (n_version m) (x_start x)) as [|Hgt]; [done|].
  destruct (Hfree m (elem_mid_tl _ _ _ _ Hm)). split; [|split; [exact Hgt|]].
  - simpl. eapply (own_not_other R l1 n l2); eauto using elem_mid_hd.
  - exists r. split; [done|]. destruct (assoc (n_entries m) r) eqn:E; [by eapply assoc_elem|done].
Qed.

Lemma update_front m r : m ∈ l1 -> r ∈ w.*1 -> assoc (n_entries m) r = None.
Proof.
  intros Hm Hr. destruct (assoc (n_entries m) r) as [y|] eqn:E; [exfalso|done].
  pose proof (i_order _ _ _ _ _ I x l1 n l2 (elem_mid_hd _ _ _) eq_refl Hv) as Ho.
  rewrite Forall_forall in Ho. specialize (Ho m Hm). simpl in Ho.
  assert (n_version m <= x_start x); [|lia].
  apply (update_others m r); [by apply elem_of_app; left|done|]. unfold has. congruence.
Qed.

Lemma update_cur r : cur R' r = match assoc w r with Some y => y | None => cur R r end.
Proof.
  unfold cur. destruct Hmerged as (_ & _ & HR & _). rewrite HR. unfold override. by destruct (assoc w r).
Qed.

Lemma update_entries r : assoc w r = None -> assoc es r = assoc (n_entries n) r.
Proof.
  intros Hr. destruct Hmerged as (_ & _ & _ & o & _ & He). rewrite He.
  destruct (assoc (n_entries n) r); [done|]. rewrite decide_False; [done|]. by apply assoc_None.
Qed.

(** A reader the node applies to sees no difference. *)
Lemma update_values s tid r :
  s < n_version n -> n_version n <> tid -> row_valid B r = true ->
  values (l1 ++ with_entries es n :: l2) s tid r (cur R' r) = values (l1 ++ n :: l2) s tid r (cur R r).
Proof.
  intros Hs Ht Hr. rewrite update_cur. destruct (assoc w r) as [y|] eqn:Ew.
  - pose proof (assoc_elem _ _ _ Ew) as Hin.
    rewrite !values_mid by (intros m Hm; by apply contrib_skip_row, update_front).
    rewrite !contrib_use by done. simpl. f_equal.
    destruct Hmerged as (_ & _ & _ & o & Ho & He). rewrite He, decide_True by done.
    destruct (assoc (n_entries n) r); simpl; [done|]. by apply Ho.
  - apply values_mid_ext; [done|]. unfold contrib. simpl.
    change (applies (with_entries es n) s tid) with (applies n s tid). by rewrite update_entries.
Qed.

(** The transaction itself sees what it wrote. *)
Lemma update_own_values r :
  values (l1 ++ with_entries es n :: l2) (x_start x) (x_id x) r (cur R' r)
  = match assoc w r with Some y => y | None => values (l1 ++ n :: l2) (x_start x) (x_id x) r (cur R r) end.
Proof.
  assert (forall m, n_version m = x_id x -> contrib (x_start x) (x_id x) r m = None) as Hown
    by (intros m <-; apply contrib_skip_own).
  rewrite !values_remove by by apply Hown. rewrite update_cur. destruct (assoc w r) as [y|] eqn:Ew; [|done].
  apply values_none, Forall_forall. intros m Hm.
  destruct (assoc (n_entries m) r) eqn:Em; [|by apply contrib_skip_row].
  apply contrib_skip_old, (update_others m r); [done|by eapply assoc_elem|]. unfold has. congruence.
Qed.

(** No other running transaction has written one of the rows. *)
Lemma update_not_written y r : y ∈ a1 ++ a2 -> r ∈ w.*1 -> x_writes y r = None.
Proof.
  intros Hy Hr. destruct (NoDup_mid a1 x a2 (i_ids _ _ _ _ _ I)) as [_ Hne].
  pose proof (i_node _ _ _ _ _ I y (elem_mid_tl _ _ _ _ Hy)) as Hn. unfold node_matches in Hn.
  destruct (x_node y) as [p|]; [|by apply Hn]. destruct Hn as (m & Hm & _ & Hmv & Hmw).
  apply Hmw. destruct (assoc (n_entries m) r) eqn:E; [exfalso|done].
  pose proof (i_active _ _ _ _ _ I y (elem_mid_tl _ _ _ _ Hy)).
  pose proof (i_active _ _ _ _ _ I x (elem_mid_hd _ _ _)). pose proof (i_time _ _ _ _ _ I).
  assert (n_version m <= x_start x); [|lia]. apply (update_others m r); [|done|unfold has; congruence].
  apply elem_mid in Hm as [->|Hm]; [|done]. exfalso. apply (Hne y Hy). congruence.
Qed.

(** Front nodes and rows of the changed chain. *)
Lemma update_order y k1 m k2 :
  y ∈ a1 ++ wrote w x (x_node x) :: a2 -> l1 ++ with_entries es n :: l2 = k1 ++ m :: k2 ->
  n_version m = x_id y -> Forall (fun m => x_start y < n_version m) k1.
Proof.
  intros Hy Heq Hm. destruct (NoDup_mid a1 x a2 (i_ids _ _ _ _ _ I)) as [_ Hne].
  pose proof (elem_mid_hd x a1 a2) as Hx.
  destruct (decide (n_version m = n_version n /\ n_ptr m = n_ptr n)) as [[Hmv Hmp]|Hmn].
  - assert (NoDup (map n_ptr (l1 ++ with_entries es n :: l2))) as Hnp
      by (rewrite (ptr_mid l1 n); [apply I|done]).
    assert (m = with_entries es n) as ->.
    { apply (ptr_inj (l1 ++ with_entries es n :: l2)); [done| |apply elem_mid_hd|done].
      rewrite Heq. apply elem_mid_hd. }
    rewrite (split_unique l1 l2 k1 k2 (with_entries es n)); [|by apply NoDup_fmap_1 in Hnp|done].
    apply elem_mid in Hy as [->|Hy]; [|exfalso; apply (Hne y Hy); congruence].
    apply (i_order _ _ _ _ _ I x l1 n l2 Hx eq_refl Hv).
  - assert (m <> with_entries es n) as Hmn' by (intros ->; by apply Hmn).
    destruct (split_replaced l1 l2 k1 k2 n (with_entries es n) m Hmn' Heq) as (j1 & j2 & Hj & HP).
    apply HP; [done|]. apply elem_mid in Hy as [->|Hy]; [by apply (i_order _ _ _ _ _ I x j1 m j2)|].
    by eapply (i_order _ _ _ _ _ I); [apply elem_mid_tl| |].
Qed.

Lemma update_rows r : has es r -> has (n_entries n) r \/ r ∈ w.*1.
Proof.
  destruct Hmerged as (_ & _ & _ & o & _ & He). unfold has. rewrite He.
  destruct (assoc (n_entries n) r); [by left|]. case_decide; [by right|done].
Qed.

Lemma update_excl y k m r :
  y ∈ a1 ++ wrote w x (x_node x) :: a2 -> k ∈ l1 ++ with_entries es n :: l2 ->
  m ∈ l1 ++ with_entries es n :: l2 -> n_version k = x_id y -> n_version m <> x_id y ->
  has (n_entries k) r -> has (n_entries m) r -> n_version m <= x_start y.
Proof.
  intros Hy Hk Hm Hkv Hmv Hkr Hmr. destruct (NoDup_mid a1 x a2 (i_ids _ _ _ _ _ I)) as [_ Hne].
  pose proof (elem_mid_hd x a1 a2) as Hx. apply elem_mid in Hy as [->|Hy]; simpl in *.
  - apply elem_mid in Hm as [->|Hm]; [done|].
    apply elem_mid in Hk as [->|Hk]; [|exfalso; exact (own_not_other R l1 n l2 time _ cs x k I Hx Hv Hk Hkv)].
    apply update_rows in Hkr as [Hkr|Hr]; [|by apply (update_others m r)].
    apply (i_excl _ _ _ _ _ I x n m r); eauto.
  - apply elem_mid in Hk as [->|Hk]; [exfalso; apply (Hne y Hy); simpl in Hkv; congruence|].
    pose proof (elem_mid_tl _ x _ _ Hy) as Hya. pose proof (elem_mid_tl _ n _ _ Hk) as Hkl.
    apply elem_mid in Hm as [->|Hm]; [|apply (i_excl _ _ _ _ _ I y k m r); try done; by apply elem_mid_tl].
    apply update_rows in Hmr as [Hmr|Hr]; [apply (i_excl _ _ _ _ _ I y k n r); try done; apply elem_mid_hd|].
    exfalso. pose proof (update_not_written y r Hy Hr) as Hw.
    pose proof (i_node _ _ _ _ _ I y Hya) as Hn. unfold node_matches in Hn.
    rewrite (own_ptr I y k Hya Hkl Hkv) in Hn. destruct Hn as (m & Hm & _ & Hmv' & Hmw).
    assert (m = k) as -> by (by apply (own_unique I y)). by apply Hmw in Hw.
Qed.

Lemma inv_update : inv R' (l1 ++ with_entries es n :: l2) time (a1 ++ wrote w x (x_node x) :: a2) cs.
Proof.
  destruct (NoDup_mid a1 x a2 (i_ids _ _ _ _ _ I)) as [Hnd Hne].
  destruct Hmerged as (HgR & Hge & HR & o & Ho & He). set (x' := wrote w x (x_node x)).
  assert (x ∈ a1 ++ x :: a2) as Hx by apply elem_mid_hd.
  pose proof (i_active _ _ _ _ _ I x Hx) as Hxa. pose proof (i_time _ _ _ _ _ I) as Ht.
  assert (forall y, y ∈ a1 ++ a2 -> x_start y <= time /\ TRANSACTION_ID_START <= x_id y) as Hact
    by (intros y Hy; by apply (i_active _ _ _ _ _ I), elem_mid_tl).
  assert (forall r, has R r -> has R' r) as HRR.
  { intros r Hr. unfold has. rewrite HR. unfold override. by destruct (assoc w r). }
  split; try apply I; try done.
  - pose proof (i_good _ _ _ _ _ I) as Hg. rewrite Forall_mid in Hg |- *. by destruct Hg.
  - intros m r [->|Hm]%elem_mid; [|intros Hh; apply HRR, (i_rows _ _ _ _ _ I m r); [by apply elem_mid_tl|done]].
    intros [Hh|Hr]%update_rows; [apply HRR, (i_rows _ _ _ _ _ I n r (elem_mid_hd _ _ _) Hh)|].
    unfold has. rewrite HR. unfold override. apply elem_assoc in Hr as [y ->]. done.
  - rewrite (ptr_mid l1 n); [apply I|done].
  - apply (act_same x' (fun s i => s <= time /\ TRANSACTION_ID_START <= i)); [done|done|apply I].
  - rewrite (ids_same x') by done. apply I.
  - intros m Hm. assert (exists m', m' ∈ l1 ++ n :: l2 /\ n_ptr m' = n_ptr m /\ n_version m' = n_version m)
      as (m' & Hm' & Hp' & Hv').
    { apply elem_mid in Hm as [->|Hm]; [exists n; by split; [apply elem_mid_hd|]|].
      exists m. by split; [apply elem_mid_tl|]. }
    destruct (i_owner _ _ _ _ _ I m' Hm') as [(y & Hy & Hp & Hvy)|Hle]; [left|right; lia].
    apply elem_mid in Hy as [->|Hy]; [exists x'; split; [apply elem_mid_hd|]|exists y; split; [by apply elem_mid_tl|]];
      simpl; split; congruence.
  - intros y [->|Hy]%elem_mid.
    + pose proof (i_node _ _ _ _ _ I x Hx) as Hn. unfold node_matches in Hn |- *. simpl.
      rewrite (own_ptr I x n Hx (elem_mid_hd _ _ _) Hv) in Hn |- *. destruct Hn as (m & Hm & Hmp & Hmv & Hmw).
      assert (m = n) as -> by (eapply (own_unique I); eauto using elem_mid_hd).
      exists (with_entries es n). split; [apply elem_mid_hd|]. split; [done|]. split; [done|].
      intros r. simpl. rewrite He. destruct (assoc w r) as [y|] eqn:Ew.
      * split; [done|]. rewrite decide_True by (by eapply assoc_elem). by destruct (assoc (n_entries n) r).
      * rewrite decide_False by (by apply assoc_None). rewrite Hmw. by destruct (assoc (n_entries n) r).
    + apply (node_matches_other y (l1 ++ n :: l2) _ n); [rewrite Hv; by apply not_eq_sym, Hne| |].
      * intros m [->|Hm]%elem_mid Hmn; [done|by apply elem_mid_tl].
      * apply I. by apply elem_mid_tl.
  - intros c Hc. eapply commit_matches_other; [| |by apply I].
    + intros m [->|Hm]%elem_mid Hmv; [|by apply elem_mid_tl].
      exfalso. pose proof (i_commits _ _ _ _ _ I c Hc). lia.
    + intros y Hy. right. by apply (same_start x').
  - intros m [->|Hm]%elem_mid Hmv; [simpl in Hmv; lia|]. apply (i_cowner _ _ _ _ _ I); [by apply elem_mid_tl|done].
  - apply update_order.
  - apply update_excl.
  - intros y r z [->|Hy]%elem_mid; rewrite update_cur.
    + simpl. destruct (assoc w r) as [u|]; [by intros [= ->]|by apply (i_cur _ _ _ _ _ I)].
    + intros Hz. destruct (assoc w r) as [u|] eqn:Ew; [|by apply (i_cur _ _ _ _ _ I y); [apply elem_mid_tl|]].
      exfalso. rewrite (update_not_written y r Hy) in Hz; [done|]. by eapply assoc_elem.
  - intros y r [->|Hy]%elem_mid Hr.
    + simpl. rewrite update_own_values. unfold tx_view. simpl.
      destruct (assoc w r) as [u|]; [done|]. apply (i_view _ _ _ _ _ I x r Hx Hr).
    + specialize (Hact y Hy). rewrite update_values; [|lia| |done].
      * by apply (i_view _ _ _ _ _ I); [apply elem_mid_tl|].
      * rewrite Hv. by apply not_eq_sym, Hne.
  - intros r Hr. rewrite update_values; [by apply (i_now _ _ _ _ _ I)|lia|lia|done].
Qed.
End merge.
End update.

(** ** The invariant holds at every reachable state *)

Definition sinv (σ : sys) : Prop :=
  exists R l, repr (seg σ) v R l /\ inv R l (now σ) (active σ) (commits σ).

Lemma sinv_init start st time : 0 <= time < TRANSACTION_ID_START - 1 -> sinv (init start st time).
Proof.
  intros Ht. exists [], []. split; [by split|].
  split; simpl; try done;
    try (intros; match goal with H : _ ∈ [] |- _ => by apply not_elem_of_nil in H end);
    try apply NoDup_nil_2.
  split; [apply sorted_nil|apply Forall_nil_2].
Qed.

Lemma own_cases R l time a1 x a2 cs :
  inv R l time (a1 ++ x :: a2) cs ->
  (x_node x = None /\ Forall (fun n => n_version n <> x_id x) l) \/
  (exists l1 n l2, l = l1 ++ n :: l2 /\ x_node x = Some (n_ptr n) /\ n_version n = x_id x /\
     Forall (fun n => n_version n <> x_id x) l2 /\
     forall r, x_writes x r = None <-> assoc (n_entries n) r = None).
Proof.
  intros I. pose proof (elem_mid_hd x a1 a2) as Hx.
  pose proof (i_node _ _ _ _ _ I x Hx) as Hn. unfold node_matches in Hn.
  destruct (x_node x) as [p|] eqn:Ep; [right|left].
  - destruct Hn as (n & Hin & <- & Hv & Hw). destruct (list_elem_of_split _ _ Hin) as (l1 & l2 & ->).
    exists l1, n, l2. repeat split; try done; try apply Hw.
    apply Forall_forall. intros m Hm. eapply (own_not_other R l1 n l2); eauto. by apply elem_of_app; right.
  - split; [done|]. apply Forall_forall. intros n Hin Hv. pose proof (own_ptr I x n Hx Hin Hv). congruence.
Qed.

(** What [Update] does at a state that satisfies the invariant. *)
Lemma update_outcome R l σ a1 x a2 col u ids count m' res :
  repr (seg σ) v R l -> inv R l (now σ) (a1 ++ x :: a2) (commits σ) -> rows_of (seg σ) v ids count ->
  Update sort (seg σ) (data_of x) col u ids count B = (m', res) ->
  outcome (seg σ) (data_of x) B v (written sort (seg σ) u ids count B) R l m' res.
Proof.
  intros Hr I Hrows HU.
  destruct (Update_outcome ok size sort Hsort (seg σ) (data_of x) col u ids count B v R l m' res)
    as [Ho _]; try done; try apply I.
  destruct (own_cases _ _ _ _ _ _ _ I) as [[_ H]|(l1 & n & l2 & H1 & _ & H2 & H3 & _)]; [by left|right].
  by exists l1, n, l2.
Qed.

Lemma wrote_nothing x : wrote [] x (x_node x) = x.
Proof. by destruct x. Qed.

Lemma fresh_ptr (m : t (T := T) (S := S)) R l q : repr m v R l -> heap m !! q = None -> q ∉ map n_ptr l.
Proof.
  unfold repr. destruct (GetUpdateNode m v) as [a|]; [|intros [_ ->] _; apply not_elem_of_nil].
  intros Hr Hq. pose proof (heap_repr_fresh _ _ _ _ _ q Hr Hq) as Hf. simpl in Hf.
  rewrite not_elem_of_cons in Hf. tauto.
Qed.

Lemma update_step_inv R l σ a1 x a2 w m' p :
  inv R l (now σ) (a1 ++ x :: a2) (commits σ) -> repr (seg σ) v R l ->
  outcome (seg σ) (data_of x) B v w R l m' (Ok p) ->
  exists R' l', repr m' v R' l' /\
    inv R' l' (now σ) (a1 ++ wrote w x (match p with Some _ => p | None => x_node x end) :: a2) (commits σ) /\
    forall r, values l' (x_start x) (x_id x) r (cur R' r)
              = match assoc w r with Some y => y | None => values l (x_start x) (x_id x) r (cur R r) end.
Proof.
  intros I Hr Ho. inversion Ho; subst.
  - exists R, l. rewrite wrote_nothing. split; [done|]. split; [done|]. by intros r.
  - exists R', (l1 ++ with_entries es n :: l2). split; [done|]. split; [by apply (inv_update R)|].
    intros r. by eapply update_own_values.
  - match goal with H : heap _ !! q = None |- _ => pose proof (fresh_ptr _ _ _ _ Hr H) as Hq end.
    pose proof (inv_insert R (now σ) a1 x a2 (commits σ) l q I H1 Hq) as I'.
    set (x' := mkTx (x_start x) (x_id x) (Some q) (x_writes x)) in *.
    assert (Forall (fun m => ~ conflicts (data_of x') w.*1 m) ([] ++ mkNode q (x_id x) [] :: l)) as Hf.
    { constructor; [|done]. intros [Hne _]. done. }
    exists R', (mkNode q (x_id x) es :: l). split; [done|]. split.
    + apply (inv_update R (now σ) a1 x' a2 (commits σ) [] (mkNode q (x_id x) []) l w R' es); done.
    + intros r.
      pose proof (update_own_values R (now σ) a1 x' a2 (commits σ) [] (mkNode q (x_id x) []) l w R' es I' eq_refl Hf H3 r) as Hv.
      simpl app in Hv. change (with_entries es (mkNode q (x_id x) [])) with (mkNode q (x_id x) es) in Hv.
      simpl x_start in Hv. simpl x_id in Hv. rewrite Hv. destruct (assoc w r); [done|].
      unfold values. simpl. by rewrite (contrib_skip_row _ _ _ (mkNode q (x_id x) [])).
Qed.

Lemma step_sinv σ σ' : step σ σ' -> sinv σ -> sinv σ'.
Proof.
  intros Hs (R & l & Hr & I). inversion Hs; subst; simpl.
  - exists R, l. split; [done|]. by apply (inv_begin R l (now σ)).
  - rewrite H in I. pose proof (update_outcome _ _ _ _ _ _ _ _ _ _ _ _ Hr I H0 H1) as Ho.
    destruct (update_step_inv _ _ _ _ _ _ _ _ _ I Hr Ho) as (R' & l' & Hr' & I' & _). by exists R', l'.
  - pose proof I as I'. rewrite H in I'. pose proof (update_outcome _ _ _ _ _ _ _ _ _ _ _ _ Hr I' H0 H1) as Ho.
    inversion Ho; subst. by exists R, l.
  - rewrite H in I. destruct (own_cases _ _ _ _ _ _ _ I) as [[Hn _]|(l1 & n & l2 & -> & Hn & Hv & _ & Hw)]; rewrite Hn.
    + exists R, l. split; [done|]. by apply (inv_commit_empty R (now σ)).
    + exists R, (l1 ++ with_version cid n :: l2). split; [by apply CommitUpdate_repr|].
      rewrite <- Hn. by apply (inv_commit_node R (now σ)).
  - rewrite H in I. destruct (own_cases _ _ _ _ _ _ _ I) as [[Hn _]|(l1 & n & l2 & -> & Hn & Hv & _ & Hw)]; rewrite Hn.
    + exists R, l. split; [done|]. by apply (inv_drop R l _ a1 x).
    + exists (UpdateKind.RollbackUpdate R (n_entries n)), (l1 ++ l2). split; [by apply RollbackUpdate_repr|].
      by apply (inv_rollback R _ a1 x).
  - rewrite H in I. pose proof (i_cnode _ _ _ _ _ I c (elem_mid_hd _ _ _)) as Hc.
    unfold commit_matches in Hc. rewrite H0 in Hc. destruct Hc as (n & Hin & <- & Hv & _).
    destruct (list_elem_of_split _ _ Hin) as (l1 & l2 & ->).
    exists R, (l1 ++ l2). split; [by apply CleanupUpdate_repr|]. by apply (inv_cleanup R l1 n).
Qed.

Lemma reachable_sinv σ : reachable σ -> sinv σ.
Proof.
  intros (start & st & time & Ht & Hs). pose proof (sinv_init start st time Ht) as H.
  revert H. induction Hs as [|σ1 σ2 σ3 Hst _ IH]; [done|]. intros H. apply IH. by apply (step_sinv σ1).
Qed.

(** The view of a reader in terms of the invariant. *)
Lemma fetch_values R l (σ : sys) x r :
  repr (seg σ) v R l -> inv R l (now σ) (active σ) (commits σ) -> x ∈ active σ -> ok B ->
  (STANDARD_VECTOR_SIZE <= size B)%nat -> (r < STANDARD_VECTOR_SIZE)%nat ->
  extract (FetchUpdates (seg σ) (data_of x) v B) r = values l (x_start x) (x_id x) r (cur R r).
Proof.
  intros Hr I Hx Hok Hsz Hlt. pose proof (i_active _ _ _ _ _ I x Hx). pose proof (i_time _ _ _ _ _ I).
  destruct (FetchUpdates_values ok size (seg σ) v R l (data_of x) B) as (_ & _ & Hv); try done; try apply I.
  - split; simpl; lia.
  - by rewrite Hv by lia.
Qed.

(** A conflicting node belongs to a transaction that runs, or committed after the snapshot. *)
Definition concurrent_write (σ : sys) x r : Prop :=
  (exists y, y ∈ active σ /\ x_id y <> x_id x /\ x_writes y r <> None) \/
  (exists c, c ∈ commits σ /\ x_start x < c_id c /\ c_writes c r <> None).

Lemma conflicts_concurrent R l (σ : sys) x ids :
  inv R l (now σ) (active σ) (commits σ) -> x ∈ active σ ->
  Exists (conflicts (data_of x) ids) l <-> exists r, r ∈ ids /\ concurrent_write σ x r.
Proof.
  intros I Hx. pose proof (i_active _ _ _ _ _ I x Hx) as Hxa. pose proof (i_time _ _ _ _ _ I) as Ht.
  rewrite Exists_exists. split.
  - intros (n & Hn & Hne & Hgt & r & Hr & Hrn). simpl in Hne, Hgt. exists r. split; [done|].
    apply elem_assoc in Hrn as [y Hy].
    destruct (Z.lt_ge_cases (n_version n) TRANSACTION_ID_START) as [Hlt|Hge].
    + right. destruct (i_cowner _ _ _ _ _ I n Hn Hlt) as (c & Hc & Hp & Hv).
      exists c. split; [done|]. split; [lia|]. pose proof (i_cnode _ _ _ _ _ I c Hc) as Hm.
      unfold commit_matches in Hm. rewrite Hp in Hm. destruct Hm as (m & Hm & Hmp & _ & Hw).
      assert (m = n) as -> by (by apply (ptr_inj l); [apply I|..]). rewrite Hw. congruence.
    + left. destruct (i_owner _ _ _ _ _ I n Hn) as [(z & Hz & Hp & Hv)|]; [|lia].
      exists z. split; [done|]. split; [congruence|]. pose proof (i_node _ _ _ _ _ I z Hz) as Hm.
      unfold node_matches in Hm. rewrite Hp in Hm. destruct Hm as (m & Hm & Hmp & _ & Hw).
      assert (m = n) as -> by (by apply (ptr_inj l); [apply I|..]). rewrite Hw. congruence.
  - intros (r & Hr & [(y & Hy & Hne & Hw)|(c & Hc & Hlt & Hw)]).
    + pose proof (i_node _ _ _ _ _ I y Hy) as Hm. unfold node_matches in Hm.
      destruct (x_node y) as [p|]; [|by rewrite Hm in Hw]. destruct Hm as (n & Hn & _ & Hv & Hw').
      pose proof (i_active _ _ _ _ _ I y Hy). exists n. split; [done|].
      split; [simpl; congruence|]. split; [simpl; lia|]. exists r. split; [done|].
      destruct (assoc (n_entries n) r) eqn:E; [by eapply assoc_elem|]. by apply Hw' in E.
    + pose proof (i_cnode _ _ _ _ _ I c Hc) as Hm. pose proof (i_commits _ _ _ _ _ I c Hc).
      unfold commit_matches in Hm. destruct (c_node c) as [p|].
      * destruct Hm as (n & Hn & _ & Hv & Hw'). exists n. split; [done|].
        split; [simpl; lia|]. split; [simpl; lia|]. exists r. split; [done|].
        destruct (assoc (n_entries n) r) eqn:E; [by eapply assoc_elem|]. by apply Hw' in E.
      * specialize (Hm r x Hw Hx). lia.
Qed.

(** *** The entries an update brings *)

Lemma assoc_new_entries (f : nat -> T) (a : list (nat * nat)) r idx :
  StronglySorted lt a.*1 -> (r, idx) ∈ a -> assoc (new_entries f a) r = Some (f idx).
Proof.
  induction a as [|[r' idx'] a IH]; intros Ha Hin; [by apply not_elem_of_nil in Hin|]. simpl in *.
  apply StronglySorted_inv in Ha as [Ha Hlt]. apply elem_of_cons in Hin as [[= <- <-]|Hin].
  - by rewrite decide_True.
  - rewrite decide_False; [by apply IH|]. intros ->. rewrite Forall_forall in Hlt.
    assert (r < r)%nat; [|lia]. apply Hlt, list_elem_of_In, (in_map fst _ (r, idx)), list_elem_of_In, Hin.
Qed.

Lemma update_selection_sub (sel : list nat) (m : t (T := T) (S := S)) u ids :
  update_selection sort m u ids sel B ⊆ sel.
Proof.
  destruct (SortSelectionVector_spec sort sel (fun idx => ids !!! idx) Hsort) as (_ & Hsub & _).
  unfold update_selection. destruct (GetUpdateNode m _); [done|].
  destruct (effective_sel (ok := ok) (size := size) u ids (SortSelectionVector sort sel (fun idx => ids !!! idx)) B
    (vector_offset m (vector_of m (ids !!! (SortSelectionVector sort sel (fun idx => ids !!! idx) !!! 0%nat)))))
    as (keep & -> & _).
  intros i. rewrite list_elem_of_In, filter_In, <- list_elem_of_In. intros [Hi _]. by apply Hsub.
Qed.

Lemma first_row_vector (m : t (T := T) (S := S)) w u ids count i :
  rows_of m w ids count -> i ∈ update_selection sort m u ids (update_statistics (stats m) u count).2 B ->
  vector_of m (first_row_id sort (update_statistics (stats m) u count).2 ids) = w.
Proof.
  intros Hrows Hi. apply update_selection_sub in Hi.
  rewrite (statistics_sel (ok := ok) (size := size)) in Hi |- *. set (sel0 := List.filter _ (seq 0 count)) in *.
  destruct (SortSelectionVector_spec sort sel0 (fun i => ids !!! i) Hsort) as (_ & Hsub & Hrep).
  destruct (Hrep i Hi) as (j & Hj & _). unfold first_row_id.
  destruct (SortSelectionVector sort sel0 _) as [|k ks]; [by apply not_elem_of_nil in Hj|].
  assert (k ∈ sel0) as Hk by (by apply Hsub, elem_of_cons; left).
  unfold sel0 in Hk. rewrite list_elem_of_In, filter_In, in_seq in Hk. simpl. apply Hrows. lia.
Qed.

Lemma vector_offset_le (m : t (T := T) (S := S)) w ids count i :
  rows_of m w ids count -> (i < count)%nat ->
  (vector_offset m w <= ids !!! i < vector_offset m w + STANDARD_VECTOR_SIZE)%nat.
Proof.
  intros Hrows Hi. destruct (Hrows i Hi) as [Hs Hv]. unfold vector_of in Hv. unfold vector_offset.
  pose proof SVS_pos. pose proof (Nat.div_mod_eq (ids !!! i - start m) STANDARD_VECTOR_SIZE).
  pose proof (Nat.mod_upper_bound (ids !!! i - start m) STANDARD_VECTOR_SIZE). nia.
Qed.

Lemma written_spec (m : t (T := T) (S := S)) u ids count idx :
  rows_of m v ids count -> (idx < count)%nat -> row_valid (uvec u) (usel u idx) = true ->
  (forall i, (i < count)%nat -> row_valid (uvec u) (usel u i) = true -> ids !!! i = ids !!! idx -> i = idx) ->
  let r := (ids !!! idx - vector_offset m v)%nat in
  assoc (written sort m u ids count B) r = Some (extract (uvec u) (usel u idx)) \/
  (assoc (written sort m u ids count B) r = None /\ GetUpdateNode m v = None /\
   extract (uvec u) (usel u idx) = extract B r).
Proof.
  intros Hrows Hidx Hvalid Huniq r. pose proof (selection_spec ok size sort Hsort m u ids count B) as Hsel.
  cbv zeta in Hsel. unfold written. rewrite (statistics_sel (ok := ok) (size := size)) in Hsel |- *.
  set (sel0 := List.filter _ (seq 0 count)) in *.
  assert (idx ∈ sel0) as Hin0.
  { apply list_elem_of_In. unfold sel0. rewrite filter_In, in_seq. split; [lia|done]. }
  assert (forall i, i ∈ sel0 -> (i < count)%nat /\ row_valid (uvec u) (usel u i) = true) as Hsel0.
  { intros i. unfold sel0. rewrite list_elem_of_In, filter_In, in_seq. intros [? ?]. split; [lia|done]. }
  destruct (SortSelectionVector_spec sort sel0 (fun i => ids !!! i) Hsort) as (_ & Hsub & Hrep).
  destruct (Hrep idx Hin0) as (j & Hj & Hji). assert (j = idx) as ->.
  { apply Hsub, Hsel0 in Hj as [Hj1 Hj2]. by apply Huniq. }
  assert (vector_of m (first_row_id sort sel0 ids) = v) as Hv.
  { unfold first_row_id. destruct (SortSelectionVector sort sel0 _) as [|k ks]; [by apply not_elem_of_nil in Hj|].
    assert (k ∈ sel0) as Hk by (by apply Hsub, elem_of_cons; left). apply Hsel0 in Hk as [Hk _].
    simpl. by apply Hrows. }
  rewrite Hv. destruct (row_list_good m v ids _ count Hrows (proj2 Hsel) (proj1 Hsel)) as [Ha _].
  set (sel := update_selection sort m u ids sel0 B) in *.
  destruct (decide (idx ∈ sel)) as [Hin|Hout].
  - left. apply (assoc_new_entries (fun i => extract (uvec u) (usel u i))); [done|].
    apply list_elem_of_In. unfold row_list.
    apply (in_map (fun i => ((ids !!! i - vector_offset m v)%nat, i))), list_elem_of_In, Hin.
  - right. split.
    + apply assoc_None. rewrite new_entries_rows, row_list_rows, list_elem_of_In, in_map_iff.
      intros (i & Hi & Hiin%list_elem_of_In). apply Hout.
      assert (i < count)%nat as Hic by (destruct Hsel as [_ Hs]; rewrite Forall_forall in Hs; by apply Hs).
      pose proof (vector_offset_le m v ids count i Hrows Hic). pose proof (vector_offset_le m v ids count idx Hrows Hidx).
      assert (i = idx) as <-; [|done]. apply Huniq; [done| |unfold r in Hi; lia].
      by apply Hsel0, (update_selection_sub sel0 m u ids).
    + unfold sel, update_selection in Hout. fold (first_row_id sort sel0 ids) in Hout. rewrite Hv in Hout.
      destruct (GetUpdateNode m v) as [a|]; [done|]. split; [done|].
      destruct (effective_sel (ok := ok) (size := size) u ids (SortSelectionVector sort sel0 (fun i => ids !!! i)) B (vector_offset m v))
        as (keep & Hk & Hdrop).
      rewrite Hk, list_elem_of_In, filter_In, <- list_elem_of_In in Hout.
      destruct (keep idx) eqn:Ek; [by destruct Hout|]. by apply (Hdrop idx Ek).
Qed.

(** ** Properties *)

Hypothesis Hok : ok B.
Hypothesis Hsize : (STANDARD_VECTOR_SIZE <= size B)%nat.

(** C2 Snapshot isolation: at every reachable state, for every row that is not NULL in the table,
    both ways a running transaction reads the vector ([FetchUpdates] for all rows, [FetchRow] for
    one) give its own last write to the row, else the last write committed at or before its start,
    else the value in the table, whatever others have written, committed, rolled back or cleaned
    up in the meantime. *)
Theorem update_snapshot_isolation (σ : sys) x r :
  reachable σ -> x ∈ active σ -> row_valid B r = true -> (r < STANDARD_VECTOR_SIZE)%nat ->
  extract (FetchUpdates (seg σ) (data_of x) v B) r = tx_view (commits σ) x r /\
  forall res idx, ok res -> (idx < size res)%nat -> extract res idx = extract B r ->
    extract (FetchRow (seg σ) (data_of x) (vector_offset (seg σ) v + r) res idx) idx
    = tx_view (commits σ) x r.
Proof.
  intros (R & l & Hr & I)%reachable_sinv Hx Hvalid Hlt. rewrite <- (i_view _ _ _ _ _ I x r Hx Hvalid).
  split; [by apply fetch_values|]. intros res idx Hokr Hidx Hres.
  pose proof (i_active _ _ _ _ _ I x Hx). pose proof (i_time _ _ _ _ _ I). pose proof SVS_pos.
  assert (vector_of (seg σ) (vector_offset (seg σ) v + r) = v /\
          (vector_offset (seg σ) v + r - start (seg σ)) mod STANDARD_VECTOR_SIZE = r)%nat as [Hvo Hmod].
  { unfold vector_of, vector_offset.
    replace (start (seg σ) + v * STANDARD_VECTOR_SIZE + r - start (seg σ))%nat with (r + v * STANDARD_VECTOR_SIZE)%nat by lia.
    rewrite Nat.div_add, Nat.Div0.mod_add, Nat.div_small, Nat.mod_small by lia. lia. }
  rewrite (FetchRow_values ok size (seg σ) _ R l); try done; try apply I.
  - rewrite Hmod. unfold cur. by rewrite Hres.
  - by rewrite Hvo.
  - split; simpl; lia.
Qed.

(** C14 First updater wins: an update of a running transaction fails exactly if one of the rows it
    changes was written by another running transaction, or by one that committed after its start
    (cleaned up or not); otherwise it succeeds. *)
Theorem update_first_updater_wins (σ : sys) a1 x a2 col u ids count m' res :
  reachable σ -> active σ = a1 ++ x :: a2 -> rows_of (seg σ) v ids count ->
  Update sort (seg σ) (data_of x) col u ids count B = (m', res) ->
  (res = Throw TransactionException <->
   exists r, r ∈ (written sort (seg σ) u ids count B).*1 /\ concurrent_write σ x r) /\
  (res = Throw TransactionException \/ exists p, res = Ok p).
Proof.
  intros (R & l & Hr & I)%reachable_sinv Hact Hrows HU. pose proof I as I'. rewrite Hact in I'.
  pose proof (update_outcome _ _ _ _ _ _ _ _ _ _ _ _ Hr I' Hrows HU) as Ho.
  rewrite <- (conflicts_concurrent R l σ x _ I) by (rewrite Hact; apply elem_mid_hd).
  inversion Ho as [? Hw|? Hex|? ? ? ? ? ? Hfa|? ? ? ? Hfa]; subst.
  - split; [|right; by eexists]. split; [done|]. rewrite Hw. intros (n & _ & _ & _ & r & Hr' & _)%Exists_exists.
    by apply not_elem_of_nil in Hr'.
  - split; [done|by left].
  - split; [|right; by eexists]. split; [done|]. intros Hex. by apply Forall_not_Exists in Hfa.
  - split; [|right; by eexists]. split; [done|]. intros Hex. by apply Forall_not_Exists in Hfa.
Qed.

(** Read your writes: after a successful update the transaction reads the new value of every
    updated row whose new value is not NULL (if the update names the row once), also where the
    update was dropped because it does not change the table; rows the update does not name read
    as before. *)
Theorem update_reads_back (σ : sys) a1 x a2 col u ids count m' p :
  reachable σ -> active σ = a1 ++ x :: a2 -> rows_of (seg σ) v ids count ->
  Update sort (seg σ) (data_of x) col u ids count B = (m', Ok p) ->
  (forall idx, (idx < count)%nat -> row_valid (uvec u) (usel u idx) = true ->
     (forall i, (i < count)%nat -> row_valid (uvec u) (usel u i) = true -> ids !!! i = ids !!! idx -> i = idx) ->
     extract (FetchUpdates m' (data_of x) v B) (ids !!! idx - vector_offset (seg σ) v)%nat
     = extract (uvec u) (usel u idx)) /\
  (forall r, (r < STANDARD_VECTOR_SIZE)%nat ->
     (forall idx, (idx < count)%nat -> ids !!! idx <> (vector_offset (seg σ) v + r)%nat) ->
     extract (FetchUpdates m' (data_of x) v B) r = extract (FetchUpdates (seg σ) (data_of x) v B) r).
Proof.
  intros (R & l & Hr & I)%reachable_sinv Hact Hrows HU. pose proof I as I'. rewrite Hact in I'.
  pose proof (update_outcome _ _ _ _ _ _ _ _ _ _ _ _ Hr I' Hrows HU) as Ho.
  destruct (update_step_inv _ _ _ _ _ _ _ _ _ I' Hr Ho) as (R' & l' & Hr' & I2 & Hvals).
  set (w := written sort (seg σ) u ids count B) in *.
  set (x' := wrote w x (match p with Some _ => p | None => x_node x end)) in *.
  assert (forall r, (r < STANDARD_VECTOR_SIZE)%nat -> extract (FetchUpdates m' (data_of x) v B) r
            = match assoc w r with Some y => y | None => values l (x_start x) (x_id x) r (cur R r) end) as Hread.
  { intros r Hlt. rewrite <- Hvals.
    exact (fetch_values R' l' (mkSys m' (now σ) (a1 ++ x' :: a2) (commits σ)) x' r Hr' I2 (elem_mid_hd _ _ _) Hok Hsize Hlt). }
  split.
  - intros idx Hidx Hvalid Huniq. pose proof (vector_offset_le _ _ _ _ idx Hrows Hidx). rewrite Hread by lia.
    destruct (written_spec (seg σ) u ids count idx Hrows Hidx Hvalid Huniq) as [Hs|(Hs & Hnone & Heq)];
      fold w in Hs; rewrite Hs; [done|].
    unfold repr in Hr. rewrite Hnone in Hr. destruct Hr as [-> ->]. by rewrite Heq.
  - intros r Hlt Hne. rewrite Hread by done. assert (assoc w r = None) as ->.
    { apply assoc_None. unfold w, written. rewrite new_entries_rows, row_list_rows, list_elem_of_In, in_map_iff.
      intros (i & Hi & Hin%list_elem_of_In). pose proof (selection_spec ok size sort Hsort (seg σ) u ids count B) as [Hs Hc].
      assert (i < count)%nat as Hic by (rewrite Forall_forall in Hc; by apply Hc). apply (Hne i Hic).
      pose proof (vector_offset_le _ _ _ _ i Hrows Hic).
      assert (vector_of (seg σ) (first_row_id sort (update_statistics (stats (seg σ)) u count).2 ids) = v) as Hv0;
        [|rewrite Hv0 in Hi; lia].
      eapply first_row_vector; eauto. }
    symmetry. apply fetch_values; try done. rewrite Hact. apply elem_mid_hd.
Qed.

(** When the chain of the vector has no nodes, which is what [HasUncommittedUpdates] tests, the
    scan of the newest values ([FetchCommitted]) reads exactly the committed state, and it is also
    what every running transaction reads. *)
Theorem fetch_committed_sound (σ : sys) r :
  reachable σ -> HasUncommittedUpdates (seg σ) v = false -> row_valid B r = true ->
  (r < STANDARD_VECTOR_SIZE)%nat ->
  extract (FetchCommitted (seg σ) v B) r = snapshot (commits σ) (now σ) r /\
  forall x, x ∈ active σ -> extract (FetchCommitted (seg σ) v B) r = tx_view (commits σ) x r.
Proof.
  intros (R & l & Hr & I)%reachable_sinv Hh Hvalid Hlt.
  assert (l = [] /\ extract (FetchCommitted (seg σ) v B) r = cur R r) as [-> Hc].
  { unfold HasUncommittedUpdates, FetchCommitted, base_info in *. unfold repr in Hr.
    destruct (GetUpdateNode (seg σ) v) as [a|]; simpl in *; [|by destruct Hr as [-> ->]].
    destruct (heap_repr_base _ _ _ _ _ Hr) as (i & Hi & Hn & Hl & _). rewrite Hi in Hh |- *.
    injection Hn as _ He. split.
    - destruct l as [|n l]; [done|]. destruct Hl as (j & Hj & _). by rewrite Hj in Hh.
    - pose proof (i_base _ _ _ _ _ I) as [Hs Hv].
      destruct (merge_info_spec (entries i) B Hok) as (_ & _ & Hg); [by rewrite He..|done|].
      rewrite Hg by lia. by rewrite He. }
  rewrite Hc. split; [apply (i_now _ _ _ _ _ I r Hvalid)|].
  intros x Hx. apply (i_view _ _ _ _ _ I x r Hx Hvalid).
Qed.
End snapshot.

(** ** Examples: two transactions on a column of integers *)

Section examples.

Definition std_sort (ids : nat -> nat) (sel : list nat) : list nat :=
  @merge_sort nat (fun i j => (ids i <= ids j)%nat) (fun i j => decide (ids i <= ids j)%nat) sel.

Lemma std_sort_sorts : sorts std_sort.
Proof.
  intros ids sel. split; [apply merge_sort_Permutation|].
  apply StronglySorted_merge_sort; [|intros i j; lia].
  intros i j k. lia.
Qed.

#[local] Instance int_functions : UpdateFunctions Z (Vector Z) (Z * Z) :=
  DataFunctions Z.ltb Z.eqb (fun _ => 0).

#[local] Instance int_laws : UpdateLaws (fun _ : Vector Z => True) (fun v => length (data v)).
Proof. apply DataLaws. intros x y. apply Z.eqb_eq. Defined.

(** Row [i] of the table holds [i]. *)
Definition table : Vector Z :=
  mkVector (map Z.of_nat (seq 0 STANDARD_VECTOR_SIZE)) (ValidityMask.mk None STANDARD_VECTOR_SIZE).

Definition values_vector (l : list Z) : UnifiedVectorFormat (Vector Z) :=
  mkUnified (fun i => i) (mkVector l (ValidityMask.mk None STANDARD_VECTOR_SIZE)).

Lemma table_size : (STANDARD_VECTOR_SIZE <= length (data table))%nat.
Proof. simpl. by rewrite length_map, length_seq. Qed.

Definition tx1 : txn Z := mkTx 1 TRANSACTION_ID_START None (fun _ => None).
Definition tx2 : txn Z := mkTx 2 (TRANSACTION_ID_START + 1) None (fun _ => None).
Definition two_running : sys (T := Z) (S := Z * Z) :=
  mkSys (mk 0 ∅ None (0, 0)) 2 [tx2; tx1] [].

Lemma two_running_reachable : reachable std_sort table 0 two_running.
Proof.
  exists 0%nat, (0, 0), 0. split; [split; reflexivity || discriminate|].
  eapply rtc_l; [apply (step_begin std_sort table 0 (init 0 (0, 0) 0) 1 TRANSACTION_ID_START)|].
  - split; [discriminate|reflexivity].
  - discriminate.
  - apply not_elem_of_nil.
  - eapply rtc_l; [|apply rtc_refl].
    apply (step_begin std_sort table 0 (mkSys (mk 0 ∅ None (0, 0)) 1 [tx1] []) 2 (TRANSACTION_ID_START + 1)).
    + split; [discriminate|reflexivity].
    + discriminate.
    + simpl. rewrite list_elem_of_singleton. discriminate.
Qed.

(** Transaction 1 sets rows 5 and 3, given out of order, and commits. *)
Definition update1 : t (T := Z) (S := Z * Z) * result (option nat) :=
  Update std_sort (seg two_running) (data_of tx1) 0 (values_vector [50; 30]) [5; 3]%nat 2 table.

Lemma update1_rows : rows_of (seg two_running) 0 [5; 3]%nat 2.
Proof. intros [|[|idx]] Hi; [split; vm_compute; reflexivity || lia..|lia]. Qed.

Definition tx1_updated : txn Z :=
  wrote (written std_sort (seg two_running) (values_vector [50; 30]) [5; 3]%nat 2 table) tx1 (Some 1%nat).

Definition updated1 : sys (T := Z) (S := Z * Z) := mkSys update1.1 2 [tx2; tx1_updated] [].

Definition committed1 : sys (T := Z) (S := Z * Z) :=
  mkSys (CommitUpdate update1.1 1 3) 3 [tx2]
    [mkCommit 3 (Some 1%nat) (x_writes tx1_updated)].

Lemma update1_ok : update1 = (update1.1, Ok (Some 1%nat)).
Proof. vm_compute. reflexivity. Qed.

Lemma updated1_reachable : reachable std_sort table 0 updated1.
Proof.
  destruct two_running_reachable as (start & st & time & Ht & Hs). exists start, st, time. split; [done|].
  eapply rtc_r; [exact Hs|].
  apply (step_update std_sort table 0 two_running [tx2] tx1 [] 0 (values_vector [50; 30]) [5; 3]%nat 2 update1.1 (Some 1%nat));
    [done|apply update1_rows|apply update1_ok].
Qed.

Lemma committed1_reachable : reachable std_sort table 0 committed1.
Proof.
  destruct updated1_reachable as (start & st & time & Ht & Hs). exists start, st, time. split; [done|].
  eapply rtc_r; [exact Hs|]. apply (step_commit std_sort table 0 updated1 [tx2] tx1_updated [] 3); [done|].
  split; reflexivity.
Qed.

(** Transaction 2 still reads the old value of row 5. *)
Lemma update_snapshot_isolation_witness :
  extract (FetchUpdates (seg committed1) (data_of tx2) 0 table) 5 = 5.
Proof.
  destruct (update_snapshot_isolation (fun _ => True) (fun v => length (data v)) std_sort std_sort_sorts
           table 0 I table_size committed1 tx2 5%nat committed1_reachable) as [H _].
  - apply elem_of_cons. by left.
  - vm_compute. reflexivity.
  - apply Nat.ltb_lt. vm_compute. reflexivity.
  - rewrite H. vm_compute. reflexivity.
Defined.

(** An update of row 3 by transaction 2 fails then. *)
Definition update2 : t (T := Z) (S := Z * Z) * result (option nat) :=
  Update std_sort (seg committed1) (data_of tx2) 0 (values_vector [31]) [3]%nat 1 table.

Lemma update_first_updater_wins_witness :
  update2.2 = Throw TransactionException.
Proof.
  assert (rows_of (seg committed1) 0 [3]%nat 1) as Hrows.
  { intros [|idx] Hi; [split; vm_compute; reflexivity || lia|lia]. }
  destruct (update_first_updater_wins (fun _ => True) (fun v => length (data v)) std_sort std_sort_sorts
              table 0 committed1 [] tx2 [] 0 (values_vector [31]) [3]%nat 1
              update2.1 update2.2 committed1_reachable eq_refl Hrows) as [H _].
  - exact (surjective_pairing update2).
  - apply H. exists 3%nat. split; [vm_compute; constructor|]. right. eexists. split; [constructor|].
    split; [reflexivity|]. vm_compute. discriminate.
Defined.

Lemma update_reads_back_witness :
  extract (FetchUpdates update1.1 (data_of tx1) 0 table) 3 = 30.
Proof.
  destruct (update_reads_back (fun _ => True) (fun v => length (data v)) std_sort std_sort_sorts
              table 0 I table_size two_running [tx2] tx1 [] 0 (values_vector [50; 30]) [5; 3]%nat 2
              update1.1 (Some 1%nat) two_running_reachable eq_refl update1_rows update1_ok) as [H _].
  apply (H 1%nat); [lia|reflexivity|]. intros [|[|i]] Hi _ Hids; [discriminate Hids|done|lia].
Defined.

(** After transaction 2 is gone too and transaction 1 is cleaned up, the chain is empty. *)
Definition cleaned1 : sys (T := Z) (S := Z * Z) :=
  mkSys (CleanupUpdate (CommitUpdate update1.1 1 3) 1) 3 [] [mkCommit 3 None (x_writes tx1_updated)].

Lemma cleaned1_reachable : reachable std_sort table 0 cleaned1.
Proof.
  destruct committed1_reachable as (start & st & time & Ht & Hs). exists start, st, time. split; [done|].
  eapply rtc_r; [eapply rtc_r; [exact Hs|]|].
  - apply (step_rollback std_sort table 0 committed1 [] tx2 []). done.
  - apply (step_cleanup std_sort table 0 (mkSys (seg committed1) 3 [] (commits committed1)) []
             (mkCommit 3 (Some 1%nat) (x_writes tx1_updated)) [] 1%nat); [done|done|constructor].
Qed.

Lemma fetch_committed_sound_witness : extract (FetchCommitted (seg cleaned1) 0 table) 5 = 50.
Proof.
  destruct (fetch_committed_sound (fun _ => True) (fun v => length (data v)) std_sort std_sort_sorts
              table 0 I table_size cleaned1 5%nat cleaned1_reachable) as [H _].
  - vm_compute. reflexivity.
  - vm_compute. reflexivity.
  - apply Nat.ltb_lt. vm_compute. reflexivity.
  - rewrite H. vm_compute. reflexivity.
Defined.
End examples.

End UpdateSnapshot.
