(* ===== verification/SegmentTree.v ===== *)
(** * Segment trees

    Models src/src/include/duckdb/storage/table/segment_tree.hpp: the list of the segments of a
    table or column, searched by row number, and the lazy loading of stored segments that
    [RowGroupSegmentTree] (src/src/storage/table/row_group_collection.cpp) supplies.  A segment
    pointer is the index of its node; [next] pointers are kept as the code maintains them.  The
    segments not loaded yet are the list [unloaded] of what [LoadSegment] will return.

    The abstract view of a tree is the list of all its segments ([segments]); the search is
    proved equivalent to a search of that list, whatever has been loaded. *)

From Stdlib Require Import Sorting.Sorted.
From S2P Require Import Prelude.

Module SegmentTree.

(** What the tree reads of a segment ([SegmentBase]). *)
Class Segment (T : Type) : Type := {
  seg_start : T -> nat;
  seg_count : T -> nat
}.

(** [index] and [next] are fields of [SegmentBase]. *)
Record SegmentNode (T : Type) : Type := mkNode {
  row_start : nat;
  node : T;
  index : nat;
  next : option nat
}.
Arguments mkNode {T}.
Arguments row_start {T}.
Arguments node {T}.
Arguments index {T}.
Arguments next {T}.

Record t (T : Type) : Type := mk {
  nodes : list (SegmentNode T);
  finished_loading : bool;
  unloaded : list T
}.
Arguments mk {T}.
Arguments nodes {T}.
Arguments finished_loading {T}.
Arguments unloaded {T}.

Section tree.
Context {T : Type} `{!Segment T} (SUPPORTS_LAZY_LOADING : bool).
Implicit Types (m : t T) (n : SegmentNode T) (s : T) (row : nat).

Definition empty_tree : t T := mk [] true [].

(** [RowGroupSegmentTree::Initialize]. *)
Definition Initialize (stored : list T) : t T := mk [] false stored.

Definition set_next (p : option nat) n : SegmentNode T := mkNode (row_start n) (node n) (index n) p.
Definition set_node (f : T -> T) n : SegmentNode T :=
  mkNode (row_start n) (f (node n)) (index n) (next n).

Definition with_nodes m (ns : list (SegmentNode T)) : t T := mk ns (finished_loading m) (unloaded m).

(** A change of a segment through a pointer to it. *)
Definition update_segment m (i : nat) (f : T -> T) : t T := with_nodes m (alter (set_node f) i (nodes m)).
Definition update_next m (i : nat) (p : option nat) : t T := with_nodes m (alter (set_next p) i (nodes m)).

Definition AppendSegmentInternal m s : t T :=
  let ns := match length (nodes m) with
            | O => nodes m
            | S last => alter (set_next (Some (length (nodes m)))) last (nodes m)
            end in
  with_nodes m (ns ++ [mkNode (seg_start s) s (length (nodes m)) None]).

(** [RowGroupSegmentTree::LoadSegment]. *)
Definition LoadSegment m : t T * option T :=
  match unloaded m with
  | [] => (mk (nodes m) true [], None)
  | s :: rest => (mk (nodes m) (finished_loading m) rest, Some s)
  end.

Definition LoadNextSegment m : t T * bool :=
  if negb SUPPORTS_LAZY_LOADING then (m, false)
  else if finished_loading m then (m, false)
  else match LoadSegment m with
       | (m, Some s) => (AppendSegmentInternal m s, true)
       | (m, None) => (m, false)
       end.

(** [while (condition && LoadNextSegment(l)) {}].  Every iteration that continues loads a segment,
    so the number of unloaded segments and one more is enough fuel. *)
Fixpoint load_while (fuel : nat) (condition : t T -> bool) m : t T :=
  match fuel with
  | O => m
  | S fuel =>
      if condition m then
        let '(m, loaded) := LoadNextSegment m in
        if loaded then load_while fuel condition m else m
      else m
  end.

Definition load_loop (condition : t T -> bool) m : t T :=
  load_while (S (length (unloaded m))) condition m.

Definition LoadAllSegments m : t T := load_loop (fun _ => true) m.

Definition IsEmpty m : t T * bool :=
  let m := if (length (nodes m) =? 0)%nat then (LoadNextSegment m).1 else m in
  (m, (length (nodes m) =? 0)%nat).

Definition GetSegmentCount m : nat := length (nodes m).

(** A negative index counts from the back. *)
Definition GetSegmentByIndex m (i : Z) : t T * option nat :=
  if i <? 0 then
    let m := LoadAllSegments m in
    let i := i + Z.of_nat (length (nodes m)) in
    if i <? 0 then (m, None) else (m, Some (Z.to_nat i))
  else
    let i := Z.to_nat i in
    let m := load_loop (fun m => (length (nodes m) <=? i)%nat) m in
    if (length (nodes m) <=? i)%nat then (m, None) else (m, Some i).

Definition Next m (segment : nat) : option nat := nodes m !! segment ≫= next.

Definition GetNextSegment m (segment : nat) : t T * option nat :=
  if negb SUPPORTS_LAZY_LOADING then (m, Next m segment)
  else if finished_loading m then (m, Next m segment)
  else GetSegmentByIndex m (Z.of_nat (default 0%nat (index <$> nodes m !! segment)) + 1).

Definition GetLastSegment m : t T * option nat :=
  let m := LoadAllSegments m in
  match length (nodes m) with
  | O => (m, None)
  | S last => (m, Some last)
  end.

Definition AppendSegment m s : t T := AppendSegmentInternal (LoadAllSegments m) s.

Definition EraseSegments m (segment_start : nat) : t T :=
  let m := LoadAllSegments m in
  if (length (nodes m) <=? segment_start)%nat then m
  else with_nodes m (take segment_start (nodes m)).

(** The binary search.  [index - 1] wraps around for index 0, which the bounds check then
    catches.  [None]: out of fuel. *)
Fixpoint search (fuel : nat) (ns : list (SegmentNode T)) row (lower upper : Z)
    : option (result (option nat)) :=
  match fuel with
  | O => None
  | S fuel =>
      if lower <=? upper then
        let index := wrapU 64 (lower + upper) / 2 in
        if Z.of_nat (length ns) <=? index then Some (Throw InternalException)
        else match ns !! Z.to_nat index with
             | None => Some (Throw InternalException)
             | Some entry =>
                 if (row <? row_start entry)%nat then
                   search fuel ns row lower (wrapU 64 (index - 1))
                 else if (row_start entry + seg_count (node entry) <=? row)%nat then
                   search fuel ns row (wrapU 64 (index + 1)) upper
                 else Some (Ok (Some (Z.to_nat index)))
             end
      else Some (Ok None)
  end.

Definition search_fuel (ns : list (SegmentNode T)) : nat := (length ns + 2)%nat.

(** Whether the row is past the loaded segments. *)
Definition needs_load row m : bool :=
  match last (nodes m) with
  | None => true
  | Some back => (row_start back + seg_count (node back) <=? row)%nat
  end.

Definition TryGetSegmentIndex m row : t T * result (option nat) :=
  let m := load_loop (needs_load row) m in
  match nodes m with
  | [] => (m, Ok None)
  | ns => (m, default (Throw InternalException)
                (search (search_fuel ns) ns row 0 (Z.of_nat (length ns) - 1)))
  end.

Definition GetSegmentIndex m row : t T * result nat :=
  match TryGetSegmentIndex m row with
  | (m, Ok (Some i)) => (m, Ok i)
  | (m, Ok None) => (m, Throw InternalException)
  | (m, Throw e) => (m, Throw e)
  end.

Definition GetSegment m row : t T * result nat := GetSegmentIndex m row.

(** [Reinitialize] recomputes [row_start]; a gap is an error. *)
Fixpoint reinitialize_nodes (offset : nat) (ns : list (SegmentNode T)) : result (list (SegmentNode T)) :=
  match ns with
  | [] => Ok []
  | n :: ns =>
      if negb (seg_start (node n) =? offset)%nat then Throw InternalException
      else rest ← reinitialize_nodes (offset + seg_count (node n)) ns;
           Ok (mkNode offset (node n) (index n) (next n) :: rest)
  end.

Definition Reinitialize m : result (t T) :=
  match nodes m with
  | [] => Ok m
  | n :: _ => ns ← reinitialize_nodes (seg_start (node n)) (nodes m); Ok (with_nodes m ns)
  end.

(** ** The abstract view *)

Definition segments m : list T := map node (nodes m) ++ unloaded m.

Definition contains s row : Prop := (seg_start s <= row < seg_start s + seg_count s)%nat.

#[global] Instance contains_dec s row : Decision (contains s row).
Proof. unfold contains. apply _. Defined.

(** Segments are listed in the order of their rows and do not overlap. *)
Definition ordered (l : list T) : Prop := StronglySorted (fun a b => (seg_start a + seg_count a <= seg_start b)%nat) l.

(** Nodes cache the start row, know their position and point to their successor. *)
Definition node_ok (len i : nat) n : Prop :=
  row_start n = seg_start (node n) /\ index n = i
  /\ next n = if (S i <? len)%nat then Some (S i) else None.

Definition nodes_ok (ns : list (SegmentNode T)) : Prop :=
  forall i n, ns !! i = Some n -> node_ok (length ns) i n.

Record wf m : Prop := {
  wf_nodes : nodes_ok (nodes m);
  wf_loaded : SUPPORTS_LAZY_LOADING = false \/ finished_loading m = true -> unloaded m = []
}.

(** ** Loading *)

Lemma AppendSegmentInternal_nodes m s :
  nodes_ok (nodes m) -> nodes_ok (nodes (AppendSegmentInternal m s)).
Proof.
  intros Hok i n. unfold AppendSegmentInternal. destruct (length (nodes m)) as [|last] eqn:El; simpl.
  - apply nil_length_inv in El. rewrite El. simpl. destruct i; [|done]. intros [= <-]. done.
  - rewrite length_app, length_alter, El. simpl. intros [Hi|[Hi Hn]]%lookup_app_Some.
    + destruct (decide (i = last)) as [->|Hne].
      * rewrite list_lookup_alter_eq in Hi. apply fmap_Some in Hi as (n0 & Hn0 & ->).
        destruct (Hok _ _ Hn0) as (H1 & H2 & _). split; [done|]. split; [done|].
        destruct (Nat.ltb_spec (S last) (S (last + 1))); [done|lia].
      * rewrite list_lookup_alter_ne in Hi by done. destruct (Hok _ _ Hi) as (H1 & H2 & H3).
        apply lookup_lt_Some in Hi. rewrite El in *. split; [done|]. split; [done|]. rewrite H3.
        destruct (Nat.ltb_spec (S i) (S last)), (Nat.ltb_spec (S i) (S (last + 1))); done || lia.
    + rewrite length_alter, El in *. apply list_lookup_singleton_Some in Hn as [Hn <-].
      assert (i = S last) as -> by lia. split; [done|]. split; [done|].
      destruct (Nat.ltb_spec (S (S last)) (S (last + 1))); [lia|done].
Qed.

Lemma map_node_alter f i (ns : list (SegmentNode T)) :
  (forall n, node (f n) = node n) -> map node (alter f i ns) = map node ns.
Proof.
  intros Hf. revert i. induction ns as [|n ns IH]; intros [|i]; [done..| |]; simpl.
  - by rewrite Hf.
  - f_equal. apply IH.
Qed.

Lemma AppendSegmentInternal_map m s :
  map node (nodes (AppendSegmentInternal m s)) = map node (nodes m) ++ [s].
Proof.
  unfold AppendSegmentInternal. simpl. rewrite map_app. f_equal.
  destruct (length (nodes m)); [done|]. by apply map_node_alter.
Qed.

Lemma AppendSegmentInternal_length m s :
  length (nodes (AppendSegmentInternal m s)) = S (length (nodes m)).
Proof.
  rewrite <- (length_map node), AppendSegmentInternal_map, length_app, length_map. simpl. lia.
Qed.

(** Loading changes nothing but what is loaded. *)
Definition extends m m' : Prop :=
  wf m' /\ segments m' = segments m /\ (length (nodes m) <= length (nodes m'))%nat.

Lemma extends_refl m : wf m -> extends m m.
Proof. done. Qed.

Lemma LoadNextSegment_spec m :
  wf m ->
  extends m (LoadNextSegment m).1
  /\ if (LoadNextSegment m).2 then (length (unloaded (LoadNextSegment m).1) < length (unloaded m))%nat
     else unloaded (LoadNextSegment m).1 = [].
Proof.
  intros Hwf. pose proof Hwf as [Hn Hl]. unfold LoadNextSegment.
  destruct SUPPORTS_LAZY_LOADING eqn:EL; simpl; [|split; [by apply extends_refl|by apply Hl; left]].
  destruct (finished_loading m) eqn:Ef; [split; [by apply extends_refl|by apply Hl; right]|].
  unfold LoadSegment. destruct (unloaded m) as [|s rest] eqn:Eu; simpl.
  - split; [|done]. split; [by split|]. split; [|done]. unfold segments. simpl. by rewrite Eu.
  - set (m0 := mk (nodes m) (finished_loading m) rest).
    split; [|unfold AppendSegmentInternal; simpl; lia]. split_and!.
    + split; [by apply AppendSegmentInternal_nodes|]. unfold AppendSegmentInternal. simpl. rewrite EL, Ef. intros [?|?]; done.
    + unfold segments. rewrite AppendSegmentInternal_map. simpl. by rewrite <- app_assoc, Eu.
    + rewrite AppendSegmentInternal_length. simpl. lia.
Qed.

Lemma load_while_spec fuel condition m :
  wf m -> (length (unloaded m) < fuel)%nat ->
  extends m (load_while fuel condition m)
  /\ (condition (load_while fuel condition m) = false \/ unloaded (load_while fuel condition m) = []).
Proof.
  revert m. induction fuel as [|fuel IH]; intros m Hwf Hf; [lia|]. simpl.
  destruct (condition m) eqn:Ec; [|split; [by apply extends_refl|by left]].
  pose proof (LoadNextSegment_spec m Hwf) as [(Hw1 & Hs1 & Hl1) Hb].
  destruct (LoadNextSegment m) as [m1 []]; simpl in *; [|split; [done|by right]].
  destruct (IH m1) as [(Hw2 & Hs2 & Hl2) Hc]; [done|lia|]. split; [|done].
  split; [done|]. split; [congruence|lia].
Qed.

(** The loops load until the condition fails or nothing is left. *)
Lemma load_loop_spec condition m :
  wf m ->
  extends m (load_loop condition m)
  /\ (condition (load_loop condition m) = false \/ unloaded (load_loop condition m) = []).
Proof. intros Hwf. apply load_while_spec; [done|lia]. Qed.

Lemma LoadAllSegments_spec m :
  wf m -> extends m (LoadAllSegments m) /\ map node (nodes (LoadAllSegments m)) = segments m.
Proof.
  intros Hwf. destruct (load_loop_spec (fun _ => true) m Hwf) as [He [?|Hu]]; [done|].
  split; [done|]. destruct He as (_ & Hs & _). rewrite <- Hs. unfold segments, LoadAllSegments.
  by rewrite Hu, app_nil_r.
Qed.

(** ** Search *)

Lemma ordered_lookup (l : list T) i j a b :
  ordered l -> l !! i = Some a -> l !! j = Some b -> (i < j)%nat ->
  (seg_start a + seg_count a <= seg_start b)%nat.
Proof.
  intros Ho. revert i j. induction Ho as [|x l Ho IH Hall]; intros i j Hi Hj Hij; [done|].
  destruct j as [|j]; [lia|]. simpl in Hj. destruct i as [|i]; simpl in Hi.
  - injection Hi as <-. rewrite Forall_forall in Hall. apply Hall. by eapply list_elem_of_lookup_2.
  - eapply IH; [done..|lia].
Qed.

(** What a search of the nodes may answer. *)
Definition search_answer (ns : list (SegmentNode T)) row (r : result (option nat)) : Prop :=
  match r with
  | Ok (Some i) => exists n, ns !! i = Some n /\ contains (node n) row
  | Ok None => (forall n, n ∈ ns -> ~ contains (node n) row)
               /\ forall n, ns !! 0%nat = Some n -> (seg_start (node n) <= row)%nat
  | Throw e => e = InternalException /\ exists n, ns !! 0%nat = Some n /\ (row < seg_start (node n))%nat
  end.

Lemma search_spec ns row fuel lower upper :
  nodes_ok ns -> ordered (map node ns) -> Z.of_nat (length ns) < 2 ^ 62 ->
  0 <= lower <= upper + 1 -> 0 <= upper < Z.of_nat (length ns) ->
  (Z.to_nat (upper + 1 - lower) + 2 <= fuel)%nat ->
  (forall j n, ns !! j = Some n -> Z.of_nat j < lower -> (seg_start (node n) + seg_count (node n) <= row)%nat) ->
  (forall j n, ns !! j = Some n -> upper < Z.of_nat j -> (row < seg_start (node n))%nat) ->
  exists r, search fuel ns row lower upper = Some r /\ search_answer ns row r.
Proof.
  intros Hok Hord Hlen. revert lower upper.
  induction fuel as [|fuel IH]; intros lower upper Hlo Hup Hf Hbelow Habove; [lia|]. simpl.
  destruct (Z.leb_spec lower upper) as [Hle|Hgt].
  2:{ eexists. split; [done|]. split; [|intros n Hn; specialize (Hbelow 0%nat n Hn); lia].
      intros n [j Hj]%list_elem_of_lookup. unfold contains.
      destruct (decide (Z.of_nat j < lower)) as [Hjl|Hjl].
      - specialize (Hbelow j n Hj Hjl). lia.
      - specialize (Habove j n Hj). lia. }
  rewrite (wrapU_small 64 (lower + upper)) by (unfold inU; lia).
  set (index := (lower + upper) / 2). assert (lower <= index <= upper) as Hi by (unfold index; dlia).
  destruct (Z.leb_spec (Z.of_nat (length ns)) index) as [?|_]; [lia|].
  destruct (lookup_lt_is_Some_2 ns (Z.to_nat index)) as [n Hn]; [lia|]. rewrite Hn.
  destruct (Hok _ _ Hn) as (Hrs & _ & _). rewrite Hrs.
  assert (forall j n', ns !! j = Some n' -> (j < Z.to_nat index)%nat ->
            (seg_start (node n') + seg_count (node n') <= seg_start (node n))%nat) as Hpre.
  { intros j n' Hj Hjn. eapply (ordered_lookup (map node ns) j (Z.to_nat index)); [done|..|done];
      by rewrite list_lookup_fmap, ?Hj, ?Hn. }
  assert (forall j n', ns !! j = Some n' -> (Z.to_nat index < j)%nat ->
            (seg_start (node n) + seg_count (node n) <= seg_start (node n'))%nat) as Hpost.
  { intros j n' Hj Hjn. eapply (ordered_lookup (map node ns) (Z.to_nat index) j); [done|..|done];
      by rewrite list_lookup_fmap, ?Hj, ?Hn. }
  destruct (Nat.ltb_spec row (seg_start (node n))) as [Hlt|Hge].
  - destruct (decide (index = 0)) as [H0|H0].
    + (* the upper bound wraps around *)
      rewrite H0. change (wrapU 64 (0 - 1)) with (2 ^ 64 - 1). assert (lower = 0) as -> by lia.
      destruct fuel as [|fuel]; [lia|]. cbn [search]. change (0 <=? 2 ^ 64 - 1) with true. cbn iota zeta.
      change (wrapU 64 (0 + (2 ^ 64 - 1)) / 2) with (2 ^ 63 - 1).
      destruct (Z.leb_spec (Z.of_nat (length ns)) (2 ^ 63 - 1)) as [_|?]; [|lia].
      eexists. split; [done|]. split; [done|]. exists n. split; [by rewrite H0 in Hn|done].
    + rewrite (wrapU_small 64 (index - 1)) by (unfold inU; lia). apply IH; [lia|lia|lia|done|].
      intros j n' Hj Hji. destruct (decide (j = Z.to_nat index)) as [->|Hne]; [by simplify_eq|].
      specialize (Hpost j n' Hj). lia.
  - destruct (Nat.leb_spec (seg_start (node n) + seg_count (node n)) row) as [Hle2|Hin].
    + rewrite (wrapU_small 64 (index + 1)) by (unfold inU; lia). apply IH; [lia|lia|lia| |done].
      intros j n' Hj Hji. destruct (decide (j = Z.to_nat index)) as [->|Hne]; [by simplify_eq|].
      specialize (Hpre j n' Hj). lia.
    + eexists. split; [done|]. exists n. split; [done|]. unfold contains. lia.
Qed.

(** The specification of the search: the first segment of the list that holds the row. *)
Definition find_segment (l : list T) row : option nat := fst <$> list_find (fun s => contains s row) l.

Lemma find_segment_Some (l : list T) row i s :
  ordered l -> l !! i = Some s -> contains s row -> find_segment l row = Some i.
Proof.
  intros Ho Hi Hc. unfold find_segment. apply fmap_Some. exists (i, s). split; [|done].
  apply list_find_Some. split_and!; [done..|]. intros j y Hj Hji [_ Hy].
  pose proof (ordered_lookup l j i y s Ho Hj Hi Hji). destruct Hc. lia.
Qed.

Lemma find_segment_None (l : list T) row :
  (forall s, s ∈ l -> ~ contains s row) -> find_segment l row = None.
Proof.
  intros Hn. unfold find_segment. apply fmap_None, list_find_None, Forall_forall. exact Hn.
Qed.

Lemma find_segment_lookup (l : list T) row i :
  find_segment l row = Some i -> exists s, l !! i = Some s /\ contains s row.
Proof.
  unfold find_segment. intros ((j & s) & Hf & ->)%fmap_Some. apply list_find_Some in Hf as (? & ? & _).
  by exists s.
Qed.

Lemma segments_nodes m i n : nodes m !! i = Some n -> segments m !! i = Some (node n).
Proof.
  intros Hn. unfold segments. apply lookup_app_l_Some. by rewrite list_lookup_fmap, Hn.
Qed.

Definition searchable m : Prop := wf m /\ ordered (segments m) /\ Z.of_nat (length (segments m)) < 2 ^ 62.

(** No segment that is not loaded holds the row once the loading loop has ended. *)
Lemma needs_load_unloaded m row :
  ordered (segments m) -> nodes_ok (nodes m) -> needs_load row m = false ->
  forall s, s ∈ unloaded m -> ~ contains s row.
Proof.
  intros Ho Hok Hn s [j Hj]%list_elem_of_lookup [Hs _]. unfold needs_load in Hn.
  destruct (last (nodes m)) as [back|] eqn:El; [|done]. rewrite last_lookup in El.
  apply Nat.leb_gt in Hn. pose proof (Hok _ _ El) as (Hrs & _). rewrite Hrs in Hn.
  pose proof (lookup_lt_Some _ _ _ El) as Hlt.
  assert (seg_start (node back) + seg_count (node back) <= seg_start s)%nat; [|lia].
  eapply (ordered_lookup _ (pred (length (nodes m))) (length (nodes m) + j)); [done|by apply segments_nodes| |lia].
  unfold segments. rewrite lookup_app_r; rewrite length_map; [|lia].
  by replace (length (nodes m) + j - length (nodes m))%nat with j by lia.
Qed.

Lemma StronglySorted_take_app {A} (R : A -> A -> Prop) (l1 l2 : list A) :
  StronglySorted R (l1 ++ l2) -> StronglySorted R l1.
Proof.
  induction l1 as [|x l1 IH]; [intros _; constructor|].
  intros [Hs Hx]%StronglySorted_inv. apply Forall_app in Hx as [Hx _]. constructor; auto.
Qed.

Lemma tree_TryGetSegmentIndex_spec m row :
  searchable m ->
  let '(m', r) := TryGetSegmentIndex m row in
  extends m m'
  /\ (forall i, find_segment (segments m) row = Some i -> (i < length (nodes m'))%nat)
  /\ r = match segments m !! 0%nat with
         | Some s => if (row <? seg_start s)%nat then Throw InternalException
                     else Ok (find_segment (segments m) row)
         | None => Ok None
         end.
Proof.
  intros (Hwf & Ho & Hlen). unfold TryGetSegmentIndex.
  pose proof (load_loop_spec (needs_load row) m Hwf) as [He Hc].
  set (m' := load_loop (needs_load row) m) in *. pose proof He as ([Hok Hl] & Hs & _).
  rewrite <- Hs in Ho, Hlen |- *. clear Hs. clearbody m'.
  assert (forall s, s ∈ unloaded m' -> ~ contains s row) as Hun.
  { intros s Hin. destruct Hc as [Hc|Hc]; [by eapply needs_load_unloaded|].
    rewrite Hc in Hin. by apply not_elem_of_nil in Hin. }
  assert (forall i, find_segment (segments m') row = Some i -> (i < length (nodes m'))%nat) as Hi.
  { intros i (s & Hs & Hcs)%find_segment_lookup. destruct (decide (i < length (nodes m'))%nat); [done|].
    exfalso. unfold segments in Hs. rewrite lookup_app_r in Hs by (rewrite length_map; lia).
    apply (Hun s); [by eapply list_elem_of_lookup_2|done]. }
  destruct (nodes m') as [|n ns] eqn:En.
  { split; [done|]. split; [intros i Hf; specialize (Hi i Hf); simpl in Hi; lia|].
    unfold segments in *. rewrite En in *. simpl in *.
    destruct (unloaded m') as [|s rest] eqn:Eu; [done|].
    destruct Hc as [Hc|Hc]; [|done]. unfold needs_load in Hc. by rewrite En in Hc. }
  rewrite <- En in *.
  assert (length (map node (nodes m')) <= length (segments m'))%nat as Hle
    by (unfold segments; rewrite length_app; lia).
  rewrite length_map in Hle.
  destruct (search_spec (nodes m') row (search_fuel (nodes m')) 0 (Z.of_nat (length (nodes m')) - 1))
    as (r & Hr & Ha); [done| |lia| | |unfold search_fuel; lia|lia| |].
  { by eapply StronglySorted_take_app. }
  { rewrite En. simpl. lia. }
  { rewrite En. simpl. lia. }
  { intros j n' Hj%lookup_lt_Some. lia. }
  rewrite Hr. simpl. split; [done|]. split; [done|].
  assert (segments m' !! 0%nat = Some (node n)) as H0 by (apply segments_nodes; by rewrite En).
  rewrite H0. destruct r as [[i|]|e]; simpl in Ha.
  - destruct Ha as (ni & Hni & Hci). pose proof (segments_nodes _ _ _ Hni) as Hsi.
    rewrite (find_segment_Some _ _ i (node ni)) by done.
    destruct (Nat.ltb_spec row (seg_start (node n))) as [Hlt|]; [|done]. exfalso. destruct Hci as [Hc1 Hc2].
    destruct i as [|i]; [rewrite H0 in Hsi; injection Hsi as Hsi; rewrite Hsi in *; lia|].
    pose proof (ordered_lookup _ 0 (S i) _ _ Ho H0 Hsi). lia.
  - destruct Ha as [Ha H1]. destruct (Nat.ltb_spec row (seg_start (node n))) as [Hlt|Hge].
    + specialize (H1 n). rewrite En in H1. specialize (H1 eq_refl). lia.
    + rewrite find_segment_None; [done|]. unfold segments. intros s [Hin|Hin]%elem_of_app; [|by apply Hun].
      apply list_elem_of_fmap in Hin as (n' & -> & Hin). by apply Ha.
  - destruct Ha as [-> (n' & Hn' & Hlt)]. rewrite En in Hn'. injection Hn' as ->.
    by rewrite (proj2 (Nat.ltb_lt _ _)).
Qed.

(** ** Iteration and changes *)

Lemma tree_GetSegmentByIndex_spec m i :
  wf m ->
  let '(m', r) := GetSegmentByIndex m (Z.of_nat i) in
  extends m m' /\ r = (if (i <? length (segments m))%nat then Some i else None)
  /\ (forall j, r = Some j -> (j < length (nodes m'))%nat).
Proof.
  intros Hwf. unfold GetSegmentByIndex. destruct (Z.ltb_spec (Z.of_nat i) 0); [lia|]. rewrite Nat2Z.id.
  destruct (load_loop_spec (fun m => (length (nodes m) <=? i)%nat) m Hwf) as [He Hc].
  set (m' := load_loop _ m) in *. pose proof He as (_ & Hs & _). rewrite <- Hs.
  assert (length (segments m') = length (nodes m') + length (unloaded m'))%nat as Hl
    by (unfold segments; by rewrite length_app, length_map).
  destruct (Nat.leb_spec (length (nodes m')) i) as [Hle|Hlt].
  - destruct Hc as [?|Hc]; [done|]. rewrite Hc in Hl. simpl in Hl. split; [done|]. split; [|done].
    destruct (Nat.ltb_spec i (length (segments m'))); [lia|done].
  - split; [done|]. destruct (Nat.ltb_spec i (length (segments m'))); [|lia].
    split; [done|]. by intros j [= <-].
Qed.

Lemma tree_IsEmpty_spec m :
  wf m -> let '(m', r) := IsEmpty m in extends m m' /\ r = match segments m with [] => true | _ => false end.
Proof.
  intros Hwf. unfold IsEmpty. pose proof (LoadNextSegment_spec m Hwf) as [He Hb].
  destruct (Nat.eqb_spec (length (nodes m)) 0) as [E|E].
  - split; [done|]. destruct He as (_ & Hs & _). rewrite <- Hs. set (m' := (LoadNextSegment m).1) in *.
    unfold segments. destruct (nodes m') as [|n ns] eqn:En; [|done]. simpl.
    destruct (LoadNextSegment m).2 eqn:E2; [|by rewrite Hb].
    exfalso. apply nil_length_inv in E. revert E2 En. subst m'. unfold LoadNextSegment.
    destruct SUPPORTS_LAZY_LOADING; [|done]. simpl. destruct (finished_loading m); [done|].
    unfold LoadSegment. destruct (unloaded m); [done|]. simpl. intros _ Hn.
    apply (f_equal length) in Hn. rewrite length_app in Hn. simpl in Hn. lia.
  - split; [by apply extends_refl|]. unfold segments. destruct (nodes m); [done|]. simpl.
    by destruct (Nat.eqb_spec (S (length l)) 0).
Qed.

(** The successor of a loaded segment, loaded on demand. *)
Lemma tree_GetNextSegment_spec m i :
  wf m -> (i < length (nodes m))%nat ->
  let '(m', r) := GetNextSegment m i in
  extends m m' /\ r = (if (S i <? length (segments m))%nat then Some (S i) else None)
  /\ (forall j, r = Some j -> (j < length (nodes m'))%nat).
Proof.
  intros Hwf Hi. pose proof Hwf as [Hok Hl]. destruct (lookup_lt_is_Some_2 _ _ Hi) as [n Hn].
  destruct (Hok _ _ Hn) as (_ & Hix & Hnx).
  assert (unloaded m = [] -> extends m m
          /\ Next m i = (if (S i <? length (segments m))%nat then Some (S i) else None)
          /\ (forall j, Next m i = Some j -> (j < length (nodes m))%nat)) as Hnext.
  { intros Hu. split; [by apply extends_refl|]. unfold Next. rewrite Hn. simpl. rewrite Hnx.
    unfold segments. rewrite Hu, app_nil_r, length_map. split; [done|]. intros j.
    destruct (Nat.ltb_spec (S i) (length (nodes m))); [by intros [= <-]|done]. }
  unfold GetNextSegment. destruct SUPPORTS_LAZY_LOADING eqn:EL; simpl; [|by apply Hnext, Hl; left].
  destruct (finished_loading m) eqn:Ef; [by apply Hnext, Hl; right|].
  rewrite Hn. simpl. rewrite Hix. replace (Z.of_nat i + 1) with (Z.of_nat (S i)) by lia.
  by apply tree_GetSegmentByIndex_spec.
Qed.

Lemma tree_GetLastSegment_spec m :
  wf m ->
  let '(m', r) := GetLastSegment m in
  extends m m' /\ length (nodes m') = length (segments m)
  /\ r = match segments m with [] => None | _ => Some (pred (length (segments m))) end.
Proof.
  intros Hwf. unfold GetLastSegment. destruct (LoadAllSegments_spec m Hwf) as [He Hm].
  set (m' := LoadAllSegments m) in *. assert (length (nodes m') = length (segments m)) as Hl
    by (rewrite <- Hm; by rewrite length_map).
  destruct (segments m); simpl in Hl; by rewrite Hl.
Qed.

Lemma AppendSegment_spec m s :
  wf m -> wf (AppendSegment m s) /\ segments (AppendSegment m s) = segments m ++ [s]
          /\ length (nodes (AppendSegment m s)) = S (length (segments m)).
Proof.
  intros Hwf. unfold AppendSegment. destruct (LoadAllSegments_spec m Hwf) as [([Hok Hl] & Hs & _) Hm].
  set (m' := LoadAllSegments m) in *.
  assert (unloaded m' = []) as Hu.
  { apply (f_equal length) in Hs. unfold segments in Hs at 1. rewrite length_app, Hm in Hs.
    destruct (unloaded m'); [done|]. simpl in Hs. lia. }
  split_and!.
  - split; [by apply AppendSegmentInternal_nodes|]. intros _. exact Hu.
  - unfold segments at 1. rewrite AppendSegmentInternal_map, Hm.
    change (unloaded (AppendSegmentInternal m' s)) with (unloaded m'). by rewrite Hu, app_nil_r.
  - rewrite AppendSegmentInternal_length, <- Hm. by rewrite length_map.
Qed.

Lemma update_segment_spec m i f :
  wf m -> (i < length (nodes m))%nat ->
  (forall s, segments m !! i = Some s -> seg_start (f s) = seg_start s) ->
  wf (update_segment m i f) /\ segments (update_segment m i f) = alter f i (segments m).
Proof.
  intros [Hok Hl] Hi Hf. split.
  - split; [|done]. intros j n. simpl. rewrite length_alter. intros Hn.
    destruct (decide (j = i)) as [->|Hne].
    + rewrite list_lookup_alter_eq in Hn. apply fmap_Some in Hn as (n0 & Hn0 & ->).
      destruct (Hok _ _ Hn0) as (H1 & H2 & H3). split; [|done]. simpl.
      rewrite Hf by by apply segments_nodes. done.
    + rewrite list_lookup_alter_ne in Hn by done. by apply Hok.
  - unfold segments, update_segment. simpl. rewrite alter_app_l by (by rewrite length_map). f_equal.
    clear. revert i. induction (nodes m) as [|n ns IH]; intros [|i]; [done..|]. simpl. f_equal. apply IH.
Qed.

(** Erasing the segments from [k] on and clearing the pointer to them. *)
Lemma EraseSegments_spec m k :
  wf m -> (k <= length (segments m))%nat ->
  let m' := EraseSegments m k in
  length (nodes m') = k
  /\ forall m'', m'' = (if (k =? 0)%nat then m' else update_next m' (pred k) None) ->
       wf m'' /\ segments m'' = take k (segments m) /\ length (nodes m'') = k.
Proof.
  intros Hwf Hk. unfold EraseSegments. destruct (LoadAllSegments_spec m Hwf) as [([Hok Hl] & Hs & _) Hm].
  set (m1 := LoadAllSegments m) in *.
  assert (unloaded m1 = []) as Hu.
  { apply (f_equal length) in Hs. unfold segments in Hs at 1. rewrite length_app, Hm in Hs.
    destruct (unloaded m1); [done|]. simpl in Hs. lia. }
  assert (length (nodes m1) = length (segments m)) as Hlen by (rewrite <- Hm; by rewrite length_map).
  set (m2 := if (length (nodes m1) <=? k)%nat then m1 else with_nodes m1 (take k (nodes m1))).
  assert (nodes m2 = take k (nodes m1) /\ unloaded m2 = [] /\ finished_loading m2 = finished_loading m1) as (Hn2 & Hu2 & Hf2).
  { unfold m2. destruct (Nat.leb_spec (length (nodes m1)) k); [|done]. by rewrite take_ge by lia. }
  simpl. rewrite Hn2, length_take, Hlen, Nat.min_l by done. split; [done|]. intros m'' ->.
  destruct (Nat.eqb_spec k 0) as [->|Hk0].
  { rewrite take_0 in *. unfold segments. rewrite Hn2, Hu2. split; [|done]. split; [|done].
    intros i n. by rewrite Hn2. }
  split_and!.
  - split; [|done]. intros i n. simpl. rewrite Hn2, length_alter, length_take, Hlen, Nat.min_l by done.
    intros Hi. destruct (decide (i = pred k)) as [->|Hne].
    + rewrite list_lookup_alter_eq, lookup_take_lt in Hi by lia. apply fmap_Some in Hi as (n0 & Hn0 & ->).
      destruct (Hok _ _ Hn0) as (H1 & H2 & _). split; [done|]. split; [done|]. simpl.
      destruct (Nat.ltb_spec (S (pred k)) k); [lia|done].
    + rewrite list_lookup_alter_ne in Hi by done. apply lookup_take_Some in Hi as [Hi Hik].
      destruct (Hok _ _ Hi) as (H1 & H2 & H3). split; [done|]. split; [done|]. rewrite H3, Hlen.
      destruct (Nat.ltb_spec (S i) (length (segments m))), (Nat.ltb_spec (S i) k); done || lia.
  - unfold segments at 1. simpl. rewrite Hu2, app_nil_r, Hn2, map_node_alter by done. rewrite <- Hm. change (map node) with (fmap (M := list) (@node T)).
    by rewrite fmap_take.
  - simpl. by rewrite Hn2, length_alter, length_take, Hlen, Nat.min_l.
Qed.

(** C29 The binary search with lazy loading is equivalent to a search of the complete list of
    segments, however many of them are loaded: it finds the segment that holds the row, or none if
    there is none; a row before the first segment makes the upper bound wrap around and is an
    [InternalException].  It always terminates, and loading leaves the list of segments as it is. *)
Theorem segment_search_correct m row :
  searchable m ->
  let '(m', r) := TryGetSegmentIndex m row in
  wf m' /\ segments m' = segments m
  /\ r = match segments m !! 0%nat with
         | Some s => if (row <? seg_start s)%nat then Throw InternalException
                     else Ok (find_segment (segments m) row)
         | None => Ok None
         end.
Proof.
  intros Hm. pose proof (tree_TryGetSegmentIndex_spec m row Hm) as H.
  destruct (TryGetSegmentIndex m row) as [m' r]. destruct H as ((Hw & Hs & _) & _ & Hr). done.
Qed.

End tree.

(** Three stored segments of ten rows each, none of them loaded. *)
#[local] Instance pair_segment : Segment (nat * nat) := {| seg_start := fst; seg_count := snd |}.
Definition stored_segments : t (nat * nat) := Initialize [(0, 10); (10, 10); (20, 10)]%nat.

Lemma segment_search_correct_witness : (TryGetSegmentIndex true stored_segments 15).2 = Ok (Some 1%nat).
Proof.
  pose proof (segment_search_correct true stored_segments 15) as H.
  destruct (TryGetSegmentIndex true stored_segments 15) as [m r]. destruct H as (_ & _ & Hr).
  - split_and!.
    + split; [intros i n Hi; done|intros [?|?]; done].
    + repeat constructor; simpl; lia.
    + reflexivity.
  - rewrite Hr. reflexivity.
Defined.

End SegmentTree.
