(* ===== verification/RowGroup.v ===== *)
(** * Row groups

    Models the version information of a row group (src/src/storage/table/row_group.cpp): its
    loading on demand from the stored deletes, appending, committing, reverting, cleaning up,
    fetching and deleting rows.  The columns of the row group are used through the interface
    [Columns] ([ColumnData] is a class of virtual methods); allocation sizes, statistics and the
    row id column are left out.

    The abstract view of a row group is its rows ([contents]) and the insert and delete id of each
    ([ids]), which does not depend on whether the deletes are loaded. *)

From S2P Require Import Prelude ChunkInfo RowVersionManager SegmentTree.

Module RowGroup.

Abbreviation TransactionData := ChunkInfo.TransactionData.
Abbreviation NOT_DELETED_ID := ChunkInfo.NOT_DELETED_ID.
Abbreviation RVM := RowVersionManager.t.

(** What a row group asks of its columns: [R] are the rows of a chunk, [C] the columns. *)
Class Columns (R C : Type) : Type := {
  create_columns : nat -> C;
  append_columns : C -> list R -> C;
  revert_columns : C -> nat -> C;
  set_start_columns : C -> nat -> C
}.

(** What it relies on: columns that start at row [column_start c] hold the rows [contents c]; a
    revert to one of its rows, or to its end, keeps those before it. *)
Class ColumnLaws {R C : Type} `{!Columns R C} (contents : C -> list R) (column_start : C -> nat) : Prop := {
  contents_create s : contents (create_columns s) = [] /\ column_start (create_columns s) = s;
  contents_append c rows : contents (append_columns c rows) = contents c ++ rows
                           /\ column_start (append_columns c rows) = column_start c;
  contents_revert c row : (column_start c <= row <= column_start c + length (contents c))%nat ->
                          contents (revert_columns c row) = take (row - column_start c) (contents c)
                          /\ column_start (revert_columns c row) = column_start c;
  contents_set_start c s : contents (set_start_columns c s) = contents c
                           /\ column_start (set_start_columns c s) = s
}.

(** [deletes_pointers] are represented by the bytes of the metadata blocks they name. *)
Record t (C : Type) : Type := mk {
  start : nat;
  count : nat;
  columns : C;
  version_info : option RVM;
  deletes_pointers : list (list Z);
  deletes_is_loaded : bool
}.
Arguments mk {C}.
Arguments start {C}.
Arguments count {C}.
Arguments columns {C}.
Arguments version_info {C}.
Arguments deletes_pointers {C}.
Arguments deletes_is_loaded {C}.

#[global] Instance segment {C} : SegmentTree.Segment (t C) :=
  {| SegmentTree.seg_start := start; SegmentTree.seg_count := count |}.

(** A deletion recorded in the undo buffer: the vector, the first row of the vector and the rows. *)
Record DeleteEntry : Type := mkDelete {
  vector_idx : nat;
  base_row : nat;
  rows : list nat
}.

Section row_group.
Context {R C : Type} `{!Columns R C}.
Implicit Types (g : t C) (v : RVM) (T : TransactionData).

Definition create (s : nat) : t C := mk s 0 (create_columns s) None [] false.

Definition SetVersionInfo (version : option RVM) g : t C :=
  mk (start g) (count g) (columns g) version (deletes_pointers g) (deletes_is_loaded g).
Definition SetCount (n : nat) g : t C :=
  mk (start g) n (columns g) (version_info g) (deletes_pointers g) (deletes_is_loaded g).
Definition set_columns (c : C) g : t C :=
  mk (start g) (count g) c (version_info g) (deletes_pointers g) (deletes_is_loaded g).
Definition set_loaded g : t C :=
  mk (start g) (count g) (columns g) (version_info g) (deletes_pointers g) true.

Definition HasUnloadedDeletes g : bool :=
  match deletes_pointers g with [] => false | _ => negb (deletes_is_loaded g) end.

Definition GetVersionInfo : ST (t C) (option RVM) :=
  g ← get;
  if negb (HasUnloadedDeletes g) then mret (version_info g)
  else match deletes_pointers g with
       | [] => mret (version_info g)
       | root_delete :: _ =>
           loaded_info ← lift (RowVersionManager.Deserialize root_delete (Z.of_nat (start g)));
           modify (fun g => set_loaded (SetVersionInfo loaded_info g));;
           mret loaded_info
       end.

Definition GetOrCreateVersionInfo : ST (t C) RVM :=
  vinfo ← GetVersionInfo;
  match vinfo with
  | Some vinfo => mret vinfo
  | None =>
      g ← get;
      match version_info g with
      | Some vinfo => mret vinfo
      | None =>
          let new_info := RowVersionManager.new_manager (Z.of_nat (start g)) in
          modify (SetVersionInfo (Some new_info));;
          mret new_info
      end
  end.

(** A call of an operation of the version manager through the reference [vinfo]. *)
Definition on_version {A} (f : RVM -> RVM * result A) : ST (t C) A :=
  vinfo ← GetOrCreateVersionInfo;
  let '(vinfo, r) := f vinfo in
  modify (SetVersionInfo (Some vinfo));;
  lift r.

Definition AppendVersionInfo (row_group_size : nat) T (append_count : nat) : ST (t C) unit :=
  g ← get;
  let row_group_start := count g in
  let row_group_end := Nat.min (row_group_start + append_count) row_group_size in
  on_version (fun vinfo =>
    RowVersionManager.AppendVersionInfo vinfo T append_count row_group_start row_group_end);;
  modify (SetCount row_group_end).

Definition CommitAppend (commit_id : Z) (row_group_start append_count : nat) : ST (t C) unit :=
  on_version (fun vinfo => RowVersionManager.CommitAppend vinfo commit_id row_group_start append_count).

Definition RevertAppend (row_group_start : nat) : ST (t C) unit :=
  g ← get;
  on_version (fun vinfo => (RowVersionManager.RevertAppend vinfo (row_group_start - start g), Ok tt));;
  modify (fun g => set_columns (revert_columns (columns g) row_group_start) g);;
  modify (fun g => SetCount (Nat.min (row_group_start - start g) (count g)) g).

Definition CleanupAppend (lowest_transaction : Z) (row_group_start append_count : nat) : ST (t C) unit :=
  on_version (fun vinfo =>
    RowVersionManager.CleanupAppend vinfo lowest_transaction row_group_start append_count).

Definition Append (chunk : list R) : ST (t C) unit :=
  modify (fun g => set_columns (append_columns (columns g) chunk) g).

Definition Fetch T (row : nat) : ST (t C) bool :=
  vinfo ← GetVersionInfo;
  match vinfo with
  | None => mret true
  | Some vinfo => mret (RowVersionManager.Fetch vinfo T row)
  end.

Definition GetSelVector T (vector_idx : nat) (sel : list nat) (max_count : nat)
    : ST (t C) (nat * list nat) :=
  vinfo ← GetVersionInfo;
  match vinfo with
  | None => mret (max_count, sel)
  | Some vinfo => mret (RowVersionManager.GetSelVector vinfo T vector_idx sel max_count)
  end.

Definition GetCommittedRowCount : ST (t C) nat :=
  vinfo ← GetVersionInfo;
  g ← get;
  match vinfo with
  | None => mret (count g)
  | Some vinfo => mret (count g - RowVersionManager.GetCommittedDeletedCount vinfo (count g))%nat
  end.

(** ** Deleting rows *)

(** The new row numbers come back in the array that names the rows. *)
Definition DeleteRows (vector_idx : nat) (transaction_id : Z) (rows : list nat) (n : nat)
    : ST (t C) (list nat * nat) :=
  on_version (fun vinfo =>
    let '(vinfo, rows, res) := RowVersionManager.DeleteRows vinfo vector_idx transaction_id rows n in
    (vinfo, (fun k => (rows, k)) <$> res)).

(** [VersionDeleteState]: the pending rows of one vector. *)
Record DeleteState : Type := mkState {
  current_chunk : option nat;
  pending : list nat;
  delete_count : nat
}.

(** Deleting also pushes entries to the undo buffer of the transaction, a state [U] of its own; entries
    pushed before an exception stay there. *)
Section pushing.
Context {U : Type} (push : DeleteEntry -> ST U unit).

Definition on_group {A} (m : ST (t C) A) : ST (t C * U) A :=
  fun '(g, undo) => let '(g, r) := m g in ((g, undo), r).

Definition PushDelete (entry : DeleteEntry) : ST (t C * U) unit :=
  fun '(g, undo) => let '(undo, r) := push entry undo in ((g, undo), r).

Definition Flush T (st : DeleteState) : ST (t C * U) DeleteState :=
  match current_chunk st, pending st with
  | Some chunk, _ :: _ =>
      g ← on_group get;
      '(rows, actual_delete_count) ←
        on_group (DeleteRows chunk (ChunkInfo.transaction_id T) (pending st) (length (pending st)));
      (if (0 <? actual_delete_count)%nat then
         PushDelete (mkDelete chunk (start g + chunk * STANDARD_VECTOR_SIZE)%nat
                              (take actual_delete_count rows))
       else mret tt);;
      mret (mkState (Some chunk) [] (delete_count st + actual_delete_count))
  | _, _ => mret st
  end.

Definition DeleteRow T (st : DeleteState) (row_id : nat) : ST (t C * U) DeleteState :=
  let vector_idx := (row_id / STANDARD_VECTOR_SIZE)%nat in
  let idx_in_vector := (row_id - vector_idx * STANDARD_VECTOR_SIZE)%nat in
  if decide (current_chunk st = Some vector_idx) then
    mret (mkState (current_chunk st) (pending st ++ [idx_in_vector]) (delete_count st))
  else
    st ← Flush T st;
    mret (mkState (Some vector_idx) [idx_in_vector] (delete_count st)).

Fixpoint delete_rows T (ids : list nat) (st : DeleteState) : ST (t C * U) DeleteState :=
  match ids with
  | [] => mret st
  | id :: ids =>
      g ← on_group get;
      st ← DeleteRow T st (id - start g);
      delete_rows T ids st
  end.

(** Returns the number of rows deleted. *)
Definition Delete T (ids : list nat) : ST (t C * U) nat :=
  st ← delete_rows T ids (mkState None [] 0);
  st ← Flush T st;
  mret (delete_count st).
End pushing.

(** An undo buffer that is just a list of entries. *)
Definition log_delete (entry : DeleteEntry) : ST (list DeleteEntry) unit := modify (fun undo => undo ++ [entry]).

(** ** The abstract view *)

(** A commit or rollback of a deletion, through the pointer to the version manager that the undo
    entry keeps. *)
Definition CommitDelete (vector_idx : nat) (commit_id : Z) (d : ChunkInfo.DeleteInfo) : ST (t C) unit :=
  g ← get;
  match version_info g with
  | Some vinfo => modify (SetVersionInfo (Some (RowVersionManager.CommitDelete vinfo vector_idx commit_id d)))
  | None => throw InternalException
  end.

(** Columns that are not loaded get the start when they are. *)
Definition MoveToCollection (new_start : nat) : ST (t C) unit :=
  modify (fun g => mk new_start (count g) (set_start_columns (columns g) new_start) (version_info g)
                      (deletes_pointers g) (deletes_is_loaded g));;
  g ← get;
  if negb (HasUnloadedDeletes g) then
    vinfo ← GetVersionInfo;
    match vinfo with
    | Some vinfo => modify (SetVersionInfo (Some (RowVersionManager.SetStart vinfo (Z.of_nat new_start))))
    | None => mret tt
    end
  else mret tt.

(** The version information after loading it. *)
Definition loaded_info g : option RVM :=
  match (GetVersionInfo g).2 with Ok vinfo => vinfo | Throw _ => None end.

Definition ids g (r : nat) : Z * Z :=
  match loaded_info g with
  | Some v => RowVersionManager.row_ids v r
  | None => (0, NOT_DELETED_ID)
  end.

Context {contents : C -> list R} {column_start : C -> nat} `{!ColumnLaws contents column_start}.

(** The version part of the invariant; [full] adds that the columns hold exactly the counted rows,
    which an append restores when it ends. *)
Record ok (size : nat) g : Prop := {
  ok_loads : exists vinfo, (GetVersionInfo g).2 = Ok vinfo;
  ok_info : forall v, loaded_info g = Some v -> RowVersionManager.inv (count g) v;
  ok_start : column_start (columns g) = start g;
  ok_count : (count g <= size)%nat
}.

Definition full (size : nat) g : Prop := ok size g /\ length (contents (columns g)) = count g.

Definition same g g' : Prop := start g' = start g /\ count g' = count g /\ columns g' = columns g.

Definition is_loaded g : Prop := HasUnloadedDeletes g = false.

Lemma loaded_info_eq g : is_loaded g -> (GetVersionInfo g).2 = Ok (version_info g) /\ loaded_info g = version_info g.
Proof.
  intros Hl. unfold loaded_info, GetVersionInfo, mbind, ST_bind, get. cbn beta iota.
  by rewrite Hl.
Qed.

Lemma GetVersionInfo_spec g vinfo :
  (GetVersionInfo g).2 = Ok vinfo ->
  let g' := (GetVersionInfo g).1 in
  loaded_info g = vinfo /\ version_info g' = vinfo /\ is_loaded g' /\ same g g'.
Proof.
  intros Hv. unfold loaded_info. rewrite Hv. split; [done|]. revert Hv. unfold GetVersionInfo, same, is_loaded.
  unfold mbind, ST_bind, get. cbn beta iota. unfold HasUnloadedDeletes.
  destruct (deletes_pointers g) as [|root rest] eqn:Ep.
  { simpl. intros [= <-]. by rewrite Ep. }
  destruct (deletes_is_loaded g) eqn:Ed; simpl.
  { intros [= <-]. by rewrite Ep, Ed. }
  unfold lift. destruct (RowVersionManager.Deserialize root (Z.of_nat (start g))); [|done].
  simpl. intros [= <-]. by rewrite Ep.
Qed.

(** Row groups that present the same rows with the same ids. *)
Definition equiv g g' : Prop := same g g' /\ forall r, ids g' r = ids g r.

Lemma GetVersionInfo_equiv size g vinfo :
  ok size g -> (GetVersionInfo g).2 = Ok vinfo ->
  ok size (GetVersionInfo g).1 /\ equiv g (GetVersionInfo g).1.
Proof.
  intros [H1 H2 H3 H4] Hv. destruct (GetVersionInfo_spec g vinfo Hv) as (Hl & Hi & Hil & Hs).
  destruct (loaded_info_eq _ Hil) as [Hg' Hl']. rewrite Hi in Hl'.
  destruct Hs as (S1 & S2 & S3). split.
  - split; [by eexists|rewrite Hl', S2, <- Hl; apply H2|by rewrite S3, S1|by rewrite S2].
  - split; [by split|]. intros r. unfold ids. by rewrite Hl', Hl.
Qed.

Lemma GetOrCreateVersionInfo_spec size g :
  ok size g ->
  exists g' v, GetOrCreateVersionInfo g = (g', Ok v) /\ same g g' /\ is_loaded g'
    /\ RowVersionManager.inv (count g) v /\ (forall r, RowVersionManager.row_ids v r = ids g r)
    /\ forall i, RowVersionManager.GetChunkInfo v i
                 = loaded_info g ≫= fun w => RowVersionManager.GetChunkInfo w i.
Proof.
  intros [[vinfo Hv] H2 H3 H4]. destruct (GetVersionInfo_spec g vinfo Hv) as (Hl & Hi & Hil & Hs).
  unfold GetOrCreateVersionInfo, ids. destruct (GetVersionInfo g) as [g1 r1] eqn:E. simpl in *. subst r1.
  rewrite (ST_bind_Ok _ _ _ _ _ E). rewrite Hl in *. destruct vinfo as [v|].
  - exists g1, v. split; [done|]. split; [done|]. split; [done|]. split; [by apply H2|done].
  - unfold mbind, ST_bind, get. cbn beta iota. rewrite Hi. unfold modify. cbn.
    eexists _, _. split; [done|]. split; [exact Hs|]. split; [exact Hil|].
    split; [apply RowVersionManager.empty_inv|done].
Qed.

(** An operation through the reference sees the abstract ids, and its new manager is loaded. *)
Lemma on_version_chunks {A} size g (f : RVM -> RVM * result A) :
  ok size g ->
  exists v, (forall i, RowVersionManager.GetChunkInfo v i
                       = loaded_info g ≫= fun w => RowVersionManager.GetChunkInfo w i)
    /\ RowVersionManager.inv (count g) v /\ (forall r, RowVersionManager.row_ids v r = ids g r)
    /\ (on_version f g).2 = (f v).2
    /\ same g (on_version f g).1 /\ is_loaded (on_version f g).1
    /\ version_info (on_version f g).1 = Some (f v).1.
Proof.
  intros Hok. destruct (GetOrCreateVersionInfo_spec size g Hok) as (g' & v & Hg & Hs & Hl & Hi & Hids & Hc).
  exists v. split; [done|]. split; [done|]. split; [done|]. unfold on_version. rewrite (ST_bind_Ok _ _ _ _ _ Hg).
  destruct (f v) as [v' r]. unfold mbind, ST_bind, modify, lift. cbn. done.
Qed.

Lemma on_version_spec {A} size g (f : RVM -> RVM * result A) :
  ok size g ->
  exists v, RowVersionManager.inv (count g) v /\ (forall r, RowVersionManager.row_ids v r = ids g r)
    /\ (on_version f g).2 = (f v).2
    /\ same g (on_version f g).1 /\ is_loaded (on_version f g).1
    /\ version_info (on_version f g).1 = Some (f v).1.
Proof. intros Hok. destruct (on_version_chunks size g f Hok) as (v & _ & H). by exists v. Qed.

Lemma loaded_ok size g v :
  is_loaded g -> version_info g = Some v -> RowVersionManager.inv (count g) v ->
  column_start (columns g) = start g -> (count g <= size)%nat ->
  ok size g /\ forall r, ids g r = RowVersionManager.row_ids v r.
Proof.
  intros Hl Hv Hi Hs Hc. destruct (loaded_info_eq g Hl) as [Hg Hg']. rewrite Hv in Hg'. split.
  - split; [by eexists| |done..]. intros v'. rewrite Hg'. by intros [= <-].
  - intros r. unfold ids. by rewrite Hg'.
Qed.

(** *** Appending *)

Lemma group_AppendVersionInfo_spec size T n g :
  ok size g -> (count g + n <= size)%nat ->
  (0 < n \/ (size mod STANDARD_VECTOR_SIZE = 0 /\ count g = size /\ 0 < size))%nat ->
  let r := AppendVersionInfo size T n g in
  r.2 = Ok tt /\ ok size r.1
  /\ start r.1 = start g /\ columns r.1 = columns g /\ count r.1 = (count g + n)%nat
  /\ forall row, ids r.1 row = if decide (count g <= row < count g + n)%nat
                               then (ChunkInfo.transaction_id T, NOT_DELETED_ID) else ids g row.
Proof.
  intros Hok Hn Hcase. unfold AppendVersionInfo. rewrite (ST_bind_Ok _ get g g g) by done.
  rewrite Nat.min_l by lia.
  set (F := fun vinfo => RowVersionManager.AppendVersionInfo vinfo T n (count g) (count g + n)).
  destruct (on_version_spec size g F Hok) as (v & Hi & Hids & Hr & (S1 & S2 & S3) & Hl & Hv).
  assert ((F v).2 = Ok tt /\ RowVersionManager.inv (count g + n) (F v).1
          /\ forall row, RowVersionManager.row_ids (F v).1 row
             = if decide (count g <= row < count g + n)%nat
               then (ChunkInfo.transaction_id T, NOT_DELETED_ID) else RowVersionManager.row_ids v row)
    as (HF1 & HF2 & HF3).
  { destruct Hcase as [H0|(Hmod & Hc & H0)].
    - destruct (RowVersionManager.AppendVersionInfo_spec v T n (count g) (count g + n) Hi) as (A1 & A2 & A3 & _);
        [lia|done].
    - assert (n = 0%nat) as Hn0 by lia.
      destruct (RowVersionManager.AppendVersionInfo_full v T (count g)) as (A1 & A2 & A3); [by rewrite Hc|lia|].
      unfold F. rewrite Hn0, Nat.add_0_r. split; [done|]. split.
      + intros i. rewrite A2. apply Hi.
      + intros row. rewrite decide_False by lia. apply A3. }
  rewrite HF1 in Hr. destruct (on_version F g) as [g1 r1] eqn:E. simpl in Hr, S1, S2, S3, Hl, Hv. subst r1.
  rewrite (ST_bind_Ok _ _ _ _ _ E). unfold modify. simpl. split; [done|].
  destruct Hok as [_ _ Hst Hct].
  destruct (loaded_ok size (SetCount (count g + n) g1) (F v).1) as [Hok' Hids']; simpl; try done.
  { by rewrite S1, S3. }
  split; [done|]. split; [done|]. split; [done|]. split; [done|].
  intros row. rewrite Hids', HF3. by rewrite Hids.
Qed.

(** *** Committing, cleaning up and reverting an append *)

(** [h] has been applied to the ids of the rows [a, a + n). *)
Definition stamped (h : Z * Z -> Z * Z) (size : nat) g (a n : nat) g' : Prop :=
  same g g' /\ ok size g'
  /\ forall r, ids g' r = if decide (a <= r < a + n)%nat then h (ids g r) else ids g r.

Lemma stamped_refl h size g a : ok size g -> stamped h size g a 0 g.
Proof. intros Hok. split; [done|]. split; [done|]. intros r. by rewrite decide_False by lia. Qed.

(** An operation that only changes the version information. *)
Lemma on_version_ok size g (f : RVM -> RVM * result unit) (Q : nat -> Z * Z -> Z * Z -> Prop) :
  ok size g ->
  (forall v, RowVersionManager.inv (count g) v -> (forall r, RowVersionManager.row_ids v r = ids g r) ->
     (f v).2 = Ok tt /\ RowVersionManager.inv (count g) (f v).1
     /\ forall r, Q r (ids g r) (RowVersionManager.row_ids (f v).1 r)) ->
  (on_version f g).2 = Ok tt /\ same g (on_version f g).1 /\ ok size (on_version f g).1
  /\ forall r, Q r (ids g r) (ids (on_version f g).1 r).
Proof.
  intros Hok Hf. destruct (on_version_spec size g f Hok) as (v & Hi & Hids & Hr & (S1 & S2 & S3) & Hl & Hv).
  destruct (Hf v Hi Hids) as (H1 & H2 & H3). destruct Hok as [_ _ Hst Hct].
  destruct (loaded_ok size (on_version f g).1 (f v).1) as [Hok' Hids']; [done|done|by rewrite S2|by rewrite S1, S3|by rewrite S2|].
  split; [by rewrite Hr|]. split; [done|]. split; [done|]. intros r. by rewrite Hids'.
Qed.

Lemma group_CommitAppend_spec size commit_id tid a n g :
  ok size g -> (a + n <= count g)%nat -> tid <> 0 ->
  (forall r, (r < count g)%nat -> (ids g r).1 = tid <-> (a <= r < a + n)%nat) ->
  (CommitAppend commit_id a n g).2 = Ok tt
  /\ stamped (fun p => (commit_id, p.2)) size g a n (CommitAppend commit_id a n g).1.
Proof.
  intros Hok Hn Htid Hrange. unfold stamped, CommitAppend.
  apply (on_version_ok size g _ (fun r p p' => p' = if decide (a <= r < a + n)%nat then (commit_id, p.2) else p));
    [done|].
  intros v Hi Hids. destruct (decide (n = 0%nat)) as [->|Hn0].
  - unfold RowVersionManager.CommitAppend. simpl. split; [done|]. split; [done|]. intros r.
    by rewrite decide_False by lia.
  - destruct (RowVersionManager.CommitAppend_spec v (count g) tid commit_id a n Hi) as (H1 & H2 & H3);
      [lia|lia|done| |].
    + intros r Hr. rewrite Hids. by apply Hrange.
    + split; [done|]. split; [done|]. intros r. by rewrite H3, Hids.
Qed.

Lemma group_CleanupAppend_spec size lowest a n T g :
  ok size g -> (a + n <= count g)%nat ->
  (forall i, (ids g (i * STANDARD_VECTOR_SIZE)).1 <= (ids g (i * STANDARD_VECTOR_SIZE + 1)).1) ->
  RowVersionManager.proper T -> lowest <= ChunkInfo.start_time T ->
  (forall r, (r < count g)%nat -> (ids g r).1 <> ChunkInfo.start_time T) ->
  (CleanupAppend lowest a n g).2 = Ok tt /\ same g (CleanupAppend lowest a n g).1
  /\ ok size (CleanupAppend lowest a n g).1
  /\ forall r, RowVersionManager.visible T (ids (CleanupAppend lowest a n g).1 r)
                = RowVersionManager.visible T (ids g r).
Proof.
  intros Hok Hn Hord HT Hlow Hd. unfold CleanupAppend.
  apply (on_version_ok size g _ (fun r p p' => RowVersionManager.visible T p' = RowVersionManager.visible T p));
    [done|].
  intros v Hi Hids.
  destruct (RowVersionManager.CleanupAppend_spec v (count g) lowest a n T Hi) as (H1 & H2 & H3); try done.
  - intros i. rewrite !Hids. apply Hord.
  - intros r Hr. rewrite Hids. by apply Hd.
  - split; [done|]. split; [done|]. intros r. rewrite <- Hids, <- !RowVersionManager.Fetch_row_ids by done. apply H3.
Qed.

(** No constant info spans row [k] if the rows from [k] on are those of one append. *)
Lemma append_start_not_constant n v k id :
  RowVersionManager.inv n v -> (k <= n)%nat ->
  (forall r, (r < n)%nat -> (RowVersionManager.row_ids v r).1 = id <-> (k <= r)%nat) ->
  forall info, RowVersionManager.GetChunkInfo v (k / STANDARD_VECTOR_SIZE) = Some (ChunkInfo.CONSTANT_INFO info) ->
    (k mod STANDARD_VECTOR_SIZE = 0)%nat.
Proof.
  intros Hi Hk Hr info Hc. destruct (decide (k mod STANDARD_VECTOR_SIZE = 0)%nat) as [|Hne]; [done|exfalso].
  destruct (RowVersionManager.vector_row_split k) as [Es Hm].
  set (q := (k / STANDARD_VECTOR_SIZE)%nat) in *. set (j := (k mod STANDARD_VECTOR_SIZE)%nat) in *.
  specialize (Hi q). rewrite Hc in Hi. destruct Hi as (_ & Hfull & _). specialize (Hfull info eq_refl).
  unfold RowVersionManager.rows_in in Hfull.
  assert (forall x, (x < STANDARD_VECTOR_SIZE)%nat ->
            (RowVersionManager.row_ids v (q * STANDARD_VECTOR_SIZE + x)).1 = ChunkInfo.c_insert_id info) as Hx.
  { intros x Hx. by rewrite RowVersionManager.row_ids_join, Hc. }
  assert ((RowVersionManager.row_ids v k).1 = id) as E1 by (apply Hr; lia).
  assert ((RowVersionManager.row_ids v (q * STANDARD_VECTOR_SIZE + (j - 1))).1 = id) as E2.
  { rewrite Hx by lia. rewrite <- E1, Es. symmetry. apply Hx. lia. }
  apply Hr in E2; lia.
Qed.

(** Reverting to row [k] of the row group (row number [row]), where an append started. *)
Lemma group_RevertAppend_spec size row g k id :
  full size g -> row = (start g + k)%nat -> (k <= count g)%nat ->
  (forall r, (r < count g)%nat -> (ids g r).1 = id <-> (k <= r)%nat) ->
  (forall r, (k <= r < count g)%nat -> (ids g r).2 = NOT_DELETED_ID) ->
  let g' := (RevertAppend row g).1 in
  (RevertAppend row g).2 = Ok tt /\ full size g' /\ start g' = start g /\ count g' = k
  /\ contents (columns g') = take k (contents (columns g))
  /\ forall r, (r < k)%nat -> ids g' r = ids g r.
Proof.
  intros [Hok Hfull] -> Hk Hid Hnd. unfold RevertAppend. rewrite (ST_bind_Ok _ get g g g) by done.
  set (F := fun vinfo => (RowVersionManager.RevertAppend vinfo (start g + k - start g), @Ok unit tt)).
  destruct (on_version_spec size g F Hok) as (v & Hi & Hids & Hr & (S1 & S2 & S3) & Hl & Hv).
  destruct (on_version F g) as [g1 r1] eqn:E. simpl in Hr, S1, S2, S3, Hl, Hv. subst r1.
  rewrite (ST_bind_Ok _ _ _ _ _ E). unfold modify, mbind, ST_bind. simpl.
  replace (start g + k - start g)%nat with k in Hv by lia. destruct Hok as [_ _ Hst Hct].
  destruct (contents_revert (columns g1) (start g + k)) as [Hcon Hcs]; [rewrite S3, Hst, Hfull; lia|].
  assert (start g + k - column_start (columns g1) = k)%nat as Ek by (rewrite S3, Hst; lia).
  rewrite Ek, S3 in Hcon. rewrite S3, Hst in Hcs.
  assert (Nat.min (start g + k - start g1) (count g1) = k)%nat as -> by (rewrite S1, S2; lia).
  destruct (RowVersionManager.RevertAppend_spec v (count g) k Hi Hk) as [Hi' Hids'].
  { intros r Hr. rewrite Hids. by apply Hnd. }
  { apply (append_start_not_constant (count g) v k id); [done|done|]. intros r Hr. rewrite Hids. by apply Hid. }
  set (g2 := SetCount _ _).
  destruct (loaded_ok size g2 (RowVersionManager.RevertAppend v k)) as [Hok2 Hids2]; simpl; try done.
  { by rewrite S1, S3. }
  { lia. }
  split; [done|]. split; [split; [done|]|].
  { simpl. rewrite S3, Hcon, length_take, Hfull. lia. }
  split; [done|]. split; [done|]. split; [by rewrite S3|].
  intros r Hr. rewrite Hids2. by rewrite Hids', Hids.
Qed.

(** *** Committing and rolling back deletions *)

(** No vector of the row group has a constant info that was deleted. *)
Definition deletable g : Prop := forall v, loaded_info g = Some v -> RowVersionManager.all_convertible v.

(** The version manager is there, so that undo entries can point to it. *)
Definition managed g : Prop := is_loaded g /\ version_info g <> None.

(** What the operations of transactions keep of a row group. *)
Definition keeps g g' : Prop :=
  start g' = start g /\ (deletable g -> deletable g') /\ (managed g -> managed g') /\ (is_loaded g -> is_loaded g').

Lemma keeps_refl g : keeps g g.
Proof. done. Qed.

Lemma keeps_trans g1 g2 g3 : keeps g1 g2 -> keeps g2 g3 -> keeps g1 g3.
Proof. unfold keeps. intuition congruence. Qed.

Lemma deletable_info g v : is_loaded g -> version_info g = Some v -> deletable g <-> RowVersionManager.all_convertible v.
Proof.
  intros Hl Hv. destruct (loaded_info_eq g Hl) as [_ E]. unfold deletable. rewrite E, Hv.
  split; [intros H; by apply H|]. intros H w [= <-]. done.
Qed.

(** Only the start and the version fields matter. *)
Lemma keeps_fields g g' :
  start g' = start g -> version_info g' = version_info g -> deletes_pointers g' = deletes_pointers g ->
  deletes_is_loaded g' = deletes_is_loaded g -> keeps g g'.
Proof.
  intros E1 E2 E3 E4. assert (HasUnloadedDeletes g' = HasUnloadedDeletes g) as E5 by (unfold HasUnloadedDeletes; by rewrite E3, E4).
  assert (loaded_info g' = loaded_info g) as E6.
  { unfold loaded_info, GetVersionInfo, mbind, ST_bind, get. cbn beta iota. rewrite E5, E3, E2.
    destruct (HasUnloadedDeletes g); cbn [negb]; [|done].
    destruct (deletes_pointers g) as [|root rest]; [done|]. unfold lift. rewrite E1.
    by destruct (RowVersionManager.Deserialize root (Z.of_nat (start g))). }
  split; [done|]. unfold deletable, managed, is_loaded. by rewrite E6, E5, E2.
Qed.

(** A failing load changes nothing. *)
Lemma GetVersionInfo_throws g e : (GetVersionInfo g).2 = Throw e -> GetVersionInfo g = (g, Throw e).
Proof.
  unfold GetVersionInfo, mbind, ST_bind, get. cbn beta iota. destruct (HasUnloadedDeletes g); cbn [negb]; [|done].
  destruct (deletes_pointers g) as [|root rest]; [done|]. unfold lift.
  destruct (RowVersionManager.Deserialize root (Z.of_nat (start g))); [done|]. by intros [= ->].
Qed.

Lemma on_version_keeps {A} g (f : RVM -> RVM * result A) :
  (forall v, RowVersionManager.all_convertible v -> RowVersionManager.all_convertible (f v).1) ->
  keeps g (on_version f g).1 /\ count (on_version f g).1 = count g.
Proof.
  intros Hf. destruct (GetVersionInfo g).2 as [vinfo|e] eqn:Hv.
  2:{ unfold on_version, GetOrCreateVersionInfo. unfold mbind, ST_bind. by rewrite (GetVersionInfo_throws g e Hv). }
  destruct (GetVersionInfo_spec g vinfo Hv) as (Hl & Hi & Hil & Hs). destruct Hs as (S1 & S2 & _).
  assert (exists v, (on_version f g).1 = SetVersionInfo (Some (f v).1) (GetVersionInfo g).1
            /\ (deletable g -> RowVersionManager.all_convertible v)) as (v & E & Hd).
  { unfold on_version, GetOrCreateVersionInfo. destruct (GetVersionInfo g) as [g1 r1] eqn:E. simpl in *. subst r1.
    unfold mbind, ST_bind. rewrite E. destruct vinfo as [v|].
    - exists v. unfold mret, ST_ret, modify, lift. destruct (f v) as [v' r]. split; [done|]. intros Hd. by apply Hd.
    - exists (RowVersionManager.new_manager (Z.of_nat (start g1))). unfold get. rewrite Hi.
      unfold mret, ST_ret, modify, lift. destruct (f _) as [v' r]. split; [done|].
      intros _. apply RowVersionManager.new_convertible. }
  rewrite E. set (g2 := SetVersionInfo _ _). assert (is_loaded g2) as Hl2 by done.
  assert (version_info g2 = Some (f v).1) as Hv2 by done. split; [|done]. split; [done|]. split; [|done].
  intros H. apply (proj2 (deletable_info _ _ Hl2 Hv2)), Hf, Hd, H.
Qed.

Lemma group_CommitAppend_keeps commit_id a n g : keeps g (CommitAppend commit_id a n g).1.
Proof. apply on_version_keeps. intros v. apply RowVersionManager.CommitAppend_convertible. Qed.

Lemma group_AppendVersionInfo_keeps size T n g : keeps g (AppendVersionInfo size T n g).1.
Proof.
  unfold AppendVersionInfo. rewrite (ST_bind_Ok _ get g g g) by done.
  set (F := fun vinfo => RowVersionManager.AppendVersionInfo vinfo T n (count g) (Nat.min (count g + n) size)).
  destruct (on_version_keeps g F) as [Hk _].
  { intros v. apply RowVersionManager.AppendVersionInfo_convertible. }
  unfold mbind, ST_bind. destruct (on_version F g) as [g1 [[]|e]]; [|done].
  eapply keeps_trans; [exact Hk|]. by apply keeps_fields.
Qed.

Lemma group_RevertAppend_keeps size row g : ok size g -> keeps g (RevertAppend row g).1.
Proof.
  intros Hok. unfold RevertAppend. rewrite (ST_bind_Ok _ get g g g) by done.
  set (F := fun vinfo => (RowVersionManager.RevertAppend vinfo (row - start g), @Ok unit tt)).
  destruct (on_version_keeps g F) as [Hk _].
  { intros v. apply RowVersionManager.RevertAppend_convertible. }
  destruct (on_version_spec size g F Hok) as (v & _ & _ & Hr & _ & Hl & Hv).
  destruct (on_version F g) as [g1 r1] eqn:E. simpl in Hr, Hk, Hl, Hv. subst r1.
  rewrite (ST_bind_Ok _ _ _ _ _ E). unfold modify, mbind, ST_bind. cbn beta iota. cbn [fst].
  set (g2 := SetCount _ _). destruct Hk as (K1 & K2 & K3 & _). split; [done|].
  assert (is_loaded g2) as Hl2 by done. assert (version_info g2 = Some (F v).1) as Hv2 by done.
  split; [intros H|split; [intros H; by destruct (K3 H)|done]].
  apply (proj2 (deletable_info g2 _ Hl2 Hv2)), (proj1 (deletable_info g1 _ Hl Hv)), K2, H.
Qed.

(** Replacing the delete ids of rows of one vector. *)
Lemma group_CommitDelete_spec size g i tid commit_id d :
  ok size g -> deletable g -> managed g ->
  Forall (fun r => (r < RowVersionManager.rows_in (count g) i)%nat) (ChunkInfo.deleted_rows d) ->
  ChunkInfo.deleted_rows d <> [] ->
  (forall r, r ∈ ChunkInfo.deleted_rows d -> (ids g (i * STANDARD_VECTOR_SIZE + r)).2 = tid) -> tid <> NOT_DELETED_ID ->
  let g' := (CommitDelete i commit_id d g).1 in
  (CommitDelete i commit_id d g).2 = Ok tt /\ same g g' /\ ok size g' /\ keeps g g'
  /\ forall r, ids g' r = if decide ((r / STANDARD_VECTOR_SIZE = i)%nat
                                     /\ (r mod STANDARD_VECTOR_SIZE)%nat ∈ ChunkInfo.deleted_rows d)
                          then ((ids g r).1, commit_id) else ids g r.
Proof.
  intros Hok Hd [Hl Hm] Hrows Hne Hids Htid. destruct (version_info g) as [v|] eqn:Hv; [|done].
  pose proof Hok as [_ Hinv Hst Hct]. destruct (loaded_info_eq g Hl) as [_ Hli]. rewrite Hv in Hli.
  specialize (Hinv v Hli). destruct (loaded_ok size g v Hl Hv Hinv Hst Hct) as [_ Hrow].
  unfold CommitDelete. rewrite (ST_bind_Ok _ get g g g), Hv by done. cbn [modify fst snd].
  set (v' := RowVersionManager.CommitDelete v i commit_id d). set (g' := SetVersionInfo (Some v') g).
  assert (is_loaded g') as Hl' by done. assert (version_info g' = Some v') as Hv' by done.
  pose proof (proj1 (deletable_info g v Hl Hv) Hd) as Hconv.
  destruct (RowVersionManager.CommitDelete_spec v (count g) i tid commit_id d) as [H1 H2]; try done.
  - intros info E. assert (exists r, r ∈ ChunkInfo.deleted_rows d) as [r Hr].
    { destruct (ChunkInfo.deleted_rows d) as [|r ?]; [done|]. exists r. by left. }
    specialize (Hids r Hr). rewrite Forall_forall in Hrows. specialize (Hrows r Hr).
    rewrite Hrow, RowVersionManager.row_ids_join, E in Hids by (unfold RowVersionManager.rows_in in Hrows; lia).
    apply Htid. rewrite <- Hids. simpl. by apply (Hconv i).
  - intros r Hr. rewrite <- (Hids r Hr), Hrow. rewrite Forall_forall in Hrows. specialize (Hrows r Hr).
    rewrite RowVersionManager.row_ids_join by (unfold RowVersionManager.rows_in in Hrows; lia). done.
  - destruct (loaded_ok size g' v' Hl' Hv' H1 Hst Hct) as [Hok' Hids']. split; [done|]. split; [done|]. split; [done|].
    split; [split; [done|split; [|done]]|].
    + intros _. by apply (proj2 (deletable_info g' v' Hl' Hv')), RowVersionManager.CommitDelete_convertible.
    + intros r. by rewrite Hids', H2, !Hrow.
Qed.

(** *** Moving a row group *)

Lemma MoveToCollection_spec size s g :
  full size g -> is_loaded g ->
  let g' := (MoveToCollection s g).1 in
  (MoveToCollection s g).2 = Ok tt /\ full size g' /\ start g' = s /\ count g' = count g
  /\ contents (columns g') = contents (columns g) /\ (deletable g -> deletable g') /\ (managed g -> managed g')
  /\ forall r, ids g' r = ids g r.
Proof.
  intros [[Hlo Hi Hst Hct] Hfull] Hl. destruct (contents_set_start (columns g) s) as [Hc1 Hc2].
  unfold MoveToCollection. rewrite (ST_bind_Ok _ (modify _) g _ tt) by done. set (g1 := mk s _ _ _ _ _).
  rewrite (ST_bind_Ok _ get g1 g1 g1) by done. assert (HasUnloadedDeletes g1 = false) as -> by exact Hl. cbn [negb].
  assert (is_loaded g1) as Hl1 by done. destruct (loaded_info_eq g1 Hl1) as [Hg1 Hli1]. destruct (loaded_info_eq g Hl) as [_ Hli].
  destruct (GetVersionInfo_spec g1 _ Hg1) as (_ & _ & _ & _).
  assert (GetVersionInfo g1 = (g1, Ok (version_info g))) as E.
  { unfold GetVersionInfo. rewrite (ST_bind_Ok _ get g1 g1 g1) by done. unfold is_loaded in Hl1. by rewrite Hl1. }
  rewrite (ST_bind_Ok _ _ _ _ _ E). rewrite Hli in Hi. destruct (version_info g) as [v|] eqn:Ev.
  - specialize (Hi v eq_refl). destruct (RowVersionManager.SetStart_spec (count g) v (Z.of_nat s)) as (S1 & S2 & S3).
    cbn [modify fst snd]. set (v' := RowVersionManager.SetStart v (Z.of_nat s)) in *. set (g2 := SetVersionInfo (Some v') g1).
    destruct (loaded_ok size g2 v') as [Hok' Hids']; [done|done|by apply S1|done|done|].
    split; [done|]. split; [split; [done|by simpl; rewrite Hc1]|]. split; [done|]. split; [done|]. split; [done|].
    split; [intros Hd|split; [done|]].
    + apply (proj2 (deletable_info g2 v' Hl Logic.eq_refl)), S2. by apply (proj1 (deletable_info g v Hl Ev)).
    + intros r. rewrite Hids', S3. unfold ids. by rewrite Hli.
  - change ((mret tt : ST (t C) unit) g1) with (g1, Ok tt). cbv zeta. cbn [fst snd].
    assert (loaded_info g1 = None) as E1 by (by rewrite Hli1). split; [done|]. split.
    { split; [|by simpl; rewrite Hc1]. split; [by eexists|by rewrite E1|done|done]. }
    split; [done|]. split; [done|]. split; [done|]. split; [intros _ v; by rewrite E1|]. split; [by intros [_ Hm]|].
    intros r. unfold ids. by rewrite E1, Hli.
Qed.

(** *** Reading *)

Lemma Fetch_spec size T row g :
  ok size g -> RowVersionManager.proper T ->
  (Fetch T row g).2 = Ok (RowVersionManager.visible T (ids g row))
  /\ ok size (Fetch T row g).1 /\ equiv g (Fetch T row g).1.
Proof.
  intros Hok HT. pose proof Hok as [[vinfo Hv] _ _ _].
  destruct (GetVersionInfo_equiv size g vinfo Hok Hv) as [Hok' He].
  unfold Fetch, ids, loaded_info in *. rewrite Hv.
  destruct (GetVersionInfo g) as [g1 r1] eqn:E. simpl in *. subst r1. rewrite (ST_bind_Ok _ _ _ _ _ E).
  destruct vinfo as [v|]; simpl; (split; [|done]).
  - by rewrite RowVersionManager.Fetch_row_ids.
  - by rewrite RowVersionManager.visible_default.
Qed.

(** *** Deleting *)

(** The rows (within the row group) that undo entries name. *)
Definition entry_rows (es : list DeleteEntry) : list nat :=
  mjoin (map (fun e => map (fun x => (vector_idx e * STANDARD_VECTOR_SIZE + x)%nat) (rows e)) es).

Lemma entry_rows_app es es' : entry_rows (es ++ es') = entry_rows es ++ entry_rows es'.
Proof. unfold entry_rows. by rewrite map_app, join_app. Qed.

(** The entry is about a vector of the row group and names rows of it. *)
Definition entry_ok g (e : DeleteEntry) : Prop :=
  base_row e = (start g + vector_idx e * STANDARD_VECTOR_SIZE)%nat /\ rows e <> []
  /\ Forall (fun x => (x < RowVersionManager.rows_in (count g) (vector_idx e))%nat) (rows e).

Lemma entry_ok_base g es :
  Forall (entry_ok g) es -> Forall (fun e => base_row e = (start g + vector_idx e * STANDARD_VECTOR_SIZE)%nat) es.
Proof. intros H. eapply Forall_impl; [exact H|]. by intros e (E & _). Qed.

(** The constant info of a vector with stored deletions must not be converted. *)
Definition convertible_at g (i : nat) : Prop :=
  forall v, loaded_info g = Some v -> RowVersionManager.convertible (RowVersionManager.GetChunkInfo v i).

(** The rows [done] of the row group [g0] have been deleted by transaction [tid], and the undo
    buffer has grown by entries for those that were not deleted before, [n] in number. *)
Record deleting (size : nat) (tid : Z) g0 (undo0 : list DeleteEntry) (done : list nat)
    g (undo : list DeleteEntry) (n : nat) : Prop := {
  d_same : same g0 g;
  d_ok : ok size g;
  d_convertible : forall r, (r < count g0)%nat -> convertible_at g (r / STANDARD_VECTOR_SIZE);
  d_ids : forall r, ids g r = if decide (r ∈ done) then ((ids g0 r).1, tid) else ids g0 r;
  d_able : forall r, r ∈ done -> RowVersionManager.row_deletable tid (ids g0 r);
  d_undo : exists es, undo = undo0 ++ es /\ NoDup (entry_rows es) /\ length (entry_rows es) = n
           /\ (forall r, r ∈ entry_rows es <-> r ∈ done /\ (ids g0 r).2 = NOT_DELETED_ID)
           /\ Forall (entry_ok g0) es;
  d_in : forall r, r ∈ done -> (r < count g0)%nat
}.

(** A deletion of the rows [requested] that ran into a conflict. *)
Definition conflicted (size : nat) (tid : Z) g0 (undo0 : list DeleteEntry) (requested : list nat)
    g (undo : list DeleteEntry) (e : exception) : Prop :=
  e = TransactionException /\ same g0 g /\ ok size g
  /\ (exists r, r ∈ requested /\ ~ RowVersionManager.row_deletable tid (ids g0 r))
  /\ exists es, undo = undo0 ++ es
     /\ (forall r, r ∈ entry_rows es -> (r < count g0)%nat /\ (ids g0 r).2 = NOT_DELETED_ID)
     /\ Forall (entry_ok g0) es
     /\ forall r, (ids g0 r).2 <> tid -> r ∉ entry_rows es -> ids g r = ids g0 r.

Lemma DeleteRows_other_slots v i tid rs n j :
  j <> i ->
  RowVersionManager.GetChunkInfo (RowVersionManager.DeleteRows v i tid rs n).1.1 j
  = RowVersionManager.GetChunkInfo v j.
Proof.
  intros Hj. unfold RowVersionManager.DeleteRows.
  pose proof (RowVersionManager.GetVectorInfo_slots (RowVersionManager.mark_changed v true) i) as H.
  destruct (RowVersionManager.GetVectorInfo (RowVersionManager.mark_changed v true) i) as [m info].
  destruct (ChunkInfo.Delete info tid rs n) as [[info' rs'] res]. simpl in *.
  rewrite H. by rewrite decide_False.
Qed.

Lemma DeleteRows_slot v i tid rs n info :
  RowVersionManager.GetChunkInfo (RowVersionManager.DeleteRows v i tid rs n).1.1 i
  <> Some (ChunkInfo.CONSTANT_INFO info).
Proof.
  unfold RowVersionManager.DeleteRows.
  pose proof (RowVersionManager.GetVectorInfo_slots (RowVersionManager.mark_changed v true) i) as H.
  destruct (RowVersionManager.GetVectorInfo (RowVersionManager.mark_changed v true) i) as [m info0].
  destruct (ChunkInfo.Delete info0 tid rs n) as [[info' rs'] res]. simpl in *.
  rewrite H. by rewrite decide_True.
Qed.

Definition in_group (c : nat) (pend : list nat) : list nat :=
  map (fun x => (c * STANDARD_VECTOR_SIZE + x)%nat) pend.

Lemma elem_of_in_group c pend r :
  Forall (fun x => x < STANDARD_VECTOR_SIZE)%nat pend ->
  r ∈ in_group c pend <-> (r / STANDARD_VECTOR_SIZE = c)%nat /\ (r mod STANDARD_VECTOR_SIZE)%nat ∈ pend.
Proof.
  intros Hp. unfold in_group. rewrite (list_elem_of_fmap (fun x => (c * STANDARD_VECTOR_SIZE + x)%nat)). split.
  - intros (x & -> & Hx). rewrite Forall_forall in Hp.
    destruct (RowVersionManager.row_join c x (Hp x Hx)) as [-> ->]. done.
  - intros [<- Hr]. eexists. split; [|exact Hr]. apply RowVersionManager.vector_row_split.
Qed.

Lemma group_DeleteRows_spec size tid g c pend :
  ok size g -> convertible_at g c -> tid <> NOT_DELETED_ID ->
  Forall (fun x => x < STANDARD_VECTOR_SIZE /\ c * STANDARD_VECTOR_SIZE + x < count g)%nat pend ->
  let '(g', res) := DeleteRows c tid pend (length pend) g in
  same g g' /\ ok size g' /\ (forall j, convertible_at g j -> convertible_at g' j)
  /\ match res with
     | Ok (rows', k) =>
         (forall r, r ∈ in_group c pend -> RowVersionManager.row_deletable tid (ids g r))
         /\ NoDup (in_group c (take k rows')) /\ length (take k rows') = k
         /\ (forall r, r ∈ in_group c (take k rows')
                       <-> r ∈ in_group c pend /\ (ids g r).2 = NOT_DELETED_ID)
         /\ (forall r, ids g' r = if decide (r ∈ in_group c pend) then ((ids g r).1, tid) else ids g r)
     | Throw e =>
         e = TransactionException
         /\ (exists r, r ∈ in_group c pend /\ ~ RowVersionManager.row_deletable tid (ids g r))
         /\ (forall r, (ids g r).2 <> tid -> ids g' r = ids g r)
     end.
Proof.
  intros Hok Hcv Htid Hp. unfold DeleteRows.
  assert (Forall (fun x => x < STANDARD_VECTOR_SIZE)%nat pend) as Hp1
    by (eapply Forall_impl; [exact Hp|]; naive_solver).
  set (F := fun vinfo => let '(vinfo, rows, res) := RowVersionManager.DeleteRows vinfo c tid pend (length pend) in
                         (vinfo, (fun k => (rows, k)) <$> res)).
  destruct (on_version_chunks size g F Hok) as (v & Hch & Hi & Hidv & Hr & (Q1 & Q2 & Q3) & Hl & Hv).
  assert (RowVersionManager.convertible (RowVersionManager.GetChunkInfo v c)) as Hcv'.
  { rewrite Hch. unfold convertible_at in Hcv. destruct (loaded_info g) as [w|]; [by apply Hcv|done]. }
  assert (Forall (fun r => r < RowVersionManager.rows_in (count g) c)%nat pend) as Hp2.
  { eapply Forall_impl; [exact Hp|]. intros x Hx. by apply RowVersionManager.rows_in_lt. }
  pose proof (RowVersionManager.DeleteRows_spec v (count g) c tid pend (length pend) Hi Hcv' Htid (le_n _) Hp2) as HS.
  pose proof (RowVersionManager.DeleteRows_returned v (count g) c tid pend (length pend) Hi Hcv' Htid (le_n _) Hp2) as HR.
  pose proof (DeleteRows_other_slots v c tid pend (length pend)) as HO.
  pose proof (DeleteRows_slot v c tid pend (length pend)) as HC.
  subst F. cbv beta in Hr, Hv. set (F := fun vinfo : RVM => _) in *.
  destruct (RowVersionManager.DeleteRows v c tid pend (length pend)) as [[v' rows'] res] eqn:ED.
  simpl in HO, HC. rewrite firstn_all in HS, HR. destruct HS as [Hi' HS].
  destruct (on_version F g) as [g' r']. simpl in Hr, Q1, Q2, Q3, Hl, Hv. subst r'.
  pose proof Hok as [_ _ Hst Hct].
  destruct (loaded_ok size g' v') as [Hok' Hids']; [done|done|by rewrite Q2|by rewrite Q1, Q3|by rewrite Q2|].
  split; [done|]. split; [done|]. split.
  { intros j Hj w. destruct (loaded_info_eq g' Hl) as [_ ->]. rewrite Hv. intros [= <-].
    destruct (decide (j = c)) as [->|Hne].
    - intros info Hinfo. by apply HC in Hinfo.
    - rewrite HO, Hch by done. unfold convertible_at in Hj. destruct (loaded_info g) as [u|]; [by apply Hj|done]. }
  destruct res as [k|e]; simpl.
  - destruct HS as (H1 & H2 & H3 & H4 & H5). destruct (HR k eq_refl) as [R1 R2].
    assert (Forall (fun x => x < STANDARD_VECTOR_SIZE)%nat (take k rows')) as Hk.
    { apply Forall_forall. intros x Hx%R2. rewrite Forall_forall in Hp1. by apply Hp1. }
    split_and!.
    + intros r Hin%elem_of_in_group; [|done]. rewrite <- Hidv. by apply H1.
    + unfold in_group. assert (Inj eq eq (fun x => (c * STANDARD_VECTOR_SIZE + x)%nat)) as Hinj by (intros x y Hxy; lia).
      by apply (NoDup_fmap_2 (fun x => (c * STANDARD_VECTOR_SIZE + x)%nat)).
    + done.
    + intros r. rewrite !elem_of_in_group by done. destruct (RowVersionManager.vector_row_split r) as [Er Hr].
      rewrite H3 by done. rewrite <- Hidv. split.
      * intros (<- & Hx & Hd). by rewrite <- Er in Hd.
      * intros [[<- Hx] Hd]. by rewrite <- Er.
    + intros r. rewrite Hids'. case_decide as Hd; rewrite elem_of_in_group in Hd by done; rewrite <- Hidv; auto.
  - destruct HS as (-> & (r & Hr & Hn) & Hu). split_and!; [done| |].
    + exists r. rewrite elem_of_in_group by done. rewrite <- Hidv. done.
    + intros x. rewrite Hids', <- Hidv. apply Hu.
Qed.

Lemma Flush_spec size T g0 undo0 done_rows g undo c pend n :
  deleting size (ChunkInfo.transaction_id T) g0 undo0 done_rows g undo n ->
  ChunkInfo.transaction_id T <> NOT_DELETED_ID ->
  Forall (fun x => x < STANDARD_VECTOR_SIZE /\ c * STANDARD_VECTOR_SIZE + x < count g0)%nat pend ->
  let '((g', undo'), r) := Flush log_delete T (mkState (Some c) pend n) (g, undo) in
  match r with
  | Ok st => exists n', st = mkState (Some c) [] n'
             /\ deleting size (ChunkInfo.transaction_id T) g0 undo0 (done_rows ++ in_group c pend) g' undo' n'
  | Throw e => conflicted size (ChunkInfo.transaction_id T) g0 undo0 (in_group c pend) g' undo' e
  end.
Proof.
  intros Hdel Htid Hin. destruct pend as [|x0 pend0].
  { simpl. exists n. split; [done|]. by rewrite app_nil_r. }
  destruct Hdel as [(S1 & S2 & S3) Hok Hcv Hids Hable (es & -> & Hnd & Hlen & Hes & Hbase) Hdin].
  set (tid := ChunkInfo.transaction_id T) in *.
  assert (convertible_at g c) as Hcvc.
  { apply Forall_cons_1 in Hin as [[Hx0 Hx1] _]. destruct (RowVersionManager.row_join c x0 Hx0) as [<- _]. by apply Hcv. }
  unfold Flush. cbn [current_chunk pending delete_count]. set (pend := x0 :: pend0) in *. clearbody pend.
  rewrite (ST_bind_Ok _ (on_group get) (g, undo0 ++ es) (g, undo0 ++ es) g) by done.
  pose proof (group_DeleteRows_spec size tid g c pend Hok Hcvc Htid) as HD. rewrite S2 in HD. specialize (HD Hin).
  fold tid. destruct (DeleteRows c tid pend (length pend) g) as [g' [[rows' k]|e]] eqn:ED;
    destruct HD as ((Q1 & Q2 & Q3) & Hok' & Hcv' & HD).
  - rewrite (ST_bind_Ok _ _ (g, undo0 ++ es) (g', undo0 ++ es) (rows', k)) by (unfold on_group; by rewrite ED).
    destruct HD as (D1 & D2 & D3 & D4 & D5).
    assert (forall r, r ∈ in_group c (take k rows')
                      <-> (r ∈ in_group c pend /\ (ids g0 r).2 = NOT_DELETED_ID) /\ r ∉ entry_rows es) as Dnew.
    { intros r. rewrite D4, Hids, Hes. case_decide as Hd; simpl; [|naive_solver].
      split; [intros [_ ?]; congruence|naive_solver]. }
    set (e := mkDelete c (start g + c * STANDARD_VECTOR_SIZE)%nat (take k rows')).
    assert (deleting size tid g0 undo0 (done_rows ++ in_group c pend) g'
              (undo0 ++ es ++ (if (0 <? k)%nat then [e] else [])) (n + k)) as Hgoal.
    { split.
      - split; [by rewrite Q1|]. split; [by rewrite Q2|by rewrite Q3].
      - done.
      - intros r Hr. by apply Hcv', Hcv.
      - intros r. rewrite D5, Hids. repeat case_decide; rewrite ?elem_of_app in *; naive_solver.
      - intros r [Hr|Hr]%elem_of_app; [by apply Hable|]. specialize (D1 r Hr). rewrite Hids in D1.
        case_decide; [by apply Hable|done].
      - exists (es ++ if (0 <? k)%nat then [e] else []). split; [done|].
        assert (entry_rows (if (0 <? k)%nat then [e] else []) = in_group c (take k rows')) as Ee.
        { destruct (Nat.ltb_spec 0 k) as [Hk|Hk]; [unfold entry_rows; simpl; by rewrite app_nil_r|].
          by replace k with 0%nat by lia. }
        rewrite entry_rows_app, Ee. split; [|split; [|split]].
        + apply NoDup_app. split; [done|]. split; [|done]. intros r Hr Hr'. by apply Dnew in Hr' as [_ ?].
        + rewrite length_app, Hlen. unfold in_group. by rewrite length_map, D3.
        + intros r. rewrite !elem_of_app, Dnew, Hes. destruct (decide (r ∈ done_rows)); naive_solver.
        + apply Forall_app. split; [done|]. destruct (Nat.ltb_spec 0 k); [|done].
          apply Forall_singleton. split; [simpl; by rewrite S1|]. simpl. split.
          * intros E. rewrite E in D3. simpl in D3. lia.
          * apply Forall_forall. intros x Hx. assert (c * STANDARD_VECTOR_SIZE + x ∈ in_group c (take k rows'))%nat as Hx'
              by (by apply (list_elem_of_fmap_2 (fun x => (c * STANDARD_VECTOR_SIZE + x)%nat))).
            apply Dnew in Hx' as [[Hx' _] _]. unfold in_group in Hx'.
            apply (list_elem_of_fmap (fun x => (c * STANDARD_VECTOR_SIZE + x)%nat)) in Hx' as (y & Exy & Hy).
            rewrite Forall_forall in Hin. destruct (Hin y Hy) as [H1 H2]. assert (x = y) as -> by lia.
            unfold RowVersionManager.rows_in. lia.
      - intros r [Hr|Hr]%elem_of_app; [by apply Hdin|]. apply elem_of_in_group in Hr as [<- Hr].
        + destruct (RowVersionManager.vector_row_split r) as [-> _]. rewrite Forall_forall in Hin. by destruct (Hin _ Hr).
        + eapply Forall_impl; [exact Hin|]. by intros x [Hx _]. }
    destruct (Nat.ltb_spec 0 k) as [Hk|Hk].
    + unfold PushDelete, log_delete, modify, mbind, ST_bind, mret, ST_ret. simpl. exists (n + k)%nat. split; [done|].
      by rewrite <- app_assoc.
    + unfold mbind, ST_bind, mret, ST_ret. simpl. exists (n + k)%nat. split; [done|]. by rewrite app_nil_r in Hgoal.
  - rewrite (ST_bind_Throw _ _ (g, undo0 ++ es) (g', undo0 ++ es) e) by (unfold on_group; by rewrite ED).
    destruct HD as (-> & (r & Hr & Hn) & Hu). split; [done|]. split.
    { split; [by rewrite Q1|]. split; [by rewrite Q2|by rewrite Q3]. }
    split; [done|]. split.
    + exists r. split; [done|]. rewrite Hids in Hn. case_decide as Hd; [|done]. exfalso. apply Hn. right. done.
    + exists es. split; [done|]. split; [intros x [Hx Hx']%Hes; split; [by apply Hdin|done]|]. split; [done|]. intros x Hx Hxe.
      assert (x ∉ done_rows) as Hd.
      { intros Hd. apply Hxe, Hes. split; [done|]. by destruct (Hable x Hd). }
      rewrite Hu; rewrite Hids; by rewrite decide_False by done.
Qed.

Lemma deleting_proper size tid g0 undo0 d d' g undo n :
  (forall r, r ∈ d <-> r ∈ d') -> deleting size tid g0 undo0 d g undo n -> deleting size tid g0 undo0 d' g undo n.
Proof.
  intros Hd [D1 D2 D3 D4 D5 (es & -> & H1 & H2 & H3 & H4) D7]. split; try done.
  - intros r. rewrite D4. repeat case_decide; naive_solver.
  - intros r Hr. by apply D5, Hd.
  - exists es. split_and!; [done..| |done]. intros r. rewrite H3. naive_solver.
  - intros r Hr. by apply D7, Hd.
Qed.

Lemma conflicted_mono size tid g0 undo0 req req' g undo e :
  req ⊆ req' -> conflicted size tid g0 undo0 req g undo e -> conflicted size tid g0 undo0 req' g undo e.
Proof.
  intros Hsub (-> & Hs & Hok & (r & Hr & Hn) & H). split; [done|]. split; [done|]. split; [done|].
  split; [|done]. exists r. split; [by apply Hsub|done].
Qed.

Definition pending_rows (st : DeleteState) : list nat :=
  match current_chunk st with Some c => in_group c (pending st) | None => [] end.

Definition state_ok (n : nat) (st : DeleteState) : Prop :=
  match current_chunk st with
  | Some c => Forall (fun x => x < STANDARD_VECTOR_SIZE /\ c * STANDARD_VECTOR_SIZE + x < n)%nat (pending st)
  | None => pending st = []
  end.

Lemma Flush_any size T g0 undo0 d g undo st :
  deleting size (ChunkInfo.transaction_id T) g0 undo0 d g undo (delete_count st) ->
  ChunkInfo.transaction_id T <> NOT_DELETED_ID -> state_ok (count g0) st ->
  let '((g', undo'), r) := Flush log_delete T st (g, undo) in
  match r with
  | Ok st' => pending st' = [] /\ current_chunk st' = current_chunk st
             /\ deleting size (ChunkInfo.transaction_id T) g0 undo0 (d ++ pending_rows st) g' undo' (delete_count st')
  | Throw e => conflicted size (ChunkInfo.transaction_id T) g0 undo0 (pending_rows st) g' undo' e
  end.
Proof.
  intros Hd Htid Hst. destruct st as [[c|] pend n]; unfold state_ok, pending_rows in *; simpl in *.
  - pose proof (Flush_spec size T g0 undo0 d g undo c pend n Hd Htid Hst) as H.
    destruct (Flush log_delete T (mkState (Some c) pend n) (g, undo)) as [[g' undo'] [st'|e]]; [|done].
    destruct H as (n' & -> & H). done.
  - subst pend. simpl. rewrite app_nil_r. done.
Qed.

Lemma DeleteRow_spec size T g0 undo0 d g undo st row :
  deleting size (ChunkInfo.transaction_id T) g0 undo0 d g undo (delete_count st) ->
  ChunkInfo.transaction_id T <> NOT_DELETED_ID -> state_ok (count g0) st -> (row < count g0)%nat ->
  let '((g', undo'), r) := DeleteRow log_delete T st row (g, undo) in
  match r with
  | Ok st' => state_ok (count g0) st'
             /\ exists d', deleting size (ChunkInfo.transaction_id T) g0 undo0 d' g' undo' (delete_count st')
                /\ d' ++ pending_rows st' = d ++ pending_rows st ++ [row]
  | Throw e => conflicted size (ChunkInfo.transaction_id T) g0 undo0 (pending_rows st) g' undo' e
  end.
Proof.
  intros Hd Htid Hst Hrow. unfold DeleteRow.
  destruct (RowVersionManager.vector_row_split row) as [Es Hm].
  set (q := (row / STANDARD_VECTOR_SIZE)%nat) in *.
  assert (row - q * STANDARD_VECTOR_SIZE = row mod STANDARD_VECTOR_SIZE)%nat as -> by lia.
  set (x := (row mod STANDARD_VECTOR_SIZE)%nat) in *.
  case_decide as Hc.
  - destruct st as [c pend n]. simpl in *. subst c. unfold state_ok, pending_rows in *. simpl in *.
    split; [apply Forall_app; split; [done|]; apply Forall_singleton; lia|].
    exists d. split; [done|]. unfold in_group. rewrite map_app. simpl. by rewrite <- Es.
  - pose proof (Flush_any size T g0 undo0 d g undo st Hd Htid Hst) as H.
    destruct (Flush log_delete T st (g, undo)) as [[g' undo'] [st'|e]] eqn:EF.
    + rewrite (ST_bind_Ok _ _ _ _ _ EF). destruct H as (H1 & H2 & H3). simpl. split.
      * apply Forall_singleton. lia.
      * exists (d ++ pending_rows st). split; [done|]. unfold pending_rows, in_group. simpl.
        by rewrite <- app_assoc, <- Es.
    + by rewrite (ST_bind_Throw _ _ _ _ _ EF).
Qed.

Lemma delete_rows_spec size T g0 undo0 ids0 :
  ChunkInfo.transaction_id T <> NOT_DELETED_ID ->
  Forall (fun id => start g0 <= id < start g0 + count g0)%nat ids0 ->
  forall d g undo st,
  deleting size (ChunkInfo.transaction_id T) g0 undo0 d g undo (delete_count st) -> state_ok (count g0) st ->
  let '((g', undo'), r) := delete_rows log_delete T ids0 st (g, undo) in
  match r with
  | Ok st' => state_ok (count g0) st'
             /\ exists d', deleting size (ChunkInfo.transaction_id T) g0 undo0 d' g' undo' (delete_count st')
                /\ d' ++ pending_rows st' = d ++ pending_rows st ++ map (fun id => id - start g0)%nat ids0
  | Throw e => exists req, req ⊆ d ++ pending_rows st ++ map (fun id => id - start g0)%nat ids0
               /\ conflicted size (ChunkInfo.transaction_id T) g0 undo0 req g' undo' e
  end.
Proof.
  intros Htid. induction ids0 as [|id ids0 IH]; intros Hin d g undo st Hd Hst; cbn [delete_rows].
  { simpl. split; [done|]. exists d. by rewrite app_nil_r. }
  apply Forall_cons_1 in Hin as [Hid Hin].
  rewrite (ST_bind_Ok _ (on_group get) (g, undo) (g, undo) g) by done.
  pose proof Hd as [[S1 _] _ _ _ _ _ _]. rewrite S1.
  pose proof (DeleteRow_spec size T g0 undo0 d g undo st (id - start g0) Hd Htid Hst) as H.
  destruct (DeleteRow log_delete T st (id - start g0) (g, undo)) as [[g1 undo1] [st1|e]] eqn:E.
  - rewrite (ST_bind_Ok _ _ _ _ _ E). destruct H as (Hst1 & d1 & Hd1 & Hp); [lia|].
    specialize (IH Hin d1 g1 undo1 st1 Hd1 Hst1).
    destruct (delete_rows log_delete T ids0 st1 (g1, undo1)) as [[g2 undo2] [st2|e]].
    + destruct IH as (Hst2 & d2 & Hd2 & Hp2). split; [done|]. exists d2. split; [done|].
      rewrite Hp2. cbn [map]. rewrite app_assoc, Hp, <- !app_assoc. done.
    + destruct IH as (req & Hsub & Hc). exists req. split; [|done]. cbn [map].
      rewrite app_assoc, Hp, <- !app_assoc in Hsub. done.
  - rewrite (ST_bind_Throw _ _ _ _ _ E). exists (pending_rows st). split; [set_solver|]. apply H. lia.
Qed.

(** Deleting rows of a row group: all of them get the transaction's delete id and the undo buffer
    an entry for each row that was not deleted, or there is a conflict. *)
Lemma group_Delete_spec size T g undo ids0 :
  ok size g -> ChunkInfo.transaction_id T <> NOT_DELETED_ID ->
  Forall (fun id => start g <= id < start g + count g)%nat ids0 ->
  (forall r, (r < count g)%nat -> convertible_at g (r / STANDARD_VECTOR_SIZE)) ->
  let rel := map (fun id => id - start g)%nat ids0 in
  let '((g', undo'), r) := Delete log_delete T ids0 (g, undo) in
  match r with
  | Ok n => deleting size (ChunkInfo.transaction_id T) g undo rel g' undo' n
  | Throw e => conflicted size (ChunkInfo.transaction_id T) g undo rel g' undo' e
  end.
Proof.
  intros Hok Htid Hin Hcv rel.
  assert (deleting size (ChunkInfo.transaction_id T) g undo [] g undo 0) as H0.
  { split; [done|done|done| | | |intros r Hr; by apply not_elem_of_nil in Hr].
    - intros r. by rewrite decide_False by apply not_elem_of_nil.
    - intros r Hr. by apply not_elem_of_nil in Hr.
    - exists []. rewrite app_nil_r. split; [done|]. split; [apply NoDup_nil_2|]. split; [done|]. split; [|done].
      intros r. split; [intros Hr|intros [Hr _]]; by apply not_elem_of_nil in Hr. }
  unfold Delete. pose proof (delete_rows_spec size T g undo ids0 Htid Hin [] g undo (mkState None [] 0) H0 eq_refl) as H.
  destruct (delete_rows log_delete T ids0 (mkState None [] 0) (g, undo)) as [[g1 undo1] [st|e]] eqn:E.
  - rewrite (ST_bind_Ok _ _ _ _ _ E). destruct H as (Hst & d & Hd & Hp). simpl in Hp.
    pose proof (Flush_any size T g undo d g1 undo1 st Hd Htid Hst) as HF.
    destruct (Flush log_delete T st (g1, undo1)) as [[g2 undo2] [st2|e]] eqn:EF.
    + rewrite (ST_bind_Ok _ _ _ _ _ EF). destruct HF as (_ & _ & HF). by rewrite Hp in HF.
    + rewrite (ST_bind_Throw _ _ _ _ _ EF). eapply conflicted_mono; [|exact HF].
      fold rel in Hp. rewrite <- Hp. set_solver.
  - rewrite (ST_bind_Throw _ _ _ _ _ E). destruct H as (req & Hsub & Hc). by eapply conflicted_mono.
Qed.

(** *** What deleting keeps, also when it fails *)

Definition keeping {A} (f : ST (t C * list DeleteEntry) A) : Prop :=
  forall g undo, keeps g (f (g, undo)).1.1 /\ count (f (g, undo)).1.1 = count g.

Lemma keeping_pure {A} (h : list DeleteEntry -> list DeleteEntry) (r : result A) :
  keeping (fun '(g, undo) => ((g, h undo), r)).
Proof. intros g undo. split; [apply keeps_refl|done]. Qed.

Lemma keeping_bind {A B} (f : ST (t C * list DeleteEntry) A) (k : A -> ST (t C * list DeleteEntry) B) :
  keeping f -> (forall a, keeping (k a)) -> keeping (f ≫= k).
Proof.
  intros Hf Hk g undo. destruct (Hf g undo) as [H1 H2]. unfold mbind, ST_bind.
  destruct (f (g, undo)) as [[g1 undo1] [a|e]]; [|done]. cbn [fst] in *. destruct (Hk a g1 undo1) as [H3 H4].
  split; [by eapply keeps_trans|congruence].
Qed.

Lemma keeping_get : keeping (on_group get).
Proof. intros g undo. split; [apply keeps_refl|done]. Qed.

Lemma keeping_DeleteRows c tid rs n : keeping (on_group (DeleteRows c tid rs n)).
Proof.
  intros g undo. unfold on_group, DeleteRows.
  set (F := fun vinfo => let '(vinfo, rows, res) := RowVersionManager.DeleteRows vinfo c tid rs n in
                         (vinfo, (fun k => (rows, k)) <$> res)).
  destruct (on_version_keeps g F) as [H1 H2]; [|by destruct (on_version F g)].
  intros v Hv i. pose proof (DeleteRows_other_slots v c tid rs n i) as HO. pose proof (DeleteRows_slot v c tid rs n) as HC.
  assert ((F v).1 = (RowVersionManager.DeleteRows v c tid rs n).1.1) as ->
    by (unfold F; by destruct (RowVersionManager.DeleteRows v c tid rs n) as [[??] ?]).
  destruct (decide (i = c)) as [->|Hne]; [intros info Hinfo; by apply HC in Hinfo|]. rewrite HO by done. apply Hv.
Qed.

Lemma keeping_Flush T st : keeping (Flush log_delete T st).
Proof.
  unfold Flush. destruct (current_chunk st) as [c|]; [|apply (keeping_pure (fun undo => undo))].
  destruct (pending st) as [|x pend]; [apply (keeping_pure (fun undo => undo))|].
  apply keeping_bind; [apply keeping_get|]. intros g. apply keeping_bind; [apply keeping_DeleteRows|]. intros [rows k].
  apply keeping_bind; [|intros _; apply (keeping_pure (fun undo => undo))].
  destruct (0 <? k)%nat; [|apply (keeping_pure (fun undo => undo))]. unfold PushDelete, log_delete, modify. intros g' undo. split; [apply keeps_refl|done].
Qed.

Lemma keeping_Delete T l : keeping (Delete log_delete T l).
Proof.
  unfold Delete. apply keeping_bind.
  - generalize (mkState None [] 0). induction l as [|id l IH]; intros st; cbn [delete_rows]; [apply (keeping_pure (fun undo => undo))|].
    apply keeping_bind; [apply keeping_get|]. intros g. apply keeping_bind; [|done]. unfold DeleteRow.
    case_decide; [apply (keeping_pure (fun undo => undo))|]. apply keeping_bind; [apply keeping_Flush|]. intros st'. apply (keeping_pure (fun undo => undo)).
  - intros st. apply keeping_bind; [apply keeping_Flush|]. intros st'. apply (keeping_pure (fun undo => undo)).
Qed.

(** *** Where there is an undo entry, there is a version manager *)

Lemma on_version_managed {A} g (f : RVM -> RVM * result A) a :
  (on_version f g).2 = Ok a -> managed (on_version f g).1.
Proof.
  destruct (GetVersionInfo g).2 as [vinfo|e] eqn:Hv.
  2:{ unfold on_version, GetOrCreateVersionInfo, mbind, ST_bind. by rewrite (GetVersionInfo_throws g e Hv). }
  destruct (GetVersionInfo_spec g vinfo Hv) as (Hl & Hi & Hil & Hs).
  unfold on_version, GetOrCreateVersionInfo, mbind, ST_bind. destruct (GetVersionInfo g) as [g1 r1]. cbn [fst snd] in *. subst r1.
  destruct vinfo as [v|].
  - unfold mret, ST_ret, modify, lift. by destruct (f v) as [v' r].
  - unfold get, mret, ST_ret, modify, lift. rewrite Hi. by destruct (f _) as [v' r].
Qed.

Definition manages {A} (f : ST (t C * list DeleteEntry) A) : Prop :=
  forall g undo, length (f (g, undo)).1.2 <> length undo -> managed (f (g, undo)).1.1.

Lemma manages_pure {A} (r : result A) : manages (fun '(g, undo) => ((g, undo), r)).
Proof. by intros g undo H. Qed.

Lemma manages_bind {A B} (f : ST (t C * list DeleteEntry) A) (k : A -> ST (t C * list DeleteEntry) B) :
  manages f -> (forall a, manages (k a)) -> (forall a, keeping (k a)) -> manages (f ≫= k).
Proof.
  intros Hf Hk Hkk g undo. specialize (Hf g undo). unfold mbind, ST_bind.
  destruct (f (g, undo)) as [[g1 undo1] [a|e]]; [|done]. cbn [fst snd] in *. specialize (Hk a g1 undo1).
  destruct (Hkk a g1 undo1) as [(_ & _ & Hm & _) _]. intros H.
  destruct (decide (length (k a (g1, undo1)).1.2 = length undo1)) as [E|Hn]; [apply Hm, Hf; congruence|by apply Hk].
Qed.

Lemma manages_Flush T st : manages (Flush log_delete T st).
Proof.
  unfold Flush. destruct (current_chunk st) as [c|]; [|apply manages_pure].
  destruct (pending st) as [|x pend]; [apply manages_pure|]. intros g undo.
  rewrite (ST_bind_Ok _ (on_group get) (g, undo) (g, undo) g) by done.
  set (rs := x :: pend). assert (forall a, (DeleteRows c (ChunkInfo.transaction_id T) rs (length rs) g).2 = Ok a ->
    managed (DeleteRows c (ChunkInfo.transaction_id T) rs (length rs) g).1) as Hm by (intros a; apply on_version_managed).
  unfold mbind, ST_bind, on_group. destruct (DeleteRows c (ChunkInfo.transaction_id T) rs (length rs) g) as [g1 [[rows k]|e]]; [|done].
  specialize (Hm (rows, k) eq_refl). unfold PushDelete, log_delete, modify, mret, ST_ret.
  destruct (0 <? k)%nat; intros _; exact Hm.
Qed.

Lemma manages_Delete T l : manages (Delete log_delete T l).
Proof.
  assert (forall l st, keeping (delete_rows log_delete T l st) /\ manages (delete_rows log_delete T l st)) as Hrows.
  { clear l. induction l as [|id l IH]; intros st; cbn [delete_rows]; [split; [apply (keeping_pure (fun undo => undo))|apply manages_pure]|].
    assert (forall n, keeping (DeleteRow log_delete T st n) /\ manages (DeleteRow log_delete T st n)) as Hrow.
    { intros n. unfold DeleteRow. case_decide; [split; [apply (keeping_pure (fun undo => undo))|apply manages_pure]|]. split.
      - apply keeping_bind; [apply keeping_Flush|]. intros st'. apply (keeping_pure (fun undo => undo)).
      - apply manages_bind; [apply manages_Flush|intros st'; apply manages_pure|intros st'; apply (keeping_pure (fun undo => undo))]. }
    assert (forall g, keeping (st ← DeleteRow log_delete T st (id - start g); delete_rows log_delete T l st)
              /\ manages (st ← DeleteRow log_delete T st (id - start g); delete_rows log_delete T l st)) as Hstep.
    { intros g. split; [apply keeping_bind; [apply Hrow|intros st'; apply IH]|].
      apply manages_bind; [apply Hrow|intros st'; apply IH|intros st'; apply IH]. }
    split; [apply keeping_bind; [apply keeping_get|apply Hstep]|]. apply manages_bind; [by intros g undo H|apply Hstep|apply Hstep]. }
  unfold Delete. apply manages_bind; [apply Hrows| |].
  - intros st. apply manages_bind; [apply manages_Flush|intros st'; apply manages_pure|intros st'; apply (keeping_pure (fun undo => undo))].
  - intros st. apply keeping_bind; [apply keeping_Flush|]. intros st'. apply (keeping_pure (fun undo => undo)).
Qed.

(** *** Any undo buffer gets the entries of the list *)

Section simulation.
Context {U : Type} (push : DeleteEntry -> ST U unit).
Abbreviation simulates := (simulates push).

Lemma simulates_PushDelete e : simulates (PushDelete log_delete e) (PushDelete push e).
Proof.
  intros g undo. exists [e]. split; [done|]. intros u. cbn [push_all]. unfold mbind, ST_bind, PushDelete.
  destruct (push e u) as [u1 [[]|ex]]; [done|by exists g].
Qed.

Lemma simulates_Flush T st : simulates (Flush log_delete T st) (Flush push T st).
Proof.
  unfold Flush. destruct (current_chunk st) as [c|]; [|apply simulates_pure].
  destruct (pending st) as [|x pend]; [apply simulates_pure|].
  apply simulates_bind; [apply simulates_state|]. intros g. apply simulates_bind; [apply simulates_state|]. intros [rows k].
  apply simulates_bind; [|intros _; apply simulates_pure]. destruct (0 <? k)%nat; [apply simulates_PushDelete|apply simulates_pure].
Qed.

Lemma group_simulates_Delete T l : simulates (Delete log_delete T l) (Delete push T l).
Proof.
  unfold Delete. apply simulates_bind.
  - generalize (mkState None [] 0). induction l as [|id l IH]; intros st; cbn [delete_rows]; [apply simulates_pure|].
    apply simulates_bind; [apply simulates_state|]. intros g. apply simulates_bind; [|done]. unfold DeleteRow.
    case_decide; [apply simulates_pure|]. apply simulates_bind; [apply simulates_Flush|]. intros st'. apply simulates_pure.
  - intros st. apply simulates_bind; [apply simulates_Flush|]. intros st'. apply simulates_pure.
Qed.
End simulation.

End row_group.
End RowGroup.
