(* ===== verification/RowGroupCollection.v ===== *)
(** * Row group collections

    Models the rows of a table as a tree of row groups
    (src/src/storage/table/row_group_collection.cpp): appending chunks of rows, giving them version
    information, committing, reverting and cleaning up an append that spans row groups, fetching
    and deleting by row number.  A pointer to a row group is its index in the tree.  Statistics and
    memory accounting are left out; the lock of the tree makes each access to it atomic.

    The abstract view is the list of all rows ([rows]) and the insert and delete id of each row
    number ([row_ids]). *)

From S2P Require Import Prelude ChunkInfo RowVersionManager SegmentTree RowGroup.

Module RowGroupCollection.

Abbreviation TransactionData := ChunkInfo.TransactionData.
Abbreviation NOT_DELETED_ID := ChunkInfo.NOT_DELETED_ID.
Abbreviation Tree C := (SegmentTree.t (RowGroup.t C)).
Abbreviation segments := SegmentTree.segments.

Record t (C : Type) : Type := mk {
  row_group_size : nat;
  total_rows : nat;
  row_start : nat;
  requires_new_row_group : bool;
  row_groups : Tree C
}.
Arguments mk {C}.
Arguments row_group_size {C}.
Arguments total_rows {C}.
Arguments row_start {C}.
Arguments requires_new_row_group {C}.
Arguments row_groups {C}.

(** [TableAppendState], with the row group being appended to and the rows it has by now. *)
Record AppendState : Type := mkAppend {
  append_row_start : nat;
  current_row : nat;
  total_append_count : nat;
  start_row_group : option nat;
  row_group : nat;
  offset_in_row_group : nat
}.

Section collection.
Context {R C : Type} {columns_of : RowGroup.Columns R C}.
Implicit Types (m : t C) (g : RowGroup.t C) (T : TransactionData).

Definition set_tree m (tree : Tree C) : t C :=
  mk (row_group_size m) (total_rows m) (row_start m) (requires_new_row_group m) tree.
Definition set_total (n : nat) m : t C :=
  mk (row_group_size m) n (row_start m) (requires_new_row_group m) (row_groups m).
Definition set_requires (b : bool) m : t C :=
  mk (row_group_size m) (total_rows m) (row_start m) b (row_groups m).

(** Operations of the tree, and of a row group through a pointer to it. *)
Definition on_tree {A} (f : Tree C -> Tree C * result A) : ST (t C) A :=
  fun m => let '(tree, r) := f (row_groups m) in (set_tree m tree, r).

Definition on_row_group {A} (i : nat) (f : ST (RowGroup.t C) A) : ST (t C) A :=
  fun m =>
    match SegmentTree.nodes (row_groups m) !! i with
    | None => (m, Throw InternalException)
    | Some n =>
        let '(g, r) := f (SegmentTree.node n) in
        (set_tree m (SegmentTree.update_segment (row_groups m) i (fun _ => g)), r)
    end.

Definition ok {S A} (r : S * A) : S * result A := (r.1, Ok r.2).

(** Following a pointer that may be null. *)
Definition deref (p : option nat) : ST (t C) nat :=
  match p with Some i => mret i | None => throw InternalException end.

Definition IsEmpty : ST (t C) bool := on_tree (fun tree => ok (SegmentTree.IsEmpty true tree)).
Definition GetLastSegment : ST (t C) (option nat) :=
  on_tree (fun tree => ok (SegmentTree.GetLastSegment true tree)).
Definition GetNextSegment (i : nat) : ST (t C) (option nat) :=
  on_tree (fun tree => ok (SegmentTree.GetNextSegment true tree i)).
Definition GetSegment (row : nat) : ST (t C) nat := on_tree (fun tree => SegmentTree.GetSegment true tree row).
Definition TryGetSegmentIndex (row : nat) : ST (t C) (option nat) :=
  on_tree (fun tree => SegmentTree.TryGetSegmentIndex true tree row).
Definition GetSegmentByIndex (i : nat) : ST (t C) (option nat) :=
  on_tree (fun tree => ok (SegmentTree.GetSegmentByIndex true tree (Z.of_nat i))).

Definition AppendRowGroup (start_row : nat) : ST (t C) unit :=
  modify (fun m => set_requires false
    (set_tree m (SegmentTree.AppendSegment true (row_groups m) (RowGroup.create start_row)))).

(** ** Appending *)

Definition RowGroup_InitializeAppend (i : nat) (st : AppendState) : ST (t C) AppendState :=
  g ← on_row_group i get;
  mret (mkAppend (append_row_start st) (current_row st) (total_append_count st) (start_row_group st)
          i (RowGroup.count g)).

Definition InitializeAppend : ST (t C) AppendState :=
  m ← get;
  empty ← IsEmpty;
  (if empty || requires_new_row_group m then AppendRowGroup (row_start m + total_rows m) else mret tt);;
  last ← GetLastSegment;
  start_row_group ← deref last;
  RowGroup_InitializeAppend start_row_group
    (mkAppend (total_rows m) (total_rows m) 0 (Some start_row_group) 0 0).

Definition RowGroup_Append (chunk : list R) (st : AppendState) : ST (t C) AppendState :=
  on_row_group (row_group st) (RowGroup.Append chunk);;
  mret (mkAppend (append_row_start st) (current_row st) (total_append_count st) (start_row_group st)
          (row_group st) (offset_in_row_group st + length chunk)).

(** A new row group becomes the one to append to. *)
Definition NextRowGroup (next_start : nat) (st : AppendState) : ST (t C) AppendState :=
  AppendRowGroup next_start;;
  last ← GetLastSegment;
  last_row_group ← deref last;
  RowGroup_InitializeAppend last_row_group st.

(** The loop of [Append].  Every iteration but the first fills rows into an empty row group, so
    the length of the chunk and two more is enough fuel. *)
Fixpoint append_loop (fuel : nat) (chunk : list R) (st : AppendState) (new_row_group : bool)
    : ST (t C) (AppendState * bool) :=
  match fuel with
  | O => throw InternalException
  | S fuel =>
      m ← get;
      let append_count := Nat.min (length chunk) (row_group_size m - offset_in_row_group st) in
      st ← (if (0 <? append_count)%nat then RowGroup_Append (take append_count chunk) st else mret st);
      let remaining := (length chunk - append_count)%nat in
      if (0 <? remaining)%nat then
        let chunk := drop append_count chunk in
        g ← on_row_group (row_group st) get;
        let next_start := (RowGroup.start g + offset_in_row_group st)%nat in
        st ← NextRowGroup next_start st;
        append_loop fuel chunk st true
      else mret (st, new_row_group)
  end.

Definition Append (chunk : list R) (st : AppendState) : ST (t C) (AppendState * bool) :=
  let st := mkAppend (append_row_start st) (current_row st) (total_append_count st + length chunk)
              (start_row_group st) (row_group st) (offset_in_row_group st) in
  '(st, new_row_group) ← append_loop (length chunk + 2) chunk st false;
  mret (mkAppend (append_row_start st) (current_row st + length chunk) (total_append_count st)
          (start_row_group st) (row_group st) (offset_in_row_group st), new_row_group).

(** Every iteration moves on to the next row group. *)
Fixpoint finalize_loop (fuel : nat) T (remaining : nat) (row_group : option nat) : ST (t C) unit :=
  match fuel with
  | O => throw InternalException
  | S fuel =>
      if (0 <? remaining)%nat then
        m ← get;
        i ← deref row_group;
        g ← on_row_group i get;
        let append_count := Nat.min remaining (row_group_size m - RowGroup.count g) in
        on_row_group i (RowGroup.AppendVersionInfo (row_group_size m) T append_count);;
        next ← GetNextSegment i;
        finalize_loop fuel T (remaining - append_count) next
      else mret tt
  end.

Definition FinalizeAppend T (st : AppendState) : ST (t C) AppendState :=
  m ← get;
  finalize_loop (S (length (segments (row_groups m)))) T (total_append_count st) (start_row_group st);;
  modify (fun m => set_total (total_rows m + total_append_count st) m);;
  mret (mkAppend (append_row_start st) (current_row st) 0 None (row_group st) (offset_in_row_group st)).

Fixpoint append_chunks (chunks : list (list R)) (st : AppendState) : ST (t C) AppendState :=
  match chunks with
  | [] => mret st
  | chunk :: chunks => '(st, _) ← Append chunk st; append_chunks chunks st
  end.

(** An append of a sequence of chunks by a transaction. *)
Definition append T (chunks : list (list R)) : ST (t C) AppendState :=
  st ← InitializeAppend;
  st ← append_chunks chunks st;
  FinalizeAppend T st.

(** ** Rows of an append *)

(** The loop of [CommitAppend] and of [CleanupAppend]: [f] is applied to the part of each row group
    that lies in the range.  Every iteration moves on to the next row group. *)
Fixpoint row_range_loop (fuel : nat) (f : nat -> nat -> ST (RowGroup.t C) unit)
    (i current_row remaining : nat) : ST (t C) unit :=
  match fuel with
  | O => throw InternalException
  | S fuel =>
      g ← on_row_group i get;
      let start_in_row_group := (current_row - RowGroup.start g)%nat in
      let append_count := Nat.min (RowGroup.count g - start_in_row_group) remaining in
      on_row_group i (f start_in_row_group append_count);;
      let remaining := (remaining - append_count)%nat in
      if (remaining =? 0)%nat then mret tt
      else
        next ← GetNextSegment i;
        next ← deref next;
        row_range_loop fuel f next (current_row + append_count) remaining
  end.

Definition on_row_range (f : nat -> nat -> ST (RowGroup.t C) unit) (start_row count : nat) : ST (t C) unit :=
  i ← GetSegment start_row;
  m ← get;
  row_range_loop (length (segments (row_groups m))) f i start_row count.

Definition CommitAppend (commit_id : Z) (row_start count : nat) : ST (t C) unit :=
  on_row_range (RowGroup.CommitAppend commit_id) row_start count.

Definition CleanupAppend (lowest_transaction : Z) (start count : nat) : ST (t C) unit :=
  on_row_range (RowGroup.CleanupAppend lowest_transaction) start count.

Definition RevertAppendInternal (start_row : nat) : ST (t C) unit :=
  modify (set_total start_row);;
  m ← get;
  let segment_count := SegmentTree.GetSegmentCount (row_groups m) in
  if (segment_count =? 0)%nat then mret tt
  else
    found ← TryGetSegmentIndex start_row;
    let segment_index := default (segment_count - 1)%nat found in
    segment ← GetSegmentByIndex segment_index;
    segment ← deref segment;
    g ← on_row_group segment get;
    if (RowGroup.start g =? start_row)%nat then
      modify (fun m => set_tree m (SegmentTree.EraseSegments true (row_groups m) segment_index));;
      if (0 <? segment_index)%nat then
        previous_segment ← GetSegmentByIndex (segment_index - 1);
        previous_segment ← deref previous_segment;
        modify (fun m => set_tree m (SegmentTree.update_next (row_groups m) previous_segment None))
      else mret tt
    else
      modify (fun m => set_tree m (SegmentTree.EraseSegments true (row_groups m) (segment_index + 1)));;
      modify (fun m => set_tree m (SegmentTree.update_next (row_groups m) segment None));;
      on_row_group segment (RowGroup.RevertAppend start_row).

(** ** Reading and deleting by row number *)

Definition CanFetch T (row_id : nat) : ST (t C) bool :=
  found ← TryGetSegmentIndex row_id;
  match found with
  | None => mret false
  | Some segment_index =>
      segment ← GetSegmentByIndex segment_index;
      segment ← deref segment;
      g ← on_row_group segment get;
      on_row_group segment (RowGroup.Fetch T (row_id - RowGroup.start g))
  end.

(** Deletions push undo entries to a state [U] of their own; entries name the row group whose version
    information they belong to. *)
Section pushing.
Context {U : Type} (push : nat -> RowGroup.DeleteEntry -> ST U unit).

Definition on_collection {A} (f : ST (t C) A) : ST (t C * U) A :=
  fun '(m, undo) => let '(m, r) := f m in ((m, undo), r).

(** The undo buffer comes with the result, so that it is there after an exception, too. *)
Definition group_Delete (i : nat) T (ids : list nat) (undo : U) : ST (RowGroup.t C) (U * result nat) :=
  fun g => let '((g, undo), r) := RowGroup.Delete (push i) T ids (g, undo) in (g, Ok (undo, r)).

Definition RowGroup_Delete (i : nat) T (ids : list nat) : ST (t C * U) nat :=
  fun '(m, undo) =>
    match on_row_group i (group_Delete i T ids undo) m with
    | (m, Ok (undo, r)) => ((m, undo), r)
    | (m, Throw e) => ((m, undo), Throw e)
    end.

(** The ids that follow in the same row group. *)
Fixpoint split_group g (ids : list nat) : list nat * list nat :=
  match ids with
  | [] => ([], [])
  | id :: rest =>
      if (id <? RowGroup.start g)%nat then ([], ids)
      else if (RowGroup.start g + RowGroup.count g <=? id)%nat then ([], ids)
      else let '(same_group, others) := split_group g rest in (id :: same_group, others)
  end.

(** Each iteration consumes an id. *)
Fixpoint delete_loop (fuel : nat) T (ids : list nat) (delete_count : nat) : ST (t C * U) nat :=
  match fuel, ids with
  | S fuel, id :: rest =>
      i ← on_collection (GetSegment id);
      g ← on_collection (on_row_group i get);
      let '(same_group, others) := split_group g rest in
      n ← RowGroup_Delete i T (id :: same_group);
      delete_loop fuel T others (delete_count + n)
  | _, _ => mret delete_count
  end.

Definition Delete T (ids : list nat) : ST (t C * U) nat := delete_loop (length ids) T ids 0.
End pushing.

(** An undo buffer that is just a list of entries. *)
Abbreviation Undo := (list (nat * RowGroup.DeleteEntry)).
Definition log_delete (i : nat) (entry : RowGroup.DeleteEntry) : ST Undo unit := modify (fun undo => undo ++ [(i, entry)]).

(** ** Steps on the tree *)

(** The state with the row groups [l], [k] of them loaded. *)
Definition tree_is m (l : list (RowGroup.t C)) (k : nat) : Prop :=
  SegmentTree.wf true (row_groups m) /\ segments (row_groups m) = l
  /\ length (SegmentTree.nodes (row_groups m)) = k.

Definition frame m m' : Prop :=
  row_group_size m' = row_group_size m /\ total_rows m' = total_rows m /\ row_start m' = row_start m
  /\ requires_new_row_group m' = requires_new_row_group m.

Lemma frame_trans m1 m2 m3 : frame m1 m2 -> frame m2 m3 -> frame m1 m3.
Proof. unfold frame. intuition congruence. Qed.

Lemma tree_is_le m l k : tree_is m l k -> (k <= length l)%nat.
Proof. intros (_ & <- & <-). unfold segments. rewrite length_app, length_map. lia. Qed.

Lemma on_row_group_spec {A} m l k i g (f : ST (RowGroup.t C) A) :
  tree_is m l k -> l !! i = Some g -> (i < k)%nat -> RowGroup.start (f g).1 = RowGroup.start g ->
  exists m', on_row_group i f m = (m', (f g).2) /\ frame m m' /\ tree_is m' (<[i := (f g).1]> l) k.
Proof.
  intros (Hwf & Hs & Hk) Hi Hik Hst. unfold on_row_group. rewrite <- Hk in Hik.
  destruct (lookup_lt_is_Some_2 _ _ Hik) as [n Hn]. rewrite Hn.
  pose proof (SegmentTree.segments_nodes _ _ _ Hn) as Hsi. rewrite Hs, Hi in Hsi. injection Hsi as <-.
  destruct (f g) as [g' r]. simpl in *. eexists. split; [done|]. split; [done|].
  destruct (SegmentTree.update_segment_spec true (row_groups m) i (fun _ => g') Hwf Hik) as [Hwf' Hs'].
  { intros s. rewrite Hs, Hi. by intros [= <-]. }
  split; [done|]. simpl. rewrite Hs', Hs. split; [by apply alter_const|by rewrite length_alter].
Qed.

Lemma read_group m l k i g :
  tree_is m l k -> l !! i = Some g -> (i < k)%nat ->
  exists m', on_row_group i get m = (m', Ok g) /\ frame m m' /\ tree_is m' l k.
Proof.
  intros Hm Hi Hk. destruct (on_row_group_spec m l k i g get Hm Hi Hk eq_refl) as (m' & E & Hf & Ht).
  exists m'. split; [done|]. split; [done|]. simpl in Ht. by rewrite list_insert_id in Ht.
Qed.

Lemma extends_tree m l k tree :
  tree_is m l k -> SegmentTree.extends true (row_groups m) tree ->
  frame m (set_tree m tree) /\ exists k', tree_is (set_tree m tree) l k' /\ (k <= k')%nat
    /\ k' = length (SegmentTree.nodes tree).
Proof.
  intros (Hwf & Hs & Hk) (Hwf' & Hs' & Hl). split; [done|]. eexists. split; [|split; [|done]].
  - split; [done|]. split; [by rewrite <- Hs|done].
  - by rewrite <- Hk.
Qed.

Lemma table_GetNextSegment_spec m l k i :
  tree_is m l k -> (i < k)%nat ->
  exists m' k', GetNextSegment i m = (m', Ok (if (S i <? length l)%nat then Some (S i) else None))
    /\ frame m m' /\ tree_is m' l k' /\ (k <= k')%nat /\ ((S i < length l)%nat -> (S i < k')%nat).
Proof.
  intros Hm Hi. pose proof Hm as (Hwf & Hs & Hk). unfold GetNextSegment, on_tree, ok.
  pose proof (SegmentTree.tree_GetNextSegment_spec true (row_groups m) i Hwf) as H. rewrite Hk, Hs in H. specialize (H Hi).
  destruct (SegmentTree.GetNextSegment true (row_groups m) i) as [tree r]. destruct H as (He & -> & Hr).
  destruct (extends_tree m l k tree Hm He) as (Hf & k' & Ht & Hk' & ->). eexists _, _. split; [done|].
  split; [done|]. split; [done|]. split; [done|]. intros Hlt. apply Hr. by rewrite (proj2 (Nat.ltb_lt _ _)).
Qed.

Lemma table_GetLastSegment_spec m l k :
  tree_is m l k ->
  exists m', GetLastSegment m = (m', Ok (match l with [] => None | _ => Some (pred (length l)) end))
    /\ frame m m' /\ tree_is m' l (length l).
Proof.
  intros Hm. pose proof Hm as (Hwf & Hs & Hk). unfold GetLastSegment, on_tree, ok.
  pose proof (SegmentTree.tree_GetLastSegment_spec true (row_groups m) Hwf) as H. rewrite Hs in H.
  destruct (SegmentTree.GetLastSegment true (row_groups m)) as [tree r]. destruct H as (He & Hl & ->).
  destruct (extends_tree m l k tree Hm He) as (Hf & k' & Ht & _ & ->). eexists. split; [done|].
  split; [done|]. by rewrite <- Hl.
Qed.

Lemma table_IsEmpty_spec m l k :
  tree_is m l k ->
  exists m' k', IsEmpty m = (m', Ok (match l with [] => true | _ => false end)) /\ frame m m' /\ tree_is m' l k'.
Proof.
  intros Hm. pose proof Hm as (Hwf & Hs & Hk). unfold IsEmpty, on_tree, ok.
  pose proof (SegmentTree.tree_IsEmpty_spec true (row_groups m) Hwf) as H. rewrite Hs in H.
  destruct (SegmentTree.IsEmpty true (row_groups m)) as [tree r]. destruct H as (He & ->).
  destruct (extends_tree m l k tree Hm He) as (Hf & k' & Ht & _). by eexists _, _.
Qed.

Lemma AppendRowGroup_spec m l k s :
  tree_is m l k ->
  exists m', AppendRowGroup s m = (m', Ok tt) /\ tree_is m' (l ++ [RowGroup.create s]) (S (length l))
    /\ row_group_size m' = row_group_size m /\ total_rows m' = total_rows m /\ row_start m' = row_start m.
Proof.
  intros (Hwf & Hs & Hk).
  destruct (SegmentTree.AppendSegment_spec true (row_groups m) (RowGroup.create s) Hwf) as (H1 & H2 & H3).
  eexists. split; [done|]. split; [|done]. rewrite Hs in H2, H3. done.
Qed.

Definition small (l : list (RowGroup.t C)) : Prop := Z.of_nat (length l) < 2 ^ 62.

Lemma table_TryGetSegmentIndex_spec m l k row :
  tree_is m l k -> SegmentTree.ordered l -> small l ->
  (forall g, l !! 0%nat = Some g -> (RowGroup.start g <= row)%nat) ->
  exists m' k', TryGetSegmentIndex row m = (m', Ok (SegmentTree.find_segment l row))
    /\ frame m m' /\ tree_is m' l k' /\ (k <= k')%nat
    /\ forall i, SegmentTree.find_segment l row = Some i -> (i < k')%nat.
Proof.
  intros Hm Ho Hsm H0. pose proof Hm as (Hwf & Hs & Hk). unfold TryGetSegmentIndex, on_tree.
  pose proof (SegmentTree.tree_TryGetSegmentIndex_spec true (row_groups m) row) as H.
  unfold SegmentTree.searchable in H. rewrite Hs in H. specialize (H (conj Hwf (conj Ho Hsm))).
  destruct (SegmentTree.TryGetSegmentIndex true (row_groups m) row) as [tree r]. destruct H as (He & Hi & ->).
  destruct (extends_tree m l k tree Hm He) as (Hf & k' & Ht & Hk' & ->). eexists _, _. split; [|done].
  f_equal. destruct (l !! 0%nat) as [g|] eqn:E.
  - specialize (H0 g eq_refl). change (SegmentTree.seg_start g) with (RowGroup.start g).
    destruct (Nat.ltb_spec row (RowGroup.start g)); [lia|done].
  - apply lookup_ge_None_1 in E. by destruct l; [|simpl in E; lia].
Qed.

Lemma GetSegment_spec m l k row i :
  tree_is m l k -> SegmentTree.ordered l -> small l ->
  (forall g, l !! 0%nat = Some g -> (RowGroup.start g <= row)%nat) ->
  SegmentTree.find_segment l row = Some i ->
  exists m' k', GetSegment row m = (m', Ok i) /\ frame m m' /\ tree_is m' l k' /\ (k <= k')%nat /\ (i < k')%nat.
Proof.
  intros Hm Ho Hsm H0 Hi. destruct (table_TryGetSegmentIndex_spec m l k row Hm Ho Hsm H0) as (m' & k' & E & Hf & Ht & Hle & Hk).
  exists m', k'. unfold GetSegment, TryGetSegmentIndex, on_tree in *.
  unfold SegmentTree.GetSegment, SegmentTree.GetSegmentIndex.
  destruct (SegmentTree.TryGetSegmentIndex true (row_groups m) row) as [tree r]. rewrite Hi in *.
  injection E as <- ->. split; [done|]. split; [done|]. split; [done|]. split; [done|]. by apply Hk.
Qed.

Lemma table_GetSegmentByIndex_spec m l k i :
  tree_is m l k -> (i < length l)%nat ->
  exists m' k', GetSegmentByIndex i m = (m', Ok (Some i)) /\ frame m m' /\ tree_is m' l k' /\ (k <= k')%nat /\ (i < k')%nat.
Proof.
  intros Hm Hi. pose proof Hm as (Hwf & Hs & Hk). unfold GetSegmentByIndex, on_tree, ok.
  pose proof (SegmentTree.tree_GetSegmentByIndex_spec true (row_groups m) i Hwf) as H. rewrite Hs in H.
  destruct (SegmentTree.GetSegmentByIndex true (row_groups m) (Z.of_nat i)) as [tree r].
  rewrite (proj2 (Nat.ltb_lt _ _) Hi) in H. destruct H as (He & -> & Hr).
  destruct (extends_tree m l k tree Hm He) as (Hf & k' & Ht & Hk' & ->). eexists _, _. split; [done|].
  split; [done|]. split; [done|]. split; [done|]. by apply Hr.
Qed.

(** ** The abstract view *)

(** The ids of a row number in a list of row groups. *)
Fixpoint list_ids (l : list (RowGroup.t C)) (row : nat) : Z * Z :=
  match l with
  | [] => (0, NOT_DELETED_ID)
  | g :: l => if decide (SegmentTree.contains g row) then RowGroup.ids g (row - RowGroup.start g)
              else list_ids l row
  end.

Definition row_ids m (row : nat) : Z * Z := list_ids (segments (row_groups m)) row.

Context {contents : C -> list R} {column_start : C -> nat} {laws : RowGroup.ColumnLaws contents column_start}.
Abbreviation ok_group := (RowGroup.ok (column_start := column_start)).
Abbreviation full_group := (RowGroup.full (contents := contents) (column_start := column_start)).

Definition group_rows g : list R := contents (RowGroup.columns g).
Definition list_rows (l : list (RowGroup.t C)) : list R := mjoin (map group_rows l).
Definition rows m : list R := list_rows (segments (row_groups m)).

(** Row groups without gaps from row [s] on. *)
Fixpoint contiguous (s : nat) (l : list (RowGroup.t C)) : Prop :=
  match l with
  | [] => True
  | g :: l => RowGroup.start g = s /\ contiguous (s + length (group_rows g)) l
  end.

Lemma list_rows_app l1 l2 : list_rows (l1 ++ l2) = list_rows l1 ++ list_rows l2.
Proof. unfold list_rows. by rewrite map_app, join_app. Qed.

Lemma list_rows_one g : list_rows [g] = group_rows g.
Proof. unfold list_rows. simpl. by rewrite app_nil_r. Qed.

Lemma list_rows_cons g l : list_rows (g :: l) = group_rows g ++ list_rows l.
Proof. done. Qed.

Lemma contiguous_app s l1 l2 :
  contiguous s (l1 ++ l2) <-> contiguous s l1 /\ contiguous (s + length (list_rows l1)) l2.
Proof.
  revert s. induction l1 as [|g l1 IH]; intros s; simpl.
  - rewrite Nat.add_0_r. naive_solver.
  - rewrite IH, list_rows_cons, length_app. rewrite <- Nat.add_assoc. naive_solver.
Qed.

(** In the stable state between operations every row group counts all its rows. *)
Record inv m : Prop := {
  inv_tree : SegmentTree.wf true (row_groups m);
  inv_contiguous : contiguous (row_start m) (segments (row_groups m));
  inv_full : Forall (full_group (row_group_size m)) (segments (row_groups m));
  inv_total : total_rows m = length (rows m);
  inv_size : (0 < row_group_size m)%nat /\ (row_group_size m mod STANDARD_VECTOR_SIZE = 0)%nat
}.

Definition loaded m : Prop := length (SegmentTree.nodes (row_groups m)) = length (segments (row_groups m)).

(** No row group counts rows it does not have. *)
Definition counted (l : list (RowGroup.t C)) : Prop :=
  Forall (fun g => RowGroup.count g <= length (group_rows g))%nat l.

Lemma full_counted size l : Forall (full_group size) l -> counted l.
Proof. intros Hl. eapply Forall_impl; [exact Hl|]. intros g [_ Hg]. unfold group_rows. lia. Qed.

Lemma contiguous_bounds s l g :
  contiguous s l -> g ∈ l ->
  (s <= RowGroup.start g /\ RowGroup.start g + length (group_rows g) <= s + length (list_rows l))%nat.
Proof.
  revert s. induction l as [|g' l IH]; intros s Hc Hin; [by apply not_elem_of_nil in Hin|].
  destruct Hc as [Hs Hc]. rewrite list_rows_cons, length_app.
  apply elem_of_cons in Hin as [<-|Hin]; [lia|]. specialize (IH _ Hc Hin). lia.
Qed.

Lemma contiguous_ordered s l : contiguous s l -> counted l -> SegmentTree.ordered l.
Proof.
  revert s. induction l as [|g l IH]; intros s Hc Hn; [constructor|].
  destruct Hc as [Hs Hc]. apply Forall_cons_1 in Hn as [Hg Hn]. constructor; [by eapply IH|].
  apply Forall_forall. intros g' Hg'. destruct (contiguous_bounds _ _ _ Hc Hg').
  change (RowGroup.start g + RowGroup.count g <= RowGroup.start g')%nat. lia.
Qed.

Lemma list_ids_app l1 l2 row :
  list_ids (l1 ++ l2) row
  = if decide (Exists (fun g => SegmentTree.contains g row) l1) then list_ids l1 row else list_ids l2 row.
Proof.
  induction l1 as [|g l1 IH].
  - rewrite decide_False; [done|]. intros Hd. by apply Exists_nil in Hd.
  - cbn [app list_ids]. rewrite IH. repeat case_decide; rewrite ?Exists_cons in *; tauto.
Qed.

Lemma not_covered s l row :
  contiguous s l -> counted l -> (row < s \/ s + length (list_rows l) <= row)%nat ->
  ~ Exists (fun g => SegmentTree.contains g row) l.
Proof.
  intros Hc Hn Hrow (g & Hg & H1 & H2)%Exists_exists. destruct (contiguous_bounds _ _ _ Hc Hg).
  unfold counted in Hn. rewrite Forall_forall in Hn. specialize (Hn g Hg). cbn [RowGroup.segment SegmentTree.seg_start SegmentTree.seg_count] in *. lia.
Qed.

Lemma list_ids_outside l row :
  ~ Exists (fun g => SegmentTree.contains g row) l -> list_ids l row = (0, NOT_DELETED_ID).
Proof.
  induction l as [|g l IH]; intros Hn; simpl; [done|]. rewrite Exists_cons in Hn.
  rewrite decide_False by tauto. apply IH. tauto.
Qed.

(** *** Appending: row groups whose rows are not all counted yet *)

Lemma ids_set_columns g c r : RowGroup.ids (RowGroup.set_columns c g) r = RowGroup.ids g r.
Proof.
  unfold RowGroup.ids, RowGroup.loaded_info, RowGroup.GetVersionInfo, mbind, ST_bind, get, RowGroup.HasUnloadedDeletes.
  cbn beta iota. destruct g as [s n c' v [|root rest] []]; try done. simpl. unfold lift.
  by destruct (RowVersionManager.Deserialize root (Z.of_nat s)).
Qed.

Lemma ok_set_columns size g c :
  ok_group size g -> column_start c = RowGroup.start g -> ok_group size (RowGroup.set_columns c g).
Proof.
  intros [H1 H2 H3 H4] Hc. split; try done.
  - revert H1. unfold RowGroup.GetVersionInfo, mbind, ST_bind, get, RowGroup.HasUnloadedDeletes. cbn beta iota.
    destruct g as [s n c' v [|root rest] []]; try done. simpl. unfold lift.
    by destruct (RowVersionManager.Deserialize root (Z.of_nat s)).
  - intros v Hv. apply H2. revert Hv.
    unfold RowGroup.loaded_info, RowGroup.GetVersionInfo, mbind, ST_bind, get, RowGroup.HasUnloadedDeletes.
    cbn beta iota. destruct g as [s n c' v' [|root rest] []]; try done. simpl. unfold lift.
    by destruct (RowVersionManager.Deserialize root (Z.of_nat s)).
Qed.

Lemma create_ok size s : ok_group size (RowGroup.create s).
Proof. split; [by eexists|done| |simpl; lia]. simpl. apply RowGroup.contents_create. Qed.

(** The rows from [n0] on are new. *)
Definition partial (size n0 : nat) g : Prop :=
  ok_group size g /\ (RowGroup.count g <= length (group_rows g) <= size)%nat
  /\ (RowGroup.start g + RowGroup.count g = Nat.max (RowGroup.start g) n0)%nat.

(** Row groups [pre] are as before, [mid] have been filled up, [g] is being appended to. *)
Record appending (size n0 : nat) (old : list R) (ids0 : nat -> Z * Z) m (st : AppendState)
    (data : list R) pre mid g : Prop := {
  a_size : row_group_size m = size;
  a_tree : tree_is m (pre ++ mid ++ [g]) (length (pre ++ mid ++ [g]));
  a_pre : Forall (full_group size) pre;
  a_mid : Forall (fun g => partial size n0 g /\ length (group_rows g) = size) mid;
  a_last : partial size n0 g;
  a_contiguous : contiguous (row_start m) (pre ++ mid ++ [g]);
  a_rows : list_rows (pre ++ mid ++ [g]) = old ++ data;
  a_ids : forall row, list_ids (pre ++ mid ++ [g]) row = ids0 row;
  a_start : start_row_group st = Some (length pre);
  a_group : row_group st = (length pre + length mid)%nat;
  a_offset : offset_in_row_group st = length (group_rows g);
  a_begin : (row_start m + length (list_rows pre) <= n0)%nat
}.

Lemma lookup_last_group pre mid g : (pre ++ mid ++ [g]) !! (length pre + length mid)%nat = Some g.
Proof.
  rewrite app_assoc, lookup_app_r by (rewrite length_app; lia). rewrite length_app.
  by replace (length pre + length mid - (length pre + length mid))%nat with 0%nat by lia.
Qed.

Lemma insert_last_group pre mid g g' :
  <[(length pre + length mid)%nat := g']> (pre ++ mid ++ [g]) = pre ++ mid ++ [g'].
Proof.
  rewrite !app_assoc, insert_app_r_alt by (rewrite length_app; lia). rewrite length_app.
  by replace (length pre + length mid - (length pre + length mid))%nat with 0%nat by lia.
Qed.

Lemma length_group_list (pre mid : list (RowGroup.t C)) g :
  length (pre ++ mid ++ [g]) = S (length pre + length mid).
Proof. rewrite !length_app. simpl. lia. Qed.

(** One batch of rows for the row group at the end. *)
Lemma RowGroup_Append_spec size n0 old ids0 m st data pre mid g chunk :
  appending size n0 old ids0 m st data pre mid g ->
  (length (group_rows g) + length chunk <= size)%nat ->
  exists m' g', RowGroup_Append chunk st m
    = (m', Ok (mkAppend (append_row_start st) (current_row st) (total_append_count st) (start_row_group st)
                 (row_group st) (offset_in_row_group st + length chunk)))
  /\ frame m m' /\ RowGroup.start g' = RowGroup.start g
  /\ length (group_rows g') = (length (group_rows g) + length chunk)%nat
  /\ appending size n0 old ids0 m' (mkAppend (append_row_start st) (current_row st) (total_append_count st)
       (start_row_group st) (row_group st) (offset_in_row_group st + length chunk)) (data ++ chunk) pre mid g'.
Proof.
  intros [A1 A2 A3 A4 A5 A6 A7 A8 A9 A10 A11 A12] Hlen. unfold RowGroup_Append. rewrite A10.
  destruct (on_row_group_spec m _ _ _ g (RowGroup.Append chunk) A2 (lookup_last_group pre mid g))
    as (m' & E & Hf & Ht); [rewrite length_group_list; lia|done|].
  rewrite (ST_bind_Ok _ _ _ _ _ E). rewrite insert_last_group in Ht.
  set (g' := (RowGroup.Append chunk g).1) in *.
  destruct (RowGroup.contents_append (ColumnLaws := laws) (RowGroup.columns g) chunk) as [Hc Hcs].
  assert (group_rows g' = group_rows g ++ chunk) as Hg' by exact Hc.
  assert (forall row, list_ids (pre ++ mid ++ [g']) row = list_ids (pre ++ mid ++ [g]) row) as Hids.
  { intros row. rewrite !list_ids_app. repeat case_decide; try done. simpl.
    do 2 case_decide; [apply ids_set_columns|exfalso; auto..|done]. }
  destruct A5 as (P1 & P2 & P3).
  exists m', g'. split; [done|]. split; [done|]. split; [done|]. split; [by rewrite Hg', length_app|].
  destruct Hf as (F1 & F2 & F3 & F4). split; try done.
  - by rewrite F1.
  - rewrite !length_group_list in *. done.
  - split; [|split; [rewrite Hg', length_app; simpl; lia|done]]. apply ok_set_columns; [done|]. rewrite Hcs. by destruct P1.
  - rewrite F3. rewrite app_assoc in *. apply contiguous_app in A6 as [A6 [A6' _]]. apply contiguous_app.
    split; [done|]. by split.
  - rewrite !list_rows_app, list_rows_one in *. rewrite Hg', !app_assoc. f_equal. rewrite <- !app_assoc. done.
  - intros row. by rewrite Hids.
  - simpl. by rewrite A11, Hg', length_app.
  - by rewrite F3.
Qed.

(** The row group at the end is full: a new one takes its place. *)
Lemma NextRowGroup_spec size n0 old ids0 m st data pre mid g s :
  appending size n0 old ids0 m st data pre mid g ->
  length (group_rows g) = size -> s = (RowGroup.start g + size)%nat ->
  exists m' st', NextRowGroup s st m = (m', Ok st')
  /\ total_rows m' = total_rows m /\ row_start m' = row_start m
  /\ st' = mkAppend (append_row_start st) (current_row st) (total_append_count st) (start_row_group st)
             (length pre + length (mid ++ [g])) 0
  /\ appending size n0 old ids0 m' st' data pre (mid ++ [g]) (RowGroup.create s).
Proof.
  intros [A1 A2 A3 A4 A5 A6 A7 A8 A9 A10 A11 A12] Hlen Hs. set (l := pre ++ mid ++ [g]) in *.
  assert (l ++ [RowGroup.create s] = pre ++ (mid ++ [g]) ++ [RowGroup.create s]) as El
    by (unfold l; by rewrite <- !app_assoc).
  destruct (AppendRowGroup_spec m l _ s A2) as (m1 & E1 & T1 & F1 & F2 & F3).
  unfold NextRowGroup. rewrite (ST_bind_Ok _ _ _ _ _ E1).
  destruct (table_GetLastSegment_spec m1 _ _ T1) as (m2 & E2 & (G1 & G2 & G3 & G4) & T2).
  rewrite (ST_bind_Ok _ _ _ _ _ E2). rewrite El in T2, E2 |- *.
  assert (exists x y, pre ++ (mid ++ [g]) ++ [RowGroup.create s] = x :: y) as (x & y & Exy).
  { destruct (pre ++ (mid ++ [g]) ++ [RowGroup.create s]) eqn:Ex; [|by eexists _, _].
    apply (f_equal length) in Ex. rewrite !length_app in Ex. simpl in Ex. lia. }
  rewrite Exy. rewrite <- Exy. rewrite length_group_list. cbn [pred].
  change (deref (Some (length pre + length (mid ++ [g]))%nat)) with (@mret (ST (t C)) _ _ (length pre + length (mid ++ [g]))%nat).
  rewrite (ST_bind_Ok _ (mret _) m2 m2 (length pre + length (mid ++ [g]))%nat) by done.
  unfold RowGroup_InitializeAppend.
  destruct (read_group m2 _ _ (length pre + length (mid ++ [g])) (RowGroup.create s) T2) as (m3 & E3 & (H1 & H2 & H3 & H4) & T3);
    [apply lookup_last_group|rewrite length_group_list; lia|].
  rewrite (ST_bind_Ok _ _ _ _ _ E3). eexists m3, _. split; [done|]. split; [congruence|]. split; [congruence|].
  split; [done|]. destruct A5 as (P1 & P2 & P3).
  destruct (RowGroup.contents_create (ColumnLaws := laws) s) as [Hc Hcs].
  assert (group_rows (RowGroup.create s) = []) as Hg by exact Hc.
  split; try done.
  - congruence.
  - apply Forall_app. split; [done|]. by apply Forall_singleton.
  - split; [apply create_ok|]. rewrite Hg. cbn [RowGroup.create RowGroup.start RowGroup.count length]. lia.
  - rewrite <- El. replace (row_start m3) with (row_start m) by congruence. apply contiguous_app. split; [done|].
    split; [|done]. cbn [RowGroup.create RowGroup.start]. rewrite Hs. unfold l in A6 |- *. rewrite app_assoc in A6 |- *.
    apply contiguous_app in A6 as [_ [-> _]].
    rewrite (list_rows_app (pre ++ mid) [g]), list_rows_one, length_app, Hlen. lia.
  - rewrite <- El, list_rows_app, list_rows_one, Hg, app_nil_r. done.
  - intros row. rewrite <- El, list_ids_app. case_decide as Hd; [done|]. rewrite <- A8.
    rewrite (list_ids_outside l) by done. apply list_ids_outside. intros [[H5 H6]|Hn]%Exists_cons.
    + cbn [SegmentTree.seg_count SegmentTree.seg_start RowGroup.segment RowGroup.create RowGroup.count RowGroup.start] in *. lia.
    + by apply Exists_nil in Hn.
  - by rewrite Hg.
  - by replace (row_start m3) with (row_start m) by congruence.
Qed.

Lemma append_loop_spec fuel size n0 old ids0 : forall m st data pre mid g chunk b,
  (0 < size)%nat -> appending size n0 old ids0 m st data pre mid g ->
  (length chunk + (if (length (group_rows g) =? size)%nat then 2 else 1) <= fuel)%nat ->
  exists m' st' b' mid' g', append_loop fuel chunk st b m = (m', Ok (st', b'))
  /\ total_rows m' = total_rows m /\ row_start m' = row_start m
  /\ append_row_start st' = append_row_start st /\ total_append_count st' = total_append_count st
  /\ appending size n0 old ids0 m' st' (data ++ chunk) pre mid' g'.
Proof.
  induction fuel as [|fuel IH]; intros m st data pre mid g chunk b H0 Ha Hfuel.
  { destruct (length (group_rows g) =? size)%nat; lia. }
  cbn [append_loop]. rewrite (ST_bind_Ok _ get m m m) by done.
  pose proof Ha as [A1 A2 A3 A4 A5 A6 A7 A8 A9 A10 A11 A12]. rewrite A1, A11.
  pose proof A5 as (_ & P2 & _).
  set (k := Nat.min (length chunk) (size - length (group_rows g))).
  assert (exists m1 g1, (if (0 <? k)%nat then RowGroup_Append (take k chunk) st else mret st) m
            = (m1, Ok (mkAppend (append_row_start st) (current_row st) (total_append_count st) (start_row_group st)
                         (row_group st) (offset_in_row_group st + k)))
          /\ frame m m1 /\ RowGroup.start g1 = RowGroup.start g
          /\ length (group_rows g1) = (length (group_rows g) + k)%nat
          /\ appending size n0 old ids0 m1 (mkAppend (append_row_start st) (current_row st) (total_append_count st)
               (start_row_group st) (row_group st) (offset_in_row_group st + k)) (data ++ take k chunk) pre mid g1)
    as (m1 & g1 & E1 & (F1 & F2 & F3 & F4) & Hs1 & Hl1 & Ha1).
  { destruct (Nat.ltb_spec 0 k) as [Hk|Hk].
    - assert (length (take k chunk) = k) as Hlk by (rewrite length_take; lia).
      destruct (RowGroup_Append_spec size n0 old ids0 m st data pre mid g (take k chunk) Ha) as (m1 & g1 & H1); [lia|].
      rewrite Hlk in H1. by exists m1, g1.
    - assert (k = 0%nat) as -> by lia. exists m, g. rewrite Nat.add_0_r, take_0, app_nil_r.
      destruct st. split; [done|]. split; [done|]. split; [done|]. split; [lia|done]. }
  rewrite (ST_bind_Ok _ _ _ _ _ E1). destruct (Nat.ltb_spec 0 (length chunk - k)) as [Hr|Hr].
  - assert (k = size - length (group_rows g))%nat as Hk by lia.
    pose proof Ha1 as [_ B2 _ _ _ _ _ _ _ B10 _ _]. cbn [row_group] in B10.
    cbn [row_group offset_in_row_group append_row_start current_row total_append_count start_row_group]. rewrite A10.
    destruct (read_group m1 _ _ _ g1 B2 (lookup_last_group pre mid g1)) as (m2 & E2 & (G1 & G2 & G3 & G4) & T2);
      [rewrite length_group_list; lia|].
    rewrite (ST_bind_Ok _ _ _ _ _ E2). rewrite A11.
    assert (appending size n0 old ids0 m2 (mkAppend (append_row_start st) (current_row st) (total_append_count st)
              (start_row_group st) (row_group st) (offset_in_row_group st + k)) (data ++ take k chunk) pre mid g1) as Ha2.
    { destruct Ha1. split; try done; [congruence|by rewrite G3..]. }
    destruct (NextRowGroup_spec size n0 old ids0 m2 _ _ pre mid g1 (RowGroup.start g1 + (length (group_rows g) + k))%nat Ha2)
      as (m3 & st3 & E3 & H1 & H2 & Hst3 & Ha3); [lia|lia|].
    rewrite A10, A11 in E3.
    specialize (IH m3 st3 (data ++ take k chunk) pre (mid ++ [g1]) (RowGroup.create (RowGroup.start g1 + (length (group_rows g) + k)))
                  (drop k chunk) true H0 Ha3).
    destruct IH as (m4 & st4 & b4 & mid4 & g4 & E4 & I1 & I2 & I3 & I4 & Ha4).
    { destruct (RowGroup.contents_create (ColumnLaws := laws) (RowGroup.start g1 + (length (group_rows g) + k))) as [Hc _].
      unfold group_rows at 1. cbn [RowGroup.create RowGroup.columns]. rewrite Hc. rewrite length_drop. cbn [length].
      destruct (Nat.eqb_spec 0 size); [lia|].
      destruct (Nat.eqb_spec (length (group_rows g)) size); lia. }
    exists m4, st4, b4, mid4, g4. split_and!; try congruence.
    + rewrite (ST_bind_Ok _ _ _ _ _ E3). exact E4.
    + by rewrite Hst3 in I3.
    + by rewrite Hst3 in I4.
    + by rewrite <- app_assoc, take_drop in Ha4.
  - eexists m1, _, b, mid, g1. split; [done|]. split; [done|]. split; [done|]. split; [done|]. split; [done|].
    rewrite take_ge in Ha1 by lia. done.
Qed.

(** The state of an append carries what the loops read of it. *)
Lemma appending_state size n0 old ids0 m st st' data pre mid g :
  appending size n0 old ids0 m st data pre mid g ->
  start_row_group st' = start_row_group st -> row_group st' = row_group st ->
  offset_in_row_group st' = offset_in_row_group st ->
  appending size n0 old ids0 m st' data pre mid g.
Proof. intros [A1 A2 A3 A4 A5 A6 A7 A8 A9 A10 A11 A12] H1 H2 H3. split; congruence || done. Qed.

Lemma Append_spec size n0 old ids0 m st data pre mid g chunk :
  (0 < size)%nat -> appending size n0 old ids0 m st data pre mid g ->
  exists m' st' b mid' g', Append chunk st m = (m', Ok (st', b))
  /\ total_rows m' = total_rows m /\ row_start m' = row_start m
  /\ append_row_start st' = append_row_start st
  /\ total_append_count st' = (total_append_count st + length chunk)%nat
  /\ appending size n0 old ids0 m' st' (data ++ chunk) pre mid' g'.
Proof.
  intros H0 Ha. unfold Append. set (st0 := mkAppend _ _ _ _ _ _).
  destruct (append_loop_spec (length chunk + 2) size n0 old ids0 m st0 data pre mid g chunk false H0)
    as (m' & st' & b & mid' & g' & E & I1 & I2 & I3 & I4 & I5).
  { by eapply appending_state. }
  { destruct (length (group_rows g) =? size)%nat; lia. }
  rewrite (ST_bind_Ok _ _ _ _ _ E). eexists m', _, b, mid', g'. split; [done|].
  split; [done|]. split; [done|]. split; [done|]. split; [done|]. by eapply appending_state.
Qed.

Lemma append_chunks_spec size n0 old ids0 chunks : forall m st data pre mid g,
  (0 < size)%nat -> appending size n0 old ids0 m st data pre mid g ->
  exists m' st' mid' g', append_chunks chunks st m = (m', Ok st')
  /\ total_rows m' = total_rows m /\ row_start m' = row_start m
  /\ append_row_start st' = append_row_start st
  /\ total_append_count st' = (total_append_count st + length (mjoin chunks))%nat
  /\ appending size n0 old ids0 m' st' (data ++ mjoin chunks) pre mid' g'.
Proof.
  induction chunks as [|chunk chunks IH]; intros m st data pre mid g H0 Ha; cbn [append_chunks].
  - exists m, st, mid, g. rewrite app_nil_r. split; [done|]. split; [done|]. split; [done|]. split; [done|].
    split; [simpl; lia|done].
  - destruct (Append_spec size n0 old ids0 m st data pre mid g chunk H0 Ha)
      as (m1 & st1 & b & mid1 & g1 & E1 & I1 & I2 & I3 & I4 & Ha1).
    rewrite (ST_bind_Ok _ _ _ _ _ E1).
    destruct (IH m1 st1 _ pre mid1 g1 H0 Ha1) as (m2 & st2 & mid2 & g2 & E2 & J1 & J2 & J3 & J4 & Ha2).
    exists m2, st2, mid2, g2. split; [done|]. split; [congruence|]. split; [congruence|]. split; [congruence|].
    rewrite mjoin_cons, length_app, app_assoc. split; [lia|done].
Qed.

Lemma full_partial size n0 g :
  full_group size g -> (RowGroup.start g + RowGroup.count g = n0)%nat -> partial size n0 g.
Proof.
  intros [Hok Hl] Hn. pose proof Hok as [_ _ _ Hc]. unfold group_rows in *.
  split; [done|]. unfold group_rows. lia.
Qed.

Lemma InitializeAppend_spec m :
  inv m ->
  exists m' st pre g, InitializeAppend m = (m', Ok st)
  /\ total_rows m' = total_rows m /\ row_start m' = row_start m
  /\ append_row_start st = total_rows m /\ total_append_count st = 0%nat
  /\ appending (row_group_size m) (row_start m + total_rows m) (rows m) (row_ids m) m' st [] pre [] g
  /\ (length pre <= length (segments (row_groups m)))%nat.
Proof.
  intros [Hwf Hc Hf Ht [Hs Hmod]]. unfold InitializeAppend. rewrite (ST_bind_Ok _ get m m m) by done.
  set (l := segments (row_groups m)) in *.
  destruct (table_IsEmpty_spec m l _ (conj Hwf (conj eq_refl eq_refl))) as (m1 & k1 & E1 & (F1 & F2 & F3 & F4) & T1).
  rewrite (ST_bind_Ok _ _ _ _ _ E1).
  set (b := (match l with [] => true | _ => false end) || requires_new_row_group m).
  assert (exists m2 k2 pre g, (if b then AppendRowGroup (row_start m + total_rows m) else mret tt) m1 = (m2, Ok tt)
            /\ row_group_size m2 = row_group_size m /\ total_rows m2 = total_rows m /\ row_start m2 = row_start m
            /\ tree_is m2 (pre ++ [g]) k2 /\ Forall (full_group (row_group_size m)) (pre ++ [g])
            /\ contiguous (row_start m) (pre ++ [g]) /\ list_rows (pre ++ [g]) = rows m
            /\ (length pre <= length l)%nat
            /\ forall row, list_ids (pre ++ [g]) row = row_ids m row)
    as (m2 & k2 & pre & g & E2 & G1 & G2 & G3 & T2 & Hf2 & Hc2 & Hr2 & Hle & Hi2).
  { destruct (RowGroup.contents_create (ColumnLaws := laws) (row_start m + total_rows m)) as [Hcc _].
    set (new := RowGroup.create (row_start m + total_rows m)).
    assert (group_rows new = []) as Hnew by exact Hcc.
    destruct b eqn:Eb.
    - destruct (AppendRowGroup_spec m1 l k1 (row_start m + total_rows m) T1) as (m2 & E2 & T2 & G1 & G2 & G3).
      eexists m2, _, l, new. split; [done|]. split; [congruence|]. split; [congruence|]. split; [congruence|].
      split; [done|]. split.
      { apply Forall_app. split; [done|]. apply Forall_singleton. split; [apply create_ok|].
        change (length (group_rows new) = 0%nat). by rewrite Hnew. }
      split.
      { apply contiguous_app. split; [done|]. split; [|done]. change (row_start m + total_rows m = row_start m + length (list_rows l))%nat.
        by rewrite Ht. }
      split; [by rewrite list_rows_app, list_rows_one, Hnew, app_nil_r|]. split; [done|].
      intros row. rewrite list_ids_app. case_decide; [done|]. unfold row_ids. fold l.
      rewrite (list_ids_outside l) by done. apply list_ids_outside. intros [[H5 H6]|Hn]%Exists_cons.
      + cbn [SegmentTree.seg_count SegmentTree.seg_start RowGroup.segment] in *. simpl in *. lia.
      + by apply Exists_nil in Hn.
    - destruct (exists_last (l := l)) as (pre & g & El); [intros ->; done|].
      exists m1, k1, pre, g. rewrite <- El. split_and!; try done. rewrite El, length_app. lia. }
  rewrite (ST_bind_Ok _ _ _ _ _ E2).
  destruct (table_GetLastSegment_spec m2 _ _ T2) as (m3 & E3 & (H1 & H2 & H3 & _) & T3).
  rewrite (ST_bind_Ok _ _ _ _ _ E3).
  assert ((match pre ++ [g] with [] => None | _ => Some (pred (length (pre ++ [g]))) end) = Some (length pre)) as ->.
  { rewrite length_app, Nat.add_1_r. by destruct pre. }
  rewrite (ST_bind_Ok _ (deref (Some (length pre))) m3 m3 (length pre)) by done.
  unfold RowGroup_InitializeAppend.
  assert ((pre ++ [g]) !! length pre = Some g) as Hg.
  { pose proof (lookup_last_group pre [] g) as H. by rewrite Nat.add_0_r in H. }
  destruct (read_group m3 _ _ (length pre) g T3 Hg) as (m4 & E4 & (J1 & J2 & J3 & _) & T4);
    [rewrite length_app; simpl; lia|].
  rewrite (ST_bind_Ok _ _ _ _ _ E4). eexists m4, _, pre, g. split; [done|].
  split; [congruence|]. split; [congruence|]. split; [done|]. split; [done|].
  apply Forall_app in Hf2 as [Hf2 [Hfg _]%Forall_cons_1]. pose proof Hfg as [_ Hl].
  split; [|done]. split; try done.
  - congruence.
  - apply full_partial; [done|]. apply contiguous_app in Hc2 as [_ [-> _]]. unfold group_rows in *.
    apply (f_equal length) in Hr2. rewrite list_rows_app, list_rows_one, length_app in Hr2. unfold group_rows in Hr2.
    rewrite Ht. lia.
  - by replace (row_start m4) with (row_start m) by congruence.
  - by rewrite app_nil_r.
  - apply (f_equal length) in Hr2. rewrite list_rows_app, length_app in Hr2.
    replace (row_start m4) with (row_start m) by congruence. lia.
Qed.

(** *** Version information for the new rows *)

(** [g'] counts all rows of [g]; those that were not counted belong to transaction [tid]. *)
Definition finalized (size : nat) (tid : Z) g g' : Prop :=
  RowGroup.start g' = RowGroup.start g /\ group_rows g' = group_rows g /\ full_group size g'
  /\ forall r, RowGroup.ids g' r
     = if decide (RowGroup.count g <= r < length (group_rows g))%nat then (tid, NOT_DELETED_ID) else RowGroup.ids g r.

Definition uncounted (l : list (RowGroup.t C)) : nat :=
  list_sum (map (fun g => length (group_rows g) - RowGroup.count g)%nat l).

(** All row groups but the last are filled up. *)
Fixpoint filled (size : nat) (l : list (RowGroup.t C)) : Prop :=
  match l with
  | [] => True
  | g :: l => (l <> [] -> length (group_rows g) = size) /\ filled size l
  end.

Lemma finalized_refl size n0 tid g :
  partial size n0 g -> RowGroup.count g = length (group_rows g) -> finalized size tid g g.
Proof.
  intros (Hok & _) Hc. split; [done|]. split; [done|]. split; [by split|].
  intros r. by rewrite decide_False by lia.
Qed.

Lemma finalize_group size n0 T g n :
  partial size n0 g -> n = (length (group_rows g) - RowGroup.count g)%nat ->
  (0 < n \/ (size mod STANDARD_VECTOR_SIZE = 0 /\ RowGroup.count g = size /\ 0 < size))%nat ->
  (RowGroup.AppendVersionInfo size T n g).2 = Ok tt
  /\ finalized size (ChunkInfo.transaction_id T) g (RowGroup.AppendVersionInfo size T n g).1.
Proof.
  intros (Hok & Hc & _) Hn Hcase.
  destruct (RowGroup.group_AppendVersionInfo_spec size T n g Hok) as (H1 & H2 & H3 & H4 & H5 & H6); [lia|done|].
  split; [done|]. assert (group_rows (RowGroup.AppendVersionInfo size T n g).1 = group_rows g) as Hr
    by (unfold group_rows; by rewrite H4).
  split; [done|]. split; [done|]. split.
  - split; [done|]. unfold group_rows in *. rewrite Hr, H5. lia.
  - intros r. rewrite H6. by replace (RowGroup.count g + n)%nat with (length (group_rows g)) by lia.
Qed.

Lemma finalize_loop_spec fuel size n0 T : forall tl m pre k remaining,
  row_group_size m = size -> (0 < size /\ size mod STANDARD_VECTOR_SIZE = 0)%nat ->
  tree_is m (pre ++ tl) k -> k = length (pre ++ tl) ->
  Forall (partial size n0) tl -> filled size tl -> remaining = uncounted tl -> (length tl < fuel)%nat ->
  exists m' tl', finalize_loop fuel T remaining (match tl with [] => None | _ => Some (length pre) end) m = (m', Ok tt)
  /\ frame m m' /\ tree_is m' (pre ++ tl') (length (pre ++ tl'))
  /\ Forall2 (finalized size (ChunkInfo.transaction_id T)) tl tl'.
Proof.
  induction fuel as [|fuel IH]; intros tl m pre k remaining Hsz Hsize Ht Hk Hp Hfl Hrem Hfuel; [lia|].
  cbn [finalize_loop]. destruct (Nat.ltb_spec 0 remaining) as [Hr|Hr].
  2:{ exists m, tl. split; [done|]. split; [done|]. split; [by rewrite <- Hk|].
      assert (uncounted tl = 0)%nat as Hu by lia. clear - Hp Hu. induction tl as [|g tl IH]; [done|].
      apply Forall_cons_1 in Hp as [Hg Hp]. unfold uncounted in Hu. simpl in Hu. constructor; [|apply IH; [done|unfold uncounted; lia]].
      eapply finalized_refl; [done|]. destruct Hg as (_ & Hg & _). lia. }
  destruct tl as [|g tl]; [unfold uncounted in Hrem; simpl in Hrem; lia|].
  apply Forall_cons_1 in Hp as [Hg Hp]. destruct Hfl as [Hfg Hfl].
  rewrite (ST_bind_Ok _ get m m m) by done.
  rewrite (ST_bind_Ok _ (deref (Some (length pre))) m m (length pre)) by done.
  assert ((pre ++ g :: tl) !! length pre = Some g) as Hlook
    by (rewrite lookup_app_r by lia; by replace (length pre - length pre)%nat with 0%nat by lia).
  assert (length pre < k)%nat as Hik by (rewrite Hk, length_app; simpl; lia).
  destruct (read_group m _ _ (length pre) g Ht Hlook Hik) as (m1 & E1 & F1 & T1).
  rewrite (ST_bind_Ok _ _ _ _ _ E1). pose proof Hg as (_ & Hgc & _).
  assert (Nat.min remaining (row_group_size m - RowGroup.count g) = length (group_rows g) - RowGroup.count g)%nat as Hn.
  { rewrite Hsz, Hrem. unfold uncounted. simpl. destruct tl as [|g2 tl]; [simpl; lia|].
    rewrite Hfg by done. lia. }
  rewrite Hn, Hsz.
  destruct (finalize_group size n0 T g (length (group_rows g) - RowGroup.count g) Hg eq_refl) as [HE Hfin].
  { destruct (decide (0 < length (group_rows g) - RowGroup.count g)%nat); [by left|right].
    destruct tl as [|g2 tl]; [exfalso; unfold uncounted in Hrem; simpl in Hrem; lia|].
    specialize (Hfg ltac:(done)). split; [apply Hsize|]. split; [lia|apply Hsize]. }
  destruct (on_row_group_spec m1 _ _ _ g (RowGroup.AppendVersionInfo size T (length (group_rows g) - RowGroup.count g)) T1 Hlook Hik)
    as (m2 & E2 & F2 & T2); [by destruct Hfin|].
  rewrite HE in E2. rewrite (ST_bind_Ok _ _ _ _ _ E2).
  set (g' := (RowGroup.AppendVersionInfo size T _ g).1) in *.
  assert (<[length pre := g']> (pre ++ g :: tl) = (pre ++ [g']) ++ tl) as El.
  { rewrite insert_app_r_alt by lia. replace (length pre - length pre)%nat with 0%nat by lia. simpl. by rewrite <- app_assoc. }
  rewrite El in T2.
  destruct (table_GetNextSegment_spec m2 _ _ (length pre) T2 Hik) as (m3 & k3 & E3 & F3 & T3 & Hk3 & _).
  rewrite (ST_bind_Ok _ _ _ _ _ E3).
  assert ((if (S (length pre) <? length ((pre ++ [g']) ++ tl))%nat then Some (S (length pre)) else None)
          = match tl with [] => None | _ => Some (length (pre ++ [g'])) end) as ->.
  { rewrite !length_app. simpl. destruct tl as [|g2 tl]; simpl.
    - destruct (Nat.ltb_spec (S (length pre)) (length pre + 1 + 0)); [lia|done].
    - destruct (Nat.ltb_spec (S (length pre)) (length pre + 1 + S (length tl))); [f_equal; lia|lia]. }
  pose proof F1 as (A1 & _). pose proof F2 as (B1 & _). pose proof F3 as (C1 & _).
  destruct (IH tl m3 (pre ++ [g']) k3 (remaining - (length (group_rows g) - RowGroup.count g))%nat)
    as (m4 & tl' & E4 & F4 & T4 & Hall); try done.
  - congruence.
  - apply Nat.le_antisymm; [by eapply tree_is_le|]. rewrite Hk in Hk3. rewrite !length_app in *. simpl in *. lia.
  - rewrite Hrem. unfold uncounted. simpl. lia.
  - simpl in Hfuel. lia.
  - exists m4, (g' :: tl'). split; [done|]. split; [by eapply frame_trans, frame_trans, frame_trans|].
    split; [by rewrite <- app_assoc in T4|]. by constructor.
Qed.

Lemma list_ids_cons g l row s n :
  RowGroup.start g = s -> RowGroup.count g = n ->
  list_ids (g :: l) row = if decide (s <= row < s + n)%nat then RowGroup.ids g (row - s) else list_ids l row.
Proof. intros <- <-. cbn [list_ids]. unfold SegmentTree.contains. do 2 case_decide; done. Qed.

(** The ids after giving all new rows their version information. *)
Lemma finalized_ids size n0 tid s tl tl' row :
  contiguous s tl -> Forall (partial size n0) tl -> Forall2 (finalized size tid) tl tl' ->
  list_ids tl' row = if decide (Nat.max s n0 <= row < s + length (list_rows tl))%nat then (tid, NOT_DELETED_ID)
                     else list_ids tl row.
Proof.
  intros Hc Hp Hall. revert s Hc Hp. induction Hall as [|g g' tl tl' Hf Hall IH]; intros s Hc Hp.
  { rewrite decide_False by (simpl; lia). done. }
  destruct Hc as [Hs Hc]. apply Forall_cons_1 in Hp as [(Hok & Hcnt & Hmax) Hp].
  destruct Hf as (F1 & F2 & [_ F3] & F4). rewrite list_rows_cons, length_app.
  change (contents (RowGroup.columns g')) with (group_rows g') in F3. rewrite F2 in F3. rewrite Hs in *.
  rewrite (list_ids_cons g' tl' row s (length (group_rows g))) by done.
  rewrite (list_ids_cons g tl row s (RowGroup.count g)) by done.
  specialize (IH _ Hc Hp). destruct (decide (s <= row < s + length (group_rows g))%nat) as [Hin|Hout].
  - rewrite F4. destruct (decide (Nat.max s n0 <= row)%nat) as [Hnew|Hold].
    + by rewrite !decide_True by lia.
    + rewrite !(decide_False (P := _ <= _ < _)%nat) by lia. by rewrite decide_True by lia.
  - rewrite IH. rewrite (decide_False (P := (s <= row < s + RowGroup.count g)%nat)) by lia.
    destruct (decide (Nat.max (s + length (group_rows g)) n0 <= row
                      < s + length (group_rows g) + length (list_rows tl))%nat) as [H1|H1].
    + by rewrite decide_True by lia.
    + by rewrite decide_False by lia.
Qed.

Lemma uncounted_rows size n0 s tl :
  contiguous s tl -> Forall (partial size n0) tl ->
  uncounted tl = (s + length (list_rows tl) - Nat.max s n0)%nat.
Proof.
  revert s. induction tl as [|g tl IH]; intros s Hc Hp; [unfold uncounted; simpl; lia|].
  destruct Hc as [Hs Hc]. apply Forall_cons_1 in Hp as [(_ & Hcnt & Hmax) Hp].
  specialize (IH _ Hc Hp). rewrite list_rows_cons, length_app. unfold uncounted in *. cbn [map]. simpl. lia.
Qed.

Lemma filled_snoc size mid g : Forall (fun g => length (group_rows g) = size) mid -> filled size (mid ++ [g]).
Proof. intros Hm. induction Hm as [|g' mid Hg' Hm IH]; simpl; [done|]. by split. Qed.

Lemma finalized_list size tid s tl tl' :
  Forall2 (finalized size tid) tl tl' -> contiguous s tl ->
  contiguous s tl' /\ Forall (full_group size) tl' /\ list_rows tl' = list_rows tl.
Proof.
  intros Hall. revert s. induction Hall as [|g g' tl tl' (F1 & F2 & F3 & _) Hall IH]; intros s Hc; [done|].
  destruct Hc as [Hs Hc]. destruct (IH _ Hc) as (I1 & I2 & I3). rewrite !list_rows_cons, I3, F2.
  split; [|split; [by constructor|done]]. cbn [contiguous]. by rewrite F1, F2.
Qed.

(** The whole append: the rows are added at the end, with the transaction's id as insert id. *)
Lemma append_spec T chunks m :
  inv m ->
  exists m' st, append T chunks m = (m', Ok st)
  /\ inv m' /\ loaded m' /\ rows m' = rows m ++ mjoin chunks
  /\ row_start m' = row_start m /\ row_group_size m' = row_group_size m
  /\ append_row_start st = total_rows m
  /\ (length (segments (row_groups m')) <= length (segments (row_groups m)) + total_rows m + length (mjoin chunks) + 1)%nat
  /\ forall row, row_ids m' row
     = if decide (row_start m + total_rows m <= row < row_start m + total_rows m + length (mjoin chunks))%nat
       then (ChunkInfo.transaction_id T, NOT_DELETED_ID) else row_ids m row.
Proof.
  intros Hinv. pose proof Hinv as [_ _ _ Htot [Hs0 Hmod]].
  destruct (InitializeAppend_spec m Hinv) as (m1 & st1 & pre & g1 & E1 & I1 & I2 & I3 & I4 & Ha1 & Hpre).
  unfold append. rewrite (ST_bind_Ok _ _ _ _ _ E1).
  destruct (append_chunks_spec _ _ _ _ chunks m1 st1 [] pre [] g1 Hs0 Ha1)
    as (m2 & st2 & mid & g2 & E2 & J1 & J2 & J3 & J4 & Ha2).
  rewrite (ST_bind_Ok _ _ _ _ _ E2). unfold FinalizeAppend. rewrite (ST_bind_Ok _ get m2 m2 m2) by done.
  destruct Ha2 as [A1 A2 A3 A4 A5 A6 A7 A8 A9 _ _ A12]. rewrite app_nil_l in A7. rewrite I4 in J4. simpl in J4.
  apply contiguous_app in A6 as Hc. destruct Hc as [Hc1 Hc2].
  assert (row_start m2 = row_start m) as Hrs by congruence.
  assert (Forall (partial (row_group_size m) (row_start m + total_rows m)) (mid ++ [g2])) as Hp.
  { apply Forall_app. split; [|by apply Forall_singleton]. eapply Forall_impl; [exact A4|]. naive_solver. }
  pose proof (uncounted_rows _ _ _ _ Hc2 Hp) as Hu.
  pose proof (f_equal length A7) as Hlen. rewrite list_rows_app, !length_app, <- Htot in Hlen.
  destruct (finalize_loop_spec (S (length (segments (row_groups m2)))) (row_group_size m) (row_start m + total_rows m) T
              (mid ++ [g2]) m2 pre _ (total_append_count st2) A1 (conj Hs0 Hmod) A2 eq_refl Hp)
    as (m3 & tl' & E3 & (F1 & F2 & F3 & F4) & T3 & Hall).
  { apply filled_snoc. eapply Forall_impl; [exact A4|]. naive_solver. }
  { lia. }
  { destruct A2 as (_ & -> & _). rewrite !length_app. lia. }
  assert (start_row_group st2 = match mid ++ [g2] with [] => None | _ => Some (length pre) end) as Est.
  { rewrite A9. by destruct mid. }
  rewrite Est, (ST_bind_Ok _ _ _ _ _ E3).
  destruct (finalized_list _ _ _ _ _ Hall Hc2) as (G1 & G2 & G3).
  eexists _, _. unfold modify, mbind, ST_bind, mret, ST_ret. split; [done|].
  destruct T3 as (W & Sg & K). simpl.
  assert (rows m3 = rows m ++ mjoin chunks) as Hrows by (unfold rows; rewrite Sg, list_rows_app, G3, <- list_rows_app; exact A7).
  split; [|split; [|split; [exact Hrows|split; [by rewrite <- Hrs|split; [by rewrite <- A1|split; [by rewrite J3, I3|split]]]]]].
  - split; simpl; [done| | | |by rewrite F1, A1].
    + rewrite Sg, F3. by apply contiguous_app.
    + rewrite Sg, F1, A1. by apply Forall_app.
    + change (total_rows m3 + total_append_count st2 = length (rows m3))%nat.
      rewrite Hrows, length_app, <- Htot, J4. lia.
  - unfold loaded. simpl. by rewrite Sg, K.
  - rewrite Sg. apply Forall2_length in Hall. rewrite !length_app in *. simpl in Hall.
    assert (length mid <= length (list_rows mid))%nat as Hmid; [|rewrite list_rows_app, length_app in Hlen; simpl; lia].
    clear - A4 Hs0. induction A4 as [|x mid [_ Hx] A4 IH]; [done|]. rewrite list_rows_cons, length_app. simpl. lia.
  - intros row. unfold row_ids at 1. simpl. rewrite Sg, list_ids_app, <- A8, list_ids_app.
    pose proof (not_covered _ pre row Hc1 (full_counted _ _ A3)) as Hnc.
    rewrite (finalized_ids _ _ _ _ _ _ row Hc2 Hp Hall).
    destruct (decide (Exists (fun g => SegmentTree.contains g row) pre)) as [Hd|Hd].
    + rewrite decide_False; [done|]. intros Hr. apply Hnc; [|done]. right. lia.
    + repeat case_decide; done || lia.
Qed.

(** *** Ranges of rows *)

(** The part of the rows [A, E) in a row group. *)
Definition clip_start (A : nat) g : nat := (Nat.max A (RowGroup.start g) - RowGroup.start g)%nat.
Definition clip_count (A E : nat) g : nat :=
  (Nat.min (RowGroup.start g + RowGroup.count g) E - Nat.max A (RowGroup.start g))%nat.

Lemma row_range_loop_spec (f : nat -> nat -> ST (RowGroup.t C) unit)
    (Eff : RowGroup.t C -> nat -> nat -> RowGroup.t C -> Prop) (A E : nat) fuel : forall tl g m pre k s remaining,
  tree_is m (pre ++ g :: tl) k -> (length pre < k)%nat -> contiguous s (g :: tl) ->
  Forall (fun g => length (group_rows g) = RowGroup.count g) (g :: tl) ->
  (forall x, x ∈ g :: tl -> (f (clip_start A x) (clip_count A E x) x).2 = Ok tt
     /\ RowGroup.start (f (clip_start A x) (clip_count A E x) x).1 = RowGroup.start x
     /\ Eff x (clip_start A x) (clip_count A E x) (f (clip_start A x) (clip_count A E x) x).1) ->
  (forall x a, x ∈ g :: tl -> Eff x a 0%nat x) ->
  (A <= RowGroup.start g + RowGroup.count g /\ Nat.max A s + remaining = E /\ s <= E /\ E <= s + length (list_rows (g :: tl)))%nat ->
  (length tl < fuel)%nat ->
  exists m' l' k', row_range_loop fuel f (length pre) (Nat.max A s) remaining m = (m', Ok tt)
  /\ frame m m' /\ tree_is m' (pre ++ l') k' /\ (k <= k')%nat
  /\ Forall2 (fun g g' => Eff g (clip_start A g) (clip_count A E g) g') (g :: tl) l'.
Proof.
  induction fuel as [|fuel IH]; intros tl g m pre k s remaining Ht Hk Hc Hl Hf Hrefl (HA & HE & HsE & Hend) Hfuel; [lia|].
  cbn [row_range_loop].
  assert ((pre ++ g :: tl) !! length pre = Some g) as Hlook
    by (rewrite lookup_app_r by lia; by replace (length pre - length pre)%nat with 0%nat by lia).
  destruct (read_group m _ _ (length pre) g Ht Hlook Hk) as (m1 & E1 & F1 & T1).
  rewrite (ST_bind_Ok _ _ _ _ _ E1).
  destruct Hc as [Hs Hc]. apply Forall_cons_1 in Hl as [Hg Hl]. rewrite list_rows_cons, length_app in Hend.
  assert (Nat.max A s - RowGroup.start g = clip_start A g)%nat as Ecs by (unfold clip_start; by rewrite Hs).
  assert (Nat.min (RowGroup.count g - clip_start A g) remaining = clip_count A E g)%nat as Ecc
    by (unfold clip_start, clip_count in *; lia).
  rewrite Ecs, Ecc. destruct (Hf g) as (HfO & HfS & HfE); [apply elem_of_cons; by left|].
  destruct (on_row_group_spec m1 _ _ _ g (f (clip_start A g) (clip_count A E g)) T1 Hlook Hk HfS) as (m2 & E2 & F2 & T2).
  rewrite HfO in E2. rewrite (ST_bind_Ok _ _ _ _ _ E2). set (g' := (f _ _ g).1) in *.
  assert (<[length pre := g']> (pre ++ g :: tl) = (pre ++ [g']) ++ tl) as El.
  { rewrite insert_app_r_alt by lia. replace (length pre - length pre)%nat with 0%nat by lia. simpl. by rewrite <- app_assoc. }
  rewrite El in T2. destruct (Nat.eqb_spec (remaining - clip_count A E g) 0) as [Hz|Hnz].
  - exists m2, (g' :: tl), k. split; [done|]. split; [by eapply frame_trans|].
    split; [by rewrite <- app_assoc in T2|]. split; [done|]. constructor; [done|].
    apply Forall2_same_length_lookup_2; [done|]. intros i x y Hx Hy. rewrite Hx in Hy. injection Hy as <-.
    apply list_elem_of_lookup_2 in Hx. destruct (contiguous_bounds _ _ _ Hc Hx) as [Hb _].
    assert (clip_count A E x = 0%nat) as -> by (unfold clip_count in *; lia).
    apply Hrefl. apply elem_of_cons. by right.
  - destruct tl as [|g2 tl].
    { exfalso. simpl in Hend. unfold clip_count in *. lia. }
    destruct (table_GetNextSegment_spec m2 _ _ (length pre) T2 Hk) as (m3 & k3 & E3 & F3 & T3 & Hk3 & Hk3').
    rewrite (ST_bind_Ok _ _ _ _ _ E3).
    assert (S (length pre) < length ((pre ++ [g']) ++ g2 :: tl))%nat as Hlt by (rewrite !length_app; simpl; lia).
    rewrite (proj2 (Nat.ltb_lt _ _) Hlt).
    rewrite (ST_bind_Ok _ (deref (Some (S (length pre)))) m3 m3 (S (length pre))) by done.
    assert (S (length pre) = length (pre ++ [g'])) as Epre by (rewrite length_app; simpl; lia).
    pose proof Hc as [Hs2 _].
    assert (Nat.max A s + clip_count A E g = Nat.max A (s + length (group_rows g)))%nat as Ecur
      by (unfold clip_count in *; lia).
    rewrite Ecur, Epre.
    destruct (IH tl g2 m3 (pre ++ [g']) k3 (s + length (group_rows g))%nat (remaining - clip_count A E g)%nat T3)
      as (m4 & l' & k4 & E4 & F4 & T4 & Hk4 & Hall); try done.
    + rewrite <- Epre. by apply Hk3'.
    + intros x Hx. apply Hf. apply elem_of_cons. by right.
    + intros x a Hx. apply Hrefl. apply elem_of_cons. by right.
    + unfold clip_count in *. lia.
    + simpl in Hfuel. lia.
    + exists m4, (g' :: l'), k4. split; [done|]. split; [by eapply frame_trans, frame_trans, frame_trans|].
      split; [by rewrite <- app_assoc in T4|]. split; [lia|]. by constructor.
Qed.

Lemma full_length size l :
  Forall (full_group size) l -> Forall (fun g => length (group_rows g) = RowGroup.count g) l.
Proof. intros Hl. eapply Forall_impl; [exact Hl|]. by intros g [_ Hg]. Qed.

Lemma covered s l row :
  contiguous s l -> Forall (fun g => length (group_rows g) = RowGroup.count g) l ->
  (s <= row < s + length (list_rows l))%nat -> exists i g, l !! i = Some g /\ SegmentTree.contains g row.
Proof.
  revert s. induction l as [|g l IH]; intros s Hc Hl Hrow; [simpl in Hrow; lia|].
  destruct Hc as [Hs Hc]. apply Forall_cons_1 in Hl as [Hg Hl]. rewrite list_rows_cons, length_app in Hrow.
  destruct (decide (row < s + length (group_rows g))%nat) as [Hlt|Hge].
  - exists 0%nat, g. split; [done|]. split; cbn [RowGroup.segment SegmentTree.seg_start SegmentTree.seg_count]; lia.
  - destruct (IH _ Hc Hl) as (i & g' & Hi & Hg'); [lia|]. by exists (S i), g'.
Qed.

Abbreviation stamped := (RowGroup.stamped (column_start := column_start)).

(** What holds of every row group after an operation on the rows [A, E). *)
Definition touched (Eff : RowGroup.t C -> nat -> nat -> RowGroup.t C -> Prop) (A E : nat) g g' : Prop :=
  Eff g (clip_start A g) (clip_count A E g) g'.

Lemma on_row_range_spec (f : nat -> nat -> ST (RowGroup.t C) unit)
    (Eff : RowGroup.t C -> nat -> nat -> RowGroup.t C -> Prop) (A count : nat) m :
  inv m -> small (segments (row_groups m)) ->
  (row_start m <= A /\ 0 < count /\ A + count <= row_start m + total_rows m)%nat ->
  (forall x, x ∈ segments (row_groups m) -> (A <= RowGroup.start x + RowGroup.count x)%nat ->
     (f (clip_start A x) (clip_count A (A + count) x) x).2 = Ok tt
     /\ RowGroup.start (f (clip_start A x) (clip_count A (A + count) x) x).1 = RowGroup.start x
     /\ Eff x (clip_start A x) (clip_count A (A + count) x) (f (clip_start A x) (clip_count A (A + count) x) x).1) ->
  (forall x a, x ∈ segments (row_groups m) -> Eff x a 0%nat x) ->
  exists m', on_row_range f A count m = (m', Ok tt) /\ frame m m' /\ SegmentTree.wf true (row_groups m')
  /\ (length (SegmentTree.nodes (row_groups m)) <= length (SegmentTree.nodes (row_groups m')))%nat
  /\ Forall2 (touched Eff A (A + count)) (segments (row_groups m)) (segments (row_groups m')).
Proof.
  intros [Hwf Hc Hf Htot _] Hsm Hr Hstep Hrefl. set (l := segments (row_groups m)) in *.
  pose proof (full_length _ _ Hf) as Hl. unfold rows in Htot. fold l in Htot.
  destruct (covered _ l A Hc Hl) as (i & g & Hi & Hg); [lia|].
  pose proof (contiguous_ordered _ _ Hc (full_counted _ _ Hf)) as Hord.
  destruct (GetSegment_spec m l _ A i (conj Hwf (conj eq_refl eq_refl)) Hord Hsm) as (m1 & k1 & E1 & (F1 & F2 & F3 & F4) & T1 & Hk1 & Hik).
  { destruct l as [|x0 l0]; [done|]. destruct Hc as [Hc _]. intros x [= <-]. lia. }
  { by apply (SegmentTree.find_segment_Some l A i g). }
  unfold on_row_range. rewrite (ST_bind_Ok _ _ _ _ _ E1), (ST_bind_Ok _ get m1 m1 m1) by done.
  apply list_elem_of_split_length in Hi as (pre & tl & El & ->). rewrite El in *.
  apply contiguous_app in Hc as Hc'. destruct Hc' as [Hc1 Hc2]. pose proof Hc2 as [Hs _].
  destruct Hg as [Hg1 Hg2]. cbn [RowGroup.segment SegmentTree.seg_start SegmentTree.seg_count] in Hg1, Hg2.
  rewrite list_rows_app, length_app in Htot.
  destruct (row_range_loop_spec f Eff A (A + count) (length (segments (row_groups m1))) tl g m1 pre k1 _ count T1 Hik Hc2)
    as (m2 & l' & k2 & E2 & F5 & T2 & Hk2 & Hall).
  - by apply Forall_app in Hl as [_ Hl].
  - intros x Hx. apply Hstep; [apply elem_of_app; by right|].
    apply elem_of_cons in Hx as [->|Hx]; [lia|]. destruct Hc2 as [_ Hc2].
    destruct (contiguous_bounds _ _ _ Hc2 Hx). apply Forall_app in Hl as [_ [Hg _]%Forall_cons_1]. lia.
  - intros x a Hx. apply Hrefl. apply elem_of_app. by right.
  - lia.
  - destruct T1 as (_ & -> & _). rewrite length_app. simpl. lia.
  - exists m2. rewrite Nat.max_l in E2 by lia. split; [done|]. split; [by eapply frame_trans|].
    destruct T2 as (W & -> & ->). split; [done|]. split; [lia|]. apply Forall2_app; [|done].
    apply Forall2_same_length_lookup_2; [done|]. intros j x y Hx Hy. rewrite Hx in Hy. injection Hy as <-.
    apply list_elem_of_lookup_2 in Hx. unfold touched. destruct (contiguous_bounds _ _ _ Hc1 Hx) as [_ Hb].
    apply Forall_app in Hl as [Hl _]. rewrite Forall_forall in Hl. specialize (Hl x Hx).
    replace (clip_count A (A + count) x) with 0%nat by (unfold clip_count; lia).
    apply Hrefl. apply elem_of_app. by left.
Qed.

(** Operations on the version information keep the rows. *)
Lemma same_list size s l l' :
  Forall2 (fun g g' => RowGroup.same g g' /\ ok_group size g') l l' -> contiguous s l -> Forall (full_group size) l ->
  contiguous s l' /\ Forall (full_group size) l' /\ list_rows l' = list_rows l.
Proof.
  intros Hall. revert s. induction Hall as [|g g' l l' [(S1 & S2 & S3) Hok] Hall IH]; intros s Hc Hf; [done|].
  destruct Hc as [Hs Hc]. apply Forall_cons_1 in Hf as [[_ Hg] Hf]. destruct (IH _ Hc Hf) as (I1 & I2 & I3).
  assert (group_rows g' = group_rows g) as Hr by (unfold group_rows; by rewrite S3).
  rewrite !list_rows_cons, I3, Hr. split; [|split; [constructor; [split; [done|]|done]|done]].
  - cbn [contiguous]. by rewrite Hr, S1.
  - by rewrite S3, S2.
Qed.

Lemma same_inv m m' :
  inv m -> frame m m' -> SegmentTree.wf true (row_groups m') ->
  Forall2 (fun g g' => RowGroup.same g g' /\ ok_group (row_group_size m) g')
    (segments (row_groups m)) (segments (row_groups m')) ->
  inv m' /\ rows m' = rows m.
Proof.
  intros [_ Hc Hf Ht Hs] (F1 & F2 & F3 & _) Hwf Hall. destruct (same_list _ _ _ _ Hall Hc Hf) as (H1 & H2 & H3).
  split; [|done]. split; [done|by rewrite F3|by rewrite F1|by rewrite F2, Ht; unfold rows; rewrite H3|by rewrite F1].
Qed.

(** The ids of the rows of a row group. *)
Lemma list_ids_row s l g r :
  contiguous s l -> Forall (fun g => length (group_rows g) = RowGroup.count g) l ->
  g ∈ l -> (r < RowGroup.count g)%nat -> list_ids l (RowGroup.start g + r) = RowGroup.ids g r.
Proof.
  revert s. induction l as [|g' l IH]; intros s Hc Hl Hin Hr; [by apply not_elem_of_nil in Hin|].
  destruct Hc as [Hs Hc]. apply Forall_cons_1 in Hl as [Hg Hl].
  rewrite (list_ids_cons g' l _ _ _ eq_refl eq_refl). apply elem_of_cons in Hin as [->|Hin].
  - rewrite decide_True by lia. f_equal. lia.
  - destruct (contiguous_bounds _ _ _ Hc Hin). rewrite decide_False by lia. by apply (IH _ Hc Hl Hin).
Qed.

Lemma stamped_list (h : Z * Z -> Z * Z) size s l l' A E row :
  contiguous s l -> Forall (fun g => length (group_rows g) = RowGroup.count g) l ->
  Forall2 (touched (stamped h size) A E) l l' -> (E <= s + length (list_rows l))%nat ->
  (s <= row \/ ~ (A <= row < E))%nat ->
  list_ids l' row = if decide (A <= row < E)%nat then h (list_ids l row) else list_ids l row.
Proof.
  intros Hc Hl Hall. revert s Hc Hl. induction Hall as [|g g' l l' Hg Hall IH]; intros s Hc Hl HE Hrow.
  { rewrite decide_False; [done|]. simpl in HE. lia. }
  destruct Hc as [Hs Hc]. apply Forall_cons_1 in Hl as [Hlen Hl]. rewrite list_rows_cons, length_app in HE.
  destruct Hg as ((S1 & S2 & S3) & _ & Hids).
  rewrite (list_ids_cons g' l' row s (RowGroup.count g)), (list_ids_cons g l row s (RowGroup.count g)) by congruence.
  destruct (decide (s <= row < s + RowGroup.count g)%nat) as [Hin|Hout].
  - rewrite Hids. unfold clip_start, clip_count. rewrite Hs. do 2 case_decide; done || lia.
  - apply (IH _ Hc Hl); lia.
Qed.

(** Row groups that have been loaded stay loaded, and keep what undo entries rely on. *)
Definition keeps m m' : Prop :=
  (loaded m -> loaded m')
  /\ Forall2 (fun g g' => RowGroup.keeps g g' /\ RowGroup.count g' = RowGroup.count g)
       (segments (row_groups m)) (segments (row_groups m')).

Lemma loaded_le m m' :
  SegmentTree.wf true (row_groups m') -> length (segments (row_groups m')) = length (segments (row_groups m)) ->
  (length (SegmentTree.nodes (row_groups m)) <= length (SegmentTree.nodes (row_groups m')))%nat -> loaded m -> loaded m'.
Proof.
  unfold loaded. intros Hwf Hl Hle Hm. apply Nat.le_antisymm; [|lia].
  exact (tree_is_le m' _ _ (conj Hwf (conj eq_refl eq_refl))).
Qed.

(** Committing an append gives all its rows the commit id. *)
Lemma table_CommitAppend_spec commit_id tid A n m :
  inv m -> small (segments (row_groups m)) ->
  (row_start m <= A /\ 0 < n /\ A + n <= row_start m + total_rows m)%nat -> tid <> 0 ->
  (forall row, (row_start m <= row < row_start m + total_rows m)%nat ->
     (row_ids m row).1 = tid <-> (A <= row < A + n)%nat) ->
  exists m', CommitAppend commit_id A n m = (m', Ok tt) /\ inv m' /\ frame m m'
  /\ length (segments (row_groups m')) = length (segments (row_groups m)) /\ rows m' = rows m
  /\ keeps m m'
  /\ forall row, row_ids m' row = if decide (A <= row < A + n)%nat then (commit_id, (row_ids m row).2)
                                 else row_ids m row.
Proof.
  intros Hinv Hsm Hr Htid Hrows. pose proof Hinv as [Hwf Hc Hf Htot Hsize]. pose proof (full_length _ _ Hf) as Hl.
  assert (length (list_rows (segments (row_groups m))) = total_rows m) as Hlen by (by rewrite Htot).
  unfold CommitAppend.
  destruct (on_row_range_spec (RowGroup.CommitAppend commit_id)
              (fun g a n g' => stamped (fun p => (commit_id, p.2)) (row_group_size m) g a n g' /\ RowGroup.keeps g g')
              A n m Hinv Hsm Hr)
    as (m' & E & Hfr & Hwf' & Hnodes & Hall).
  - intros x Hx HAx. rewrite Forall_forall in Hf, Hl. destruct (Hf x Hx) as [Hok _]. specialize (Hl x Hx).
    destruct (contiguous_bounds _ _ _ Hc Hx) as [Hb1 Hb2].
    destruct (RowGroup.group_CommitAppend_spec (row_group_size m) commit_id tid (clip_start A x) (clip_count A (A + n) x) x Hok)
      as [H1 H2]; [unfold clip_start, clip_count; lia|done| |].
    + intros r Hrx. rewrite <- (list_ids_row _ _ x r Hc (full_length _ _ (proj2 (Forall_forall _ _) Hf)) Hx Hrx).
      change (list_ids (segments (row_groups m))) with (row_ids m). rewrite Hrows by lia.
      unfold clip_start, clip_count. lia.
    + split; [done|]. split; [by destruct H2 as ((? & _) & _)|]. split; [done|]. apply RowGroup.group_CommitAppend_keeps.
  - intros x a Hx. rewrite Forall_forall in Hf. split; [|apply RowGroup.keeps_refl].
    apply RowGroup.stamped_refl. by destruct (Hf x Hx).
  - assert (Forall2 (touched (stamped (fun p => (commit_id, p.2)) (row_group_size m)) A (A + n))
              (segments (row_groups m)) (segments (row_groups m'))) as Hst.
    { eapply Forall2_impl; [exact Hall|]. by intros x y [H _]. }
    exists m'. split; [done|]. destruct (same_inv m m' Hinv Hfr Hwf') as [Hinv' Hrows'].
    { eapply Forall2_impl; [exact Hst|]. intros x y (H1 & H2 & _). done. }
    split; [done|]. split; [done|]. split; [by rewrite (Forall2_length _ _ _ Hall)|]. split; [done|].
    split; [split; [apply loaded_le; [done|by rewrite (Forall2_length _ _ _ Hall)|done]|]|].
    { eapply Forall2_impl; [exact Hall|]. by intros x y [((_ & H2 & _) & _) H]. }
    intros row. unfold row_ids.
    rewrite (stamped_list (fun p => (commit_id, p.2)) (row_group_size m) _ _ _ A (A + n) row Hc Hl Hst) by lia. done.
Qed.

(** *** Reverting an append *)

Lemma GetSegmentByIndex_loaded m i :
  (i < length (SegmentTree.nodes (row_groups m)))%nat ->
  GetSegmentByIndex i m = (set_tree m (row_groups m), Ok (Some i)).
Proof.
  intros Hi. unfold GetSegmentByIndex, on_tree, SegmentTree.GetSegmentByIndex, SegmentTree.load_loop.
  destruct (Z.ltb_spec (Z.of_nat i) 0); [lia|]. rewrite Nat2Z.id. cbn [SegmentTree.load_while].
  assert ((length (SegmentTree.nodes (row_groups m)) <=? i)%nat = false) as -> by (apply Nat.leb_gt; lia).
  cbn beta. assert ((length (SegmentTree.nodes (row_groups m)) <=? i)%nat = false) as -> by (apply Nat.leb_gt; lia).
  done.
Qed.

(** The row group at which the code cuts off the rows from [A] on. *)
Lemma revert_point s l A :
  contiguous s l -> Forall (fun g => length (group_rows g) = RowGroup.count g) l -> l <> [] ->
  (s <= A <= s + length (list_rows l))%nat ->
  exists pre g tl, l = pre ++ g :: tl
  /\ default (length l - 1)%nat (SegmentTree.find_segment l A) = length pre
  /\ (RowGroup.start g <= A <= RowGroup.start g + RowGroup.count g)%nat
  /\ RowGroup.start g = (s + length (list_rows pre))%nat.
Proof.
  intros Hc Hl Hne HA. pose proof Hl as Hcl. assert (counted l) as Hcnt.
  { eapply Forall_impl; [exact Hl|]. intros x Hx. simpl in Hx. lia. }
  destruct (decide (A < s + length (list_rows l))%nat) as [Hlt|Hge].
  - destruct (covered _ l A Hc Hl) as (i & g & Hi & Hg); [lia|].
    rewrite (SegmentTree.find_segment_Some l A i g (contiguous_ordered _ _ Hc Hcnt) Hi Hg).
    apply list_elem_of_split_length in Hi as (pre & tl & -> & ->). exists pre, g, tl. split; [done|]. split; [done|].
    apply contiguous_app in Hc as [_ [Hs _]]. destruct Hg as [Hg1 Hg2].
    cbn [RowGroup.segment SegmentTree.seg_start SegmentTree.seg_count] in *. split; [lia|done].
  - rewrite SegmentTree.find_segment_None.
    + destruct (exists_last Hne) as (pre & g & ->). exists pre, g, []. split; [done|]. rewrite length_app. simpl.
      split; [lia|]. apply contiguous_app in Hc as [_ [Hs _]]. rewrite list_rows_app, length_app, list_rows_one in Hge, HA.
      apply Forall_app in Hl as [_ [Hg _]%Forall_cons_1]. split; [lia|done].
    + intros g Hg Hcg. apply (not_covered s l A Hc Hcnt); [lia|]. apply Exists_exists. by exists g.
Qed.

Lemma erase_tree m l i k :
  tree_is m l k -> (i <= length l)%nat ->
  let m1 := set_tree m (SegmentTree.EraseSegments true (row_groups m) i) in
  length (SegmentTree.nodes (row_groups m1)) = i
  /\ (i = 0%nat -> tree_is m1 [] 0)
  /\ ((0 < i)%nat -> tree_is (set_tree m1 (SegmentTree.update_next (row_groups m1) (pred i) None)) (take i l) i).
Proof.
  intros (Hwf & Hs & Hk) Hi m1.
  destruct (SegmentTree.EraseSegments_spec true (row_groups m) i Hwf) as [H1 H2]; [by rewrite Hs|].
  split; [done|]. rewrite Hs in H2. split; intros H0.
  - subst i. destruct (H2 _ eq_refl) as (W & Sg & K). by rewrite take_0 in Sg.
  - destruct (H2 _ eq_refl) as (W & Sg & K). destruct (Nat.eqb_spec i 0); [lia|]. done.
Qed.

Lemma RevertAppendInternal_tree m l A id pre g tl :
  tree_is m l (length l) -> SegmentTree.ordered l -> small l ->
  (forall x, l !! 0%nat = Some x -> (RowGroup.start x <= A)%nat) ->
  l = pre ++ g :: tl -> default (length l - 1)%nat (SegmentTree.find_segment l A) = length pre ->
  (RowGroup.start g <= A <= RowGroup.start g + RowGroup.count g)%nat ->
  full_group (row_group_size m) g ->
  (forall r, (r < RowGroup.count g)%nat -> (RowGroup.ids g r).1 = id <-> (A <= RowGroup.start g + r)%nat) ->
  (forall r, (r < RowGroup.count g)%nat -> (A <= RowGroup.start g + r)%nat -> (RowGroup.ids g r).2 = NOT_DELETED_ID) ->
  exists m' l', RevertAppendInternal A m = (m', Ok tt)
  /\ total_rows m' = A /\ row_start m' = row_start m /\ row_group_size m' = row_group_size m
  /\ tree_is m' (pre ++ l') (length (pre ++ l'))
  /\ if (RowGroup.start g =? A)%nat then l' = []
     else exists g', l' = [g'] /\ full_group (row_group_size m) g' /\ RowGroup.start g' = RowGroup.start g
          /\ RowGroup.count g' = (A - RowGroup.start g)%nat
          /\ group_rows g' = take (A - RowGroup.start g) (group_rows g)
          /\ RowGroup.keeps g g'
          /\ forall r, (r < A - RowGroup.start g)%nat -> RowGroup.ids g' r = RowGroup.ids g r.
Proof.
  intros Ht Hord Hsm H0 El Hix HA Hf Hid Hnd. unfold RevertAppendInternal.
  rewrite (ST_bind_Ok _ (modify (set_total A)) m (set_total A m) tt) by done.
  set (m0 := set_total A m). assert (tree_is m0 l (length l)) as Ht0 by done.
  rewrite (ST_bind_Ok _ get m0 m0 m0) by done.
  assert (SegmentTree.GetSegmentCount (row_groups m0) = length l) as Hcount by (by destruct Ht0 as (_ & _ & Hk)).
  rewrite Hcount. destruct (Nat.eqb_spec (length l) 0) as [Hz|_]; [rewrite El, length_app in Hz; simpl in Hz; lia|].
  destruct (table_TryGetSegmentIndex_spec m0 l _ A Ht0 Hord Hsm H0) as (m1 & k1 & E1 & F1 & T1 & Hk1 & _).
  assert (k1 = length l) as -> by (apply Nat.le_antisymm; [by eapply tree_is_le|done]).
  rewrite (ST_bind_Ok _ _ _ _ _ E1), Hix.
  assert (length pre < length l)%nat as Hlt by (rewrite El, length_app; simpl; lia).
  destruct (table_GetSegmentByIndex_spec m1 l _ (length pre) T1 Hlt) as (m2 & k2 & E2 & F2 & T2 & Hk2 & _).
  assert (k2 = length l) as -> by (apply Nat.le_antisymm; [by eapply tree_is_le|done]).
  rewrite (ST_bind_Ok _ _ _ _ _ E2), (ST_bind_Ok _ (deref (Some (length pre))) m2 m2 (length pre)) by done.
  assert (l !! length pre = Some g) as Hlook
    by (rewrite El, lookup_app_r by lia; by replace (length pre - length pre)%nat with 0%nat by lia).
  destruct (read_group m2 l _ (length pre) g T2 Hlook Hlt) as (m3 & E3 & F3 & T3).
  rewrite (ST_bind_Ok _ _ _ _ _ E3). destruct (frame_trans _ _ _ (frame_trans _ _ _ F1 F2) F3) as (Z1 & Z2 & Z3 & _).
  change (row_group_size m0) with (row_group_size m) in Z1. change (total_rows m0) with A in Z2.
  change (row_start m0) with (row_start m) in Z3.
  destruct (Nat.eqb_spec (RowGroup.start g) A) as [Heq|Hne].
  - destruct (erase_tree m3 l (length pre) _ T3 (Nat.lt_le_incl _ _ Hlt)) as (G1 & G2 & G3).
    set (m4 := set_tree m3 _) in *. rewrite (ST_bind_Ok _ (modify _) m3 m4 tt) by done.
    rewrite El, take_app_length in G3.
    destruct (Nat.ltb_spec 0 (length pre)) as [Hp|Hp].
    + rewrite (ST_bind_Ok _ _ _ _ _ (GetSegmentByIndex_loaded m4 (length pre - 1) ltac:(lia))).
      set (m5 := set_tree m4 (row_groups m4)).
      rewrite (ST_bind_Ok _ (deref (Some (length pre - 1)%nat)) m5 m5 (length pre - 1)%nat) by done.
      eexists _, []. split; [done|]. split; [done|]. split; [done|]. split; [done|]. split; [|done].
      rewrite app_nil_r. replace (length pre - 1)%nat with (pred (length pre)) by lia. by apply G3.
    + exists m4, []. split; [done|]. split; [done|]. split; [done|]. split; [done|]. split; [|done].
      rewrite app_nil_r. destruct pre; [|simpl in Hp; lia]. by apply G2.
  - assert (length pre + 1 <= length l)%nat as Hle by lia.
    destruct (erase_tree m3 l (length pre + 1) _ T3 Hle) as (_ & _ & G3).
    set (m4 := set_tree m3 _) in *. rewrite (ST_bind_Ok _ (modify _) m3 m4 tt) by done.
    replace (pred (length pre + 1)) with (length pre) in G3 by lia.
    assert (take (length pre + 1) l = pre ++ [g]) as Etake.
    { rewrite El, cons_middle, app_assoc. replace (length pre + 1)%nat with (length (pre ++ [g])) by (rewrite length_app; simpl; lia).
      apply take_app_length. }
    rewrite Etake in G3. specialize (G3 ltac:(lia)). set (m5 := set_tree m4 _) in G3.
    rewrite (ST_bind_Ok _ (modify _) m4 m5 tt) by done.
    assert ((pre ++ [g]) !! length pre = Some g) as Hlook5
      by (rewrite lookup_app_r by lia; by replace (length pre - length pre)%nat with 0%nat by lia).
    destruct (RowGroup.group_RevertAppend_spec (row_group_size m) A g (A - RowGroup.start g) id Hf) as (R1 & R2 & R3 & R4 & R5 & R6).
    { lia. } { lia. } { intros r Hr. rewrite Hid by done. lia. } { intros r Hr. apply Hnd; lia. }
    destruct (on_row_group_spec m5 _ _ (length pre) g (RowGroup.RevertAppend A) G3 Hlook5) as (m6 & E6 & (Y1 & Y2 & Y3 & _) & T6);
      [lia|done|].
    rewrite R1 in E6. rewrite insert_app_r_alt in T6 by lia.
    replace (length pre - length pre)%nat with 0%nat in T6 by lia. simpl in T6.
    eexists m6, [_]. split; [exact E6|]. split; [by rewrite Y2|]. split; [by rewrite Y3|]. split; [by rewrite Y1|].
    split; [|eexists; split; [done|]].
    { rewrite length_app. exact T6. }
    do 4 (split; [done|]). split; [|done]. destruct Hf as [Hok _]. by eapply RowGroup.group_RevertAppend_keeps.
Qed.

Lemma full_app size l1 l2 : Forall (full_group size) (l1 ++ l2) -> Forall (full_group size) l1 /\ Forall (full_group size) l2.
Proof. by rewrite Forall_app. Qed.

(** Reverting to row [A] of a table where an append by [id] started: the rows before it stay as
    they are and those from it on are gone. *)
Lemma RevertAppendInternal_spec m A id :
  inv m -> loaded m -> row_start m = 0%nat -> small (segments (row_groups m)) -> (A <= total_rows m)%nat ->
  (forall row, (row < total_rows m)%nat -> (row_ids m row).1 = id <-> (A <= row)%nat) ->
  (forall row, (A <= row < total_rows m)%nat -> (row_ids m row).2 = NOT_DELETED_ID) ->
  exists m', RevertAppendInternal A m = (m', Ok tt) /\ inv m' /\ row_start m' = row_start m
  /\ total_rows m' = A /\ rows m' = take A (rows m) /\ loaded m'
  /\ (length (segments (row_groups m')) <= length (segments (row_groups m)))%nat
  /\ (Forall RowGroup.deletable (segments (row_groups m)) -> Forall RowGroup.deletable (segments (row_groups m')))
  /\ (forall i g, segments (row_groups m) !! i = Some g -> (RowGroup.start g < A)%nat ->
       exists g', segments (row_groups m') !! i = Some g' /\ RowGroup.keeps g g'
         /\ (RowGroup.start g' + RowGroup.count g' = Nat.min (RowGroup.start g + RowGroup.count g) A)%nat)
  /\ forall row, row_ids m' row = if decide (row < A)%nat then row_ids m row else (0, NOT_DELETED_ID).
Proof.
  intros Hinv Hload Hrs Hsm HA Hid Hnd. pose proof Hinv as [Hwf Hc Hf Htot Hsize]. pose proof (full_length _ _ Hf) as Hl.
  unfold rows, row_ids in *. set (l := segments (row_groups m)) in *. rewrite Hrs in Hc.
  destruct (decide (l = [])) as [E|Hne].
  { rewrite E in *. simpl in Htot. assert (A = 0%nat) as -> by lia.
    exists (set_total 0 m). split; [|split; [|split; [done|split; [done|split; [|split; [|split; [|split; [|split]]]]]]]].
    - unfold RevertAppendInternal, mbind, ST_bind, modify, get. simpl. unfold SegmentTree.GetSegmentCount.
      unfold loaded in Hload. fold l in Hload. by rewrite Hload, E.
    - split; simpl; fold l; try done; unfold rows; simpl; fold l; rewrite E; done.
    - simpl. fold l. by rewrite E.
    - unfold loaded in *. simpl. fold l. by rewrite Hload.
    - simpl. fold l. by rewrite E.
    - simpl. fold l. by rewrite E.
    - intros i g. simpl. fold l. by rewrite E.
    - intros row. simpl. fold l. by rewrite E. }
  destruct (revert_point 0 l A Hc Hl Hne) as (pre & g & tl & El & Hix & Hg & Hgs); [lia|].
  assert (g ∈ l) as Hgl by (rewrite El; apply elem_of_app; right; apply elem_of_cons; by left).
  assert (forall r, (r < RowGroup.count g)%nat -> list_ids l (RowGroup.start g + r) = RowGroup.ids g r
            /\ (RowGroup.start g + r < total_rows m)%nat) as Hgr.
  { intros r Hr. split; [by apply (list_ids_row 0)|]. destruct (contiguous_bounds _ _ _ Hc Hgl).
    rewrite Forall_forall in Hl. specialize (Hl g Hgl). simpl in Hl. lia. }
  destruct (RevertAppendInternal_tree m l A id pre g tl) as (m' & l' & E & Z1 & Z2 & Z3 & (W & Sg & Kn) & Hcase); try done.
  { by apply (contiguous_ordered 0 l Hc), (full_counted (row_group_size m)). }
  { intros x Hx. destruct l; [done|]. destruct Hc as [Hc _]. simpl in Hx. injection Hx as ->. lia. }
  { rewrite Forall_forall in Hf. by apply Hf. }
  { intros r Hr. destruct (Hgr r Hr) as [<- ?]. by apply Hid. }
  { intros r Hr HAr. destruct (Hgr r Hr) as [<- ?]. by apply Hnd. }
  rewrite El in Hc, Hf, Hl. apply contiguous_app in Hc as [Hc1 [_ Hctl]]. apply full_app in Hf as [Hf1 Hf2].
  assert (contiguous 0 (pre ++ l') /\ Forall (full_group (row_group_size m)) l'
          /\ list_rows (pre ++ l') = take A (list_rows l)
          /\ forall row, (row < A)%nat -> list_ids (pre ++ l') row = list_ids l row) as (K1 & K2 & K3 & K4).
  { rewrite El, !list_rows_app, list_rows_cons. destruct (Nat.eqb_spec (RowGroup.start g) A) as [Heq|Hneq].
    - subst l'. rewrite app_nil_r. split; [done|]. split; [done|].
      assert (A = length (list_rows pre)) as -> by lia. simpl. rewrite take_app_length. split; [apply app_nil_r|].
      intros row Hrow. rewrite list_ids_app. destruct (covered 0 pre row) as (i & x & Hi & Hx); [done| |lia|].
      { by apply (full_length (row_group_size m)). }
      rewrite decide_True; [done|]. apply Exists_exists. exists x. split; [by eapply list_elem_of_lookup_2|done].
    - destruct Hcase as (g' & -> & Hf' & Hs' & Hc' & Hr' & _ & Hi'). split.
      { apply contiguous_app. split; [done|]. split; [|done]. by rewrite Hs', Hgs. }
      split; [by apply Forall_singleton|]. split.
      { rewrite list_rows_one, Hr'. rewrite take_app_ge by lia. f_equal. rewrite take_app_le; [f_equal; lia|].
        rewrite Forall_forall in Hl. specialize (Hl g). simpl in Hl. rewrite Hl; [lia|]. apply elem_of_app. right. apply elem_of_cons. by left. }
      intros row Hrow. rewrite !list_ids_app. case_decide; [done|].
      destruct (decide (row < RowGroup.start g)%nat) as [Hlow|Hhigh].
      { exfalso. destruct (covered 0 pre row) as (i & x & Hi & Hx); [done|by apply (full_length (row_group_size m))|lia|].
        apply H. apply Exists_exists. exists x. split; [by eapply list_elem_of_lookup_2|done]. }
      rewrite (list_ids_cons g' [] row _ _ Hs' Hc'), (list_ids_cons g tl row _ _ eq_refl eq_refl).
      rewrite !decide_True by lia. apply Hi'. lia. }
  exists m'. split; [done|]. rewrite Sg, K3. split.
  { split; [done| | | |by rewrite Z3].
    - rewrite Z2, Hrs, Sg. done.
    - rewrite Z3, Sg. by apply Forall_app.
    - unfold rows. rewrite Sg, K3, length_take, Z1. lia. }
  split; [done|]. split; [done|]. split; [done|]. split; [unfold loaded; by rewrite Kn, Sg|].
  assert (length l' <= 1)%nat as Hl1.
  { destruct (Nat.eqb_spec (RowGroup.start g) A) as [_|_]; [rewrite Hcase; simpl; lia|]. destruct Hcase as (g0 & -> & _). simpl. lia. }
  split. { rewrite El, !length_app. simpl. lia. }
  split.
  { rewrite El, !Forall_app. intros [Hd1 [Hd2 _]%Forall_cons_1]. split; [done|].
    destruct (Nat.eqb_spec (RowGroup.start g) A) as [_|_]; [by rewrite Hcase|].
    destruct Hcase as (g' & -> & _ & _ & _ & _ & (_ & Hk & _) & _). apply Forall_singleton. by apply Hk. }
  split.
  { intros i x Hx Hlt. rewrite El in Hx. destruct (decide (i < length pre)%nat) as [Hi|Hi].
    - rewrite lookup_app_l in Hx |- * by done. exists x. split; [done|]. split; [apply RowGroup.keeps_refl|].
      apply list_elem_of_lookup_2 in Hx. destruct (contiguous_bounds _ _ _ Hc1 Hx) as [_ Hb].
      rewrite (proj1 (Forall_forall _ _) (full_length _ _ Hf1) x Hx) in Hb. lia.
    - rewrite lookup_app_r in Hx |- * by lia. destruct (i - length pre)%nat as [|i'] eqn:Ei.
      + injection Hx as <-. destruct (Nat.eqb_spec (RowGroup.start g) A); [lia|].
        destruct Hcase as (g' & -> & _ & Hs' & Hc' & _ & Hk & _). exists g'. split; [done|]. split; [done|]. lia.
      + exfalso. simpl in Hx. apply list_elem_of_lookup_2 in Hx.
        pose proof (contiguous_bounds _ _ _ Hctl Hx). assert (length (group_rows g) = RowGroup.count g) as Hgc.
        { apply (proj1 (Forall_forall _ _) Hl g). apply elem_of_app. right. apply elem_of_cons. by left. }
        lia. }
  intros row. case_decide as Hrow; [by apply K4|]. apply list_ids_outside.
  apply (not_covered 0); [done| |].
  { apply (full_counted (row_group_size m)). by apply Forall_app. }
  rewrite K3, length_take. lia.
Qed.

(** Loading row groups changes nothing. *)
Lemma inv_step m m' k :
  inv m -> frame m m' -> tree_is m' (segments (row_groups m)) k ->
  inv m' /\ segments (row_groups m') = segments (row_groups m).
Proof.
  intros [_ Hc Hf Htot Hsize] (A1 & A2 & A3 & A4) (W & Sg & _). split; [|done].
  split; [done|by rewrite A3, Sg|by rewrite A1, Sg| |by rewrite A1]. rewrite A2, Htot. unfold rows. by rewrite Sg.
Qed.

(** *** Fetching *)

Lemma CanFetch_spec T row m :
  inv m -> small (segments (row_groups m)) -> (row_start m <= row)%nat -> RowVersionManager.proper T ->
  exists m', CanFetch T row m
    = (m', Ok (if (row <? row_start m + total_rows m)%nat then RowVersionManager.visible T (row_ids m row) else false))
  /\ inv m' /\ frame m m' /\ rows m' = rows m /\ forall r, row_ids m' r = row_ids m r.
Proof.
  intros Hinv Hsm Hrow HT. pose proof Hinv as [Hwf Hc Hf Htot Hsize]. pose proof (full_length _ _ Hf) as Hl.
  unfold rows, row_ids in *. set (l := segments (row_groups m)) in *.
  destruct (table_TryGetSegmentIndex_spec m l _ row (conj Hwf (conj eq_refl eq_refl))) as (m1 & k1 & E1 & F1 & T1 & _ & Hk1).
  { by apply (contiguous_ordered _ l Hc), (full_counted (row_group_size m)). }
  { done. }
  { intros x Hx. destruct l; [done|]. destruct Hc as [Hc _]. simpl in Hx. injection Hx as ->. lia. }
  unfold CanFetch. rewrite (ST_bind_Ok _ _ _ _ _ E1).
  destruct (Nat.ltb_spec row (row_start m + total_rows m)) as [Hlt|Hge].
  2:{ rewrite SegmentTree.find_segment_None.
      - exists m1. split; [done|]. destruct (inv_step m m1 k1 Hinv F1 T1) as [Hi Hs]. split; [done|]. split; [done|]. by rewrite Hs.
      - intros g Hg Hcg. apply (not_covered _ l row Hc (full_counted _ _ Hf)); [lia|]. apply Exists_exists. by exists g. }
  destruct (covered _ l row Hc Hl) as (i & g & Hi & Hg); [lia|].
  rewrite (SegmentTree.find_segment_Some l row i g (contiguous_ordered _ _ Hc (full_counted _ _ Hf)) Hi Hg) in *.
  pose proof (lookup_lt_Some _ _ _ Hi) as Hil.
  destruct (table_GetSegmentByIndex_spec m1 l _ i T1 Hil) as (m2 & k2 & E2 & F2 & T2 & _ & Hik2).
  rewrite (ST_bind_Ok _ _ _ _ _ E2), (ST_bind_Ok _ (deref (Some i)) m2 m2 i) by done.
  destruct (read_group m2 l _ i g T2 Hi Hik2) as (m3 & E3 & F3 & T3). rewrite (ST_bind_Ok _ _ _ _ _ E3).
  pose proof (list_elem_of_lookup_2 _ _ _ Hi) as Hgl. pose proof Hf as Hf'. rewrite Forall_forall in Hf'.
  destruct (Hf' g Hgl) as [Hok Hlg]. destruct Hg as [Hg1 Hg2].
  cbn [RowGroup.segment SegmentTree.seg_start SegmentTree.seg_count] in Hg1, Hg2.
  destruct (RowGroup.Fetch_spec (row_group_size m) T (row - RowGroup.start g) g Hok HT) as (R1 & R2 & (R3 & R4)).
  destruct (on_row_group_spec m3 l _ i g (RowGroup.Fetch T (row - RowGroup.start g)) T3 Hi Hik2) as (m4 & E4 & F4 & T4);
    [by destruct R3|].
  exists m4. rewrite E4, R1. pose proof (list_ids_row _ l g (row - RowGroup.start g) Hc Hl Hgl) as Hids.
  replace (RowGroup.start g + (row - RowGroup.start g))%nat with row in Hids by lia. rewrite Hids by lia.
  split; [done|]. pose proof (frame_trans _ _ _ (frame_trans _ _ _ (frame_trans _ _ _ F1 F2) F3) F4) as F.
  destruct T4 as (W & Sg & K). set (g' := (RowGroup.Fetch T (row - RowGroup.start g) g).1) in *.
  assert (forall P : RowGroup.t C -> RowGroup.t C -> Prop, (forall x, x ∈ l -> P x x) -> P g g' -> Forall2 P l (<[i := g']> l)) as Hins.
  { intros P Hrefl Hg'. apply Forall2_same_length_lookup_2; [by rewrite length_insert|]. intros j x y Hx Hy.
    destruct (decide (i = j)) as [<-|Hne].
    - rewrite list_lookup_insert_eq in Hy by done. rewrite Hi in Hx. by injection Hx as <-; injection Hy as <-.
    - rewrite list_lookup_insert_ne in Hy by done. rewrite Hx in Hy. injection Hy as <-. apply Hrefl. by eapply list_elem_of_lookup_2. }
  destruct (same_inv m m4 Hinv F W) as [Hinv4 Hrows4].
  { rewrite Sg. apply Hins; [|done]. intros x Hx. split; [done|]. by destruct (Hf' x Hx). }
  split; [done|]. split; [done|]. split; [exact Hrows4|]. intros r. rewrite Sg.
  assert (Forall2 (fun x y => RowGroup.equiv x y) l (<[i := g']> l)) as Heq by (by apply Hins).
  clear - Heq. induction Heq as [|x y l1 l2 [(S1 & S2 & S3) Hxy] Hall IH]; [done|].
  rewrite (list_ids_cons y l2 r _ _ S1 S2), (list_ids_cons x l1 r _ _ eq_refl eq_refl), IH. case_decide; [apply Hxy|done].
Qed.

(** *** Deleting *)

Lemma inv_tree_is m : inv m -> tree_is m (segments (row_groups m)) (length (SegmentTree.nodes (row_groups m))).
Proof. intros [Hwf _ _ _ _]. done. Qed.

(** An operation on one row group that keeps its rows. *)
Lemma on_row_group_same {A} m i g (f : ST (RowGroup.t C) A) k :
  inv m -> tree_is m (segments (row_groups m)) k -> segments (row_groups m) !! i = Some g -> (i < k)%nat ->
  RowGroup.same g (f g).1 -> ok_group (row_group_size m) (f g).1 ->
  exists m', on_row_group i f m = (m', (f g).2) /\ inv m' /\ frame m m' /\ rows m' = rows m
  /\ segments (row_groups m') = <[i := (f g).1]> (segments (row_groups m))
  /\ forall row, row_ids m' row = if decide (RowGroup.start g <= row < RowGroup.start g + RowGroup.count g)%nat
                                 then RowGroup.ids (f g).1 (row - RowGroup.start g) else row_ids m row.
Proof.
  intros Hinv Ht Hi Hik Hsame Hok. pose proof Hinv as [_ Hc Hf _ _]. pose proof (full_length _ _ Hf) as Hl.
  destruct (on_row_group_spec m _ k i g f Ht Hi Hik) as (m' & E & F & (W & Sg & _)); [by destruct Hsame|].
  exists m'. split; [done|]. set (g' := (f g).1) in *. unfold row_ids. rewrite Sg.
  set (l := segments (row_groups m)) in *. rewrite Forall_forall in Hf.
  destruct (same_inv m m' Hinv F W) as [Hinv' Hrows].
  { rewrite Sg. apply Forall2_same_length_lookup_2; [by rewrite length_insert|]. intros j x y Hx Hy. fold l in Hx.
    apply lookup_lt_Some in Hi as Hil. destruct (decide (i = j)) as [<-|Hne].
    - rewrite list_lookup_insert_eq in Hy by done. rewrite Hi in Hx. by injection Hx as <-; injection Hy as <-.
    - rewrite list_lookup_insert_ne in Hy by done. fold l in Hy. rewrite Hx in Hy. injection Hy as <-.
      apply list_elem_of_lookup_2 in Hx. split; [done|]. by destruct (Hf x Hx). }
  split; [done|]. split; [done|]. split; [done|]. split; [done|].
  apply list_elem_of_split_length in Hi as (pre & tl & El & ->). rewrite El in Hc, Hl |- *. intros row.
  rewrite insert_app_r_alt by lia. replace (length pre - length pre)%nat with 0%nat by lia. simpl (<[0%nat := _]> _).
  destruct Hsame as (S1 & S2 & _). rewrite !list_ids_app.
  rewrite (list_ids_cons g' tl row _ _ S1 S2), (list_ids_cons g tl row _ _ eq_refl eq_refl).
  apply contiguous_app in Hc as [Hc1 [Hs _]]. apply Forall_app in Hl as [Hl1 _].
  destruct (decide (Exists (fun g => SegmentTree.contains g row) pre)) as [Hd|Hd].
  - rewrite decide_False; [done|]. intros Hrow. revert Hd. apply (not_covered _ pre row Hc1); [|lia].
    eapply Forall_impl; [exact Hl1|]. intros x Hx. simpl in Hx. lia.
  - by case_decide.
Qed.

(** The rows that the new undo entries name. *)
Definition undo_rows (es : Undo) : list nat :=
  mjoin (map (fun p => map (fun x => (RowGroup.base_row p.2 + x)%nat) (RowGroup.rows p.2)) es).

Lemma undo_rows_app es es' : undo_rows (es ++ es') = undo_rows es ++ undo_rows es'.
Proof. unfold undo_rows. by rewrite map_app, join_app. Qed.

Lemma undo_rows_group s i es :
  Forall (fun e => RowGroup.base_row e = (s + RowGroup.vector_idx e * STANDARD_VECTOR_SIZE)%nat) es ->
  undo_rows (map (pair i) es) = map (fun r => (s + r)%nat) (RowGroup.entry_rows es).
Proof.
  intros Hes. unfold undo_rows, RowGroup.entry_rows. induction Hes as [|e es He Hes IH]; [done|].
  cbn [map mjoin]. rewrite !mjoin_cons, map_app, IH. f_equal. rewrite map_map. apply map_ext. intros x. simpl. rewrite He. lia.
Qed.

Abbreviation row_deletable := RowVersionManager.row_deletable.

Definition convertible m : Prop :=
  Forall (fun g => forall r, (r < RowGroup.count g)%nat -> RowGroup.convertible_at g (r / STANDARD_VECTOR_SIZE))
    (segments (row_groups m)).

(** The undo entry is about rows of the row group that it points to, whose version manager is there. *)
Definition entry_of m (p : nat * RowGroup.DeleteEntry) : Prop :=
  exists g, segments (row_groups m) !! p.1 = Some g /\ RowGroup.managed g /\ RowGroup.entry_ok g p.2.

Lemma entry_of_kept m m' p :
  Forall2 (fun g g' => RowGroup.keeps g g' /\ RowGroup.count g' = RowGroup.count g)
    (segments (row_groups m)) (segments (row_groups m')) -> entry_of m p -> entry_of m' p.
Proof.
  intros Hk (g & Hg & Hm & E1 & E2 & E3). destruct (Forall2_lookup_l _ _ _ _ _ Hk Hg) as (g' & Hg' & (K1 & _ & K3 & _) & K5).
  exists g'. split; [done|]. split; [by apply K3|]. split; [by rewrite K1|]. split; [done|by rewrite K5].
Qed.

Lemma groups_refl m :
  Forall2 (fun g g' => RowGroup.keeps g g' /\ RowGroup.count g' = RowGroup.count g) (segments (row_groups m)) (segments (row_groups m)).
Proof. apply Forall_Forall2_diag, Forall_true. intros g. split; [apply RowGroup.keeps_refl|done]. Qed.

(** Transaction [tid] has deleted the rows [requested]; the new undo entries [es] name those nobody
    had deleted, [n] in number. *)
Record deleted (tid : Z) m0 (requested : list nat) m (es : Undo) (n : nat) : Prop := {
  x_inv : inv m;
  x_frame : frame m0 m;
  x_small : length (segments (row_groups m)) = length (segments (row_groups m0));
  x_rows : rows m = rows m0;
  x_ids : forall row, row_ids m row = if decide (row ∈ requested) then ((row_ids m0 row).1, tid) else row_ids m0 row;
  x_able : forall row, row ∈ requested -> row_deletable tid (row_ids m0 row);
  x_nodup : NoDup (undo_rows es);
  x_count : length (undo_rows es) = n;
  x_undo : forall row, row ∈ undo_rows es <-> row ∈ requested /\ (row_ids m0 row).2 = NOT_DELETED_ID;
  x_groups : Forall2 (fun g g' => RowGroup.keeps g g' /\ RowGroup.count g' = RowGroup.count g)
               (segments (row_groups m0)) (segments (row_groups m));
  x_entries : Forall (entry_of m) es
}.

(** The deletion of the rows [requested] has run into a row that another transaction deleted; the
    undo entries name all rows that were changed and had not been deleted by [tid] before. *)
Record conflict (tid : Z) m0 (requested : list nat) m (es : Undo) (e : exception) : Prop := {
  y_exception : e = TransactionException;
  y_inv : inv m;
  y_frame : frame m0 m;
  y_rows : rows m = rows m0;
  y_row : exists row, row ∈ requested /\ ~ row_deletable tid (row_ids m0 row);
  y_undo : forall row, row ∈ undo_rows es -> (row_ids m0 row).2 = NOT_DELETED_ID;
  y_ids : forall row, (row_ids m0 row).2 <> tid -> row ∉ undo_rows es -> row_ids m row = row_ids m0 row
}.

Lemma deleted_nil tid m : inv m -> deleted tid m [] m [] 0.
Proof.
  intros Hinv. split; try done.
  - intros row Hrow. by apply not_elem_of_nil in Hrow.
  - apply NoDup_nil_2.
  - intros row. split; [intros Hr|intros [Hr _]]; by apply not_elem_of_nil in Hr.
  - apply groups_refl.
Qed.

Lemma deleted_trans tid m0 r1 m1 es1 n1 r2 m2 es2 n2 :
  tid <> NOT_DELETED_ID ->
  deleted tid m0 r1 m1 es1 n1 -> deleted tid m1 r2 m2 es2 n2 ->
  deleted tid m0 (r1 ++ r2) m2 (es1 ++ es2) (n1 + n2).
Proof.
  intros Htid [A1 A2 A3 A4 A5 A6 A7 A8 A9 A10 A11] [B1 B2 B3 B4 B5 B6 B7 B8 B9 B10 B11].
  assert (forall row, row ∈ undo_rows es2 -> row ∉ r1) as Hdisj.
  { intros row Hr Hr1. apply B9 in Hr as [_ Hr]. rewrite A5, decide_True in Hr by done. by simpl in Hr. }
  split; [done|by eapply frame_trans|congruence|congruence| | | | | | |].
  - intros row. rewrite B5, A5. repeat case_decide; rewrite ?elem_of_app in *; naive_solver.
  - intros row [Hr|Hr]%elem_of_app; [by apply A6|]. specialize (B6 row Hr). rewrite A5 in B6.
    case_decide; [by apply A6|done].
  - rewrite undo_rows_app. apply NoDup_app. split; [done|]. split; [|done].
    intros row Hr Hr2. apply (Hdisj row Hr2). by apply A9 in Hr as [? _].
  - rewrite undo_rows_app, length_app. lia.
  - intros row. rewrite undo_rows_app, !elem_of_app, A9, B9, A5. case_decide; naive_solver.
  - eapply Forall2_trans; [|exact A10|exact B10]. intros g1 g2 g3 [K1 K2] [K3 K4].
    split; [by eapply RowGroup.keeps_trans|congruence].
  - apply Forall_app. split; [|done]. eapply Forall_impl; [exact A11|]. intros p. by apply entry_of_kept.
Qed.

Lemma deleted_conflict tid m0 r1 m1 es1 n1 r2 m2 es2 e :
  tid <> NOT_DELETED_ID ->
  deleted tid m0 r1 m1 es1 n1 -> conflict tid m1 r2 m2 es2 e -> conflict tid m0 (r1 ++ r2) m2 (es1 ++ es2) e.
Proof.
  intros Htid [A1 A2 A3 A4 A5 A6 A7 A8 A9 _ _] [B1 B2 B3 B4 (row0 & B5 & B5') B6 B7].
  split; [done|done|by eapply frame_trans|congruence| | |].
  - exists row0. split; [apply elem_of_app; by right|]. rewrite A5 in B5'. case_decide; [|done].
    exfalso. apply B5'. by right.
  - intros row. rewrite undo_rows_app, elem_of_app. intros [Hr|Hr]; [by apply A9 in Hr as [_ ?]|].
    specialize (B6 row Hr). rewrite A5 in B6. case_decide; [by simpl in B6|done].
  - intros row Hr. rewrite undo_rows_app, not_elem_of_app. intros [H1 H2].
    assert (row ∉ r1) as Hn.
    { intros Hin. destruct (A6 row Hin); [|done]. apply H1, A9. done. }
    assert (row_ids m1 row = row_ids m0 row) as E by (by rewrite A5, decide_False).
    rewrite <- E. apply B7; [by rewrite E|done].
Qed.

Lemma conflict_mono tid m0 r r' m es e : r ⊆ r' -> conflict tid m0 r m es e -> conflict tid m0 r' m es e.
Proof.
  intros Hsub [B1 B2 B3 B4 (row0 & B5 & B5') B6 B7]. split; try done. exists row0. split; [by apply Hsub|done].
Qed.

Lemma elem_of_rel s ids r :
  Forall (fun id => s <= id)%nat ids -> r ∈ map (fun id => id - s)%nat ids <-> (s + r)%nat ∈ ids.
Proof.
  intros Hids. rewrite Forall_forall in Hids. rewrite (list_elem_of_fmap (fun id => id - s)%nat). split.
  - intros (id & -> & Hid). specialize (Hids id Hid). by replace (s + (id - s))%nat with id by lia.
  - intros Hr. exists (s + r)%nat. split; [lia|done].
Qed.

(** The ids of a row before and after an operation on the row group that holds it. *)
Lemma group_row_ids m g row :
  inv m -> g ∈ segments (row_groups m) -> (RowGroup.start g <= row < RowGroup.start g + RowGroup.count g)%nat ->
  row_ids m row = RowGroup.ids g (row - RowGroup.start g).
Proof.
  intros [_ Hc Hf _ _] Hg Hrow. pose proof (list_ids_row _ _ g (row - RowGroup.start g) Hc (full_length _ _ Hf) Hg) as H.
  replace (RowGroup.start g + (row - RowGroup.start g))%nat with row in H by lia. apply H. lia.
Qed.

Lemma convertible_insert m m' i g g' :
  convertible m -> segments (row_groups m) !! i = Some g -> segments (row_groups m') = <[i := g']> (segments (row_groups m)) ->
  RowGroup.count g' = RowGroup.count g ->
  (forall r, (r < RowGroup.count g)%nat -> RowGroup.convertible_at g' (r / STANDARD_VECTOR_SIZE)) -> convertible m'.
Proof.
  intros Hc Hi Hs Hn Hg. unfold convertible. rewrite Hs. apply Forall_insert; [done|]. by rewrite Hn.
Qed.

Lemma push_all_log i es undo : push_all (log_delete i) es undo = (undo ++ map (pair i) es, Ok tt).
Proof.
  revert undo. induction es as [|e es IH]; intros undo; [by rewrite app_nil_r|].
  cbn [push_all]. unfold mbind, ST_bind, log_delete, modify. rewrite IH. by rewrite <- app_assoc.
Qed.

(** The entries of a row group, with the row group. *)
Lemma group_Delete_log i T ids undo g :
  RowGroup.Delete (log_delete i) T ids (g, undo)
  = let '((g', es), r) := RowGroup.Delete RowGroup.log_delete T ids (g, []) in ((g', undo ++ map (pair i) es), r).
Proof.
  destruct (RowGroup.group_simulates_Delete (log_delete i) T ids g []) as (es & E & H).
  destruct (RowGroup.Delete RowGroup.log_delete T ids (g, [])) as [[g' es'] r]. cbn [fst snd app] in *. subst es'.
  specialize (H undo). by rewrite push_all_log in H.
Qed.

Lemma RowGroup_Delete_spec i T ids m undo k g :
  inv m -> tree_is m (segments (row_groups m)) k -> segments (row_groups m) !! i = Some g -> (i < k)%nat ->
  convertible m -> ChunkInfo.transaction_id T <> NOT_DELETED_ID ->
  Forall (fun id => RowGroup.start g <= id < RowGroup.start g + RowGroup.count g)%nat ids ->
  let '((m', undo'), r) := RowGroup_Delete log_delete i T ids (m, undo) in
  exists es, undo' = undo ++ es
  /\ match r with
     | Ok n => deleted (ChunkInfo.transaction_id T) m ids m' es n /\ convertible m'
     | Throw e => conflict (ChunkInfo.transaction_id T) m ids m' es e
     end.
Proof.
  intros Hinv Ht Hi Hik Hconv Htid Hids. pose proof (list_elem_of_lookup_2 _ _ _ Hi) as Hg.
  pose proof Hinv as [_ _ Hf _ _]. unfold convertible in Hconv. rewrite Forall_forall in Hf, Hconv.
  destruct (Hf g Hg) as [Hok _]. set (tid := ChunkInfo.transaction_id T) in *.
  pose proof (RowGroup.group_Delete_spec (row_group_size m) T g [] ids Hok Htid Hids (Hconv g Hg)) as HD.
  assert (Forall (fun id => RowGroup.start g <= id)%nat ids) as Hle
    by (eapply Forall_impl; [exact Hids|]; by intros x [Hx _]).
  pose proof (on_row_group_same m i g (group_Delete log_delete i T ids undo) k Hinv Ht Hi Hik) as HG.
  destruct (RowGroup.keeping_Delete T ids g []) as [HK1 HK2]. pose proof (RowGroup.manages_Delete T ids g []) as HM.
  unfold RowGroup_Delete. unfold group_Delete in *. rewrite group_Delete_log in HG.
  destruct (RowGroup.Delete RowGroup.log_delete T ids (g, [])) as [[g' entries] r]. cbn [fst snd] in *.
  fold tid in HD. destruct r as [n|e].
  - destruct HD as [D1 D2 D3 D4 D5 (es & Ees & U1 & U2 & U3 & U4) _]. rewrite app_nil_l in Ees. subst entries.
    destruct (HG D1 D2) as (m' & E & Hinv' & F & Hr & Hs & Hid). rewrite E. simpl.
    exists (map (pair i) es). split; [done|]. rewrite Forall_forall in Hids.
    assert (forall row, row ∈ ids -> row_ids m row = RowGroup.ids g (row - RowGroup.start g)
                          /\ (row - RowGroup.start g)%nat ∈ map (fun id => id - RowGroup.start g)%nat ids) as Hrow.
    { intros row Hin. split; [by apply group_row_ids, Hids|]. by apply (list_elem_of_fmap_2 (fun id => id - RowGroup.start g)%nat). }
    split; [split; try done|].
    + by rewrite Hs, length_insert.
    + intros row. rewrite Hid. destruct (decide (row ∈ ids)) as [Hin|Hnin].
      * destruct (Hrow row Hin) as [-> Hrel]. rewrite decide_True by by apply Hids. by rewrite D4, decide_True.
      * case_decide as Hd; [|done]. rewrite D4, decide_False.
        -- by rewrite (group_row_ids m g row).
        -- rewrite elem_of_rel by done. by replace (RowGroup.start g + (row - RowGroup.start g))%nat with row by lia.
    + intros row Hin. destruct (Hrow row Hin) as [-> Hrel]. by apply D5.
    + rewrite (undo_rows_group (RowGroup.start g)) by (by apply RowGroup.entry_ok_base).
      assert (Inj eq eq (fun r => (RowGroup.start g + r)%nat)) as Hinj by (intros x y Hxy; lia).
      by apply (NoDup_fmap_2 (fun r => (RowGroup.start g + r)%nat)).
    + rewrite (undo_rows_group (RowGroup.start g)), length_map by (by apply RowGroup.entry_ok_base). done.
    + intros row. rewrite (undo_rows_group (RowGroup.start g)) by (by apply RowGroup.entry_ok_base).
      rewrite (list_elem_of_fmap (fun r => (RowGroup.start g + r)%nat)). split.
      * intros (r & -> & Hrr). apply U3 in Hrr as [Hrr Hn]. apply elem_of_rel in Hrr; [|done]. split; [done|].
        destruct (Hrow _ Hrr) as [-> _]. by replace (RowGroup.start g + r - RowGroup.start g)%nat with r by lia.
      * intros [Hin Hn]. destruct (Hrow row Hin) as [E1 Hrel]. exists (row - RowGroup.start g)%nat.
        specialize (Hids row Hin). split; [lia|]. apply U3. by rewrite <- E1.
    + rewrite Hs. rewrite <- (list_insert_id _ _ _ Hi) at 1. apply Forall2_insert; [apply groups_refl|done].
    + apply Forall_map, Forall_forall. intros e He. exists g'. cbn [fst snd]. split; [rewrite Hs; apply list_lookup_insert_eq; by eapply lookup_lt_Some|].
      split; [apply HM; destruct es; [by apply not_elem_of_nil in He|done]|].
      destruct (proj1 (Forall_forall _ _) U4 e He) as (E1 & E2 & E3). destruct HK1 as (K1 & _).
      split; [by rewrite K1|]. split; [done|by rewrite HK2].
    + apply (convertible_insert m m' i g g'); [by apply Forall_forall|done|done|by destruct D1 as (_ & ? & _)|done].
  - destruct HD as (-> & D1 & D2 & (r & D3 & D4) & es & -> & U1 & U3 & U2).
    destruct (HG D1 D2) as (m' & E & Hinv' & F & Hr & Hs & Hid). rewrite E. simpl.
    exists (map (pair i) es). split; [done|]. rewrite Forall_forall in Hids.
    assert (forall r, (r < RowGroup.count g)%nat -> row_ids m (RowGroup.start g + r) = RowGroup.ids g r) as Hgr.
    { intros r' Hr'. rewrite (group_row_ids m g) by (done || lia). f_equal. lia. }
    split; try done.
    + exists (RowGroup.start g + r)%nat. apply elem_of_rel in D3; [|done]. split; [done|].
      rewrite Hgr; [done|]. specialize (Hids _ D3). lia.
    + intros row. rewrite (undo_rows_group (RowGroup.start g)) by (by apply RowGroup.entry_ok_base).
      rewrite (list_elem_of_fmap (fun r => (RowGroup.start g + r)%nat)). intros (r' & -> & Hr').
      apply U1 in Hr' as [Hlt Hn]. by rewrite Hgr.
    + intros row Hn. rewrite (undo_rows_group (RowGroup.start g)) by (by apply RowGroup.entry_ok_base). intros Hu. rewrite Hid. case_decide as Hd; [|done].
      rewrite (group_row_ids m g row) in Hn |- * by done. apply U2; [done|]. intros Hin. apply Hu.
      apply (list_elem_of_fmap (fun r => (RowGroup.start g + r)%nat)). exists (row - RowGroup.start g)%nat. split; [lia|done].
Qed.

Lemma split_group_spec g ids :
  (split_group g ids).1 ++ (split_group g ids).2 = ids
  /\ Forall (fun id => RowGroup.start g <= id < RowGroup.start g + RowGroup.count g)%nat (split_group g ids).1.
Proof.
  induction ids as [|id ids [IH1 IH2]]; [done|]. cbn [split_group].
  destruct (Nat.ltb_spec id (RowGroup.start g)); [done|].
  destruct (Nat.leb_spec (RowGroup.start g + RowGroup.count g) id); [done|].
  destruct (split_group g ids) as [same_group others]. simpl in *. split; [by rewrite IH1|]. constructor; [lia|done].
Qed.

(** The row group of a row, loaded. *)
Lemma find_group m row :
  inv m -> small (segments (row_groups m)) -> (row_start m <= row < row_start m + total_rows m)%nat ->
  exists m' i g k, GetSegment row m = (m', Ok i) /\ frame m m' /\ inv m' /\ tree_is m' (segments (row_groups m')) k
  /\ segments (row_groups m') = segments (row_groups m) /\ segments (row_groups m') !! i = Some g /\ (i < k)%nat
  /\ (RowGroup.start g <= row < RowGroup.start g + RowGroup.count g)%nat.
Proof.
  intros Hinv Hsm Hrow. pose proof Hinv as [_ Hc Hf Htot _]. unfold rows in Htot.
  destruct (covered _ _ row Hc (full_length _ _ Hf)) as (i & g & Hi & Hg); [lia|].
  pose proof (contiguous_ordered _ _ Hc (full_counted _ _ Hf)) as Hord.
  destruct (GetSegment_spec m _ _ row i (inv_tree_is m Hinv) Hord Hsm) as (m' & k & E & F & Ht & _ & Hk).
  { intros x Hx. destruct (segments (row_groups m)); [done|]. destruct Hc as [Hc _]. simpl in Hx. injection Hx as ->. lia. }
  { by apply (SegmentTree.find_segment_Some _ row i g). }
  destruct (inv_step m m' k Hinv F Ht) as [Hinv' Hs]. exists m', i, g, k. by rewrite Hs.
Qed.

Lemma deleted_step tid m0 r m m' es n :
  deleted tid m0 r m es n -> inv m' -> frame m m' -> segments (row_groups m') = segments (row_groups m) ->
  deleted tid m0 r m' es n.
Proof.
  intros [A1 A2 A3 A4 A5 A6 A7 A8 A9 A10 A11] Hinv F Hs.
  split; [done|by eapply frame_trans|by rewrite Hs|unfold rows in *; by rewrite Hs| |done..| |].
  - intros row. unfold row_ids. rewrite Hs. apply A5.
  - by rewrite Hs.
  - unfold entry_of. by rewrite Hs.
Qed.

Lemma delete_loop_spec T m0 undo0 : ChunkInfo.transaction_id T <> NOT_DELETED_ID ->
  small (segments (row_groups m0)) -> forall fuel ids m r es n,
  (length ids <= fuel)%nat ->
  Forall (fun id => row_start m0 <= id < row_start m0 + total_rows m0)%nat ids ->
  deleted (ChunkInfo.transaction_id T) m0 r m es n -> convertible m ->
  let '((m', undo'), res) := delete_loop log_delete fuel T ids n (m, undo0 ++ es) in
  exists es', undo' = undo0 ++ es'
  /\ match res with
     | Ok n' => deleted (ChunkInfo.transaction_id T) m0 (r ++ ids) m' es' n' /\ convertible m'
     | Throw e => conflict (ChunkInfo.transaction_id T) m0 (r ++ ids) m' es' e
     end.
Proof.
  intros Htid Hsm fuel. induction fuel as [|fuel IH]; intros ids m r es n Hlen Hids Hd Hconv.
  { destruct ids; [|simpl in Hlen; lia]. simpl. exists es. by rewrite app_nil_r. }
  destruct ids as [|id rest]; [simpl; exists es; by rewrite app_nil_r|]. cbn [delete_loop].
  pose proof Hd as [Hinv (_ & F2 & F3 & _) Hl _ _ _ _ _ _ _ _]. apply Forall_cons_1 in Hids as [Hid Hids].
  destruct (find_group m id Hinv) as (m1 & i & g & k & E1 & F1 & Hinv1 & T1 & Hs1 & Hi & Hik & Hg);
    [unfold small in *; by rewrite Hl|by rewrite F2, F3|].
  rewrite (ST_bind_Ok _ _ (m, undo0 ++ es) (m1, undo0 ++ es) i) by (unfold on_collection; by rewrite E1).
  destruct (read_group m1 _ k i g T1 Hi Hik) as (m2 & E2 & F2' & T2).
  rewrite (ST_bind_Ok _ _ (m1, undo0 ++ es) (m2, undo0 ++ es) g) by (unfold on_collection; by rewrite E2).
  destruct (inv_step m1 m2 k Hinv1 F2' T2) as [Hinv2 Hs2].
  destruct (split_group_spec g rest) as [Hsplit Hsame].
  destruct (split_group g rest) as [same_group others]. cbn [fst snd] in *.
  assert (deleted (ChunkInfo.transaction_id T) m0 r m2 es n) as Hd2.
  { eapply deleted_step; [exact Hd|done|by eapply frame_trans|by rewrite Hs2, Hs1]. }
  assert (convertible m2) as Hconv2 by (unfold convertible in *; by rewrite Hs2, Hs1).
  pose proof (RowGroup_Delete_spec i T (id :: same_group) m2 (undo0 ++ es) k g Hinv2) as HD. rewrite Hs2 in HD.
  specialize (HD T2 Hi Hik Hconv2 Htid (Forall_cons_2 _ _ _ Hg Hsame)).
  destruct (RowGroup_Delete log_delete i T (id :: same_group) (m2, undo0 ++ es)) as [[m3 undo3] [n3|e]] eqn:E3;
    destruct HD as (es3 & -> & HD).
  - destruct HD as [HD Hconv3]. rewrite (ST_bind_Ok _ _ _ _ _ E3), <- app_assoc.
    pose proof (deleted_trans _ _ _ _ _ _ _ _ _ _ Htid Hd2 HD) as Hd3.
    specialize (IH others m3 (r ++ id :: same_group) (es ++ es3) (n + n3)%nat).
    destruct (delete_loop log_delete fuel T others (n + n3) (m3, undo0 ++ es ++ es3)) as [[m4 undo4] res].
    rewrite <- Hsplit. replace (r ++ id :: same_group ++ others) with ((r ++ id :: same_group) ++ others) by (by rewrite <- app_assoc).
    apply IH; [|rewrite <- Hsplit in Hids; by apply Forall_app in Hids as [_ ?]|done|done].
    rewrite <- Hsplit in Hlen. simpl in Hlen. rewrite length_app in Hlen. lia.
  - rewrite (ST_bind_Throw _ _ _ _ _ E3). exists (es ++ es3). split; [by rewrite <- app_assoc|].
    eapply conflict_mono; [|by eapply deleted_conflict]. rewrite <- Hsplit. set_solver.
Qed.

(** Any undo buffer gets the entries of the list. *)
Section simulation.
Context {U : Type} (push : nat -> RowGroup.DeleteEntry -> ST U unit).
Abbreviation push_entry := (fun p => push p.1 p.2).

Lemma push_all_group i es u : push_all push_entry (map (pair i) es) u = push_all (push i) es u.
Proof.
  revert u. induction es as [|e es IH]; intros u; [done|]. cbn [map push_all fst snd]. unfold mbind, ST_bind.
  destruct (push i e u) as [u1 [[]|ex]]; [apply IH|done].
Qed.

Lemma simulates_RowGroup_Delete i T ids : simulates push_entry (RowGroup_Delete log_delete i T ids) (RowGroup_Delete push i T ids).
Proof.
  intros m undo. unfold RowGroup_Delete, on_row_group.
  destruct (SegmentTree.nodes (row_groups m) !! i) as [n|].
  2:{ exists []. split; [by rewrite app_nil_r|done]. }
  unfold group_Delete. rewrite group_Delete_log.
  destruct (RowGroup.group_simulates_Delete (push i) T ids (SegmentTree.node n) []) as (es & E & H).
  destruct (RowGroup.Delete RowGroup.log_delete T ids (SegmentTree.node n, [])) as [[g' es'] r]. cbn [fst snd app] in *. subst es'.
  exists (map (pair i) es). split; [done|]. intros u. rewrite push_all_group. specialize (H u).
  destruct (push_all (push i) es u) as [u' [[]|ex]]; [by rewrite H|]. destruct H as (g1 & ->). by eexists.
Qed.

Lemma simulates_delete_loop fuel T : forall ids n,
  simulates push_entry (delete_loop log_delete fuel T ids n) (delete_loop push fuel T ids n).
Proof.
  induction fuel as [|fuel IH]; intros ids n; [apply simulates_pure|].
  destruct ids as [|id rest]; cbn [delete_loop]; [apply simulates_pure|].
  apply simulates_bind; [apply simulates_state|]. intros i. apply simulates_bind; [apply simulates_state|]. intros g.
  destruct (split_group g rest) as [same_group others]. apply simulates_bind; [apply simulates_RowGroup_Delete|]. intros k. apply IH.
Qed.

Lemma simulates_Delete T ids : simulates push_entry (Delete log_delete T ids) (Delete push T ids).
Proof. apply simulates_delete_loop. Qed.
End simulation.

(** ** Properties *)

Lemma row_ids_beyond m row :
  inv m -> (row_start m + total_rows m <= row)%nat -> row_ids m row = (0, NOT_DELETED_ID).
Proof.
  intros [_ Hc Hf Ht _] Hrow. apply list_ids_outside, (not_covered _ _ _ Hc (full_counted _ _ Hf)).
  unfold rows in Ht. lia.
Qed.

(** No row of the table was inserted by the transaction. *)
Definition fresh m (tid : Z) : Prop :=
  forall row, (row_start m <= row < row_start m + total_rows m)%nat -> (row_ids m row).1 <> tid.

Lemma appended_total m m' data :
  inv m -> inv m' -> rows m' = rows m ++ data -> total_rows m' = (total_rows m + length data)%nat.
Proof. intros [_ _ _ H1 _] [_ _ _ H2 _] H. by rewrite H2, H1, H, length_app. Qed.

(** Committing what has been appended. *)
Lemma commit_appended T commit_id chunks m m1 st :
  inv m -> fresh m (ChunkInfo.transaction_id T) -> ChunkInfo.transaction_id T <> 0 -> mjoin chunks <> [] ->
  append T chunks m = (m1, Ok st) -> small (segments (row_groups m1)) ->
  let first := (row_start m + total_rows m)%nat in
  let count := length (mjoin chunks) in
  exists m2, CommitAppend commit_id (row_start m1 + append_row_start st) count m1 = (m2, Ok tt)
  /\ inv m2 /\ frame m1 m2 /\ length (segments (row_groups m2)) = length (segments (row_groups m1))
  /\ rows m2 = rows m ++ mjoin chunks
  /\ forall row, row_ids m2 row = if decide (first <= row < first + count)%nat
                                 then (commit_id, NOT_DELETED_ID) else row_ids m row.
Proof.
  intros Hinv Hfresh Htid Hne E Hsm first count.
  destruct (append_spec T chunks m Hinv) as (m1' & st' & E' & Hinv1 & _ & Hr & Hs & Hsz & Hst & _ & Hids).
  rewrite E in E'. injection E' as <- <-.
  pose proof (appended_total m m1 _ Hinv Hinv1 Hr) as Htot.
  assert (0 < count)%nat as Hc by (unfold count; destruct (mjoin chunks); [done|simpl; lia]).
  rewrite Hs, Hst. destruct (table_CommitAppend_spec commit_id (ChunkInfo.transaction_id T) first count m1)
    as (m2 & E2 & Hinv2 & Hf2 & Hl2 & Hr2 & _ & Hids2); [done|done|unfold first, count in *; lia|done| |].
  - intros row Hrow. rewrite Hids. fold first count. case_decide as Hd; [done|]. split; [|done].
    intros Hx. exfalso. apply (Hfresh row); [unfold first, count in *; lia|done].
  - exists m2. split; [done|]. split; [done|]. split; [done|]. split; [done|]. split; [by rewrite Hr2|].
    intros row. rewrite Hids2, Hids. fold first count. by case_decide.
Qed.

(** C13 Appending chunks of rows to a table and committing the append refines an abstract table,
    the list of its rows with an insert and a delete id each: the append adds the rows of the chunks
    at the end, in order, whatever row groups they fall into, with the transaction's id; the commit
    replaces exactly these ids by the commit id and never fails. *)
Theorem table_append_commit_refines T commit_id chunks m :
  inv m -> fresh m (ChunkInfo.transaction_id T) -> ChunkInfo.transaction_id T <> 0 -> mjoin chunks <> [] ->
  let first := (row_start m + total_rows m)%nat in
  let count := length (mjoin chunks) in
  exists m1 st, append T chunks m = (m1, Ok st) /\ inv m1 /\ rows m1 = rows m ++ mjoin chunks
  /\ (forall row, row_ids m1 row = if decide (first <= row < first + count)%nat
                                   then (ChunkInfo.transaction_id T, NOT_DELETED_ID) else row_ids m row)
  /\ (small (segments (row_groups m1)) ->
      exists m2, CommitAppend commit_id (row_start m1 + append_row_start st) count m1 = (m2, Ok tt)
      /\ inv m2 /\ rows m2 = rows m ++ mjoin chunks
      /\ forall row, row_ids m2 row = if decide (first <= row < first + count)%nat
                                     then (commit_id, NOT_DELETED_ID) else row_ids m row).
Proof.
  intros Hinv Hfresh Htid Hne first count.
  destruct (append_spec T chunks m Hinv) as (m1 & st & E & Hinv1 & _ & Hr & Hs & Hsz & Hst & _ & Hids).
  exists m1, st. split; [done|]. split; [done|]. split; [done|]. split; [exact Hids|]. intros Hsm.
  destruct (commit_appended T commit_id chunks m m1 st Hinv Hfresh Htid Hne E Hsm)
    as (m2 & E2 & Hinv2 & _ & _ & Hr2 & Hids2). by exists m2.
Qed.

(** C15 Reverting an append restores the table: the rows, their number and the insert and delete
    ids of every row are those from before, also when the append filled up a row group and added
    others. *)
Theorem append_revert_roundtrip T chunks m :
  inv m -> row_start m = 0%nat -> fresh m (ChunkInfo.transaction_id T) ->
  exists m1 st, append T chunks m = (m1, Ok st)
  /\ (small (segments (row_groups m1)) ->
      exists m2, RevertAppendInternal (append_row_start st) m1 = (m2, Ok tt)
      /\ inv m2 /\ rows m2 = rows m /\ total_rows m2 = total_rows m
      /\ forall row, row_ids m2 row = row_ids m row).
Proof.
  intros Hinv Hrs Hfresh.
  destruct (append_spec T chunks m Hinv) as (m1 & st & E & Hinv1 & Hl & Hr & Hs & Hsz & Hst & _ & Hids).
  exists m1, st. split; [done|]. intros Hsm. pose proof (appended_total m m1 _ Hinv Hinv1 Hr) as Htot.
  rewrite Hst. destruct (RevertAppendInternal_spec m1 (total_rows m) (ChunkInfo.transaction_id T))
    as (m2 & E2 & Hinv2 & Hs2 & Ht2 & Hr2 & _ & _ & _ & _ & Hids2); [done|done|by rewrite Hs|done|lia| | |].
  - intros row Hrow. rewrite Hids. case_decide as Hd; [split; intros; [lia|done]|].
    split; [|lia]. intros Hx. destruct (Hfresh row); [lia|done].
  - intros row Hrow. rewrite Hids, decide_True by lia. done.
  - exists m2. split; [done|]. split; [done|]. split.
    { rewrite Hr2, Hr. pose proof Hinv as [_ _ _ -> _]. apply take_app_length. }
    split; [done|]. intros row. rewrite Hids2. case_decide as Hd; [|symmetry; apply row_ids_beyond; [done|lia]].
    by rewrite Hids, decide_False by lia.
Qed.

(** Transactions see an append as a whole, from its commit on: before, a fetch by row number
    finds the new rows only for the appending transaction; afterwards for exactly the transactions
    that started after the commit.  Rows from before are found as they were, and row numbers past
    the end never. *)
Theorem append_isolation T commit_id chunks m T' row :
  inv m -> fresh m (ChunkInfo.transaction_id T) -> mjoin chunks <> [] ->
  ChunkInfo.TRANSACTION_ID_START <= ChunkInfo.transaction_id T < NOT_DELETED_ID ->
  commit_id < ChunkInfo.TRANSACTION_ID_START -> RowVersionManager.proper T' ->
  ChunkInfo.start_time T' <= ChunkInfo.TRANSACTION_ID_START <= ChunkInfo.transaction_id T' -> (row_start m <= row)%nat ->
  let first := (row_start m + total_rows m)%nat in
  let count := length (mjoin chunks) in
  let answer (new : bool) := if (row <? first)%nat then RowVersionManager.visible T' (row_ids m row)
                             else (row <? first + count)%nat && new in
  exists m1 st, append T chunks m = (m1, Ok st)
  /\ (small (segments (row_groups m1)) ->
      (CanFetch T' row m1).2 = Ok (answer (ChunkInfo.transaction_id T' =? ChunkInfo.transaction_id T))
      /\ exists m2, CommitAppend commit_id (row_start m1 + append_row_start st) count m1 = (m2, Ok tt)
         /\ (CanFetch T' row m2).2 = Ok (answer (commit_id <? ChunkInfo.start_time T'))).
Proof.
  intros Hinv Hfresh Hne Htid Hcid HT HTid Hrow first count answer.
  destruct (append_spec T chunks m Hinv) as (m1 & st & E & Hinv1 & _ & Hr & Hs & Hsz & Hst & _ & Hids).
  exists m1, st. split; [done|]. intros Hsm. pose proof (appended_total m m1 _ Hinv Hinv1 Hr) as Htot.
  assert (0 < count)%nat as Hc by (unfold count; destruct (mjoin chunks); [done|simpl; lia]).
  assert (forall id, RowVersionManager.visible T' (id, NOT_DELETED_ID) = ChunkInfo.UseVersion T' id) as Hvis.
  { intros id. unfold RowVersionManager.visible. cbn [fst snd]. destruct HT as [HT _].
    rewrite ChunkInfo.UseVersion_NOT_DELETED by done. apply andb_true_r. }
  assert (forall m' id, inv m' -> small (segments (row_groups m')) -> row_start m' = row_start m ->
    total_rows m' = (total_rows m + count)%nat ->
    (forall r, row_ids m' r = if decide (first <= r < first + count)%nat then (id, NOT_DELETED_ID) else row_ids m r) ->
    (CanFetch T' row m').2 = Ok (answer (ChunkInfo.UseVersion T' id))) as Hfetch.
  { intros m' id Hi Hsm' Hs' Ht' Hids'. destruct (CanFetch_spec T' row m' Hi Hsm') as (m'' & E' & _); [by rewrite Hs'|done|].
    rewrite E'. simpl. f_equal. unfold answer. rewrite Hids', Hs', Ht'. fold first.
    replace (row_start m + (total_rows m + count))%nat with (first + count)%nat by (unfold first; lia).
    destruct (Nat.ltb_spec row (first + count)), (Nat.ltb_spec row first); try case_decide; try lia; by rewrite ?Hvis. }
  assert (forall id, ChunkInfo.UseVersion T' id = (id <? ChunkInfo.start_time T') || (id =? ChunkInfo.transaction_id T')) as Huse by done.
  split.
  - rewrite (Hfetch m1 (ChunkInfo.transaction_id T)), Huse, Z.eqb_sym by done.
    by destruct (Z.ltb_spec (ChunkInfo.transaction_id T) (ChunkInfo.start_time T')); [lia|].
  - destruct (commit_appended T commit_id chunks m m1 st Hinv Hfresh) as (m2 & E2 & Hinv2 & (F1 & F2 & F3 & _) & Hl2 & Hr2 & Hids2);
      [unfold ChunkInfo.TRANSACTION_ID_START in *; lia|done|done|done|].
    exists m2. split; [done|]. rewrite (Hfetch m2 commit_id), Huse; [|done|unfold small in *; by rewrite Hl2|by rewrite F3|by rewrite F2|done].
    destruct (Z.eqb_spec commit_id (ChunkInfo.transaction_id T')); [lia|]. by rewrite orb_false_r.
Qed.

(** C16 Deleting rows of a table by number, across row groups.  Either all requested rows get the
    transaction's id as delete id, no other row changes, and the undo buffer grows by entries that
    name, once each, exactly the rows nobody had deleted, their number being the result; or another
    transaction has deleted one of the rows, the result is a [TransactionException], and the
    entries name every row that has been changed and was not deleted by the transaction before. *)
Theorem collection_delete_correct T ids m undo :
  inv m -> small (segments (row_groups m)) -> convertible m ->
  ChunkInfo.transaction_id T <> NOT_DELETED_ID ->
  Forall (fun id => row_start m <= id < row_start m + total_rows m)%nat ids ->
  let '((m', undo'), res) := Delete log_delete T ids (m, undo) in
  exists es, undo' = undo ++ es
  /\ match res with
     | Ok n => deleted (ChunkInfo.transaction_id T) m ids m' es n
     | Throw e => conflict (ChunkInfo.transaction_id T) m ids m' es e
     end.
Proof.
  intros Hinv Hsm Hconv Htid Hids. unfold Delete.
  pose proof (delete_loop_spec T m undo Htid Hsm (length ids) ids m [] [] 0 (le_n _) Hids (deleted_nil _ m Hinv) Hconv) as H.
  rewrite app_nil_r in H. destruct (delete_loop log_delete (length ids) T ids 0 (m, undo)) as [[m' undo'] res].
  destruct H as (es & -> & H). exists es. split; [done|]. by destruct res as [n|e]; [destruct H|].
Qed.

End collection.
(** ** Instances

    Columns as a start row and a list of rows, and a table that has just been created. *)

#[local] Instance list_columns : RowGroup.Columns nat (nat * list nat) := {|
  RowGroup.create_columns s := (s, []);
  RowGroup.append_columns c chunk := (c.1, c.2 ++ chunk);
  RowGroup.revert_columns c row := (c.1, take (row - c.1) c.2);
  RowGroup.set_start_columns c s := (s, c.2)
|}.

#[local] Instance list_columns_laws : RowGroup.ColumnLaws (snd : nat * list nat -> list nat) fst.
Proof. by split. Qed.

Definition new_table {C} : t C := mk STANDARD_VECTOR_SIZE 0 0 false (SegmentTree.Initialize []).

Lemma new_table_inv : inv (contents := snd) (column_start := fst) (new_table : t (nat * list nat)).
Proof.
  split; [| | |done|split; [apply Nat.ltb_lt; vm_compute; reflexivity|vm_compute; reflexivity]].
  - split; [intros i n Hn; done|done].
  - done.
  - by apply Forall_nil.
Qed.

Definition writer : TransactionData := ChunkInfo.mkTransactionData (ChunkInfo.TRANSACTION_ID_START + 3) 5.
Definition later_reader : TransactionData := ChunkInfo.mkTransactionData (ChunkInfo.TRANSACTION_ID_START + 4) 9.

Lemma new_table_fresh tid : fresh (new_table : t (nat * list nat)) tid.
Proof. intros row Hrow. cbn in Hrow. lia. Qed.

(** The table after [writer] has appended two chunks. *)
Definition appended_table : t (nat * list nat) := (append writer [[10; 11]; [12]]%nat new_table).1.

Lemma appended_small : small (segments (row_groups appended_table)).
Proof. vm_compute. reflexivity. Qed.

Lemma appended_from m1 st : append writer [[10; 11]; [12]]%nat (new_table : t (nat * list nat)) = (m1, Ok st) -> m1 = appended_table.
Proof. intros E. unfold appended_table. by rewrite E. Qed.

Lemma table_append_commit_refines_witness :
  exists m2, CommitAppend 7 0 3 appended_table = (m2, Ok tt) /\ rows (contents := snd) m2 = [10; 11; 12]%nat
  /\ row_ids m2 1 = (7, NOT_DELETED_ID).
Proof.
  destruct (table_append_commit_refines (contents := snd) (column_start := fst) writer 7 [[10; 11]; [12]]%nat new_table)
    as (m1 & st & E & _ & _ & _ & H); [apply new_table_inv|apply new_table_fresh|done|done|].
  assert (st = default (mkAppend 0 0 0 None 0 0) (match (append writer [[10; 11]; [12]]%nat (new_table : t (nat * list nat))).2 with
            | Ok st => Some st | Throw _ => None end)) as Hst by (by rewrite E).
  apply appended_from in E. subst m1. destruct (H appended_small) as (m2 & E2 & _ & Hr & Hi). subst st.
  exists m2. split; [exact E2|]. split; [rewrite Hr; reflexivity|]. rewrite Hi. reflexivity.
Defined.

Lemma append_revert_roundtrip_witness :
  exists st m2, append writer [[10; 11]; [12]]%nat (new_table : t (nat * list nat)) = (appended_table, Ok st)
  /\ RevertAppendInternal (append_row_start st) appended_table = (m2, Ok tt) /\ rows (contents := snd) m2 = [].
Proof.
  destruct (append_revert_roundtrip (contents := snd) (column_start := fst) writer [[10; 11]; [12]]%nat new_table)
    as (m1 & st & E & H); [apply new_table_inv|done|apply new_table_fresh|].
  pose proof (appended_from m1 st E) as ->. destruct (H appended_small) as (m2 & E2 & _ & Hr & _).
  exists st, m2. split; [exact E|]. split; [exact E2|]. rewrite Hr. reflexivity.
Defined.

Lemma append_isolation_witness :
  (CanFetch later_reader 2 appended_table).2 = Ok false
  /\ exists m2, CommitAppend 7 0 3 appended_table = (m2, Ok tt) /\ (CanFetch later_reader 2 m2).2 = Ok true.
Proof.
  destruct (append_isolation (contents := snd) (column_start := fst) writer 7 [[10; 11]; [12]]%nat new_table later_reader 2)
    as (m1 & st & E & H); [apply new_table_inv|apply new_table_fresh|done|done|done|done|done|simpl; lia|].
  assert (st = default (mkAppend 0 0 0 None 0 0) (match (append writer [[10; 11]; [12]]%nat (new_table : t (nat * list nat))).2 with
            | Ok st => Some st | Throw _ => None end)) as Hst by (by rewrite E).
  apply appended_from in E. subst m1. destruct (H appended_small) as (H1 & m2 & E2 & H2). subst st.
  split; [rewrite H1; reflexivity|]. exists m2. split; [exact E2|]. rewrite H2. reflexivity.
Defined.

(** A test for [convertible]. *)
Definition convertibleb {C} (m : t C) : bool :=
  forallb (fun g => forallb (fun r =>
    match RowGroup.loaded_info g ≫= fun v => RowVersionManager.GetChunkInfo v (r / STANDARD_VECTOR_SIZE) with
    | Some (ChunkInfo.CONSTANT_INFO info) => ChunkInfo.c_delete_id info =? NOT_DELETED_ID
    | _ => true
    end) (seq 0 (RowGroup.count g))) (segments (row_groups m)).

Lemma convertibleb_spec {C} (m : t C) : convertibleb m = true -> convertible m.
Proof.
  unfold convertibleb, convertible. rewrite forallb_forall. intros H. apply Forall_forall. intros g Hg r Hr v Hv info Hinfo.
  apply list_elem_of_In in Hg. specialize (H g Hg). rewrite forallb_forall in H. specialize (H r).
  rewrite Hv in H. simpl in H. rewrite Hinfo in H. apply Z.eqb_eq, H, in_seq. lia.
Qed.

Lemma appended_inv : inv (contents := snd) (column_start := fst) appended_table.
Proof.
  destruct (append_spec (contents := snd) (column_start := fst) writer [[10; 11]; [12]]%nat new_table new_table_inv)
    as (m1 & st & E & Hinv & _). by rewrite <- (appended_from m1 st E).
Qed.

Lemma appended_convertible : convertible appended_table.
Proof. apply convertibleb_spec. vm_compute. reflexivity. Qed.

Lemma appended_total_rows : row_start appended_table = 0%nat /\ total_rows appended_table = 3%nat.
Proof. split; vm_compute; reflexivity. Qed.

Lemma writer_id : ChunkInfo.transaction_id writer <> NOT_DELETED_ID.
Proof. intros E. vm_compute in E. discriminate. Qed.

Lemma collection_delete_correct_witness :
  exists m' undo' n, Delete log_delete writer [0; 2]%nat (appended_table, []) = ((m', undo'), Ok n)
  /\ row_ids m' 2 = (ChunkInfo.transaction_id writer, ChunkInfo.transaction_id writer) /\ n = length (undo_rows undo').
Proof.
  pose proof (collection_delete_correct (contents := snd) (column_start := fst) writer [0; 2]%nat appended_table []) as H.
  specialize (H appended_inv appended_small appended_convertible writer_id).
  destruct appended_total_rows as [E1 E2]. rewrite E1, E2 in H.
  specialize (H ltac:(repeat (apply Forall_cons_2; [lia|]); apply Forall_nil_2)).
  assert (exists s n, Delete log_delete writer [0; 2]%nat (appended_table, []) = (s, Ok n)) as ([m' undo'] & n & E).
  { eexists _, _. vm_compute. reflexivity. }
  rewrite E in H. destruct H as (es & -> & H). exists m', ([] ++ es), n. split; [done|].
  destruct H as [_ _ _ _ Hi _ _ Hc _]. split; [|by rewrite app_nil_l]. rewrite Hi. reflexivity.
Defined.

End RowGroupCollection.
