(* ===== verification/DataTable.v ===== *)
(** * Tables and what a transaction leaves in them

    Models the operations of [DataTable] (src/src/storage/data_table.cpp) that commits and rollbacks
    use, with those of [RowGroupCollection] behind them that RowGroupCollection.v does not have:
    merging the row groups of a transaction's local storage into the table, and replacing the delete
    ids of an undo entry.  Constraints, indexes and the log are left out.

    The undo entries of a transaction, an append ([AppendInfo]) and deletions of one vector
    ([DeleteInfo]), are described by what they say of the table ([append_ok], [delete_ok]): which rows
    carry the id of the transaction.  The lemmas say what committing, reverting and rolling back one
    entry does to the rows and their ids and that it leaves alone what the other entries say. *)

From S2P Require Import Prelude ChunkInfo RowVersionManager SegmentTree RowGroup RowGroupCollection.

Module DataTable.

Abbreviation TransactionData := ChunkInfo.TransactionData.
Abbreviation NOT_DELETED_ID := ChunkInfo.NOT_DELETED_ID.
Abbreviation Collection C := (RowGroupCollection.t C).
Abbreviation segments := SegmentTree.segments.
Abbreviation row_groups := RowGroupCollection.row_groups.
Abbreviation row_start := RowGroupCollection.row_start.
Abbreviation total_rows := RowGroupCollection.total_rows.
Abbreviation row_group_size := RowGroupCollection.row_group_size.
Abbreviation row_ids := RowGroupCollection.row_ids.
Abbreviation small := RowGroupCollection.small.
Abbreviation loaded := RowGroupCollection.loaded.

Inductive DataTableVersion : Type := MAIN_TABLE | ALTERED | DROPPED.

#[global] Instance DataTableVersion_eq_dec : EqDecision DataTableVersion.
Proof. solve_decision. Defined.

Record t (C : Type) : Type := mk {
  rows_of : Collection C;
  version : DataTableVersion
}.
Arguments mk {C}.
Arguments rows_of {C}.
Arguments version {C}.

(** The undo entries for a table.  [version_info] is the row group whose version manager the entry
    points to. *)
Record AppendInfo : Type := mkAppendInfo {
  start_row : nat;
  count : nat
}.

Record DeleteInfo : Type := mkDeleteInfo {
  version_info : nat;
  rows_deleted : ChunkInfo.DeleteInfo;
  base_row : nat
}.

Section operations.
Context {R C : Type} {columns_of : RowGroup.Columns R C}.
Implicit Types (m : Collection C) (g : RowGroup.t C) (tb : t C) (T : TransactionData).

(** ** Merging row groups *)

(** [SegmentTree::MoveSegments]. *)
Definition MoveSegments (tree : SegmentTree.t (RowGroup.t C)) : SegmentTree.t (RowGroup.t C) * list (RowGroup.t C) :=
  let tree := SegmentTree.LoadAllSegments true tree in
  (SegmentTree.with_nodes tree [], map SegmentTree.node (SegmentTree.nodes tree)).

Fixpoint merge_loop (segments : list (RowGroup.t C)) (index : nat) : ST (Collection C) unit :=
  match segments with
  | [] => mret tt
  | row_group :: segments =>
      let '(row_group, r) := RowGroup.MoveToCollection index row_group in
      lift r;;
      modify (fun m => RowGroupCollection.set_tree m (SegmentTree.AppendSegment true (row_groups m) row_group));;
      merge_loop segments (index + RowGroup.count row_group)
  end.

Definition collection_MergeStorage (data : Collection C) : ST (Collection C) unit :=
  m ← get;
  let start_index := (row_start m + total_rows m)%nat in
  merge_loop (MoveSegments (row_groups data)).2 start_index;;
  modify (fun m => RowGroupCollection.set_total (total_rows m + total_rows data) m).

(** ** The table *)

Definition IsMainTable tb : bool := bool_decide (version tb = MAIN_TABLE).
Definition SetAsMainTable tb : t C := mk (rows_of tb) MAIN_TABLE.
Definition SetAsDropped tb : t C := mk (rows_of tb) DROPPED.
Definition GetTotalRows tb : nat := total_rows (rows_of tb).

(** A call on [row_groups]. *)
Definition on_rows {A} (f : ST (Collection C) A) : ST (t C) A :=
  fun tb => let '(m, r) := f (rows_of tb) in (mk m (version tb), r).

(** The first row of the append. *)
Definition AppendLock : ST (t C) nat :=
  tb ← get;
  if negb (IsMainTable tb) then throw TransactionException else mret (GetTotalRows tb).

Definition InitializeAppend : ST (t C) RowGroupCollection.AppendState := on_rows RowGroupCollection.InitializeAppend.
Definition Append (chunk : list R) (st : RowGroupCollection.AppendState)
    : ST (t C) (RowGroupCollection.AppendState * bool) := on_rows (RowGroupCollection.Append chunk st).
Definition FinalizeAppend T (st : RowGroupCollection.AppendState) : ST (t C) RowGroupCollection.AppendState :=
  on_rows (RowGroupCollection.FinalizeAppend T st).

Definition MergeStorage (data : Collection C) : ST (t C) unit := on_rows (collection_MergeStorage data).

Definition CommitAppend (commit_id : Z) (row_start count : nat) : ST (t C) unit :=
  on_rows (RowGroupCollection.CommitAppend commit_id row_start count).
Definition RevertAppendInternal (start_row : nat) : ST (t C) unit :=
  on_rows (RowGroupCollection.RevertAppendInternal start_row).
Definition RevertAppend (start_row count : nat) : ST (t C) unit := RevertAppendInternal start_row.
Definition CleanupAppend (lowest_transaction : Z) (start count : nat) : ST (t C) unit :=
  on_rows (RowGroupCollection.CleanupAppend lowest_transaction start count).
Definition CanFetch T (row_id : nat) : ST (t C) bool := on_rows (RowGroupCollection.CanFetch T row_id).

(** [info->version_info->CommitDelete(info->vector_idx, commit_id, *info)]. *)
Definition CommitDelete (commit_id : Z) (info : DeleteInfo) : ST (t C) unit :=
  on_rows (RowGroupCollection.on_row_group (version_info info)
             (RowGroup.CommitDelete (ChunkInfo.vector_idx (rows_deleted info)) commit_id (rows_deleted info))).

(** ** The abstract view *)

Context {contents : C -> list R} {column_start : C -> nat} {laws : RowGroup.ColumnLaws contents column_start}.
Abbreviation inv := (RowGroupCollection.inv (contents := contents) (column_start := column_start)).
Abbreviation rows := (RowGroupCollection.rows (contents := contents)).
Abbreviation full_group := (RowGroup.full (contents := contents) (column_start := column_start)).
Abbreviation group_rows := (RowGroupCollection.group_rows (contents := contents)).
Abbreviation list_rows := (RowGroupCollection.list_rows (contents := contents)).
Abbreviation contiguous := (RowGroupCollection.contiguous (contents := contents)).
Abbreviation list_ids := RowGroupCollection.list_ids.

(** *** Merging *)

Lemma MoveSegments_segments tree : SegmentTree.wf true tree -> (MoveSegments tree).2 = segments tree.
Proof. intros Hwf. by destruct (SegmentTree.LoadAllSegments_spec true tree Hwf) as [_ H]. Qed.

(** A row group that has been moved to row [s]. *)
Definition moved (size s : nat) g g' : Prop :=
  full_group size g' /\ RowGroup.start g' = s /\ RowGroup.count g' = RowGroup.count g
  /\ group_rows g' = group_rows g /\ (RowGroup.deletable g -> RowGroup.deletable g')
  /\ forall r, RowGroup.ids g' r = RowGroup.ids g r.

Fixpoint moved_list (size s : nat) (l l' : list (RowGroup.t C)) : Prop :=
  match l, l' with
  | [], [] => True
  | g :: l, g' :: l' => moved size s g g' /\ moved_list size (s + RowGroup.count g) l l'
  | _, _ => False
  end.

Lemma merge_loop_spec size : forall l m s,
  SegmentTree.wf true (row_groups m) -> Forall (full_group size) l -> Forall RowGroup.is_loaded l ->
  exists m' l', merge_loop l s m = (m', Ok tt) /\ RowGroupCollection.frame m m' /\ SegmentTree.wf true (row_groups m')
  /\ segments (row_groups m') = segments (row_groups m) ++ l' /\ moved_list size s l l'
  /\ (l <> [] \/ loaded m -> loaded m').
Proof.
  induction l as [|g l IH]; intros m s Hwf Hf Hl.
  { exists m, []. rewrite app_nil_r. do 5 (split; [done|]). by intros [?|?]. }
  apply Forall_cons_1 in Hf as [Hg Hf]. apply Forall_cons_1 in Hl as [Hgl Hl]. cbn [merge_loop].
  destruct (RowGroup.MoveToCollection_spec size s g Hg Hgl) as (M1 & M2 & M3 & M4 & M5 & M6 & _ & M7).
  destruct (RowGroup.MoveToCollection s g) as [g' r]. simpl in M1, M2, M3, M4, M5, M6, M7. subst r.
  rewrite (ST_bind_Ok _ (lift (Ok tt)) m m tt) by done.
  destruct (SegmentTree.AppendSegment_spec true (row_groups m) g' Hwf) as (A1 & A2 & A3).
  set (m1 := RowGroupCollection.set_tree m (SegmentTree.AppendSegment true (row_groups m) g')).
  rewrite (ST_bind_Ok _ (modify _) m m1 tt) by done.
  assert (row_groups m1 = SegmentTree.AppendSegment true (row_groups m) g') as Em1 by done.
  destruct (IH m1 (s + RowGroup.count g')%nat) as (m' & l' & E & F & W & S' & Hm & Hld); [exact A1|exact Hf|exact Hl|].
  exists m', (g' :: l'). split; [done|]. split; [done|]. split; [done|].
  split. { by rewrite S', Em1, A2, <- app_assoc. }
  split; [split; [done|by rewrite <- M4]|]. intros _. apply Hld. right.
  unfold RowGroupCollection.loaded. rewrite Em1, A3, A2, length_app. simpl. lia.
Qed.

Lemma moved_list_spec size s s0 l l' :
  contiguous s0 l -> Forall (full_group size) l -> moved_list size s l l' ->
  contiguous s l' /\ Forall (full_group size) l' /\ list_rows l' = list_rows l /\ length l' = length l
  /\ (Forall RowGroup.deletable l -> Forall RowGroup.deletable l')
  /\ forall row, list_ids l' (s + row) = list_ids l (s0 + row).
Proof.
  revert s s0 l'. induction l as [|g l IH]; intros s s0 [|g' l'] Hc Hf Hm; try done.
  destruct Hm as [(G1 & G2 & G3 & G4 & G5 & G6) Hm]. destruct Hc as [Hs Hc]. apply Forall_cons_1 in Hf as [[_ Hg] Hf].
  change (length (group_rows g) = RowGroup.count g) in Hg.
  destruct (IH (s + RowGroup.count g)%nat (s0 + length (group_rows g))%nat l' Hc Hf Hm) as (I1 & I2 & I3 & I4 & I5 & I6).
  rewrite !(RowGroupCollection.list_rows_cons (contents := contents)), I3, G4. split.
  { split; [done|]. by rewrite G4, Hg. }
  split; [by constructor|]. split; [done|]. split; [simpl; by rewrite I4|]. split.
  { intros [Hd1 Hd2]%Forall_cons_1. constructor; [by apply G5|by apply I5]. }
  intros row. rewrite (RowGroupCollection.list_ids_cons g' l' _ s (RowGroup.count g)) by done.
  rewrite (RowGroupCollection.list_ids_cons g l _ s0 (RowGroup.count g)) by done.
  destruct (decide (row < RowGroup.count g)%nat) as [Hlt|Hge].
  - rewrite !decide_True by lia. rewrite G6. f_equal. lia.
  - rewrite !decide_False by lia. specialize (I6 (row - RowGroup.count g)%nat). rewrite Hg in I6.
    replace (s + row)%nat with (s + RowGroup.count g + (row - RowGroup.count g))%nat by lia.
    rewrite I6. f_equal. lia.
Qed.

(** *** What operations keep of a table *)

(** The row groups stay, as far as they are needed for the rows of [m']: their start, whether undo
    entries can be applied to them, and the rows they count. *)
Definition kept m m' : Prop :=
  forall i g, segments (row_groups m) !! i = Some g -> (RowGroup.start g < total_rows m')%nat ->
    exists g', segments (row_groups m') !! i = Some g' /\ RowGroup.keeps g g'
    /\ (Nat.min (RowGroup.start g + RowGroup.count g) (total_rows m') <= RowGroup.start g' + RowGroup.count g')%nat.

(** An append only adds to row groups and adds row groups. *)
Definition grows size m m' : Prop :=
  (row_group_size m' = size /\ (length (SegmentTree.nodes (row_groups m)) <= length (SegmentTree.nodes (row_groups m')))%nat)
  /\ (forall i g, segments (row_groups m) !! i = Some g -> exists g', segments (row_groups m') !! i = Some g'
       /\ RowGroup.keeps g g' /\ ((RowGroup.count g <= size)%nat -> (RowGroup.count g <= RowGroup.count g' <= size)%nat))
  /\ (Forall RowGroup.deletable (segments (row_groups m)) -> Forall RowGroup.deletable (segments (row_groups m')))
  /\ (Forall RowGroup.is_loaded (segments (row_groups m)) -> Forall RowGroup.is_loaded (segments (row_groups m'))).

Definition growing {A} size (f : ST (Collection C) A) : Prop :=
  forall m, SegmentTree.wf true (row_groups m) -> row_group_size m = size ->
    SegmentTree.wf true (row_groups (f m).1) /\ grows size m (f m).1.

Lemma grows_same size m m' :
  row_group_size m' = size -> segments (row_groups m') = segments (row_groups m) ->
  (length (SegmentTree.nodes (row_groups m)) <= length (SegmentTree.nodes (row_groups m')))%nat -> grows size m m'.
Proof.
  intros Hs E Hn. split; [done|]. rewrite E. split; [|done]. intros i g Hi. exists g. split; [done|].
  split; [apply RowGroup.keeps_refl|lia].
Qed.

Lemma grows_trans size m1 m2 m3 : grows size m1 m2 -> grows size m2 m3 -> grows size m1 m3.
Proof.
  intros ((_ & A1) & A2 & A3 & A4) ((B1 & B1') & B2 & B3 & B4). split; [split; [done|lia]|]. split; [|by split; auto].
  intros i g Hi. destruct (A2 i g Hi) as (g2 & Hi2 & K2 & C2). destruct (B2 i g2 Hi2) as (g3 & Hi3 & K3 & C3).
  exists g3. split; [done|]. split; [by eapply RowGroup.keeps_trans|]. lia.
Qed.

Lemma growing_pure {A} size (r : result A) : growing size (fun m => (m, r)).
Proof. intros m Hwf Hs. split; [done|]. by apply grows_same. Qed.

Lemma growing_bind {A B} size (f : ST (Collection C) A) (k : A -> ST (Collection C) B) :
  growing size f -> (forall a, growing size (k a)) -> growing size (f ≫= k).
Proof.
  intros Hf Hk m Hwf Hs. destruct (Hf m Hwf Hs) as [Hwf1 Hg1]. unfold mbind, ST_bind.
  destruct (f m) as [m1 [a|e]]; [|done]. cbn [fst] in *. destruct (Hk a m1 Hwf1) as [Hwf2 Hg2]; [by destruct Hg1 as [[? _] _]|].
  split; [done|]. by eapply grows_trans.
Qed.

Lemma growing_get {B} size (k : Collection C -> ST (Collection C) B) :
  (forall m0, row_group_size m0 = size -> growing size (k m0)) -> growing size (get ≫= k).
Proof. intros Hk m Hwf Hs. by apply (Hk m). Qed.

Lemma growing_modify size (h : Collection C -> Collection C) :
  (forall m, row_groups (h m) = row_groups m /\ row_group_size (h m) = row_group_size m) -> growing size (modify h).
Proof.
  intros Hh m Hwf Hs. destruct (Hh m) as [E1 E2]. cbn [modify fst]. rewrite E1. split; [done|].
  apply grows_same; [by rewrite E2|by rewrite E1|by rewrite E1].
Qed.

Lemma growing_on_tree {A} size (f : SegmentTree.t (RowGroup.t C) -> SegmentTree.t (RowGroup.t C) * result A) :
  (forall tree, SegmentTree.wf true tree -> SegmentTree.extends true tree (f tree).1) ->
  growing size (RowGroupCollection.on_tree f).
Proof.
  intros Hf m Hwf Hs. destruct (Hf _ Hwf) as (Hwf' & Hseg & Hn). unfold RowGroupCollection.on_tree.
  destruct (f (row_groups m)) as [tree r]. split; [done|]. by apply grows_same.
Qed.

Lemma growing_on_row_group {A} size i (f : ST (RowGroup.t C) A) :
  (forall g, RowGroup.keeps g (f g).1
     /\ ((RowGroup.count g <= size)%nat -> (RowGroup.count g <= RowGroup.count (f g).1 <= size)%nat)) ->
  growing size (RowGroupCollection.on_row_group i f).
Proof.
  intros Hf m Hwf Hs. unfold RowGroupCollection.on_row_group.
  destruct (SegmentTree.nodes (row_groups m) !! i) as [n|] eqn:Hn; [|split; [done|by apply grows_same]].
  pose proof (SegmentTree.segments_nodes _ _ _ Hn) as Hi. destruct (Hf (SegmentTree.node n)) as [Hk Hc].
  destruct (f (SegmentTree.node n)) as [g' r]. cbn [fst] in *.
  destruct (SegmentTree.update_segment_spec true (row_groups m) i (fun _ => g') Hwf) as [Hwf' Hseg].
  { by eapply lookup_lt_Some. } { intros s. rewrite Hi. intros [= <-]. by destruct Hk. }
  split; [done|]. split; [split; [done|by cbn; rewrite length_alter]|].
  change (row_groups (RowGroupCollection.set_tree m ?tree)) with tree. rewrite Hseg, alter_const. split.
  - intros j g Hj. destruct (decide (j = i)) as [->|Hne].
    + rewrite Hi in Hj. injection Hj as <-. exists g'. split; [|done]. apply list_lookup_insert_eq. by eapply lookup_lt_Some.
    + exists g. rewrite list_lookup_insert_ne by done. split; [done|]. split; [apply RowGroup.keeps_refl|lia].
  - destruct Hk as (_ & K2 & _ & K4). split; intros Hd; (apply Forall_insert; [done|]).
    + apply K2. exact (Forall_lookup_1 _ _ _ _ Hd Hi).
    + apply K4. exact (Forall_lookup_1 _ _ _ _ Hd Hi).
Qed.

Lemma growing_AppendRowGroup size s : growing size (RowGroupCollection.AppendRowGroup s).
Proof.
  intros m Hwf Hs. destruct (SegmentTree.AppendSegment_spec true (row_groups m) (RowGroup.create s) Hwf) as (H1 & H2 & H3).
  assert (length (SegmentTree.nodes (row_groups m)) <= length (segments (row_groups m)))%nat as Hle.
  { unfold SegmentTree.segments. rewrite length_app, length_fmap. lia. }
  split; [done|]. split; [split; [done|]|].
  { cbn [RowGroupCollection.AppendRowGroup modify fst RowGroupCollection.set_requires RowGroupCollection.set_tree RowGroupCollection.row_groups].
    rewrite H3. lia. } cbn [RowGroupCollection.AppendRowGroup modify fst].
  change (row_groups (RowGroupCollection.set_requires ?b (RowGroupCollection.set_tree m ?tree))) with tree. rewrite H2. split.
  - intros i g Hi. exists g. split; [by apply lookup_app_l_Some|]. split; [apply RowGroup.keeps_refl|lia].
  - split; intros Hd; (apply Forall_app; split; [done|]); apply Forall_singleton; [by intros v|done].
Qed.

Lemma growing_GetLastSegment size : growing size RowGroupCollection.GetLastSegment.
Proof.
  apply growing_on_tree. intros tree Hwf. pose proof (SegmentTree.tree_GetLastSegment_spec true tree Hwf) as H.
  unfold RowGroupCollection.ok. destruct (SegmentTree.GetLastSegment true tree). by destruct H.
Qed.

Lemma growing_IsEmpty size : growing size RowGroupCollection.IsEmpty.
Proof.
  apply growing_on_tree. intros tree Hwf. pose proof (SegmentTree.tree_IsEmpty_spec true tree Hwf) as H.
  unfold RowGroupCollection.ok. destruct (SegmentTree.IsEmpty true tree). by destruct H.
Qed.

Lemma growing_GetNextSegment size i : growing size (RowGroupCollection.GetNextSegment i).
Proof.
  apply growing_on_tree. intros tree Hwf. unfold RowGroupCollection.ok, SegmentTree.GetNextSegment. cbn [negb].
  case_match; [done|]. set (j := default 0%nat _).
  replace (Z.of_nat j + 1) with (Z.of_nat (S j)) by lia.
  pose proof (SegmentTree.tree_GetSegmentByIndex_spec true tree (S j) Hwf) as H2.
  destruct (SegmentTree.GetSegmentByIndex true tree (Z.of_nat (S j))). by destruct H2.
Qed.

Lemma growing_deref size p : growing size (RowGroupCollection.deref p : ST (Collection C) nat).
Proof. destruct p; apply growing_pure. Qed.

Lemma growing_read size i : growing size (RowGroupCollection.on_row_group i get : ST (Collection C) (RowGroup.t C)).
Proof. apply growing_on_row_group. intros g. split; [apply RowGroup.keeps_refl|]. cbn [get fst]. lia. Qed.

Lemma growing_RowGroup_InitializeAppend size i st : growing size (RowGroupCollection.RowGroup_InitializeAppend (C := C) i st).
Proof. apply growing_bind; [apply growing_read|]. intros g. apply growing_pure. Qed.

Lemma growing_NextRowGroup size s st : growing size (RowGroupCollection.NextRowGroup s st).
Proof.
  apply growing_bind; [apply growing_AppendRowGroup|]. intros _.
  apply growing_bind; [apply growing_GetLastSegment|]. intros last.
  apply growing_bind; [apply growing_deref|]. intros i. apply growing_RowGroup_InitializeAppend.
Qed.

Lemma growing_InitializeAppend size : growing size RowGroupCollection.InitializeAppend.
Proof.
  apply growing_get. intros m0 _. apply growing_bind; [apply growing_IsEmpty|]. intros b.
  apply growing_bind; [case_match; [apply growing_AppendRowGroup|apply growing_pure]|]. intros _.
  apply growing_bind; [apply growing_GetLastSegment|]. intros last.
  apply growing_bind; [apply growing_deref|]. intros i. apply growing_RowGroup_InitializeAppend.
Qed.

Lemma growing_append_loop size fuel : forall chunk st b, growing size (RowGroupCollection.append_loop fuel chunk st b).
Proof.
  induction fuel as [|fuel IH]; intros chunk st b; cbn [RowGroupCollection.append_loop]; [apply growing_pure|].
  apply growing_get. intros m0 _. apply growing_bind.
  { case_match; [|apply growing_pure]. apply growing_bind; [|intros _; apply growing_pure].
    apply growing_on_row_group. intros g. split; [by apply RowGroup.keeps_fields|]. cbn. lia. }
  intros st1. case_match; [|apply growing_pure]. apply growing_bind; [apply growing_read|]. intros g.
  apply growing_bind; [apply growing_NextRowGroup|]. intros st2. apply IH.
Qed.

Lemma growing_append_chunks size chunks : forall st, growing size (RowGroupCollection.append_chunks chunks st).
Proof.
  induction chunks as [|chunk chunks IH]; intros st; cbn [RowGroupCollection.append_chunks]; [apply growing_pure|].
  apply growing_bind; [|intros [st1 b]; apply IH].
  apply growing_bind; [apply growing_append_loop|]. intros [st1 b]. apply growing_pure.
Qed.

Lemma AppendVersionInfo_count size T n g :
  (RowGroup.count g <= size)%nat ->
  (RowGroup.count g <= RowGroup.count (RowGroup.AppendVersionInfo size T n g).1 <= size)%nat.
Proof.
  intros Hc. unfold RowGroup.AppendVersionInfo. rewrite (ST_bind_Ok _ get g g g) by done. 
  set (F := fun vinfo => RowVersionManager.AppendVersionInfo vinfo T n (RowGroup.count g) (Nat.min (RowGroup.count g + n) size)).
  destruct (RowGroup.on_version_keeps g F) as [_ Hn]; [intros v; apply RowVersionManager.AppendVersionInfo_convertible|].
  unfold mbind, ST_bind. destruct (RowGroup.on_version F g) as [g1 [[]|e]]; cbn [fst] in *; [|lia]. simpl. lia.
Qed.

Lemma growing_finalize_loop size T fuel : forall n p, growing size (RowGroupCollection.finalize_loop fuel T n p).
Proof.
  induction fuel as [|fuel IH]; intros n p; cbn [RowGroupCollection.finalize_loop]; [apply growing_pure|].
  case_match; [|apply growing_pure]. apply growing_get. intros m0 Hm0. apply growing_bind; [apply growing_deref|]. intros i.
  apply growing_bind; [apply growing_read|]. intros g. apply growing_bind.
  { rewrite Hm0. apply growing_on_row_group. intros g'. split; [apply RowGroup.group_AppendVersionInfo_keeps|apply AppendVersionInfo_count]. }
  intros _. apply growing_bind; [apply growing_GetNextSegment|]. intros next. apply IH.
Qed.

Lemma growing_append size T chunks : growing size (RowGroupCollection.append T chunks).
Proof.
  apply growing_bind; [apply growing_InitializeAppend|]. intros st.
  apply growing_bind; [apply growing_append_chunks|]. intros st1.
  apply growing_get. intros m0 _. apply growing_bind; [apply growing_finalize_loop|]. intros _.
  apply growing_bind; [by apply growing_modify|]. intros _. apply growing_pure.
Qed.

(** A deletion only changes version information. *)
Definition growing_undo {A} size (f : ST (Collection C * (list (nat * RowGroup.DeleteEntry))) A) : Prop :=
  forall m undo, SegmentTree.wf true (row_groups m) -> row_group_size m = size ->
    SegmentTree.wf true (row_groups (f (m, undo)).1.1) /\ grows size m (f (m, undo)).1.1.

Lemma growing_undo_bind {A B} size (f : ST (Collection C * (list (nat * RowGroup.DeleteEntry))) A)
    (k : A -> ST (Collection C * (list (nat * RowGroup.DeleteEntry))) B) :
  growing_undo size f -> (forall a, growing_undo size (k a)) -> growing_undo size (f ≫= k).
Proof.
  intros Hf Hk m undo Hwf Hs. destruct (Hf m undo Hwf Hs) as [Hwf1 Hg1]. unfold mbind, ST_bind.
  destruct (f (m, undo)) as [[m1 undo1] [a|e]]; [|done]. cbn [fst] in *.
  destruct (Hk a m1 undo1 Hwf1) as [Hwf2 Hg2]; [by destruct Hg1 as [[? _] _]|]. split; [done|]. by eapply grows_trans.
Qed.

Lemma growing_undo_collection {A} size (f : ST (Collection C) A) :
  growing size f -> growing_undo size (RowGroupCollection.on_collection f).
Proof. intros Hf m undo Hwf Hs. specialize (Hf m Hwf Hs). unfold RowGroupCollection.on_collection. by destruct (f m). Qed.

Lemma growing_undo_pure {A} size (h : (list (nat * RowGroup.DeleteEntry)) -> (list (nat * RowGroup.DeleteEntry))) (r : result A) :
  growing_undo size (fun '(m, undo) => ((m, h undo), r)).
Proof. intros m undo Hwf Hs. split; [done|]. by apply grows_same. Qed.

Lemma growing_undo_bind_result {A} size (f : ST (Collection C) ((list (nat * RowGroup.DeleteEntry)) * result A)) m undo :
  growing size f -> SegmentTree.wf true (row_groups m) -> row_group_size m = size ->
  let x := match f m with (m, Ok (undo, r)) => ((m, undo), r) | (m, Throw e) => ((m, undo), Throw e) end in
  SegmentTree.wf true (row_groups x.1.1) /\ grows size m x.1.1.
Proof. intros Hf Hwf Hs. specialize (Hf m Hwf Hs). by destruct (f m) as [m1 [[u r]|e]]. Qed.

Lemma growing_Delete size T ids : growing_undo size (RowGroupCollection.Delete RowGroupCollection.log_delete T ids).
Proof.
  unfold RowGroupCollection.Delete. generalize (length ids), 0%nat. intros fuel. revert ids.
  induction fuel as [|fuel IH]; intros ids n; [apply (growing_undo_pure size (fun undo => undo))|].
  destruct ids as [|id rest]; cbn [RowGroupCollection.delete_loop]; [apply (growing_undo_pure size (fun u => u))|].
  apply growing_undo_bind.
  { apply growing_undo_collection. unfold RowGroupCollection.GetSegment. apply growing_on_tree. intros tree Hwf.
    destruct (SegmentTree.load_loop_spec true (SegmentTree.needs_load id) tree Hwf) as [He _].
    unfold SegmentTree.GetSegment, SegmentTree.GetSegmentIndex, SegmentTree.TryGetSegmentIndex.
    destruct (SegmentTree.nodes (SegmentTree.load_loop true (SegmentTree.needs_load id) tree)) as [|ns0 ns]; [done|].
    by destruct (default _ _) as [[?|]|]. }
  intros i. apply growing_undo_bind; [apply growing_undo_collection, growing_read|]. intros g.
  destruct (RowGroupCollection.split_group g rest) as [same_group others].
  apply growing_undo_bind; [|intros k; apply IH]. intros m undo. unfold RowGroupCollection.RowGroup_Delete.
  apply (growing_undo_bind_result size (RowGroupCollection.on_row_group i _)). apply growing_on_row_group. intros g'.
  unfold RowGroupCollection.group_Delete. rewrite RowGroupCollection.group_Delete_log.
  destruct (RowGroup.keeping_Delete T (id :: same_group) g' []) as [H1 H2].
  destruct (RowGroup.Delete _ T (id :: same_group) (g', [])) as [[g'' es] r]. cbn [fst] in *. split; [done|]. rewrite H2. lia.
Qed.

(** *** Undo entries and the table *)

Record table_ok m : Prop := {
  t_inv : inv m;
  t_loaded : loaded m;
  t_small : small (segments (row_groups m));
  t_start : row_start m = 0%nat;
  t_deletable : Forall RowGroup.deletable (segments (row_groups m))
}.

(** The rows from [A] on, and only they, were inserted with [id]; they are not deleted. *)
Definition cut_ok (id : Z) m (A : nat) : Prop :=
  (A <= total_rows m)%nat
  /\ (forall row, (row < total_rows m)%nat -> (row_ids m row).1 = id <-> (A <= row)%nat)
  /\ (forall row, (A <= row < total_rows m)%nat -> (row_ids m row).2 = NOT_DELETED_ID).

(** The append is at the end of the table, with [id]. *)
Definition append_ok (id : Z) m (a : AppendInfo) : Prop :=
  cut_ok id m (start_row a) /\ (0 < count a)%nat /\ (start_row a + count a = total_rows m)%nat.

(** The rows of the table that the entry names. *)
Definition named (d : DeleteInfo) : list nat :=
  map (fun r => (base_row d + r)%nat) (ChunkInfo.deleted_rows (rows_deleted d)).

Definition in_group (d : DeleteInfo) g : Prop :=
  RowGroup.managed g
  /\ base_row d = (RowGroup.start g + ChunkInfo.vector_idx (rows_deleted d) * STANDARD_VECTOR_SIZE)%nat
  /\ Forall (fun r => (r < RowVersionManager.rows_in (RowGroup.count g) (ChunkInfo.vector_idx (rows_deleted d)))%nat)
       (ChunkInfo.deleted_rows (rows_deleted d)).

(** The rows that the entry names exist and are deleted with [id]. *)
Definition delete_ok (id : Z) m (d : DeleteInfo) : Prop :=
  ChunkInfo.deleted_rows (rows_deleted d) <> []
  /\ (exists g, segments (row_groups m) !! version_info d = Some g /\ in_group d g)
  /\ forall row, row ∈ named d -> (row_ids m row).2 = id.

Lemma named_elem d row :
  row ∈ named d <-> exists r, r ∈ ChunkInfo.deleted_rows (rows_deleted d) /\ row = (base_row d + r)%nat.
Proof. unfold named. rewrite list_elem_of_fmap. naive_solver. Qed.

Lemma in_group_row d g r :
  in_group d g -> r ∈ ChunkInfo.deleted_rows (rows_deleted d) ->
  let off := (ChunkInfo.vector_idx (rows_deleted d) * STANDARD_VECTOR_SIZE + r)%nat in
  (r < STANDARD_VECTOR_SIZE /\ off < RowGroup.count g)%nat /\ (base_row d + r = RowGroup.start g + off)%nat.
Proof.
  intros (_ & Hb & Hr) Hin. rewrite Forall_forall in Hr. specialize (Hr r Hin). unfold RowVersionManager.rows_in in Hr.
  cbv zeta. lia.
Qed.

Lemma table_group m i g :
  inv m -> row_start m = 0%nat -> segments (row_groups m) !! i = Some g ->
  full_group (row_group_size m) g /\ (RowGroup.start g + RowGroup.count g <= total_rows m)%nat
  /\ forall r, (r < RowGroup.count g)%nat -> row_ids m (RowGroup.start g + r) = RowGroup.ids g r.
Proof.
  intros [_ Hc Hf Ht _] H0 Hi. apply list_elem_of_lookup_2 in Hi. pose proof (proj1 (Forall_forall _ _) Hf g Hi) as Hg.
  pose proof (RowGroupCollection.full_length _ _ Hf) as Hl. destruct (RowGroupCollection.contiguous_bounds _ _ g Hc Hi) as [_ Hb].
  rewrite (proj1 (Forall_forall _ _) Hl g Hi), H0 in Hb. unfold RowGroupCollection.rows in Ht. split; [done|]. split; [lia|].
  intros r Hr. by apply (RowGroupCollection.list_ids_row _ _ g r Hc Hl Hi).
Qed.

Lemma delete_ok_named id m d row :
  table_ok m -> delete_ok id m d -> row ∈ named d -> (row < total_rows m)%nat /\ (row_ids m row).2 = id.
Proof.
  intros [Hi _ _ H0 _] (_ & (g & Hg & Hd) & Hids) Hr. split; [|by apply Hids].
  apply named_elem in Hr as (r & Hr & ->). destruct (in_group_row d g r Hd Hr) as [H1 ->].
  destruct (table_group m _ g Hi H0 Hg) as (_ & Hb & _). lia.
Qed.

(** An operation that keeps the row groups keeps what an entry says. *)
Lemma delete_ok_kept id id' m m' d :
  kept m m' -> delete_ok id m d ->
  (forall row, row ∈ named d -> (row < total_rows m')%nat /\ (row_ids m' row).2 = id') -> delete_ok id' m' d.
Proof.
  intros Hk (Hne & (g & Hg & Hd) & _) Hrows. split; [done|]. split; [|by intros row Hr; destruct (Hrows row Hr)].
  assert (exists r, r ∈ ChunkInfo.deleted_rows (rows_deleted d)) as [r0 Hr0].
  { destruct (ChunkInfo.deleted_rows (rows_deleted d)) as [|r ?]; [done|]. exists r. by left. }
  assert (forall r, r ∈ ChunkInfo.deleted_rows (rows_deleted d) -> (base_row d + r < total_rows m')%nat) as Htot.
  { intros r Hr. apply Hrows, named_elem. by exists r. }
  destruct (Hk _ g Hg) as (g' & Hg' & (Hs & _ & Hm) & Hc).
  { destruct (in_group_row d g r0 Hd Hr0) as [_ H]. specialize (Htot r0 Hr0). lia. }
  exists g'. split; [done|]. destruct Hd as (H1 & H2 & H3). split; [by apply Hm|]. split; [by rewrite Hs|].
  apply Forall_forall. intros r Hr. destruct (in_group_row d g r (conj H1 (conj H2 H3)) Hr) as [H4 H5].
  specialize (Htot r Hr). unfold RowVersionManager.rows_in. lia.
Qed.

Lemma kept_Forall2 m m' :
  total_rows m' = total_rows m ->
  Forall2 (fun g g' => RowGroup.keeps g g' /\ RowGroup.count g' = RowGroup.count g)
    (segments (row_groups m)) (segments (row_groups m')) -> kept m m'.
Proof.
  intros Ht Hall i g Hi _. destruct (Forall2_lookup_l _ _ _ _ _ Hall Hi) as (g' & Hi' & Hk & Hc).
  exists g'. split; [done|]. split; [done|]. destruct Hk as [Hs _]. lia.
Qed.

Lemma keeps_deletable m m' :
  Forall2 (fun g g' => RowGroup.keeps g g' /\ RowGroup.count g' = RowGroup.count g)
    (segments (row_groups m)) (segments (row_groups m')) ->
  Forall RowGroup.deletable (segments (row_groups m)) -> Forall RowGroup.deletable (segments (row_groups m')).
Proof.
  intros Hall Hd. eapply Forall2_Forall_r; [exact Hall|]. eapply Forall_impl; [exact Hd|].
  intros g Hg g' [(_ & H & _) _]. by apply H.
Qed.

(** *** Committing and reverting one entry *)

Lemma commit_append_spec commit_id id m a :
  table_ok m -> append_ok id m a -> id <> 0 ->
  exists m', RowGroupCollection.CommitAppend commit_id (start_row a) (count a) m = (m', Ok tt)
  /\ table_ok m' /\ kept m m' /\ total_rows m' = total_rows m /\ rows m' = rows m
  /\ forall row, row_ids m' row = if decide (start_row a <= row < total_rows m)%nat
                                 then (commit_id, (row_ids m row).2) else row_ids m row.
Proof.
  intros [T1 T2 T3 T4 T5] ((A1 & A2 & A3) & A4 & A5) Hid.
  destruct (RowGroupCollection.table_CommitAppend_spec commit_id id (start_row a) (count a) m T1 T3)
    as (m' & E & I' & (F1 & F2 & F3 & F4) & Hl & Hr & [K1 K2] & Hids); [rewrite T4; lia|done| |].
  { intros row Hrow. rewrite A2 by lia. lia. }
  exists m'. split; [done|]. split.
  { split; [done|by apply K1|unfold RowGroupCollection.small in *; by rewrite Hl|by rewrite F3|by eapply keeps_deletable]. }
  split; [by apply kept_Forall2|]. split; [done|]. split; [done|]. intros row. rewrite Hids.
  replace (start_row a + count a)%nat with (total_rows m) by lia. done.
Qed.

Lemma revert_append_spec id m A :
  table_ok m -> cut_ok id m A ->
  exists m', RowGroupCollection.RevertAppendInternal A m = (m', Ok tt)
  /\ table_ok m' /\ kept m m' /\ total_rows m' = A /\ rows m' = take A (rows m)
  /\ forall row, row_ids m' row = if decide (row < A)%nat then row_ids m row else (0, NOT_DELETED_ID).
Proof.
  intros [T1 T2 T3 T4 T5] (A1 & A2 & A3).
  destruct (RowGroupCollection.RevertAppendInternal_spec m A id T1 T2 T4 T3 A1 A2 A3)
    as (m' & E & I' & S' & Ht & Hr & Hl & Hlen & Hd & Hk & Hids).
  exists m'. split; [done|]. split.
  { split; [done|done|unfold RowGroupCollection.small in *; lia|by rewrite S'|by apply Hd]. }
  split; [|done]. intros i g Hi Hlt. rewrite Ht in *. destruct (Hk i g Hi Hlt) as (g' & Hi' & Hkk & Hc).
  exists g'. split; [done|]. split; [done|]. lia.
Qed.

(** The delete id of the rows of an entry is replaced. *)
Lemma commit_delete_spec commit_id id m d :
  table_ok m -> delete_ok id m d -> id <> NOT_DELETED_ID ->
  exists m', RowGroupCollection.on_row_group (version_info d)
               (RowGroup.CommitDelete (ChunkInfo.vector_idx (rows_deleted d)) commit_id (rows_deleted d)) m = (m', Ok tt)
  /\ table_ok m' /\ kept m m' /\ total_rows m' = total_rows m /\ rows m' = rows m
  /\ forall row, row_ids m' row = if decide (row ∈ named d) then ((row_ids m row).1, commit_id) else row_ids m row.
Proof.
  intros [T1 T2 T3 T4 T5] (Hne & (g & Hg & Hd) & Hids) Hid. pose proof T1 as [Hwf Hc Hf Htot Hsize].
  destruct (table_group m _ g T1 T4 Hg) as ([Hok _] & Hend & Hgr). pose proof Hd as (Hm & Hbase & Hrows).
  set (vec := ChunkInfo.vector_idx (rows_deleted d)) in *.
  destruct (RowGroup.group_CommitDelete_spec (row_group_size m) g vec id commit_id (rows_deleted d) Hok)
    as (D1 & D2 & D3 & D4 & D5); [by eapply Forall_lookup_1|done|done|done| |done|].
  { intros r Hr. destruct (in_group_row d g r Hd Hr) as [[_ H1] H2]. fold vec in H1, H2.
    rewrite <- Hgr, <- H2 by done. apply Hids, named_elem. by exists r. }
  assert (version_info d < length (SegmentTree.nodes (row_groups m)))%nat as Hlt.
  { apply lookup_lt_Some in Hg. unfold RowGroupCollection.loaded in T2. lia. }
  destruct (RowGroupCollection.on_row_group_spec m (segments (row_groups m)) _ (version_info d) g
              (RowGroup.CommitDelete vec commit_id (rows_deleted d)) (conj Hwf (conj eq_refl eq_refl)) Hg Hlt)
    as (m' & E & (F1 & F2 & F3 & F4) & (W & Sg & K)); [by destruct D2|].
  set (g' := (RowGroup.CommitDelete vec commit_id (rows_deleted d) g).1) in *. rewrite D1 in E.
  assert (Forall2 (fun x y => RowGroup.same x y /\ RowGroup.ok (column_start := column_start) (row_group_size m) y)
            (segments (row_groups m)) (segments (row_groups m'))) as Hsame.
  { rewrite Sg. rewrite <- (list_insert_id _ _ _ Hg) at 1. apply Forall2_insert; [|done].
    apply Forall_Forall2_diag. eapply Forall_impl; [exact Hf|]. intros x [Hx _]. done. }
  assert (Forall2 (fun x y => RowGroup.keeps x y /\ RowGroup.count y = RowGroup.count x)
            (segments (row_groups m)) (segments (row_groups m'))) as Hkeeps.
  { rewrite Sg. rewrite <- (list_insert_id _ _ _ Hg) at 1. apply Forall2_insert; [|by destruct D2 as (_ & ? & _)].
    apply Forall_Forall2_diag, Forall_true. intros x. split; [apply RowGroup.keeps_refl|done]. }
  destruct (RowGroupCollection.same_inv m m' T1 (conj F1 (conj F2 (conj F3 F4))) W Hsame) as [I' Hr'].
  exists m'. split; [exact E|]. split.
  { split; [done| | |by rewrite F3|by eapply keeps_deletable].
    - unfold RowGroupCollection.loaded. by rewrite K, Sg, length_insert.
    - unfold RowGroupCollection.small in *. by rewrite Sg, length_insert. }
  split; [by apply kept_Forall2|]. split; [done|]. split; [done|].
  pose proof (RowGroupCollection.full_length _ _ Hf) as Hl.
  intros row. destruct (decide (RowGroup.start g <= row < RowGroup.start g + RowGroup.count g)%nat) as [Hin|Hout].
  - destruct (table_group m' (version_info d) g' I') as (_ & _ & Hgr').
    { by rewrite F3. } { rewrite Sg. apply list_lookup_insert_eq. by eapply lookup_lt_Some. }
    destruct D2 as (S1 & S2 & _). specialize (Hgr' (row - RowGroup.start g)%nat). specialize (Hgr (row - RowGroup.start g)%nat).
    rewrite S1, S2 in Hgr'. replace (RowGroup.start g + (row - RowGroup.start g))%nat with row in * by lia.
    rewrite Hgr', Hgr, D5 by lia. destruct (RowVersionManager.vector_row_split (row - RowGroup.start g)) as [Hsp Hm'].
    set (q := ((row - RowGroup.start g) / STANDARD_VECTOR_SIZE)%nat) in *.
    set (r := ((row - RowGroup.start g) mod STANDARD_VECTOR_SIZE)%nat) in *.
    apply decide_ext. split.
    + intros [Hq Hr]. apply named_elem. exists r. split; [done|]. rewrite Hbase, <- Hq. lia.
    + intros (r' & Hr & Hrow)%named_elem. destruct (in_group_row d g r' Hd Hr) as [[H1 _] _].
      destruct (RowVersionManager.row_join vec r' H1) as [J1 J2].
      assert (row - RowGroup.start g = vec * STANDARD_VECTOR_SIZE + r')%nat as Ed by (rewrite Hrow, Hbase; lia).
      unfold q, r. by rewrite Ed, J1, J2.
  - assert (row ∉ named d) as Hn.
    { intros (r & Hr & ->)%named_elem. destruct (in_group_row d g r Hd Hr) as [[_ H1] H2]. lia. }
    rewrite decide_False by done. unfold RowGroupCollection.row_ids. rewrite Sg.
    apply list_elem_of_split_length in Hg as (pre & tl & El & Elen). rewrite El, Elen.
    rewrite insert_app_r_alt, Nat.sub_diag by lia. cbn [insert list_insert]. rewrite !RowGroupCollection.list_ids_app.
    destruct D2 as (S1 & S2 & _).
    rewrite (RowGroupCollection.list_ids_cons g' tl row _ _ S1 S2), (RowGroupCollection.list_ids_cons g tl row _ _ eq_refl eq_refl).
    case_decide; [done|]. by rewrite !decide_False by lia.
Qed.

(** *** Adding rows *)

Definition appended (id : nat -> Z * Z) m m' (data : list R) : Prop :=
  total_rows m' = (total_rows m + length data)%nat /\ rows m' = rows m ++ data
  /\ forall row, row_ids m' row = if decide (total_rows m <= row < total_rows m + length data)%nat
                                 then id (row - total_rows m)%nat else row_ids m row.

(** What bounds the number of row groups after rows have been added. *)
Definition room m (n : nat) : Prop := Z.of_nat (length (segments (row_groups m)) + total_rows m + n + 1) < 2 ^ 62.

Lemma append_rows_spec T chunks m :
  table_ok m -> room m (length (mjoin chunks)) ->
  exists m' st, RowGroupCollection.append T chunks m = (m', Ok st)
  /\ table_ok m' /\ kept m m' /\ appended (fun _ => (ChunkInfo.transaction_id T, NOT_DELETED_ID)) m m' (mjoin chunks).
Proof.
  intros [T1 T2 T3 T4 T5] Hroom.
  destruct (RowGroupCollection.append_spec T chunks m T1) as (m' & st & E & I' & Hl & Hr & Hs & Hsz & Hst & Hlen & Hids).
  pose proof (RowGroupCollection.appended_total m m' _ T1 I' Hr) as Htot. pose proof T1 as [Hwf _ Hf _ _].
  destruct (growing_append (row_group_size m) T chunks m Hwf eq_refl) as [_ (_ & Hg & Hd)]. rewrite E in Hg, Hd. cbn [fst] in *.
  exists m', st. split; [done|]. split.
  { split; [done|done| |by rewrite Hs|by apply Hd]. unfold RowGroupCollection.small, room in *. lia. }
  split.
  { intros i g Hi _. destruct (Hg i g Hi) as (g' & Hi' & Hk & Hc). exists g'. split; [done|]. split; [done|].
    assert (RowGroup.count g <= row_group_size m)%nat as Hle by (by destruct (Forall_lookup_1 _ _ _ _ Hf Hi) as [[_ _ _ ?] _]).
    destruct (Hc Hle) as [Hc1 _]. destruct Hk as [-> _]. lia. }
  split; [done|]. split; [done|]. intros row. by rewrite Hids, T4.
Qed.

Lemma merge_table_spec data m :
  table_ok m -> inv data -> row_group_size data = row_group_size m ->
  Forall RowGroup.is_loaded (segments (row_groups data)) -> Forall RowGroup.deletable (segments (row_groups data)) ->
  Z.of_nat (length (segments (row_groups m)) + length (segments (row_groups data))) < 2 ^ 62 ->
  exists m', collection_MergeStorage data m = (m', Ok tt)
  /\ table_ok m' /\ kept m m' /\ appended (fun i => row_ids data (row_start data + i)) m m' (rows data).
Proof.
  intros [T1 T2 T3 T4 T5] Hdata Hsize Hload Hdel Hsm. pose proof T1 as [Hwf Hc Hf Htot Hsz].
  pose proof Hdata as [Dwf Dc Df Dtot _]. unfold collection_MergeStorage. rewrite (ST_bind_Ok _ get m m m) by done.
  rewrite (MoveSegments_segments _ Dwf). rewrite Hsize in Df. set (l := segments (row_groups data)) in *.
  destruct (merge_loop_spec (row_group_size m) l m (row_start m + total_rows m) Hwf Df Hload)
    as (m1 & l' & E & (F1 & F2 & F3 & F4) & W & Sg & Hm & Hld).
  destruct (moved_list_spec _ _ _ _ _ Dc Df Hm) as (L1 & L2 & L3 & L4 & L5 & L6).
  rewrite (ST_bind_Ok _ _ _ _ _ E). cbn [modify]. set (m' := RowGroupCollection.set_total (total_rows m1 + total_rows data) m1).
  assert (rows m' = rows m ++ rows data) as Hrows.
  { unfold RowGroupCollection.rows. change (row_groups m') with (row_groups m1).
    rewrite Sg, (RowGroupCollection.list_rows_app (contents := contents)). f_equal. exact L3. }
  assert (total_rows m' = (total_rows m + length (rows data))%nat) as Htot'.
  { unfold m'. simpl. by rewrite F2, Dtot. }
  pose proof (RowGroupCollection.full_counted _ _ Hf) as Hcnt.
  exists m'. split; [done|]. split.
  { split.
    - split; [exact W| | | |by simpl; rewrite F1].
      + change (row_groups m') with (row_groups m1). change (row_start m') with (row_start m1). rewrite F3, Sg.
        apply RowGroupCollection.contiguous_app. split; [done|].
        replace (row_start m + length (list_rows (segments (row_groups m))))%nat with (row_start m + total_rows m)%nat by (by rewrite Htot).
        done.
      + change (row_groups m') with (row_groups m1). change (row_group_size m') with (row_group_size m1). rewrite F1, Sg.
        by apply Forall_app.
      + rewrite Htot', Hrows, length_app. by rewrite Htot.
    - apply Hld. by right.
    - unfold RowGroupCollection.small. change (row_groups m') with (row_groups m1). rewrite Sg, length_app, L4. lia.
    - change (row_start m') with (row_start m1). by rewrite F3.
    - change (row_groups m') with (row_groups m1). rewrite Sg. apply Forall_app. split; [done|by apply L5]. }
  split.
  { intros i g Hi _. exists g. change (row_groups m') with (row_groups m1). rewrite Sg.
    split; [by apply lookup_app_l_Some|]. split; [apply RowGroup.keeps_refl|lia]. }
  split; [done|]. split; [done|]. intros row. unfold RowGroupCollection.row_ids at 1.
  change (row_groups m') with (row_groups m1). rewrite Sg, RowGroupCollection.list_ids_app.
  pose proof (RowGroupCollection.not_covered _ _ row Hc Hcnt) as Hnc.
  assert (length (list_rows (segments (row_groups m))) = total_rows m) as Elen by (by rewrite Htot).
  rewrite Elen, T4 in Hnc. rewrite T4 in *.
  destruct (decide (Exists (fun g => SegmentTree.contains g row) (segments (row_groups m)))) as [Hd|Hd].
  - rewrite decide_False; [done|]. intros Hr. apply Hnc; [lia|done].
  - destruct (decide (total_rows m <= row)%nat) as [Hge|Hlt].
    + replace row with (0 + total_rows m + (row - total_rows m))%nat at 1 by lia. rewrite L6. case_decide; [done|].
      unfold RowGroupCollection.row_ids. rewrite (RowGroupCollection.list_ids_outside (segments (row_groups m))) by done.
      apply RowGroupCollection.list_ids_outside. apply (RowGroupCollection.not_covered _ _ _ Dc); [by eapply RowGroupCollection.full_counted|].
      right. change (row_start data + length (rows data) <= row_start data + (row - total_rows m))%nat. lia.
    + destruct (RowGroupCollection.covered (contents := contents) 0 (segments (row_groups m)) row) as (i & x & Hi & Hx);
        [done|by eapply RowGroupCollection.full_length|lia|].
      exfalso. apply Hd, Exists_exists. exists x. split; [by eapply list_elem_of_lookup_2|done].
Qed.

End operations.
End DataTable.
