(* ===== verification/TableScan.v ===== *)
(** * Table scans

    Models a regular scan of a table without filters and without sampling: [RowGroup::InitializeScan]
    and [RowGroup::TemplatedScan] (src/src/storage/table/row_group.cpp), [CollectionScanState::Scan]
    (src/src/storage/table/scan_state.cpp) and [RowGroupCollection::InitializeScan] and [Scan]
    (src/src/storage/table/row_group_collection.cpp).  The scan goes through the row groups, vector
    by vector, takes from the version information which rows the transaction sees, and reads them
    from the columns, which are used through the interface [ScanColumns].

    The main result: the chunks of a scan put together are exactly the rows the transaction sees, in
    the order of the table. *)

From S2P Require Import Prelude ChunkInfo RowVersionManager SegmentTree RowGroup RowGroupCollection.

Module TableScan.

Abbreviation TransactionData := ChunkInfo.TransactionData.
Abbreviation segments := SegmentTree.segments.
Abbreviation Collection C := (RowGroupCollection.t C).
Abbreviation row_groups := RowGroupCollection.row_groups.
Abbreviation total_rows := RowGroupCollection.total_rows.
Abbreviation row_start := RowGroupCollection.row_start.
Abbreviation row_group_size := RowGroupCollection.row_group_size.
Abbreviation row_ids := RowGroupCollection.row_ids.
Abbreviation on_row_group := RowGroupCollection.on_row_group.
Abbreviation visible := RowVersionManager.visible.

(** What a scan asks of the columns: the rows of a vector. *)
Class ScanColumns (R C : Type) : Type := scan_vector : C -> nat -> list R.

Class ScanLaws {R C : Type} `{!ScanColumns R C} (contents : C -> list R) : Prop :=
  scan_vector_contents c v :
    (v * STANDARD_VECTOR_SIZE < length (contents c))%nat ->
    scan_vector c v = take STANDARD_VECTOR_SIZE (drop (v * STANDARD_VECTOR_SIZE) (contents c)).

Record CollectionScanState : Type := mkScan {
  row_group : option nat;
  vector_index : nat;
  max_row_group_row : nat;
  valid_sel : list nat;
  max_row : nat
}.

Section scan.
Context {R C : Type} {columns_of : RowGroup.Columns R C} {scan_of : ScanColumns R C}.
Implicit Types (m : Collection C) (g : RowGroup.t C) (T : TransactionData) (st : CollectionScanState).

Definition set_row_group (p : option nat) st : CollectionScanState :=
  mkScan p (vector_index st) (max_row_group_row st) (valid_sel st) (max_row st).
Definition NextVector st : CollectionScanState :=
  mkScan (row_group st) (S (vector_index st)) (max_row_group_row st) (valid_sel st) (max_row st).
Definition set_sel (sel : list nat) st : CollectionScanState :=
  mkScan (row_group st) (vector_index st) (max_row_group_row st) sel (max_row st).

(** ** A row group *)

(** [RowGroup::InitializeScan]: whether there is something to scan. *)
Definition RowGroup_InitializeScan (i : nat) st : ST (Collection C) (CollectionScanState * bool) :=
  g ← on_row_group i get;
  let max_row_group_row :=
    if (max_row st <? RowGroup.start g)%nat then 0%nat
    else Nat.min (RowGroup.count g) (max_row st - RowGroup.start g) in
  mret (mkScan (Some i) 0 max_row_group_row (valid_sel st) (max_row st), negb (max_row_group_row =? 0)%nat).

(** [ColumnData::Select]. *)
Definition select_vector (vector : list R) (sel : list nat) (count : nat) : list R :=
  omap (fun r => vector !! r) (take count sel).

(** [RowGroup::TemplatedScan] with [TABLE_SCAN_REGULAR]: the next chunk, which is empty at the end of
    the row group.  Every iteration but the last moves on to the next vector. *)
Fixpoint TemplatedScan (fuel : nat) T (i : nat) st : ST (Collection C) (CollectionScanState * list R) :=
  match fuel with
  | O => throw InternalException
  | S fuel =>
      if (max_row_group_row st <=? vector_index st * STANDARD_VECTOR_SIZE)%nat then mret (st, [])
      else
        let current_row := (vector_index st * STANDARD_VECTOR_SIZE)%nat in
        let max_count := Nat.min STANDARD_VECTOR_SIZE (max_row_group_row st - current_row) in
        '(count, sel) ← on_row_group i (RowGroup.GetSelVector T (vector_index st) (valid_sel st) max_count);
        let st := set_sel sel st in
        if (count =? 0)%nat then TemplatedScan fuel T i (NextVector st)
        else
          g ← on_row_group i get;
          let vector := scan_vector (RowGroup.columns g) (vector_index st) in
          let result := if (count =? max_count)%nat then take count vector
                        else select_vector vector sel count in
          mret (NextVector st, result)
  end.

Definition RowGroup_Scan T (i : nat) st : ST (Collection C) (CollectionScanState * list R) :=
  TemplatedScan (max_row_group_row st + 2) T i st.

(** ** The collection *)

Definition GetRootSegment : ST (Collection C) (option nat) := RowGroupCollection.GetSegmentByIndex 0.

(** The inner loop of [CollectionScanState::Scan]: the next row group with something to scan. *)
Fixpoint next_row_group (fuel : nat) (i : nat) st : ST (Collection C) CollectionScanState :=
  match fuel with
  | O => throw InternalException
  | S fuel =>
      next ← RowGroupCollection.GetNextSegment i;
      match next with
      | None => mret (set_row_group None st)
      | Some j =>
          g ← on_row_group j get;
          if (max_row st <=? RowGroup.start g)%nat then mret (set_row_group None st)
          else
            '(st, scan_row_group) ← RowGroup_InitializeScan j st;
            if scan_row_group : bool then mret st else next_row_group fuel j st
      end
  end.

(** [CollectionScanState::Scan]; every iteration moves on to a later row group. *)
Fixpoint Scan (fuel : nat) T st : ST (Collection C) (CollectionScanState * list R) :=
  match fuel with
  | O => throw InternalException
  | S fuel =>
      match row_group st with
      | None => mret (st, [])
      | Some i =>
          '(st, result) ← RowGroup_Scan T i st;
          if (0 <? length result)%nat then mret (st, result)
          else
            g ← on_row_group i get;
            if (max_row st <=? RowGroup.start g + RowGroup.count g)%nat then mret (set_row_group None st, [])
            else
              m ← get;
              st ← next_row_group (S (length (segments (row_groups m)))) i st;
              Scan fuel T st
      end
  end.

(** The loop of [RowGroupCollection::InitializeScan]. *)
Fixpoint initialize_loop (fuel : nat) (row_group : option nat) st : ST (Collection C) CollectionScanState :=
  match fuel with
  | O => throw InternalException
  | S fuel =>
      match row_group with
      | None => mret st
      | Some i =>
          '(st, scan_row_group) ← RowGroup_InitializeScan i st;
          if scan_row_group : bool then mret st
          else next ← RowGroupCollection.GetNextSegment i; initialize_loop fuel next st
      end
  end.

Definition InitializeScan : ST (Collection C) CollectionScanState :=
  row_group ← GetRootSegment;
  m ← get;
  initialize_loop (S (length (segments (row_groups m)))) row_group
    (mkScan None 0 0 (replicate STANDARD_VECTOR_SIZE 0%nat) (row_start m + total_rows m)).

(** The loop of [RowGroupCollection::Scan]; [fun] is called with these chunks one after the other.
    No chunk but the last is empty. *)
Fixpoint scan_chunks (fuel : nat) T st : ST (Collection C) (list (list R)) :=
  match fuel with
  | O => throw InternalException
  | S fuel =>
      m ← get;
      '(st, chunk) ← Scan (S (length (segments (row_groups m)))) T st;
      if (length chunk =? 0)%nat then mret []
      else chunks ← scan_chunks fuel T st; mret (chunk :: chunks)
  end.

Definition collection_Scan T : ST (Collection C) (list (list R)) :=
  st ← InitializeScan;
  m ← get;
  scan_chunks (S (total_rows m)) T st.

(** ** The rows a transaction sees *)

Context {contents : C -> list R} {column_start : C -> nat} {laws : RowGroup.ColumnLaws contents column_start}
  {scan_laws : ScanLaws contents}.
Abbreviation full_group := (RowGroup.full (contents := contents) (column_start := column_start)).
Abbreviation list_rows := (RowGroupCollection.list_rows (contents := contents)).
Abbreviation contiguous := (RowGroupCollection.contiguous (contents := contents)).
Abbreviation rows := (RowGroupCollection.rows (contents := contents)).
Abbreviation inv := (RowGroupCollection.inv (contents := contents) (column_start := column_start)).
Abbreviation SVS := STANDARD_VECTOR_SIZE.

Definition row_seen T g (r : nat) : option R :=
  if visible T (RowGroup.ids g r) then contents (RowGroup.columns g) !! r else None.

(** The rows of a row group from row [a] on. *)
Definition group_seen T g (a : nat) : list R := omap (row_seen T g) (seq a (RowGroup.count g - a)).

Definition list_seen T (l : list (RowGroup.t C)) : list R := mjoin (map (fun g => group_seen T g 0) l).

(** The rows of the table. *)
Definition rows_seen T m : list R :=
  omap (fun row => if visible T (row_ids m (row_start m + row)) then rows m !! row else None) (seq 0 (total_rows m)).

Lemma omap_selected {A} (f : nat -> option A) (P : nat -> bool) n :
  omap f (select P n) = omap (fun r => if P r then f r else None) (seq 0 n).
Proof.
  induction n as [|n IH]; [done|]. rewrite select_S, seq_S, !omap_app, IH. f_equal. simpl.
  by destruct (P n); simpl; destruct (f n).
Qed.

Lemma omap_seq_shift {A} (f : nat -> option A) a n : omap f (seq a n) = omap (fun r => f (a + r)%nat) (seq 0 n).
Proof.
  induction n as [|n IH]; [done|]. rewrite !seq_S, !omap_app, IH. f_equal.
Qed.

Lemma omap_seq_ext {A} (f f' : nat -> option A) a n :
  (forall r, (a <= r < a + n)%nat -> f r = f' r) -> omap f (seq a n) = omap f' (seq a n).
Proof.
  intros H. induction n as [|n IH]; [done|]. rewrite !seq_S, !omap_app, IH by (intros; apply H; lia). f_equal.
  simpl. by rewrite H by lia.
Qed.

Lemma omap_lookup_take {A} (l : list A) n : (n <= length l)%nat -> omap (fun r => l !! r) (seq 0 n) = take n l.
Proof.
  induction n as [|n IH]; intros Hn; [done|]. destruct (lookup_lt_is_Some_2 l n) as [x Hx]; [lia|].
  rewrite seq_S, omap_app, IH by lia. simpl. rewrite Hx. by rewrite (take_S_r _ _ _ Hx).
Qed.

Lemma group_seen_split T g a n :
  (a + n <= RowGroup.count g)%nat ->
  group_seen T g a = omap (fun r => row_seen T g (a + r)) (seq 0 n) ++ group_seen T g (a + n).
Proof.
  intros Hn. unfold group_seen. replace (RowGroup.count g - a)%nat with (n + (RowGroup.count g - (a + n)))%nat by lia.
  rewrite seq_app, omap_app. f_equal. apply omap_seq_shift.
Qed.

Lemma group_seen_end T g a : (RowGroup.count g <= a)%nat -> group_seen T g a = [].
Proof. intros Ha. unfold group_seen. by replace (RowGroup.count g - a)%nat with 0%nat by lia. Qed.

(** *** One vector *)

Lemma sel_length c T sel n : length (ChunkInfo.GetSelVector c T sel n).2 = length sel.
Proof.
  assert (forall P, length (ChunkInfo.sel_fill P sel n).2 = length sel) as Hfill.
  { intros P. unfold ChunkInfo.sel_fill. induction n as [|k IH]; [done|]. rewrite seq_S, fold_left_app. simpl.
    destruct (fold_left _ (seq 0 k) _) as [c' s]. simpl in IH. destruct (P k); simpl; [by rewrite length_insert|done]. }
  unfold ChunkInfo.GetSelVector, ChunkInfo.TemplatedGetSelVector, ChunkInfo.c_TemplatedGetSelVector,
    ChunkInfo.v_TemplatedGetSelVector.
  destruct c; repeat case_match; done || apply Hfill.
Qed.

Lemma GetSelVector_spec size T v sel g :
  RowGroup.ok (column_start := column_start) size g -> RowVersionManager.proper T -> (SVS <= length sel)%nat ->
  let max_count := RowVersionManager.rows_in (RowGroup.count g) v in
  exists g' count sel', RowGroup.GetSelVector T v sel max_count g = (g', Ok (count, sel'))
  /\ RowGroup.ok (column_start := column_start) size g' /\ RowGroup.equiv g g' /\ length sel' = length sel
  /\ ChunkInfo.selects (fun r => visible T (RowGroup.ids g (v * SVS + r))) max_count (count, sel').
Proof.
  intros Hok HT Hsel max_count. pose proof Hok as [[vinfo Hv] Hinfo _ _].
  destruct (RowGroup.GetVersionInfo_equiv size g vinfo Hok Hv) as [Hok' Heq].
  destruct (RowGroup.GetVersionInfo_spec g vinfo Hv) as (Hl & _). unfold RowGroup.GetSelVector, mbind, ST_bind.
  assert (max_count <= SVS)%nat as Hmax by (unfold max_count, RowVersionManager.rows_in; lia).
  destruct (RowGroup.GetVersionInfo g) as [g1 r1] eqn:E. cbn [fst snd] in *. subst r1. exists g1.
  assert (forall r, RowGroup.ids g r = match vinfo with Some w => RowVersionManager.row_ids w r | None => (0, ChunkInfo.NOT_DELETED_ID) end)
    as Hids by (intros r; unfold RowGroup.ids; by rewrite Hl).
  destruct vinfo as [w|]; cbn [mret].
  - destruct (RowVersionManager.GetSelVector w T v sel max_count) as [count sel'] eqn:Es. exists count, sel'.
    split; [done|]. split; [done|]. split; [done|]. split.
    + unfold RowVersionManager.GetSelVector in Es. destruct (RowVersionManager.GetChunkInfo w v) as [c|].
      * change sel' with (count, sel').2. rewrite <- Es. apply sel_length.
      * by injection Es as _ ->.
    + rewrite <- Es. eapply ChunkInfo.selects_ext; [|apply (RowVersionManager.GetSelVector_selects w (RowGroup.count g)); [by apply Hinfo|done|done|lia]].
      intros r Hr. by rewrite Hids, RowVersionManager.Fetch_row_ids.
  - exists max_count, sel. split; [done|]. split; [done|]. split; [done|]. split; [done|].
    apply (ChunkInfo.selects_const true). intros r Hr. by rewrite Hids, RowVersionManager.visible_default.
Qed.

(** What a vector yields is what the transaction sees of it. *)
Lemma vector_seen T size g v count sel :
  full_group size g ->
  let max_count := RowVersionManager.rows_in (RowGroup.count g) v in
  ChunkInfo.selects (fun r => visible T (RowGroup.ids g (v * SVS + r))) max_count (count, sel) ->
  let vector := scan_vector (RowGroup.columns g) v in
  (if (count =? max_count)%nat then take count vector else select_vector vector sel count)
  = omap (fun r => row_seen T g (v * SVS + r)) (seq 0 max_count).
Proof.
  intros [_ Hlen] max_count [Hc Hs] vector. unfold ChunkInfo.selected_rows in Hs. cbn [fst snd] in *.
  assert (forall r, (r < max_count)%nat -> vector !! r = contents (RowGroup.columns g) !! (v * SVS + r)%nat) as Hvec.
  { intros r Hr. unfold vector. unfold max_count, RowVersionManager.rows_in in Hr.
    rewrite (scan_vector_contents (ScanLaws := scan_laws)) by lia. rewrite lookup_take_lt by lia. by rewrite lookup_drop. }
  assert (omap (fun r => vector !! r) (select (fun r => visible T (RowGroup.ids g (v * SVS + r))) max_count)
          = omap (fun r => row_seen T g (v * SVS + r)) (seq 0 max_count)) as Ho.
  { rewrite omap_selected. apply omap_seq_ext. intros r Hr. unfold row_seen.
    destruct (visible T (RowGroup.ids g (v * SVS + r))); [|done]. apply Hvec. lia. }
  rewrite <- Ho, <- Hs. destruct (Nat.eqb_spec count max_count) as [->|_]; [|done].
  destruct (decide (max_count = 0%nat)) as [-> |Hne]; [done|]. unfold max_count, RowVersionManager.rows_in in Hne.
  rewrite omap_lookup_take; [done|]. unfold vector. rewrite (scan_vector_contents (ScanLaws := scan_laws)) by lia. rewrite length_take, length_drop, Hlen.
  unfold max_count, RowVersionManager.rows_in. lia.
Qed.

Lemma vector_length T size g v n :
  full_group size g -> (v * SVS + n <= RowGroup.count g)%nat ->
  length (omap (fun r => row_seen T g (v * SVS + r)) (seq 0 n))
  = length (select (fun r => visible T (RowGroup.ids g (v * SVS + r))) n).
Proof.
  intros [_ Hlen] Hn. induction n as [|n IH]; [done|].
  rewrite seq_S, omap_app, select_S, !length_app, IH by lia. f_equal. simpl. unfold row_seen.
  destruct (visible T _); [|done]. destruct (lookup_lt_is_Some_2 (contents (RowGroup.columns g)) (v * SVS + n)) as [x ->]; [lia|done].
Qed.

(** ** The scan *)

(** Row groups that differ at most in whether their deletes are loaded. *)
Abbreviation viewed := (Forall2 (RowGroup.equiv (C := C))).

Lemma viewed_refl l : viewed l l.
Proof. by apply Forall_Forall2_diag, Forall_true. Qed.

Lemma viewed_trans l1 l2 l3 : viewed l1 l2 -> viewed l2 l3 -> viewed l1 l3.
Proof.
  intros H. revert l3. induction H as [|g1 g2 l1 l2 [(A1 & A2 & A3) A4] _ IH]; intros l3 H3.
  - by apply Forall2_nil_inv_l in H3 as ->.
  - apply Forall2_cons_inv_l in H3 as (g3 & l3' & [(B1 & B2 & B3) B4] & H3 & ->). constructor; [|by apply IH].
    split; [by split; [congruence|split; congruence]|]. intros r. by rewrite B4.
Qed.

Lemma equiv_seen T g g' a : RowGroup.equiv g g' -> group_seen T g' a = group_seen T g a.
Proof.
  intros [(_ & H2 & H3) H4]. unfold group_seen. rewrite H2. apply omap_seq_ext. intros r _. unfold row_seen. by rewrite H3, H4.
Qed.

Lemma viewed_seen T l l' : viewed l l' -> list_seen T l' = list_seen T l.
Proof.
  intros H. unfold list_seen. induction H as [|g g' l l' Hg _ IH]; [done|]. simpl. by rewrite IH, (equiv_seen T g g').
Qed.

Lemma viewed_rows l l' : viewed l l' -> list_rows l' = list_rows l /\ forall s, contiguous s l -> contiguous s l'.
Proof.
  intros H. induction H as [|g g' l l' [(H1 & _ & H3) _] _ [IH1 IH2]]; [done|].
  rewrite !(RowGroupCollection.list_rows_cons (contents := contents)). simpl. unfold RowGroupCollection.group_rows.
  rewrite H1, H3, IH1. split; [done|]. intros s [Hs Hc]. split; [done|by apply IH2].
Qed.

Lemma viewed_insert l i g g' : l !! i = Some g -> RowGroup.equiv g g' -> viewed l (<[i := g']> l).
Proof.
  intros Hi Hg. rewrite <- (list_insert_id l i g Hi) at 1. apply Forall2_insert; [apply viewed_refl|done].
Qed.

(** What is left to scan, and the states in between. *)
Definition remaining T (l : list (RowGroup.t C)) st : list R :=
  match row_group st with
  | None => []
  | Some i => match l !! i with
              | None => []
              | Some g => group_seen T g (vector_index st * SVS) ++ list_seen T (drop (S i) l)
              end
  end.

Lemma viewed_remaining T l l' st : viewed l l' -> remaining T l' st = remaining T l st.
Proof.
  intros Hv. unfold remaining. destruct (row_group st) as [i|]; [|done]. destruct (l !! i) as [g|] eqn:Hi.
  - destruct (Forall2_lookup_l _ _ _ _ _ Hv Hi) as (g' & -> & Hg). rewrite (equiv_seen T g g') by done.
    f_equal. apply viewed_seen. by apply Forall2_drop.
  - apply lookup_ge_None_1 in Hi. rewrite lookup_ge_None_2; [done|]. by rewrite <- (Forall2_length _ _ _ Hv).
Qed.

Record scanning (size : nat) (l : list (RowGroup.t C)) m st (k : nat) : Prop := {
  s_tree : RowGroupCollection.tree_is m l k;
  s_full : Forall (full_group size) l;
  s_contiguous : contiguous (row_start m) l;
  s_max : max_row st = (row_start m + length (list_rows l))%nat;
  s_sel : length (valid_sel st) = SVS
}.

Definition at_group (l : list (RowGroup.t C)) st (k i : nat) g : Prop :=
  row_group st = Some i /\ (i < k)%nat /\ l !! i = Some g /\ max_row_group_row st = RowGroup.count g.

Definition positioned (l : list (RowGroup.t C)) st (k : nat) : Prop :=
  row_group st = None \/ exists i g, at_group l st k i g.

(** A step goes on from [l] and [m]. *)
Definition goes_on (size : nat) (l : list (RowGroup.t C)) m k l' m' st' k' : Prop :=
  viewed l l' /\ RowGroupCollection.frame m m' /\ scanning size l' m' st' k' /\ (k <= k')%nat.

Lemma goes_on_trans size l m k l1 m1 st1 k1 l2 m2 st2 k2 :
  goes_on size l m k l1 m1 st1 k1 -> goes_on size l1 m1 k1 l2 m2 st2 k2 -> goes_on size l m k l2 m2 st2 k2.
Proof.
  intros (A1 & A2 & A3 & A4) (B1 & B2 & B3 & B4). split; [by eapply viewed_trans|].
  split; [by eapply RowGroupCollection.frame_trans|]. split; [done|lia].
Qed.

(** The state of the scan may change as long as the bounds stay. *)
Lemma scanning_state size l m st st' k :
  scanning size l m st k -> max_row st' = max_row st -> length (valid_sel st') = length (valid_sel st) -> scanning size l m st' k.
Proof. intros [H1 H2 H3 H4 H5] E1 E2. split; [done|done|done|by rewrite E1|by rewrite E2]. Qed.

(** A group is replaced by one that shows the same. *)
Lemma scanning_group size l m st k {A} i g (f : ST (RowGroup.t C) A) :
  scanning size l m st k -> (i < k)%nat -> l !! i = Some g ->
  RowGroup.equiv g (f g).1 -> RowGroup.ok (column_start := column_start) size (f g).1 ->
  exists m', on_row_group i f m = (m', (f g).2) /\ goes_on size l m k (<[i := (f g).1]> l) m' st k.
Proof.
  intros [H1 H2 H3 H4 H5] Hik Hi Heq Hok. pose proof Heq as [(E1 & E2 & E3) _].
  destruct (RowGroupCollection.on_row_group_spec m l k i g f H1 Hi Hik E1) as (m' & E & (F1 & F2 & F3 & F4) & Ht).
  pose proof (viewed_insert l i g _ Hi Heq) as Hv. destruct (viewed_rows _ _ Hv) as [Hr Hc].
  exists m'. split; [done|]. split; [done|]. split; [done|]. split; [|done]. split; [done| |by rewrite F3; apply Hc|by rewrite F3, Hr|done].
  apply Forall_insert; [done|]. split; [done|]. destruct (Forall_lookup_1 _ _ _ _ H2 Hi) as [_ Hl]. by rewrite E3, E2.
Qed.

Lemma scanning_read size l m st k i g :
  scanning size l m st k -> (i < k)%nat -> l !! i = Some g ->
  exists m', on_row_group i get m = (m', Ok g) /\ goes_on size l m k l m' st k.
Proof.
  intros Hs Hik Hi. destruct (Forall_lookup_1 _ _ _ _ (s_full _ _ _ _ _ Hs) Hi) as [Hok _].
  destruct (scanning_group size l m st k i g get Hs Hik Hi) as (m' & E & Hg); [done|done|].
  exists m'. split; [done|]. simpl in Hg. by rewrite list_insert_id in Hg.
Qed.

(** One vector after the other. *)
Lemma TemplatedScan_spec size T i fuel : RowVersionManager.proper T -> forall l m st k g,
  scanning size l m st k -> at_group l st k i g ->
  (RowGroup.count g - vector_index st * SVS < fuel)%nat ->
  exists l' m' st' k' g' chunk, TemplatedScan fuel T i st m = (m', Ok (st', chunk))
  /\ goes_on size l m k l' m' st' k' /\ at_group l' st' k' i g' /\ RowGroup.equiv g g'
  /\ group_seen T g (vector_index st * SVS) = chunk ++ group_seen T g (vector_index st' * SVS)
  /\ (length chunk <= SVS)%nat
  /\ (chunk = [] -> (RowGroup.count g <= vector_index st' * SVS)%nat).
Proof.
  intros HT. pose proof SVS_pos as HS. induction fuel as [|fuel IH]; intros l m st k g Hs Hat Hfuel; [lia|].
  pose proof Hat as (Hp & Hik & Hi & Hmax). pose proof Hs as [Hs1 Hs2 Hs3 Hs4 Hs5].
  cbn [TemplatedScan]. rewrite Hmax.
  destruct (Nat.leb_spec (RowGroup.count g) (vector_index st * SVS)) as [Hle|Hlt].
  { exists l, m, st, k, g, []. split; [done|]. split; [split; [apply viewed_refl|split; [done|split; [done|lia]]]|].
    split; [done|]. split; [done|]. split; [done|]. split; [simpl; lia|done]. }
  pose proof (Forall_lookup_1 _ _ _ _ Hs2 Hi) as Hfull. pose proof Hfull as [Hok Hlen].
  change (Nat.min SVS (RowGroup.count g - vector_index st * SVS)) with (RowVersionManager.rows_in (RowGroup.count g) (vector_index st)).
  set (mc := RowVersionManager.rows_in (RowGroup.count g) (vector_index st)).
  destruct (GetSelVector_spec size T (vector_index st) (valid_sel st) g Hok HT) as (g1 & count & sel & E & Hok1 & Heq1 & Hsel & Hsels);
    [lia|]. fold mc in E, Hsels.
  destruct (scanning_group size l m st k i g (RowGroup.GetSelVector T (vector_index st) (valid_sel st) mc) Hs Hik Hi)
    as (m1 & E1 & Hg1); [by rewrite E|by rewrite E|]. rewrite E in E1, Hg1. cbn [fst snd] in *.
  rewrite (ST_bind_Ok _ _ _ _ _ E1). set (l1 := <[i := g1]> l) in *.
  assert (l1 !! i = Some g1) as Hi1 by (apply list_lookup_insert_eq; by eapply lookup_lt_Some).
  pose proof (vector_seen T size g (vector_index st) count sel Hfull Hsels) as Hvec. fold mc in Hvec.
  assert (mc <= SVS /\ vector_index st * SVS + mc <= RowGroup.count g
          /\ (vector_index st * SVS + mc = S (vector_index st) * SVS \/ RowGroup.count g = vector_index st * SVS + mc))%nat as (M1 & M2 & M3).
  { unfold mc, RowVersionManager.rows_in. lia. }
  pose proof (group_seen_split T g (vector_index st * SVS) mc M2) as Hsplit.
  assert (group_seen T g (vector_index st * SVS + mc) = group_seen T g (S (vector_index st) * SVS)) as Hnext.
  { destruct M3 as [->|M3]; [done|]. rewrite !group_seen_end; [done| |lia]. unfold mc, RowVersionManager.rows_in in M3. lia. }
  rewrite Hnext in Hsplit. pose proof Hsels as [Hc _]. cbn [fst] in Hc.
  pose proof (proj1 (proj2 (proj2 Hg1))) as Hs1'. 
  destruct (Nat.eqb_spec count 0) as [H0|H0].
  - assert (omap (fun r => row_seen T g (vector_index st * SVS + r)) (seq 0 mc) = []) as Hnil.
    { rewrite <- Hvec, H0. unfold select_vector. rewrite !take_0. by destruct (0 =? mc)%nat. }
    rewrite Hnil in Hsplit. simpl in Hsplit.
    destruct (IH l1 m1 (NextVector (set_sel sel st)) k g1) as (l' & m' & st' & k' & g' & chunk & E' & G & A' & Q & Hseen & Hl & He).
    + apply (scanning_state _ _ _ st); [done|done|]. exact Hsel.
    + split; [done|]. split; [done|]. split; [done|]. cbn. destruct Heq1 as [(_ & -> & _) _]. done.
    + cbn. destruct Heq1 as [(_ & -> & _) _]. lia.
    + exists l', m', st', k', g', chunk. split; [exact E'|]. split.
      { destruct Hg1 as (A1 & A2 & A3 & A4), G as (B1 & B2 & B3 & B4). split; [by eapply viewed_trans|].
        split; [by eapply RowGroupCollection.frame_trans|]. split; [done|lia]. }
      split; [done|]. split.
      { destruct Heq1 as [(A1 & A2 & A3) A4], Q as [(B1 & B2 & B3) B4]. split; [by split; [congruence|split; congruence]|].
        intros r. by rewrite B4. }
      rewrite !(equiv_seen T g g1) in Hseen by done. split; [rewrite Hsplit; exact Hseen|]. split; [done|].
      destruct Heq1 as [(_ & <- & _) _]. done.
  - destruct (scanning_read size l1 m1 st k i g1 Hs1' Hik Hi1) as (m2 & E2 & Hg2).
    rewrite (ST_bind_Ok _ _ _ _ _ E2). cbv zeta. cbn [vector_index set_sel].
    pose proof Heq1 as [(Q1 & Q2 & Q3) Q4]. rewrite Q3, Hvec.
    exists l1, m2, (NextVector (set_sel sel st)), k, g1. eexists. split; [done|]. split.
    { destruct (goes_on_trans _ _ _ _ _ _ _ _ _ _ _ _ Hg1 Hg2) as (A1 & A2 & A3 & A4). split; [done|]. split; [done|].
      split; [|done]. apply (scanning_state _ _ _ st); [done|done|exact Hsel]. }
    split; [split; [done|]; split; [done|]; split; [done|]; cbn; by rewrite Q2|]. split; [done|].
    split; [exact Hsplit|]. rewrite <- Hvec. split.
    + rewrite Hvec, (vector_length T size g _ _ Hfull M2). etransitivity; [apply select_length_le|done].
    + rewrite Hvec. intros Hnil. exfalso. apply H0. rewrite Hc, <- (vector_length T size g _ _ Hfull M2). by rewrite Hnil.
Qed.

(** *** The row groups *)

Lemma list_seen_cons T g l : list_seen T (g :: l) = group_seen T g 0 ++ list_seen T l.
Proof. done. Qed.

Lemma list_seen_empty T size l : Forall (full_group size) l -> list_rows l = [] -> list_seen T l = [].
Proof.
  induction l as [|g l IH]; intros Hf Hr; [done|]. apply Forall_cons_1 in Hf as [[_ Hl] Hf].
  rewrite (RowGroupCollection.list_rows_cons (contents := contents)) in Hr. apply app_eq_nil in Hr as [Hg Hr].
  rewrite list_seen_cons, IH, app_nil_r by done. apply group_seen_end.
  unfold RowGroupCollection.group_rows in Hg. rewrite Hg in Hl. simpl in Hl. lia.
Qed.

(** No rows from a row on that is past the end. *)
Lemma list_seen_past T size s l j :
  Forall (full_group size) l -> contiguous s l -> (s + length (list_rows l) <= s + length (list_rows (take j l)))%nat ->
  list_seen T (drop j l) = [].
Proof.
  intros Hf Hc Hle. apply (list_seen_empty T size); [by apply Forall_drop|]. apply nil_length_inv.
  rewrite <- (take_drop j l), (RowGroupCollection.list_rows_app (contents := contents)), length_app in Hle at 1. lia.
Qed.

Lemma group_position s l i g :
  contiguous s l -> l !! i = Some g ->
  RowGroup.start g = (s + length (list_rows (take i l)))%nat
  /\ (length (list_rows (take (S i) l)) = length (list_rows (take i l)) + length (RowGroupCollection.group_rows (contents := contents) g))%nat.
Proof.
  intros Hc Hi. rewrite (take_S_r _ _ _ Hi), (RowGroupCollection.list_rows_app (contents := contents)),
    (RowGroupCollection.list_rows_one (contents := contents)), length_app. split; [|done].
  rewrite <- (take_drop_middle _ _ _ Hi) in Hc. apply (RowGroupCollection.contiguous_app (contents := contents)) in Hc as [_ [Hc _]]. done.
Qed.

Lemma RowGroup_InitializeScan_spec size l m st k i g :
  scanning size l m st k -> (i < k)%nat -> l !! i = Some g ->
  let st' := mkScan (Some i) 0 (RowGroup.count g) (valid_sel st) (max_row st) in
  exists m', RowGroup_InitializeScan i st m = (m', Ok (st', negb (RowGroup.count g =? 0)%nat))
  /\ goes_on size l m k l m' st' k /\ at_group l st' k i g.
Proof.
  intros Hs Hik Hi st'. destruct (scanning_read size l m st k i g Hs Hik Hi) as (m' & E & G1 & G2 & G3 & G4).
  exists m'. unfold RowGroup_InitializeScan. rewrite (ST_bind_Ok _ _ _ _ _ E). destruct Hs as [_ Hf Hc Hm _].
  destruct (Forall_lookup_1 _ _ _ _ Hf Hi) as [_ Hl].
  destruct (RowGroupCollection.contiguous_bounds (contents := contents) _ _ g Hc) as [_ Hb]; [by eapply list_elem_of_lookup_2|].
  unfold RowGroupCollection.group_rows in Hb. rewrite Hl in Hb. cbv zeta. rewrite Hm.
  destruct (Nat.ltb_spec (row_start m + length (list_rows l)) (RowGroup.start g)); [lia|]. rewrite Nat.min_l by lia.
  rewrite <- Hm. split; [done|]. split; [|done]. split; [done|]. split; [done|]. split; [|done].
  by apply (scanning_state _ _ _ st).
Qed.

Lemma scan_next size l m st k i :
  scanning size l m st k -> (i < k)%nat ->
  exists m' k', RowGroupCollection.GetNextSegment i m = (m', Ok (if (S i <? length l)%nat then Some (S i) else None))
  /\ goes_on size l m k l m' st k' /\ ((S i < length l)%nat -> (S i < k')%nat).
Proof.
  intros [H1 H2 H3 H4 H5] Hik.
  destruct (RowGroupCollection.table_GetNextSegment_spec m l k i H1 Hik) as (m' & k' & E & (F1 & F2 & F3 & F4) & Ht & Hk & Hlt).
  exists m', k'. split; [done|]. split; [|done]. split; [apply viewed_refl|]. split; [done|]. split; [|done].
  split; [done|done|by rewrite F3|by rewrite F3|done].
Qed.

(** The state at the start of a row group. *)
Lemma remaining_start T l st k i g :
  at_group l st k i g -> vector_index st = 0%nat -> remaining T l st = list_seen T (drop i l).
Proof.
  intros (Hp & _ & Hi & _) Hv. unfold remaining. rewrite Hp, Hi, Hv. rewrite (drop_S _ _ _ Hi). done.
Qed.

Lemma skip_empty T l i g : l !! i = Some g -> RowGroup.count g = 0%nat -> list_seen T (drop i l) = list_seen T (drop (S i) l).
Proof. intros Hi Hc. rewrite (drop_S _ _ _ Hi). rewrite list_seen_cons. by rewrite group_seen_end by lia. Qed.

Definition found (size : nat) T l m k (i : nat) (f : ST (Collection C) CollectionScanState) : Prop :=
  exists m' st' k', f m = (m', Ok st') /\ goes_on size l m k l m' st' k' /\ positioned l st' k'
  /\ remaining T l st' = list_seen T (drop i l) /\ forall j, row_group st' = Some j -> (i <= j)%nat.

Lemma found_after size T l m k i st m1 st1 k1 f :
  scanning size l m st k -> goes_on size l m k l m1 st1 k1 -> found size T l m1 k1 i f ->
  exists m' st' k', f m1 = (m', Ok st') /\ goes_on size l m k l m' st' k' /\ positioned l st' k'
  /\ remaining T l st' = list_seen T (drop i l) /\ forall j, row_group st' = Some j -> (i <= j)%nat.
Proof.
  intros Hs Hg (m' & st' & k' & E & Hg' & H). exists m', st', k'. split; [done|]. split; [by eapply goes_on_trans|done].
Qed.

Lemma next_row_group_spec size T l fuel : forall m st k i,
  scanning size l m st k -> (i < k)%nat -> (length l - i <= fuel)%nat ->
  found size T l m k (S i) (next_row_group fuel i st).
Proof.
  induction fuel as [|fuel IH]; intros m st k i Hs Hik Hfuel.
  { pose proof (RowGroupCollection.tree_is_le _ _ _ (s_tree _ _ _ _ _ Hs)). lia. }
  unfold found. cbn [next_row_group].
  destruct (scan_next size l m st k i Hs Hik) as (m1 & k1 & E1 & G1 & Hk1). rewrite (ST_bind_Ok _ _ _ _ _ E1).
  pose proof (proj1 (proj2 (proj2 G1))) as Hs1.
  assert (forall m k, scanning size l m st k -> list_seen T (drop (S i) l) = [] ->
    exists m' st' k', (mret (set_row_group None st) : ST (Collection C) _) m = (m', Ok st') /\ goes_on size l m k l m' st' k'
    /\ positioned l st' k' /\ remaining T l st' = list_seen T (drop (S i) l) /\ forall j, row_group st' = Some j -> (S i <= j)%nat) as Hend.
  { intros m0 k0 Hs0 Hnil. exists m0, (set_row_group None st), k0. split; [done|]. split.
    - split; [apply viewed_refl|]. split; [done|]. split; [by apply (scanning_state _ _ _ st)|done].
    - split; [by left|]. split; [by rewrite Hnil|done]. }
  destruct (Nat.ltb_spec (S i) (length l)) as [Hlt|Hge].
  2:{ destruct (Hend m1 k1 Hs1) as (m' & st' & k' & E & G & H); [by rewrite drop_ge|].
      exists m', st', k'. split; [done|]. split; [by eapply goes_on_trans|done]. }
  specialize (Hk1 Hlt). destruct (lookup_lt_is_Some_2 _ _ Hlt) as [g Hg].
  destruct (scanning_read size l m1 st k1 (S i) g Hs1 Hk1 Hg) as (m2 & E2 & G2). rewrite (ST_bind_Ok _ _ _ _ _ E2).
  pose proof (proj1 (proj2 (proj2 G2))) as Hs2. pose proof (goes_on_trans _ _ _ _ _ _ _ _ _ _ _ _ G1 G2) as G12.
  destruct Hs2 as [S1 S2 S3 S4 S5] eqn:EHs2. clear EHs2.
  destruct (Nat.leb_spec (max_row st) (RowGroup.start g)) as [Hle|Hlt'].
  { destruct (Hend m2 k1 Hs2) as (m' & st' & k' & E & G & H).
    - apply (list_seen_past T size (row_start m2)); [done|done|]. destruct (group_position _ _ _ _ S3 Hg) as [Hst _]. lia.
    - exists m', st', k'. split; [done|]. split; [by eapply goes_on_trans|done]. }
  destruct (RowGroup_InitializeScan_spec size l m2 st k1 (S i) g Hs2 Hk1 Hg) as (m3 & E3 & G3 & A3).
  rewrite (ST_bind_Ok _ _ _ _ _ E3). pose proof (goes_on_trans _ _ _ _ _ _ _ _ _ _ _ _ G12 G3) as G13.
  destruct (Nat.eqb_spec (RowGroup.count g) 0) as [H0|H0]; simpl.
  - pose proof (proj1 (proj2 (proj2 G3))) as Hs3.
    destruct (IH m3 _ k1 (S i) Hs3 Hk1) as (m' & st' & k' & E & G & P & Hr & Hj); [lia|].
    exists m', st', k'. split; [exact E|]. split; [by eapply goes_on_trans|]. split; [done|].
    rewrite (skip_empty T l (S i) g Hg H0). split; [done|]. intros j Hj'. specialize (Hj j Hj'). lia.
  - eexists m3, _, k1. split; [done|]. split; [done|]. split; [right; by exists (S i), g|].
    split; [by apply (remaining_start T l _ k1 (S i) g)|]. by intros j [= <-].
Qed.

Lemma initialize_loop_spec size T l fuel : forall m st k i,
  scanning size l m st k -> row_group st = None \/ (0 < i)%nat -> (i < k)%nat -> (length l - i < fuel)%nat ->
  found size T l m k i (initialize_loop fuel (Some i) st).
Proof.
  induction fuel as [|fuel IH]; intros m st k i Hs Hn Hik Hfuel; [lia|]. unfold found. cbn [initialize_loop].
  pose proof (RowGroupCollection.tree_is_le _ _ _ (s_tree _ _ _ _ _ Hs)) as Hkl.
  destruct (lookup_lt_is_Some_2 l i) as [g Hg]; [lia|].
  destruct (RowGroup_InitializeScan_spec size l m st k i g Hs Hik Hg) as (m1 & E1 & G1 & A1).
  rewrite (ST_bind_Ok _ _ _ _ _ E1). pose proof (proj1 (proj2 (proj2 G1))) as Hs1.
  destruct (Nat.eqb_spec (RowGroup.count g) 0) as [H0|H0]; simpl.
  2:{ eexists m1, _, k. split; [done|]. split; [done|]. split; [right; by exists i, g|].
      split; [by apply (remaining_start T l _ k i g)|]. by intros j [= <-]. }
  set (st1 := mkScan _ _ _ _ _) in *. rewrite (skip_empty T l i g Hg H0).
  destruct (scan_next size l m1 st1 k i Hs1 Hik) as (m2 & k2 & E2 & G2 & Hk2). rewrite (ST_bind_Ok _ _ _ _ _ E2).
  pose proof (goes_on_trans _ _ _ _ _ _ _ _ _ _ _ _ G1 G2) as G12. pose proof (proj1 (proj2 (proj2 G2))) as Hs2.
  destruct (Nat.ltb_spec (S i) (length l)) as [Hlt|Hge].
  - destruct (IH m2 st1 k2 (S i) Hs2) as (m' & st' & k' & E & G & P & Hr & Hj); [by right; lia|by apply Hk2|lia|].
    exists m', st', k'. split; [exact E|]. split; [by eapply goes_on_trans|]. split; [done|]. split; [done|].
    intros j Hj'. specialize (Hj j Hj'). lia.
  - destruct fuel as [|fuel]; [lia|]. cbn [initialize_loop]. exists m2, st1, k2. split; [done|]. split; [done|].
    split.
    { right. exists i, g. destruct A1 as (A1 & A2 & A3 & A4). destruct G2 as (_ & _ & _ & ?). split; [done|]. split; [lia|done]. }
    split; [|by intros j [= <-]]. rewrite (remaining_start T l st1 k i g A1) by done. by apply (skip_empty T l i g).
Qed.

(** *** The chunks *)

Lemma Scan_spec size T fuel : RowVersionManager.proper T -> forall l m st k,
  scanning size l m st k -> positioned l st k ->
  (forall i, row_group st = Some i -> (length l - i < fuel)%nat) -> (0 < fuel)%nat ->
  exists l' m' st' k' chunk, Scan fuel T st m = (m', Ok (st', chunk))
  /\ goes_on size l m k l' m' st' k' /\ positioned l' st' k'
  /\ remaining T l st = chunk ++ remaining T l' st' /\ (length chunk <= SVS)%nat
  /\ (chunk = [] -> remaining T l st = []).
Proof.
  intros HT. induction fuel as [|fuel IH]; intros l m st k Hs Hpos Hfuel H0; [lia|]. cbn [Scan].
  assert (goes_on size l m k l m st k) as Grefl by (split; [apply viewed_refl|split; [done|split; [done|lia]]]).
  destruct (row_group st) as [i|] eqn:Ei.
  2:{ assert (remaining T l st = []) as Hnil by (unfold remaining; by rewrite Ei).
      exists l, m, st, k, []. split; [done|]. split; [done|]. split; [done|]. split; [done|]. split; [simpl; lia|done]. }
  destruct Hpos as [Hpos|(i' & g & Hat)]; [congruence|].
  assert (i' = i) as -> by (destruct Hat as (Hat & _); congruence). specialize (Hfuel i eq_refl).
  unfold RowGroup_Scan.
  destruct (TemplatedScan_spec size T i (max_row_group_row st + 2) HT l m st k g Hs Hat)
    as (l1 & m1 & st1 & k1 & g1 & chunk & E1 & G1 & A1 & Q1 & Hseen & Hlen & Hend).
  { destruct Hat as (_ & _ & _ & ->). lia. }
  rewrite (ST_bind_Ok _ _ _ _ _ E1). pose proof G1 as (V1 & F1 & Hs1 & K1).
  destruct Hat as (_ & Hik & Hi & Hmax). pose proof A1 as (P1 & Hik1 & Hi1 & Hmax1).
  assert (remaining T l st = chunk ++ remaining T l1 st1) as Hrem.
  { rewrite (viewed_remaining T l l1 st1 V1). unfold remaining. rewrite Ei, P1, Hi, Hseen. by rewrite app_assoc. }
  destruct (Nat.ltb_spec 0 (length chunk)) as [Hc|Hc].
  { exists l1, m1, st1, k1, chunk. split; [done|]. split; [done|]. split; [right; by exists i, g1|]. split; [done|].
    split; [done|]. intros ->. simpl in Hc. lia. }
  assert (chunk = []) as -> by (apply nil_length_inv; lia). simpl in Hrem. specialize (Hend eq_refl).
  destruct Q1 as [(Q1 & Q2 & Q3) Q4].
  assert (remaining T l1 st1 = list_seen T (drop (S i) l1)) as Hrem1.
  { unfold remaining. rewrite P1, Hi1, group_seen_end by (by rewrite Q2). done. }
  destruct (scanning_read size l1 m1 st1 k1 i g1 Hs1 Hik1 Hi1) as (m2 & E2 & G2). rewrite (ST_bind_Ok _ _ _ _ _ E2).
  pose proof (goes_on_trans _ _ _ _ _ _ _ _ _ _ _ _ G1 G2) as G12. pose proof (proj1 (proj2 (proj2 G2))) as Hs2.
  pose proof Hs2 as [T2 Hf2 Hc2 Hm2 _].
  destruct (group_position _ _ _ _ Hc2 Hi1) as [Hst Hnext]. destruct (Forall_lookup_1 _ _ _ _ Hf2 Hi1) as [_ Hl1].
  unfold RowGroupCollection.group_rows in Hnext. rewrite Hl1 in Hnext.
  destruct (Nat.leb_spec (max_row st1) (RowGroup.start g1 + RowGroup.count g1)) as [Hle|Hlt].
  { exists l1, m2, (set_row_group None st1), k1, []. split; [done|]. split.
    { destruct G12 as (B1 & B2 & B3 & B4). split; [done|]. split; [done|]. split; [by apply (scanning_state _ _ _ st1)|done]. }
    split; [by left|]. assert (remaining T l st = []) as ->; [|by split; [|split; [simpl; lia|]]].
    rewrite Hrem, Hrem1. apply (list_seen_past T size (row_start m2)); [done|done|]. lia. }
  rewrite (ST_bind_Ok _ get m2 m2 m2) by done. pose proof T2 as (_ & -> & _).
  destruct (next_row_group_spec size T l1 (S (length l1)) m2 st1 k1 i Hs2 Hik1) as (m3 & st3 & k3 & E3 & G3 & P3 & Hr3 & Hj3); [lia|].
  rewrite (ST_bind_Ok _ _ _ _ _ E3). pose proof (proj1 (proj2 (proj2 G3))) as Hs3.
  pose proof (Forall2_length _ _ _ V1) as Hll.
  destruct (IH l1 m3 st3 k3 Hs3 P3) as (l' & m' & st' & k' & chunk & E & G & P & Hr & Hl & He).
  { apply lookup_lt_Some in Hi1. intros j Hj. specialize (Hj3 j Hj). lia. }
  { apply lookup_lt_Some in Hi1. lia. }
  exists l', m', st', k', chunk. split; [exact E|].
  split; [eapply goes_on_trans; [exact G12|]; by eapply goes_on_trans|]. split; [done|].
  rewrite Hrem, Hrem1, <- Hr3. done.
Qed.

Lemma scan_chunks_spec size T fuel : RowVersionManager.proper T -> forall l m st k,
  scanning size l m st k -> positioned l st k -> (length (remaining T l st) < fuel)%nat ->
  exists l' m' st' k' chunks, scan_chunks fuel T st m = (m', Ok chunks)
  /\ goes_on size l m k l' m' st' k'
  /\ mjoin chunks = remaining T l st /\ Forall (fun chunk => 0 < length chunk <= SVS)%nat chunks.
Proof.
  intros HT. induction fuel as [|fuel IH]; intros l m st k Hs Hpos Hfuel; [lia|]. cbn [scan_chunks].
  rewrite (ST_bind_Ok _ get m m m) by done. pose proof (s_tree _ _ _ _ _ Hs) as (_ & -> & _).
  destruct (Scan_spec size T (S (length l)) HT l m st k Hs Hpos) as (l1 & m1 & st1 & k1 & chunk & E1 & G1 & P1 & Hr & Hl & He);
    [intros i _; lia|lia|].
  rewrite (ST_bind_Ok _ _ _ _ _ E1). pose proof (proj1 (proj2 (proj2 G1))) as Hs1.
  destruct (Nat.eqb_spec (length chunk) 0) as [H0|H0].
  - exists l1, m1, st1, k1, []. split; [done|]. split; [done|]. rewrite He by (by apply nil_length_inv). done.
  - rewrite Hr, length_app in Hfuel.
    destruct (IH l1 m1 st1 k1 Hs1 P1) as (l' & m' & st' & k' & chunks & E & G & Hj & Hf); [lia|].
    rewrite (ST_bind_Ok _ _ _ _ _ E). exists l', m', st', k', (chunk :: chunks). split; [done|].
    split; [by eapply goes_on_trans|]. split; [simpl; by rewrite Hj, Hr|]. constructor; [lia|done].
Qed.

(** What the row groups show is what the table shows. *)
Lemma list_seen_rows T size s l :
  Forall (full_group size) l -> contiguous s l ->
  list_seen T l = omap (fun row => if visible T (RowGroupCollection.list_ids l (s + row)) then list_rows l !! row else None)
                    (seq 0 (length (list_rows l))).
Proof.
  revert s. induction l as [|g l IH]; intros s Hf Hc; [done|]. destruct Hc as [Hs Hc]. apply Forall_cons_1 in Hf as [[_ Hl] Hf].
  rewrite list_seen_cons, (RowGroupCollection.list_rows_cons (contents := contents)), length_app, seq_app, omap_app.
  unfold RowGroupCollection.group_rows in *. rewrite Hl in *. f_equal.
  - unfold group_seen. rewrite Nat.sub_0_r. apply omap_seq_ext. intros r Hr. unfold row_seen.
    rewrite (RowGroupCollection.list_ids_cons g l (s + r) _ _ Hs eq_refl). rewrite decide_True by lia.
    replace (s + r - s)%nat with r by lia. case_match; [|done]. by rewrite lookup_app_l by lia.
  - rewrite (IH (s + RowGroup.count g)%nat Hf Hc), (omap_seq_shift _ (0 + RowGroup.count g)). apply omap_seq_ext. intros r Hr.
    change (0 + RowGroup.count g)%nat with (RowGroup.count g).
    rewrite (RowGroupCollection.list_ids_cons g l (s + (RowGroup.count g + r)) _ _ Hs eq_refl). rewrite decide_False by lia.
    rewrite Nat.add_assoc. case_match; [|done]. rewrite lookup_app_r by lia. by rewrite Hl, Nat.add_comm, Nat.add_sub.
Qed.

Lemma viewed_ids l l' row : viewed l l' -> RowGroupCollection.list_ids l' row = RowGroupCollection.list_ids l row.
Proof.
  intros H. induction H as [|g g' l l' [(S1 & S2 & S3) Hg] _ IH]; [done|].
  rewrite (RowGroupCollection.list_ids_cons g' l' row _ _ S1 S2), (RowGroupCollection.list_ids_cons g l row _ _ eq_refl eq_refl), IH.
  case_decide; [apply Hg|done].
Qed.

Lemma length_omap_seq {A} (f : nat -> option A) a n : (length (omap f (seq a n)) <= n)%nat.
Proof.
  induction n as [|n IH]; [simpl; lia|]. rewrite seq_S, omap_app, length_app. simpl. destruct (f (a + n)%nat); simpl; lia.
Qed.

Lemma root_spec m l k :
  RowGroupCollection.tree_is m l k ->
  exists m' k', GetRootSegment m = (m', Ok (match l with [] => None | _ => Some 0%nat end))
  /\ RowGroupCollection.frame m m' /\ RowGroupCollection.tree_is m' l k' /\ (0 < length l -> 0 < k')%nat.
Proof.
  intros Hm. pose proof Hm as (Hwf & Hs & Hk). unfold GetRootSegment, RowGroupCollection.GetSegmentByIndex, RowGroupCollection.on_tree, RowGroupCollection.ok.
  pose proof (SegmentTree.tree_GetSegmentByIndex_spec true (row_groups m) 0 Hwf) as H. rewrite Hs in H.
  destruct (SegmentTree.GetSegmentByIndex true (row_groups m) (Z.of_nat 0)) as [tree r]. destruct H as (He & -> & Hr).
  destruct (RowGroupCollection.extends_tree m l k tree Hm He) as (Hf & k' & Ht & Hk' & ->). eexists _, _. split; [by destruct l|].
  split; [done|]. split; [done|]. intros Hl. apply Hr. by destruct (Nat.ltb_spec 0 (length l)); [|lia].
Qed.

Lemma collection_Scan_spec T m :
  inv m -> RowVersionManager.proper T ->
  exists m' chunks, collection_Scan T m = (m', Ok chunks)
  /\ inv m' /\ RowGroupCollection.frame m m' /\ rows m' = rows m /\ (forall row, row_ids m' row = row_ids m row)
  /\ mjoin chunks = rows_seen T m /\ Forall (fun chunk => 0 < length chunk <= SVS)%nat chunks.
Proof.
  intros Hinv HT. pose proof Hinv as [Hwf Hc Hf Htot Hsize]. set (l := segments (row_groups m)) in *.
  destruct (root_spec m l _ (conj Hwf (conj eq_refl eq_refl))) as (m1 & k1 & E1 & F1 & T1 & Hk1).
  pose proof F1 as (A1 & A2 & A3 & A4).
  set (st0 := mkScan None 0 0 (replicate SVS 0%nat) (row_start m + total_rows m)).
  assert (scanning (row_group_size m) l m1 st0 k1) as Hs0.
  { split; [done|done|by rewrite A3|by rewrite A3; simpl; rewrite Htot|apply length_replicate]. }
  assert (exists m2 st k, InitializeScan m = (m2, Ok st) /\ goes_on (row_group_size m) l m1 k1 l m2 st k
          /\ positioned l st k /\ remaining T l st = list_seen T l) as (m2 & st & k & E2 & G2 & P2 & R2).
  { unfold InitializeScan. rewrite (ST_bind_Ok _ _ _ _ _ E1), (ST_bind_Ok _ get m1 m1 m1) by done.
    rewrite A2, A3. fold st0. pose proof T1 as (_ & -> & _). destruct l as [|g l'] eqn:El.
    - cbn [initialize_loop]. exists m1, st0, k1. split; [done|]. split; [|by split; [left|]].
      split; [apply viewed_refl|]. split; [done|]. split; [done|lia].
    - rewrite <- El in *. assert (0 < length l)%nat as Hpos by (rewrite El; simpl; lia).
      destruct (initialize_loop_spec (row_group_size m) T l (S (length l)) m1 st0 k1 0 Hs0) as (m2 & st & k & E & G & P & Hrem & _);
        [by left|by apply Hk1|lia|]. by exists m2, st, k. }
  unfold collection_Scan. rewrite (ST_bind_Ok _ _ _ _ _ E2), (ST_bind_Ok _ get m2 m2 m2) by done.
  pose proof G2 as (_ & F2 & Hs2 & _).
  assert (list_seen T l = rows_seen T m) as Hseen.
  { rewrite (list_seen_rows T _ _ _ Hf Hc). unfold rows_seen. rewrite Htot. done. }
  destruct (scan_chunks_spec (row_group_size m) T (S (total_rows m2)) HT l m2 st k Hs2 P2) as (l' & m' & st' & k' & chunks & E & G & Hj & Hch).
  { destruct F2 as (_ & -> & _). rewrite A2, R2, Hseen. unfold rows_seen. pose proof (length_omap_seq
      (fun row => if visible T (row_ids m (row_start m + row)) then rows m !! row else None) 0 (total_rows m)). lia. }
  exists m', chunks. split; [done|]. destruct G as (V & F & [S1 S2 S3 S4 S5] & _).
  pose proof (RowGroupCollection.frame_trans _ _ _ (RowGroupCollection.frame_trans _ _ _ F1 F2) F) as Hframe.
  destruct S1 as (W & Sg & _). destruct (viewed_rows _ _ V) as [Hr _].
  assert (rows m' = rows m) as Hrows by (unfold RowGroupCollection.rows; by rewrite Sg, Hr).
  pose proof Hframe as (B1 & B2 & B3 & B4). split.
  { split; [done|by rewrite Sg|by rewrite Sg, B1|by rewrite B2, Hrows|by rewrite B1]. }
  split; [done|]. split; [done|]. split; [intros row; unfold RowGroupCollection.row_ids; rewrite Sg; by apply viewed_ids|].
  split; [by rewrite Hj, R2|done].
Qed.

(** C11 A scan of a table returns the snapshot of the transaction: it always completes, and its
    chunks put together are exactly the rows whose insert id the transaction sees and whose delete
    id it does not, in the order of the table, in chunks of one vector at most, none of them empty,
    over all row groups and whatever has been loaded from disk.  A fetch by row number finds exactly
    the rows the scan returns, and the table stays as it is. *)
Theorem table_scan_correct T m :
  inv m -> RowGroupCollection.small (segments (row_groups m)) -> RowVersionManager.proper T ->
  exists m' chunks, collection_Scan T m = (m', Ok chunks)
  /\ inv m' /\ rows m' = rows m /\ total_rows m' = total_rows m /\ (forall row, row_ids m' row = row_ids m row)
  /\ mjoin chunks = omap (fun row => if visible T (row_ids m (row_start m + row)) then rows m !! row else None) (seq 0 (total_rows m))
  /\ Forall (fun chunk => 0 < length chunk <= STANDARD_VECTOR_SIZE)%nat chunks
  /\ mjoin chunks = omap (fun row => match (RowGroupCollection.CanFetch T (row_start m + row) m).2 with
                                    | Ok true => rows m !! row
                                    | _ => None
                                    end) (seq 0 (total_rows m)).
Proof.
  intros Hinv Hsm HT. destruct (collection_Scan_spec T m Hinv HT) as (m' & chunks & E & I & (_ & F & _) & Hr & Hi & Hj & Hc).
  exists m', chunks. do 7 (split; [done|]). rewrite Hj. apply omap_seq_ext. intros row Hrow.
  destruct (RowGroupCollection.CanFetch_spec T (row_start m + row) m Hinv Hsm) as (m1 & E1 & _); [lia|done|].
  rewrite E1. cbn [snd]. destruct (Nat.ltb_spec (row_start m + row) (row_start m + total_rows m)); [|lia]. by case_match.
Qed.

End scan.

(** ** An instance *)

#[local] Instance list_scan : ScanColumns nat (nat * list nat) :=
  fun c v => take STANDARD_VECTOR_SIZE (drop (v * STANDARD_VECTOR_SIZE) c.2).

#[local] Instance list_scan_laws : ScanLaws (snd : nat * list nat -> list nat).
Proof. done. Qed.

#[local] Existing Instance RowGroupCollection.list_columns.
#[local] Existing Instance RowGroupCollection.list_columns_laws.

(** The table of [RowGroupCollection] with its three appended rows, the second of them deleted. *)
Definition scanned_table : Collection (nat * list nat) :=
  (RowGroupCollection.Delete RowGroupCollection.log_delete RowGroupCollection.writer [1]%nat (RowGroupCollection.appended_table, [])).1.1.

Lemma scanned_table_inv : RowGroupCollection.inv (contents := snd) (column_start := fst) scanned_table.
Proof.
  pose proof (RowGroupCollection.delete_loop_spec (contents := snd) (column_start := fst) RowGroupCollection.writer
    RowGroupCollection.appended_table [] RowGroupCollection.writer_id RowGroupCollection.appended_small 1 [1]%nat
    RowGroupCollection.appended_table [] [] 0 (le_n _)) as H.
  destruct RowGroupCollection.appended_total_rows as [E1 E2]. rewrite E1, E2 in H.
  specialize (H ltac:(repeat (apply Forall_cons_2; [lia|]); apply Forall_nil_2)
    (RowGroupCollection.deleted_nil _ _ RowGroupCollection.appended_inv) RowGroupCollection.appended_convertible).
  unfold scanned_table, RowGroupCollection.Delete.
  change (length [1%nat]) with 1%nat. change ([] ++ []) with (@nil (nat * RowGroup.DeleteEntry)) in H.
  destruct (RowGroupCollection.delete_loop RowGroupCollection.log_delete 1 RowGroupCollection.writer [1%nat] 0 (RowGroupCollection.appended_table, [])) as [[m' undo'] r].
  destruct H as (es & _ & H). destruct r as [n|e]; [destruct H as [H _]|]; by destruct H.
Qed.

Lemma table_scan_correct_witness :
  exists m' chunks, collection_Scan RowGroupCollection.writer scanned_table = (m', Ok chunks) /\ mjoin chunks = [10; 12]%nat.
Proof.
  destruct (table_scan_correct (contents := snd) (column_start := fst) RowGroupCollection.writer scanned_table)
    as (m' & chunks & E & _ & _ & _ & _ & Hj & _).
  - exact scanned_table_inv.
  - vm_compute. reflexivity.
  - split; [split; vm_compute; congruence|vm_compute; reflexivity].
  - exists m', chunks. split; [exact E|]. rewrite Hj. vm_compute. reflexivity.
Defined.

End TableScan.
