(* ===== verification/ColumnData.v ===== *)
(** * Column data: the segments of a column

    Models src/src/storage/table/column_data.cpp (appending, reverting, moving and scanning a column that is a
    list of transient segments), src/src/storage/compression/fixed_size_uncompressed.cpp (the segments of the
    values of a fixed size) and src/src/storage/table/standard_column_data.cpp (a column with its validity
    column), without updates.

    [ColumnData] is written for any kind of segment, [SegmentOps]; [FixedSegment] are the segments of values and
    [ValiditySegment] those of NULLs, and both have the laws [SegmentLaws] that the theorems about columns use.
    The tree of the segments is the list of its segments, whose search is [SegmentTree.find_segment]. *)

From S2P Require Import Prelude ValidityMask NumericStats TableFilter SegmentTree ValiditySegment RowGroup TableScan.

(** ** Columns of any kind of segment *)

Module ColumnData.

(** What the compression functions of uncompressed segments do: [D] are the vectors to append, [R] the results of
    scans and [St] the statistics. *)
Class SegmentOps (Seg D St R : Type) : Type := {
  seg_start : Seg -> nat;
  seg_count : Seg -> nat;
  CreateTransientSegment : nat -> nat -> Seg;
  set_seg_start : nat -> Seg -> Seg;
  Append : Seg -> D -> nat -> nat -> Seg * nat;
  RevertSegment : Seg -> nat -> Seg;
  ScanEntire : Seg -> nat -> nat -> R -> R;
  ScanPartial : Seg -> nat -> nat -> R -> nat -> R;
  FetchSegmentRow : Seg -> nat -> R -> nat -> R;
  Merge : St -> Seg -> St
}.

#[global] Instance ops_segment {Seg D St R : Type} {ops : SegmentOps Seg D St R} : SegmentTree.Segment Seg :=
  {| SegmentTree.seg_start := seg_start; SegmentTree.seg_count := seg_count |}.

Inductive ScanVectorType : Type := SCAN_ENTIRE_VECTOR | SCAN_FLAT_VECTOR.

Record Column (Seg : Type) : Type := mkColumn {
  start : nat;
  count : nat;
  segments : list Seg
}.
Arguments mkColumn {Seg}.
Arguments start {Seg}.
Arguments count {Seg}.
Arguments segments {Seg}.

Record ColumnScanState : Type := mkState {
  current : option nat;
  row_index : nat
}.

Section column.
Context {Seg D St R : Type} {ops : SegmentOps Seg D St R}.
Context (block_size type_size MAX_ROW_ID : nat).
Implicit Types (c : Column Seg) (l : list Seg) (s : Seg) (d : D) (stats : St).

(** The segment size of [AppendTransientSegment]. *)
Definition transient_size (start_row : nat) : nat :=
  let vector_segment_size := if (start_row =? MAX_ROW_ID)%nat then (STANDARD_VECTOR_SIZE * type_size)%nat else block_size in
  if (block_size <? vector_segment_size)%nat then block_size else vector_segment_size.

Definition AppendTransientSegment (start_row : nat) l : list Seg := l ++ [CreateTransientSegment start_row (transient_size start_row)].

Definition InitializeAppend c : Column Seg :=
  match segments c with
  | [] => mkColumn (start c) (count c) (AppendTransientSegment (start c) [])
  | _ => c
  end.

(** The loop of [AppendData]; the current segment is the last one.  [None] when the fuel runs out. *)
Fixpoint append_loop (fuel : nat) c stats d (offset append_count : nat) : option (Column Seg * St) :=
  match fuel, last (segments c) with
  | S fuel, Some cur =>
      let '(cur, copied_elements) := Append cur d offset append_count in
      let l := <[pred (length (segments c)) := cur]> (segments c) in
      let stats := Merge stats cur in
      if (copied_elements =? append_count)%nat then Some (mkColumn (start c) (count c + copied_elements) l, stats)
      else
        append_loop fuel (mkColumn (start c) (count c + copied_elements) (AppendTransientSegment (seg_start cur + seg_count cur) l)) stats d
          (offset + copied_elements) (append_count - copied_elements)
  | _, _ => None
  end.

(** A new segment takes at least one row, so two rounds more than rows are enough. *)
Definition AppendData c stats d (append_count : nat) : option (Column Seg * St) := append_loop (append_count + 2) c stats d 0 append_count.

Definition RevertAppend c (start_row : nat) : option (Column Seg) :=
  match last (segments c) with
  | None => Some c
  | Some last_segment =>
      if (seg_start last_segment + seg_count last_segment <=? start_row)%nat then Some c
      else
        segment_index ← SegmentTree.find_segment (segments c) start_row;
        segment ← segments c !! segment_index;
        Some (mkColumn (start c) (start_row - start c)
          (if (seg_start segment =? start_row)%nat then take segment_index (segments c)
           else <[segment_index := RevertSegment segment start_row]> (take (segment_index + 1) (segments c))))
  end.

Fixpoint set_starts (new_start : nat) l : list Seg :=
  match l with
  | [] => []
  | s :: l => set_seg_start new_start s :: set_starts (new_start + seg_count s) l
  end.

Definition SetStart (new_start : nat) c : Column Seg := mkColumn new_start (count c) (set_starts new_start (segments c)).

(** *** Scans *)

Definition InitializeScanWithOffset c (row_idx : nat) : ColumnScanState :=
  mkState (SegmentTree.find_segment (segments c) row_idx) row_idx.

Definition GetVectorScanType c (st : ColumnScanState) (scan_count : nat) : option ScanVectorType :=
  s ← current st ≫= fun k => segments c !! k;
  Some (if (seg_start s + seg_count s - row_index st <? scan_count)%nat then SCAN_FLAT_VECTOR else SCAN_ENTIRE_VECTOR).

(** The loop of [ScanVector] over the segments from the current one, number [k]: the state, the result and how
    many rows remain. *)
Fixpoint scan_loop (rest : list Seg) (k row remaining base initial : nat) (scan_type : ScanVectorType) (result : R) : ColumnScanState * R * nat :=
  match rest with
  | [] => (mkState None row, result, remaining)
  | s :: rest =>
      let scan_count := Nat.min remaining (seg_start s + seg_count s - row) in
      let result_offset := (base + initial - remaining)%nat in
      let result :=
        if (0 <? scan_count)%nat then
          match scan_type with
          | SCAN_ENTIRE_VECTOR => ScanEntire s row scan_count result
          | SCAN_FLAT_VECTOR => ScanPartial s row scan_count result result_offset
          end
        else result in
      let row := (row + scan_count)%nat in
      let remaining := (remaining - scan_count)%nat in
      match rest with
      | [] => (mkState (Some k) row, result, remaining)
      | _ => if (0 <? remaining)%nat then scan_loop rest (S k) row remaining base initial scan_type result
             else (mkState (Some k) row, result, remaining)
      end
  end.

Definition ScanVector c (st : ColumnScanState) (result : R) (remaining : nat) (scan_type : ScanVectorType) (base_result_offset : nat)
    : option (ColumnScanState * R * nat) :=
  k ← current st;
  let '(st, result, remains) := scan_loop (drop k (segments c)) k (row_index st) remaining base_result_offset remaining scan_type result in
  Some (st, result, (remaining - remains)%nat).

(** [Skip], by [ColumnScanState::NextInternal]: the current segment is the one of the next row. *)
Fixpoint skip_loop (rest : list Seg) (k row : nat) : option nat :=
  match rest with
  | [] => None
  | s :: rest => if (seg_start s + seg_count s <=? row)%nat then skip_loop rest (S k) row else Some k
  end.

Definition Skip c (st : ColumnScanState) (s_count : nat) : ColumnScanState :=
  match current st with
  | None => st
  | Some k => let row := (row_index st + s_count)%nat in mkState (skip_loop (drop k (segments c)) k row) row
  end.

Definition FetchRow c (row_id : nat) (result : R) (result_idx : nat) : option R :=
  k ← SegmentTree.find_segment (segments c) row_id;
  segment ← segments c !! k;
  Some (FetchSegmentRow segment (row_id - seg_start segment) result result_idx).

Definition GetVectorCount c (vector_index : nat) : nat :=
  Nat.min STANDARD_VECTOR_SIZE (count c - vector_index * STANDARD_VECTOR_SIZE).

(** ** Laws of segments *)

Context {V : Type}.

(** [rep s l]: the segment holds the values [l].  [cov] says that statistics know of a value, [reads] that a row of
    a result has a value, [fresh] that it was not written yet, and [good cap] that a result has [cap] rows. *)
Class SegmentLaws (rep : Seg -> list V -> Prop) (vals : D -> nat -> V) (cov : St -> V -> Prop)
    (reads : R -> nat -> V -> Prop) (fresh : R -> nat -> Prop) (good : nat -> R -> Prop) (good_size : nat -> Prop) : Prop := {
  law_count s (l : list V) : rep s l -> seg_count s = length l;
  law_create st size : good_size size -> rep (CreateTransientSegment st size) [] /\ seg_start (CreateTransientSegment st size) = st;
  law_set_start st s (l : list V) : rep s l -> rep (set_seg_start st s) l /\ seg_start (set_seg_start st s) = st;
  law_append s (l : list V) d off n : rep s l -> exists s' k, Append s d off n = (s', k) /\ (k <= n)%nat
    /\ rep s' (l ++ map (vals d) (seq off k)) /\ seg_start s' = seg_start s;
  law_room st size d off n : good_size size -> (0 < n)%nat -> (0 < (Append (CreateTransientSegment st size) d off n).2)%nat;
  law_revert s (l : list V) row : rep s l -> (seg_start s <= row <= seg_start s + length l)%nat ->
    rep (RevertSegment s row) (take (row - seg_start s) l) /\ seg_start (RevertSegment s row) = seg_start s;
  law_merge st s (l : list V) v : rep s l -> v ∈ l -> cov (Merge st s) v;
  law_merge_keeps st s v : cov st v -> cov (Merge st s) v;
  law_partial s (l : list V) row n cap r off : rep s l -> good cap r -> (seg_start s <= row)%nat -> (row - seg_start s + n <= length l)%nat -> (off + n <= cap)%nat ->
    (forall j, (off <= j < off + n)%nat -> fresh r j) ->
    good cap (ScanPartial s row n r off)
    /\ (forall i, (i < n)%nat -> exists v, l !! (row - seg_start s + i)%nat = Some v /\ reads (ScanPartial s row n r off) (off + i)%nat v)
    /\ (row = seg_start s \/ off = 0%nat -> forall j v, (j < off)%nat -> reads r j v -> reads (ScanPartial s row n r off) j v)
    /\ ((row - seg_start s + n)%nat = length l -> forall j, (off + n <= j < cap)%nat -> fresh r j -> fresh (ScanPartial s row n r off) j);
  law_entire s (l : list V) row n cap r : rep s l -> good cap r -> (seg_start s <= row)%nat -> (row - seg_start s + n <= length l)%nat -> (n <= cap)%nat ->
    (forall j, (j < n)%nat -> fresh r j) ->
    forall i, (i < n)%nat -> exists v, l !! (row - seg_start s + i)%nat = Some v /\ reads (ScanEntire s row n r) i v;
  law_fetch s (l : list V) i cap r idx v : rep s l -> good cap r -> l !! i = Some v -> (idx < cap)%nat -> fresh r idx ->
    reads (FetchSegmentRow s i r idx) idx v
}.

Context {rep : Seg -> list V -> Prop} {vals : D -> nat -> V} {cov : St -> V -> Prop} {reads : R -> nat -> V -> Prop}
  {fresh : R -> nat -> Prop} {good : nat -> R -> Prop} {good_size : nat -> Prop}.
Context {laws : SegmentLaws rep vals cov reads fresh good good_size}.
Context (Hsize : forall row, good_size (transient_size row)).
Implicit Types (v : V) (vs : list V) (ls : list (list V)).

Fixpoint starts (from : nat) l : Prop :=
  match l with
  | [] => True
  | s :: l => seg_start s = from /\ starts (from + seg_count s) l
  end.

(** The column holds the values [vs]. *)
Definition column_rep c vs : Prop :=
  exists ls, Forall2 rep (segments c) ls /\ mjoin ls = vs /\ starts (start c) (segments c) /\ count c = length vs.

Lemma starts_app from l1 l2 ls1 :
  Forall2 rep l1 ls1 -> starts from (l1 ++ l2) <-> starts from l1 /\ starts (from + length (mjoin ls1)) l2.
Proof.
  intros H. revert from. induction H as [|s vs l1 ls1 Hs _ IH]; intros from; cbn [app starts]; [change (mjoin ([] : list (list V))) with ([] : list V); cbn; rewrite Nat.add_0_r; tauto|].
  rewrite IH. rewrite mjoin_cons, length_app, Nat.add_assoc. rewrite (law_count _ _ Hs). tauto.
Qed.

Lemma mjoin_app (ls1 ls2 : list (list V)) : mjoin (ls1 ++ ls2) = mjoin ls1 ++ mjoin ls2.
Proof. induction ls1 as [|x ls1 IH]; [done|]. cbn [app]. by rewrite !mjoin_cons, IH, app_assoc. Qed.

Lemma InitializeAppend_rep c vs : column_rep c vs -> column_rep (InitializeAppend c) vs /\ segments (InitializeAppend c) <> [] /\ start (InitializeAppend c) = start c.
Proof.
  intros (ls & H1 & H2 & H3 & H4). unfold InitializeAppend. destruct (segments c) as [|s l] eqn:E.
  - inversion H1; subst. destruct (law_create (start c) (transient_size (start c)) (Hsize _)) as [Hr Hs]. split; [|by split].
    exists [[]]. split; [cbn; by constructor|]. split; [done|]. split; [cbn; by rewrite Hs|done].
  - split; [|by rewrite E]. exists ls. by rewrite E.
Qed.

(** The last segment is replaced, and possibly one added. *)
Lemma append_round c vs cur :
  column_rep c vs -> last (segments c) = Some cur ->
  exists l0 ls0 vcur, segments c = l0 ++ [cur] /\ Forall2 rep l0 ls0 /\ rep cur vcur /\ vs = mjoin ls0 ++ vcur
    /\ starts (start c) l0 /\ seg_start cur = (start c + length (mjoin ls0))%nat.
Proof.
  intros (ls & H1 & H2 & H3 & H4) Hlast. apply last_Some in Hlast as [l0 E]. rewrite E in H1, H3.
  apply Forall2_app_inv_l in H1 as (ls0 & ls1 & Hl0 & Hl1 & ->). inversion Hl1 as [|? vcur ? ls2 Hcur Hnil]; subst. inversion Hnil; subst.
  apply (starts_app _ _ _ _ Hl0) in H3 as [Hs0 [Hs1 _]]. exists l0, ls0, vcur. repeat split; try done. rewrite mjoin_app, mjoin_cons. cbn. by rewrite app_nil_r.
Qed.

Lemma column_append_loop_spec fuel c stats d off n vs :
  column_rep c vs -> segments c <> [] ->
  (n + 2 <= fuel)%nat \/ ((n + 1 <= fuel)%nat /\ exists row, last (segments c) = Some (CreateTransientSegment row (transient_size row))) ->
  exists c' stats', append_loop fuel c stats d off n = Some (c', stats') /\ column_rep c' (vs ++ map (vals d) (seq off n))
    /\ segments c' <> [] /\ start c' = start c
    /\ (forall v, cov stats v -> cov stats' v) /\ (forall v, v ∈ map (vals d) (seq off n) -> cov stats' v).
Proof.
  revert c stats off n vs. induction fuel as [|fuel IH]; intros c stats off n vs Hc Hne Hfuel; [lia|]. cbn.
  destruct (last (segments c)) as [cur|] eqn:Hlast; [|by apply last_None in Hlast].
  destruct (append_round c vs cur Hc Hlast) as (l0 & ls0 & vcur & El & Hl0 & Hcur & -> & Hst0 & Hst1).
  destruct (law_append cur vcur d off n Hcur) as (cur' & k & E & Hk & Hcur' & Est). rewrite E.
  assert (<[pred (length (segments c)) := cur']> (segments c) = l0 ++ [cur']) as ->.
  { rewrite El, length_app. cbn. replace (pred (length l0 + 1)) with (length l0 + 0)%nat by lia. by rewrite insert_app_r. }
  set (new := map (vals d) (seq off k)) in *. destruct Hc as (_ & _ & _ & _ & Hcount).
  assert (Forall2 rep (l0 ++ [cur']) (ls0 ++ [vcur ++ new])) as Hrep by (apply Forall2_app; [done|by constructor]).
  assert (mjoin (ls0 ++ [vcur ++ new]) = (mjoin ls0 ++ vcur) ++ new) as Hjoin by (rewrite mjoin_app, mjoin_cons; cbn; by rewrite app_nil_r, app_assoc).
  assert (starts (start c) (l0 ++ [cur'])) as Hstarts by (apply (starts_app _ _ _ _ Hl0); split; [done|]; cbn; split; [congruence|done]).
  assert (length new = k) as Hnew by (unfold new; by rewrite length_map, length_seq).
  destruct (Nat.eqb_spec k n) as [-> |Hkn].
  - eexists _, _. split; [reflexivity|]. split; [|split; [by destruct l0|split; [done|split]]].
    + exists (ls0 ++ [vcur ++ new]). split; [done|]. split; [done|]. split; [done|].
      change (count c + n = length ((mjoin ls0 ++ vcur) ++ new))%nat. by rewrite length_app, Hcount, Hnew.
    + intros v Hv. by apply law_merge_keeps.
    + intros v Hv. apply (law_merge _ _ _ _ Hcur'). apply elem_of_app. by right.
  - set (c1 := mkColumn _ _ _). set (row := (seg_start cur' + seg_count cur')%nat) in *. destruct (law_create row (transient_size row) (Hsize _)) as [Hr1 Hr2].
    assert (column_rep c1 ((mjoin ls0 ++ vcur) ++ new)) as Hc1.
    { exists ((ls0 ++ [vcur ++ new]) ++ [[]]). split; [cbn; apply Forall2_app; [done|by constructor]|]. split; [rewrite mjoin_app; cbn; by rewrite app_nil_r|].
      split; [|change (count c + k = length ((mjoin ls0 ++ vcur) ++ new))%nat; rewrite length_app, Hcount, Hnew; done]. apply (starts_app _ _ _ _ Hrep). split; [done|]. cbn. split; [|done].
      rewrite Hr2. unfold row. rewrite Est, Hst1, (law_count _ _ Hcur'), Hjoin, !length_app. lia. }
    destruct (IH c1 (Merge stats cur') (off + k)%nat (n - k)%nat _ Hc1) as (c' & st' & E' & H1 & H2 & H3 & H4 & H5).
    + cbn. by destruct l0.
    + right. split; [|exists row; exact (last_snoc _ (l0 ++ [cur']))]. destruct Hfuel as [?|[? (row0 & [= ->])]]; [lia|].
      pose proof (law_room row0 (transient_size row0) d off n (Hsize _) ltac:(lia)) as Hroom. rewrite E in Hroom. cbn in Hroom. lia.
    + exists c', st'. split; [exact E'|]. assert (new ++ map (vals d) (seq (off + k) (n - k)) = map (vals d) (seq off n)) as Hall.
      { unfold new. rewrite <-map_app, <-seq_app. do 2 f_equal. lia. }
      split; [by rewrite <-Hall, app_assoc|]. split; [done|]. split; [done|]. split; [intros v Hv; by apply H4, law_merge_keeps|].
      intros v. rewrite <-Hall, elem_of_app. intros [Hv|Hv]; [|by apply H5]. apply H4, (law_merge _ _ _ _ Hcur'), elem_of_app. by right.
Qed.

(** Appending the rows of a vector always ends, adds their values to the column, and the statistics know them. *)
Lemma AppendData_spec c stats d n vs :
  column_rep c vs -> segments c <> [] ->
  exists c' stats', AppendData c stats d n = Some (c', stats') /\ column_rep c' (vs ++ map (vals d) (seq 0 n))
    /\ segments c' <> [] /\ start c' = start c
    /\ (forall v, cov stats v -> cov stats' v) /\ (forall v, v ∈ map (vals d) (seq 0 n) -> cov stats' v).
Proof. intros Hc Hne. unfold AppendData. apply column_append_loop_spec; [done|done|left; lia]. Qed.

(** *** Finding the segment of a row *)

Lemma starts_find from l ls row :
  Forall2 rep l ls -> starts from l -> (from <= row < from + length (mjoin ls))%nat ->
  exists k s vs ls1, SegmentTree.find_segment l row = Some k /\ l !! k = Some s /\ rep s vs /\ ls !! k = Some vs /\ ls1 = take k ls
    /\ seg_start s = (from + length (mjoin ls1))%nat /\ (seg_start s <= row < seg_start s + length vs)%nat.
Proof.
  intros H. revert from. induction H as [|s vs l ls Hs Hl IH]; intros from; [change (mjoin ([] : list (list V))) with ([] : list V); cbn; lia|].
  rewrite mjoin_cons, length_app. intros [Est Hst] Hrow. pose proof (law_count _ _ Hs) as Hc. unfold SegmentTree.find_segment. cbn [list_find].
  change (SegmentTree.contains s row) with (seg_start s <= row < seg_start s + seg_count s)%nat. case_decide as Hd.
  - exists 0%nat, s, vs, []. repeat split; try done; [|lia..]. by rewrite Nat.add_0_r.
  - destruct (IH (from + seg_count s)%nat Hst) as (k & s' & vs' & ls1 & E & H1 & H2 & H3 & H4 & H5 & H6); [lia|].
    exists (S k), s', vs', (vs :: ls1). unfold SegmentTree.find_segment in E. destruct (list_find _ l) as [[k' y]|]; [|done]. injection E as ->.
    split; [done|]. split; [done|]. split; [done|]. split; [done|]. split; [by rewrite H4|]. rewrite mjoin_cons, length_app. split; [lia|done].
Qed.

Lemma mjoin_take_lookup ls k vs : ls !! k = Some vs -> mjoin ls = mjoin (take k ls) ++ vs ++ mjoin (drop (S k) ls).
Proof. intros H. rewrite <-(take_drop_middle ls k vs H) at 1. by rewrite mjoin_app, mjoin_cons. Qed.

Lemma starts_take from l k : starts from l -> starts from (take k l).
Proof. revert from k. induction l as [|s l IH]; intros from [|k]; cbn; [done..|]. intros [H1 H2]. split; [done|by apply IH]. Qed.

Lemma column_RevertAppend_spec c vs start_row :
  column_rep c vs -> (start c <= start_row <= start c + length vs)%nat ->
  exists c', RevertAppend c start_row = Some c' /\ column_rep c' (take (start_row - start c) vs) /\ start c' = start c.
Proof.
  intros Hc Hrow. unfold RevertAppend. pose proof Hc as (ls & H1 & H2 & H3 & H4). destruct (last (segments c)) as [cur|] eqn:Hlast.
  2:{ apply last_None in Hlast. rewrite Hlast in H1. inversion H1; subst. exists c. split; [done|]. split; [|done]. change (mjoin ([] : list (list V))) with ([] : list V) in *. by rewrite take_nil. }
  destruct (append_round c vs cur Hc Hlast) as (l0 & ls0 & vcur & El & Hl0 & Hcur & Evs & _ & Hst1).
  destruct (seg_start cur + seg_count cur <=? start_row)%nat eqn:E.
  { apply Nat.leb_le in E. exists c. split; [done|]. split; [|done]. rewrite take_ge; [done|]. rewrite Evs, length_app in *. rewrite (law_count _ _ Hcur) in E. lia. }
  apply Nat.leb_gt in E. rewrite (law_count _ _ Hcur) in E. rewrite <-H2 in *.
  destruct (starts_find (start c) (segments c) ls start_row H1 H3) as (k & s & vk & ls1 & Ef & Hk & Hs & Hlk & -> & Est & Hin).
  { split; [lia|]. rewrite Evs, length_app. lia. }
  rewrite Ef. cbn. rewrite Hk. cbn. eexists. split; [reflexivity|]. split; [|done].
  pose proof (mjoin_take_lookup ls k vk Hlk) as Ej. assert (Forall2 rep (take k (segments c)) (take k ls)) as Htk by by apply Forall2_take.
  assert (length (mjoin ls) = length (mjoin (take k ls)) + length vk + length (mjoin (drop (S k) ls)))%nat as Hlen by (rewrite Ej at 1; rewrite !length_app; lia).
  destruct (Nat.eqb_spec (seg_start s) start_row) as [Eq|Hne].
  - exists (take k ls). split; [done|]. assert (take (start_row - start c) (mjoin ls) = mjoin (take k ls)) as ->.
    { rewrite Ej. rewrite take_app_length'; [done|]. lia. }
    split; [done|]. split; [by apply starts_take|]. cbn. lia.
  - destruct (law_revert s vk start_row Hs) as [Hr Er]; [lia|]. set (s' := RevertSegment s start_row) in *.
    assert (<[k := s']> (take (k + 1) (segments c)) = take k (segments c) ++ [s']) as ->.
    { rewrite Nat.add_1_r, (take_S_r _ _ s Hk). rewrite insert_app_r_alt by (rewrite length_take; apply lookup_lt_Some in Hk; lia).
      rewrite length_take, Nat.min_l by (apply lookup_lt_Some in Hk; lia). by rewrite Nat.sub_diag. }
    exists (take k ls ++ [take (start_row - seg_start s) vk]). split; [apply Forall2_app; [done|by constructor]|].
    assert (take (start_row - start c) (mjoin ls) = mjoin (take k ls) ++ take (start_row - seg_start s) vk) as ->.
    { rewrite Ej, take_app. rewrite take_ge by lia. f_equal. rewrite take_app_le by lia. f_equal. lia. }
    split; [rewrite mjoin_app, mjoin_cons; cbn; by rewrite app_nil_r|]. split; [|cbn; rewrite length_app, length_take; lia].
    cbn. apply (starts_app _ _ _ _ Htk). split; [by apply starts_take|]. cbn. split; [|done]. rewrite Er, Est. done.
Qed.

Lemma column_SetStart_spec c vs new_start : column_rep c vs -> column_rep (SetStart new_start c) vs /\ start (SetStart new_start c) = new_start.
Proof.
  intros (ls & H1 & H2 & H3 & H4). split; [|done]. exists ls. cbn. assert (forall from, Forall2 rep (set_starts from (segments c)) ls /\ starts from (set_starts from (segments c))) as H.
  { clear H2 H3 H4. induction H1 as [|s vs0 l ls Hs _ IH]; intros from; cbn; [by split|].
    destruct (law_set_start from s vs0 Hs) as [Hs' Est]. destruct (IH (from + seg_count s)%nat) as [IH1 IH2]. split; [by constructor|]. split; [done|].
    by rewrite (law_count _ _ Hs'), <-(law_count _ _ Hs). }
  split; [apply H|]. split; [done|]. split; [apply H|done].
Qed.

(** *** Scanning *)

(** The segment of the current row, or the one it ends. *)
Definition at_row l (k row : nat) : Prop :=
  exists s, l !! k = Some s /\ (seg_start s <= row <= seg_start s + seg_count s)%nat.

Lemma scan_flat rest k from ls row remaining base initial result cap :
  Forall2 rep rest ls -> starts from rest -> good cap result -> rest <> [] ->
  (from <= row)%nat -> (row - from + remaining <= length (mjoin ls))%nat -> (forall s, head rest = Some s -> (row <= from + seg_count s)%nat) ->
  (remaining <= initial)%nat -> (base + initial <= cap)%nat -> row = from \/ (base + initial - remaining)%nat = 0%nat ->
  (forall j, (base + initial - remaining <= j < base + initial)%nat -> fresh result j) ->
  exists i result', scan_loop rest k row remaining base initial SCAN_FLAT_VECTOR result = (mkState (Some (k + i)) (row + remaining), result', 0)%nat
    /\ at_row rest i (row + remaining) /\ good cap result'
    /\ (forall j v, (j < base + initial - remaining)%nat -> reads result j v -> reads result' j v)
    /\ (forall i, (i < remaining)%nat -> exists v, mjoin ls !! (row - from + i)%nat = Some v /\ reads result' (base + initial - remaining + i)%nat v).
Proof.
  intros H. revert k from row remaining result. induction H as [|s vs rest ls Hs Hrest IH]; intros k from row remaining result Hst Hgood Hne Hfrom Hrem Hhead Hinit Hcap Hzero Hfresh; [done|].
  destruct Hst as [Est Hst]. pose proof (law_count _ _ Hs) as Hcount. specialize (Hhead s eq_refl). rewrite mjoin_cons, length_app in Hrem. cbn [scan_loop].
  set (n := Nat.min remaining (seg_start s + seg_count s - row)). set (ro := (base + initial - remaining)%nat) in *.
  set (result1 := if (0 <? n)%nat then ScanPartial s row n result ro else result).
  assert (good cap result1
    /\ (forall i, (i < n)%nat -> exists v, vs !! (row - from + i)%nat = Some v /\ reads result1 (ro + i)%nat v)
    /\ (forall j v, (j < ro)%nat -> reads result j v -> reads result1 j v)
    /\ ((n < remaining)%nat -> forall j, (ro + n <= j < base + initial)%nat -> fresh result1 j)) as (Hg1 & Hread1 & Hkeep1 & Hfresh1).
  { unfold result1. destruct (0 <? n)%nat eqn:En.
    - apply Nat.ltb_lt in En. destruct (law_partial s vs row n cap result ro Hs Hgood) as (G1 & G2 & G3 & G4); [lia|lia|lia|intros j Hj; apply Hfresh; lia|].
      split; [done|]. split; [by rewrite <-Est|]. split; [apply G3; destruct Hzero; [left; congruence|by right]|].
      intros Hn j Hj. apply G4; [lia|lia|]. apply Hfresh. lia.
    - apply Nat.ltb_ge in En. split; [done|]. split; [lia|]. split; [done|]. intros Hn j Hj. apply Hfresh. lia. }
  assert (forall i, (i < n)%nat -> exists v, (vs ++ mjoin ls) !! (row - from + i)%nat = Some v /\ reads result1 (ro + i)%nat v) as Hread.
  { intros i Hi. destruct (Hread1 i Hi) as (v & Hv & Hr). exists v. split; [|done]. rewrite lookup_app_l; [done|]. by apply lookup_lt_Some in Hv. }
  assert (remaining = n -> exists i result', (mkState (Some k) (row + n), result1, (remaining - n)%nat) = (mkState (Some (k + i)%nat) (row + remaining), result', 0%nat)
    /\ at_row (s :: rest) i (row + remaining) /\ good cap result' /\ (forall j v, (j < ro)%nat -> reads result j v -> reads result' j v)
    /\ (forall i, (i < remaining)%nat -> exists v, (vs ++ mjoin ls) !! (row - from + i)%nat = Some v /\ reads result' (ro + i)%nat v)) as Hstop.
  { intros Hn. exists 0%nat, result1. rewrite <-Hn, Nat.sub_diag, Nat.add_0_r. split; [done|]. split; [exists s; split; [done|lia]|].
    split; [done|]. split; [done|]. rewrite Hn. exact Hread. }
  destruct rest as [|s2 rest].
  { inversion Hrest; subst. change (mjoin ([] : list (list V))) with ([] : list V) in *. cbn in Hrem. apply Hstop. lia. }
  destruct (0 <? remaining - n)%nat eqn:Er; [|apply Nat.ltb_ge in Er; apply Hstop; lia]. apply Nat.ltb_lt in Er.
  assert (row + n = from + seg_count s)%nat as Hend by lia.
  destruct (IH (S k) (from + seg_count s)%nat (row + n)%nat (remaining - n)%nat result1) as (i0 & r' & E & H1 & H2 & H3 & H4); [done|done|done|lia|lia| |lia|lia|by left| |].
  { intros s' [= <-]. lia. }
  { intros j Hj. apply Hfresh1; lia. }
  exists (S i0), r'. split; [rewrite E, (Nat.add_succ_r k); do 2 f_equal; f_equal; lia|]. split; [|split; [done|split]].
  - destruct H1 as (s' & Hs' & Hin). exists s'. split; [done|]. lia.
  - intros j v Hj Hv. apply H3; [lia|]. by apply Hkeep1.
  - intros i Hi. destruct (decide (i < n)%nat) as [Hlt|Hge].
    + destruct (Hread i Hlt) as (v & Hv & Hr). exists v. split; [done|]. apply H3; [lia|done].
    + destruct (H4 (i - n)%nat) as (v & Hv & Hr); [lia|]. exists v. split.
      * rewrite mjoin_cons, lookup_app_r by lia. rewrite <-Hv. f_equal. lia.
      * replace (ro + i)%nat with (base + initial - (remaining - n) + (i - n))%nat by lia. done.
Qed.

(** The state of a scan: in the segment of its row, or at the end of the column. *)
Definition positioned c (st : ColumnScanState) : Prop :=
  match current st with
  | Some k => at_row (segments c) k (row_index st)
  | None => (start c + count c <= row_index st)%nat
  end.

Lemma starts_drop from l ls k s :
  Forall2 rep l ls -> starts from l -> l !! k = Some s -> starts (from + length (mjoin (take k ls))) (drop k l) /\ seg_start s = (from + length (mjoin (take k ls)))%nat.
Proof.
  intros H Hst Hk. rewrite <-(take_drop k l) in Hst. apply (starts_app _ _ _ (take k ls)) in Hst as [_ Hst]; [|by apply Forall2_take].
  split; [done|]. rewrite (drop_S _ _ _ Hk) in Hst. by destruct Hst.
Qed.

Lemma scan_entire s rest k row n result :
  (0 < n)%nat -> (row + n <= seg_start s + seg_count s)%nat ->
  scan_loop (s :: rest) k row n 0 n SCAN_ENTIRE_VECTOR result = (mkState (Some k) (row + n), ScanEntire s row n result, 0%nat).
Proof.
  intros Hn Hrow. cbn [scan_loop]. rewrite Nat.min_l by lia. assert ((0 <? n)%nat = true) as -> by (by apply Nat.ltb_lt). rewrite Nat.sub_diag. by destruct rest.
Qed.

(** Scanning [n] rows from the current one reads their values and moves on by them. *)
Lemma ScanVector_spec c vs st result n ty cap :
  column_rep c vs -> positioned c st -> (0 < n)%nat -> (row_index st + n <= start c + count c)%nat ->
  (ty = SCAN_ENTIRE_VECTOR -> GetVectorScanType c st n = Some SCAN_ENTIRE_VECTOR) ->
  good cap result -> (n <= cap)%nat -> (forall j, (j < n)%nat -> fresh result j) ->
  exists st' result', ScanVector c st result n ty 0 = Some (st', result', n) /\ positioned c st' /\ row_index st' = (row_index st + n)%nat
    /\ forall i, (i < n)%nat -> exists v, vs !! (row_index st - start c + i)%nat = Some v /\ reads result' i v.
Proof.
  intros (ls & H1 & <- & H3 & H4) Hpos Hn Hend Hty Hgood Hcap Hfresh. unfold positioned in Hpos. unfold ScanVector.
  destruct (current st) as [k|] eqn:Ek; [|lia]. destruct Hpos as (s & Hs & Hrow). cbn.
  destruct (starts_drop _ _ _ _ _ H1 H3 Hs) as [Hst Est]. assert (Forall2 rep (drop k (segments c)) (drop k ls)) as Hd by by apply Forall2_drop.
  destruct (Forall2_lookup_l _ _ _ _ _ H1 Hs) as (vk & Hvk & Hrep). pose proof (law_count _ _ Hrep) as Hlen.
  set (from := (start c + length (mjoin (take k ls)))%nat) in *.
  assert (mjoin ls = mjoin (take k ls) ++ mjoin (drop k ls)) as Ej by (by rewrite <-mjoin_app, take_drop).
  assert (forall i v, mjoin (drop k ls) !! (row_index st - from + i)%nat = Some v -> mjoin ls !! (row_index st - start c + i)%nat = Some v) as Hshift.
  { intros i v Hv. rewrite Ej, lookup_app_r by lia. rewrite <-Hv. f_equal. lia. }
  destruct ty.
  - specialize (Hty eq_refl). unfold GetVectorScanType in Hty. rewrite Ek in Hty. cbn -[Nat.ltb] in Hty. rewrite Hs in Hty. cbn -[Nat.ltb] in Hty.
    destruct (seg_start s + seg_count s - row_index st <? n)%nat eqn:En; [done|]. apply Nat.ltb_ge in En. rewrite (drop_S _ _ _ Hs), scan_entire by lia.
    eexists _, _. split; [by rewrite Nat.sub_0_r|]. split; [exists s; split; [done|cbn; lia]|]. split; [done|]. intros i Hi.
    destruct (law_entire s vk (row_index st) n cap result Hrep Hgood) with (i := i) as (v & Hv & Hr); [lia|lia|done|done|done|]. exists v. split; [|done].
    apply Hshift. rewrite (drop_S _ _ _ Hvk), mjoin_cons, lookup_app_l by (apply lookup_lt_Some in Hv; lia). rewrite <-Hv. f_equal. lia.
  - destruct (scan_flat (drop k (segments c)) k from (drop k ls) (row_index st) n 0 n result cap) as (i & r' & E & Hat & _ & _ & Hr); try done; [..|].
    + intros E. apply (f_equal length) in E. rewrite length_drop in E. apply lookup_lt_Some in Hs. cbn in E. lia.
    + lia.
    + rewrite Ej, length_app in H4. lia.
    + rewrite (drop_S _ _ _ Hs). intros s' [= <-]. lia.
    + right. lia.
    + intros j Hj. apply Hfresh. lia.
    + rewrite E. exists (mkState (Some (k + i)%nat) (row_index st + n)), r'. split; [by rewrite Nat.sub_0_r|]. split; [|split; [done|]].
      * destruct Hat as (s' & Hs' & Hin). exists s'. rewrite lookup_drop in Hs'. done.
      * intros j Hj. destruct (Hr j Hj) as (v & Hv & Hv'). exists v. split; [by apply Hshift|]. rewrite Nat.sub_diag in Hv'. done.
Qed.

Lemma scan_type_known c st n : positioned c st -> (row_index st < start c + count c)%nat -> is_Some (GetVectorScanType c st n).
Proof. unfold positioned, GetVectorScanType. destruct (current st); [|lia]. intros (s & Hs & _) _. cbn. rewrite Hs. by eexists. Qed.

Lemma InitializeScan_positioned c vs row :
  column_rep c vs -> (start c <= row < start c + count c)%nat -> positioned c (InitializeScanWithOffset c row) /\ row_index (InitializeScanWithOffset c row) = row.
Proof.
  intros (ls & H1 & <- & H3 & H4) Hrow. split; [|done]. destruct (starts_find _ _ _ row H1 H3) as (k & s & vk & ls1 & E & Hk & Hr & _ & _ & _ & Hin); [lia|].
  unfold positioned, InitializeScanWithOffset. rewrite E. cbn. exists s. rewrite (law_count _ _ Hr). split; [done|lia].
Qed.

Lemma skip_loop_spec rest k from ls row :
  Forall2 rep rest ls -> starts from rest -> (from <= row)%nat ->
  match skip_loop rest k row with
  | Some k' => exists i, k' = (k + i)%nat /\ at_row rest i row
  | None => (from + length (mjoin ls) <= row)%nat
  end.
Proof.
  intros H. revert k from. induction H as [|s vs rest ls Hs _ IH]; intros k from Hst Hfrom; [change (mjoin ([] : list (list V))) with ([] : list V); cbn; lia|].
  destruct Hst as [Est Hst]. pose proof (law_count _ _ Hs) as Hc. rewrite mjoin_cons, length_app. cbn [skip_loop]. destruct (_ <=? row)%nat eqn:E.
  - apply Nat.leb_le in E. specialize (IH (S k) (from + seg_count s)%nat Hst ltac:(lia)). destruct (skip_loop rest (S k) row) as [k'|]; [|lia].
    destruct IH as (i & -> & s' & Hs' & Hin). exists (S i). split; [lia|]. by exists s'.
  - apply Nat.leb_gt in E. exists 0%nat. split; [lia|]. exists s. split; [done|]. lia.
Qed.

Lemma Skip_positioned c vs st n : column_rep c vs -> positioned c st -> positioned c (Skip c st n) /\ ((row_index st < start c + count c)%nat -> row_index (Skip c st n) = (row_index st + n)%nat).
Proof.
  intros (ls & H1 & <- & H3 & H4) Hpos. unfold positioned, Skip in *. destruct (current st) as [k|] eqn:Ek; [|rewrite Ek; split; [done|lia]].
  split; [|done]. cbn [current row_index]. destruct Hpos as (s & Hs & Hrow). destruct (starts_drop _ _ _ _ _ H1 H3 Hs) as [Hst Est].
  pose proof (skip_loop_spec (drop k (segments c)) k _ (drop k ls) (row_index st + n) ltac:(by apply Forall2_drop) Hst ltac:(lia)) as H.
  destruct (skip_loop _ _ _) as [k'|].
  - destruct H as (i & -> & s' & Hs' & Hin). exists s'. by rewrite lookup_drop in Hs'.
  - rewrite H4, <-(take_drop k ls), mjoin_app, length_app. lia.
Qed.

Lemma column_FetchRow_spec c vs row result cap idx v :
  column_rep c vs -> (start c <= row)%nat -> vs !! (row - start c)%nat = Some v -> good cap result -> (idx < cap)%nat -> fresh result idx ->
  exists result', FetchRow c row result idx = Some result' /\ reads result' idx v.
Proof.
  intros (ls & H1 & <- & H3 & H4) Hrow Hv Hgood Hidx Hfresh. pose proof (lookup_lt_Some _ _ _ Hv) as Hlt.
  destruct (starts_find _ _ _ row H1 H3) as (k & s & vk & ls1 & E & Hk & Hr & Hlk & -> & Est & Hin); [lia|].
  unfold FetchRow. rewrite E. cbn. rewrite Hk. cbn. eexists. split; [done|]. apply (law_fetch s vk _ cap); [done|done| |done|done].
  rewrite (mjoin_take_lookup ls k vk Hlk) in Hv. rewrite lookup_app_r, lookup_app_l in Hv by lia. rewrite <-Hv. f_equal. lia.
Qed.

(** What merging preserves, appending preserves. *)
Lemma append_loop_stats (P : St -> Prop) fuel c stats d off n c' stats' :
  (forall st s, P st -> P (Merge st s)) -> P stats -> append_loop fuel c stats d off n = Some (c', stats') -> P stats'.
Proof.
  intros HP. revert c stats off n. induction fuel as [|fuel IH]; intros c stats off n Hst; [done|]. cbn. destruct (last (segments c)) as [cur|]; [|done].
  destruct (Append cur d off n) as [cur' k]. destruct (k =? n)%nat; [intros [= _ <-]; by apply HP|]. apply IH. by apply HP.
Qed.

End column.
End ColumnData.
