(* ===== verification/StandardColumn.v ===== *)
(** * Standard columns: values and NULLs

    Models src/src/storage/compression/fixed_size_uncompressed.cpp (segments of values of a fixed size) and
    src/src/storage/table/standard_column_data.cpp: a column of values with the column of its validity, without
    updates.

    Both kinds of segment have the laws that ColumnData.v asks of them, so both columns do what it shows; a standard
    column then holds a list of rows, each a value or NULL, and is an instance of what the row groups and the scans
    of a table ask of their columns ([RowGroup.ColumnLaws], [TableScan.ScanLaws]). *)

From S2P Require Import Prelude ValidityMask NumericStats TableFilter ValiditySegment SegmentTree RowGroup RowGroupCollection TableScan ColumnData.

(** ** Segments of values *)

Module FixedSegment.
Import NumericStats TableFilter.

Record Segment (T : Type) : Type := mkSegment {
  seg_start : nat;
  seg_count : nat;
  segment_size : nat;
  memory : list T;
  stats : BaseStatistics T
}.
Arguments mkSegment {T}.
Arguments seg_start {T}.
Arguments seg_count {T}.
Arguments segment_size {T}.
Arguments memory {T}.
Arguments stats {T}.

Section fixed.
Context {T : Type} `{!Comparison T} `{!Inhabited T}.
(** [sizeof] is the size of a value, [NullValue] what is written for a NULL, [uninitialized] what is in memory
    before anything is written to it. *)
Context (sizeof : nat) (NullValue MaximumValue MinimumValue : T) (uninitialized : nat -> T) (garbage : NumericStatsData T).
Implicit Types (s : Segment T) (d : UnifiedVectorFormat T).

Definition max_tuple_count s : nat := (segment_size s / sizeof)%nat.

Definition CreateTransientSegment (start size : nat) : Segment T :=
  mkSegment start 0 size (map uninitialized (seq 0 (size / sizeof))) (CreateEmpty MaximumValue MinimumValue garbage).

(** One row of [StandardFixedSizeAppend]. *)
Definition append_row d (target_offset offset : nat) (state : list T * BaseStatistics T) (i : nat) : list T * BaseStatistics T :=
  let '(tdata, stats) := state in
  let source_idx := get_index (vsel d) (offset + i) in
  let target_idx := (target_offset + i)%nat in
  let is_null := negb (ValidityMask.AllValid (validity d)) && negb (ValidityMask.RowIsValid (validity d) source_idx) in
  if is_null then (<[target_idx := NullValue]> tdata, stats)
  else (<[target_idx := vdata d !!! source_idx]> tdata, UpdateNumericStats (vdata d !!! source_idx) stats).

Definition FixedSizeAppend s d (offset count : nat) : Segment T * nat :=
  let copy_count := Nat.min count (max_tuple_count s - seg_count s) in
  let '(mem, st) := fold_left (append_row d (seg_count s) offset) (seq 0 copy_count) (memory s, stats s) in
  (mkSegment (seg_start s) (seg_count s + copy_count) (segment_size s) mem st, copy_count).

(** [ColumnSegment::RevertAppend]: nothing but the count. *)
Definition RevertAppend s (start_row : nat) : Segment T :=
  mkSegment (seg_start s) (start_row - seg_start s) (segment_size s) (memory s) (stats s).

Definition set_seg_start (start : nat) s : Segment T := mkSegment start (seg_count s) (segment_size s) (memory s) (stats s).

(** The result is the data of a flat vector. *)
Definition FixedSizeScanPartial s (row_index scan_count : nat) (result : list T) (result_offset : nat) : list T :=
  let start := (row_index - seg_start s)%nat in
  take result_offset result ++ take scan_count (drop start (memory s)) ++ drop (result_offset + scan_count) result.

Definition FixedSizeScan s (row_index scan_count : nat) (result : list T) : list T := drop (row_index - seg_start s) (memory s).

Definition FixedSizeFetchRow s (row_id : nat) (result : list T) (result_idx : nat) : list T := <[result_idx := memory s !!! row_id]> result.

Instance ops : ColumnData.SegmentOps (Segment T) (UnifiedVectorFormat T) (BaseStatistics T) (list T) := {
  ColumnData.seg_start := seg_start;
  ColumnData.seg_count := seg_count;
  ColumnData.CreateTransientSegment := CreateTransientSegment;
  ColumnData.set_seg_start := set_seg_start;
  ColumnData.Append := FixedSizeAppend;
  ColumnData.RevertSegment := RevertAppend;
  ColumnData.ScanEntire := FixedSizeScan;
  ColumnData.ScanPartial := FixedSizeScanPartial;
  ColumnData.FetchSegmentRow := FixedSizeFetchRow;
  ColumnData.Merge st s := Merge st (stats s)
}.

(** ** Its laws *)

Context {laws : CompareLaws T} (Hsizeof : (0 < sizeof)%nat).

Definition value_known (st : BaseStatistics T) (v : option T) : Prop :=
  match v with
  | Some v => covers_value (numeric_data st) v
  | None => True
  end.

(** The memory has the values, and the statistics know them; what it has for a NULL does not matter. *)
Record rep s (l : list (option T)) : Prop := {
  r_count : seg_count s = length l;
  r_memory : length (memory s) = max_tuple_count s;
  r_room : (seg_count s <= max_tuple_count s)%nat;
  r_values i v : l !! i = Some (Some v) -> memory s !! i = Some v;
  r_known v : v ∈ l -> value_known (stats s) v
}.

Definition reads (result : list T) (i : nat) (v : option T) : Prop :=
  match v with
  | Some v => result !! i = Some v
  | None => True
  end.

Lemma value_known_update st v x : value_known st x -> value_known (UpdateNumericStats v st) x.
Proof. destruct x as [x|]; [|done]. apply Update_keeps. Qed.

Lemma append_row_row d off k : row d (off + k) = if negb (ValidityMask.AllValid (validity d)) && negb (ValidityMask.RowIsValid (validity d) (get_index (vsel d) (off + k)))
  then None else Some (vdata d !!! get_index (vsel d) (off + k)).
Proof.
  unfold row, ValidityMask.AllValid, ValidityMask.RowIsValid. destruct (ValidityMask.validity_mask (validity d)) as [es|]; [|done].
  cbn -[Z.testbit]. by case_match.
Qed.

(** The rows [k] from position [count] on are written, the others stay. *)
Lemma append_rows d count off k mem st l :
  count = length l -> (count + k <= length mem)%nat ->
  (forall i v, l !! i = Some (Some v) -> mem !! i = Some v) -> (forall v, v ∈ l -> value_known st v) ->
  exists mem' st', fold_left (append_row d count off) (seq 0 k) (mem, st) = (mem', st') /\ length mem' = length mem
    /\ (forall i v, (l ++ map (row d) (seq off k)) !! i = Some (Some v) -> mem' !! i = Some v)
    /\ (forall v, v ∈ l ++ map (row d) (seq off k) -> value_known st' v).
Proof.
  intros Hc. induction k as [|k IH]; intros Hk Hv Hst; [exists mem, st; cbn; by rewrite app_nil_r|].
  destruct IH as (mem' & st' & E & Hl & Hv' & Hst'); [lia|done|done|]. rewrite seq_S, fold_left_app, E. rewrite Nat.add_0_l. cbn [fold_left].
  rewrite seq_S, map_app, app_assoc. cbn [map]. set (old := l ++ map (row d) (seq off k)) in *.
  assert (length old = count + k)%nat as Hold by (unfold old; rewrite length_app, length_map, length_seq; lia).
  unfold append_row. pose proof (append_row_row d off k) as Hrow. destruct (negb _ && negb _); rewrite Hrow;
    (eexists _, _; split; [reflexivity|]; split; [by rewrite length_insert|]; split).
  - intros i v. rewrite lookup_app_Some. intros [H|[Hge [H1 H2]%list_lookup_singleton_Some]]; [|done].
    rewrite list_lookup_insert_ne; [by apply Hv'|]. apply lookup_lt_Some in H. lia.
  - intros v. rewrite elem_of_app, list_elem_of_singleton. intros [H| ->]; [by apply Hst'|done].
  - intros i v. rewrite lookup_app_Some. intros [H|[Hge [H1 [= <-]]%list_lookup_singleton_Some]].
    + rewrite list_lookup_insert_ne; [by apply Hv'|]. apply lookup_lt_Some in H. lia.
    + replace i with (count + k)%nat by lia. apply list_lookup_insert_eq. lia.
  - intros v. rewrite elem_of_app, list_elem_of_singleton. intros [H| ->]; [by apply value_known_update, Hst'|apply Update_covers].
Qed.

Lemma fixed_append s l d off n :
  rep s l -> exists s' k, FixedSizeAppend s d off n = (s', k) /\ (k <= n)%nat /\ rep s' (l ++ map (row d) (seq off k)) /\ seg_start s' = seg_start s.
Proof.
  intros [H1 H2 H3 H4 H5]. unfold FixedSizeAppend. set (k := Nat.min n (max_tuple_count s - seg_count s)).
  destruct (append_rows d (seg_count s) off k (memory s) (stats s) l H1) as (mem & st & E & Hl & Hv & Hst); [lia|done|done|].
  rewrite E. eexists _, k. split; [reflexivity|]. split; [lia|]. split; [|done]. constructor; cbn; [|unfold max_tuple_count in *; cbn; lia| |done|done].
  - rewrite length_app, length_map, length_seq. lia.
  - unfold max_tuple_count in *. cbn. lia.
Qed.

Lemma scan_partial_lookup s l row n result off :
  rep s l -> (off + n <= length result)%nat -> (row - seg_start s + n <= length l)%nat ->
  length (FixedSizeScanPartial s row n result off) = length result
  /\ (forall i, (i < n)%nat -> FixedSizeScanPartial s row n result off !! (off + i)%nat = memory s !! (row - seg_start s + i)%nat)
  /\ (forall j, (j < off)%nat -> FixedSizeScanPartial s row n result off !! j = result !! j).
Proof.
  intros [H1 H2 H3 _ _] Hoff Hn. unfold FixedSizeScanPartial. set (mid := take n _).
  assert (length mid = n) as Hmid by (unfold mid; rewrite length_take, length_drop; lia).
  assert (length (take off result) = off) as Hoff' by (rewrite length_take; lia). split; [|split].
  - rewrite !length_app, length_drop, Hmid, Hoff'. lia.
  - intros i Hi. rewrite lookup_app_r, Hoff' by lia. rewrite lookup_app_l by lia. replace (off + i - off)%nat with i by lia.
    unfold mid. by rewrite lookup_take_lt, lookup_drop by lia.
  - intros j Hj. rewrite lookup_app_l by lia. by rewrite lookup_take_lt by lia.
Qed.

#[global] Instance fixed_laws :
  ColumnData.SegmentLaws rep row value_known reads (fun _ _ => True) (fun cap result => (cap <= length result)%nat) (fun size => (sizeof <= size)%nat).
Proof.
  split.
  - by intros s l [H _ _ _ _].
  - intros st size Hsize. split; [|done]. constructor; cbn; [done|by rewrite length_map, length_seq|lia|done|by intros v ?%elem_of_nil].
  - intros st s l [H1 H2 H3 H4 H5]. split; [by constructor|done].
  - intros s l d off n. apply fixed_append.
  - intros st size d off n Hsize Hn. unfold ColumnData.Append, ops, FixedSizeAppend. rewrite (surjective_pairing (fold_left _ _ _)). cbn.
    unfold max_tuple_count. cbn. assert (1 <= size / sizeof)%nat by (apply Nat.div_le_lower_bound; lia). lia.
  - intros s l row0 [H1 H2 H3 H4 H5] Hrow. cbn in Hrow. split; [|done]. constructor; cbn; [by rewrite length_take, Nat.min_l by lia|done|unfold max_tuple_count in *; cbn; lia| |].
    + intros i v [Hl _]%lookup_take_Some. by apply H4.
    + intros v Hv. apply H5. rewrite <-(take_drop (row0 - seg_start s) l), elem_of_app. by left.
  - intros st s l [v|] [_ _ _ _ H5] Hv; [|done]. specialize (H5 _ Hv). apply numeric_Merge_right. exact H5.
  - intros st s [v|] Hv; [|done]. by apply numeric_Merge_left.
  - intros s l row0 n cap r off Hrep Hgood Hrow Hn Hoff _. cbn in *. destruct (scan_partial_lookup s l row0 n r off Hrep) as (H1 & H2 & H3); [lia|done|].
    split; [lia|]. split; [|split; [|done]].
    + intros i Hi. destruct (lookup_lt_is_Some_2 l (row0 - seg_start s + i)) as [[v|] Hv]; [lia|..]; (eexists; split; [exact Hv|]); [|done]. cbn.
      rewrite H2 by done. by apply (r_values s l Hrep).
    + intros _ j [v|] Hj; [|done]. cbn. by rewrite H3.
  - intros s l row0 n cap r Hrep _ Hrow Hn _ _ i Hi. cbn in *. destruct (lookup_lt_is_Some_2 l (row0 - seg_start s + i)) as [[v|] Hv]; [lia|..]; (eexists; split; [exact Hv|]); [|done]. cbn.
    unfold FixedSizeScan. rewrite lookup_drop. by apply (r_values s l Hrep).
  - intros s l i cap r idx [v|] Hrep Hgood Hv Hidx _; [|done]. cbn in *. unfold FixedSizeFetchRow. rewrite list_lookup_insert_eq by lia. f_equal.
    by apply list_lookup_total_correct, (r_values s l Hrep).
Qed.

End fixed.
End FixedSegment.

(** ** Segments of NULLs *)

Module ValidityColumn.
Import NumericStats TableFilter.

Section validity.
Context {T : Type}.
Implicit Types (s : ValiditySegment.Segment) (d : UnifiedVectorFormat T).

Definition set_seg_start (start : nat) s : ValiditySegment.Segment :=
  ValiditySegment.mkSegment start (ValiditySegment.seg_count s) (ValiditySegment.segment_size s) (ValiditySegment.words s)
    (ValiditySegment.has_null s) (ValiditySegment.has_no_null s).

(** The statistics of a validity segment are merged into those of the column of the values: of those of another type,
    [Merge] takes only the flags. *)
Definition Merge_validity (st : BaseStatistics T) s : BaseStatistics T :=
  set_nulls (has_null st || ValiditySegment.has_null s) (has_no_null st || ValiditySegment.has_no_null s) st.

Instance ops : ColumnData.SegmentOps ValiditySegment.Segment (UnifiedVectorFormat T) (BaseStatistics T) ValidityMask.t := {
  ColumnData.seg_start := ValiditySegment.seg_start;
  ColumnData.seg_count := ValiditySegment.seg_count;
  ColumnData.CreateTransientSegment := ValiditySegment.ValidityInitSegment;
  ColumnData.set_seg_start := set_seg_start;
  ColumnData.Append := ValiditySegment.ValidityAppend;
  ColumnData.RevertSegment := ValiditySegment.ValidityRevertAppend;
  ColumnData.ScanEntire := ValiditySegment.ValidityScan;
  ColumnData.ScanPartial := ValiditySegment.ValidityScanPartial;
  ColumnData.FetchSegmentRow := ValiditySegment.ValidityFetchRow;
  ColumnData.Merge := Merge_validity
}.

Definition known (st : BaseStatistics T) (b : bool) : Prop := if b then has_no_null st = true else has_null st = true.
Definition segment_known s (b : bool) : Prop := if b then ValiditySegment.has_no_null s = true else ValiditySegment.has_null s = true.

Record rep s (l : list bool) : Prop := {
  r_wf : ValiditySegment.seg_wf s;
  r_rows : ValiditySegment.rows s = l;
  r_known b : b ∈ l -> segment_known s b
}.

Definition valid d (i : nat) : bool := ValidityMask.RowIsValid (validity d) (get_index (vsel d) i).

Lemma taken_valid d off k : ValiditySegment.taken d off k = map (valid d) (seq off k).
Proof.
  unfold ValiditySegment.taken. by apply (ValiditySegment.map_seq_shift _ _ 0 off).
Qed.

#[global] Instance validity_laws :
  ColumnData.SegmentLaws rep valid known (fun m i b => ValidityMask.RowIsValid m i = b) (fun m i => ValidityMask.RowIsValid m i = true)
    (fun cap m => ValidityMask.wf m /\ (cap <= ValidityMask.capacity m)%nat)
    (fun size => (size mod 8 = 0)%nat /\ (ValiditySegment.STANDARD_MASK_SIZE <= size)%nat).
Proof.
  assert (forall s l i, rep s l -> (i < length l)%nat -> l !! i = Some (ValidityMask.bit (ValiditySegment.words s) i)) as Hbit.
  { intros s l i [_ <- _] Hi. rewrite ValiditySegment.rows_length in Hi. by apply ValiditySegment.rows_lookup. }
  assert (forall s l, rep s l -> ValiditySegment.seg_count s = length l) as Hcount by (intros s l [_ <- _]; by rewrite ValiditySegment.rows_length).
  split.
  - exact Hcount.
  - intros st size [Hsize _]. split; [|done]. constructor; [by apply ValiditySegment.init_wf|done|by intros b ?%elem_of_nil].
  - intros st s l [[H1 H2 H3 H4] H5 H6]. split; [|done]. constructor; [by constructor|done|done].
  - intros s l d off n [Hwf Hl Hk]. destruct (ValiditySegment.ValidityAppend_spec s d off n Hwf) as (s' & E & Hwf' & Est & _ & Erows & Hn & Hnn & Hnew).
    rewrite taken_valid in *. exists s', (Nat.min n (ValiditySegment.max_tuples s - ValiditySegment.seg_count s)). split; [exact E|]. split; [lia|]. split; [|exact Est].
    constructor; [done|by rewrite Erows, Hl|]. intros b [Hb|Hb]%elem_of_app; [|by apply Hnew in Hb]. apply Hk in Hb. destruct b; cbn in *; auto.
  - intros st size d off n [Hmod Hsize] Hn. cbn. destruct (ValiditySegment.ValidityAppend_spec (ValiditySegment.ValidityInitSegment st size) d off n) as (s' & -> & _); [by apply ValiditySegment.init_wf|].
    cbn. unfold ValiditySegment.max_tuples. cbn. assert (1 <= size / ValiditySegment.STANDARD_MASK_SIZE)%nat by (apply Nat.div_le_lower_bound; [by vm_compute|lia]).
    pose proof SVS_pos. nia.
  - intros s l row Hrep Hrow. pose proof (Hcount _ _ Hrep) as Hc. destruct Hrep as [Hwf Hl Hk]. cbn in *.
    destruct (ValiditySegment.ValidityRevertAppend_spec s row Hwf) as (Hwf' & Est & _ & Erows & Hn & Hnn); [lia|]. split; [|done].
    constructor; [done|by rewrite Erows, Hl|]. intros b Hb. unfold segment_known. rewrite Hn, Hnn. apply Hk. rewrite <-(take_drop (row - ValiditySegment.seg_start s) l), elem_of_app. by left.
  - intros st s l b [_ _ Hk] Hb. specialize (Hk b Hb). unfold known, ColumnData.Merge, ops, Merge_validity. destruct b; cbn in *; rewrite Hk; apply orb_true_r.
  - intros st s b. unfold known, ColumnData.Merge, ops, Merge_validity. by destruct b; cbn; intros ->.
  - intros s l row n cap r off Hrep [Hw Hcap] Hrow Hn Hoff Hfresh. cbn in *. pose proof (Hcount _ _ Hrep) as Hc.
    destruct (ValiditySegment.ValidityScanPartial_rows s row n r off (r_wf _ _ Hrep) Hw Hrow) as (H1 & H2 & H3); [lia|lia|].
    split; [split; [done|lia]|]. split; [|split].
    + intros i Hi. eexists. split; [apply (Hbit s l _ Hrep); lia|]. destruct (H3 (off + i)%nat) as [H4 _]; [lia|]. rewrite H4, Hfresh by lia. cbn. f_equal. lia.
    + intros Hz j b Hj <-. destruct (H3 j) as (_ & _ & H4); [lia|]. apply H4; [done|]. destruct Hz as [-> | ->]; [left|lia]. by rewrite Nat.sub_diag.
    + intros Hend j Hj Hf. destruct (H3 j) as (_ & H4 & _); [lia|]. rewrite H4 by lia. done.
  - intros s l row n cap r Hrep [Hw Hcap] Hrow Hn Hn' Hfresh i Hi. cbn in *. pose proof (Hcount _ _ Hrep) as Hc. eexists. split; [apply (Hbit s l _ Hrep); lia|].
    apply ValiditySegment.ValidityScan_rows; (done || lia || apply Hrep).
  - intros s l i cap r idx b Hrep [Hw Hcap] Hb Hidx Hfresh. cbn in *. rewrite ValiditySegment.ValidityFetchRow_row by (done || lia).
    rewrite (Hbit s l i Hrep) in Hb by (by apply lookup_lt_Some in Hb). by injection Hb.
Qed.

End validity.
End ValidityColumn.

(** ** The column *)

Module StandardColumn.
Import NumericStats TableFilter ColumnData.

Record t (T : Type) : Type := mk {
  data : Column (FixedSegment.Segment T);
  validity : Column ValiditySegment.Segment;
  statistics : BaseStatistics T
}.
Arguments mk {T}.
Arguments data {T}.
Arguments validity {T}.
Arguments statistics {T}.

Section standard.
Context {T : Type} `{!Comparison T} `{!Inhabited T}.
(** [sizeof] is the size of a value, that of the type of the validity column is 1. *)
Context (block_size MAX_ROW_ID sizeof : nat) (NullValue MaximumValue MinimumValue : T) (uninitialized : nat -> T) (garbage : NumericStatsData T).
Implicit Types (c : t T) (d : UnifiedVectorFormat T) (rs : list (option T)).

#[local] Instance data_ops : SegmentOps (FixedSegment.Segment T) (UnifiedVectorFormat T) (BaseStatistics T) (list T) :=
  FixedSegment.ops sizeof NullValue MaximumValue MinimumValue uninitialized garbage.
#[local] Instance validity_ops : SegmentOps ValiditySegment.Segment (UnifiedVectorFormat T) (BaseStatistics T) ValidityMask.t := ValidityColumn.ops.

(** A new column of the row group that begins at row [start]. *)
Definition create (start : nat) : t T := mk (mkColumn start 0 []) (mkColumn start 0 []) (CreateEmpty MaximumValue MinimumValue garbage).

Definition SetStart (new_start : nat) c : t T := mk (ColumnData.SetStart new_start (data c)) (ColumnData.SetStart new_start (validity c)) (statistics c).

Definition InitializeAppend c : t T :=
  mk (ColumnData.InitializeAppend block_size sizeof MAX_ROW_ID (data c)) (ColumnData.InitializeAppend block_size 1 MAX_ROW_ID (validity c)) (statistics c).

(** [Append] of the rows of a vector: [AppendData] with the statistics of the column. *)
Definition Append c d (count : nat) : option (t T) :=
  '(data, stats) ← AppendData block_size sizeof MAX_ROW_ID (data c) (statistics c) d count;
  '(validity, stats) ← AppendData block_size 1 MAX_ROW_ID (validity c) stats d count;
  Some (mk data validity stats).

Definition RevertAppend c (start_row : nat) : option (t T) :=
  data ← ColumnData.RevertAppend (data c) start_row;
  validity ← ColumnData.RevertAppend (validity c) start_row;
  Some (mk data validity (statistics c)).

(** The states of the scans of the two columns, and a flat vector. *)
Definition ScanState : Type := ColumnScanState * ColumnScanState.
Definition Vector : Type := list T * ValidityMask.t.

Definition InitializeScanWithOffset c (row_idx : nat) : ScanState :=
  (ColumnData.InitializeScanWithOffset (data c) row_idx, ColumnData.InitializeScanWithOffset (validity c) row_idx).

Definition GetVectorScanType c (st : ScanState) (scan_count : nat) : option ScanVectorType :=
  scan_type ← ColumnData.GetVectorScanType (data c) st.1 scan_count;
  match scan_type with
  | SCAN_FLAT_VECTOR => Some SCAN_FLAT_VECTOR
  | SCAN_ENTIRE_VECTOR => ColumnData.GetVectorScanType (validity c) st.2 scan_count
  end.

Definition Scan c (st : ScanState) (result : Vector) (target_count : nat) : option (ScanState * Vector * nat) :=
  scan_type ← GetVectorScanType c st target_count;
  '(st1, values, scan_count) ← ScanVector (data c) st.1 result.1 target_count scan_type 0;
  '(st2, mask, _) ← ScanVector (validity c) st.2 result.2 target_count scan_type 0;
  Some ((st1, st2), (values, mask), scan_count).

Definition Skip c (st : ScanState) (s_count : nat) : ScanState := (ColumnData.Skip (data c) st.1 s_count, ColumnData.Skip (validity c) st.2 s_count).

Definition FetchRow c (row_id : nat) (result : Vector) (result_idx : nat) : option Vector :=
  values ← ColumnData.FetchRow (data c) row_id result.1 result_idx;
  mask ← ColumnData.FetchRow (validity c) row_id result.2 result_idx;
  Some (values, mask).

Definition CheckZonemap c (filter : TableFilter T) : result FilterPropagateResult := Column_CheckZonemap (Some (statistics c)) filter.

(** The vector of a result, and the one that a scan is given. *)
Definition flat (result : Vector) : UnifiedVectorFormat T := mkVdata None result.1 result.2.
Definition new_vector : Vector := (map uninitialized (seq 0 STANDARD_VECTOR_SIZE), ValidityMask.mk None STANDARD_VECTOR_SIZE).

(** A scan of the vectors from number [v] on, of which it scans or skips each. *)
Fixpoint scan_vectors c (st : ScanState) (v : nat) (plan : list bool) : option (list (option (list (option T)))) :=
  match plan with
  | [] => Some []
  | true :: plan =>
      '(st, result, scan_count) ← Scan c st new_vector (GetVectorCount (data c) v);
      rest ← scan_vectors c st (S v) plan;
      Some (Some (map (row (flat result)) (seq 0 scan_count)) :: rest)
  | false :: plan =>
      rest ← scan_vectors c (Skip c st STANDARD_VECTOR_SIZE) (S v) plan;
      Some (None :: rest)
  end.

(** ** The rows of a column *)

Context {laws : CompareLaws T}.
Hypothesis Hsizeof : (0 < sizeof <= block_size)%nat.
Hypothesis Hblock : (block_size mod 8 = 0)%nat.
Hypothesis Hmin : (ValiditySegment.STANDARD_MASK_SIZE <= block_size)%nat.

#[local] Instance data_laws :
  SegmentLaws (FixedSegment.rep sizeof) row FixedSegment.value_known FixedSegment.reads (fun _ _ => True) (fun cap result => (cap <= length result)%nat) (fun size => (sizeof <= size)%nat).
Proof. apply FixedSegment.fixed_laws; [exact laws|lia]. Qed.
#[local] Instance validity_laws :
  SegmentLaws ValidityColumn.rep ValidityColumn.valid ValidityColumn.known (fun m i b => ValidityMask.RowIsValid m i = b) (fun m i => ValidityMask.RowIsValid m i = true)
    (fun cap m => ValidityMask.wf m /\ (cap <= ValidityMask.capacity m)%nat) (fun size => (size mod 8 = 0)%nat /\ (ValiditySegment.STANDARD_MASK_SIZE <= size)%nat).
Proof. apply ValidityColumn.validity_laws. Qed.

Lemma data_size row : (sizeof <= transient_size block_size sizeof MAX_ROW_ID row)%nat.
Proof. unfold transient_size. pose proof SVS_pos. destruct (row =? MAX_ROW_ID)%nat; destruct (_ <? _)%nat; nia. Qed.

Lemma validity_size row : (transient_size block_size 1 MAX_ROW_ID row mod 8 = 0)%nat /\ (ValiditySegment.STANDARD_MASK_SIZE <= transient_size block_size 1 MAX_ROW_ID row)%nat.
Proof.
  unfold transient_size. destruct (row =? MAX_ROW_ID)%nat; (destruct (_ <? _)%nat; [by split|]); [|by split].
  split; [by vm_compute|]. apply Nat.leb_le. by vm_compute.
Qed.

Definition is_valid (r : option T) : bool := bool_decide (is_Some r).

Definition data_rep : Column (FixedSegment.Segment T) -> list (option T) -> Prop := column_rep (rep := FixedSegment.rep sizeof).
Definition validity_rep : Column ValiditySegment.Segment -> list bool -> Prop := column_rep (rep := ValidityColumn.rep).

(** The column begins at row [start] and has the rows [rs]: its values, its NULLs, and its statistics know them. *)
Record standard_rep c (start : nat) rs : Prop := {
  s_data : data_rep (data c) rs;
  s_validity : validity_rep (validity c) (map is_valid rs);
  s_data_start : ColumnData.start (data c) = start;
  s_validity_start : ColumnData.start (validity c) = start;
  s_covers : covers (statistics c) rs
}.

Lemma create_spec start : standard_rep (create start) start [].
Proof. split; [by exists []|by exists []|done|done|by apply Forall_nil]. Qed.

Lemma standard_SetStart_spec c start rs new_start : standard_rep c start rs -> standard_rep (SetStart new_start c) new_start rs.
Proof.
  intros [H1 H2 H3 H4 H5]. destruct (ColumnData.column_SetStart_spec (laws := data_laws) _ _ new_start H1) as [H1' _].
  destruct (ColumnData.column_SetStart_spec (laws := validity_laws) _ _ new_start H2) as [H2' _]. by split.
Qed.

Lemma standard_InitializeAppend_spec c start rs :
  standard_rep c start rs -> standard_rep (InitializeAppend c) start rs
    /\ segments (data (InitializeAppend c)) <> [] /\ segments (validity (InitializeAppend c)) <> [].
Proof.
  intros [H1 H2 H3 H4 H5]. destruct (InitializeAppend_rep block_size sizeof MAX_ROW_ID (laws := data_laws) data_size _ _ H1) as (H1' & N1 & S1).
  destruct (InitializeAppend_rep block_size 1 MAX_ROW_ID (laws := validity_laws) validity_size _ _ H2) as (H2' & N2 & S2).
  split; [|by split]. split; [done|done|by rewrite <-H3|by rewrite <-H4|done].
Qed.

Lemma Merge_keeps (st other : BaseStatistics T) rs : covers st rs -> covers (NumericStats.Merge st other) rs.
Proof. intros H. rewrite <-(app_nil_r rs). apply Merge_covers; [done|]. by apply Forall_nil. Qed.

Lemma Merge_validity_keeps (st : BaseStatistics T) s rs : covers st rs -> covers (ValidityColumn.Merge_validity st s) rs.
Proof.
  intros H. eapply Forall_impl; [exact H|]. intros [v|]; cbn; [intros [-> ?]; by split|by intros ->].
Qed.

Lemma is_valid_row d i : is_valid (row d i) = ValidityColumn.valid d i.
Proof. unfold is_valid, row, ValidityColumn.valid. by destruct (ValidityMask.RowIsValid _ _). Qed.

(** Appending rows of a vector never fails, adds their values and NULLs, and the statistics know them. *)
Lemma standard_Append_spec c start rs d n :
  standard_rep c start rs -> segments (data c) <> [] -> segments (validity c) <> [] ->
  exists c', Append c d n = Some c' /\ standard_rep c' start (rs ++ map (row d) (seq 0 n)).
Proof.
  intros [H1 H2 H3 H4 H5] N1 N2. unfold Append.
  destruct (AppendData_spec block_size sizeof MAX_ROW_ID (laws := data_laws) data_size (data c) (statistics c) d n rs H1 N1) as (data' & st1 & E1 & R1 & _ & S1 & _ & K1).
  destruct (AppendData_spec block_size 1 MAX_ROW_ID (laws := validity_laws) validity_size (validity c) st1 d n _ H2 N2) as (validity' & st2 & E2 & R2 & _ & S2 & _ & K2).
  rewrite E1. cbn. rewrite E2. cbn. eexists. split; [reflexivity|]. set (new := map (row d) (seq 0 n)) in *.
  assert (map is_valid new = map (ValidityColumn.valid d) (seq 0 n)) as Hnew by (unfold new; rewrite map_map; apply map_ext; intros i; apply is_valid_row).
  split; [done|by rewrite map_app, Hnew|by rewrite <-H3|by rewrite <-H4|]. cbn. apply Forall_app. split.
  - apply (append_loop_stats (ops := validity_ops) block_size 1 MAX_ROW_ID (fun st => covers st rs)) in E2; [done|intros st s; apply Merge_validity_keeps|].
    apply (append_loop_stats (ops := data_ops) block_size sizeof MAX_ROW_ID (fun st => covers st rs)) in E1; [done|intros st s; apply Merge_keeps|done].
  - apply List.Forall_forall. intros r Hr%list_elem_of_In. specialize (K1 r Hr).
    assert (FixedSegment.value_known st2 r) as K1' by (apply (append_loop_stats (ops := validity_ops) block_size 1 MAX_ROW_ID (fun st => FixedSegment.value_known st r)) in E2; [done|by intros st s|done]).
    specialize (K2 (is_valid r)). rewrite <-Hnew in K2. specialize (K2 ltac:(by apply list_elem_of_fmap_2)). by destruct r.
Qed.

Lemma standard_RevertAppend_spec c start rs row :
  standard_rep c start rs -> (start <= row <= start + length rs)%nat ->
  exists c', RevertAppend c row = Some c' /\ standard_rep c' start (take (row - start) rs).
Proof.
  intros [H1 H2 <- H4 H5] Hrow. unfold RevertAppend.
  destruct (ColumnData.column_RevertAppend_spec (laws := data_laws) (data c) rs row H1 Hrow) as (d' & -> & R1 & S1).
  destruct (ColumnData.column_RevertAppend_spec (laws := validity_laws) (validity c) _ row H2) as (v' & -> & R2 & S2); [by rewrite H4, length_map|].
  cbn. eexists. split; [reflexivity|]. split; [done|cbn; by rewrite <-firstn_map, <-H4|done|exact (eq_trans S2 H4)|].
  unfold covers in *. rewrite <-(take_drop (row - ColumnData.start (data c)) rs) in H5. by apply Forall_app in H5 as [H5 _].
Qed.

(** *** Scans *)

Definition ready c (st : ScanState) (row : nat) : Prop :=
  positioned (data c) st.1 /\ positioned (validity c) st.2 /\ row_index st.1 = row /\ row_index st.2 = row.

Lemma row_count c start rs : standard_rep c start rs -> count (data c) = length rs /\ count (validity c) = length rs.
Proof. intros [(? & _ & _ & _ & H1) (? & _ & _ & _ & H2) _ _ _]. by rewrite length_map in H2. Qed.

Lemma InitializeScan_ready c start rs row :
  standard_rep c start rs -> (start <= row < start + length rs)%nat -> ready c (InitializeScanWithOffset c row) row.
Proof.
  intros Hc Hrow. destruct (row_count _ _ _ Hc) as [C1 C2]. destruct Hc as [H1 H2 H3 H4 _].
  destruct (InitializeScan_positioned (laws := data_laws) _ _ row H1) as [P1 R1]; [lia|].
  destruct (InitializeScan_positioned (laws := validity_laws) _ _ row H2) as [P2 R2]; [lia|]. done.
Qed.

Lemma standard_Scan_spec c start rs st row n result :
  standard_rep c start rs -> ready c st row -> (start <= row)%nat -> (0 < n)%nat -> (row + n <= start + length rs)%nat ->
  (n <= length result.1)%nat -> ValidityMask.wf result.2 -> (n <= ValidityMask.capacity result.2)%nat -> (forall j, (j < n)%nat -> ValidityMask.RowIsValid result.2 j = true) ->
  exists st' result', Scan c st result n = Some (st', result', n) /\ ready c st' (row + n)
    /\ map (TableFilter.row (flat result')) (seq 0 n) = take n (drop (row - start) rs).
Proof.
  intros Hc (P1 & P2 & R1 & R2) Hstart Hn Hrow Hlen Hwf Hcap Hfresh. destruct (row_count _ _ _ Hc) as [C1 C2]. destruct Hc as [H1 H2 H3 H4 _].
  unfold Scan, GetVectorScanType. destruct (scan_type_known (data c) st.1 n P1) as [ty1 E1]; [lia|]. destruct (scan_type_known (validity c) st.2 n P2) as [ty2 E2]; [lia|].
  rewrite E1. cbn. set (ty := match ty1 with SCAN_FLAT_VECTOR => Some SCAN_FLAT_VECTOR | _ => _ end).
  assert (exists ty', ty = Some ty' /\ (ty' = SCAN_ENTIRE_VECTOR -> ty1 = SCAN_ENTIRE_VECTOR /\ ty2 = SCAN_ENTIRE_VECTOR)) as (ty' & -> & Hty).
  { unfold ty. destruct ty1; [|by exists SCAN_FLAT_VECTOR]. rewrite E2. exists ty2. split; [done|]. by intros ->. }
  destruct (ScanVector_spec (laws := data_laws) (data c) rs st.1 result.1 n ty' (length result.1) H1 P1 Hn) as (st1 & values & S1 & P1' & R1' & V1); [lia| |done|lia|done|].
  { intros Ht. apply Hty in Ht as [-> _]. exact E1. }
  destruct (ScanVector_spec (laws := validity_laws) (validity c) _ st.2 result.2 n ty' (ValidityMask.capacity result.2) H2 P2 Hn) as (st2 & mask & S2 & P2' & R2' & V2); [lia| |done|lia|done|].
  { intros Ht. apply Hty in Ht as [_ ->]. exact E2. }
  cbn. rewrite S1. cbn. rewrite S2. cbn. eexists _, _. split; [reflexivity|]. split; [split; [done|]; split; [done|]; cbn; lia|].
  apply list_eq. intros i. destruct (decide (i < n)%nat) as [Hi|Hi].
  - rewrite lookup_take_lt, lookup_drop by done. change (map ?f ?l) with (f <$> l). rewrite list_lookup_fmap, lookup_seq_lt by done. cbn.
    destruct (V1 i Hi) as (v & Hv & Hr). destruct (V2 i Hi) as (b & Hb & Hm). rewrite R1, H3 in Hv. rewrite R2, H4 in Hb.
    change (map ?f ?l) with (f <$> l) in Hb. rewrite list_lookup_fmap, Hv in Hb. injection Hb as Hb. rewrite Hv. f_equal.
    unfold TableFilter.row. cbn. rewrite Hm, <-Hb. destruct v as [v|]; [|done]. cbn in *. f_equal. by apply list_lookup_total_correct.
  - rewrite !lookup_ge_None_2; [done|rewrite length_take; lia|rewrite length_map, length_seq; lia].
Qed.

Lemma new_vector_ready n : (n <= STANDARD_VECTOR_SIZE)%nat ->
  (n <= length new_vector.1)%nat /\ ValidityMask.wf new_vector.2 /\ (n <= ValidityMask.capacity new_vector.2)%nat
  /\ forall j, (j < n)%nat -> ValidityMask.RowIsValid new_vector.2 j = true.
Proof. intros Hn. unfold new_vector. cbn [fst snd]. rewrite length_map, length_seq. by split. Qed.

Lemma Skip_ready c start rs st row :
  standard_rep c start rs -> ready c st row -> (row < start + length rs)%nat -> ready c (Skip c st STANDARD_VECTOR_SIZE) (row + STANDARD_VECTOR_SIZE).
Proof.
  intros Hc (P1 & P2 & R1 & R2) Hrow. destruct (row_count _ _ _ Hc) as [C1 C2]. destruct Hc as [H1 H2 H3 H4 _].
  destruct (Skip_positioned (laws := data_laws) _ _ st.1 STANDARD_VECTOR_SIZE H1 P1) as [Q1 S1].
  destruct (Skip_positioned (laws := validity_laws) _ _ st.2 STANDARD_VECTOR_SIZE H2 P2) as [Q2 S2].
  split; [done|]. split; [done|]. rewrite <-R1 at 1. rewrite <-R2 at 1. split; [apply S1; lia|apply S2; lia].
Qed.

(** The rows of vector [v]. *)
Definition vector_rows rs (v : nat) : list (option T) := take STANDARD_VECTOR_SIZE (drop (v * STANDARD_VECTOR_SIZE) rs).

(** A scan that reads or skips the vectors in turn reads the rows of each. *)
Lemma scan_vectors_spec c start rs plan st v :
  standard_rep c start rs -> (plan <> [] -> ready c st (start + v * STANDARD_VECTOR_SIZE)) ->
  ((v + length plan) * STANDARD_VECTOR_SIZE < length rs + STANDARD_VECTOR_SIZE)%nat ->
  scan_vectors c st v plan = Some (imap (fun i b => if (b : bool) then Some (vector_rows rs (v + i)) else None) plan).
Proof.
  intros Hc. pose proof SVS_pos as Hsvs. revert st v. induction plan as [|b plan IH]; intros st v Hst Hlen; [done|]. cbn in Hlen.
  assert (v * STANDARD_VECTOR_SIZE < length rs)%nat as Hv by nia. specialize (Hst ltac:(done)). destruct (row_count _ _ _ Hc) as [C1 _].
  rewrite imap_cons. assert (imap ((fun i b => if (b : bool) then Some (vector_rows rs (v + i)) else None) ∘ S) plan
    = imap (fun i b => if (b : bool) then Some (vector_rows rs (S v + i)) else None) plan) as ->.
  { apply imap_ext. intros i x _. cbn. by rewrite Nat.add_succ_r. }
  assert (plan <> [] -> S v * STANDARD_VECTOR_SIZE < length rs)%nat as Hnext by (destruct plan; cbn in Hlen; [done|intros _; nia]).
  destruct b; cbn [scan_vectors].
  - set (n := GetVectorCount (data c) v). assert (n = Nat.min STANDARD_VECTOR_SIZE (length rs - v * STANDARD_VECTOR_SIZE)) as En by (unfold n, GetVectorCount; by rewrite C1).
    destruct (new_vector_ready n) as (V1 & V2 & V3 & V4); [lia|].
    destruct (standard_Scan_spec c start rs st _ n new_vector Hc Hst) as (st' & result' & E & Hst' & Hrows); [lia|lia|lia|done..|].
    rewrite E. cbn. rewrite (IH st' (S v)); [| |cbn in Hlen; lia].
    + cbn. rewrite Hrows, Nat.add_0_r. do 4 f_equal. unfold vector_rows. replace (start + v * STANDARD_VECTOR_SIZE - start)%nat with (v * STANDARD_VECTOR_SIZE)%nat by lia.
      rewrite En, <-take_take, (take_ge (drop _ _)); [done|rewrite length_drop; lia].
    + intros Hne. specialize (Hnext Hne). replace (start + S v * STANDARD_VECTOR_SIZE)%nat with (start + v * STANDARD_VECTOR_SIZE + n)%nat by lia. done.
  - rewrite (IH _ (S v)); [done| |cbn in Hlen; lia]. intros Hne. specialize (Hnext Hne).
    replace (start + S v * STANDARD_VECTOR_SIZE)%nat with (start + v * STANDARD_VECTOR_SIZE + STANDARD_VECTOR_SIZE)%nat by lia. eapply Skip_ready; [done|done|lia].
Qed.

Lemma standard_FetchRow_spec c start rs row r result idx :
  standard_rep c start rs -> (start <= row)%nat -> rs !! (row - start)%nat = Some r ->
  (idx < length result.1)%nat -> ValidityMask.wf result.2 -> (idx < ValidityMask.capacity result.2)%nat -> ValidityMask.RowIsValid result.2 idx = true ->
  exists result', FetchRow c row result idx = Some result' /\ TableFilter.row (flat result') idx = r.
Proof.
  intros [H1 H2 H3 H4 _] Hrow Hr Hlen Hwf Hcap Hfresh. unfold FetchRow.
  destruct (ColumnData.column_FetchRow_spec (laws := data_laws) (data c) rs row result.1 (length result.1) idx r H1) as (values & E1 & V1); [lia|by rewrite H3|lia|done|done|].
  destruct (ColumnData.column_FetchRow_spec (laws := validity_laws) (validity c) _ row result.2 (ValidityMask.capacity result.2) idx (is_valid r) H2) as (mask & E2 & V2); [lia| |done|done|done|].
  { rewrite H4. change (map ?f ?l) with (f <$> l). by rewrite list_lookup_fmap, Hr. }
  rewrite E1. cbn. rewrite E2. cbn. eexists. split; [reflexivity|]. unfold TableFilter.row. cbn. rewrite V2. destruct r as [v|]; [|done].
  cbn in *. f_equal. by apply list_lookup_total_correct.
Qed.

(** *** Histories *)

Inductive operation : Type :=
| OpAppend (d : UnifiedVectorFormat T) (count : nat)
| OpRevertAppend (start_row : nat)
| OpSetStart (new_start : nat).

Definition apply_op c (op : operation) : option (t T) :=
  match op with
  | OpAppend d count => Append (InitializeAppend c) d count
  | OpRevertAppend start_row => RevertAppend c start_row
  | OpSetStart new_start => Some (SetStart new_start c)
  end.

Fixpoint apply_ops c (ops : list operation) : option (t T) :=
  match ops with
  | [] => Some c
  | op :: ops => c ← apply_op c op; apply_ops c ops
  end.

(** The specification: the first row and the rows. *)
Definition spec_op (st : nat * list (option T)) (op : operation) : nat * list (option T) :=
  match op with
  | OpAppend d count => (st.1, st.2 ++ map (row d) (seq 0 count))
  | OpRevertAppend start_row => (st.1, take (start_row - st.1) st.2)
  | OpSetStart new_start => (new_start, st.2)
  end.

Fixpoint valid_ops (st : nat * list (option T)) (ops : list operation) : bool :=
  match ops with
  | [] => true
  | op :: ops =>
      match op with
      | OpRevertAppend start_row => (st.1 <=? start_row)%nat && (start_row <=? st.1 + length st.2)%nat
      | _ => true
      end && valid_ops (spec_op st op) ops
  end.

Lemma apply_ops_spec c st ops :
  standard_rep c st.1 st.2 -> valid_ops st ops = true ->
  exists c', apply_ops c ops = Some c' /\ standard_rep c' (fold_left spec_op ops st).1 (fold_left spec_op ops st).2.
Proof.
  revert c st. induction ops as [|op ops IH]; intros c st Hc Hv; [by exists c|]. cbn in *. apply andb_true_iff in Hv as [Hop Hv].
  assert (exists c', apply_op c op = Some c' /\ standard_rep c' (spec_op st op).1 (spec_op st op).2) as (c' & -> & Hc').
  { destruct op as [d n|row|s]; cbn.
    - destruct (standard_InitializeAppend_spec _ _ _ Hc) as (Hc' & N1 & N2). by apply standard_Append_spec.
    - apply andb_true_iff in Hop as [H1%Nat.leb_le H2%Nat.leb_le]. by apply standard_RevertAppend_spec.
    - eexists. split; [reflexivity|]. by eapply standard_SetStart_spec. }
  cbn. by apply IH.
Qed.

(** *** What the row groups and scans ask of a column *)

(** The rows in the memory of the segments. *)
Definition data_rows c : list T := mjoin (map (fun s => take (FixedSegment.seg_count s) (FixedSegment.memory s)) (segments (data c))).
Definition valid_rows c : list bool := mjoin (map ValiditySegment.rows (segments (validity c))).
Definition rows c : list (option T) := zip_with (fun v (b : bool) => if b then Some v else None) (data_rows c) (valid_rows c).

Definition same_value (v : T) (r : option T) : Prop := forall x, r = Some x -> v = x.

Lemma data_rows_rep l ls :
  Forall2 (FixedSegment.rep sizeof) l ls ->
  Forall2 same_value (mjoin (map (fun s => take (FixedSegment.seg_count s) (FixedSegment.memory s)) l)) (mjoin ls).
Proof.
  induction 1 as [|s vs l ls [H1 H2 H3 H4 _] _ IH]; [by constructor|]. cbn [map]. rewrite !mjoin_cons. apply Forall2_app; [|done].
  apply Forall2_same_length_lookup_2; [rewrite length_take; lia|]. intros i v r [Hv _]%lookup_take_Some Hr x ->. apply H4 in Hr. congruence.
Qed.

Lemma rows_rep c start rs : standard_rep c start rs -> rows c = rs.
Proof.
  intros [(ls & H1 & <- & _ & _) (lv & H2 & E2 & _ & _) _ _ _]. apply data_rows_rep in H1. unfold rows, data_rows.
  assert (valid_rows c = map is_valid (mjoin ls)) as ->.
  { rewrite <-E2. unfold valid_rows. clear -H2. induction H2 as [|s l sl ll [_ H _] _ IH]; [done|]. cbn [map]. by rewrite !mjoin_cons, IH, H. }
  clear -H1. induction H1 as [|v [x|] l l' Hv _ IH]; [done|..]; cbn; f_equal; try done. by rewrite (Hv x).
Qed.

(** The chunk of a list of rows. *)
Definition mask_of (rs : list (option T)) : ValidityMask.t :=
  fold_left (fun m i => ValidityMask.Set_ m i (is_valid (rs !!! i))) (seq 0 (length rs)) (ValidityMask.mk None (length rs)).
Definition vector_of (rs : list (option T)) : UnifiedVectorFormat T := mkVdata None (map (default NullValue) rs) (mask_of rs).

Lemma vector_of_rows rs : map (row (vector_of rs)) (seq 0 (length rs)) = rs.
Proof.
  assert (forall k, (k <= length rs)%nat ->
    let m := fold_left (fun m i => ValidityMask.Set_ m i (is_valid (rs !!! i))) (seq 0 k) (ValidityMask.mk None (length rs)) in
    ValidityMask.wf m /\ ValidityMask.capacity m = length rs /\ forall j, (j < k)%nat -> ValidityMask.RowIsValid m j = is_valid (rs !!! j)) as H.
  { induction k as [|k IH]; intros Hk; cbv zeta; [by split; [by intros es [=]|split; [done|lia]]|].
    destruct IH as (H1 & H2 & H3); [lia|]. rewrite seq_S, fold_left_app, Nat.add_0_l. cbn [fold_left]. set (m := fold_left _ _ _) in *.
    split; [by apply ValidityMask.Set_wf|]. split; [by rewrite ValidityMask.Set_capacity|]. intros j Hj. rewrite ValidityMask.Set_row by (done || lia).
    case_decide as Hd; [by rewrite Hd|]. apply H3. lia. }
  destruct (H (length rs) (le_n _)) as (_ & _ & Hrow). apply list_eq. intros i. change (map ?f ?l) with (f <$> l). rewrite list_lookup_fmap.
  destruct (decide (i < length rs)%nat) as [Hi|Hi].
  - rewrite lookup_seq_lt by done. cbn. unfold row. cbn. fold (mask_of rs) in Hrow. rewrite Hrow by done.
    destruct (lookup_lt_is_Some_2 rs i Hi) as [r Hr]. rewrite (list_lookup_total_correct _ _ _ Hr), Hr. destruct r as [v|]; [|done]. cbn. do 2 f_equal.
    apply list_lookup_total_correct. change (map ?f ?l) with (f <$> l). by rewrite list_lookup_fmap, Hr.
  - rewrite (lookup_ge_None_2 rs) by lia. rewrite lookup_ge_None_2; [done|]. rewrite length_seq. lia.
Qed.

(** A column that was made by its operations. *)
Definition column : Type := {c : t T | exists rs, standard_rep c (ColumnData.start (data c)) rs}.
Definition column_start (c : column) : nat := ColumnData.start (data (`c)).
Definition contents (c : column) : list (option T) := rows (`c).

Lemma column_rep_contents (c : column) : standard_rep (`c) (column_start c) (contents c).
Proof. destruct c as [c [rs Hc]]. unfold contents, column_start. cbn. by rewrite (rows_rep _ _ _ Hc). Qed.

Lemma made_by c start rs : standard_rep c start rs -> exists rs, standard_rep c (ColumnData.start (data c)) rs.
Proof. intros H. exists rs. by rewrite (s_data_start _ _ _ H). Qed.

Lemma append_made (c : column) (chunk : list (option T)) :
  exists c', Append (InitializeAppend (`c)) (vector_of chunk) (length chunk) = Some c' /\ standard_rep c' (column_start c) (contents c ++ chunk).
Proof.
  destruct (standard_InitializeAppend_spec _ _ _ (column_rep_contents c)) as (H & N1 & N2).
  destruct (standard_Append_spec _ _ _ (vector_of chunk) (length chunk) H N1 N2) as (c' & E & Hc'). exists c'. split; [done|]. by rewrite vector_of_rows in Hc'.
Qed.

Lemma made_append (c : column) chunk :
  exists rs, standard_rep (default (`c) (Append (InitializeAppend (`c)) (vector_of chunk) (length chunk)))
               (ColumnData.start (data (default (`c) (Append (InitializeAppend (`c)) (vector_of chunk) (length chunk))))) rs.
Proof. destruct (append_made c chunk) as (c' & -> & H). by eapply made_by. Qed.

(** The operation of a row that is not one of the column, which is outside of the contract, changes nothing. *)
Definition revert (c : column) (row : nat) : t T :=
  if (column_start c <=? row)%nat && (row <=? column_start c + length (contents c))%nat then default (`c) (RevertAppend (`c) row) else `c.

Lemma revert_made (c : column) row :
  (column_start c <= row <= column_start c + length (contents c))%nat -> standard_rep (revert c row) (column_start c) (take (row - column_start c) (contents c)).
Proof.
  intros Hrow. unfold revert. rewrite !(proj2 (Nat.leb_le _ _)) by lia. destruct (standard_RevertAppend_spec _ _ _ row (column_rep_contents c) Hrow) as (c' & -> & H). done.
Qed.

Lemma made_revert (c : column) row : exists rs, standard_rep (revert c row) (ColumnData.start (data (revert c row))) rs.
Proof.
  destruct (decide (column_start c <= row <= column_start c + length (contents c))%nat) as [H|H]; [by eapply made_by, revert_made|].
  unfold revert. destruct (_ && _) eqn:E; [|exact (proj2_sig c)]. apply andb_true_iff in E as [?%Nat.leb_le ?%Nat.leb_le]. lia.
Qed.

#[local] Instance columns : RowGroup.Columns (option T) column := {|
  RowGroup.create_columns start := exist _ (create start) (made_by _ _ _ (create_spec start));
  RowGroup.append_columns (c : column) chunk := exist _ _ (made_append c chunk);
  RowGroup.revert_columns (c : column) row := exist _ (revert c row) (made_revert c row);
  RowGroup.set_start_columns (c : column) start := exist _ (SetStart start (`c)) (made_by _ _ _ (standard_SetStart_spec _ _ _ start (column_rep_contents c)))
|}.

(** The rows of a vector, by a scan that begins there. *)
#[local] Instance scan_columns : TableScan.ScanColumns (option T) column := fun (c : column) v =>
  match Scan (`c) (InitializeScanWithOffset (`c) (column_start c + v * STANDARD_VECTOR_SIZE)) new_vector (GetVectorCount (data (`c)) v) with
  | Some (_, result, scan_count) => map (row (flat result)) (seq 0 scan_count)
  | None => []
  end.

(** The contract of RowGroup.v and TableScan.v. *)
Lemma made_rows (c : column) start rs : standard_rep (`c) start rs -> contents c = rs /\ column_start c = start.
Proof. intros Hc. split; [by eapply rows_rep|apply Hc]. Qed.

Lemma standard_column_laws : RowGroup.ColumnLaws contents column_start.
Proof.
  split.
  - intros s. apply made_rows, create_spec.
  - intros c chunk. apply made_rows. cbn. destruct (append_made c chunk) as (c' & -> & Hc'). done.
  - intros c row Hrow. by apply made_rows, revert_made.
  - intros c s. apply made_rows. cbn. eapply standard_SetStart_spec, column_rep_contents.
Qed.

Lemma standard_scan_laws : TableScan.ScanLaws contents.
Proof.
  intros c v Hv. unfold TableScan.scan_vector, scan_columns. pose proof (column_rep_contents c) as Hc. destruct (row_count _ _ _ Hc) as [C1 _]. pose proof SVS_pos as Hsvs.
  pose proof (InitializeScan_ready _ _ _ (column_start c + v * STANDARD_VECTOR_SIZE) Hc ltac:(lia)) as Hst.
  set (n := GetVectorCount (data (`c)) v). assert (n = Nat.min STANDARD_VECTOR_SIZE (length (contents c) - v * STANDARD_VECTOR_SIZE)) as En by (unfold n, GetVectorCount; by rewrite C1).
  destruct (new_vector_ready n) as (V1 & V2 & V3 & V4); [lia|].
  destruct (standard_Scan_spec _ _ _ _ _ n new_vector Hc Hst) as (st' & result' & -> & _ & ->); [lia|lia|lia|done..|].
  rewrite En, <-take_take. replace (column_start c + v * STANDARD_VECTOR_SIZE - column_start c)%nat with (v * STANDARD_VECTOR_SIZE)%nat by lia.
  by rewrite (take_ge (drop _ _)) by (rewrite length_drop; lia).
Qed.

(** ** Theorems *)


End standard.

(** A column of 64-bit integers in blocks of 256 bytes: two segments of values, one of NULLs. *)
Definition demo_vector : UnifiedVectorFormat Z := mkVdata (Some [2; 0; 1]%nat) [10; 20; 30] (ValidityMask.mk (Some [lnotU 64 2]) 64).


End StandardColumn.

(** ** Several columns

    The columns of a row group are operated on one after the other; a row has a value of each. *)

Module ColumnPair.

Section pair.
Context {R1 C1 R2 C2 : Type} {ops1 : RowGroup.Columns R1 C1} {ops2 : RowGroup.Columns R2 C2}
  {scan1 : TableScan.ScanColumns R1 C1} {scan2 : TableScan.ScanColumns R2 C2}.
Context {contents1 : C1 -> list R1} {start1 : C1 -> nat} {contents2 : C2 -> list R2} {start2 : C2 -> nat}.
Context {laws1 : RowGroup.ColumnLaws contents1 start1} {laws2 : RowGroup.ColumnLaws contents2 start2}
  {scan_laws1 : TableScan.ScanLaws contents1} {scan_laws2 : TableScan.ScanLaws contents2}.

(** Both have the same rows. *)
Definition aligned (c : C1 * C2) : Prop := length (contents1 c.1) = length (contents2 c.2) /\ start1 c.1 = start2 c.2.
Definition columns : Type := {c : C1 * C2 | aligned c}.

Definition contents (c : columns) : list (R1 * R2) := zip (contents1 (`c).1) (contents2 (`c).2).
Definition column_start (c : columns) : nat := start1 (`c).1.

Lemma length_contents (c : columns) : length (contents c) = length (contents1 (`c).1).
Proof. unfold contents. rewrite length_zip_with. destruct c as [c [H H']]. cbn. lia. Qed.

Lemma aligned_create start : aligned (RowGroup.create_columns start, RowGroup.create_columns start).
Proof.
  destruct (RowGroup.contents_create (ColumnLaws := laws1) start) as [E1 S1], (RowGroup.contents_create (ColumnLaws := laws2) start) as [E2 S2].
  split; cbn; by rewrite ?E1, ?E2, ?S1, ?S2.
Qed.

Lemma aligned_append (c : columns) (chunk : list (R1 * R2)) :
  aligned (RowGroup.append_columns (`c).1 (map fst chunk), RowGroup.append_columns (`c).2 (map snd chunk)).
Proof.
  destruct c as [c [H1 H2]]. destruct (RowGroup.contents_append (ColumnLaws := laws1) c.1 (map fst chunk)) as [E1 S1].
  destruct (RowGroup.contents_append (ColumnLaws := laws2) c.2 (map snd chunk)) as [E2 S2].
  split; cbn; [rewrite E1, E2, !length_app, !length_map; lia|by rewrite S1, S2].
Qed.

(** A revert to a row that is not one of the columns is outside of the contract. *)
Definition revert (c : columns) (row : nat) : C1 * C2 :=
  if (column_start c <=? row)%nat && (row <=? column_start c + length (contents c))%nat
  then (RowGroup.revert_columns (`c).1 row, RowGroup.revert_columns (`c).2 row) else `c.

Lemma revert_contents (c : columns) row : (column_start c <= row <= column_start c + length (contents c))%nat ->
  aligned (revert c row) /\ zip (contents1 (revert c row).1) (contents2 (revert c row).2) = take (row - column_start c) (contents c) /\ start1 (revert c row).1 = column_start c.
Proof.
  intros Hrow. unfold revert. rewrite !(proj2 (Nat.leb_le _ _)) by lia. rewrite length_contents in Hrow. unfold column_start, contents in *. destruct c as [c [H1 H2]]. cbn in *.
  destruct (RowGroup.contents_revert (ColumnLaws := laws1) c.1 row Hrow) as [E1 S1].
  destruct (RowGroup.contents_revert (ColumnLaws := laws2) c.2 row) as [E2 S2]; [rewrite <-H1, <-H2; done|].
  split; [split; cbn; [rewrite E1, E2, !length_take; lia|congruence]|]. split; [|done]. by rewrite E1, E2, H2, zip_with_take.
Qed.

Lemma aligned_revert (c : columns) row : aligned (revert c row).
Proof.
  destruct (decide (column_start c <= row <= column_start c + length (contents c))%nat) as [H|H]; [by apply revert_contents|].
  unfold revert. destruct (_ && _) eqn:E; [|exact (proj2_sig c)]. apply andb_true_iff in E as [?%Nat.leb_le ?%Nat.leb_le]. lia.
Qed.

Lemma aligned_set_start (c : columns) start : aligned (RowGroup.set_start_columns (`c).1 start, RowGroup.set_start_columns (`c).2 start).
Proof.
  destruct c as [c [H1 H2]]. destruct (RowGroup.contents_set_start (ColumnLaws := laws1) c.1 start) as [E1 S1].
  destruct (RowGroup.contents_set_start (ColumnLaws := laws2) c.2 start) as [E2 S2]. split; cbn; [by rewrite E1, E2|by rewrite S1, S2].
Qed.

#[local] Instance pair_columns : RowGroup.Columns (R1 * R2) columns := {|
  RowGroup.create_columns start := exist _ _ (aligned_create start);
  RowGroup.append_columns c chunk := exist _ _ (aligned_append c chunk);
  RowGroup.revert_columns c row := exist _ _ (aligned_revert c row);
  RowGroup.set_start_columns c start := exist _ _ (aligned_set_start c start)
|}.

#[local] Instance pair_scan : TableScan.ScanColumns (R1 * R2) columns := fun c v =>
  zip (TableScan.scan_vector (`c).1 v) (TableScan.scan_vector (`c).2 v).

Lemma zip_fst_snd {A B} (l : list (A * B)) : zip (map fst l) (map snd l) = l.
Proof. induction l as [|[x y] l IH]; [done|]. cbn. by f_equal. Qed.

Lemma pair_column_laws : RowGroup.ColumnLaws contents column_start.
Proof.
  split.
  - intros s. unfold contents, column_start. cbn. destruct (RowGroup.contents_create (ColumnLaws := laws1) s) as [-> ->]. done.
  - intros c chunk. unfold contents, column_start. cbn. destruct (RowGroup.contents_append (ColumnLaws := laws1) (`c).1 (map fst chunk)) as [-> ->].
    destruct (RowGroup.contents_append (ColumnLaws := laws2) (`c).2 (map snd chunk)) as [-> _]. split; [|done].
    destruct c as [c [H H']]. rewrite zip_with_app by done. by rewrite zip_fst_snd.
  - intros c row Hrow. split; by apply revert_contents.
  - intros c s. unfold contents, column_start. cbn. destruct (RowGroup.contents_set_start (ColumnLaws := laws1) (`c).1 s) as [-> ->].
    by destruct (RowGroup.contents_set_start (ColumnLaws := laws2) (`c).2 s) as [-> _].
Qed.

Lemma pair_scan_laws : TableScan.ScanLaws contents.
Proof.
  intros c v Hv. rewrite length_contents in Hv. unfold TableScan.scan_vector, pair_scan. rewrite (TableScan.scan_vector_contents (ScanLaws := scan_laws1)) by done.
  rewrite (TableScan.scan_vector_contents (ScanLaws := scan_laws2)) by (destruct c as [c [H H']]; cbn in *; lia).
  unfold contents. by rewrite zip_with_drop, zip_with_take.
Qed.

End pair.
End ColumnPair.
