(* ===== verification/StoredTable.v ===== *)
(** * A table in segments

    The row groups, appends, commits and scans of a table (RowGroup.v, RowGroupCollection.v, TableScan.v) are proved
    against what they ask of the columns; the columns in segments (StandardColumn.v) keep it.  This file puts the two
    together: a table of two columns of different types, from the words of its segments to the rows of a scan. *)

From S2P Require Import Prelude NumericStats ValiditySegment ChunkInfo RowVersionManager SegmentTree RowGroup RowGroupCollection TableScan StandardColumn.

Module StoredTable.
Import NumericStats.

(** The type of a column: the size of a value, what is written for a NULL, the bounds of the type, and what is in
    memory that was not written. *)
Record storage (T : Type) : Type := mkStorage {
  sizeof : nat;
  NullValue : T;
  MaximumValue : T;
  MinimumValue : T;
  uninitialized : nat -> T;
  garbage : NumericStatsData T
}.
Arguments mkStorage {T}.
Arguments sizeof {T}.
Arguments NullValue {T}.
Arguments MaximumValue {T}.
Arguments MinimumValue {T}.
Arguments uninitialized {T}.
Arguments garbage {T}.

Section column.
Context {T : Type} {comparison : Comparison T} {inhabited : Inhabited T} {order : CompareLaws T} (s : storage T) (block_size MAX_ROW_ID : nat).
Hypothesis Hsizeof : (0 < sizeof s <= block_size)%nat.
Hypothesis Hblock : (block_size mod 8 = 0)%nat.
Hypothesis Hmin : (ValiditySegment.STANDARD_MASK_SIZE <= block_size)%nat.

Definition Column : Type := StandardColumn.column (sizeof s) (NullValue s) (MaximumValue s) (MinimumValue s) (uninitialized s) (garbage s).
Definition column_rows : Column -> list (option T) :=
  StandardColumn.contents (sizeof s) (NullValue s) (MaximumValue s) (MinimumValue s) (uninitialized s) (garbage s).
Definition column_start : Column -> nat :=
  StandardColumn.column_start (sizeof s) (NullValue s) (MaximumValue s) (MinimumValue s) (uninitialized s) (garbage s).

Definition column_ops : RowGroup.Columns (option T) Column :=
  StandardColumn.columns block_size MAX_ROW_ID (sizeof s) (NullValue s) (MaximumValue s) (MinimumValue s) (uninitialized s) (garbage s) Hsizeof Hblock Hmin.
Definition column_scan : TableScan.ScanColumns (option T) Column :=
  StandardColumn.scan_columns (sizeof s) (NullValue s) (MaximumValue s) (MinimumValue s) (uninitialized s) (garbage s).

Lemma column_laws : RowGroup.ColumnLaws (Columns0 := column_ops) column_rows column_start.
Proof. exact (StandardColumn.standard_column_laws block_size MAX_ROW_ID _ _ _ _ _ _ Hsizeof Hblock Hmin). Qed.

Lemma scan_laws : TableScan.ScanLaws (ScanColumns0 := column_scan) column_rows.
Proof. by eapply (StandardColumn.standard_scan_laws block_size). Qed.
End column.

Section table.
Context {T1 T2 : Type} {comparison1 : Comparison T1} {comparison2 : Comparison T2} {inhabited1 : Inhabited T1} {inhabited2 : Inhabited T2}
  {order1 : CompareLaws T1} {order2 : CompareLaws T2} (s1 : storage T1) (s2 : storage T2) (block_size MAX_ROW_ID : nat).
Hypothesis Hsizeof1 : (0 < sizeof s1 <= block_size)%nat.
Hypothesis Hsizeof2 : (0 < sizeof s2 <= block_size)%nat.
Hypothesis Hblock : (block_size mod 8 = 0)%nat.
Hypothesis Hmin : (ValiditySegment.STANDARD_MASK_SIZE <= block_size)%nat.

#[local] Instance ops1 : RowGroup.Columns (option T1) (Column s1) := column_ops s1 block_size MAX_ROW_ID Hsizeof1 Hblock Hmin.
#[local] Instance ops2 : RowGroup.Columns (option T2) (Column s2) := column_ops s2 block_size MAX_ROW_ID Hsizeof2 Hblock Hmin.
#[local] Instance scan1 : TableScan.ScanColumns (option T1) (Column s1) := column_scan s1.
#[local] Instance scan2 : TableScan.ScanColumns (option T2) (Column s2) := column_scan s2.

Definition TableColumns : Type :=
  ColumnPair.columns (contents1 := column_rows s1) (start1 := column_start s1) (contents2 := column_rows s2) (start2 := column_start s2).

#[local] Instance laws1 : RowGroup.ColumnLaws (column_rows s1) (column_start s1) := column_laws s1 block_size MAX_ROW_ID Hsizeof1 Hblock Hmin.
#[local] Instance laws2 : RowGroup.ColumnLaws (column_rows s2) (column_start s2) := column_laws s2 block_size MAX_ROW_ID Hsizeof2 Hblock Hmin.
#[local] Instance scan_laws1 : TableScan.ScanLaws (column_rows s1) := scan_laws s1 block_size Hsizeof1 Hblock Hmin.
#[local] Instance scan_laws2 : TableScan.ScanLaws (column_rows s2) := scan_laws s2 block_size Hsizeof2 Hblock Hmin.

#[local] Instance table_ops : RowGroup.Columns (option T1 * option T2) TableColumns := ColumnPair.pair_columns.
#[local] Instance table_scan : TableScan.ScanColumns (option T1 * option T2) TableColumns := ColumnPair.pair_scan.
Definition table_rows : TableColumns -> list (option T1 * option T2) := ColumnPair.contents.
Definition table_start : TableColumns -> nat := ColumnPair.column_start.
#[local] Instance table_laws : RowGroup.ColumnLaws table_rows table_start := ColumnPair.pair_column_laws.
#[local] Instance table_scan_laws : TableScan.ScanLaws table_rows := ColumnPair.pair_scan_laws.

Abbreviation Table := (RowGroupCollection.t TableColumns).
Abbreviation inv := (RowGroupCollection.inv (contents := table_rows) (column_start := table_start)).
Abbreviation segments m := (SegmentTree.segments (RowGroupCollection.row_groups m)).

(** C7 What is appended to a table of two columns, stored as the words of their segments, and committed is read, value
    for value and NULL for NULL, by the scan of every transaction that sees the commit, after the rows it saw before. *)
Theorem stored_table_roundtrip (writer reader : ChunkInfo.TransactionData) (commit_id : Z) (chunks : list (list (option T1 * option T2))) (m : Table) :
  inv m -> RowGroupCollection.fresh m (ChunkInfo.transaction_id writer) -> ChunkInfo.transaction_id writer <> 0 -> mjoin chunks <> [] ->
  Z.of_nat (length (segments m) + RowGroupCollection.total_rows m + length (mjoin chunks) + 1) < 2 ^ 62 ->
  RowVersionManager.proper reader -> RowVersionManager.visible reader (commit_id, ChunkInfo.NOT_DELETED_ID) = true ->
  exists m1 st m2 m3 out,
    RowGroupCollection.append writer chunks m = (m1, Ok st)
    /\ RowGroupCollection.CommitAppend commit_id (RowGroupCollection.row_start m1 + RowGroupCollection.append_row_start st) (length (mjoin chunks)) m1 = (m2, Ok tt)
    /\ TableScan.collection_Scan reader m2 = (m3, Ok out)
    /\ mjoin out = TableScan.rows_seen (contents := table_rows) reader m ++ mjoin chunks.
Proof.
  intros Hinv Hfresh Htid Hne Hsmall Hreader Hvis.
  destruct (RowGroupCollection.append_spec writer chunks m Hinv) as (m1 & st & E1 & Hinv1 & _ & Hr1 & Hs1 & _ & _ & Hlen1 & _).
  destruct (RowGroupCollection.commit_appended writer commit_id chunks m m1 st Hinv Hfresh Htid Hne E1) as (m2 & E2 & Hinv2 & F2 & _ & Hr2 & Hids2).
  { unfold RowGroupCollection.small. lia. }
  destruct (TableScan.collection_Scan_spec reader m2 Hinv2 Hreader) as (m3 & out & E3 & _ & _ & _ & _ & Hout & _).
  exists m1, st, m2, m3, out. split; [done|]. split; [done|]. split; [done|]. rewrite Hout. unfold TableScan.rows_seen.
  destruct F2 as (_ & Ht2 & Hs2 & _). rewrite Ht2, Hs2, Hs1, (RowGroupCollection.appended_total m m1 _ Hinv Hinv1 Hr1), Hr2. rewrite seq_app, omap_app.
  pose proof (RowGroupCollection.inv_total _ Hinv) as Htot. f_equal.
  - apply TableScan.omap_seq_ext. intros row Hrow. rewrite Hids2, decide_False by lia. by rewrite lookup_app_l by lia.
  - rewrite Nat.add_0_l, TableScan.omap_seq_shift. transitivity (omap (fun r => mjoin chunks !! r) (seq 0 (length (mjoin chunks)))).
    + apply TableScan.omap_seq_ext. intros row Hrow. rewrite Hids2, decide_True by lia. rewrite Hvis, lookup_app_r by lia. f_equal. lia.
    + rewrite TableScan.omap_lookup_take by done. by apply take_ge.
Qed.

Lemma stored_table_inv : inv RowGroupCollection.new_table.
Proof.
  split; [| | |done|split; [apply Nat.ltb_lt; vm_compute; reflexivity|vm_compute; reflexivity]].
  - split; [intros i n Hn; done|done].
  - done.
  - by apply Forall_nil.
Qed.

End table.

(** A new table of an integer and a floating point column, in blocks of 256 bytes. *)
Definition ints : storage Z := mkStorage 8 0 100 (-100) (fun _ => 0) (mkData false false 0 0).
#[local] Instance floats_inhabited : Inhabited (float Z) := populate NaN.

Definition floats : storage (float Z) := mkStorage 4 NaN NaN (Number (-100)) (fun _ => NaN) (mkData false false NaN NaN).

Lemma ints_fit : (0 < sizeof ints <= 256)%nat.
Proof. cbn. lia. Qed.
Lemma floats_fit : (0 < sizeof floats <= 256)%nat.
Proof. cbn. lia. Qed.
Lemma mask_fits : (ValiditySegment.STANDARD_MASK_SIZE <= 256)%nat.
Proof. by rewrite ValiditySegment.SMS_eq. Qed.

Lemma stored_table_roundtrip_witness :
  let chunks := [[(Some 1, None); (None, Some NaN)]; [(Some 3, Some (Number 2))]] in
  exists m1 st m2 m3 out,
    RowGroupCollection.append (columns_of := table_ops ints floats 256 1000 ints_fit floats_fit eq_refl mask_fits) RowGroupCollection.writer chunks RowGroupCollection.new_table = (m1, Ok st)
    /\ RowGroupCollection.CommitAppend 7 (RowGroupCollection.row_start m1 + RowGroupCollection.append_row_start st) 3 m1 = (m2, Ok tt)
    /\ TableScan.collection_Scan (scan_of := table_scan ints floats) RowGroupCollection.later_reader m2 = (m3, Ok out)
    /\ mjoin out = [(Some 1, None); (None, Some NaN); (Some 3, Some (Number 2))].
Proof.
  intros chunks.
  apply (stored_table_roundtrip ints floats 256 1000 ints_fit floats_fit eq_refl mask_fits RowGroupCollection.writer RowGroupCollection.later_reader 7 chunks RowGroupCollection.new_table).
  - apply stored_table_inv.
  - intros row Hrow. cbn in Hrow. lia.
  - done.
  - done.
  - done.
  - by split; [split|].
  - done.
Defined.
End StoredTable.
