(* ===== verification/LocalStorage.v ===== *)
(** * Local storage

    Models src/src/storage/local_storage.cpp: the rows that a transaction has appended and not
    committed yet.  Each table a transaction appends to has a [LocalTableStorage] with a row group
    collection of its own; the table manager finds it.  The table manager is a list of tables with
    their storage in the order in which iterations visit them; a pointer to a table is its handle.

    Local collections number their rows from [MAX_ROW_ID].  Row numbers are unary here, so the
    constant is a parameter of the model, like the row group size of the database.  Tables have no
    indexes; optimistically written blocks and alterations of tables are left out.

    [seen] is the abstract content of a local storage: the rows its transaction sees. *)

From S2P Require Import Prelude ChunkInfo RowVersionManager SegmentTree RowGroup RowGroupCollection DataTable TableScan.

Module LocalStorage.

Abbreviation TransactionData := ChunkInfo.TransactionData.
Abbreviation NOT_DELETED_ID := ChunkInfo.NOT_DELETED_ID.
Abbreviation Collection C := (RowGroupCollection.t C).
Abbreviation total_rows := RowGroupCollection.total_rows.
Abbreviation row_ids := RowGroupCollection.row_ids.
Abbreviation row_start := RowGroupCollection.row_start.
Abbreviation segments := SegmentTree.segments.

Record LocalTableStorage (C : Type) : Type := mkLocal {
  row_groups : Collection C;
  deleted_rows : nat;
  merged_storage : bool;
  is_dropped : bool
}.
Arguments mkLocal {C}.
Arguments row_groups {C}.
Arguments deleted_rows {C}.
Arguments merged_storage {C}.
Arguments is_dropped {C}.

(** [LocalTableManager]. *)
Abbreviation Manager C := (list (nat * LocalTableStorage C)).

(** [TransactionData(0, 0)]. *)
Definition no_transaction : TransactionData := ChunkInfo.mkTransactionData 0 0.

Section local_storage.
Context (MAX_ROW_ID row_group_size : nat).
Context {R C : Type} {columns_of : RowGroup.Columns R C}.
Implicit Types (s : Manager C) (l : LocalTableStorage C) (T : TransactionData) (m : Collection C).

Definition new_storage : LocalTableStorage C :=
  mkLocal (RowGroupCollection.mk row_group_size 0 MAX_ROW_ID false SegmentTree.empty_tree) 0 false false.

Definition set_row_groups m l : LocalTableStorage C := mkLocal m (deleted_rows l) (merged_storage l) (is_dropped l).

(** ** The table manager *)

Fixpoint GetStorage (table : nat) s : option (LocalTableStorage C) :=
  match s with
  | [] => None
  | (t, l) :: s => if decide (t = table) then Some l else GetStorage table s
  end.

Fixpoint SetStorage (table : nat) l s : Manager C :=
  match s with
  | [] => []
  | (t, l0) :: s => if decide (t = table) then (t, l) :: s else (t, l0) :: SetStorage table l s
  end.

Definition IsEmpty s : bool := match s with [] => true | _ => false end.

Definition InsertEntry (table : nat) l s : Manager C :=
  match GetStorage table s with
  | Some _ => SetStorage table l s
  | None => s ++ [(table, l)]
  end.

Definition GetOrCreateStorage (table : nat) s : Manager C :=
  match GetStorage table s with
  | None => InsertEntry table new_storage s
  | Some _ => s
  end.

Fixpoint EraseEntry (table : nat) s : Manager C :=
  match s with
  | [] => []
  | (t, l) :: s => if decide (t = table) then s else (t, l) :: EraseEntry table s
  end.

Definition MoveEntry (table : nat) s : Manager C * option (LocalTableStorage C) :=
  match GetStorage table s with
  | None => (s, None)
  | Some l => (EraseEntry table s, Some l)
  end.

Definition MoveEntries s : Manager C * Manager C := ([], s).

(** ** Operations *)

(** A call through the pointer to the storage of a table. *)
Definition on_storage {A} (table : nat) (f : ST (LocalTableStorage C) A) : ST (Manager C) A :=
  fun s => match GetStorage table s with
           | None => (s, Throw InternalException)
           | Some l => let '(l, r) := f l in (SetStorage table l s, r)
           end.

Definition on_row_groups {A} (f : ST (Collection C) A) : ST (LocalTableStorage C) A :=
  fun l => let '(m, r) := f (row_groups l) in (set_row_groups m l, r).

Definition InitializeAppend (table : nat) : ST (Manager C) RowGroupCollection.AppendState :=
  modify (GetOrCreateStorage table);;
  on_storage table (on_row_groups RowGroupCollection.InitializeAppend).

Definition Append (table : nat) (chunk : list R) (st : RowGroupCollection.AppendState)
    : ST (Manager C) RowGroupCollection.AppendState :=
  '(st, _) ← on_storage table (on_row_groups (RowGroupCollection.Append chunk st));
  mret st.

Definition FinalizeAppend T (table : nat) (st : RowGroupCollection.AppendState)
    : ST (Manager C) RowGroupCollection.AppendState :=
  on_storage table (on_row_groups (RowGroupCollection.FinalizeAppend T st)).

Fixpoint append_chunks (table : nat) (chunks : list (list R)) (st : RowGroupCollection.AppendState)
    : ST (Manager C) RowGroupCollection.AppendState :=
  match chunks with
  | [] => mret st
  | chunk :: chunks => st ← Append table chunk st; append_chunks table chunks st
  end.

(** An insert of a sequence of chunks, as the insert operator makes it. *)
Definition append T (table : nat) (chunks : list (list R)) : ST (Manager C) RowGroupCollection.AppendState :=
  st ← InitializeAppend table;
  st ← append_chunks table chunks st;
  FinalizeAppend T table st.

Definition LocalMerge (table : nat) (collection : Collection C) : ST (Manager C) unit :=
  modify (GetOrCreateStorage table);;
  on_storage table (fun l =>
    let '(m, r) := DataTable.collection_MergeStorage collection (row_groups l) in
    match r with
    | Ok _ => (mkLocal m (deleted_rows l) true (is_dropped l), Ok tt)
    | Throw e => (set_row_groups m l, Throw e)
    end).

Definition storage_Delete (ids : list nat) : ST (LocalTableStorage C) nat :=
  fun l =>
    let '((m, _), r) := RowGroupCollection.Delete RowGroupCollection.log_delete no_transaction ids (row_groups l, []) in
    match r with
    | Ok delete_count => (mkLocal m (deleted_rows l + delete_count) (merged_storage l) (is_dropped l), Ok delete_count)
    | Throw e => (set_row_groups m l, Throw e)
    end.

Definition Delete (table : nat) (ids : list nat) : ST (Manager C) nat := on_storage table (storage_Delete ids).

Definition ChangesMade s : bool := negb (IsEmpty s).
Definition Find (table : nat) s : bool := match GetStorage table s with Some _ => true | None => false end.

Definition storage_rows l : nat := (total_rows (row_groups l) - deleted_rows l)%nat.
Definition AddedRows (table : nat) s : nat :=
  match GetStorage table s with None => 0%nat | Some l => storage_rows l end.

Definition DropTable (table : nat) s : Manager C :=
  match GetStorage table s with
  | None => s
  | Some l => SetStorage table (mkLocal (row_groups l) (deleted_rows l) (merged_storage l) true) s
  end.

Definition MoveStorage (old_dt new_dt : nat) s : Manager C :=
  let '(s, storage) := MoveEntry old_dt s in
  match storage with
  | None => s
  | Some new_storage => InsertEntry new_dt new_storage s
  end.

(** ** The table manager as a finite map *)

Lemma Get_Set table l0 l s : GetStorage table s = Some l0 -> GetStorage table (SetStorage table l s) = Some l.
Proof.
  induction s as [|[t l1] s IH]; [done|]. cbn [GetStorage SetStorage]. case_decide as Hd.
  - intros _. cbn [GetStorage]. by rewrite decide_True.
  - intros H. cbn [GetStorage]. rewrite decide_False by done. by apply IH.
Qed.

Lemma Get_Set_ne table t l s : t <> table -> GetStorage t (SetStorage table l s) = GetStorage t s.
Proof.
  intros Hne. induction s as [|[t' l1] s IH]; [done|]. cbn [SetStorage]. case_decide as Hd; cbn [GetStorage].
  - rewrite !(decide_False (P := t' = t)) by congruence. done.
  - by rewrite IH.
Qed.

Lemma Set_Set table l l' s : SetStorage table l' (SetStorage table l s) = SetStorage table l' s.
Proof.
  induction s as [|[t l1] s IH]; [done|]. cbn [SetStorage]. case_decide as Hd; cbn [SetStorage].
  - by rewrite decide_True.
  - by rewrite decide_False, IH by done.
Qed.

Lemma Get_app table s s' :
  GetStorage table (s ++ s') = match GetStorage table s with Some l => Some l | None => GetStorage table s' end.
Proof. induction s as [|[t l] s IH]; [done|]. cbn [app GetStorage]. by case_decide. Qed.

Lemma Get_create table s :
  GetStorage table (GetOrCreateStorage table s) = Some (default new_storage (GetStorage table s))
  /\ forall t, t <> table -> GetStorage t (GetOrCreateStorage table s) = GetStorage t s.
Proof.
  unfold GetOrCreateStorage, InsertEntry. destruct (GetStorage table s) as [l|] eqn:E; [done|]. split.
  - rewrite Get_app, E. cbn [GetStorage]. by rewrite decide_True.
  - intros t Ht. rewrite Get_app. destruct (GetStorage t s); [done|]. cbn [GetStorage]. by rewrite decide_False.
Qed.

Lemma Get_elem t l s : NoDup s.*1 -> (t, l) ∈ s <-> GetStorage t s = Some l.
Proof.
  induction s as [|[t' l'] s IH]; [intros _; split; [by intros H%not_elem_of_nil|done]|].
  cbn [fmap list_fmap fst GetStorage]. intros [Hn Hnd]%NoDup_cons. rewrite elem_of_cons. case_decide as Hd.
  - subst t'. split; [intros [[= <-]|Hin]; [done|]|intros [= <-]; by left].
    exfalso. apply Hn, list_elem_of_fmap. by exists (t, l).
  - rewrite <- IH by done. split; [by intros [[= ? ?]|?]|by right].
Qed.

Lemma Set_keys table l s : (SetStorage table l s).*1 = s.*1.
Proof.
  induction s as [|[t l'] s IH]; [done|]. cbn [SetStorage]. case_decide; cbn [fmap list_fmap fst]; [done|]. f_equal. exact IH.
Qed.

Lemma create_NoDup table s : NoDup s.*1 -> NoDup (GetOrCreateStorage table s).*1.
Proof.
  intros Hnd. unfold GetOrCreateStorage, InsertEntry. destruct (GetStorage table s) as [l|] eqn:E; [done|].
  rewrite fmap_app. apply NoDup_app. split; [done|]. split; [|apply NoDup_singleton].
  intros t Ht Ht'%list_elem_of_singleton. cbn in Ht'. subst t. apply list_elem_of_fmap in Ht as ([t l] & -> & Hin).
  apply (Get_elem t l) in Hin; [|done]. cbn [fst] in E. congruence.
Qed.

(** ** An append at the level of the collection *)

Lemma on_storage_spec {A} table (f : ST (LocalTableStorage C) A) l s :
  GetStorage table s = Some l -> on_storage table f s = (SetStorage table (f l).1 s, (f l).2).
Proof. intros E. unfold on_storage. rewrite E. by destruct (f l). Qed.

Lemma on_row_groups_spec {A} table (f : ST (Collection C) A) l s :
  GetStorage table s = Some l ->
  on_storage table (on_row_groups f) s = (SetStorage table (set_row_groups (f (row_groups l)).1 l) s, (f (row_groups l)).2).
Proof. intros E. rewrite (on_storage_spec _ _ l) by done. unfold on_row_groups. by destruct (f (row_groups l)). Qed.

Lemma append_chunks_local table chunks : forall st l s,
  GetStorage table s = Some l ->
  append_chunks table chunks st s
  = let '(m, r) := RowGroupCollection.append_chunks chunks st (row_groups l) in
    (match chunks with [] => s | _ => SetStorage table (set_row_groups m l) s end, r).
Proof.
  induction chunks as [|chunk chunks IH]; intros st l s Hl; [done|]. cbn [append_chunks RowGroupCollection.append_chunks].
  unfold Append. unfold mbind at 1 2 3, ST_bind at 1 2 3. rewrite (on_row_groups_spec _ _ l) by done.
  destruct (RowGroupCollection.Append chunk st (row_groups l)) as [m [[st' b]|e]]; [|done]. cbn [fst snd mret].
  unfold mret, ST_ret. rewrite (IH st' (set_row_groups m l)) by (by eapply Get_Set). cbn [row_groups set_row_groups].
  destruct chunks as [|c chunks]; [done|].
  destruct (RowGroupCollection.append_chunks (c :: chunks) st' m) as [m' r]. by rewrite Set_Set.
Qed.

Lemma append_local T table chunks s :
  let l := default new_storage (GetStorage table s) in
  let s1 := GetOrCreateStorage table s in
  append T table chunks s
  = let '(m, r) := RowGroupCollection.append T chunks (row_groups l) in (SetStorage table (set_row_groups m l) s1, r).
Proof.
  intros l s1. destruct (Get_create table s) as [Hl _]. fold l s1 in Hl. unfold append, InitializeAppend, RowGroupCollection.append.
  unfold mbind, ST_bind, modify. fold s1. rewrite (on_row_groups_spec _ _ l) by done.
  destruct (RowGroupCollection.InitializeAppend (row_groups l)) as [m1 [st|e]]; [|done]. cbn [fst snd].
  set (l1 := set_row_groups m1 l). assert (GetStorage table (SetStorage table l1 s1) = Some l1) as Hl1 by (by eapply Get_Set).
  rewrite (append_chunks_local table chunks st l1) by done. cbn [row_groups l1 set_row_groups].
  assert (RowGroupCollection.append_chunks chunks st m1 = (m1, Ok st) \/ chunks <> []) as Hc by (destruct chunks; [by left|by right]).
  destruct (RowGroupCollection.append_chunks chunks st m1) as [m2 r2] eqn:E2.
  set (l2 := set_row_groups m2 l). assert (match chunks with [] => SetStorage table l1 s1
    | _ => SetStorage table (set_row_groups m2 l1) (SetStorage table l1 s1) end = SetStorage table l2 s1) as ->.
  { destruct chunks; [destruct Hc as [Hc|Hc]; [by injection Hc as -> _|done]|by rewrite Set_Set]. }
  destruct r2 as [st2|e]; [|done]. unfold FinalizeAppend.
  rewrite (on_row_groups_spec _ _ l2) by (by eapply Get_Set). cbn [row_groups l2 set_row_groups].
  destruct (RowGroupCollection.FinalizeAppend T st2 m2) as [m3 r3]. cbn [fst snd]. by rewrite Set_Set.
Qed.

(** ** What a local storage holds *)

Context {scan_of : TableScan.ScanColumns R C}.
Context {contents : C -> list R} {column_start : C -> nat} {laws : RowGroup.ColumnLaws contents column_start}
  {scan_laws : TableScan.ScanLaws contents}.
Abbreviation inv := (RowGroupCollection.inv (contents := contents) (column_start := column_start)).
Abbreviation rows := (RowGroupCollection.rows (contents := contents)).
Hypothesis group_size : (0 < row_group_size)%nat /\ (row_group_size mod STANDARD_VECTOR_SIZE = 0)%nat.

Definition is_deleted m (r : nat) : bool := negb ((row_ids m (MAX_ROW_ID + r)).2 =? NOT_DELETED_ID).

(** The storage belongs to transaction [tid]: all rows are its own, those deleted have the delete id
    0, and [deleted_rows] counts them. *)
Record local_ok (tid : Z) l : Prop := {
  o_inv : inv (row_groups l);
  o_loaded : Forall RowGroup.is_loaded (segments (RowGroupCollection.row_groups (row_groups l)));
  o_small : RowGroupCollection.small (segments (RowGroupCollection.row_groups (row_groups l)));
  o_deletable : Forall RowGroup.deletable (segments (RowGroupCollection.row_groups (row_groups l)));
  o_start : row_start (row_groups l) = MAX_ROW_ID;
  o_size : RowGroupCollection.row_group_size (row_groups l) = row_group_size;
  o_insert : forall r, (r < total_rows (row_groups l))%nat -> (row_ids (row_groups l) (MAX_ROW_ID + r)).1 = tid;
  o_delete : forall r, (row_ids (row_groups l) (MAX_ROW_ID + r)).2 = NOT_DELETED_ID
                       \/ (row_ids (row_groups l) (MAX_ROW_ID + r)).2 = 0;
  o_count : length (select (is_deleted (row_groups l)) (total_rows (row_groups l))) = deleted_rows l
}.

(** The rows of the storage that are not deleted. *)
Definition seen l : list R :=
  omap (fun r => if is_deleted (row_groups l) r then None else rows (row_groups l) !! r) (seq 0 (total_rows (row_groups l))).

(** The same with the deleted rows in place. *)
Definition row_view l (r : nat) : option R := if is_deleted (row_groups l) r then None else rows (row_groups l) !! r.
Definition view l : list (option R) := map (row_view l) (seq 0 (total_rows (row_groups l))).

Definition clear (ids : list nat) (v : list (option R)) : list (option R) :=
  imap (fun r x => if bool_decide ((MAX_ROW_ID + r)%nat ∈ ids) then None else x) v.

Lemma omap_map {A B D} (f : A -> B) (g : B -> option D) (k : list A) : omap g (map f k) = omap (fun a => g (f a)) k.
Proof. induction k as [|a k IH]; [done|]. cbn [map omap list_omap]. by rewrite IH. Qed.

Lemma seen_view l : seen l = omap id (view l).
Proof. symmetry. apply (omap_map (row_view l) id). Qed.

Lemma view_lookup l r : view l !! r = if decide (r < total_rows (row_groups l))%nat then Some (row_view l r) else None.
Proof.
  unfold view. rewrite (list_lookup_fmap (row_view l)). case_decide as Hd.
  - by rewrite lookup_seq_lt.
  - by rewrite lookup_seq_ge by lia.
Qed.

Lemma omap_id_Some (k : list R) : omap id (map Some k) = k.
Proof. induction k as [|x k IH]; [done|]. cbn [map omap list_omap id]. by rewrite IH. Qed.

Lemma select_app (P : nat -> bool) n k : select P (n + k) = select P n ++ List.filter P (seq n k).
Proof. unfold select. by rewrite seq_app, List.filter_app. Qed.

Lemma filter_none (P : nat -> bool) (l : list nat) : (forall r, In r l -> P r = false) -> List.filter P l = [].
Proof.
  induction l as [|r l IH]; intros H; [done|]. simpl. rewrite H by (by left). apply IH. intros r' Hr'. apply H. by right.
Qed.

Lemma seen_length tid l : local_ok tid l -> length (seen l) = storage_rows l.
Proof.
  intros [Hinv _ _ _ _ _ _ _ Hc]. unfold storage_rows. rewrite <- Hc. unfold seen. pose proof Hinv as [_ _ _ Ht _].
  assert (forall n, (n <= total_rows (row_groups l))%nat ->
    length (omap (fun r => if is_deleted (row_groups l) r then None else rows (row_groups l) !! r) (seq 0 n))
    = (n - length (select (is_deleted (row_groups l)) n))%nat) as H; [|by apply H].
  induction n as [|n IH]; intros Hn; [done|]. rewrite seq_S, omap_app, length_app, IH, select_S, length_app by lia.
  pose proof (select_length_le (is_deleted (row_groups l)) n). simpl. destruct (is_deleted (row_groups l) n); simpl; [lia|].
  destruct (lookup_lt_is_Some_2 (rows (row_groups l)) n) as [x ->]; [lia|]. simpl. lia.
Qed.

Lemma new_ok tid : local_ok tid new_storage /\ seen new_storage = [].
Proof.
  split; [|done]. split.
  - split; [|done|by apply Forall_nil|done|done]. split; [by intros i n Hn|done].
  - by apply Forall_nil.
  - done.
  - by apply Forall_nil.
  - done.
  - done.
  - intros r Hr. cbn in Hr. lia.
  - intros r. by left.
  - done.
Qed.

Lemma local_append T l chunks :
  local_ok (ChunkInfo.transaction_id T) l -> DataTable.room (row_groups l) (length (mjoin chunks)) ->
  exists m' st, RowGroupCollection.append T chunks (row_groups l) = (m', Ok st)
  /\ local_ok (ChunkInfo.transaction_id T) (set_row_groups m' l)
  /\ view (set_row_groups m' l) = view l ++ map Some (mjoin chunks)
  /\ total_rows m' = (total_rows (row_groups l) + length (mjoin chunks))%nat
  /\ (length (segments (RowGroupCollection.row_groups m'))
      <= length (segments (RowGroupCollection.row_groups (row_groups l))) + total_rows (row_groups l) + length (mjoin chunks) + 1)%nat.
Proof.
  intros [O1 O2 O3 O4 O5 O6 O7 O8 O9] Hroom.
  destruct (RowGroupCollection.append_spec T chunks (row_groups l) O1) as (m' & st & E & I' & Hl & Hr & Hs & Hsz & Hst & Hlen & Hids).
  pose proof (RowGroupCollection.appended_total _ m' _ O1 I' Hr) as Htot. pose proof O1 as [Hwf _ _ Ht _].
  destruct (DataTable.growing_append _ T chunks _ Hwf eq_refl) as [_ (_ & _ & Hd & Hd')]. rewrite E in Hd, Hd'. cbn [fst] in Hd, Hd'.
  rewrite O5 in Hids.
  assert (forall r, (r < total_rows (row_groups l))%nat -> row_ids m' (MAX_ROW_ID + r) = row_ids (row_groups l) (MAX_ROW_ID + r)) as Hold.
  { intros r Hr'. rewrite Hids. rewrite decide_False by lia. done. }
  assert (forall r, (total_rows (row_groups l) <= r < total_rows m')%nat ->
    row_ids m' (MAX_ROW_ID + r) = (ChunkInfo.transaction_id T, NOT_DELETED_ID)) as Hnew.
  { intros r Hr'. rewrite Hids. rewrite decide_True by lia. done. }
  exists m', st. split; [done|]. split.
  - split; cbn [row_groups set_row_groups]; try done.
    + by apply Hd'.
    + unfold RowGroupCollection.small, DataTable.room in *. lia.
    + by apply Hd.
    + by rewrite Hs.
    + by rewrite Hsz.
    + intros r Hr'. destruct (decide (r < total_rows (row_groups l))%nat); [by rewrite Hold; auto|]. by rewrite Hnew by lia.
    + intros r. rewrite Hids. case_decide; [by left|apply O8].
    + change (deleted_rows (set_row_groups m' l)) with (deleted_rows l). rewrite Htot, select_app, length_app, <- O9.
      rewrite (select_ext (is_deleted m') (is_deleted (row_groups l)));
        [|intros r Hr'; unfold is_deleted; by rewrite Hold].
      assert (List.filter (is_deleted m') (seq (total_rows (row_groups l)) (length (mjoin chunks))) = []) as ->; [|simpl; lia].
      apply filter_none. intros r Hr'. apply in_seq in Hr'. unfold is_deleted. rewrite Hnew by lia. done.
  - split; [|done]. apply list_eq. intros r. rewrite view_lookup. cbn [row_groups set_row_groups].
    assert (length (view l) = total_rows (row_groups l)) as Hlv by (unfold view; by rewrite length_map, length_seq).
    unfold row_view. cbn [row_groups set_row_groups]. rewrite Hr, Htot. case_decide as Hdr.
    + destruct (decide (r < total_rows (row_groups l))%nat) as [Hlt|Hge].
      * rewrite (lookup_app_l (view l)), view_lookup, decide_True by lia. unfold row_view, is_deleted. rewrite Hold by lia.
        by rewrite lookup_app_l by lia.
      * rewrite (lookup_app_r (view l)), Hlv, (list_lookup_fmap Some) by lia.
        unfold is_deleted. rewrite Hnew by lia. cbn [snd]. rewrite Z.eqb_refl. cbn [negb]. rewrite lookup_app_r, <- Ht by lia.
        destruct (lookup_lt_is_Some_2 (mjoin chunks) (r - total_rows (row_groups l))) as [x ->]; [lia|done].
    + symmetry. apply lookup_ge_None_2. rewrite length_app, length_map, Hlv. lia.
Qed.

Lemma elem_of_numbered (P : nat -> bool) n x :
  x ∈ map (Nat.add MAX_ROW_ID) (select P n) <-> exists r, x = (MAX_ROW_ID + r)%nat /\ (r < n)%nat /\ P r = true.
Proof. rewrite (list_elem_of_fmap (Nat.add MAX_ROW_ID)). setoid_rewrite elem_of_select. done. Qed.

(** Newly deleted rows count once. *)
Lemma deleted_count m m' n new :
  NoDup new -> (forall row, row ∈ new -> (MAX_ROW_ID <= row < MAX_ROW_ID + n)%nat) ->
  (forall r, (r < n)%nat -> is_deleted m' r = true <-> (is_deleted m r = true \/ (MAX_ROW_ID + r)%nat ∈ new)) ->
  (forall r, (MAX_ROW_ID + r)%nat ∈ new -> is_deleted m r = false) ->
  length (select (is_deleted m') n) = (length (select (is_deleted m) n) + length new)%nat.
Proof.
  intros Hnd Hin Hnew Hold.
  assert (Inj eq eq (Nat.add MAX_ROW_ID)) as Hinj by (intros x y Hxy; lia).
  assert (forall P, NoDup (map (Nat.add MAX_ROW_ID) (select P n))) as Hsel.
  { intros P. apply (NoDup_fmap_2 (Nat.add MAX_ROW_ID)). unfold select. apply NoDup_ListNoDup, List.NoDup_filter, seq_NoDup. }
  assert (map (Nat.add MAX_ROW_ID) (select (is_deleted m') n) ≡ₚ map (Nat.add MAX_ROW_ID) (select (is_deleted m) n) ++ new) as Hp.
  { apply NoDup_Permutation; [done| |].
    - apply NoDup_app. split; [done|]. split; [|done]. intros x (r & -> & _ & Hr)%elem_of_numbered Hx.
      by rewrite (Hold r Hx) in Hr.
    - intros x. rewrite elem_of_app, !elem_of_numbered. split.
      + intros (r & -> & Hr & Hd). apply Hnew in Hd as [Hd|Hd]; [left; by exists r|by right|done].
      + intros [(r & -> & Hr & Hd)|Hx]; [exists r; split; [done|]; split; [done|]; apply Hnew; auto|].
        specialize (Hin x Hx). exists (x - MAX_ROW_ID)%nat. split; [lia|]. split; [lia|]. apply Hnew; [lia|]. right.
        by replace (MAX_ROW_ID + (x - MAX_ROW_ID))%nat with x by lia. }
  apply Permutation_length in Hp. rewrite length_app, !length_map in Hp. done.
Qed.

Lemma local_delete tid l ids :
  local_ok tid l -> Forall (fun id => MAX_ROW_ID <= id < MAX_ROW_ID + total_rows (row_groups l))%nat ids ->
  exists l' n, storage_Delete ids l = (l', Ok n) /\ local_ok tid l' /\ deleted_rows l' = (deleted_rows l + n)%nat
  /\ total_rows (row_groups l') = total_rows (row_groups l)
  /\ seen l' = omap (fun r => if is_deleted (row_groups l) r || bool_decide ((MAX_ROW_ID + r)%nat ∈ ids) then None
                              else rows (row_groups l) !! r) (seq 0 (total_rows (row_groups l)))
  /\ view l' = clear ids (view l)
  /\ length (segments (RowGroupCollection.row_groups (row_groups l'))) = length (segments (RowGroupCollection.row_groups (row_groups l)))
  /\ is_dropped l' = is_dropped l.
Proof.
  intros [O1 O2 O3 O4 O5 O6 O7 O8 O9] Hids. set (m := row_groups l) in *. pose proof O1 as [Hwf _ Hf _ _].
  assert (ChunkInfo.transaction_id no_transaction <> NOT_DELETED_ID) as H0 by (intros H; vm_compute in H; discriminate).
  assert (RowGroupCollection.convertible m) as Hconv.
  { unfold RowGroupCollection.convertible. eapply Forall_impl; [exact O4|]. intros g Hg r _ v Hv. by apply Hg. }
  pose proof (RowGroupCollection.delete_loop_spec no_transaction m [] H0 O3 (length ids) ids m [] [] 0 (le_n _)) as H.
  rewrite O5 in H. specialize (H Hids (RowGroupCollection.deleted_nil _ m O1) Hconv).
  destruct (DataTable.growing_Delete (RowGroupCollection.row_group_size m) no_transaction ids m [] Hwf eq_refl) as [_ (_ & _ & Hd & Hl)].
  unfold storage_Delete. unfold RowGroupCollection.Delete in *. fold m. rewrite app_nil_r in H.
  destruct (RowGroupCollection.delete_loop RowGroupCollection.log_delete (length ids) no_transaction ids 0 (m, [])) as [[m' undo'] r].
  destruct H as (es & _ & H). cbn [fst] in Hd, Hl. rewrite Forall_forall in Hids. destruct r as [n|e].
  2:{ exfalso. destruct H as [_ _ _ _ (row & Hrow & Hbad) _ _]. apply Hbad. specialize (Hids row Hrow).
      destruct (O8 (row - MAX_ROW_ID)%nat) as [E|E]; replace (MAX_ROW_ID + (row - MAX_ROW_ID))%nat with row in E by lia;
        [by left|by right]. }
  destruct H as [[X1 (F1 & F2 & F3 & F4) X3 X4 X5 X6 X7 X8 X9] _]. rewrite app_nil_l in *.
  assert (forall r, is_deleted m' r = is_deleted m r || bool_decide ((MAX_ROW_ID + r)%nat ∈ ids)) as Hdel.
  { intros r. unfold is_deleted. rewrite X5. case_decide as Hd'.
    - rewrite bool_decide_eq_true_2 by done. by rewrite orb_true_r.
    - by rewrite bool_decide_eq_false_2, orb_false_r. }
  eexists _, n. split; [done|]. cbn [row_groups deleted_rows]. split.
  - split; cbn [row_groups deleted_rows]; try done.
    + by apply Hl.
    + unfold RowGroupCollection.small. by rewrite X3.
    + by apply Hd.
    + by rewrite F3.
    + by rewrite F1.
    + intros r Hr. rewrite F2 in Hr. rewrite X5. case_decide; by apply O7.
    + intros r. rewrite X5. case_decide; [by right|apply O8].
    + rewrite F2, <- O9, <- X8. rewrite (deleted_count m m' _ (RowGroupCollection.undo_rows es)); [done|done| | |].
      * intros row Hrow. apply X9 in Hrow as [Hrow _]. specialize (Hids row Hrow). lia.
      * intros r _. rewrite X9. unfold is_deleted. rewrite X5. repeat case_decide.
        -- split; [|naive_solver]. intros _. destruct (Z.eqb_spec (row_ids m (MAX_ROW_ID + r)).2 NOT_DELETED_ID); [by right|by left].
        -- naive_solver.
      * intros r [_ Hr]%X9. unfold is_deleted. by rewrite Hr.
  - split; [done|]. split; [done|]. split; [|split; [|by rewrite X3]].
    { unfold seen. cbn [row_groups]. rewrite F2. apply TableScan.omap_seq_ext. intros r _. by rewrite Hdel, X4. }
    apply list_eq. intros r. unfold clear. rewrite list_lookup_imap, !view_lookup. unfold row_view. cbn [row_groups]. rewrite F2, X4.
    fold m. case_decide; [|done]. cbn [fmap option_fmap option_map]. rewrite Hdel. by destruct (is_deleted m r), (bool_decide _).
Qed.

Lemma own_visible T d :
  RowVersionManager.proper T -> d = NOT_DELETED_ID \/ d = 0 ->
  RowVersionManager.visible T (ChunkInfo.transaction_id T, d) = (d =? NOT_DELETED_ID).
Proof.
  intros [HT H0] Hd. unfold RowVersionManager.visible. cbn [fst snd].
  assert (forall id, ChunkInfo.UseVersion T id = (id <? ChunkInfo.start_time T) || (id =? ChunkInfo.transaction_id T)) as Huse by done.
  rewrite (Huse (ChunkInfo.transaction_id T)), Z.eqb_refl, orb_true_r. destruct Hd as [-> | ->].
  - by rewrite ChunkInfo.UseVersion_NOT_DELETED.
  - rewrite Huse, (proj2 (Z.ltb_lt 0 _)) by done. done.
Qed.

Lemma local_scan T l :
  RowVersionManager.proper T -> local_ok (ChunkInfo.transaction_id T) l ->
  exists m' chunks, TableScan.collection_Scan T (row_groups l) = (m', Ok chunks) /\ mjoin chunks = seen l
  /\ Forall (fun chunk => 0 < length chunk <= STANDARD_VECTOR_SIZE)%nat chunks.
Proof.
  intros HT [O1 O2 O3 O4 O5 O6 O7 O8 O9].
  destruct (TableScan.collection_Scan_spec T (row_groups l) O1 HT) as (m' & chunks & E & _ & _ & _ & _ & Hj & Hc).
  exists m', chunks. split; [done|]. split; [|done]. rewrite Hj. unfold TableScan.rows_seen, seen. rewrite O5.
  apply TableScan.omap_seq_ext. intros r Hr. unfold is_deleted. specialize (O7 r). specialize (O8 r).
  destruct (row_ids (row_groups l) (MAX_ROW_ID + r)) as [i d]. cbn [fst snd] in *. rewrite O7 by lia.
  rewrite own_visible by done. by destruct (d =? NOT_DELETED_ID).
Qed.

Lemma AddedRows_seen tid table s :
  local_ok tid (default new_storage (GetStorage table s)) ->
  AddedRows table s = length (seen (default new_storage (GetStorage table s))).
Proof. intros Hl. unfold AddedRows. destruct (GetStorage table s) as [l|]; [|done]. by erewrite seen_length. Qed.

(** C21 Local storage keeps the uncommitted rows of a transaction.  A table without local storage
    has no rows; an append of chunks adds exactly their rows at the end; a delete by row number
    removes exactly the rows named, returns how many of them were still there, and never fails;
    scanning the storage as its transaction yields exactly the rows appended and not deleted, whose
    number is what [AddedRows] says; the storage of other tables stays as it is. *)
Theorem local_storage_tracks T table s :
  RowVersionManager.proper T ->
  let tid := ChunkInfo.transaction_id T in
  let l := default new_storage (GetStorage table s) in
  local_ok tid new_storage /\ seen new_storage = []
  /\ (local_ok tid l ->
      (exists m chunks, TableScan.collection_Scan T (row_groups l) = (m, Ok chunks) /\ mjoin chunks = seen l)
      /\ AddedRows table s = length (seen l)
      /\ (forall chunks, DataTable.room (row_groups l) (length (mjoin chunks)) ->
           exists s' st l', append T table chunks s = (s', Ok st) /\ GetStorage table s' = Some l' /\ local_ok tid l'
           /\ seen l' = seen l ++ mjoin chunks /\ forall t, t <> table -> GetStorage t s' = GetStorage t s)
      /\ (forall ids, GetStorage table s = Some l ->
           Forall (fun id => MAX_ROW_ID <= id < MAX_ROW_ID + total_rows (row_groups l))%nat ids ->
           exists s' n l', Delete table ids s = (s', Ok n) /\ GetStorage table s' = Some l' /\ local_ok tid l'
           /\ (AddedRows table s' + n = AddedRows table s)%nat
           /\ seen l' = omap (fun r => if is_deleted (row_groups l) r || bool_decide ((MAX_ROW_ID + r)%nat ∈ ids) then None
                                      else rows (row_groups l) !! r) (seq 0 (total_rows (row_groups l)))
           /\ forall t, t <> table -> GetStorage t s' = GetStorage t s)).
Proof.
  intros HT tid l. destruct (new_ok tid) as [N1 N2]. split; [done|]. split; [done|]. intros Hl.
  split; [destruct (local_scan T l HT Hl) as (m & chunks & E & Hj & _); by exists m, chunks|].
  split; [by apply (AddedRows_seen tid)|]. split.
  - intros chunks Hroom. destruct (local_append T l chunks Hl Hroom) as (m & st & E & Hok & Hview & _ & _).
    destruct (Get_create table s) as [G1 G2]. fold l in G1.
    exists (SetStorage table (set_row_groups m l) (GetOrCreateStorage table s)), st, (set_row_groups m l).
    rewrite append_local. fold l. rewrite E. split; [done|]. split; [by eapply Get_Set|]. split; [done|].
    split; [by rewrite !seen_view, Hview, omap_app, omap_id_Some|]. intros t Ht. rewrite Get_Set_ne by done. by apply G2.
  - intros ids Hg Hids. destruct (local_delete tid l ids Hl Hids) as (l' & n & E & Hok & Hn & Ht & Hseen & _).
    exists (SetStorage table l' s), n, l'. unfold Delete. rewrite (on_storage_spec table _ l s Hg), E. split; [done|].
    split; [by eapply Get_Set|]. split; [done|]. split; [|split; [done|intros t Ht'; by apply Get_Set_ne]].
    unfold AddedRows. rewrite (Get_Set table l l' s Hg), Hg. unfold storage_rows.
    pose proof (select_length_le (is_deleted (row_groups l')) (total_rows (row_groups l'))) as Hle.
    rewrite (o_count _ _ Hok) in Hle. lia.
Qed.

End local_storage.

(** ** An instance *)

#[local] Existing Instance RowGroupCollection.list_columns.
#[local] Existing Instance RowGroupCollection.list_columns_laws.
#[local] Existing Instance TableScan.list_scan.
#[local] Existing Instance TableScan.list_scan_laws.

(** Local rows are numbered from 100 here; one of three appended rows is deleted again. *)
Definition example_storage : Manager (nat * list nat) :=
  (append 100 STANDARD_VECTOR_SIZE RowGroupCollection.writer 1 [[10; 11]; [12]]%nat []).1.

Lemma local_storage_tracks_witness :
  exists s' n, Delete 1 [101]%nat example_storage = (s', Ok n) /\ AddedRows 1 s' = 2%nat.
Proof.
  assert (RowVersionManager.proper RowGroupCollection.writer) as HT
    by (split; [split; vm_compute; congruence|vm_compute; reflexivity]).
  assert (0 < STANDARD_VECTOR_SIZE /\ STANDARD_VECTOR_SIZE mod STANDARD_VECTOR_SIZE = 0)%nat as Hsize
    by (split; [apply SVS_pos|apply Nat.Div0.mod_same]).
  destruct (local_storage_tracks 100 STANDARD_VECTOR_SIZE (contents := snd) (column_start := fst) Hsize
              RowGroupCollection.writer 1 [] HT) as (H1 & H2 & H).
  destruct (H H1) as (_ & _ & Happ & _). destruct (Happ [[10; 11]; [12]]%nat) as (s1 & st & l & E & Hg & Hl & Hs & _).
  { vm_compute. reflexivity. }
  assert (s1 = example_storage) as -> by (unfold example_storage; by rewrite E).
  destruct (local_storage_tracks 100 STANDARD_VECTOR_SIZE (contents := snd) (column_start := fst) Hsize
              RowGroupCollection.writer 1 example_storage HT) as (_ & _ & H').
  rewrite Hg in H'. destruct (H' Hl) as (_ & Hadd & _ & Hdel). simpl in Hadd.
  destruct (Hdel [101]%nat) as (s' & n & l' & E' & _ & _ & Hn & _); [done| |].
  - assert (total_rows (row_groups l) = 3%nat) as Htot.
    { assert (Some l = GetStorage 1 example_storage) as Hl' by (by rewrite Hg).
      assert ((fun l => total_rows (row_groups l)) <$> GetStorage 1 example_storage = Some 3%nat) as Hc by (vm_compute; reflexivity).
      rewrite Hg in Hc. by injection Hc. }
    simpl. rewrite Htot. apply Forall_singleton. lia.
  - exists s', n. split; [exact E'|]. assert (n = 1%nat) as Hn1.
    { assert ((Delete 1 [101]%nat example_storage).2 = Ok 1%nat) as Hc by (vm_compute; reflexivity).
      rewrite E' in Hc. by injection Hc. }
    assert (length (seen 100 (contents := snd) l) = 3%nat) as H3 by (rewrite Hs; reflexivity).
    rewrite Hadd, Hn1 in Hn. lia.
Defined.

End LocalStorage.
