(* ===== verification/UndoBuffer.v ===== *)
(** * The undo buffer

    Models src/src/transaction/undo_buffer.cpp and undo_buffer_allocator.cpp: the chain of memory
    blocks a transaction writes its undo entries to, the layout of the entries (a type, a length and
    the payload) and the three ways to iterate over them.  The blocks are listed from the oldest
    ([tail]) to the newest ([head]), so the [prev] of a block is the one after it; a reference is a
    block and a byte offset.  Callbacks change a state of their own: the structures in the payloads
    belong to the components that own them, and no callback writes to the headers.

    The abstract view is the list of the entries created, each with its type and the pointer to its
    payload. *)

From S2P Require Import Prelude UpdateKind.

Module UndoBuffer.

Abbreviation AlignValue := UpdateKind.AlignValue.

Inductive UndoFlags : Type :=
| EMPTY_ENTRY
| CATALOG_ENTRY
| INSERT_TUPLE
| DELETE_TUPLE
| UPDATE_TUPLE
| SEQUENCE_VALUE
| ATTACHED_DATABASE.

Definition flag_value (f : UndoFlags) : Z :=
  match f with
  | EMPTY_ENTRY => 0
  | CATALOG_ENTRY => 1
  | INSERT_TUPLE => 2
  | DELETE_TUPLE => 3
  | UPDATE_TUPLE => 4
  | SEQUENCE_VALUE => 5
  | ATTACHED_DATABASE => 6
  end.

(** ** The next power of two *)

Definition NextPowerOfTwo (v : Z) : result Z :=
  if v <? 1 then Ok 2
  else
    let w := wrapU 64 (v - 1) in
    let w := Z.lor w (Z.shiftr w 1) in
    let w := Z.lor w (Z.shiftr w 2) in
    let w := Z.lor w (Z.shiftr w 4) in
    let w := Z.lor w (Z.shiftr w 8) in
    let w := Z.lor w (Z.shiftr w 16) in
    let w := Z.lor w (Z.shiftr w 32) in
    let w := wrapU 64 (w + 1) in
    if w =? 0 then Throw OutOfRangeException else Ok w.

(** ** The allocator *)

(** [UndoBufferEntry], with the bytes of its block. *)
Record Block : Type := mkBlock {
  memory : list Z;
  position : nat;
  capacity : nat
}.

Abbreviation t := (list Block).
Abbreviation pointer := (nat * nat)%type.

Definition sizeof_UndoFlags : nat := 4.
Definition sizeof_uint32 : nat := 4.
Definition UNDO_ENTRY_HEADER_SIZE : nat := sizeof_UndoFlags + sizeof_uint32.

(** [Store] and [Load] at a byte offset. *)
Definition write_bytes (p : nat) (bytes mem : list Z) : list Z :=
  take p mem ++ bytes ++ drop (p + length bytes) mem.
Definition load (n p : nat) (mem : list Z) : Z := le_value (take n (drop p mem)).

Definition store (b p : nat) (bytes : list Z) (m : t) : t :=
  alter (fun e => mkBlock (write_bytes p bytes (memory e)) (position e) (capacity e)) b m.

Section undo_buffer.
(** The size of a block, and memory from the buffer manager, with unknown contents. *)
Context (block_size : nat) (buffer_allocate : nat -> result (list Z)).

Definition new_capacity (head : option Block) (alloc_len : nat) : result nat :=
  let capacity := match head with
                  | None => if (alloc_len <=? 4096)%nat then 4096%nat else block_size
                  | Some _ => block_size
                  end in
  if (capacity <? alloc_len)%nat then Z.to_nat <$> NextPowerOfTwo (Z.of_nat alloc_len)
  else Ok capacity.

Definition needs_block (head : option Block) (alloc_len : nat) : bool :=
  match head with
  | None => true
  | Some head => (capacity head <? position head + alloc_len)%nat
  end.

Definition Allocate (alloc_len : nat) : ST t pointer :=
  m ← get;
  (if needs_block (last m) alloc_len then
     capacity ← lift (new_capacity (last m) alloc_len);
     bytes ← lift (buffer_allocate capacity);
     modify (fun m => m ++ [mkBlock bytes 0 capacity])
   else mret tt);;
  m ← get;
  let head := pred (length m) in
  let current_position := default 0%nat (position <$> m !! head) in
  modify (alter (fun e => mkBlock (memory e) (position e + alloc_len) (capacity e)) head);;
  mret (head, current_position).

Definition CreateEntry (type : Z) (len : nat) : ST t pointer :=
  let alloc_len := AlignValue (len + UNDO_ENTRY_HEADER_SIZE) in
  '(b, data) ← Allocate alloc_len;
  modify (store b data (le_bytes sizeof_UndoFlags type));;
  let data' := (data + sizeof_UndoFlags)%nat in
  modify (store b data' (le_bytes sizeof_uint32 (wrapU 32 (Z.of_nat (alloc_len - UNDO_ENTRY_HEADER_SIZE)))));;
  mret (b, (data + UNDO_ENTRY_HEADER_SIZE)%nat).

End undo_buffer.

(** ** Iteration *)

Record IteratorState : Type := mkIter {
  current : option nat;
  start : nat;
  end_ : nat
}.

(** As it is constructed. *)
Definition initial_state : IteratorState := mkIter None 0 0.

Section iteration.
Context {S : Type}.
Implicit Types (callback : Z -> pointer -> ST S unit).

Definition on_state {A} (f : ST S A) : ST (IteratorState * S) A :=
  fun '(it, s) => let '(s, r) := f s in ((it, s), r).
Definition set_iterator (it : IteratorState) : ST (IteratorState * S) unit :=
  modify (fun '(_, s) => (it, s)).
Definition get_iterator : ST (IteratorState * S) IteratorState := fun st => (st, Ok st.1).
Definition advance (n : nat) : ST (IteratorState * S) unit :=
  modify (fun '(it, s) => (mkIter (current it) (start it + n) (end_ it), s)).

(** Every iteration advances by the size of a header at least. *)
Fixpoint entries_loop (fuel : nat) (mem : list Z) (b : nat) callback : ST (IteratorState * S) unit :=
  match fuel with
  | O => throw InternalException
  | Datatypes.S fuel =>
      it ← get_iterator;
      if (start it <? end_ it)%nat then
        let type := load sizeof_UndoFlags (start it) mem in
        advance sizeof_UndoFlags;;
        it ← get_iterator;
        let len := load sizeof_uint32 (start it) mem in
        advance sizeof_uint32;;
        it ← get_iterator;
        on_state (callback type (b, start it));;
        advance (Z.to_nat len);;
        entries_loop fuel mem b callback
      else mret tt
  end.

Fixpoint iterate_blocks (l : list Block) (b : nat) callback : ST (IteratorState * S) unit :=
  match l with
  | [] => it ← get_iterator; set_iterator (mkIter None (start it) (end_ it))
  | blk :: l =>
      set_iterator (mkIter (Some b) 0 (position blk));;
      entries_loop (Datatypes.S (position blk)) (memory blk) b callback;;
      iterate_blocks l (Datatypes.S b) callback
  end.

Definition IterateEntries (m : t) callback : ST (IteratorState * S) unit := iterate_blocks m 0 callback.

Fixpoint iterate_blocks_until (l : list Block) (b : nat) (end_state : IteratorState) callback
    : ST (IteratorState * S) unit :=
  match l with
  | [] => it ← get_iterator; set_iterator (mkIter None (start it) (end_ it))
  | blk :: l =>
      let at_end := bool_decide (Some b = current end_state) in
      set_iterator (mkIter (Some b) 0 (if at_end then start end_state else position blk));;
      entries_loop (Datatypes.S (position blk)) (memory blk) b callback;;
      if at_end then mret tt else iterate_blocks_until l (Datatypes.S b) end_state callback
  end.

Definition IterateEntriesUntil (m : t) (end_state : IteratorState) callback : ST (IteratorState * S) unit :=
  iterate_blocks_until m 0 end_state callback.

(** The nodes of a block. *)
Fixpoint nodes_loop (fuel : nat) (mem : list Z) (b start end_ : nat) : list (Z * pointer) :=
  match fuel with
  | O => []
  | Datatypes.S fuel =>
      if (start <? end_)%nat then
        let type := load sizeof_UndoFlags start mem in
        let start := (start + sizeof_UndoFlags)%nat in
        let len := load sizeof_uint32 start mem in
        let start := (start + sizeof_uint32)%nat in
        (type, (b, start)) :: nodes_loop fuel mem b (start + Z.to_nat len) end_
      else []
  end.

Definition block_nodes (b : nat) (blk : Block) : list (Z * pointer) :=
  nodes_loop (Datatypes.S (position blk)) (memory blk) b 0 (position blk).

(** [for (i = nodes.size(); i > 0; i--)]. *)
Fixpoint run callback (nodes : list (Z * pointer)) : ST S unit :=
  match nodes with
  | [] => mret tt
  | (type, p) :: nodes => callback type p;; run callback nodes
  end.

Fixpoint reverse_blocks (l : list Block) (b : nat) callback : ST S unit :=
  match l with
  | [] => mret tt
  | blk :: l =>
      reverse_blocks l (Datatypes.S b) callback;;
      run callback (rev (block_nodes b blk))
  end.

Definition ReverseIterateEntries (m : t) callback : ST S unit := reverse_blocks m 0 callback.

End iteration.

Definition ChangesMade (m : t) : bool := match m with [] => false | _ => true end.

Definition estimated_size (m : t) : nat := list_sum (map position m).

(** ** The power of two *)

(** Bit [i] of [x] says whether one of the [k] bits of [w] from [i] on is set. *)
Definition smeared (w x k : Z) : Prop :=
  forall i, 0 <= i -> Z.testbit x i = true <-> exists j, i <= j < i + k /\ Z.testbit w j = true.

Lemma smear_step w x k : 0 < k -> smeared w x k -> smeared w (Z.lor x (Z.shiftr x k)) (2 * k).
Proof.
  intros Hk Hx i Hi. rewrite Z.lor_spec, orb_true_iff, Z.shiftr_spec, (Hx i), (Hx (i + k)) by lia. split.
  - intros [(j & Hj & Hw)|(j & Hj & Hw)]; exists j; (split; [lia|done]).
  - intros (j & Hj & Hw). destruct (Z.lt_ge_cases j (i + k)); [left|right]; exists j; (split; [lia|done]).
Qed.

Lemma smear_all w x : 0 < w < 2 ^ 64 -> 0 <= x -> smeared w x 64 -> x = 2 ^ (Z.log2 w + 1) - 1.
Proof.
  intros [H0 H1] Hx0 Hx. pose proof (Z.log2_nonneg w) as Hl.
  assert (Z.log2 w < 64) as Hl64 by (by apply Z.log2_lt_pow2).
  apply Z.bits_inj'. intros i Hi. rewrite testbit_ones by lia.
  destruct (Z.ltb_spec i (Z.log2 w + 1)) as [Hlt|Hge].
  - apply Hx; [done|]. exists (Z.log2 w). split; [lia|by apply Z.bit_log2].
  - destruct (Z.testbit x i) eqn:E; [|done]. apply Hx in E as (j & Hj & Hw); [|done].
    rewrite Z.bits_above_log2 in Hw by lia. done.
Qed.

(** The result is the least power of two that is not smaller. *)
Lemma NextPowerOfTwo_spec v :
  1 < v <= 2 ^ 63 -> NextPowerOfTwo v = Ok (2 ^ Z.log2_up v) /\ v <= 2 ^ Z.log2_up v < 2 * v.
Proof.
  intros [H1 H2]. assert (Z.log2_up v = Z.log2 (v - 1) + 1) as El.
  { rewrite Z.log2_up_eqn by done. unfold Z.succ. f_equal. }
  pose proof (Z.log2_up_spec v H1) as [L1 L2]. split.
  2:{ split; [done|]. rewrite El in *. replace (Z.pred (Z.log2 (v - 1) + 1)) with (Z.log2 (v - 1)) in L1 by lia.
      rewrite Z.pow_add_r by (try apply Z.log2_nonneg; lia). lia. }
  unfold NextPowerOfTwo. destruct (Z.ltb_spec v 1); [lia|]. rewrite (wrapU_small 64 (v - 1)) by (split; lia).
  assert (smeared (v - 1) (v - 1) 1) as S0.
  { intros i Hi. split; [intros E; exists i; split; [lia|done]|]. intros (j & Hj & Hw). by replace i with j by lia. }
  apply smear_step in S0; [|lia]. apply smear_step in S0; [|lia]. apply smear_step in S0; [|lia].
  apply smear_step in S0; [|lia]. apply smear_step in S0; [|lia]. apply smear_step in S0; [|lia].
  cbn [Z.mul Pos.mul] in S0. cbv zeta. set (x := Z.lor _ _) in S0 |- *.
  apply smear_all in S0; [|lia|].
  2:{ unfold x. repeat first [apply Z.lor_nonneg; split | apply Z.shiftr_nonneg]; lia. }
  rewrite S0, <- El. replace (2 ^ Z.log2_up v - 1 + 1) with (2 ^ Z.log2_up v) by lia.
  assert (Z.log2_up v <= 63) by (rewrite <- (Z.log2_up_pow2 63) by lia; by apply Z.log2_up_le_mono).
  pose proof (Z.pow_le_mono_r 2 (Z.log2_up v) 63). rewrite wrapU_small by (split; lia).
  destruct (Z.eqb_spec (2 ^ Z.log2_up v) 0); [lia|done].
Qed.

(** ** The abstract view *)

(** The entries of a block: type and payload. *)
Abbreviation entry := (Z * list Z)%type.

Definition encode (e : entry) : list Z :=
  le_bytes 4 e.1 ++ le_bytes 4 (Z.of_nat (length e.2)) ++ e.2.
Definition encodes (es : list entry) : list Z := mjoin (map encode es).

Definition entry_ok (e : entry) : Prop :=
  0 <= e.1 < 2 ^ 32 /\ Z.of_nat (length e.2) < 2 ^ 32 /\ (length e.2 mod 8 = 0)%nat.

Record block_repr (blk : Block) (es : list entry) : Prop := {
  r_length : length (memory blk) = capacity blk;
  r_position : (position blk <= capacity blk)%nat;
  r_bytes : take (position blk) (memory blk) = encodes es;
  r_entries : Forall entry_ok es
}.

(** The type and the pointer to the payload of the entries of block [b] from offset [off] on. *)
Fixpoint pointers (b off : nat) (es : list entry) : list (Z * pointer) :=
  match es with
  | [] => []
  | e :: es => (e.1, (b, (off + 8)%nat)) :: pointers b (off + length (encode e)) es
  end.

Fixpoint all_pointers (b : nat) (ess : list (list entry)) : list (Z * pointer) :=
  match ess with
  | [] => []
  | es :: ess => pointers b 0 es ++ all_pointers (S b) ess
  end.

Lemma encode_length e : length (encode e) = (8 + length e.2)%nat.
Proof. unfold encode. rewrite !length_app, !length_le_bytes. lia. Qed.

Lemma encodes_cons e es : encodes (e :: es) = encode e ++ encodes es.
Proof. done. Qed.

Lemma encodes_one e : encodes [e] = encode e.
Proof. unfold encodes. simpl. by rewrite app_nil_r. Qed.

Lemma encodes_app es es' : encodes (es ++ es') = encodes es ++ encodes es'.
Proof. unfold encodes. by rewrite map_app, join_app. Qed.

Lemma length_le_encodes es : (length es <= length (encodes es))%nat.
Proof.
  induction es as [|e es IH]; [done|]. rewrite encodes_cons, length_app, encode_length. simpl. lia.
Qed.

Lemma pointers_app b off es es' :
  pointers b off (es ++ es') = pointers b off es ++ pointers b (off + length (encodes es)) es'.
Proof.
  revert off. induction es as [|e es IH]; intros off; [simpl; by rewrite Nat.add_0_r|].
  cbn [pointers app]. rewrite IH, encodes_cons, length_app. by rewrite Nat.add_assoc.
Qed.

Lemma all_pointers_app b ess ess' :
  all_pointers b (ess ++ ess') = all_pointers b ess ++ all_pointers (b + length ess) ess'.
Proof.
  revert b. induction ess as [|es ess IH]; intros b; [simpl; by rewrite Nat.add_0_r|].
  simpl. rewrite IH, <- app_assoc. by rewrite Nat.add_succ_comm.
Qed.

Lemma load_le_bytes n z pre suf :
  0 <= z < 256 ^ Z.of_nat n -> load n (length pre) (pre ++ le_bytes n z ++ suf) = z.
Proof.
  intros Hz. unfold load. rewrite drop_app_length, take_app_length' by (by rewrite length_le_bytes).
  by apply le_value_bytes.
Qed.

(** The header of an entry, read back. *)
Lemma load_header pre e suf :
  entry_ok e ->
  load 4 (length pre) (pre ++ encode e ++ suf) = e.1
  /\ load 4 (length pre + 4) (pre ++ encode e ++ suf) = Z.of_nat (length e.2).
Proof.
  intros (H1 & H2 & _). unfold encode. rewrite <- !app_assoc. split; [by apply load_le_bytes|].
  rewrite (app_assoc pre). replace (length pre + 4)%nat with (length (pre ++ le_bytes 4 e.1))
    by (by rewrite length_app, length_le_bytes).
  apply load_le_bytes. split; [lia|done].
Qed.

(** ** Iteration *)

(** A loop that ends at [end_] goes through exactly the entries [es]. *)
Fixpoint reaches (off : nat) (es : list entry) (end_ : nat) : Prop :=
  match es with
  | [] => (end_ <= off)%nat
  | e :: es => (off < end_)%nat /\ reaches (off + length (encode e)) es end_
  end.

Lemma reaches_all off es : reaches off es (off + length (encodes es)).
Proof.
  revert off. induction es as [|e es IH]; intros off; cbn [reaches]; [simpl; lia|].
  rewrite encodes_cons, length_app, Nat.add_assoc. split; [rewrite encode_length; lia|apply IH].
Qed.

Lemma reaches_last off es e : reaches off (es ++ [e]) (off + length (encodes es) + 8).
Proof.
  revert off. induction es as [|e' es IH]; intros off; cbn [reaches app].
  - rewrite encode_length. simpl. lia.
  - rewrite encodes_cons, length_app, encode_length. split; [lia|].
    replace (off + (8 + length e'.2 + length (encodes es)) + 8)%nat
      with (off + (8 + length e'.2) + length (encodes es) + 8)%nat by lia. apply IH.
Qed.

Section iterate.
Context {S : Type}.
Implicit Types (callback : Z -> pointer -> ST S unit) (s : S) (it : IteratorState).

(** Where the callbacks failed: at the entry with pointer [p], after those of [l1]. *)
Definition stopped callback (l : list (Z * pointer)) s (l1 : list (Z * pointer)) (ty : Z) (p : pointer) : Prop :=
  exists l2 s1, l = l1 ++ (ty, p) :: l2 /\ run callback l1 s = (s1, Ok tt)
  /\ callback ty p s1 = run callback l s.

Lemma run_app callback l1 l2 s :
  run callback (l1 ++ l2) s = match run callback l1 s with
                              | (s', Ok _) => run callback l2 s'
                              | (s', Throw e) => (s', Throw e)
                              end.
Proof.
  revert s. induction l1 as [|[ty p] l1 IH]; intros s; [done|]. simpl. unfold mbind, ST_bind.
  destruct (callback ty p s) as [s' [[]|e]]; [apply IH|done].
Qed.

(** The outcome of a loop over the entries [l]. *)
Definition outcome callback (l : list (Z * pointer)) s (st' : IteratorState * S) (r : result unit) : Prop :=
  (st'.2, r) = run callback l s
  /\ match r with
     | Ok _ => True
     | Throw _ => exists l1 ty p, stopped callback l s l1 ty p /\ current st'.1 = Some p.1 /\ start st'.1 = p.2
     end.

Lemma outcome_cons callback ty p l s s' st' r :
  callback ty p s = (s', Ok tt) -> outcome callback l s' st' r -> outcome callback ((ty, p) :: l) s st' r.
Proof.
  intros Hc [Hr Hst].
  assert (run callback ((ty, p) :: l) s = run callback l s') as E by (simpl; by rewrite (ST_bind_Ok _ _ _ _ _ Hc)).
  split; [by rewrite E|]. destruct r; [done|]. destruct Hst as (l1 & ty' & p' & (l2 & s1 & -> & H1 & H2) & H3).
  exists ((ty, p) :: l1), ty', p'. split; [|done]. exists l2, s1. split; [done|].
  split; [simpl; by rewrite (ST_bind_Ok _ _ _ _ _ Hc)|by rewrite E].
Qed.

Lemma outcome_app_Ok callback l1 l2 s s' st' r :
  run callback l1 s = (s', Ok tt) -> outcome callback l2 s' st' r -> outcome callback (l1 ++ l2) s st' r.
Proof.
  revert s. induction l1 as [|[ty p] l1 IH]; intros s H1 H2.
  - injection H1 as <-. done.
  - simpl in H1. unfold mbind, ST_bind in H1. destruct (callback ty p s) as [s1 [[]|e]] eqn:E; [|done].
    simpl. eapply outcome_cons; [exact E|]. by apply IH.
Qed.

Lemma outcome_app_Throw callback l1 l2 s st' e :
  outcome callback l1 s st' (Throw e) -> outcome callback (l1 ++ l2) s st' (Throw e).
Proof.
  intros [H1 (l & ty & p & (l3 & s1 & -> & H2 & H3) & H4)].
  assert (run callback ((l ++ (ty, p) :: l3) ++ l2) s = (st'.2, Throw e)) as E by (by rewrite run_app, <- H1).
  split; [by rewrite E|]. exists l, ty, p. split; [|done]. exists (l3 ++ l2), s1.
  split; [by rewrite <- app_assoc|]. split; [done|]. by rewrite E, H1.
Qed.

Lemma entries_loop_spec callback fuel b es : forall mem pre suf it s,
  mem = pre ++ encodes es ++ suf -> start it = length pre -> current it = Some b -> Forall entry_ok es ->
  (length es < fuel)%nat -> reaches (length pre) es (end_ it) ->
  let '(st', r) := entries_loop fuel mem b callback (it, s) in
  outcome callback (pointers b (length pre) es) s st' r.
Proof.
  revert fuel. induction es as [|e es IH]; intros [|fuel] mem pre suf it s Hm Hst Hcur Hok Hf Hr; try (simpl in Hf; lia).
  - cbn [entries_loop]. unfold mbind, ST_bind, get_iterator. cbn [fst]. rewrite Hst.
    simpl in Hr. destruct (Nat.ltb_spec (length pre) (end_ it)); [lia|]. done.
  - apply Forall_cons_1 in Hok as [He Hok]. destruct Hr as [Hlt Hr].
    rewrite encodes_cons, <- app_assoc in Hm. destruct (load_header pre e (encodes es ++ suf) He) as [L1 L2].
    rewrite <- Hm in L1, L2. cbn [entries_loop pointers].
    set (it1 := mkIter (current it) (start it + 4 + 4) (end_ it)).
    unfold mbind at 1, ST_bind at 1, get_iterator at 1. cbn [fst]. rewrite Hst.
    rewrite (proj2 (Nat.ltb_lt _ _) Hlt). unfold sizeof_UndoFlags, sizeof_uint32. rewrite L1.
    unfold mbind at 1, ST_bind at 1, advance at 1, modify at 1. cbn beta iota.
    unfold mbind at 1, ST_bind at 1, get_iterator at 1. cbn [fst start]. rewrite Hst, L2.
    unfold mbind at 1, ST_bind at 1, advance at 1, modify at 1. cbn beta iota. cbn [current start end_].
    unfold mbind at 1, ST_bind at 1, get_iterator at 1. cbn [fst start].
    replace (length pre + 4 + 4)%nat with (length pre + 8)%nat by lia.
    destruct (callback e.1 (b, (length pre + 8)%nat) s) as [s' [[]|ex]] eqn:E.
    + rewrite (ST_bind_Ok _ (on_state _) _ (mkIter (current it) (length pre + 8) (end_ it), s') tt)
        by (unfold on_state; by rewrite E).
      unfold mbind at 1, ST_bind at 1, advance at 1, modify at 1. cbn beta iota. cbn [current start end_].
      rewrite Nat2Z.id. specialize (IH fuel mem (pre ++ encode e) suf).
      assert (length (pre ++ encode e) = length pre + 8 + length e.2)%nat as El by (rewrite length_app, encode_length; lia).
      specialize (IH (mkIter (current it) (length pre + 8 + length e.2) (end_ it)) s').
      rewrite encode_length in *. rewrite El in IH. cbn [start current end_] in IH.
      replace (length pre + (8 + length e.2))%nat with (length pre + 8 + length e.2)%nat in * by lia.
      specialize (IH ltac:(by rewrite <- app_assoc) eq_refl Hcur Hok ltac:(simpl in Hf; lia) Hr).
      destruct (entries_loop fuel mem b callback _) as [st' r]. eapply outcome_cons; [exact E|exact IH].
    + rewrite (ST_bind_Throw _ (on_state _) _ (mkIter (current it) (length pre + 8) (end_ it), s') ex)
        by (unfold on_state; by rewrite E).
      assert (run callback ((e.1, (b, (length pre + 8)%nat)) :: pointers b (length pre + length (encode e)) es) s = (s', Throw ex)) as Er
        by (simpl; by rewrite (ST_bind_Throw _ _ _ _ _ E)).
      split; [by rewrite Er|]. exists [], e.1, (b, (length pre + 8)%nat). split; [|done].
      eexists _, s. split; [done|]. split; [done|]. by rewrite Er.
Qed.

(** The bytes of a block. *)
Lemma block_memory blk es : block_repr blk es -> memory blk = encodes es ++ drop (position blk) (memory blk).
Proof. intros [_ _ H _]. by rewrite <- H, take_drop. Qed.

Lemma block_position blk es : block_repr blk es -> position blk = length (encodes es).
Proof. intros [H1 H2 H3 _]. rewrite <- H3, length_take, H1. lia. Qed.

Lemma block_loop callback blk es b s :
  block_repr blk es ->
  let '(st', r) := entries_loop (Datatypes.S (position blk)) (memory blk) b callback (mkIter (Some b) 0 (position blk), s) in
  outcome callback (pointers b 0 es) s st' r.
Proof.
  intros Hb. apply (entries_loop_spec callback _ b es _ [] (drop (position blk) (memory blk))).
  - by apply block_memory.
  - done.
  - done.
  - by destruct Hb.
  - rewrite (block_position _ _ Hb). pose proof (length_le_encodes es). lia.
  - rewrite (block_position _ _ Hb). apply (reaches_all 0).
Qed.

Lemma iterate_blocks_spec callback l ess : Forall2 block_repr l ess -> forall b it s,
  let '(st', r) := iterate_blocks l b callback (it, s) in
  outcome callback (all_pointers b ess) s st' r /\ (r = Ok tt -> current st'.1 = None).
Proof.
  intros Hall. induction Hall as [|blk es l ess Hb Hall IH]; intros b it s; cbn [iterate_blocks all_pointers].
  { unfold mbind, ST_bind, get_iterator, set_iterator, modify. by repeat split. }
  rewrite (ST_bind_Ok _ (set_iterator _) (it, s) (mkIter (Some b) 0 (position blk), s) tt) by done.
  pose proof (block_loop callback blk es b s Hb) as H.
  destruct (entries_loop _ (memory blk) b callback _) as [[it1 s1] [[]|e]] eqn:E.
  - rewrite (ST_bind_Ok _ _ _ _ _ E). specialize (IH (Datatypes.S b) it1 s1).
    destruct (iterate_blocks l (Datatypes.S b) callback (it1, s1)) as [st' r]. destruct IH as [IH1 IH2].
    split; [|done]. destruct H as [H _]. eapply outcome_app_Ok; [symmetry; exact H|exact IH1].
  - rewrite (ST_bind_Throw _ _ _ _ _ E). split; [by apply outcome_app_Throw|done].
Qed.

Lemma pointers_split b off es l1 x l2 :
  pointers b off es = l1 ++ x :: l2 ->
  exists es1 e es2, es = es1 ++ e :: es2 /\ l1 = pointers b off es1
  /\ x = (e.1, (b, (off + length (encodes es1) + 8)%nat)).
Proof.
  revert off l1. induction es as [|e es IH]; intros off l1; [by destruct l1|].
  destruct l1 as [|y l1]; cbn [pointers app]; intros [= <- Hl].
  - exists [], e, es. split; [done|]. split; [done|]. simpl. by rewrite Nat.add_0_r.
  - apply IH in Hl as (es1 & e1 & es2 & -> & -> & ->). exists (e :: es1), e1, es2. split; [done|]. split; [done|].
    rewrite encodes_cons, length_app. by rewrite Nat.add_assoc.
Qed.

Lemma all_pointers_ge b ess ty b' p : (ty, (b', p)) ∈ all_pointers b ess -> (b <= b')%nat.
Proof.
  revert b. induction ess as [|es ess IH]; intros b; [by intros Hx%not_elem_of_nil|].
  cbn [all_pointers]. intros [Hx|Hx]%elem_of_app.
  - apply list_elem_of_split in Hx as (l1 & l2 & Hx). apply pointers_split in Hx as (? & ? & ? & _ & _ & [= _ -> _]). lia.
  - apply IH in Hx. lia.
Qed.

Lemma iterate_blocks_until_spec callback end_state l ess : Forall2 block_repr l ess -> forall b l1 ty b' p l2 it s,
  all_pointers b ess = l1 ++ (ty, (b', p)) :: l2 -> current end_state = Some b' -> start end_state = p ->
  let '(st', r) := iterate_blocks_until l b end_state callback (it, s) in
  outcome callback (l1 ++ [(ty, (b', p))]) s st' r.
Proof.
  intros Hall. induction Hall as [|blk es l ess Hb Hall IH]; intros b l1 ty b' p l2 it s Hx Hcur Hst;
    cbn [iterate_blocks_until all_pointers] in *; [by destruct l1|].
  assert (forall k, all_pointers (Datatypes.S b) ess = k ++ (ty, (b', p)) :: l2 ->
    let '(st', r) := (set_iterator (mkIter (Some b) 0 (if bool_decide (Some b = current end_state) then start end_state else position blk));;
       entries_loop (Datatypes.S (position blk)) (memory blk) b callback;;
       (if bool_decide (Some b = current end_state) then mret tt else iterate_blocks_until l (Datatypes.S b) end_state callback)) (it, s) in
    outcome callback ((pointers b 0 es ++ k) ++ [(ty, (b', p))]) s st' r) as IH'.
  { intros k Hk. assert (b < b')%nat as Hlt.
    { assert ((ty, (b', p)) ∈ all_pointers (Datatypes.S b) ess) as Hin by (rewrite Hk; set_solver).
      apply all_pointers_ge in Hin. lia. }
    rewrite bool_decide_false by (rewrite Hcur; intros [= ->]; lia).
    rewrite (ST_bind_Ok _ (set_iterator _) (it, s) (mkIter (Some b) 0 (position blk), s) tt) by done.
    pose proof (block_loop callback blk es b s Hb) as H. rewrite <- app_assoc.
    destruct (entries_loop _ (memory blk) b callback _) as [[it1 s1] [[]|e]] eqn:E.
    + rewrite (ST_bind_Ok _ _ _ _ _ E). specialize (IH (Datatypes.S b) k ty b' p l2 it1 s1 Hk Hcur Hst).
      destruct (iterate_blocks_until l (Datatypes.S b) end_state callback (it1, s1)) as [st' r].
      destruct H as [H _]. eapply outcome_app_Ok; [symmetry; exact H|exact IH].
    + rewrite (ST_bind_Throw _ _ _ _ _ E). by apply outcome_app_Throw. }
  apply app_eq_inv in Hx as [(k & Hes & Hk)|(k & -> & Hk)]; [destruct k as [|y k]|].
  - (* the entry is the first of the next block *)
    rewrite app_nil_r in Hes. simpl in Hk. subst l1. rewrite <- (app_nil_r (pointers b 0 es)). by apply (IH' []).
  - simpl in Hk. injection Hk as <- Hk. apply pointers_split in Hes as (es1 & e & es2 & -> & -> & [= -> -> ->]).
    rewrite bool_decide_true by done.
    rewrite (ST_bind_Ok _ (set_iterator _) (it, s) (mkIter (Some b) 0 (start end_state), s) tt) by done.
    pose proof (block_memory _ _ Hb) as Hm. pose proof Hb as [_ _ _ Hok].
    rewrite encodes_app, encodes_cons, <- app_assoc in Hm.
    pose proof (entries_loop_spec callback (Datatypes.S (position blk)) b (es1 ++ [e]) (memory blk) []
                  (encodes es2 ++ drop (position blk) (memory blk)) (mkIter (Some b) 0 (start end_state)) s) as H.
    rewrite pointers_app in H.
    assert (let '(st', r) := entries_loop (Datatypes.S (position blk)) (memory blk) b callback (mkIter (Some b) 0 (start end_state), s) in
            outcome callback (pointers b 0 es1 ++ [(e.1, (b, (0 + length (encodes es1) + 8)%nat))]) s st' r) as H'.
    { apply H; try done.
      - etransitivity; [exact Hm|]. rewrite encodes_app, encodes_one, <- !app_assoc. done.
      - apply Forall_app in Hok as [H1 [H2 _]%Forall_cons_1]. apply Forall_app. split; [done|by apply Forall_singleton].
      - rewrite (block_position _ _ Hb), encodes_app, !length_app. pose proof (length_le_encodes es1).
        rewrite encodes_cons, length_app, encode_length. simpl. lia.
      - cbn [end_]. rewrite Hst. apply (reaches_last 0). }
    clear H. destruct (entries_loop _ (memory blk) b callback _) as [st' [[]|ex]] eqn:E.
    + by rewrite (ST_bind_Ok _ _ _ _ _ E).
    + by rewrite (ST_bind_Throw _ _ _ _ _ E).
  - apply (IH' k Hk).
Qed.

Lemma iterate_blocks_until_None callback end_state l ess : current end_state = None -> Forall2 block_repr l ess -> forall b it s,
  let '(st', r) := iterate_blocks_until l b end_state callback (it, s) in outcome callback (all_pointers b ess) s st' r.
Proof.
  intros Hn Hall. induction Hall as [|blk es l ess Hb Hall IH]; intros b it s; cbn [iterate_blocks_until all_pointers]; [done|].
  rewrite bool_decide_false by (by rewrite Hn).
  rewrite (ST_bind_Ok _ (set_iterator _) (it, s) (mkIter (Some b) 0 (position blk), s) tt) by done.
  pose proof (block_loop callback blk es b s Hb) as H.
  destruct (entries_loop _ (memory blk) b callback _) as [[it1 s1] [[]|e]] eqn:E.
  - rewrite (ST_bind_Ok _ _ _ _ _ E). specialize (IH (Datatypes.S b) it1 s1).
    destruct (iterate_blocks_until l (Datatypes.S b) end_state callback (it1, s1)) as [st' r].
    destruct H as [H _]. eapply outcome_app_Ok; [symmetry; exact H|exact IH].
  - rewrite (ST_bind_Throw _ _ _ _ _ E). by apply outcome_app_Throw.
Qed.

Lemma nodes_loop_spec fuel b mem es : forall pre suf end_,
  mem = pre ++ encodes es ++ suf -> Forall entry_ok es -> (length es < fuel)%nat -> reaches (length pre) es end_ ->
  nodes_loop fuel mem b (length pre) end_ = pointers b (length pre) es.
Proof.
  revert fuel. induction es as [|e es IH]; intros [|fuel] pre suf end_ Hm Hok Hf Hr; try (simpl in Hf; lia).
  - simpl in *. destruct (Nat.ltb_spec (length pre) end_); [lia|done].
  - apply Forall_cons_1 in Hok as [He Hok]. destruct Hr as [Hlt Hr].
    rewrite encodes_cons, <- app_assoc in Hm. destruct (load_header pre e (encodes es ++ suf) He) as [L1 L2].
    rewrite <- Hm in L1, L2. cbn [nodes_loop pointers]. rewrite (proj2 (Nat.ltb_lt _ _) Hlt).
    unfold sizeof_UndoFlags, sizeof_uint32. cbv zeta. rewrite L1, L2, Nat2Z.id.
    replace (length pre + 4 + 4)%nat with (length pre + 8)%nat by lia. f_equal.
    assert (length (pre ++ encode e) = length pre + 8 + length e.2)%nat as El by (rewrite length_app, encode_length; lia).
    specialize (IH fuel (pre ++ encode e) suf end_). rewrite El in IH. rewrite encode_length in *.
    replace (length pre + (8 + length e.2))%nat with (length pre + 8 + length e.2)%nat in * by lia.
    apply IH; [by rewrite <- app_assoc|done|simpl in Hf; lia|done].
Qed.

Lemma block_nodes_spec b blk es : block_repr blk es -> block_nodes b blk = pointers b 0 es.
Proof.
  intros Hb. apply (nodes_loop_spec _ b _ es [] (drop (position blk) (memory blk))).
  - by apply block_memory.
  - by destruct Hb.
  - rewrite (block_position _ _ Hb). pose proof (length_le_encodes es). lia.
  - rewrite (block_position _ _ Hb). apply (reaches_all 0).
Qed.

Lemma reverse_blocks_spec callback l ess b s :
  Forall2 block_repr l ess -> reverse_blocks l b callback s = run callback (rev (all_pointers b ess)) s.
Proof.
  intros Hall. revert b s. induction Hall as [|blk es l ess Hb Hall IH]; intros b s; [done|].
  cbn [reverse_blocks all_pointers]. rewrite rev_app_distr, run_app, <- IH, (block_nodes_spec _ _ _ Hb).
  unfold mbind, ST_bind. by destruct (reverse_blocks l (Datatypes.S b) callback s) as [s' [[]|e]].
Qed.

End iterate.

(** ** Creating entries *)

Section create.
Context (block_size : nat) (buffer_allocate : nat -> result (list Z)).
(** Memory has the size that was asked for. *)
Hypothesis allocate_length : forall n bytes, buffer_allocate n = Ok bytes -> length bytes = n.
Abbreviation Allocate := (Allocate block_size buffer_allocate).
Abbreviation CreateEntry := (CreateEntry block_size buffer_allocate).
Implicit Types (m : t) (ess : list (list entry)).

Abbreviation repr := (Forall2 block_repr).

Lemma new_capacity_ge head n c :
  Z.of_nat n <= 2 ^ 63 -> new_capacity block_size head n = Ok c -> (n <= c)%nat.
Proof.
  intros Hn. unfold new_capacity. set (c0 := match head with None => _ | Some _ => _ end).
  destruct (Nat.ltb_spec c0 n) as [Hlt|Hge]; [|by intros [= <-]].
  destruct (decide (n = 1)%nat) as [->|Hn1].
  - intros Hc. vm_compute in Hc. injection Hc as <-. lia.
  - destruct (NextPowerOfTwo_spec (Z.of_nat n)) as [E [H _]]; [lia|]. rewrite E. intros [= <-]. lia.
Qed.

Lemma write_bytes_app (pre old new suf : list Z) :
  length old = length new -> write_bytes (length pre) new (pre ++ old ++ suf) = pre ++ new ++ suf.
Proof.
  intros Hl. unfold write_bytes. rewrite take_app_length. do 2 f_equal.
  rewrite app_assoc, drop_app_length' by (rewrite length_app; lia). done.
Qed.

Lemma AlignValue_spec n : (n <= AlignValue n /\ AlignValue n mod 8 = 0)%nat.
Proof.
  unfold AlignValue. split; [dlia|]. apply Nat.Div0.mod_mul.
Qed.

(** The length that an entry for [len] bytes has. *)
Definition entry_length (len : nat) : nat := (AlignValue (len + UNDO_ENTRY_HEADER_SIZE) - UNDO_ENTRY_HEADER_SIZE)%nat.

Lemma entry_length_spec len : (len <= entry_length len /\ entry_length len mod 8 = 0)%nat.
Proof.
  unfold entry_length, UNDO_ENTRY_HEADER_SIZE, sizeof_UndoFlags, sizeof_uint32.
  destruct (AlignValue_spec (len + (4 + 4))) as [H1 H2]. split; [lia|dlia].
Qed.

(** Room for [n] bytes in the last block. *)
Lemma Allocate_spec n m ess :
  repr m ess -> Z.of_nat n <= 2 ^ 63 ->
  match Allocate n m with
  | (m', Throw _) => m' = m
  | (m', Ok (b, p)) =>
      exists m0 blk ess0 es, repr m0 ess0 /\ block_repr blk es
      /\ (p + n <= capacity blk)%nat /\ p = position blk /\ b = length m0
      /\ m' = m0 ++ [mkBlock (memory blk) (p + n) (capacity blk)]
      /\ all_pointers 0 (ess0 ++ [es]) = all_pointers 0 ess
      /\ (ess = ess0 ++ [es] \/ ess = ess0 /\ es = [])
  end.
Proof.
  intros Hm Hn. unfold UndoBuffer.Allocate. rewrite (ST_bind_Ok _ get m m m) by done.
  (* once the last block has room *)
  assert (forall m1 m0 blk ess0 es, m1 = m0 ++ [blk] -> repr m0 ess0 -> block_repr blk es ->
            (position blk + n <= capacity blk)%nat -> all_pointers 0 (ess0 ++ [es]) = all_pointers 0 ess ->
            (ess = ess0 ++ [es] \/ ess = ess0 /\ es = []) ->
            match (m ← get;
                   let head := pred (length m) in
                   let current_position := default 0%nat (position <$> m !! head) in
                   modify (alter (fun e => mkBlock (memory e) (position e + n) (capacity e)) head);;
                   mret (head, current_position)) m1 with
            | (m', Throw _) => m' = m
            | (m', Ok (b, p)) =>
                exists m0 blk ess0 es, repr m0 ess0 /\ block_repr blk es
                /\ (p + n <= capacity blk)%nat /\ p = position blk /\ b = length m0
                /\ m' = m0 ++ [mkBlock (memory blk) (p + n) (capacity blk)]
                /\ all_pointers 0 (ess0 ++ [es]) = all_pointers 0 ess
                /\ (ess = ess0 ++ [es] \/ ess = ess0 /\ es = [])
            end) as Hroom.
  { intros m1 m0 blk ess0 es -> H0 Hb Hroom Hp Hess. unfold mbind, ST_bind, get, modify, mret, ST_ret. cbn beta iota.
    assert (pred (length (m0 ++ [blk])) = length m0) as -> by (rewrite length_app; simpl; lia).
    assert ((m0 ++ [blk]) !! length m0 = Some blk) as El
      by (rewrite lookup_app_r by lia; by replace (length m0 - length m0)%nat with 0%nat by lia).
    rewrite El. simpl. exists m0, blk, ess0, es. do 5 (split; [done|]). split; [|done].
    rewrite alter_app_r_alt by lia. by replace (length m0 - length m0)%nat with 0%nat by lia. }
  destruct (needs_block (last m) n) eqn:En.
  - destruct (new_capacity block_size (last m) n) as [c|e] eqn:Ec.
    2:{ unfold mbind, ST_bind, lift. done. }
    destruct (buffer_allocate c) as [bytes|e] eqn:Eb.
    2:{ unfold mbind, ST_bind, lift. cbn beta iota. by rewrite Eb. }
    rewrite (ST_bind_Ok _ _ m (m ++ [mkBlock bytes 0 c]) tt).
    2:{ unfold mbind, ST_bind, lift, modify. cbn beta iota. by rewrite Eb. }
    apply new_capacity_ge in Ec; [|done]. apply allocate_length in Eb.
    apply (Hroom _ m (mkBlock bytes 0 c) ess []); [done|done| |done| |by right].
    + split; simpl; [done|lia|done|done].
    + rewrite all_pointers_app. simpl. by rewrite app_nil_r.
  - rewrite (ST_bind_Ok _ _ m m tt) by done. unfold needs_block in En.
    destruct (last m) as [blk|] eqn:El; [|done]. apply Nat.ltb_ge in En.
    apply last_Some in El as [m0 ->]. apply Forall2_app_inv_l in Hm as (ess0 & ess1 & H0 & H1 & ->).
    apply Forall2_cons_inv_l in H1 as (es & ess2 & Hb & H2 & ->). apply Forall2_nil_inv_l in H2 as ->.
    apply (Hroom _ m0 blk ess0 es); try done. by left.
Qed.

Lemma alter_one {A} (f : A -> A) x : alter f 0%nat [x] = [f x].
Proof. done. Qed.

(** A new entry goes behind all others; its payload has at least the length asked for. *)
Lemma CreateEntry_spec ty len m ess :
  repr m ess -> 0 <= ty < 2 ^ 32 -> Z.of_nat (entry_length len) < 2 ^ 32 ->
  match CreateEntry ty len m with
  | (m', Throw _) => m' = m
  | (m', Ok ptr) => exists ess' payload, repr m' ess' /\ length payload = entry_length len
      /\ all_pointers 0 ess' = all_pointers 0 ess ++ [(ty, ptr)]
      /\ exists ess0 es, ess' = ess0 ++ [es ++ [(ty, payload)]] /\ (ess = ess0 ++ [es] \/ ess = ess0 /\ es = [])
  end.
Proof.
  intros Hm Hty Hlen. unfold UndoBuffer.CreateEntry. cbv zeta.
  assert (AlignValue (len + UNDO_ENTRY_HEADER_SIZE) = 8 + entry_length len)%nat as Ea.
  { unfold entry_length, UNDO_ENTRY_HEADER_SIZE, sizeof_UndoFlags, sizeof_uint32.
    destruct (AlignValue_spec (len + (4 + 4))) as [H _]. lia. }
  rewrite Ea. replace (8 + entry_length len - UNDO_ENTRY_HEADER_SIZE)%nat with (entry_length len)
    by (unfold UNDO_ENTRY_HEADER_SIZE, sizeof_UndoFlags, sizeof_uint32; lia).
  pose proof (Allocate_spec (8 + entry_length len) m ess Hm) as HA.
  destruct (Allocate (8 + entry_length len) m) as [m1 [[b p]|e]] eqn:E.
  2:{ rewrite (ST_bind_Throw _ _ _ _ _ E). apply HA. lia. }
  rewrite (ST_bind_Ok _ _ _ _ _ E). destruct HA as (m0 & blk & ess0 & es & H0 & Hb & Hc & Hp & -> & -> & Hptr & Hess); [lia|].
  unfold mbind, ST_bind, modify, mret, ST_ret. rewrite wrapU_small by (split; lia).
  (* the bytes after the header are what they were *)
  pose proof (block_memory _ _ Hb) as Hmem. pose proof (block_position _ _ Hb) as Hpos. pose proof Hb as [Hl _ _ Hes].
  set (rest := drop (position blk) (memory blk)) in *.
  assert (length rest = capacity blk - p)%nat as Hrest by (unfold rest; rewrite length_drop, Hl, Hp; done).
  set (L := entry_length len) in *. set (payload := take L (drop 8 rest)).
  assert (length payload = L) as Hpl by (unfold payload; rewrite length_take, length_drop, Hrest; lia).
  exists (ess0 ++ [es ++ [(ty, payload)]]), payload. split.
  - unfold store. rewrite !alter_app_r_alt by (rewrite ?length_app; lia).
    replace (length m0 - length m0)%nat with 0%nat by lia. rewrite !alter_one.
    apply Forall2_app; [done|]. apply Forall2_cons. split; [|done].
    set (h1 := le_bytes sizeof_UndoFlags ty). set (h2 := le_bytes sizeof_uint32 (Z.of_nat L)).
    assert (length h1 = 4%nat /\ length h2 = 4%nat) as [Hh1 Hh2] by (split; apply length_le_bytes).
    assert (write_bytes (p + sizeof_UndoFlags) h2 (write_bytes p h1 (memory blk))
            = encodes es ++ h1 ++ h2 ++ drop 8 rest) as Hw.
    { rewrite Hmem, Hp, Hpos. rewrite <- (take_drop 4 rest) at 1.
      rewrite write_bytes_app by (rewrite length_take; lia).
      rewrite (app_assoc (encodes es)).
      replace (length (encodes es) + sizeof_UndoFlags)%nat with (length (encodes es ++ h1))
        by (rewrite length_app, Hh1; done).
      rewrite <- (take_drop 4 (drop 4 rest)), drop_drop.
      rewrite write_bytes_app by (rewrite length_take, length_drop; lia). by rewrite <- app_assoc. }
    cbn [memory position capacity]. rewrite Hw. split; cbn [memory position capacity].
    + rewrite !length_app, length_drop, Hrest. lia.
    + lia.
    + rewrite encodes_app, encodes_one. unfold encode. cbn [fst snd]. rewrite Hpl.
      rewrite <- (take_drop L (drop 8 rest)). fold payload. change (le_bytes 4 ty) with h1. change (le_bytes 4 (Z.of_nat L)) with h2.
      rewrite !app_assoc. apply take_app_length'. rewrite !length_app, Hh1, Hh2, Hpl. lia.
    + apply Forall_app. split; [done|]. apply Forall_singleton. split; [done|]. cbn [snd]. rewrite Hpl.
      split; [done|]. apply entry_length_spec.
  - split; [done|]. split.
    + rewrite <- Hptr, !all_pointers_app. cbn [all_pointers]. rewrite pointers_app, !app_nil_r. cbn [pointers].
      rewrite <- app_assoc. cbn [fst]. rewrite (Forall2_length _ _ _ H0).
      assert (p + UNDO_ENTRY_HEADER_SIZE = 0 + length (encodes es) + 8)%nat as -> by (rewrite Hp, Hpos; done). done.
    + by exists ess0, es.
Qed.

(** *** Pointers into the buffer *)

Lemma all_pointers_elem b0 ess ty b p :
  (ty, (b, p)) ∈ all_pointers b0 ess ->
  exists es1 e es2, (b0 <= b)%nat /\ ess !! (b - b0)%nat = Some (es1 ++ e :: es2)
  /\ ty = e.1 /\ p = (length (encodes es1) + 8)%nat.
Proof.
  revert b0. induction ess as [|es ess IH]; intros b0; [by intros Hx%not_elem_of_nil|].
  cbn [all_pointers]. intros [Hx|Hx]%elem_of_app.
  - apply list_elem_of_split in Hx as (l1 & l2 & Hx).
    apply pointers_split in Hx as (es1 & e & es2 & -> & _ & [= -> -> ->]). exists es1, e, es2.
    replace (b0 - b0)%nat with 0%nat by lia. done.
  - apply IH in Hx as (es1 & e & es2 & Hb & Hl & -> & ->). exists es1, e, es2. split; [lia|].
    replace (b - b0)%nat with (S (b - S b0)) by lia. done.
Qed.

(** The payload that a pointer points to, with the length that its header says. *)
Definition payload m (ptr : pointer) : list Z :=
  match m !! ptr.1 with
  | Some blk => take (Z.to_nat (load sizeof_uint32 (ptr.2 - sizeof_uint32) (memory blk))) (drop ptr.2 (memory blk))
  | None => []
  end.

Lemma payload_spec m ess b es1 e es2 :
  repr m ess -> ess !! b = Some (es1 ++ e :: es2) ->
  payload m (b, (length (encodes es1) + 8)%nat) = e.2.
Proof.
  intros Hm He. destruct (Forall2_lookup_r _ _ _ _ _ Hm He) as (blk & Hb & Hr).
  unfold payload. cbn [fst snd]. rewrite Hb. pose proof (block_memory _ _ Hr) as Hmem.
  destruct Hr as [_ _ _ Hok]. apply Forall_app in Hok as [_ [Hok _]%Forall_cons_1].
  rewrite encodes_app, encodes_cons, <- !app_assoc in Hmem.
  destruct (load_header (encodes es1) e (encodes es2 ++ drop (position blk) (memory blk)) Hok) as [_ H].
  rewrite <- Hmem in H. unfold sizeof_uint32.
  replace (length (encodes es1) + 8 - 4)%nat with (length (encodes es1) + 4)%nat by lia. rewrite H, Nat2Z.id, Hmem.
  rewrite drop_app_add'; [|done]. unfold encode. rewrite <- !app_assoc.
  rewrite (app_assoc (le_bytes 4 e.1)). rewrite drop_app_length' by (by rewrite length_app, !length_le_bytes).
  by rewrite take_app_length.
Qed.

Lemma write_bytes_inside (pre mid suf bytes : list Z) off :
  (off + length bytes <= length mid)%nat ->
  write_bytes (length pre + off) bytes (pre ++ mid ++ suf) = pre ++ write_bytes off bytes mid ++ suf.
Proof.
  intros Hl. unfold write_bytes. rewrite take_app_add', <- app_assoc by done. f_equal.
  rewrite take_app_le by lia. rewrite <- app_assoc. f_equal. rewrite <- app_assoc. f_equal.
  replace (length pre + off + length bytes)%nat with (length pre + (off + length bytes))%nat by lia.
  rewrite drop_app_add'; [|done]. by rewrite drop_app_le by lia.
Qed.

Lemma length_write_bytes off (bytes mem : list Z) :
  (off + length bytes <= length mem)%nat -> length (write_bytes off bytes mem) = length mem.
Proof. intros Hl. unfold write_bytes. rewrite !length_app, length_take, length_drop. lia. Qed.

(** A pointer of the log and its entry. *)
Lemma pointer_entry m ess ty b p :
  repr m ess -> (ty, (b, p)) ∈ all_pointers 0 ess ->
  exists es1 e es2 blk, ess !! b = Some (es1 ++ e :: es2) /\ m !! b = Some blk /\ block_repr blk (es1 ++ e :: es2)
  /\ ty = e.1 /\ p = (length (encodes es1) + 8)%nat /\ payload m (b, p) = e.2.
Proof.
  intros Hm (es1 & e & es2 & _ & He & -> & ->)%all_pointers_elem. rewrite Nat.sub_0_r in He.
  destruct (Forall2_lookup_r _ _ _ _ _ Hm He) as (blk & Hb & Hr). exists es1, e, es2, blk.
  do 5 (split; [done|]). by apply (payload_spec m ess b es1 e es2).
Qed.

Lemma alter_insert_eq {A} (f : A -> A) i (l : list A) x : l !! i = Some x -> alter f i l = <[i := f x]> l.
Proof.
  revert i. induction l as [|y l IH]; intros [|i] Hi; [done..| |].
  - simpl in Hi. by injection Hi as ->.
  - simpl. f_equal. by apply IH.
Qed.

(** Entries that only differ in the contents of the payload. *)
Definition same_shape (e e' : entry) : Prop := e.1 = e'.1 /\ length e.2 = length e'.2.

Lemma same_shape_encodes es es' : Forall2 same_shape es es' -> length (encodes es) = length (encodes es').
Proof.
  intros Hall. induction Hall as [|e e' es es' [_ He] Hall IH]; [done|].
  rewrite !encodes_cons, !length_app, !encode_length. lia.
Qed.

Lemma same_shape_pointers b off es es' : Forall2 same_shape es es' -> pointers b off es = pointers b off es'.
Proof.
  intros Hall. revert off. induction Hall as [|e e' es es' [H1 H2] Hall IH]; intros off; [done|].
  cbn [pointers]. by rewrite H1, !encode_length, H2, IH.
Qed.

Lemma same_shape_all b ess ess' : Forall2 (Forall2 same_shape) ess ess' -> all_pointers b ess = all_pointers b ess'.
Proof.
  intros Hall. revert b. induction Hall as [|es es' ess ess' He Hall IH]; intros b; [done|].
  cbn [all_pointers]. by rewrite (same_shape_pointers _ _ _ _ He), IH.
Qed.

(** Writing inside a payload changes nothing else. *)
Lemma store_payload m ess ty b p off bytes :
  repr m ess -> (ty, (b, p)) ∈ all_pointers 0 ess -> (off + length bytes <= length (payload m (b, p)))%nat ->
  exists ess', repr (store b (p + off) bytes m) ess' /\ all_pointers 0 ess' = all_pointers 0 ess
  /\ payload (store b (p + off) bytes m) (b, p) = write_bytes off bytes (payload m (b, p))
  /\ forall ty' ptr', (ty', ptr') ∈ all_pointers 0 ess -> ptr' <> (b, p) ->
       payload (store b (p + off) bytes m) ptr' = payload m ptr'.
Proof.
  intros Hm Hin Hlen. destruct (pointer_entry m ess ty b p Hm Hin) as (es1 & e & es2 & blk & He & Hb & Hr & -> & -> & Hpay).
  rewrite Hpay in Hlen |- *. set (e' := (e.1, write_bytes off bytes e.2) : entry).
  assert (same_shape e e') as Hee by (split; [done|]; unfold e'; cbn [snd]; by rewrite length_write_bytes).
  set (ess' := <[b := es1 ++ e' :: es2]> ess).
  assert (Forall2 (Forall2 same_shape) ess ess') as Hshape.
  { assert (forall l : list entry, Forall2 same_shape l l) as Hrefl by (intros l; by apply Forall_Forall2_diag, Forall_true).
    rewrite <- (list_insert_id ess b _ He). apply Forall2_insert.
    - apply Forall_Forall2_diag, Forall_true. done.
    - apply Forall2_app; [done|]. by apply Forall2_cons. }
  assert (repr (store b (length (encodes es1) + 8 + off) bytes m) ess') as Hm'.
  { unfold store. rewrite (alter_insert_eq _ _ _ _ Hb). apply Forall2_insert; [done|].
    pose proof (block_memory _ _ Hr) as Hmem. pose proof (block_position _ _ Hr) as Hpos. destruct Hr as [R1 R2 R3 R4].
    assert (write_bytes (length (encodes es1) + 8 + off) bytes (memory blk)
            = encodes (es1 ++ e' :: es2) ++ drop (position blk) (memory blk)) as Hw.
    { set (rest := drop (position blk) (memory blk)) in *. rewrite Hmem.
      rewrite !encodes_app, !encodes_cons. unfold e', encode. cbn [fst snd]. rewrite length_write_bytes by done.
      set (h := le_bytes 4 e.1 ++ le_bytes 4 (Z.of_nat (length e.2))).
      replace ((encodes es1 ++ (le_bytes 4 e.1 ++ le_bytes 4 (Z.of_nat (length e.2)) ++ e.2) ++ encodes es2) ++ rest)
        with ((encodes es1 ++ h) ++ e.2 ++ (encodes es2 ++ rest)) by (unfold h; by rewrite <- !app_assoc).
      replace (length (encodes es1) + 8 + off)%nat with (length (encodes es1 ++ h) + off)%nat
        by (unfold h; rewrite !length_app, !length_le_bytes; lia).
      rewrite write_bytes_inside by done. unfold h. by rewrite <- !app_assoc. }
    assert (length (encodes (es1 ++ e' :: es2)) = position blk) as Hl.
    { rewrite Hpos. symmetry. apply same_shape_encodes. apply Forall2_app; [by apply Forall_Forall2_diag, Forall_true|].
      apply Forall2_cons. split; [done|]. by apply Forall_Forall2_diag, Forall_true. }
    split; cbn [memory position capacity].
    - rewrite Hw, length_app, Hl, length_drop. lia.
    - done.
    - rewrite Hw. by apply take_app_length'.
    - apply Forall_app in R4 as [H1 [(H2 & H3 & H4) H5]%Forall_cons_1]. apply Forall_app. split; [done|].
      apply Forall_cons_2; [|done]. destruct Hee as [_ Hee]. split; [done|]. by rewrite <- Hee. }
  assert (ess' !! b = Some (es1 ++ e' :: es2)) as He'
    by (apply list_lookup_insert_eq; by eapply lookup_lt_Some).
  exists ess'. split; [done|]. split; [symmetry; by apply same_shape_all|]. split; [by apply (payload_spec _ ess' b es1 e' es2)|].
  intros ty' [b' p'] Hin' Hne. destruct (pointer_entry m ess ty' b' p' Hm Hin') as (fs1 & f & fs2 & blk' & Hf & _ & _ & -> & -> & ->).
  destruct (decide (b' = b)) as [->|Hb'].
  2:{ apply (payload_spec _ ess' b' fs1 f fs2); [done|]. unfold ess'. by rewrite list_lookup_insert_ne. }
  rewrite He in Hf. injection Hf as Hf. apply app_eq_inv in Hf as [(k & -> & Hk)|(k & -> & Hk)].
  - destruct k as [|g k]; simpl in Hk; injection Hk as <- Hk.
    + exfalso. apply Hne. by rewrite app_nil_r.
    + apply (payload_spec _ ess' b fs1 f (k ++ e' :: es2)); [done|]. rewrite He'. by rewrite <- app_assoc.
  - destruct k as [|g k]; simpl in Hk; injection Hk as <- Hk.
    + exfalso. apply Hne. by rewrite app_nil_r.
    + rewrite <- (payload_spec _ ess' b (es1 ++ e' :: k) f fs2 Hm').
      * do 2 f_equal. f_equal. apply same_shape_encodes, Forall2_app; [by apply Forall_Forall2_diag, Forall_true|].
        apply Forall2_cons. split; [done|]. by apply Forall_Forall2_diag, Forall_true.
      * rewrite He', Hk. by rewrite <- app_assoc.
Qed.

(** A new entry leaves the payloads as they are. *)
Lemma create_payload m ess m' ess' ess0 es new ty ptr :
  repr m ess -> repr m' ess' -> ess' = ess0 ++ [es ++ [new]] -> (ess = ess0 ++ [es] \/ ess = ess0 /\ es = []) ->
  (ty, ptr) ∈ all_pointers 0 ess -> payload m' ptr = payload m ptr.
Proof.
  intros Hm Hm' -> Hess Hin. destruct ptr as [b p].
  destruct (pointer_entry m ess ty b p Hm Hin) as (fs1 & f & fs2 & blk & Hf & _ & _ & -> & -> & ->).
  assert (exists fs3, (ess0 ++ [es ++ [new]]) !! b = Some (fs1 ++ f :: fs3)) as [fs3 Hf'].
  { destruct (decide (b < length ess0)%nat) as [Hlt|Hge].
    - exists fs2. rewrite lookup_app_l by done. destruct Hess as [->|[-> _]]; [|done]. by rewrite lookup_app_l in Hf.
    - destruct Hess as [->|[-> _]]; [|apply lookup_lt_Some in Hf; lia].
      rewrite lookup_app_r in Hf |- * by lia. apply list_lookup_singleton_Some in Hf as [-> ->].
      exists (fs2 ++ [new]). simpl. by rewrite <- app_assoc. }
  by apply (payload_spec m' _ b fs1 f fs3 Hm').
Qed.

Lemma pointers_after b off es ty b' p : (ty, (b', p)) ∈ pointers b off es -> b' = b /\ (off + 8 <= p)%nat.
Proof.
  intros Hx. apply list_elem_of_split in Hx as (l1 & l2 & Hx).
  apply pointers_split in Hx as (es1 & e & es2 & _ & _ & [= _ -> ->]). split; [done|lia].
Qed.

Lemma pointers_rest b off es l1 x l2 :
  pointers b off es = l1 ++ x :: l2 ->
  exists es1 e es2, es = es1 ++ e :: es2 /\ x = (e.1, (b, (off + length (encodes es1) + 8)%nat))
  /\ l2 = pointers b (off + length (encodes es1) + length (encode e)) es2.
Proof.
  revert off l1. induction es as [|e es IH]; intros off l1; [by destruct l1|].
  destruct l1 as [|y l1]; cbn [pointers app]; intros [= <- Hl].
  - exists [], e, es. split; [done|]. simpl. by rewrite Nat.add_0_r.
  - apply IH in Hl as (es1 & e1 & es2 & -> & -> & ->). exists (e :: es1), e1, es2. split; [done|].
    rewrite encodes_cons, length_app. by rewrite !Nat.add_assoc.
Qed.

(** Entries of a block follow each other. *)
Lemma all_pointers_ordered ess : forall b0 l1 ty b p l2 ty' p',
  all_pointers b0 ess = l1 ++ (ty, (b, p)) :: l2 -> (ty', (b, p')) ∈ l2 ->
  exists es1 e es2, (b0 <= b)%nat /\ ess !! (b - b0)%nat = Some (es1 ++ e :: es2)
  /\ p = (length (encodes es1) + 8)%nat /\ (p + length e.2 + 8 <= p')%nat.
Proof.
  induction ess as [|es ess IH]; intros b0 l1 ty b p l2 ty' p' Hl Hin; [by destruct l1|].
  cbn [all_pointers] in Hl.
  assert (forall k, all_pointers (S b0) ess = k ++ (ty, (b, p)) :: l2 ->
    exists es1 e es2, (b0 <= b)%nat /\ (es :: ess) !! (b - b0)%nat = Some (es1 ++ e :: es2)
    /\ p = (length (encodes es1) + 8)%nat /\ (p + length e.2 + 8 <= p')%nat) as IH'.
  { intros k Hk. destruct (IH _ _ _ _ _ _ _ _ Hk Hin) as (es1 & e & es2 & Hb & He & Hp & Hle).
    exists es1, e, es2. split; [lia|]. split; [|done]. by replace (b - b0)%nat with (S (b - S b0)) by lia. }
  apply app_eq_inv in Hl as [(k & Hes & Hk)|(k & -> & Hk)]; [destruct k as [|y k]|].
  - apply (IH' []). by rewrite Hk.
  - simpl in Hk. injection Hk as <- ->. apply pointers_rest in Hes as (es1 & e & es2 & -> & [= -> -> ->] & ->).
    exists es1, e, es2. rewrite Nat.sub_diag. do 3 (split; [done|]). apply elem_of_app in Hin as [Hin|Hin].
    + apply pointers_after in Hin as [_ Hle]. rewrite encode_length in Hle. lia.
    + apply all_pointers_ge in Hin. lia.
  - by apply (IH' k).
Qed.

(** *** Buffers as a transaction fills them *)

(** The buffers that creating entries and writing to payloads leads to, with the entries created. *)
Inductive built : t -> list (Z * pointer) -> Prop :=
| built_empty : built [] []
| built_create ty len m log m' ptr :
    built m log -> 0 <= ty < 2 ^ 32 -> Z.of_nat (entry_length len) < 2 ^ 32 ->
    CreateEntry ty len m = (m', Ok ptr) -> built m' (log ++ [(ty, ptr)])
| built_write m log ty b p off bytes :
    built m log -> (ty, (b, p)) ∈ log -> (off + length bytes <= length (payload m (b, p)))%nat ->
    built (store b (p + off) bytes m) log.

Lemma built_repr m log : built m log -> exists ess, repr m ess /\ all_pointers 0 ess = log.
Proof.
  intros Hb. induction Hb as [|ty len m log m' ptr Hb (ess & Hm & <-) Hty Hlen Hc|m log ty b p off bytes Hb (ess & Hm & <-) Hin Hl].
  - by exists [].
  - pose proof (CreateEntry_spec ty len m ess Hm Hty Hlen) as H. rewrite Hc in H.
    destruct H as (ess' & pl & Hm' & _ & Hp & _). by exists ess'.
  - destruct (store_payload m ess ty b p off bytes Hm Hin Hl) as (ess' & Hm' & Hp & _). by exists ess'.
Qed.

(** C26 Pointers into the undo buffer stay good.  All payloads lie inside the allocated bytes of
    their block, aligned to 8 bytes, and do not overlap each other or the headers.  Creating an
    entry gives a payload of at least the length asked for and leaves all earlier payloads as they
    are; writing inside a payload changes this payload alone. *)
Theorem undo_pointers_stable m log :
  built m log ->
  (forall ty b p, (ty, (b, p)) ∈ log ->
     exists blk, m !! b = Some blk /\ length (memory blk) = capacity blk /\ (p mod 8 = 0)%nat
     /\ (8 <= p /\ p + length (payload m (b, p)) <= position blk <= capacity blk)%nat)
  /\ (forall l1 ty b p l2 ty' p', log = l1 ++ (ty, (b, p)) :: l2 -> (ty', (b, p')) ∈ l2 ->
       (p + length (payload m (b, p)) <= p' - UNDO_ENTRY_HEADER_SIZE /\ UNDO_ENTRY_HEADER_SIZE <= p')%nat)
  /\ (forall ty len, 0 <= ty < 2 ^ 32 -> Z.of_nat (entry_length len) < 2 ^ 32 ->
       match CreateEntry ty len m with
       | (m', Throw _) => m' = m
       | (m', Ok ptr) => (len <= length (payload m' ptr))%nat
                         /\ forall ty' ptr', (ty', ptr') ∈ log -> payload m' ptr' = payload m ptr'
       end)
  /\ (forall ty b p off bytes, (ty, (b, p)) ∈ log -> (off + length bytes <= length (payload m (b, p)))%nat ->
       payload (store b (p + off) bytes m) (b, p) = write_bytes off bytes (payload m (b, p))
       /\ forall ty' ptr', (ty', ptr') ∈ log -> ptr' <> (b, p) ->
            payload (store b (p + off) bytes m) ptr' = payload m ptr').
Proof.
  intros (ess & Hm & <-)%built_repr. split; [|split; [|split]].
  - intros ty b p Hin. destruct (pointer_entry m ess ty b p Hm Hin) as (es1 & e & es2 & blk & He & Hb & Hr & -> & -> & ->).
    exists blk. split; [done|]. pose proof (block_position _ _ Hr) as Hp. destruct Hr as [R1 R2 R3 R4].
    split; [done|]. rewrite encodes_app, encodes_cons, !length_app, encode_length in Hp. split; [|lia].
    apply Forall_app in R4 as [R4 _]. clear - R4. rewrite Nat.Div0.add_mod. 
    assert (length (encodes es1) mod 8 = 0)%nat as ->; [|done].
    induction R4 as [|e es (_ & _ & He) R4 IH]; [done|]. rewrite encodes_cons, length_app, encode_length. dlia.
  - intros l1 ty b p l2 ty' p' Hl Hin. destruct (all_pointers_ordered ess 0 _ _ _ _ _ _ _ Hl Hin) as (es1 & e & es2 & _ & He & -> & Hle).
    rewrite Nat.sub_0_r in He. rewrite (payload_spec m ess b es1 e es2 Hm He).
    unfold UNDO_ENTRY_HEADER_SIZE, sizeof_UndoFlags, sizeof_uint32. lia.
  - intros ty len Hty Hlen. pose proof (CreateEntry_spec ty len m ess Hm Hty Hlen) as H.
    destruct (CreateEntry ty len m) as [m' [[b p]|e]]; [|done].
    destruct H as (ess' & pl & Hm' & Hpl & Hp & ess0 & es & Hess' & Hess). split.
    + subst ess'. rewrite all_pointers_app in Hp. cbn [all_pointers] in Hp.
      assert (all_pointers 0 ess = all_pointers 0 ess0 ++ pointers (0 + length ess0) 0 es) as Ho.
      { destruct Hess as [->|[-> ->]]; [|by rewrite app_nil_r]. rewrite all_pointers_app. simpl. by rewrite app_nil_r. }
      rewrite Ho, pointers_app, app_nil_r, app_assoc in Hp. apply app_inj_2 in Hp as [_ [= <- <-]]; [|done].
      rewrite (payload_spec m' _ (length ess0) es (ty, pl) [] Hm').
      * cbn [snd]. rewrite Hpl. apply entry_length_spec.
      * rewrite lookup_app_r by lia. by rewrite Nat.sub_diag.
    + intros ty' ptr' Hin. by apply (create_payload m ess m' ess' ess0 es (ty, pl) ty').
  - intros ty b p off bytes Hin Hlen. destruct (store_payload m ess ty b p off bytes Hm Hin Hlen) as (ess' & _ & _ & H). done.
Qed.

(** *** Iteration over such buffers *)

Lemma iteration_built {S} m log (callback callback' : Z -> pointer -> ST S unit) it s it' s' :
  built m log ->
  ReverseIterateEntries m callback s = run callback (rev log) s
  /\ let '((it1, s1), r) := IterateEntries m callback (it, s) in
     (s1, r) = run callback log s
     /\ let '((_, s2), r') := IterateEntriesUntil m it1 callback' (it', s') in
        match r with
        | Ok _ => (s2, r') = run callback' log s'
        | Throw e => exists l1 ty p l2 s0, log = l1 ++ (ty, p) :: l2 /\ run callback l1 s = (s0, Ok tt)
                     /\ callback ty p s0 = (s1, Throw e) /\ (s2, r') = run callback' (l1 ++ [(ty, p)]) s'
        end.
Proof.
  intros (ess & Hm & <-)%built_repr. split; [by apply reverse_blocks_spec|].
  pose proof (iterate_blocks_spec callback m ess Hm 0 it s) as H. unfold IterateEntries.
  destruct (iterate_blocks m 0 callback (it, s)) as [[it1 s1] r]. destruct H as [[H1 H2] H3]. cbn [fst snd] in *.
  split; [done|]. unfold IterateEntriesUntil. destruct r as [[]|e].
  - pose proof (iterate_blocks_until_None callback' it1 m ess (H3 eq_refl) Hm 0 it' s') as H.
    by destruct (iterate_blocks_until m 0 it1 callback' (it', s')) as [[it2 s2] r'], H.
  - destruct H2 as (l1 & ty & [b p] & (l2 & s0 & Hl & Hrun & Hcall) & Hcur & Hst). simpl in Hcur, Hst.
    pose proof (iterate_blocks_until_spec callback' it1 m ess Hm 0 l1 ty b p l2 it' s' Hl Hcur Hst) as H.
    destruct (iterate_blocks_until m 0 it1 callback' (it', s')) as [[it2 s2] r']. destruct H as [H _].
    exists l1, ty, (b, p), l2, s0. split; [done|]. split; [done|]. split; [by rewrite Hcall|done].
Qed.

Lemma iterate_until_None {S} m log (callback : Z -> pointer -> ST S unit) end_state it s :
  built m log -> current end_state = None ->
  let '((_, s'), r) := IterateEntriesUntil m end_state callback (it, s) in (s', r) = run callback log s.
Proof.
  intros (ess & Hm & <-)%built_repr Hn. unfold IterateEntriesUntil.
  pose proof (iterate_blocks_until_None callback end_state m ess Hn Hm 0 it s) as H.
  by destruct (iterate_blocks_until m 0 end_state callback (it, s)) as [[it' s'] r], H.
Qed.

(** No two entries share a pointer. *)
Lemma built_NoDup m log : built m log -> NoDup log.*2.
Proof.
  intros (ess & Hm & <-)%built_repr. apply NoDup_alt. intros i j ptr Hi Hj. destruct ptr as [b p].
  assert (forall i j, (i < j)%nat -> (all_pointers 0 ess).*2 !! i = Some (b, p) -> (all_pointers 0 ess).*2 !! j = Some (b, p) -> False) as H.
  { clear i j Hi Hj. intros i j Hij Hi Hj. rewrite list_lookup_fmap in Hi, Hj.
    destruct (all_pointers 0 ess !! i) as [[ty q]|] eqn:Ei; [|done]. simpl in Hi. injection Hi as ->.
    destruct (all_pointers 0 ess !! j) as [[ty' q]|] eqn:Ej; [|done]. simpl in Hj. injection Hj as ->.
    apply list_elem_of_split_length in Ei as (l1 & l2 & El & ->). rewrite El in Ej.
    rewrite lookup_app_r in Ej by lia. destruct (j - length l1)%nat as [|j'] eqn:E; [lia|]. simpl in Ej.
    destruct (all_pointers_ordered ess 0 _ _ _ _ _ _ _ El (list_elem_of_lookup_2 _ _ _ Ej)) as (_ & e & _ & _ & _ & _ & Hle). lia. }
  destruct (Nat.lt_trichotomy i j) as [Hlt|[?|Hlt]]; [|done|]; exfalso; [by apply (H i j)|by apply (H j i)].
Qed.

(** C24 Iterating over the undo buffer visits exactly the entries created, in the order of their
    creation, and the reverse iteration in the opposite order, however they are spread over blocks.
    If a callback throws, the iteration stops there, and an iteration up to the state it left visits
    exactly the entries before and the one that failed; up to the state of an iteration that
    completed it visits all. *)
Theorem undo_iteration_complete {S} m log (callback callback' : Z -> pointer -> ST S unit) it s it' s' :
  built m log ->
  ReverseIterateEntries m callback s = run callback (rev log) s
  /\ let '((it1, s1), r) := IterateEntries m callback (it, s) in
     (s1, r) = run callback log s
     /\ let '((_, s2), r') := IterateEntriesUntil m it1 callback' (it', s') in
        match r with
        | Ok _ => (s2, r') = run callback' log s'
        | Throw e => exists l1 ty p l2 s0, log = l1 ++ (ty, p) :: l2 /\ run callback l1 s = (s0, Ok tt)
                     /\ callback ty p s0 = (s1, Throw e) /\ (s2, r') = run callback' (l1 ++ [(ty, p)]) s'
        end.
Proof. apply iteration_built. Qed.

End create.

(** ** An instance: blocks of 64 bytes, filled with zeros *)

Definition zeros (n : nat) : result (list Z) := Ok (replicate n 0).

Definition example_buffer : t * result pointer :=
  (CreateEntry 64 zeros (flag_value INSERT_TUPLE) 24;;
   CreateEntry 64 zeros (flag_value DELETE_TUPLE) 4500;;
   CreateEntry 64 zeros (flag_value UPDATE_TUPLE) 10) [].

Lemma zeros_length n bytes : zeros n = Ok bytes -> length bytes = n.
Proof. intros [= <-]. apply length_replicate. Qed.

Definition example_log : list (Z * pointer) := [(2, (0, 8)%nat); (3, (1, 8)%nat); (4, (1, 4520)%nat)].

Lemma example_built : built 64 zeros example_buffer.1 example_log.
Proof.
  pose (m1 := (CreateEntry 64 zeros 2 24 []).1). pose (m2 := (CreateEntry 64 zeros 3 4500 m1).1).
  assert (built 64 zeros m1 [(2, (0, 8)%nat)]) as H1.
  { apply (built_create 64 zeros 2 24 [] []); [constructor|done|vm_compute; reflexivity|vm_compute; reflexivity]. }
  assert (built 64 zeros m2 [(2, (0, 8)%nat); (3, (1, 8)%nat)]) as H2.
  { apply (built_create 64 zeros 3 4500 m1 [(2, (0, 8)%nat)]); [done|done|vm_compute; reflexivity|vm_compute; reflexivity]. }
  apply (built_create 64 zeros 4 10 m2 [(2, (0, 8)%nat); (3, (1, 8)%nat)]); [done|done|vm_compute; reflexivity|vm_compute; reflexivity].
Qed.

Lemma undo_pointers_stable_witness :
  exists blk, example_buffer.1 !! 1%nat = Some blk /\ (4520 + length (payload example_buffer.1 (1, 4520)) <= capacity blk)%nat.
Proof.
  destruct (undo_pointers_stable 64 zeros zeros_length example_buffer.1 example_log example_built) as (H & _).
  destruct (H 4 1%nat 4520%nat) as (blk & Hb & _ & _ & _ & H1 & H2).
  - unfold example_log. by do 2 apply list_elem_of_further; apply list_elem_of_here.
  - exists blk. split; [exact Hb|]. etransitivity; [exact H1|exact H2].
Defined.

(** A callback that collects what it visits. *)
Definition collect (ty : Z) (p : pointer) : ST (list (Z * pointer)) unit := modify (fun l => l ++ [(ty, p)]).

Lemma undo_iteration_complete_witness :
  (ReverseIterateEntries example_buffer.1 collect []).1 = [(4, (1, 4520)%nat); (3, (1, 8)%nat); (2, (0, 8)%nat)].
Proof.
  destruct (undo_iteration_complete 64 zeros zeros_length example_buffer.1 example_log collect collect initial_state [] initial_state []
              example_built) as [H _].
  rewrite H. reflexivity.
Defined.

End UndoBuffer.
