(* ===== verification/TransactionState.v ===== *)
(** * Undo entries: commit, revert, rollback and cleanup

    Models src/src/transaction/commit_state.cpp, rollback_state.cpp and cleanup_state.cpp: what is
    done for one undo entry of a transaction.  The store is the state of the database that these
    functions reach: the tables, the update segments of their columns and the catalog, behind
    handles that stand for the pointers in the entries.  The payload of an entry is a value of
    [Info]; a cast of the payload to the structure of another type is an exception here.

    The catalog is used through the interface [Catalog]; tables have no indexes.

    An entry is in one of three states ([entry_state]): its changes carry the id of the running
    transaction, the commit id, or they are gone.  The lemmas say how the functions move an entry
    from state to state and that they leave the entries of others, and everything that no entry
    names, as it is. *)

From stdpp Require Import gmap.
From S2P Require Import Prelude ChunkInfo RowVersionManager SegmentTree UpdateSegment RowGroup RowGroupCollection.
From S2P Require Import UndoBuffer DataTable.

Module TransactionState.

Abbreviation NOT_DELETED_ID := ChunkInfo.NOT_DELETED_ID.
Abbreviation Collection C := (RowGroupCollection.t C).
Abbreviation Segment T X := (UpdateSegment.t (T := T) (S := X)).

Record SequenceValue : Type := mkSequence {
  sequence : nat;
  usage_count : Z;
  counter : Z
}.

(** The payload of an entry: [CatalogEntry *] with the extra data behind it, [AppendInfo],
    [DeleteInfo], [UpdateInfo] (which stays in the undo buffer: its segment and address),
    [SequenceValue], [AttachedDatabase *]. *)
Inductive Info : Type :=
| CatalogInfo (entry : nat)
| AppendEntry (table : nat) (info : DataTable.AppendInfo)
| DeleteEntry (table : nat) (info : DataTable.DeleteInfo)
| UpdateEntry (table segment info : nat)
| SequenceInfo (value : SequenceValue)
| AttachInfo (database : nat).

(** The type that goes with a payload. *)
Definition flag (e : Info) : UndoBuffer.UndoFlags :=
  match e with
  | CatalogInfo _ => UndoBuffer.CATALOG_ENTRY
  | AppendEntry _ _ => UndoBuffer.INSERT_TUPLE
  | DeleteEntry _ _ => UndoBuffer.DELETE_TUPLE
  | UpdateEntry _ _ _ => UndoBuffer.UPDATE_TUPLE
  | SequenceInfo _ => UndoBuffer.SEQUENCE_VALUE
  | AttachInfo _ => UndoBuffer.ATTACHED_DATABASE
  end.

(** What transactions ask of the catalog for an entry: the [CATALOG_ENTRY] cases. *)
Class Catalog (K : Type) : Type := {
  CommitCatalogEntry : Z -> nat -> ST K unit;
  RevertCatalogEntry : Z -> nat -> ST K unit;
  UndoCatalogEntry : nat -> ST K unit;
  CleanupCatalogEntry : nat -> ST K unit;
  DetachInternal : nat -> ST K unit
}.

(** What it promises: an entry has a timestamp while it is there; a commit may be refused. *)
Class CatalogLaws {K : Type} `{!Catalog K} (timestamp : K -> nat -> option Z) : Prop := {
  commit_catalog k commit_id e :
    match CommitCatalogEntry commit_id e k with
    | (k', Ok _) => timestamp k' e = Some commit_id /\ forall e', e' <> e -> timestamp k' e' = timestamp k e'
    | (k', Throw _) => forall e', timestamp k' e' = timestamp k e'
    end;
  revert_catalog k id e :
    (RevertCatalogEntry id e k).2 = Ok tt
    /\ timestamp (RevertCatalogEntry id e k).1 e = Some id
    /\ forall e', e' <> e -> timestamp (RevertCatalogEntry id e k).1 e' = timestamp k e';
  undo_catalog k e :
    (UndoCatalogEntry e k).2 = Ok tt
    /\ timestamp (UndoCatalogEntry e k).1 e = None
    /\ forall e', e' <> e -> timestamp (UndoCatalogEntry e k).1 e' = timestamp k e';
  detach_catalog k db :
    (DetachInternal db k).2 = Ok tt /\ forall e, timestamp (DetachInternal db k).1 e = timestamp k e
}.

Record Store (C T X K : Type) : Type := mkStore {
  tables : gmap nat (DataTable.t C);
  updates : gmap nat (Segment T X);
  catalog : K
}.
Arguments mkStore {C T X K}.
Arguments tables {C T X K}.
Arguments updates {C T X K}.
Arguments catalog {C T X K}.

Section states.
Context {R C T X K : Type} {columns_of : RowGroup.Columns R C} {catalog_of : Catalog K}.
Abbreviation store := (Store C T X K).
Implicit Types (σ : store) (e : Info) (tb : DataTable.t C) (m : Collection C) (u : Segment T X).

(** Calls through the handles. *)
Definition on_table {A} (table : nat) (f : ST (DataTable.t C) A) : ST store A :=
  fun σ => match tables σ !! table with
           | None => (σ, Throw InternalException)
           | Some tb => let '(tb, r) := f tb in (mkStore (<[table := tb]> (tables σ)) (updates σ) (catalog σ), r)
           end.

Definition on_segment (segment : nat) (f : Segment T X -> Segment T X) : ST store unit :=
  fun σ => match updates σ !! segment with
           | None => (σ, Throw InternalException)
           | Some u => (mkStore (tables σ) (<[segment := f u]> (updates σ)) (catalog σ), Ok tt)
           end.

Definition on_catalog {A} (f : ST K A) : ST store A :=
  fun σ => let '(k, r) := f (catalog σ) in (mkStore (tables σ) (updates σ) k, r).

(** [if (!info->table->IsMainTable()) throw TransactionException(...)]. *)
Definition check_main_table (table : nat) : ST store unit :=
  tb ← on_table table get;
  if negb (DataTable.IsMainTable tb) then throw TransactionException else mret tt.

(** [CommitState]. *)
Definition CommitEntry (commit_id : Z) (type : UndoBuffer.UndoFlags) (data : Info) : ST store unit :=
  match type, data with
  | UndoBuffer.CATALOG_ENTRY, CatalogInfo entry => on_catalog (CommitCatalogEntry commit_id entry)
  | UndoBuffer.INSERT_TUPLE, AppendEntry table info =>
      check_main_table table;;
      on_table table (DataTable.CommitAppend commit_id (DataTable.start_row info) (DataTable.count info))
  | UndoBuffer.DELETE_TUPLE, DeleteEntry table info =>
      check_main_table table;;
      on_table table (DataTable.CommitDelete commit_id info)
  | UndoBuffer.UPDATE_TUPLE, UpdateEntry table segment info =>
      check_main_table table;;
      on_segment segment (fun u => UpdateSegment.CommitUpdate u info commit_id)
  | UndoBuffer.ATTACHED_DATABASE, _ | UndoBuffer.SEQUENCE_VALUE, _ => mret tt
  | _, _ => throw InternalException
  end.

Definition RevertCommit (transaction_id : Z) (type : UndoBuffer.UndoFlags) (data : Info) : ST store unit :=
  match type, data with
  | UndoBuffer.CATALOG_ENTRY, CatalogInfo entry => on_catalog (RevertCatalogEntry transaction_id entry)
  | UndoBuffer.INSERT_TUPLE, AppendEntry table info =>
      on_table table (DataTable.RevertAppend (DataTable.start_row info) (DataTable.count info))
  | UndoBuffer.DELETE_TUPLE, DeleteEntry table info => on_table table (DataTable.CommitDelete transaction_id info)
  | UndoBuffer.UPDATE_TUPLE, UpdateEntry table segment info =>
      on_segment segment (fun u => UpdateSegment.CommitUpdate u info transaction_id)
  | UndoBuffer.ATTACHED_DATABASE, _ | UndoBuffer.SEQUENCE_VALUE, _ => mret tt
  | _, _ => throw InternalException
  end.

(** [RollbackState]. *)
Definition RollbackEntry (type : UndoBuffer.UndoFlags) (data : Info) : ST store unit :=
  match type, data with
  | UndoBuffer.CATALOG_ENTRY, CatalogInfo entry => on_catalog (UndoCatalogEntry entry)
  | UndoBuffer.INSERT_TUPLE, AppendEntry table info =>
      on_table table (DataTable.RevertAppend (DataTable.start_row info) (DataTable.count info))
  | UndoBuffer.DELETE_TUPLE, DeleteEntry table info => on_table table (DataTable.CommitDelete NOT_DELETED_ID info)
  | UndoBuffer.UPDATE_TUPLE, UpdateEntry table segment info =>
      on_segment segment (fun u => UpdateSegment.RollbackUpdate u info)
  | UndoBuffer.ATTACHED_DATABASE, AttachInfo database => on_catalog (DetachInternal database)
  | UndoBuffer.SEQUENCE_VALUE, _ => mret tt
  | UndoBuffer.EMPTY_ENTRY, _ => mret tt
  | _, _ => throw InternalException
  end.

(** [CleanupState]; without indexes there is nothing to do for a deletion. *)
Definition CleanupEntry (lowest_active_transaction : Z) (type : UndoBuffer.UndoFlags) (data : Info) : ST store unit :=
  match type, data with
  | UndoBuffer.CATALOG_ENTRY, CatalogInfo entry => on_catalog (CleanupCatalogEntry entry)
  | UndoBuffer.INSERT_TUPLE, AppendEntry table info =>
      on_table table (DataTable.CleanupAppend lowest_active_transaction (DataTable.start_row info) (DataTable.count info))
  | UndoBuffer.UPDATE_TUPLE, UpdateEntry table segment info =>
      on_segment segment (fun u => UpdateSegment.CleanupUpdate u info)
  | _, _ => mret tt
  end.

(** The undo entries in order, as the iterations over the undo buffer visit them. *)
Fixpoint run_entries (f : UndoBuffer.UndoFlags -> Info -> ST store unit) (l : list Info) : ST store unit :=
  match l with
  | [] => mret tt
  | e :: l => f (flag e) e;; run_entries f l
  end.

(** ** The state of an entry *)

Inductive entry_state : Type := Running | Committed | Gone.

Context {contents : C -> list R} {column_start : C -> nat} {laws : RowGroup.ColumnLaws contents column_start}.
Context {timestamp : K -> nat -> option Z} {catalog_laws : CatalogLaws timestamp}.
Context (tid cid : Z).
Abbreviation table_ok := (DataTable.table_ok (contents := contents) (column_start := column_start)).
Abbreviation rows := (RowGroupCollection.rows (contents := contents)).
Abbreviation row_ids := RowGroupCollection.row_ids.
Abbreviation total_rows := RowGroupCollection.total_rows.
Abbreviation rows_of := DataTable.rows_of.

Definition id_of (st : entry_state) : option Z :=
  match st with Running => Some tid | Committed => Some cid | Gone => None end.

Definition table_of e : option nat :=
  match e with AppendEntry t _ | DeleteEntry t _ => Some t | _ => None end.

(** What an entry says of its table: where an append starts no row is from this transaction. *)
Definition entry_on (st : entry_state) m e : Prop :=
  match e with
  | AppendEntry _ a =>
      (forall row, (row < DataTable.start_row a)%nat -> (row_ids m row).1 <> tid /\ (row_ids m row).1 <> cid)
      /\ match id_of st with
         | Some id => DataTable.append_ok id m a
         | None => total_rows m = DataTable.start_row a
         end
  | DeleteEntry _ d => DataTable.delete_ok (default NOT_DELETED_ID (id_of st)) m d
  | _ => True
  end.

Definition entry_in (st : entry_state) σ e : Prop :=
  match e with
  | AppendEntry t _ | DeleteEntry t _ => exists tb, tables σ !! t = Some tb /\ entry_on st (rows_of tb) e
  | UpdateEntry _ s p =>
      exists u, updates σ !! s = Some u
      /\ match id_of st with
         | Some id => exists i, UpdateSegment.heap u !! p = Some i /\ UpdateSegment.version_number i = id
         | None => True
         end
  | CatalogInfo c => timestamp (catalog σ) c = id_of st
  | SequenceInfo _ | AttachInfo _ => True
  end.

Definition store_ok σ : Prop := forall t tb, tables σ !! t = Some tb -> table_ok (rows_of tb).

(** Entries about different things. *)
Definition disjoint e e' : Prop :=
  match e, e' with
  | AppendEntry t _, AppendEntry t' _ => t <> t'
  | AppendEntry t a, DeleteEntry t' d | DeleteEntry t' d, AppendEntry t a =>
      t <> t' \/ forall row, row ∈ DataTable.named d -> (row < DataTable.start_row a)%nat
  | DeleteEntry t d, DeleteEntry t' d' => t <> t' \/ forall row, row ∈ DataTable.named d -> row ∉ DataTable.named d'
  | UpdateEntry _ s p, UpdateEntry _ s' p' => s <> s' \/ p <> p'
  | CatalogInfo c, CatalogInfo c' => c <> c'
  | _, _ => True
  end.

Lemma disjoint_sym e e' : disjoint e e' -> disjoint e' e.
Proof.
  destruct e, e'; simpl; try done.
  - intros [?|H]; [left; congruence|]. right. intros row H1 H2. by apply (H row).
  - naive_solver.
Qed.

Fixpoint pairwise (l : list Info) : Prop :=
  match l with
  | [] => True
  | e :: l => Forall (disjoint e) l /\ pairwise l
  end.

Lemma pairwise_app l1 l2 :
  pairwise (l1 ++ l2) <-> pairwise l1 /\ pairwise l2 /\ Forall (fun e => Forall (disjoint e) l2) l1.
Proof.
  induction l1 as [|e l1 IH]; simpl; [split; [by intros H|by intros (_ & H & _)]|].
  rewrite IH, Forall_app, Forall_cons. tauto.
Qed.

Lemma pairwise_rev l : pairwise l -> pairwise (rev l).
Proof.
  induction l as [|e l IH]; [done|]. intros [He Hl]. cbn [rev]. apply pairwise_app. split; [by apply IH|].
  split; [done|]. apply Forall_forall. intros e' He'. apply Forall_singleton, disjoint_sym.
  rewrite Forall_forall in He. apply He. apply list_elem_of_In, in_rev. by apply list_elem_of_In.
Qed.

(** ** What is not touched *)

Section frame.
(** The entries of the transaction. *)
Context (es : list Info).

(** The rows that the transaction appended to a table, and those it deleted. *)
Definition covered (t row : nat) : Prop := exists a, AppendEntry t a ∈ es /\ (DataTable.start_row a <= row)%nat.
Definition named_in (t row : nat) : Prop := exists d, DeleteEntry t d ∈ es /\ row ∈ DataTable.named d.

Definition rows_frame (t : nat) m m' : Prop :=
  (total_rows m' <= total_rows m)%nat
  /\ (forall n, (forall a, AppendEntry t a ∈ es -> (n <= DataTable.start_row a)%nat) -> (n <= total_rows m)%nat ->
       take n (rows m') = take n (rows m) /\ (n <= total_rows m')%nat)
  /\ forall row, ~ covered t row -> (row_ids m' row).1 = (row_ids m row).1
       /\ (~ named_in t row -> (row_ids m' row).2 = (row_ids m row).2).

Definition tables_frame σ σ' : Prop :=
  forall t tb, tables σ !! t = Some tb -> exists tb', tables σ' !! t = Some tb'
    /\ DataTable.version tb' = DataTable.version tb /\ rows_frame t (rows_of tb) (rows_of tb').

Definition catalog_frame σ σ' : Prop :=
  forall c, CatalogInfo c ∉ es -> timestamp (catalog σ') c = timestamp (catalog σ) c.

(** Only version numbers of the named update infos. *)
Definition updates_frame σ σ' : Prop :=
  forall s, match updates σ !! s, updates σ' !! s with
            | Some u, Some u' =>
                UpdateSegment.start u' = UpdateSegment.start u /\ UpdateSegment.root u' = UpdateSegment.root u
                /\ UpdateSegment.stats u' = UpdateSegment.stats u
                /\ forall q, UpdateSegment.set_version 0 <$> UpdateSegment.heap u' !! q
                             = UpdateSegment.set_version 0 <$> UpdateSegment.heap u !! q
                     /\ ((forall t, UpdateEntry t s q ∉ es) -> UpdateSegment.heap u' !! q = UpdateSegment.heap u !! q)
            | None, None => True
            | _, _ => False
            end.

Definition rows_same σ σ' : Prop :=
  forall t tb, tables σ !! t = Some tb -> exists tb', tables σ' !! t = Some tb' /\ rows (rows_of tb') = rows (rows_of tb).

Lemma rows_frame_refl t m : rows_frame t m m.
Proof. by split_and!. Qed.

Lemma rows_frame_trans t m1 m2 m3 : rows_frame t m1 m2 -> rows_frame t m2 m3 -> rows_frame t m1 m3.
Proof.
  intros (A1 & A2 & A3) (B1 & B2 & B3). split; [lia|]. split.
  - intros n Hn Hle. destruct (A2 n Hn Hle) as [E1 L1]. destruct (B2 n Hn L1) as [E2 L2]. split; [congruence|done].
  - intros row Hrow. destruct (A3 row Hrow) as [E1 L1], (B3 row Hrow) as [E2 L2]. split; [congruence|].
    intros Hn. rewrite L2, L1; done.
Qed.

Lemma tables_frame_refl σ : tables_frame σ σ.
Proof. intros t tb Ht. exists tb. split; [done|]. split; [done|apply rows_frame_refl]. Qed.

Lemma tables_frame_trans σ1 σ2 σ3 : tables_frame σ1 σ2 -> tables_frame σ2 σ3 -> tables_frame σ1 σ3.
Proof.
  intros H1 H2 t tb Ht. destruct (H1 t tb Ht) as (tb2 & Ht2 & V2 & R2). destruct (H2 t tb2 Ht2) as (tb3 & Ht3 & V3 & R3).
  exists tb3. split; [done|]. split; [congruence|by eapply rows_frame_trans].
Qed.

Lemma updates_frame_refl σ : updates_frame σ σ.
Proof. intros s. by destruct (updates σ !! s). Qed.

Lemma updates_frame_trans σ1 σ2 σ3 : updates_frame σ1 σ2 -> updates_frame σ2 σ3 -> updates_frame σ1 σ3.
Proof.
  intros H1 H2 s. specialize (H1 s). specialize (H2 s).
  destruct (updates σ1 !! s), (updates σ2 !! s), (updates σ3 !! s); try done.
  destruct H1 as (A1 & A2 & A3 & A4), H2 as (B1 & B2 & B3 & B4). do 3 (split; [congruence|]).
  intros q. destruct (A4 q) as [A5 A6], (B4 q) as [B5 B6]. split; [congruence|]. intros Hq. rewrite B6, A6; done.
Qed.

(** ** One entry *)

Record moves (st' : entry_state) e σ σ' : Prop := {
  v_store : store_ok σ';
  v_entry : entry_in st' σ' e;
  v_tables : tables_frame σ σ';
  v_catalog : catalog_frame σ σ';
  v_other : forall st e', disjoint e e' -> entry_in st σ e' -> entry_in st σ' e'
}.

(** What an operation on the table of the entry has to do. *)
Record effect (t : nat) (st' : entry_state) e m m' : Prop := {
  f_ok : table_ok m';
  f_entry : entry_on st' m' e;
  f_rows : rows_frame t m m';
  f_other : forall st e', table_of e' = Some t -> disjoint e e' -> entry_on st m e' -> entry_on st m' e'
}.

Definition put (t : nat) tb σ : store := mkStore (<[t := tb]> (tables σ)) (updates σ) (catalog σ).

Lemma moves_table t tb st' e m' σ :
  store_ok σ -> table_of e = Some t -> tables σ !! t = Some tb -> effect t st' e (rows_of tb) m' ->
  moves st' e σ (put t (DataTable.mk m' (DataTable.version tb)) σ).
Proof.
  intros Hok He Ht [E1 E2 E3 E4]. set (tb' := DataTable.mk m' (DataTable.version tb)).
  assert (tables (put t tb' σ) !! t = Some tb') as Hput by apply lookup_insert_eq.
  assert (forall t', t' <> t -> tables (put t tb' σ) !! t' = tables σ !! t') as Hne
    by (intros t' Hn; by apply lookup_insert_ne).
  assert (forall st e', disjoint e e' -> entry_in st σ e' -> entry_in st (put t tb' σ) e') as Hother.
  { intros st e' Hd Hin. destruct e' as [c|t' a|t' d|t' s p|q|q]; try done; destruct Hin as (tb0 & Ht0 & Hin).
    - destruct (decide (t' = t)) as [->|Hn]; [|exists tb0; by rewrite Hne].
      exists tb'. split; [done|]. rewrite Ht in Ht0. injection Ht0 as <-. by apply E4.
    - destruct (decide (t' = t)) as [->|Hn]; [|exists tb0; by rewrite Hne].
      exists tb'. split; [done|]. rewrite Ht in Ht0. injection Ht0 as <-. by apply (E4 st (DeleteEntry t d)). }
  split.
  - intros t' tb0 Ht0. destruct (decide (t' = t)) as [->|Hn].
    + rewrite Hput in Ht0. by injection Ht0 as <-.
    + rewrite Hne in Ht0 by done. by apply (Hok t').
  - destruct e; try done; injection He as ->; by exists tb'.
  - intros t' tb0 Ht0. destruct (decide (t' = t)) as [->|Hn].
    + rewrite Ht in Ht0. injection Ht0 as <-. by exists tb'.
    + exists tb0. rewrite Hne by done. split; [done|]. split; [done|apply rows_frame_refl].
  - by intros c _.
  - done.
Qed.

Context (tid_range : tid <> 0 /\ tid <> NOT_DELETED_ID) (cid_range : cid <> 0 /\ cid <> NOT_DELETED_ID).

(** Other deletions stay if the delete ids of their rows do. *)
Lemma other_delete st t d m m' :
  table_ok m -> DataTable.kept m m' -> entry_on st m (DeleteEntry t d) ->
  (forall row, row ∈ DataTable.named d -> (row < total_rows m')%nat /\ (row_ids m' row).2 = (row_ids m row).2) ->
  entry_on st m' (DeleteEntry t d).
Proof.
  intros Hok Hk Hd Hrows. eapply (DataTable.delete_ok_kept _ _ m m' d Hk Hd). intros row Hr.
  destruct (Hrows row Hr) as [H1 H2]. split; [done|]. rewrite H2. by destruct (DataTable.delete_ok_named _ m d row Hok Hd Hr).
Qed.

Lemma commit_append_effect t a m :
  table_ok m -> AppendEntry t a ∈ es -> entry_on Running m (AppendEntry t a) ->
  exists m', RowGroupCollection.CommitAppend cid (DataTable.start_row a) (DataTable.count a) m = (m', Ok tt)
  /\ effect t Committed (AppendEntry t a) m m' /\ rows m' = rows m.
Proof.
  intros Hok Hes [Hbase Ha]. simpl in Ha. pose proof Ha as ((A1 & A2 & A3) & A4 & A5).
  destruct (DataTable.commit_append_spec cid tid m a Hok Ha) as (m' & E & Hok' & Hk & Ht & Hr & Hids); [by destruct tid_range|].
  exists m'. split; [done|]. split; [|done].
  assert (forall row, (row < DataTable.start_row a)%nat -> row_ids m' row = row_ids m row) as Hlow.
  { intros row Hrow. rewrite Hids. by rewrite decide_False by lia. }
  split; [done| | |].
  - split; [intros row Hrow; rewrite Hlow by done; by apply Hbase|]. simpl. split; [|by rewrite Ht].
    unfold DataTable.cut_ok. rewrite Ht. split; [done|]. split.
    + intros row Hrow. rewrite Hids. case_decide as Hd; [split; [lia|done]|].
      split; [|lia]. intros Hx. destruct (Hbase row) as [_ H]; [lia|done].
    + intros row Hrow. rewrite Hids. rewrite decide_True by lia. by apply A3.
  - split; [by rewrite Ht|]. split; [intros n _ Hn; by rewrite Hr, Ht|].
    intros row Hrow. rewrite Hlow; [done|]. destruct (decide (DataTable.start_row a <= row)%nat); [|lia].
    exfalso. apply Hrow. by exists a.
  - intros st [c|t' a'|t' d|t' s p|q|q]; try done; intros [= ->] Hd Hin; [by destruct Hd|]. destruct Hd as [Hd|Hd]; [done|].
    apply (other_delete st t d m m' Hok Hk Hin). intros row Hrow. rewrite Ht.
    split; [by destruct (DataTable.delete_ok_named _ m d row Hok Hin Hrow)|]. rewrite Hlow; [done|by apply Hd].
Qed.

Lemma commit_delete_effect id' st st' t d m :
  table_ok m -> DeleteEntry t d ∈ es -> entry_on st m (DeleteEntry t d) -> st <> Gone ->
  id' = default NOT_DELETED_ID (id_of st') ->
  exists m', RowGroupCollection.on_row_group (DataTable.version_info d)
    (RowGroup.CommitDelete (ChunkInfo.vector_idx (DataTable.rows_deleted d)) id' (DataTable.rows_deleted d)) m = (m', Ok tt)
  /\ effect t st' (DeleteEntry t d) m m' /\ rows m' = rows m.
Proof.
  intros Hok Hes Hin Hst ->.
  assert (default NOT_DELETED_ID (id_of st) <> NOT_DELETED_ID) as Hne by (destruct st; [apply tid_range|apply cid_range|done]).
  destruct (DataTable.commit_delete_spec (default NOT_DELETED_ID (id_of st')) _ m d Hok Hin Hne)
    as (m' & E & Hok' & Hk & Ht & Hr & Hids).
  exists m'. split; [done|]. split; [|done].
  assert (forall row, (row_ids m' row).1 = (row_ids m row).1) as H1 by (intros row; rewrite Hids; by case_decide).
  assert (forall row, row ∉ DataTable.named d -> row_ids m' row = row_ids m row) as H2
    by (intros row Hrow; rewrite Hids; by rewrite decide_False).
  split; [done| | |].
  - apply (DataTable.delete_ok_kept _ _ m m' d Hk Hin). intros row Hrow.
    destruct (DataTable.delete_ok_named _ m d row Hok Hin Hrow) as [H _]. rewrite Ht. split; [done|].
    rewrite Hids. by rewrite decide_True.
  - split; [by rewrite Ht|]. split; [intros n _ Hn; by rewrite Hr, Ht|]. intros row _. split; [apply H1|].
    intros Hn. rewrite H2; [done|]. intros Hrow. apply Hn. by exists d.
  - intros st0 [c|t' a'|t' d'|t' s p|q|q]; try done; intros [= ->] [Hd|Hd] Hin'; try done.
    + destruct Hin' as [Hbase Ha]. split; [intros row Hrow; rewrite H1; by apply Hbase|].
      assert (forall id, DataTable.append_ok id m a' -> DataTable.append_ok id m' a') as Hmove.
      { intros id ((A1 & A2 & A3) & A4 & A5). split; [|by rewrite Ht]. unfold DataTable.cut_ok. rewrite Ht. split; [done|]. split.
        - intros row Hrow. rewrite H1. by apply A2.
        - intros row Hrow. rewrite H2; [by apply A3|]. intros Hn. specialize (Hd row Hn). lia. }
      destruct (id_of st0); [by apply Hmove|by rewrite Ht].
    + apply (other_delete st0 t d' m m' Hok Hk Hin'). intros row Hrow. rewrite Ht.
      split; [by destruct (DataTable.delete_ok_named _ m d' row Hok Hin' Hrow)|]. rewrite H2; [done|].
      intros Hn. by apply (Hd row).
Qed.

Lemma revert_append_effect st t a m :
  table_ok m -> AppendEntry t a ∈ es -> entry_on st m (AppendEntry t a) ->
  exists m', RowGroupCollection.RevertAppendInternal (DataTable.start_row a) m = (m', Ok tt)
  /\ effect t Gone (AppendEntry t a) m m'.
Proof.
  intros Hok Hes [Hbase Ha].
  assert (exists id, DataTable.cut_ok id m (DataTable.start_row a)) as [id Hcut].
  { destruct st; simpl in Ha; [exists tid|exists cid|exists tid]; [by destruct Ha|by destruct Ha|].
    split; [lia|]. split; [|intros row; lia]. intros row Hrow. split; [|lia]. intros Hx.
    destruct (Hbase row) as [H _]; [lia|done]. }
  pose proof Hcut as (A1 & _ & _).
  destruct (DataTable.revert_append_spec id m _ Hok Hcut) as (m' & E & Hok' & Hk & Ht & Hr & Hids).
  exists m'. split; [done|].
  assert (forall row, (row < DataTable.start_row a)%nat -> row_ids m' row = row_ids m row) as Hlow.
  { intros row Hrow. rewrite Hids. by rewrite decide_True. }
  split; [done| | |].
  - split; [intros row Hrow; rewrite Hlow by done; by apply Hbase|done].
  - split; [lia|]. split.
    { intros n Hn _. specialize (Hn a Hes). rewrite Hr, Ht, take_take. by rewrite Nat.min_l by lia. }
    intros row Hrow. rewrite Hlow; [done|]. destruct (decide (DataTable.start_row a <= row)%nat); [|lia].
    exfalso. apply Hrow. by exists a.
  - intros st0 [c|t' a'|t' d|t' s p|q|q]; try done; intros [= ->] Hd Hin; [by destruct Hd|]. destruct Hd as [Hd|Hd]; [done|].
    apply (other_delete st0 t d m m' Hok Hk Hin). intros row Hrow. rewrite Ht. specialize (Hd row Hrow).
    split; [done|]. by rewrite Hlow.
Qed.

(** *** Updates and the catalog *)

Definition put_segment (s : nat) u σ : store := mkStore (tables σ) (<[s := u]> (updates σ)) (catalog σ).
Definition version_at u (q : nat) : option Z := UpdateSegment.version_number <$> UpdateSegment.heap u !! q.

Lemma moves_update t s p u u' st' σ :
  store_ok σ -> updates σ !! s = Some u -> (forall q, q <> p -> version_at u' q = version_at u q) ->
  match id_of st' with Some id => version_at u' p = Some id | None => True end ->
  moves st' (UpdateEntry t s p) σ (put_segment s u' σ).
Proof.
  intros Hok Hs Hq Hp. split; [done| |exact (tables_frame_refl σ)|by intros c _|].
  - exists u'. split; [apply lookup_insert_eq|]. destruct (id_of st') as [id|]; [|done].
    unfold version_at in Hp. destruct (UpdateSegment.heap u' !! p) as [i|]; [|done]. exists i. split; [done|]. by injection Hp.
  - intros st [c|t' a|t' d|t' s' p'|q|q] Hd Hin; try done. destruct Hin as (u0 & Hu0 & Hin).
    destruct (decide (s' = s)) as [->|Hn].
    + exists u'. split; [apply lookup_insert_eq|]. destruct Hd as [Hd|Hd]; [done|]. destruct (id_of st) as [id|]; [|done].
      destruct Hin as (i & Hi & <-). rewrite Hs in Hu0. injection Hu0 as <-. specialize (Hq p' (not_eq_sym Hd)).
      unfold version_at in Hq. rewrite Hi in Hq. destruct (UpdateSegment.heap u' !! p') as [i'|]; [|done].
      exists i'. split; [done|]. by injection Hq.
    + exists u0. split; [|done]. by rewrite <- Hu0; apply lookup_insert_ne.
Qed.

Lemma CommitUpdate_heap u p id q :
  UpdateSegment.heap (UpdateSegment.CommitUpdate u p id) !! q
  = if decide (q = p) then UpdateSegment.set_version id <$> UpdateSegment.heap u !! q else UpdateSegment.heap u !! q.
Proof.
  unfold UpdateSegment.CommitUpdate. cbn [UpdateSegment.with_heap UpdateSegment.heap].
  case_decide as Hd; [rewrite Hd; apply lookup_alter_eq|by apply lookup_alter_ne].
Qed.

Lemma CommitUpdate_moves st st' t s p id σ :
  store_ok σ -> UpdateEntry t s p ∈ es -> entry_in st σ (UpdateEntry t s p) -> st <> Gone -> id_of st' = Some id ->
  let r := on_segment s (fun u => UpdateSegment.CommitUpdate u p id) σ in
  r.2 = Ok tt /\ moves st' (UpdateEntry t s p) σ r.1 /\ updates_frame σ r.1.
Proof.
  intros Hok Hes (u & Hu & Hin) Hst Hid. unfold on_segment. rewrite Hu. cbn [fst snd].
  assert (exists i, UpdateSegment.heap u !! p = Some i) as [i Hi] by (destruct st; [..|done]; destruct Hin as (i & Hi & _); by exists i).
  split; [done|]. split.
  - apply (moves_update t s p u); [done|done| |].
    + intros q Hq. unfold version_at. rewrite CommitUpdate_heap. by rewrite decide_False.
    + rewrite Hid. unfold version_at. rewrite CommitUpdate_heap, decide_True, Hi by done. done.
  - intros s'. cbn [updates]. destruct (decide (s' = s)) as [->|Hn].
    + rewrite Hu, lookup_insert_eq. do 3 (split; [done|]). intros q. rewrite CommitUpdate_heap. case_decide as Hd.
      * subst q. rewrite Hi. split; [done|]. intros Hq. by destruct (Hq t).
      * done.
    + rewrite lookup_insert_ne by done. by destruct (updates σ !! s').
Qed.

Lemma RollbackUpdate_version u p q : version_at (UpdateSegment.RollbackUpdate u p) q = version_at u q.
Proof.
  assert (forall (h : gmap nat (UpdateSegment.UpdateInfo T)) f a, (forall i, UpdateSegment.version_number (f i) = UpdateSegment.version_number i) ->
    UpdateSegment.version_number <$> alter f a h !! q = UpdateSegment.version_number <$> h !! q) as Halter.
  { intros h f a Hf. destruct (decide (a = q)) as [->|Hn]; [|by rewrite lookup_alter_ne].
    rewrite lookup_alter_eq. destruct (h !! q) as [i|]; [|done]. simpl. by rewrite Hf. }
  unfold version_at, UpdateSegment.RollbackUpdate. destruct (UpdateSegment.heap u !! p) as [info|]; [|done].
  destruct (UpdateSegment.GetUpdateNode u _) as [b|]; [|done]. cbn [UpdateSegment.with_heap UpdateSegment.heap].
  unfold UpdateSegment.CleanupUpdateInternal.
  destruct (UpdateSegment.prev info), (UpdateSegment.next info); by rewrite ?Halter.
Qed.

(** What a rollback does to the update segments. *)
Definition rollback_update e (us : gmap nat (Segment T X)) : gmap nat (Segment T X) :=
  match e with
  | UpdateEntry _ s p => alter (fun u => UpdateSegment.RollbackUpdate u p) s us
  | _ => us
  end.

Lemma moves_catalog st' c k σ :
  store_ok σ -> timestamp k c = id_of st' -> (forall c', c' <> c -> timestamp k c' = timestamp (catalog σ) c') ->
  CatalogInfo c ∈ es -> moves st' (CatalogInfo c) σ (mkStore (tables σ) (updates σ) k).
Proof.
  intros Hok Hc Hne Hes. split; [done|done|exact (tables_frame_refl σ)| |].
  - intros c' Hc'. apply Hne. by intros ->.
  - intros st [c'|t' a|t' d|t' s' p'|q|q] Hd Hin; try done. simpl in *. rewrite Hne; [done|]. by intros ->.
Qed.

Lemma moves_nothing st' e σ :
  store_ok σ -> (forall σ, entry_in st' σ e) -> moves st' e σ σ.
Proof. intros Hok He. split; [done|done|apply tables_frame_refl|by intros c _|done]. Qed.

Lemma updates_same σ σ' : updates σ' = updates σ -> updates_frame σ σ'.
Proof. intros E s. rewrite E. by destruct (updates σ !! s). Qed.

Lemma rows_same_refl σ σ' : tables σ' = tables σ -> rows_same σ σ'.
Proof. intros E t tb Ht. exists tb. by rewrite E. Qed.

Lemma rows_same_put σ t tb m' :
  tables σ !! t = Some tb -> rows m' = rows (rows_of tb) -> rows_same σ (put t (DataTable.mk m' (DataTable.version tb)) σ).
Proof.
  intros Ht Hr t' tb' Ht'. destruct (decide (t' = t)) as [->|Hn].
  - rewrite Ht in Ht'. injection Ht' as <-. eexists. split; [apply lookup_insert_eq|done].
  - exists tb'. split; [|done]. rewrite <- Ht'. by apply lookup_insert_ne.
Qed.

(** *** The functions on an entry *)

Lemma check_main_spec t σ :
  check_main_table t σ = (σ, match tables σ !! t with
                             | None => Throw InternalException
                             | Some tb => if DataTable.IsMainTable tb then Ok tt else Throw TransactionException
                             end).
Proof.
  unfold check_main_table, on_table, get, mbind, ST_bind. destruct σ as [ts us k]. cbn [tables updates catalog].
  destruct (ts !! t) as [tb|] eqn:E; [|done]. rewrite insert_id by done. by destruct (DataTable.IsMainTable tb).
Qed.

Lemma on_rows_table {A} t tb (f : ST (Collection C) A) σ :
  tables σ !! t = Some tb ->
  on_table t (DataTable.on_rows f) σ = (put t (DataTable.mk (f (rows_of tb)).1 (DataTable.version tb)) σ, (f (rows_of tb)).2).
Proof. intros Ht. unfold on_table, DataTable.on_rows. rewrite Ht. by destruct (f (rows_of tb)). Qed.

(** Nothing that matters has changed. *)
Definition unchanged σ σ' : Prop :=
  tables σ' = tables σ /\ updates σ' = updates σ /\ forall c, timestamp (catalog σ') c = timestamp (catalog σ) c.

Lemma unchanged_refl σ : unchanged σ σ.
Proof. done. Qed.

Lemma unchanged_in st σ σ' e : unchanged σ σ' -> entry_in st σ e -> entry_in st σ' e.
Proof.
  intros (E1 & E2 & E3). destruct e as [c|t a|t d|t s p|q|q]; simpl; rewrite ?E1, ?E2, ?E3; done.
Qed.

Lemma commit_entry_spec e σ :
  e ∈ es -> store_ok σ -> entry_in Running σ e ->
  match CommitEntry cid (flag e) e σ with
  | (σ', Ok _) => moves Committed e σ σ' /\ rows_same σ σ' /\ updates_frame σ σ'
  | (σ', Throw _) => unchanged σ σ'
  end.
Proof.
  intros Hes Hok Hin. destruct e as [c|t a|t d|t s p|q|q]; cbn [CommitEntry flag].
  - simpl in Hin. pose proof (commit_catalog (catalog σ) cid c) as H. unfold on_catalog.
    destruct (CommitCatalogEntry cid c (catalog σ)) as [k [[]|ex]]; [|done]. destruct H as [H1 H2].
    split; [by apply moves_catalog|]. split; [by apply rows_same_refl|by apply updates_same].
  - destruct Hin as (tb & Ht & Hin). unfold mbind, ST_bind. rewrite check_main_spec, Ht.
    destruct (DataTable.IsMainTable tb); [|apply unchanged_refl].
    destruct (commit_append_effect t a (rows_of tb) (Hok t tb Ht) Hes Hin) as (m' & E & Heff & Hr).
    unfold DataTable.CommitAppend. rewrite (on_rows_table t tb _ σ Ht), E. cbn [fst snd].
    split; [by apply (moves_table t tb)|]. split; [by apply rows_same_put|by apply updates_same].
  - destruct Hin as (tb & Ht & Hin). unfold mbind, ST_bind. rewrite check_main_spec, Ht.
    destruct (DataTable.IsMainTable tb); [|apply unchanged_refl].
    destruct (commit_delete_effect cid Running Committed t d (rows_of tb) (Hok t tb Ht) Hes Hin) as (m' & E & Heff & Hr);
      [done|done|].
    unfold DataTable.CommitDelete. rewrite (on_rows_table t tb _ σ Ht), E. cbn [fst snd].
    split; [by apply (moves_table t tb)|]. split; [by apply rows_same_put|by apply updates_same].
  - unfold mbind, ST_bind. rewrite check_main_spec. destruct (tables σ !! t) as [tb|]; [|apply unchanged_refl].
    destruct (DataTable.IsMainTable tb); [|apply unchanged_refl].
    destruct (CommitUpdate_moves Running Committed t s p cid σ Hok Hes Hin) as (H1 & H2 & H3); [done|done|].
    assert (tables (on_segment s (fun u => UpdateSegment.CommitUpdate u p cid) σ).1 = tables σ) as H4
      by (unfold on_segment; by destruct (updates σ !! s)).
    destruct (on_segment s _ σ) as [σ' r]. cbn [fst snd] in *. subst r. split; [done|]. split; [by apply rows_same_refl|done].
  - split; [by apply moves_nothing|]. split; [by apply rows_same_refl|by apply updates_same].
  - split; [by apply moves_nothing|]. split; [by apply rows_same_refl|by apply updates_same].
Qed.

(** Reverting a commit cuts off appends and takes the rest back to the running transaction. *)
Definition reverted e : entry_state := match e with AppendEntry _ _ => Gone | _ => Running end.

(** An append that is not there may be reverted. *)
Definition revertible (st : entry_state) e : Prop := st <> Gone \/ st = reverted e.

Lemma revert_entry_spec st e σ :
  e ∈ es -> store_ok σ -> entry_in st σ e -> revertible st e ->
  (RevertCommit tid (flag e) e σ).2 = Ok tt /\ moves (reverted e) e σ (RevertCommit tid (flag e) e σ).1
  /\ updates_frame σ (RevertCommit tid (flag e) e σ).1.
Proof.
  intros Hes Hok Hin Hst. destruct e as [c|t a|t d|t s p|q|q]; cbn [RevertCommit flag reverted].
  - destruct (revert_catalog (catalog σ) tid c) as (H1 & H2 & H3). unfold on_catalog.
    destruct (RevertCatalogEntry tid c (catalog σ)) as [k r]. cbn [fst snd] in *. subst r.
    split; [done|]. split; [by apply moves_catalog|by apply updates_same].
  - destruct Hin as (tb & Ht & Hin).
    destruct (revert_append_effect st t a (rows_of tb) (Hok t tb Ht) Hes Hin) as (m' & E & Heff).
    unfold DataTable.RevertAppend, DataTable.RevertAppendInternal. rewrite (on_rows_table t tb _ σ Ht), E. cbn [fst snd].
    split; [done|]. split; [by apply (moves_table t tb)|by apply updates_same].
  - destruct Hin as (tb & Ht & Hin). assert (st <> Gone) by (by destruct Hst as [?| ->]).
    destruct (commit_delete_effect tid st Running t d (rows_of tb) (Hok t tb Ht) Hes Hin) as (m' & E & Heff & _); [done|done|].
    unfold DataTable.CommitDelete. rewrite (on_rows_table t tb _ σ Ht), E. cbn [fst snd].
    split; [done|]. split; [by apply (moves_table t tb)|by apply updates_same].
  - assert (st <> Gone) by (by destruct Hst as [?| ->]). by apply (CommitUpdate_moves st Running t s p tid).
  - split; [done|]. split; [by apply moves_nothing|by apply updates_same].
  - split; [done|]. split; [by apply moves_nothing|by apply updates_same].
Qed.

(** An append may already have been cut off. *)
Definition undoable (st : entry_state) e : Prop := st = Running \/ st = reverted e.

Lemma rollback_entry_spec st e σ :
  e ∈ es -> store_ok σ -> entry_in st σ e -> undoable st e ->
  (RollbackEntry (flag e) e σ).2 = Ok tt /\ moves Gone e σ (RollbackEntry (flag e) e σ).1
  /\ updates (RollbackEntry (flag e) e σ).1 = rollback_update e (updates σ).
Proof.
  intros Hes Hok Hin Hst. destruct e as [c|t a|t d|t s p|q|q]; cbn [RollbackEntry flag].
  - destruct (undo_catalog (catalog σ) c) as (H1 & H2 & H3). unfold on_catalog.
    destruct (UndoCatalogEntry c (catalog σ)) as [k r]. cbn [fst snd] in *. subst r.
    split; [done|]. split; [by apply moves_catalog|done].
  - destruct Hin as (tb & Ht & Hin).
    destruct (revert_append_effect st t a (rows_of tb) (Hok t tb Ht) Hes Hin) as (m' & E & Heff).
    unfold DataTable.RevertAppend, DataTable.RevertAppendInternal. rewrite (on_rows_table t tb _ σ Ht), E. cbn [fst snd].
    split; [done|]. split; [by apply (moves_table t tb)|done].
  - destruct Hin as (tb & Ht & Hin). assert (st = Running) as -> by (by destruct Hst).
    destruct (commit_delete_effect NOT_DELETED_ID Running Gone t d (rows_of tb) (Hok t tb Ht) Hes Hin) as (m' & E & Heff & _);
      [done|done|].
    unfold DataTable.CommitDelete. rewrite (on_rows_table t tb _ σ Ht), E. cbn [fst snd].
    split; [done|]. split; [by apply (moves_table t tb)|done].
  - destruct Hin as (u & Hu & _). unfold on_segment. rewrite Hu. cbn [fst snd]. split; [done|]. split.
    + apply (moves_update t s p u); [done|done| |done]. intros q _. apply RollbackUpdate_version.
    + cbn [updates rollback_update]. apply map_eq. intros s'. destruct (decide (s' = s)) as [->|Hn].
      * by rewrite lookup_insert_eq, lookup_alter_eq, Hu.
      * by rewrite lookup_insert_ne, lookup_alter_ne.
  - split; [done|]. split; [by apply moves_nothing|done].
  - destruct (detach_catalog (catalog σ) q) as [H1 H2]. unfold on_catalog.
    destruct (DetachInternal q (catalog σ)) as [k r]. cbn [fst snd] in *. subst r. split; [done|]. split; [|done].
    split; [done|done|exact (tables_frame_refl σ)|by intros c _|].
    intros st0 [c|t' a|t' d|t' s' p'|q'|q'] _ H; try done. simpl in *. by rewrite H2.
Qed.

(** *** Entries in a row *)

Section runs.
Context (f : UndoBuffer.UndoFlags -> Info -> ST store unit).
(** The states the function takes an entry from and to, what else it does, and whether it can fail. *)
Context (pre : entry_state -> Info -> Prop) (post : Info -> entry_state) (rel : store -> store -> Prop) (fails : Prop).
Context `{!Reflexive rel} `{!Transitive rel}.
Hypothesis step : forall e st σ, e ∈ es -> store_ok σ -> entry_in st σ e -> pre st e ->
  match f (flag e) e σ with
  | (σ', Ok _) => moves (post e) e σ σ' /\ rel σ σ'
  | (_, Throw _) => fails
  end.

Lemma run_entries_spec l : forall σ,
  Forall (fun e => e ∈ es) l -> store_ok σ -> pairwise l -> Forall (fun e => exists st, pre st e /\ entry_in st σ e) l ->
  match run_entries f l σ with
  | (σ', Ok _) =>
      store_ok σ' /\ Forall (fun e => entry_in (post e) σ' e) l
      /\ tables_frame σ σ' /\ catalog_frame σ σ' /\ rel σ σ'
      /\ forall st e', Forall (disjoint e') l -> entry_in st σ e' -> entry_in st σ' e'
  | (_, Throw _) => fails
  end.
Proof.
  induction l as [|e l IH]; intros σ Hes Hok Hpw Hpre.
  { split; [done|]. split; [done|]. split; [apply tables_frame_refl|]. split; [by intros c _|]. by split. }
  apply Forall_cons_1 in Hes as [He Hes]. destruct Hpw as [Hd Hpw]. apply Forall_cons_1 in Hpre as [(st & Hst & Hin) Hpre].
  cbn [run_entries]. unfold mbind, ST_bind. pose proof (step e st σ He Hok Hin Hst) as H.
  destruct (f (flag e) e σ) as [σ1 [[]|ex]]; [|done]. destruct H as [[V1 V2 V3 V4 V5] Hrel].
  specialize (IH σ1 Hes V1 Hpw). rewrite Forall_forall in Hpre, Hd.
  assert (Forall (fun e => exists st, pre st e /\ entry_in st σ1 e) l) as Hpre'.
  { apply Forall_forall. intros e' He'. destruct (Hpre e' He') as (st' & H1 & H2). exists st'. split; [done|].
    apply V5; [by apply Hd|done]. }
  specialize (IH Hpre'). destruct (run_entries f l σ1) as [σ2 [u|ex]]; [|done].
  destruct IH as (I1 & I2 & I3 & I4 & I5 & I6). split; [done|].
  assert (forall st e', Forall (disjoint e') l -> entry_in st σ1 e' -> entry_in st σ2 e') as Hby by done.
  split. { constructor; [|done]. apply Hby; [by apply Forall_forall|done]. }
  split; [by eapply tables_frame_trans|]. split; [intros c Hc; by rewrite I4, V4|]. split; [by etransitivity|].
  intros st' e' [H1 H2]%Forall_cons_1 H3. apply I6; [done|]. apply V5; [by apply disjoint_sym|done].
Qed.
End runs.

#[local] Instance updates_frame_preorder : PreOrder updates_frame.
Proof. split; [intros σ; apply updates_frame_refl|intros σ1 σ2 σ3; apply updates_frame_trans]. Qed.

Definition commit_frame σ σ' : Prop := rows_same σ σ' /\ updates_frame σ σ'.

#[local] Instance commit_frame_preorder : PreOrder commit_frame.
Proof.
  split.
  - intros σ. split; [by apply rows_same_refl|apply updates_frame_refl].
  - intros σ1 σ2 σ3 [A1 A2] [B1 B2]. split; [|by eapply updates_frame_trans].
    intros t tb Ht. destruct (A1 t tb Ht) as (tb2 & Ht2 & E2). destruct (B1 t tb2 Ht2) as (tb3 & Ht3 & E3).
    exists tb3. split; [done|congruence].
Qed.

#[local] Instance any_preorder : PreOrder (fun _ _ : store => True).
Proof. by split. Qed.

(** Committing entries of the running transaction. *)
Lemma commit_entries l σ :
  Forall (fun e => e ∈ es) l -> store_ok σ -> pairwise l -> Forall (entry_in Running σ) l ->
  match run_entries (CommitEntry cid) l σ with
  | (σ', Ok _) =>
      store_ok σ' /\ Forall (entry_in Committed σ') l /\ tables_frame σ σ' /\ catalog_frame σ σ' /\ commit_frame σ σ'
      /\ forall st e', Forall (disjoint e') l -> entry_in st σ e' -> entry_in st σ' e'
  | (_, Throw _) => True
  end.
Proof.
  intros Hes Hok Hpw Hin.
  assert (forall e st σ0, e ∈ es -> store_ok σ0 -> entry_in st σ0 e -> st = Running ->
    match CommitEntry cid (flag e) e σ0 with
    | (σ1, Ok _) => moves Committed e σ0 σ1 /\ commit_frame σ0 σ1
    | (_, Throw _) => True
    end) as Hstep.
  { intros e st σ0 He Hok0 Hin0 ->. pose proof (commit_entry_spec e σ0 He Hok0 Hin0) as H.
    by destruct (CommitEntry cid (flag e) e σ0) as [σ1 [u|ex]]. }
  apply (run_entries_spec (CommitEntry cid) (fun st _ => st = Running) (fun _ => Committed) commit_frame True Hstep l σ Hes Hok Hpw).
  eapply Forall_impl; [exact Hin|]. intros e He. by exists Running.
Qed.

(** Reverting the commit of entries that are committed or still of the running transaction. *)
Lemma revert_entries l σ :
  Forall (fun e => e ∈ es) l -> store_ok σ -> pairwise l ->
  Forall (fun e => exists st, revertible st e /\ entry_in st σ e) l ->
  exists σ', run_entries (RevertCommit tid) l σ = (σ', Ok tt)
  /\ store_ok σ' /\ Forall (fun e => entry_in (reverted e) σ' e) l /\ tables_frame σ σ' /\ catalog_frame σ σ' /\ updates_frame σ σ'
  /\ forall st e', Forall (disjoint e') l -> entry_in st σ e' -> entry_in st σ' e'.
Proof.
  intros Hes Hok Hpw Hin.
  assert (forall e st σ0, e ∈ es -> store_ok σ0 -> entry_in st σ0 e -> revertible st e ->
    match RevertCommit tid (flag e) e σ0 with
    | (σ1, Ok _) => moves (reverted e) e σ0 σ1 /\ updates_frame σ0 σ1
    | (_, Throw _) => False
    end) as Hstep.
  { intros e st σ0 He Hok0 Hin0 Hst. destruct (revert_entry_spec st e σ0 He Hok0 Hin0 Hst) as (H1 & H2 & H3).
    destruct (RevertCommit tid (flag e) e σ0) as [σ1 r]. cbn [fst snd] in *. by subst r. }
  assert (H' := run_entries_spec (RevertCommit tid) revertible reverted updates_frame False Hstep l σ Hes Hok Hpw Hin). destruct (run_entries (RevertCommit tid) l σ) as [σ' [[]|ex]]; [|done]. by exists σ'.
Qed.

(** Rolling back entries. *)
Definition rollback_updates (l : list Info) (us : gmap nat (Segment T X)) : gmap nat (Segment T X) :=
  fold_left (fun us e => rollback_update e us) l us.

Lemma rollback_entries l σ :
  Forall (fun e => e ∈ es) l -> store_ok σ -> pairwise l ->
  Forall (fun e => exists st, undoable st e /\ entry_in st σ e) l ->
  exists σ', run_entries RollbackEntry l σ = (σ', Ok tt)
  /\ store_ok σ' /\ Forall (entry_in Gone σ') l /\ tables_frame σ σ' /\ catalog_frame σ σ'
  /\ updates σ' = rollback_updates l (updates σ).
Proof.
  intros Hes Hok Hpw Hin.
  assert (forall e st σ0, e ∈ es -> store_ok σ0 -> entry_in st σ0 e -> undoable st e ->
    match RollbackEntry (flag e) e σ0 with
    | (σ1, Ok _) => moves Gone e σ0 σ1 /\ True
    | (_, Throw _) => False
    end) as Hstep.
  { intros e st σ0 He Hok0 Hin0 Hst. destruct (rollback_entry_spec st e σ0 He Hok0 Hin0 Hst) as (H1 & H2 & H3).
    destruct (RollbackEntry (flag e) e σ0) as [σ1 r]. cbn [fst snd] in *. by subst r. }
  assert (H' := run_entries_spec RollbackEntry undoable (fun _ => Gone) (fun _ _ => True) False Hstep l σ Hes Hok Hpw Hin).
  assert (forall l σ σ', Forall (fun e => e ∈ es) l -> store_ok σ -> pairwise l ->
            Forall (fun e => exists st, undoable st e /\ entry_in st σ e) l ->
            run_entries RollbackEntry l σ = (σ', Ok tt) -> updates σ' = rollback_updates l (updates σ)) as Hupd.
  { clear - tid_range cid_range laws catalog_laws. induction l as [|e l IH]; intros σ σ' Hes Hok Hpw Hin Hrun; [by injection Hrun as <-|].
    apply Forall_cons_1 in Hes as [He Hes]. destruct Hpw as [Hd Hpw]. apply Forall_cons_1 in Hin as [(st & Hst & Hin0) Hin].
    destruct (rollback_entry_spec st e σ He Hok Hin0 Hst) as (H1 & [V1 _ _ _ V5] & H3). cbn [run_entries] in Hrun.
    unfold mbind, ST_bind in Hrun. destruct (RollbackEntry (flag e) e σ) as [σ1 r]. cbn [fst snd] in *. subst r.
    cbn [rollback_updates fold_left]. rewrite <- H3. apply IH; [done|done|done| |done].
    rewrite Forall_forall in Hin, Hd |- *. intros e' He'. destruct (Hin e' He') as (st' & H4 & H5). exists st'.
    split; [done|]. apply V5; [by apply Hd|done]. }
  specialize (Hupd l σ). destruct (run_entries RollbackEntry l σ) as [σ' [[]|ex]]; [|done].
  destruct H' as (I1 & I2 & I3 & I4 & _). exists σ'. split; [done|]. do 4 (split; [done|]). by apply Hupd.
Qed.

End frame.
End states.
End TransactionState.
