(* ===== verification/DuckTransaction.v ===== *)
(** * Transactions

    Models src/src/transaction/duck_transaction.cpp, the commit and rollback of the local storage
    (src/src/storage/local_storage.cpp) and the part of
    [DuckTransactionManager::CommitTransaction] (src/src/transaction/duck_transaction_manager.cpp)
    that commits a transaction or rolls it back.  The undo buffer holds the entries of the
    transaction; [infos] is what has been written to their payloads, by pointer.

    Writing optimistically written blocks, writing the WAL and flushing it are I/O: their outcome is
    a parameter, so that they may fail at any time.  The lock of the transaction manager is held during
    a commit, so a commit is one step.

    The lemmas say that the undo buffer holds the entries pushed ([logged]), that the iterations over it
    visit them, and what moving the local storage to the tables does ([flushed]).  The theorems about
    whole commits and rollbacks are in CommitOutcome.v. *)

From stdpp Require Import gmap.
From S2P Require Import Prelude ChunkInfo RowVersionManager SegmentTree UpdateKind UpdateSegment RowGroup RowGroupCollection.
From S2P Require Import DataTable TableScan LocalStorage UndoBuffer TransactionState.

Module DuckTransaction.

Abbreviation NOT_DELETED_ID := ChunkInfo.NOT_DELETED_ID.
Abbreviation Collection C := (RowGroupCollection.t C).
Abbreviation Segment T X := (UpdateSegment.t (T := T) (S := X)).
Abbreviation Info := TransactionState.Info.
Abbreviation Store := TransactionState.Store.
Abbreviation tables := TransactionState.tables.
Abbreviation updates := TransactionState.updates.
Abbreviation catalog := TransactionState.catalog.
Abbreviation rows_of := DataTable.rows_of.
Abbreviation row_ids := RowGroupCollection.row_ids.
Abbreviation total_rows := RowGroupCollection.total_rows.

Record t (C : Type) : Type := mk {
  start_time : Z;
  transaction_id : Z;
  commit_id : Z;
  undo_buffer : UndoBuffer.t;
  infos : gmap UndoBuffer.pointer Info;
  storage : LocalStorage.Manager C;
  sequence_usage : gmap nat UndoBuffer.pointer;
  modified_tables : gset nat
}.
Arguments mk {C}.
Arguments start_time {C}.
Arguments transaction_id {C}.
Arguments commit_id {C}.
Arguments undo_buffer {C}.
Arguments infos {C}.
Arguments storage {C}.
Arguments sequence_usage {C}.
Arguments modified_tables {C}.

(** Sizes of the payloads. *)
Definition sizeof_pointer : nat := 8.
Definition sizeof_idx_t : nat := 8.
Definition sizeof_uint16 : nat := 2.
Definition sizeof_AppendInfo : nat := 24.
Definition sizeof_DeleteInfo : nat := 48.
Definition sizeof_SequenceValue : nat := 24.

(** The type that a number in the undo buffer stands for. *)
Definition flag_of (v : Z) : option UndoBuffer.UndoFlags :=
  find (fun f => UndoBuffer.flag_value f =? v)
    [UndoBuffer.EMPTY_ENTRY; UndoBuffer.CATALOG_ENTRY; UndoBuffer.INSERT_TUPLE; UndoBuffer.DELETE_TUPLE;
     UndoBuffer.UPDATE_TUPLE; UndoBuffer.SEQUENCE_VALUE; UndoBuffer.ATTACHED_DATABASE].

Section transaction.
Context {R C T X K : Type} {columns_of : RowGroup.Columns R C} {scan_of : TableScan.ScanColumns R C}
  {catalog_of : TransactionState.Catalog K}.
Context (block_size : nat) (buffer_allocate : nat -> result (list Z)).
(** [LocalTableStorage::FlushBlocks] writes blocks to disk. *)
Context (FlushBlocks : LocalStorage.LocalTableStorage C -> result unit).
Abbreviation store := (Store C T X K).
Abbreviation state := (t C * store)%type.
Implicit Types (txn : t C) (σ : store) (e : Info).

Definition with_undo m txn : t C :=
  mk (start_time txn) (transaction_id txn) (commit_id txn) m (infos txn) (storage txn) (sequence_usage txn) (modified_tables txn).
Definition with_info (p : UndoBuffer.pointer) e txn : t C :=
  mk (start_time txn) (transaction_id txn) (commit_id txn) (undo_buffer txn) (<[p := e]> (infos txn)) (storage txn)
     (sequence_usage txn) (modified_tables txn).
Definition with_storage s txn : t C :=
  mk (start_time txn) (transaction_id txn) (commit_id txn) (undo_buffer txn) (infos txn) s (sequence_usage txn) (modified_tables txn).
Definition with_commit_id (c : Z) txn : t C :=
  mk (start_time txn) (transaction_id txn) c (undo_buffer txn) (infos txn) (storage txn) (sequence_usage txn) (modified_tables txn).
Definition with_sequence (sequence : nat) (p : UndoBuffer.pointer) txn : t C :=
  mk (start_time txn) (transaction_id txn) (commit_id txn) (undo_buffer txn) (infos txn) (storage txn)
     (<[sequence := p]> (sequence_usage txn)) (modified_tables txn).

Definition on_txn {A} (f : ST (t C) A) : ST state A :=
  fun '(txn, σ) => let '(txn, r) := f txn in ((txn, σ), r).
Definition on_store {A} (f : ST store A) : ST state A :=
  fun '(txn, σ) => let '(σ, r) := f σ in ((txn, σ), r).

(** ** Undo entries *)

Definition CreateEntry (type : UndoBuffer.UndoFlags) (len : nat) : ST (t C) UndoBuffer.pointer :=
  fun txn => let '(m, r) := UndoBuffer.CreateEntry block_size buffer_allocate (UndoBuffer.flag_value type) len (undo_buffer txn) in
             (with_undo m txn, r).

Definition ModifyTable (table : nat) : ST (t C) unit :=
  modify (fun txn => mk (start_time txn) (transaction_id txn) (commit_id txn) (undo_buffer txn) (infos txn) (storage txn)
                        (sequence_usage txn) ({[table]} ∪ modified_tables txn)).

Definition PushCatalogEntry (entry extra_data_size : nat) : ST (t C) unit :=
  let alloc_size :=
    (sizeof_pointer + (if (0 <? extra_data_size)%nat then extra_data_size + sizeof_idx_t else 0))%nat in
  p ← CreateEntry UndoBuffer.CATALOG_ENTRY alloc_size;
  modify (with_info p (TransactionState.CatalogInfo entry)).

Definition PushAttach (db : nat) : ST (t C) unit :=
  p ← CreateEntry UndoBuffer.ATTACHED_DATABASE sizeof_pointer;
  modify (with_info p (TransactionState.AttachInfo db)).

(** [NumericCast<uint16_t>]. *)
Definition to_uint16 (row : nat) : result nat :=
  if Z.of_nat row <? 65536 then Ok row else Throw InternalException.

Definition PushDelete (table info vector_idx : nat) (rows : list nat) (count base_row : nat) : ST (t C) unit :=
  ModifyTable table;;
  let is_consecutive := forallb (fun i => (rows !!! i =? i)%nat) (seq 0 count) in
  let alloc_size := (sizeof_DeleteInfo + (if is_consecutive then 0 else sizeof_uint16 * count))%nat in
  p ← CreateEntry UndoBuffer.DELETE_TUPLE alloc_size;
  delete_rows ← lift (if is_consecutive then Ok [] else mapM to_uint16 (take count rows));
  modify (with_info p (TransactionState.DeleteEntry table
    (DataTable.mkDeleteInfo info (ChunkInfo.mkDeleteInfo vector_idx count is_consecutive delete_rows) base_row))).

Definition PushAppend (table start_row row_count : nat) : ST (t C) unit :=
  ModifyTable table;;
  p ← CreateEntry UndoBuffer.INSERT_TUPLE sizeof_AppendInfo;
  modify (with_info p (TransactionState.AppendEntry table (DataTable.mkAppendInfo start_row row_count))).

(** The update segment links the info at address [info] of segment [segment]. *)
Definition CreateUpdateInfo (type_size table segment info : nat) : ST (t C) UndoBuffer.pointer :=
  p ← CreateEntry UndoBuffer.UPDATE_TUPLE (UpdateKind.GetAllocSize type_size);
  modify (with_info p (TransactionState.UpdateEntry table segment info));;
  mret p.

Definition PushSequenceUsage (sequence : nat) (usage_count counter : Z) : ST (t C) unit :=
  txn ← get;
  let value := TransactionState.SequenceInfo (TransactionState.mkSequence sequence usage_count counter) in
  match sequence_usage txn !! sequence with
  | None =>
      p ← CreateEntry UndoBuffer.SEQUENCE_VALUE sizeof_SequenceValue;
      modify (with_info p value);;
      modify (with_sequence sequence p)
  | Some p => modify (with_info p value)
  end.

Definition ChangesMade txn : bool := UndoBuffer.ChangesMade (undo_buffer txn) || LocalStorage.ChangesMade (storage txn).

(** ** Local storage *)

Definition transaction_data txn : ChunkInfo.TransactionData := ChunkInfo.mkTransactionData (transaction_id txn) (start_time txn).

Fixpoint append_chunks (table : nat) (chunks : list (list R)) (st : RowGroupCollection.AppendState)
    : ST store RowGroupCollection.AppendState :=
  match chunks with
  | [] => mret st
  | chunk :: chunks =>
      '(st, _) ← TransactionState.on_table table (DataTable.Append chunk st);
      append_chunks table chunks st
  end.

(** [LocalTableStorage::AppendToIndexes] with [append_to_table], for a table without indexes. *)
Definition AppendToIndexes (D : ChunkInfo.TransactionData) (l : LocalStorage.LocalTableStorage C) (table : nat) : ST store unit :=
  st ← TransactionState.on_table table DataTable.InitializeAppend;
  chunks ← lift (TableScan.collection_Scan D (LocalStorage.row_groups l)).2;
  st ← append_chunks table chunks st;
  TransactionState.on_table table (DataTable.FinalizeAppend D st);;
  mret tt.

Definition Flush (table : nat) (l : LocalStorage.LocalTableStorage C) : ST state unit :=
  if LocalStorage.is_dropped l then mret tt
  else if (total_rows (LocalStorage.row_groups l) <=? LocalStorage.deleted_rows l)%nat then mret tt
  else
    let append_count := (total_rows (LocalStorage.row_groups l) - LocalStorage.deleted_rows l)%nat in
    row_start ← on_store (TransactionState.on_table table DataTable.AppendLock);
    on_txn (PushAppend table row_start append_count);;
    if ((row_start =? 0) || (RowGroupCollection.row_group_size (LocalStorage.row_groups l) <=? total_rows (LocalStorage.row_groups l)))%nat
       && (LocalStorage.deleted_rows l =? 0)%nat then
      lift (FlushBlocks l);;
      on_store (TransactionState.on_table table (DataTable.MergeStorage (LocalStorage.row_groups l)))
    else
      '(txn, _) ← get;
      on_store (AppendToIndexes (transaction_data txn) l table).

Fixpoint flush_entries (s : LocalStorage.Manager C) : ST state unit :=
  match s with
  | [] => mret tt
  | (table, l) :: s => Flush table l;; flush_entries s
  end.

(** [LocalStorage::Commit] and [LocalStorage::Rollback]; the rollback drops blocks. *)
Definition CommitStorage : ST state unit :=
  '(txn, _) ← get;
  on_txn (modify (with_storage (LocalStorage.MoveEntries (storage txn)).1));;
  flush_entries (LocalStorage.MoveEntries (storage txn)).2.

Definition RollbackStorage : ST state unit := on_txn (modify (with_storage [])).

(** ** Commit and rollback *)

(** The callback of an iteration over the undo buffer: the payload behind the pointer. *)
Definition callback (infos : gmap UndoBuffer.pointer Info) (f : UndoBuffer.UndoFlags -> Info -> ST store unit)
    (type : Z) (p : UndoBuffer.pointer) : ST store unit :=
  match flag_of type, infos !! p with
  | Some type, Some info => f type info
  | _, _ => throw InternalException
  end.

(** [UndoBuffer::Commit], [RevertCommit], [Rollback] and [Cleanup]. *)
Definition UndoCommit (commit_id : Z) txn σ : (UndoBuffer.IteratorState * store) * result unit :=
  UndoBuffer.IterateEntries (undo_buffer txn) (callback (infos txn) (TransactionState.CommitEntry commit_id))
    (UndoBuffer.initial_state, σ).

Definition UndoRevertCommit (end_state : UndoBuffer.IteratorState) txn : ST store unit :=
  fun σ => let '((_, σ), r) := UndoBuffer.IterateEntriesUntil (undo_buffer txn) end_state
             (callback (infos txn) (TransactionState.RevertCommit (transaction_id txn))) (UndoBuffer.initial_state, σ) in
           (σ, r).

Definition UndoRollback txn : ST store unit :=
  UndoBuffer.ReverseIterateEntries (undo_buffer txn) (callback (infos txn) TransactionState.RollbackEntry).

Definition UndoCleanup (lowest_active_transaction : Z) txn : ST store unit :=
  fun σ => let '((_, σ), r) := UndoBuffer.IterateEntries (undo_buffer txn)
             (callback (infos txn) (TransactionState.CleanupEntry lowest_active_transaction)) (UndoBuffer.initial_state, σ) in
           (σ, r).

(** [DuckTransaction::Commit].  [commit_state] is the outcome of flushing the WAL, if there is one to
    flush.  [TryCommit] is the block that may throw, with the iterator state it leaves.  The result is
    the error, if any; an exception while reverting would end the process. *)
Definition TryCommit (commit_state : option (result unit)) (s : state) : (state * UndoBuffer.IteratorState) * result unit :=
  match CommitStorage s with
  | (s, Throw e) => ((s, UndoBuffer.initial_state), Throw e)
  | ((txn, σ), Ok _) =>
      let '((it, σ), r) := UndoCommit (commit_id txn) txn σ in
      (((txn, σ), it), match r with Ok _ => default (Ok tt) commit_state | Throw e => Throw e end)
  end.

Definition Commit (commit_state : option (result unit)) (new_commit_id : Z) (s : state) : state * result (option exception) :=
  let s := (with_commit_id new_commit_id s.1, s.2) in
  if negb (ChangesMade s.1) then (s, Ok None)
  else
    let '(((txn, σ), it), r) := TryCommit commit_state s in
    match r with
    | Ok _ => ((txn, σ), Ok None)
    | Throw e => let '(σ, r) := UndoRevertCommit it txn σ in ((txn, σ), (fun _ => Some e) <$> r)
    end.

(** [DuckTransaction::WriteToWAL]: the error, if any.  [wal] is the outcome of writing the entries. *)
Definition WriteToWAL (wal : result unit) (s : state) : state * option exception :=
  match CommitStorage s with
  | (s, Throw e) => (s, Some e)
  | (s, Ok _) => (s, match wal with Ok _ => None | Throw e => Some e end)
  end.

Definition Rollback (s : state) : state * option exception :=
  let '((txn, σ), _) := RollbackStorage s in
  let '(σ, r) := UndoRollback txn σ in
  ((txn, σ), match r with Ok _ => None | Throw e => Some e end).

Definition Cleanup (lowest_active_transaction : Z) : ST state unit :=
  fun '(txn, σ) => let '(σ, r) := UndoCleanup lowest_active_transaction txn σ in ((txn, σ), r).

(** The part of [DuckTransactionManager::CommitTransaction] that changes the store: from the WAL to the
    rollback of a failed commit.  [wal] is present if the changes are written to the WAL: the outcomes
    of writing them and of flushing the WAL.  The result is the error of the transaction, or an
    exception that stops the database. *)
Definition CommitTransaction (wal : option (result unit * result unit)) (commit_id : Z) (s : state)
    : state * result (option exception) :=
  let '(s, error) := match wal with Some (written, _) => WriteToWAL written s | None => (s, None) end in
  let '(s, error) := match error with None => Commit (snd <$> wal) commit_id s | Some e => (s, Ok (Some e)) end in
  match error with
  | Ok (Some e) =>
      let '(s, rollback_error) := Rollback (with_commit_id 0 s.1, s.2) in
      match rollback_error with
      | Some _ => (s, Throw FatalException)
      | None => (s, Ok (Some e))
      end
  | r => (s, r)
  end.

(** ** The undo entries in the undo buffer *)

Hypothesis allocate_length : forall n bytes, buffer_allocate n = Ok bytes -> length bytes = n.
Implicit Types (es : list Info) (log : list (Z * UndoBuffer.pointer)).

Lemma flag_of_value f : flag_of (UndoBuffer.flag_value f) = Some f.
Proof. by destruct f. Qed.

Definition entry_at (infos : gmap UndoBuffer.pointer Info) (x : Z * UndoBuffer.pointer) e : Prop :=
  x.1 = UndoBuffer.flag_value (TransactionState.flag e) /\ infos !! x.2 = Some e.

(** The undo buffer of the transaction holds the entries [es]. *)
Definition logged txn es : Prop :=
  exists log, UndoBuffer.built block_size buffer_allocate (undo_buffer txn) log /\ Forall2 (entry_at (infos txn)) log es.

Lemma run_callback (im : gmap UndoBuffer.pointer Info) f log es σ :
  Forall2 (entry_at im) log es -> UndoBuffer.run (callback im f) log σ = TransactionState.run_entries f es σ.
Proof.
  intros H. revert σ. induction H as [|[ty p] e log es [H1 H2] H IH]; intros σ; [done|].
  cbn [fst snd] in *. cbn [UndoBuffer.run TransactionState.run_entries]. unfold mbind, ST_bind.
  assert (callback im f ty p σ = f (TransactionState.flag e) e σ) as ->.
  { unfold callback. by rewrite H1, flag_of_value, H2. }
  by destruct (f (TransactionState.flag e) e σ) as [σ1 [u|ex]].
Qed.

Lemma entry_at_rev (im : gmap UndoBuffer.pointer Info) log es :
  Forall2 (entry_at im) log es -> Forall2 (entry_at im) (rev log) (rev es).
Proof. intros H. induction H; [done|]. cbn [rev]. apply Forall2_app; [done|]. by constructor. Qed.

Lemma UndoRollback_run txn es σ :
  logged txn es -> UndoRollback txn σ = TransactionState.run_entries TransactionState.RollbackEntry (rev es) σ.
Proof.
  intros (log & Hb & Hl). unfold UndoRollback.
  destruct (UndoBuffer.iteration_built block_size buffer_allocate allocate_length _ log
              (callback (infos txn) TransactionState.RollbackEntry) (callback (infos txn) TransactionState.RollbackEntry)
              UndoBuffer.initial_state σ UndoBuffer.initial_state σ Hb) as [-> _].
  by apply run_callback, entry_at_rev.
Qed.

Lemma UndoRevertCommit_all txn es σ end_state :
  logged txn es -> UndoBuffer.current end_state = None ->
  UndoRevertCommit end_state txn σ
  = TransactionState.run_entries (TransactionState.RevertCommit (transaction_id txn)) es σ.
Proof.
  intros (log & Hb & Hl) Hn. unfold UndoRevertCommit.
  pose proof (UndoBuffer.iterate_until_None block_size buffer_allocate allocate_length _ log
    (callback (infos txn) (TransactionState.RevertCommit (transaction_id txn))) end_state UndoBuffer.initial_state σ Hb Hn) as H.
  destruct (UndoBuffer.IterateEntriesUntil _ _ _ _) as [[it σ1] r]. rewrite H. by apply run_callback.
Qed.

(** Committing the entries, and reverting what has been committed when it stopped. *)
Lemma UndoCommit_run cid txn es σ :
  logged txn es ->
  let '((it, σ1), r) := UndoCommit cid txn σ in
  (σ1, r) = TransactionState.run_entries (TransactionState.CommitEntry cid) es σ
  /\ forall σ', match r with
     | Ok _ => UndoRevertCommit it txn σ'
               = TransactionState.run_entries (TransactionState.RevertCommit (transaction_id txn)) es σ'
     | Throw ex => exists l1 e l2 σ0, es = l1 ++ e :: l2
               /\ TransactionState.run_entries (TransactionState.CommitEntry cid) l1 σ = (σ0, Ok tt)
               /\ TransactionState.CommitEntry cid (TransactionState.flag e) e σ0 = (σ1, Throw ex)
               /\ UndoRevertCommit it txn σ'
                  = TransactionState.run_entries (TransactionState.RevertCommit (transaction_id txn)) (l1 ++ [e]) σ'
     end.
Proof.
  intros (log & Hb & Hl). unfold UndoCommit, UndoRevertCommit.
  set (cb := callback (infos txn) (TransactionState.CommitEntry cid)).
  set (cb' := callback (infos txn) (TransactionState.RevertCommit (transaction_id txn))).
  pose proof (fun σ' => proj2 (UndoBuffer.iteration_built block_size buffer_allocate allocate_length _ log cb cb'
    UndoBuffer.initial_state σ UndoBuffer.initial_state σ' Hb)) as H. revert H.
  destruct (UndoBuffer.IterateEntries (undo_buffer txn) cb (UndoBuffer.initial_state, σ)) as [[it σ1] r]. intros H.
  split; [destruct (H σ) as [-> _]; by apply run_callback|]. intros σ'. destruct (H σ') as [_ H2]. clear H.
  destruct (UndoBuffer.IterateEntriesUntil (undo_buffer txn) it cb' (UndoBuffer.initial_state, σ')) as [[it2 σ2] r2].
  destruct r as [u|ex]; [by rewrite H2; apply run_callback|].
  destruct H2 as (l1 & ty & p & l2 & σ0 & -> & H1 & H2 & H3).
  apply Forall2_app_inv_l in Hl as (k1 & k2 & Hk1 & Hk2 & ->). apply Forall2_cons_inv_l in Hk2 as (e & k2' & [E1 E2] & Hk2 & ->).
  exists k1, e, k2', σ0. split; [done|]. cbn [fst snd] in E1, E2. split; [by rewrite <- H1; symmetry; apply run_callback|].
  split.
  - rewrite <- H2. unfold cb, callback. by rewrite E1, flag_of_value, E2.
  - rewrite H3. apply run_callback, Forall2_app; [done|]. by constructor.
Qed.

Lemma CreateEntry_logged e len txn es :
  logged txn es -> Z.of_nat (UndoBuffer.entry_length len) < 2 ^ 32 ->
  match CreateEntry (TransactionState.flag e) len txn with
  | (txn', Throw _) => txn' = txn
  | (txn', Ok p) => exists m, txn' = with_undo m txn /\ logged (with_info p e txn') (es ++ [e])
  end.
Proof.
  intros (log & Hb & Hl) Hlen. unfold CreateEntry. set (ty := UndoBuffer.flag_value (TransactionState.flag e)).
  assert (0 <= ty < 2 ^ 32) as Hty by (unfold ty; by destruct e).
  destruct (UndoBuffer.built_repr block_size buffer_allocate allocate_length _ _ Hb) as (ess & Hm & _).
  pose proof (UndoBuffer.CreateEntry_spec block_size buffer_allocate allocate_length ty len _ _ Hm Hty Hlen) as H.
  destruct (UndoBuffer.CreateEntry block_size buffer_allocate ty len (undo_buffer txn)) as [m' [p|ex]] eqn:E.
  2:{ rewrite H. by destruct txn. }
  exists m'. split; [done|]. pose proof (UndoBuffer.built_create block_size buffer_allocate ty len _ _ _ _ Hb Hty Hlen E) as Hb'.
  exists (log ++ [(ty, p)]). split; [done|]. pose proof (UndoBuffer.built_NoDup block_size buffer_allocate allocate_length _ _ Hb') as Hnd.
  rewrite fmap_app in Hnd. apply NoDup_app in Hnd as (_ & Hnd & _). cbn [infos with_info with_undo]. apply Forall2_app.
  - apply Forall2_same_length_lookup in Hl as [Hlen' Hl]. apply Forall2_same_length_lookup. split; [done|].
    intros i [ty' p'] e' Hi He. destruct (Hl i _ _ Hi He) as [H1 H2]. split; [done|]. cbn [snd] in *.
    rewrite lookup_insert_ne; [done|]. intros ->. apply (Hnd p'); [|by left].
    apply list_elem_of_fmap. exists (ty', p'). split; [done|]. by eapply list_elem_of_lookup_2.
  - constructor; [|done]. split; [done|]. cbn [snd]. apply lookup_insert_eq.
Qed.

Definition same_txn txn txn' : Prop :=
  start_time txn' = start_time txn /\ transaction_id txn' = transaction_id txn /\ storage txn' = storage txn
  /\ commit_id txn' = commit_id txn.

Lemma PushCatalogEntry_logged entry n txn es :
  logged txn es ->
  Z.of_nat (UndoBuffer.entry_length (sizeof_pointer + (if (0 <? n)%nat then n + sizeof_idx_t else 0))) < 2 ^ 32 ->
  let '(txn', r) := PushCatalogEntry entry n txn in
  same_txn txn txn' /\ logged txn' (es ++ match r with Ok _ => [TransactionState.CatalogInfo entry] | Throw _ => [] end).
Proof.
  intros Hl Hlen. unfold PushCatalogEntry, mbind, ST_bind, modify.
  pose proof (CreateEntry_logged (TransactionState.CatalogInfo entry) _ txn es Hl Hlen) as H. cbn [TransactionState.flag] in H.
  destruct (CreateEntry UndoBuffer.CATALOG_ENTRY _ txn) as [txn' [p|ex]].
  - by destruct H as (m & -> & H).
  - subst txn'. split; [done|]. by rewrite app_nil_r.
Qed.

(** ** Moving the local storage to the tables *)

Context (MAX_ROW_ID row_group_size : nat).
Hypothesis group_size : (0 < row_group_size)%nat /\ (row_group_size mod STANDARD_VECTOR_SIZE = 0)%nat.
Context {contents : C -> list R} {column_start : C -> nat} {laws : RowGroup.ColumnLaws contents column_start}
  {scan_laws : TableScan.ScanLaws contents}.
Abbreviation rows := (RowGroupCollection.rows (contents := contents)).
Abbreviation table_ok := (DataTable.table_ok (contents := contents) (column_start := column_start)).
Abbreviation local_ok := (LocalStorage.local_ok MAX_ROW_ID row_group_size (contents := contents) (column_start := column_start)).
Abbreviation seen := (LocalStorage.seen MAX_ROW_ID (contents := contents)).
Abbreviation appended := (DataTable.appended (contents := contents)).
Abbreviation put := TransactionState.put.
Implicit Types (l : LocalStorage.LocalTableStorage C) (tb : DataTable.t C) (m : Collection C).

Lemma put_put t tb tb' σ : put t tb' (put t tb σ) = put t tb' σ.
Proof. unfold put. cbn. by rewrite insert_insert_eq. Qed.

Lemma put_same t tb σ : tables σ !! t = Some tb -> put t tb σ = σ.
Proof. intros H. unfold put. rewrite insert_id by done. by destruct σ. Qed.

Lemma put_lookup t tb σ : tables (put t tb σ) !! t = Some tb.
Proof. apply lookup_insert_eq. Qed.

Definition with_rows m tb : DataTable.t C := DataTable.mk m (DataTable.version tb).

Lemma append_chunks_table t chunks : forall st tb σ,
  tables σ !! t = Some tb ->
  append_chunks t chunks st σ
  = let '(m, r) := RowGroupCollection.append_chunks chunks st (rows_of tb) in (put t (with_rows m tb) σ, r).
Proof.
  induction chunks as [|chunk chunks IH]; intros st tb σ Ht; cbn [append_chunks RowGroupCollection.append_chunks].
  { unfold mret, ST_ret. rewrite put_same; [done|]. by destruct tb. }
  unfold mbind, ST_bind, DataTable.Append. rewrite (TransactionState.on_rows_table t tb _ σ Ht).
  destruct (RowGroupCollection.Append chunk st (rows_of tb)) as [m [[st' b]|e]]; [|done]. cbn [fst snd].
  rewrite (IH st' (with_rows m tb)) by apply put_lookup. change (rows_of (with_rows m tb)) with m.
  destruct (RowGroupCollection.append_chunks chunks st' m) as [m' r]. unfold with_rows at 1. cbn [DataTable.version with_rows].
  by rewrite put_put.
Qed.

Lemma AppendToIndexes_spec D l t tb σ chunks m' st :
  tables σ !! t = Some tb -> (TableScan.collection_Scan D (LocalStorage.row_groups l)).2 = Ok chunks ->
  RowGroupCollection.append D chunks (rows_of tb) = (m', Ok st) ->
  AppendToIndexes D l t σ = (put t (with_rows m' tb) σ, Ok tt).
Proof.
  intros Ht Hscan Happ. unfold RowGroupCollection.append in Happ. unfold AppendToIndexes, mbind, ST_bind in *.
  unfold DataTable.InitializeAppend. rewrite (TransactionState.on_rows_table t tb _ σ Ht).
  destruct (RowGroupCollection.InitializeAppend (rows_of tb)) as [m1 [st1|e]]; [|done]. cbn [fst snd].
  unfold lift. rewrite Hscan. fold (with_rows m1 tb). rewrite (append_chunks_table t chunks st1 (with_rows m1 tb)) by apply put_lookup.
  change (rows_of (with_rows m1 tb)) with m1.
  destruct (RowGroupCollection.append_chunks chunks st1 m1) as [m2 [st2|e]]; [|done].
  unfold DataTable.FinalizeAppend.
  rewrite (TransactionState.on_rows_table t (with_rows m2 (with_rows m1 tb)) _ _ (put_lookup _ _ _)).
  change (rows_of (with_rows m2 (with_rows m1 tb))) with m2. rewrite Happ. cbn [fst snd]. by rewrite !put_put.
Qed.

Lemma all_own tid l :
  local_ok tid l -> LocalStorage.deleted_rows l = 0%nat ->
  seen l = rows (LocalStorage.row_groups l)
  /\ forall r, (r < total_rows (LocalStorage.row_groups l))%nat ->
       row_ids (LocalStorage.row_groups l) (MAX_ROW_ID + r) = (tid, NOT_DELETED_ID).
Proof.
  intros [O1 O2 O3 O4 O5 O6 O7 O8 O9] H0. rewrite H0 in O9. apply nil_length_inv in O9.
  assert (forall r, (r < total_rows (LocalStorage.row_groups l))%nat ->
    LocalStorage.is_deleted MAX_ROW_ID (LocalStorage.row_groups l) r = false) as Hd.
  { intros r Hr. destruct (LocalStorage.is_deleted MAX_ROW_ID (LocalStorage.row_groups l) r) eqn:E; [|done].
    exfalso. assert (r ∈ select (LocalStorage.is_deleted MAX_ROW_ID (LocalStorage.row_groups l)) (total_rows (LocalStorage.row_groups l)))
      as Hin by (apply (proj2 (elem_of_select _ _ _)); by split). rewrite O9 in Hin. by apply not_elem_of_nil in Hin. }
  destruct O1 as [_ _ _ Ht _]. split.
  - unfold LocalStorage.seen. transitivity (take (total_rows (LocalStorage.row_groups l)) (rows (LocalStorage.row_groups l)));
      [|by rewrite Ht, firstn_all].
    rewrite <- TableScan.omap_lookup_take by (by rewrite Ht). apply TableScan.omap_seq_ext. intros r Hr. by rewrite Hd by lia.
  - intros r Hr. specialize (O7 r Hr). specialize (Hd r Hr). unfold LocalStorage.is_deleted in Hd.
    destruct (row_ids (LocalStorage.row_groups l) (MAX_ROW_ID + r)) as [i d]. cbn [fst snd] in *.
    destruct (Z.eqb_spec d NOT_DELETED_ID) as [->|]; [|done]. by subst i.
Qed.

(** The rows that a commit adds to the table. *)
Definition local_rows l : list R := if LocalStorage.is_dropped l then [] else seen l.

(** The table has room for the rows. *)
Definition fits tb l : Prop :=
  RowGroupCollection.row_group_size (rows_of tb) = row_group_size
  /\ DataTable.room (rows_of tb) (total_rows (LocalStorage.row_groups l))
  /\ Z.of_nat (length (SegmentTree.segments (RowGroupCollection.row_groups (rows_of tb)))
               + length (SegmentTree.segments (RowGroupCollection.row_groups (LocalStorage.row_groups l)))) < 2 ^ 62.

Lemma same_txn_refl txn : same_txn txn txn.
Proof. done. Qed.

Lemma same_txn_trans txn1 txn2 txn3 : same_txn txn1 txn2 -> same_txn txn2 txn3 -> same_txn txn1 txn3.
Proof. intros (A1 & A2 & A3 & A4) (B1 & B2 & B3 & B4). unfold same_txn. by rewrite B1, B2, B3, B4. Qed.

Lemma PushAppend_spec t row n txn es :
  logged txn es ->
  let '(txn', r) := PushAppend t row n txn in
  same_txn txn txn'
  /\ logged txn' (es ++ match r with Ok _ => [TransactionState.AppendEntry t (DataTable.mkAppendInfo row n)] | Throw _ => [] end).
Proof.
  intros Hl. unfold PushAppend, ModifyTable, mbind, ST_bind, modify.
  set (txn1 := mk _ _ _ _ _ _ _ _). assert (logged txn1 es) as Hl1 by exact Hl.
  pose proof (CreateEntry_logged (TransactionState.AppendEntry t (DataTable.mkAppendInfo row n)) sizeof_AppendInfo txn1 es Hl1) as H.
  cbn [TransactionState.flag] in H. specialize (H ltac:(vm_compute; reflexivity)).
  destruct (CreateEntry UndoBuffer.INSERT_TUPLE sizeof_AppendInfo txn1) as [txn2 [p|ex]].
  - destruct H as (m & -> & H). split; [done|exact H].
  - subst txn2. split; [done|]. by rewrite app_nil_r.
Qed.

Record grown_table (tid : Z) tb tb' (d : list R) : Prop := {
  n_version : DataTable.version tb' = DataTable.version tb;
  n_ok : table_ok (rows_of tb');
  n_kept : DataTable.kept (rows_of tb) (rows_of tb');
  n_rows : appended (fun _ => (tid, NOT_DELETED_ID)) (rows_of tb) (rows_of tb') d
}.

Lemma merge_rows tid l tb t σ :
  tables σ !! t = Some tb -> local_ok tid l -> fits tb l -> table_ok (rows_of tb) -> LocalStorage.deleted_rows l = 0%nat ->
  exists tb', TransactionState.on_table t (DataTable.MergeStorage (LocalStorage.row_groups l)) σ = (put t tb' σ, Ok tt)
  /\ grown_table tid tb tb' (seen l).
Proof.
  intros Ht Hl (F1 & F2 & F3) Hok H0. destruct (all_own tid l Hl H0) as [Hs Hids]. destruct Hl as [O1 O2 O3 O4 O5 O6 _ _ _].
  destruct (DataTable.merge_table_spec (LocalStorage.row_groups l) (rows_of tb) Hok O1) as (m' & E & Hok' & Hk & A1 & A2 & A3);
    [by rewrite F1|done|done|done|].
  exists (with_rows m' tb). unfold DataTable.MergeStorage. rewrite (TransactionState.on_rows_table t tb _ σ Ht), E.
  split; [done|]. rewrite Hs. split; [done|done|done|]. split; [done|]. split; [done|]. intros row.
  change (rows_of (with_rows m' tb)) with m'. rewrite A3. case_decide as Hd; [|done]. rewrite O5. apply Hids.
  destruct O1 as [_ _ _ Htot _]. lia.
Qed.

Lemma insert_rows tid l tb t σ txn :
  tables σ !! t = Some tb -> local_ok tid l -> fits tb l -> table_ok (rows_of tb) ->
  transaction_id txn = tid -> RowVersionManager.proper (transaction_data txn) ->
  exists tb', AppendToIndexes (transaction_data txn) l t σ = (put t tb' σ, Ok tt) /\ grown_table tid tb tb' (seen l).
Proof.
  intros Ht Hl (F1 & F2 & F3) Hok Htid HT. pose proof (LocalStorage.seen_length MAX_ROW_ID row_group_size group_size tid l Hl) as Hlen.
  destruct (LocalStorage.local_scan MAX_ROW_ID row_group_size (column_start := column_start) group_size (transaction_data txn) l HT) as (m0 & chunks & E & Hj & _).
  { cbn [ChunkInfo.transaction_id transaction_data]. by rewrite Htid. }
  destruct (DataTable.append_rows_spec (transaction_data txn) chunks (rows_of tb) Hok) as (m' & st & E' & Hok' & Hk & Happ).
  { rewrite Hj, Hlen. unfold LocalStorage.storage_rows, DataTable.room in *. lia. }
  exists (with_rows m' tb). split; [by eapply AppendToIndexes_spec; [|rewrite E|]|]. split; [done|done|done|].
  rewrite <- Hj. cbn [ChunkInfo.transaction_id transaction_data] in Happ. by rewrite Htid in Happ.
Qed.

Lemma move_storage_spec tid t l txn σ es tb :
  logged txn es -> transaction_id txn = tid -> RowVersionManager.proper (transaction_data txn) ->
  tables σ !! t = Some tb -> table_ok (rows_of tb) -> local_ok tid l -> fits tb l ->
  exists txn' σ' r entries d, Flush t l (txn, σ) = ((txn', σ'), r) /\ same_txn txn txn' /\ logged txn' (es ++ entries)
  /\ (entries = [] /\ d = []
      \/ exists k, entries = [TransactionState.AppendEntry t (DataTable.mkAppendInfo (total_rows (rows_of tb)) k)]
         /\ (r = Ok tt -> d <> []) /\ (d <> [] -> k = length d))
  /\ (d = [] /\ σ' = σ \/ d <> [] /\ exists tb', grown_table tid tb tb' d /\ σ' = put t tb' σ)
  /\ (r = Ok tt -> d = local_rows l).
Proof.
  intros Hl Htid HT Ht Hok Hloc Hfits. unfold Flush, local_rows.
  pose proof (LocalStorage.seen_length MAX_ROW_ID row_group_size group_size tid l Hloc) as Hlen. unfold LocalStorage.storage_rows in Hlen.
  destruct (LocalStorage.is_dropped l).
  { exists txn, σ, (Ok tt), [], []. rewrite app_nil_r. do 3 (split; [done|]). split; [by left|]. by split; [left|]. }
  destruct (Nat.leb_spec (total_rows (LocalStorage.row_groups l)) (LocalStorage.deleted_rows l)) as [Hle|Hgt].
  { exists txn, σ, (Ok tt), [], []. rewrite app_nil_r. do 3 (split; [done|]). split; [by left|]. split; [by left|].
    intros _. symmetry. apply nil_length_inv. lia. }
  set (k := (total_rows (LocalStorage.row_groups l) - LocalStorage.deleted_rows l)%nat).
  assert (seen l <> []) as Hne by (intros E; rewrite E in Hlen; simpl in Hlen; lia).
  unfold mbind, ST_bind, on_store, on_txn. 
  assert (TransactionState.on_table t DataTable.AppendLock σ
          = (σ, if DataTable.IsMainTable tb then Ok (total_rows (rows_of tb)) else Throw TransactionException)) as ->.
  { unfold TransactionState.on_table, DataTable.AppendLock, mbind, ST_bind, get. rewrite Ht.
    assert (TransactionState.mkStore (<[t:=tb]> (tables σ)) (updates σ) (catalog σ) = σ) as E by (by apply put_same).
    destruct (DataTable.IsMainTable tb); cbn [negb]; unfold throw, mret, ST_ret; by rewrite E. }
  destruct (DataTable.IsMainTable tb).
  2:{ exists txn, σ, (Throw TransactionException), [], []. rewrite app_nil_r. do 3 (split; [done|]). split; [by left|]. by split; [left|]. }
  pose proof (PushAppend_spec t (total_rows (rows_of tb)) k txn es Hl) as H.
  destruct (PushAppend t (total_rows (rows_of tb)) k txn) as [txn1 [u|ex]]; destruct H as [Hsame Hlog].
  2:{ exists txn1, σ, (Throw ex), [], []. do 3 (split; [done|]). split; [by left|]. by split; [left|]. }
  set (entries := [TransactionState.AppendEntry t (DataTable.mkAppendInfo (total_rows (rows_of tb)) k)]).
  assert (forall σ', (exists tb', σ' = put t tb' σ /\ grown_table tid tb tb' (seen l)) ->
    exists txn' σ'' r entries d, ((txn1, σ'), Ok tt) = ((txn', σ''), r) /\ same_txn txn txn' /\ logged txn' (es ++ entries)
    /\ (entries = [] /\ d = []
        \/ exists k, entries = [TransactionState.AppendEntry t (DataTable.mkAppendInfo (total_rows (rows_of tb)) k)]
           /\ (r = Ok tt -> d <> []) /\ (d <> [] -> k = length d))
    /\ (d = [] /\ σ'' = σ \/ d <> [] /\ exists tb', grown_table tid tb tb' d /\ σ'' = put t tb' σ)
    /\ (r = Ok tt -> d = seen l)) as Hdone.
  { intros σ' (tb' & -> & Hg). exists txn1, (put t tb' σ), (Ok tt), entries, (seen l). do 3 (split; [done|]).
    split; [right; by exists k|]. split; [right; split; [done|by exists tb']|done]. }
  destruct (_ && _) eqn:Hcase.
  - apply andb_true_iff in Hcase as [_ H0%Nat.eqb_eq]. unfold lift. destruct (FlushBlocks l) as [u'|ex].
    + destruct (merge_rows tid l tb t σ Ht Hloc Hfits Hok H0) as (tb' & -> & Hg). apply Hdone. by exists tb'.
    + exists txn1, σ, (Throw ex), entries, []. do 3 (split; [done|]). split; [right; by exists k|]. by split; [left|].
  - destruct Hsame as (S1 & S2 & S3). unfold get.
    destruct (insert_rows tid l tb t σ txn1 Ht Hloc Hfits Hok) as (tb' & -> & Hg); [congruence| |].
    { unfold transaction_data. by rewrite S1, S2. }
    apply Hdone. by exists tb'.
Qed.

(** Tables with local storage that can be moved into them. *)
Definition movable (tid : Z) σ (s : LocalStorage.Manager C) : Prop :=
  forall t l, (t, l) ∈ s -> exists tb, tables σ !! t = Some tb /\ table_ok (rows_of tb) /\ local_ok tid l /\ fits tb l.

(** The entry is the append at the end of table [t]. *)
Definition append_of (r : result unit) σ (data : nat -> list R) e : Prop :=
  exists t tb k, e = TransactionState.AppendEntry t (DataTable.mkAppendInfo (total_rows (rows_of tb)) k)
  /\ tables σ !! t = Some tb /\ (r = Ok tt -> data t <> []) /\ (data t <> [] -> k = length (data t)).

Definition grown (tid : Z) σ σ' (data : nat -> list R) t : Prop :=
  data t = [] /\ tables σ' !! t = tables σ !! t
  \/ data t <> [] /\ exists tb tb', tables σ !! t = Some tb /\ tables σ' !! t = Some tb' /\ grown_table tid tb tb' (data t).

(** What flushing the storages [s] has done when it ended with [r]: the entries logged and the rows
    added to each table. *)
Record flushed (tid : Z) s txn σ es txn' σ' r entries (data : nat -> list R) : Prop := {
  fl_txn : same_txn txn txn';
  fl_log : logged txn' (es ++ entries);
  fl_entries : Forall (append_of r σ data) entries;
  fl_tables : forall t a, TransactionState.AppendEntry t a ∈ entries -> t ∈ s.*1;
  fl_pairwise : TransactionState.pairwise entries;
  fl_named : forall t, data t <> [] -> exists a, TransactionState.AppendEntry t a ∈ entries;
  fl_rest : updates σ' = updates σ /\ catalog σ' = catalog σ;
  fl_grown : forall t, grown tid σ σ' data t;
  fl_done : r = Ok tt -> forall t, data t = match LocalStorage.GetStorage t s with Some l => local_rows l | None => [] end
}.

Lemma Get_not_in t (s : LocalStorage.Manager C) : t ∉ s.*1 -> LocalStorage.GetStorage t s = None.
Proof.
  induction s as [|[t' l] s IH]; [done|]. cbn [fmap list_fmap LocalStorage.GetStorage fst]. intros [H1 H2]%not_elem_of_cons.
  rewrite decide_False by done. by apply IH.
Qed.

(** The flush of one table as such a flush. *)
Lemma Flush_flushed tid t l txn σ es :
  logged txn es -> transaction_id txn = tid -> RowVersionManager.proper (transaction_data txn) -> movable tid σ [(t, l)] ->
  exists txn' σ' r entries data, Flush t l (txn, σ) = ((txn', σ'), r)
  /\ flushed tid [(t, l)] txn σ es txn' σ' r entries data /\ forall t', t' <> t -> data t' = [].
Proof.
  intros Hl Htid HT Hm. destruct (Hm t l) as (tb & Ht & Hok & Hloc & Hfits); [by left|].
  destruct (move_storage_spec tid t l txn σ es tb Hl Htid HT Ht Hok Hloc Hfits) as (txn' & σ' & r & entries & d & E & H1 & H2 & H3 & H4 & H5).
  exists txn', σ', r, entries, (fun t' => if decide (t' = t) then d else []). split; [done|]. split; [|intros t' Hn; by rewrite decide_False].
  split; [done|done|..].
  - destruct H3 as [[-> _]|(k & -> & H6 & H7)]; [done|]. apply Forall_singleton. exists t, tb, k. by rewrite decide_True.
  - intros t' a Hin. destruct H3 as [[-> _]|(k & -> & _)]; [by apply not_elem_of_nil in Hin|].
    apply list_elem_of_singleton in Hin as [= -> _]. by left.
  - by destruct H3 as [[-> _]|(k & -> & _)].
  - intros t' Hd. case_decide as Ht'; [|done]. subst t'. destruct H3 as [[_ ->]|(k & -> & _)]; [done|]. eexists. by left.
  - by destruct H4 as [[_ ->]|(_ & tb' & _ & ->)].
  - intros t'. unfold grown. case_decide as Ht'.
    + subst t'. destruct H4 as [[-> ->]|(Hne & tb' & Hg & ->)]; [by left|]. right. split; [done|]. exists tb, tb'.
      split; [done|]. split; [apply put_lookup|done].
    + left. split; [done|]. destruct H4 as [[_ ->]|(_ & tb' & _ & ->)]; [done|]. by apply lookup_insert_ne.
  - intros Hr t'. cbn [LocalStorage.GetStorage]. destruct (decide (t' = t)) as [->|Hn].
    + rewrite (decide_True (P := t = t)) by done. by apply H5.
    + by rewrite (decide_False (P := t = t')) by done.
Qed.

Lemma flush_entries_spec tid s : forall txn σ es,
  logged txn es -> transaction_id txn = tid -> RowVersionManager.proper (transaction_data txn) -> NoDup s.*1 -> movable tid σ s ->
  exists txn' σ' r entries data, flush_entries s (txn, σ) = ((txn', σ'), r)
  /\ flushed tid s txn σ es txn' σ' r entries data.
Proof.
  induction s as [|[t l] s IH]; intros txn σ es Hl Htid HT Hnd Hm.
  { exists txn, σ, (Ok tt), [], (fun _ => []). split; [done|].
    split; try done; [by rewrite app_nil_r|by intros t a Hin%not_elem_of_nil|by left]. }
  cbn [fmap list_fmap fst] in Hnd. apply NoDup_cons in Hnd as [Hnot Hnd].
  destruct (Flush_flushed tid t l txn σ es Hl Htid HT) as (txn1 & σ1 & r1 & e1 & d1 & E1 & F1 & Hout).
  { intros t' l' Hin. apply Hm. apply list_elem_of_singleton in Hin as ->. by left. }
  cbn [flush_entries]. unfold mbind, ST_bind. rewrite E1. pose proof F1 as [A1 A2 A3 A4 A5 A6 A7 A8 A9].
  destruct r1 as [[]|ex].
  2:{ exists txn1, σ1, (Throw ex), e1, d1. split; [done|]. split; try done.
      intros t' a Hin. specialize (A4 t' a Hin). apply list_elem_of_singleton in A4 as ->. by left. }
  assert (forall t', t' <> t -> tables σ1 !! t' = tables σ !! t') as Hsame.
  { intros t' Hn. destruct (A8 t') as [[_ H]|[H _]]; [done|]. by rewrite Hout in H. }
  assert (forall t', t' ∈ s.*1 -> t' <> t) as Hne by (by intros t' Hin ->).
  destruct (IH txn1 σ1 (es ++ e1)) as (txn2 & σ2 & r2 & e2 & d2 & E2 & [B1 B2 B3 B4 B5 B6 B7 B8 B9]); [done| | |done| |].
  { destruct A1 as (_ & -> & _). done. }
  { destruct A1 as (S1 & S2 & _). unfold transaction_data. by rewrite S1, S2. }
  { intros t' l' Hin. rewrite Hsame; [|by apply Hne, list_elem_of_fmap; exists (t', l')]. apply Hm. by right. }
  assert (d2 t = []) as Hd2.
  { destruct (d2 t) eqn:Ed; [done|]. destruct (B6 t) as [a Ha]; [by rewrite Ed|]. exfalso. by apply Hnot, (B4 t a). }
  set (data := fun t' => if decide (t' = t) then d1 t else d2 t').
  assert (data t = d1 t) as Hdt by (unfold data; by rewrite decide_True).
  assert (forall t', t' <> t -> data t' = d2 t') as Hdn by (intros t' Hn; unfold data; by rewrite decide_False).
  exists txn2, σ2, r2, (e1 ++ e2), data. split; [done|]. split.
  - by eapply same_txn_trans.
  - by rewrite app_assoc.
  - apply Forall_app. split.
    + eapply Forall_impl; [exact A3|]. intros e (t' & tb & k & -> & H1 & H2 & H3). exists t', tb, k. split; [done|]. split; [done|].
      destruct (decide (t' = t)) as [->|Hn]; [rewrite Hdt; split; [by intros _; apply H2|done]|].
      exfalso. by apply H2, Hout.
    + apply Forall_forall. intros e He. destruct (proj1 (Forall_forall _ _) B3 e He) as (t' & tb & k & -> & H1 & H2 & H3).
      assert (t' <> t) as Hn by (apply Hne; by eapply B4). exists t', tb, k. split; [done|]. rewrite <- Hsame by done.
      rewrite Hdn by done. done.
  - intros t' a [Hin|Hin]%elem_of_app; [|right; by apply (B4 t' a)].
    specialize (A4 t' a Hin). apply list_elem_of_singleton in A4 as ->. by left.
  - apply TransactionState.pairwise_app. split; [done|]. split; [done|]. apply Forall_forall. intros e He. apply Forall_forall.
    intros e' He'. destruct (proj1 (Forall_forall _ _) A3 e He) as (t1 & tb1 & k1 & -> & _).
    destruct (proj1 (Forall_forall _ _) B3 e' He') as (t2 & tb2 & k2 & -> & _).
    apply A4, list_elem_of_singleton in He as ->. apply B4, Hne in He'. exact (not_eq_sym He').
  - intros t' Hd. destruct (decide (t' = t)) as [->|Hn].
    + rewrite Hdt in Hd. destruct (A6 t Hd) as [a Ha]. exists a. apply elem_of_app. by left.
    + rewrite Hdn in Hd by done. destruct (B6 t' Hd) as [a Ha]. exists a. apply elem_of_app. by right.
  - destruct A7 as [-> ->] in B7 |- *. done.
  - intros t'. unfold grown. destruct (decide (t' = t)) as [->|Hn].
    + rewrite Hdt. destruct (B8 t) as [[_ ->]|[H _]]; [apply A8|done].
    + rewrite Hdn, <- Hsame by done. apply B8.
  - intros Hr t'. cbn [LocalStorage.GetStorage]. destruct (decide (t' = t)) as [->|Hn].
    + rewrite Hdt, (decide_True (P := t = t)) by done. rewrite (A9 eq_refl t). cbn [LocalStorage.GetStorage].
      by rewrite decide_True.
    + rewrite Hdn, (decide_False (P := t = t')) by done. by apply B9.
Qed.

End transaction.
End DuckTransaction.
