(* ===== verification/CommitOutcome.v ===== *)
(** * What a commit or a rollback leaves

    The theorems about the transactions of DuckTransaction.v.  [ready] describes a running
    transaction: the undo buffer holds its entries, what they say holds in the store, the local storage
    can be moved to the tables, and no table has rows of the transaction yet.  From such a state
    [CommitTransaction] either ends in [committed], with all changes of the transaction under its
    commit id, or in [rolled_back], with none of them, whatever fails in between.  The theorems on
    scans say what this means for other transactions. *)

From stdpp Require Import gmap.
From S2P Require Import Prelude ChunkInfo RowVersionManager SegmentTree UpdateSegment RowGroup RowGroupCollection.
From S2P Require Import DataTable TableScan LocalStorage UndoBuffer TransactionState DuckTransaction.

Module CommitOutcome.

Abbreviation NOT_DELETED_ID := ChunkInfo.NOT_DELETED_ID.
Abbreviation Info := TransactionState.Info.
Abbreviation AppendEntry := TransactionState.AppendEntry.
Abbreviation DeleteEntry := TransactionState.DeleteEntry.
Abbreviation UpdateEntry := TransactionState.UpdateEntry.
Abbreviation CatalogInfo := TransactionState.CatalogInfo.
Abbreviation Running := TransactionState.Running.
Abbreviation Committed := TransactionState.Committed.
Abbreviation Gone := TransactionState.Gone.
Abbreviation tables := TransactionState.tables.
Abbreviation updates := TransactionState.updates.
Abbreviation catalog := TransactionState.catalog.
Abbreviation rows_of := DataTable.rows_of.
Abbreviation row_ids := RowGroupCollection.row_ids.
Abbreviation total_rows := RowGroupCollection.total_rows.
Abbreviation undoable := TransactionState.undoable.
Abbreviation reverted := TransactionState.reverted.
Abbreviation pairwise := TransactionState.pairwise.
Abbreviation transaction_id := DuckTransaction.transaction_id.
Abbreviation storage := DuckTransaction.storage.

Section outcome.
Context {R C T X K : Type} {columns_of : RowGroup.Columns R C} {scan_of : TableScan.ScanColumns R C}
  {catalog_of : TransactionState.Catalog K}.
Context {contents : C -> list R} {column_start : C -> nat} {laws : RowGroup.ColumnLaws contents column_start}
  {scan_laws : TableScan.ScanLaws contents}.
Context {timestamp : K -> nat -> option Z} {catalog_laws : TransactionState.CatalogLaws timestamp}.
Context (block_size : nat) (buffer_allocate : nat -> result (list Z)).
Context (FlushBlocks : LocalStorage.LocalTableStorage C -> result unit).
Context (MAX_ROW_ID row_group_size : nat) (tid cid : Z).
Hypothesis allocate_length : forall n bytes, buffer_allocate n = Ok bytes -> length bytes = n.
Hypothesis group_size : (0 < row_group_size)%nat /\ (row_group_size mod STANDARD_VECTOR_SIZE = 0)%nat.
Hypothesis tid_range : tid <> 0 /\ tid <> NOT_DELETED_ID.
Hypothesis cid_range : cid <> 0 /\ cid <> NOT_DELETED_ID.

Abbreviation store := (TransactionState.Store C T X K).
Abbreviation logged := (DuckTransaction.logged block_size buffer_allocate).
Abbreviation rows := (RowGroupCollection.rows (contents := contents)).
Abbreviation table_ok := (DataTable.table_ok (contents := contents) (column_start := column_start)).
Abbreviation appended := (DataTable.appended (contents := contents)).
Abbreviation store_ok := (TransactionState.store_ok (contents := contents) (column_start := column_start)).
Abbreviation entry_in := (TransactionState.entry_in (timestamp := timestamp) tid cid).
Abbreviation entry_on := (TransactionState.entry_on tid cid).
Abbreviation movable := (DuckTransaction.movable MAX_ROW_ID row_group_size (contents := contents) (column_start := column_start) tid).
Abbreviation flushed := (DuckTransaction.flushed block_size buffer_allocate MAX_ROW_ID (contents := contents) (column_start := column_start) tid).
Abbreviation local_rows := (DuckTransaction.local_rows MAX_ROW_ID (contents := contents)).
Abbreviation tables_frame := (TransactionState.tables_frame (contents := contents)).
Abbreviation catalog_frame := (TransactionState.catalog_frame (timestamp := timestamp)).
Implicit Types (txn : DuckTransaction.t C) (σ : store) (e : Info) (es entries : list Info) (tb : DataTable.t C)
  (l : LocalStorage.LocalTableStorage C).

(** A running transaction with the entries [es] in its undo buffer. *)
Record ready txn σ es : Prop := {
  y_txn : transaction_id txn = tid;
  y_proper : RowVersionManager.proper (DuckTransaction.transaction_data txn);
  y_logged : logged txn es;
  y_store : store_ok σ;
  y_pairwise : pairwise es;
  y_running : Forall (entry_in Running σ) es;
  y_no_append : forall t a, AppendEntry t a ∉ es;
  y_fresh : forall t tb row, tables σ !! t = Some tb -> (row_ids (rows_of tb) row).1 <> tid /\ (row_ids (rows_of tb) row).1 <> cid;
  y_storage : NoDup (storage txn).*1;
  y_movable : movable σ (storage txn)
}.

(** The rows that the transaction adds to a table. *)
Definition added txn (t : nat) : list R :=
  match LocalStorage.GetStorage t (storage txn) with Some l => local_rows l | None => [] end.

(** The row is among those that the entries delete. *)
Definition deletes es (t row : nat) : bool :=
  existsb (fun e => match e with
                    | TransactionState.DeleteEntry t' d => bool_decide (t' = t) && bool_decide (row ∈ DataTable.named d)
                    | _ => false
                    end) es.

Lemma deletes_spec es t row : deletes es t row = true <-> TransactionState.named_in es t row.
Proof.
  unfold deletes, TransactionState.named_in. rewrite existsb_exists. split.
  - intros (e & Hin & He). destruct e as [c|t' a|t' d|t' s p|q|q]; try done.
    apply andb_true_iff in He as [->%bool_decide_eq_true Hr%bool_decide_eq_true]. exists d. by rewrite list_elem_of_In.
  - intros (d & Hin & Hr). exists (DeleteEntry t d). split; [by apply list_elem_of_In|].
    by rewrite !bool_decide_eq_true_2.
Qed.

(** ** The two outcomes *)

(** The table after a commit that added the rows [d]. *)
Record committed_table es (t : nat) tb tb' (d : list R) : Prop := {
  c_version : DataTable.version tb' = DataTable.version tb;
  c_ok : table_ok (rows_of tb');
  c_rows : rows (rows_of tb') = rows (rows_of tb) ++ d;
  c_total : total_rows (rows_of tb') = (total_rows (rows_of tb) + length d)%nat;
  c_old : forall row, (row < total_rows (rows_of tb))%nat ->
    row_ids (rows_of tb') row = ((row_ids (rows_of tb) row).1, if deletes es t row then cid else (row_ids (rows_of tb) row).2);
  c_new : forall row, (total_rows (rows_of tb) <= row < total_rows (rows_of tb'))%nat ->
    row_ids (rows_of tb') row = (cid, NOT_DELETED_ID)
}.

Record committed txn es σ σ' : Prop := {
  m_tables : forall t tb, tables σ !! t = Some tb ->
    exists tb', tables σ' !! t = Some tb' /\ committed_table es t tb tb' (added txn t);
  m_updates : TransactionState.updates_frame es σ σ';
  m_update : forall t s p, UpdateEntry t s p ∈ es ->
    exists u, updates σ' !! s = Some u /\ TransactionState.version_at u p = Some cid;
  m_catalog : catalog_frame es σ σ';
  m_entry : forall c, CatalogInfo c ∈ es -> timestamp (catalog σ') c = Some cid
}.

(** The table after a rollback: the deletions are taken back, too. *)
Record restored_table es (t : nat) tb tb' : Prop := {
  b_version : DataTable.version tb' = DataTable.version tb;
  b_ok : table_ok (rows_of tb');
  b_rows : rows (rows_of tb') = rows (rows_of tb);
  b_total : total_rows (rows_of tb') = total_rows (rows_of tb);
  b_ids : forall row, (row < total_rows (rows_of tb))%nat ->
    row_ids (rows_of tb') row
    = ((row_ids (rows_of tb) row).1, if deletes es t row then NOT_DELETED_ID else (row_ids (rows_of tb) row).2)
}.

Record rolled_back es σ σ' : Prop := {
  k_tables : forall t tb, tables σ !! t = Some tb -> exists tb', tables σ' !! t = Some tb' /\ restored_table es t tb tb';
  k_updates : updates σ' = TransactionState.rollback_updates (rev es) (updates σ);
  k_catalog : catalog_frame es σ σ';
  k_entry : forall c, CatalogInfo c ∈ es -> timestamp (catalog σ') c = None
}.

Lemma table_total m : table_ok m -> total_rows m = length (rows m).
Proof. intros [[_ _ _ Ht _] _ _ _ _]. exact Ht. Qed.

Definition append_only e : Prop := exists t a, e = AppendEntry t a.

(** ** The functions *)

Lemma all_updates_back es' σ1 σ2 :
  TransactionState.updates_frame es' σ1 σ2 ->
  (forall t s p, UpdateEntry t s p ∈ es' -> entry_in Running σ1 (UpdateEntry t s p) /\ entry_in Running σ2 (UpdateEntry t s p)) ->
  updates σ2 = updates σ1.
Proof.
  intros Hf Hv. apply map_eq. intros s. specialize (Hf s).
  destruct (updates σ1 !! s) as [u1|] eqn:E1, (updates σ2 !! s) as [u2|] eqn:E2; try done. f_equal.
  destruct u1 as [a1 h1 r1 s1], u2 as [a2 h2 r2 s2]. cbn in Hf. destruct Hf as (-> & -> & -> & Hq). f_equal.
  apply map_eq. intros q. destruct (Hq q) as [H1 H2].
  set (f := fun e => match e with TransactionState.UpdateEntry _ s' q' => (s' =? s)%nat && (q' =? q)%nat | _ => false end).
  destruct (existsb f es') eqn:Ef.
  2:{ apply H2. intros t Hin. assert (existsb f es' = true) as Ht; [|by rewrite Ht in Ef].
      apply existsb_exists. exists (UpdateEntry t s q). split; [by apply list_elem_of_In|]. cbn. by rewrite !Nat.eqb_refl. }
  assert (exists t, UpdateEntry t s q ∈ es') as [t Hin].
  { apply existsb_exists in Ef as (e & Hin & He). destruct e as [c|t a|t d|t s' p|c|c]; try done.
    apply andb_true_iff in He as [->%Nat.eqb_eq ->%Nat.eqb_eq]. exists t. by apply list_elem_of_In. }
  destruct (Hv t s q Hin) as [(u & Hu & i & Hi & Hvi) (u' & Hu' & i' & Hi' & Hvi')].
  rewrite E1 in Hu. injection Hu as <-. rewrite E2 in Hu'. injection Hu' as <-. cbn in Hi, Hi'. rewrite Hi, Hi' in H1 |- *.
  destruct i as [b1 v1 c1 d1 e1 f1], i' as [b2 v2 c2 d2 e2 f2]. cbn in *. unfold UpdateSegment.set_version in H1. cbn in H1.
  injection H1 as -> -> -> -> ->. by subst.
Qed.

(** A state in which all entries of the transaction can be rolled back. *)
Record all_undoable es' σ1 σ2 : Prop := {
  u_store : store_ok σ2;
  u_entries : Forall (fun e => exists st, undoable st e /\ entry_in st σ2 e) es';
  u_tables : tables_frame es' σ1 σ2;
  u_catalog : catalog_frame es' σ1 σ2;
  u_updates : updates σ2 = updates σ1
}.

Lemma undoable_update st e : undoable st e -> (forall t a, e <> AppendEntry t a) -> st = Running.
Proof. intros [H|H] Hne; [done|]. destruct e as [c|t a|t d|t s p|q|q]; try done. by destruct (Hne t a). Qed.

(** Reverting the first entries [l] when the others, [l'], were never committed. *)
Lemma revert_first (l l' : list Info) txn σ1 σ2 :
  let es' := l ++ l' in
  transaction_id txn = tid -> store_ok σ2 -> pairwise es' ->
  (forall t s p, UpdateEntry t s p ∈ es' -> entry_in Running σ1 (UpdateEntry t s p)) ->
  Forall (fun e => exists st, TransactionState.revertible st e /\ entry_in st σ2 e) l ->
  Forall (fun e => exists st, undoable st e /\ entry_in st σ2 e) l' ->
  tables_frame es' σ1 σ2 -> catalog_frame es' σ1 σ2 -> TransactionState.updates_frame es' σ1 σ2 ->
  exists σ3, TransactionState.run_entries (TransactionState.RevertCommit (transaction_id txn)) l σ2 = (σ3, Ok tt)
  /\ all_undoable es' σ1 σ3.
Proof.
  intros es' Htid Hok Hpw Hrun Hl Hl' Ht Hc Hu. pose proof Hpw as (Hpl & _ & Hcross)%TransactionState.pairwise_app.
  destruct (TransactionState.revert_entries tid cid es' tid_range cid_range l σ2
              (contents := contents) (column_start := column_start) (timestamp := timestamp)) as (σ3 & E & V1 & V2 & V3 & V4 & V5 & V6);
    [apply Forall_forall; intros e He; apply elem_of_app; by left|done|done|done|].
  exists σ3. rewrite Htid. split; [done|].
  assert (Forall (fun e => exists st, undoable st e /\ entry_in st σ3 e) es') as Hall.
  { apply Forall_app. rewrite Forall_forall in V2, Hl', Hcross. split; apply Forall_forall; intros e He.
    - exists (reverted e). split; [by right|by apply V2].
    - destruct (Hl' e He) as (st & H1 & H2). exists st. split; [done|]. apply V6; [|done].
      apply Forall_forall. intros e' He'. apply TransactionState.disjoint_sym.
      by apply (proj1 (Forall_forall _ _) (Hcross e' He')). }
  split; [done|done|by eapply TransactionState.tables_frame_trans| |].
  - intros c Hcc. by rewrite V4, Hc.
  - apply (all_updates_back es'); [by eapply TransactionState.updates_frame_trans|]. intros t s p Hin.
    split; [by apply Hrun|]. rewrite Forall_forall in Hall. destruct (Hall _ Hin) as (st & H1 & H2).
    by rewrite <- (undoable_update st _ H1).
Qed.

(** ** After the local storage has been moved *)

Section phase1.
Context (txn : DuckTransaction.t C) (σ : store) (es : list Info) (Hready : ready txn σ es).
Context (txn0 txn1 : DuckTransaction.t C) (σ1 : store) (r : result unit) (entries : list Info) (data : nat -> list R).
Context (Hflushed : flushed (storage txn) txn0 σ es txn1 σ1 r entries data).
Abbreviation all := (es ++ entries).

(** Each table with the rows added to it. *)
Lemma flushed_table t tb :
  tables σ !! t = Some tb ->
  exists tb1, tables σ1 !! t = Some tb1 /\ DataTable.version tb1 = DataTable.version tb /\ table_ok (rows_of tb1)
  /\ DataTable.kept (rows_of tb) (rows_of tb1)
  /\ appended (fun _ => (tid, NOT_DELETED_ID)) (rows_of tb) (rows_of tb1) (data t).
Proof.
  intros Ht. pose proof Hflushed as [_ _ _ _ _ _ _ L8 _].
  destruct (L8 t) as [[Hd Hs]|(Hd & tb0 & tb1 & Ht0 & Ht1 & [G1 G2 G3 G4])].
  - exists tb. rewrite Hs, Hd. split; [done|]. split; [done|]. split; [by apply (y_store _ _ _ Hready t)|].
    split; [apply DataTable.kept_Forall2; [done|]; apply Forall_Forall2_diag, Forall_true; intros g; split; [apply RowGroup.keeps_refl|done]|].
    split; [simpl; lia|]. split; [by rewrite app_nil_r|]. intros row. by rewrite decide_False by (simpl; lia).
  - rewrite Ht in Ht0. injection Ht0 as <-. by exists tb1.
Qed.

Lemma flushed_store : store_ok σ1.
Proof.
  intros t tb1 Ht1. pose proof Hflushed as [_ _ _ _ _ _ _ L8 _].
  destruct (L8 t) as [[Hd Hs]|(Hd & tb0 & tb2 & Ht0 & Ht2 & [G1 G2 G3 G4])].
  - rewrite Hs in Ht1. by apply (y_store _ _ _ Hready t).
  - rewrite Ht1 in Ht2. by injection Ht2 as <-.
Qed.

Lemma flushed_low t tb tb1 row :
  tables σ !! t = Some tb -> tables σ1 !! t = Some tb1 -> (row < total_rows (rows_of tb))%nat ->
  (row < total_rows (rows_of tb1))%nat /\ row_ids (rows_of tb1) row = row_ids (rows_of tb) row.
Proof.
  intros Ht Ht1 Hrow. destruct (flushed_table t tb Ht) as (tb2 & Ht2 & _ & _ & _ & A1 & _ & A3).
  rewrite Ht1 in Ht2. injection Ht2 as <-. rewrite A1, A3, decide_False by lia. split; [lia|done].
Qed.

(** The entries that were there say what they said. *)
Lemma flushed_old e : e ∈ es -> entry_in Running σ1 e.
Proof.
  intros He. pose proof Hflushed as [_ _ _ _ _ _ [L7 L7'] _ _]. pose proof Hready as [_ _ _ Y4 _ Y6 Y7 _ _ _].
  pose proof (proj1 (Forall_forall _ _) Y6 e He) as Hin.
  destruct e as [c|t a|t d|t s p|q|q]; simpl in *; rewrite ?L7, ?L7'; try done; [by destruct (Y7 t a)|].
  destruct Hin as (tb & Ht & Hin). destruct (flushed_table t tb Ht) as (tb1 & Ht1 & _ & _ & Hk & _).
  exists tb1. split; [done|]. apply (TransactionState.other_delete tid cid Running t d (rows_of tb)
    (contents := contents) (column_start := column_start)); [by apply (Y4 t)|done|done|].
  intros row Hrow. destruct (DataTable.delete_ok_named _ _ d row (Y4 t tb Ht) Hin Hrow) as [Hlt _].
  by destruct (flushed_low t tb tb1 row Ht Ht1 Hlt) as [H1 ->].
Qed.

(** The new entries: the append is there, or nothing of it. *)
Lemma flushed_new e :
  e ∈ entries -> exists st, undoable st e /\ entry_in st σ1 e /\ (r = Ok tt -> st = Running).
Proof.
  intros He. pose proof Hflushed as [_ _ L3 _ _ _ _ _ _]. pose proof Hready as [_ _ _ _ _ _ _ Y8 _ _].
  destruct (proj1 (Forall_forall _ _) L3 e He) as (t & tb & k & -> & Ht & Hdata & Hk).
  destruct (flushed_table t tb Ht) as (tb1 & Ht1 & _ & _ & _ & A1 & A2 & A3).
  assert (forall row, (row < total_rows (rows_of tb))%nat ->
    (row_ids (rows_of tb1) row).1 <> tid /\ (row_ids (rows_of tb1) row).1 <> cid) as Hbase.
  { intros row Hrow. destruct (flushed_low t tb tb1 row Ht Ht1 Hrow) as [_ ->]. by apply (Y8 t). }
  destruct (data t) as [|x d] eqn:Ed.
  - exists Gone. split; [by right|]. split; [|intros Hr; by destruct (Hdata Hr)].
    exists tb1. split; [done|]. split; [exact Hbase|]. simpl in *. lia.
  - exists Running. split; [by left|]. split; [|done]. exists tb1. split; [done|]. split; [exact Hbase|].
    rewrite <- Ed in *. assert (k = length (data t)) as -> by (apply Hk; by rewrite Ed).
    assert (0 < length (data t))%nat as Hpos by (rewrite Ed; simpl; lia).
    cbn [TransactionState.id_of]. split; [|cbn; lia]. cbn [DataTable.start_row]. split; [lia|]. split.
    + intros row Hrow. rewrite A3. case_decide as Hd; [split; [lia|done]|].
      split; [|lia]. intros E. destruct (Y8 t tb row Ht) as [H _]. by rewrite E in H.
    + intros row Hrow. rewrite A3, decide_True by lia. done.
Qed.

Lemma flushed_pairwise : pairwise all.
Proof.
  pose proof Hflushed as [_ _ L3 _ L5 _ _ _ _]. pose proof Hready as [_ _ _ Y4 Y5 Y6 Y7 _ _ _].
  apply TransactionState.pairwise_app. split; [done|]. split; [done|]. apply Forall_forall. intros e He. apply Forall_forall.
  intros e' He'. destruct (proj1 (Forall_forall _ _) L3 e' He') as (t & tb & k & -> & Ht & _).
  pose proof (proj1 (Forall_forall _ _) Y6 e He) as Hin.
  destruct e as [c|t' a|t' d|t' s p|q|q]; try done; [by destruct (Y7 t' a)|]. cbn [TransactionState.disjoint].
  destruct (decide (t = t')) as [->|]; [|by left]. right. intros row Hrow. destruct Hin as (tb0 & Ht0 & Hin).
  rewrite Ht in Ht0. injection Ht0 as <-. by destruct (DataTable.delete_ok_named _ _ d row (Y4 t' tb Ht) Hin Hrow).
Qed.

Lemma flushed_undoable : Forall (fun e => exists st, undoable st e /\ entry_in st σ1 e) all.
Proof.
  apply Forall_forall. intros e [He|He]%elem_of_app.
  - exists Running. split; [by left|by apply flushed_old].
  - destruct (flushed_new e He) as (st & H1 & H2 & _). by exists st.
Qed.

Lemma flushed_running : r = Ok tt -> Forall (entry_in Running σ1) all.
Proof.
  intros Hr. apply Forall_forall. intros e [He|He]%elem_of_app; [by apply flushed_old|].
  destruct (flushed_new e He) as (st & _ & H & Hst). by rewrite <- (Hst Hr).
Qed.

(** The rows that were there are not in an append of the transaction. *)
Lemma old_row t tb row : tables σ !! t = Some tb -> (row < total_rows (rows_of tb))%nat -> ~ TransactionState.covered all t row.
Proof.
  intros Ht Hrow (a & [Ha|Ha]%elem_of_app & Hle); [by apply (y_no_append _ _ _ Hready) in Ha|].
  pose proof Hflushed as [_ _ L3 _ _ _ _ _ _].
  destruct (proj1 (Forall_forall _ _) L3 _ Ha) as (t' & tb' & k & [= -> ->] & Ht' & _). rewrite Ht in Ht'. injection Ht' as <-.
  cbn [DataTable.start_row] in Hle. lia.
Qed.

(** The new entries delete nothing, and are no updates and no catalog entries. *)
Lemma only_appends e : (forall t a, e <> AppendEntry t a) -> e ∈ all -> e ∈ es.
Proof.
  intros Hne [He|He]%elem_of_app; [done|]. pose proof Hflushed as [_ _ L3 _ _ _ _ _ _].
  destruct (proj1 (Forall_forall _ _) L3 _ He) as (t & tb & k & -> & _). by destruct (Hne t (DataTable.mkAppendInfo (total_rows (rows_of tb)) k)).
Qed.

Lemma named_all t row : TransactionState.named_in all t row <-> TransactionState.named_in es t row.
Proof.
  split; intros (d & Hd & Hrow); exists d; (split; [|done]); [by apply only_appends|apply elem_of_app; by left].
Qed.

(** The version ids of the rows that were there, given the delete ids of the named ones. *)
Lemma old_ids st σ2 t tb tb1 tb2 row :
  tables σ !! t = Some tb -> tables σ1 !! t = Some tb1 -> tables σ2 !! t = Some tb2 ->
  TransactionState.rows_frame (contents := contents) all t (rows_of tb1) (rows_of tb2) ->
  (forall d, DeleteEntry t d ∈ es -> entry_in st σ2 (DeleteEntry t d)) -> (row < total_rows (rows_of tb))%nat ->
  row_ids (rows_of tb2) row
  = ((row_ids (rows_of tb) row).1,
     if deletes es t row then default NOT_DELETED_ID (TransactionState.id_of tid cid st) else (row_ids (rows_of tb) row).2).
Proof.
  intros Ht Ht1 Ht2 (_ & _ & Hframe) Hdel Hrow. destruct (flushed_low t tb tb1 row Ht Ht1 Hrow) as [_ E].
  destruct (Hframe row (old_row t tb row Ht Hrow)) as [H1 H2]. rewrite E in H1, H2.
  destruct (deletes es t row) eqn:Ed.
  - apply deletes_spec in Ed as (d & Hd & Hin). destruct (Hdel d Hd) as (tb' & Ht' & (_ & _ & Hids)).
    rewrite Ht2 in Ht'. injection Ht' as <-. specialize (Hids row Hin). destruct (row_ids (rows_of tb2) row). simpl in *. by subst.
  - assert (~ TransactionState.named_in all t row) as Hn.
    { rewrite named_all, <- deletes_spec. by rewrite Ed. }
    specialize (H2 Hn). destruct (row_ids (rows_of tb2) row), (row_ids (rows_of tb) row). simpl in *. by subst.
Qed.

(** All entries committed: the commit is complete. *)
Lemma committed_outcome σ2 :
  r = Ok tt -> store_ok σ2 -> Forall (entry_in Committed σ2) all -> tables_frame all σ1 σ2 -> catalog_frame all σ1 σ2 ->
  TransactionState.rows_same (contents := contents) σ1 σ2 -> TransactionState.updates_frame all σ1 σ2 -> committed txn es σ σ2.
Proof.
  intros Hr Hok Hall Htables Hcat Hrows Hupd. pose proof Hflushed as [_ _ L3 _ _ L6 [L7 L7'] _ L9].
  rewrite Forall_forall in Hall. assert (forall e, e ∈ es -> entry_in Committed σ2 e) as Hes.
  { intros e He. apply Hall, elem_of_app. by left. }
  split.
  - intros t tb Ht. destruct (flushed_table t tb Ht) as (tb1 & Ht1 & V1 & Hok1 & _ & A1 & A2 & _).
    destruct (Htables t tb1 Ht1) as (tb2 & Ht2 & V2 & Hframe). destruct (Hrows t tb1 Ht1) as (tb2' & Ht2' & Hr2).
    rewrite Ht2 in Ht2'. injection Ht2' as <-. exists tb2. split; [done|]. unfold added. rewrite <- (L9 Hr t).
    assert (total_rows (rows_of tb2) = (total_rows (rows_of tb) + length (data t))%nat) as Htot.
    { rewrite <- A1, !table_total, Hr2; [done|done|by apply (Hok t)]. }
    split; [congruence|by apply (Hok t)|congruence|done| |].
    + intros row Hrow. apply (old_ids Committed σ2 t tb tb1); try done. intros d Hd. by apply Hes.
    + intros row Hrow. destruct (L6 t) as [a Ha]; [intros E; rewrite E in Htot; simpl in Htot; lia|].
      destruct (proj1 (Forall_forall _ _) L3 _ Ha) as (t' & tb' & k & [= <- ->] & Ht' & _). rewrite Ht in Ht'. injection Ht' as <-.
      destruct (Hall _ (proj2 (elem_of_app _ _ _) (or_intror Ha))) as (tb2' & Ht2' & _ & ((_ & H1 & H2) & _)).
      rewrite Ht2 in Ht2'. injection Ht2' as <-. cbn [DataTable.start_row] in *.
      destruct (H1 row) as [_ H3]; [lia|]. specialize (H2 row Hrow). destruct (row_ids (rows_of tb2) row). simpl in *.
      subst. f_equal. apply H3. lia.
  - intros s. specialize (Hupd s). rewrite L7 in Hupd. destruct (updates σ !! s), (updates σ2 !! s); try done.
    destruct Hupd as (U1 & U2 & U3 & U4). do 3 (split; [done|]). intros q. destruct (U4 q) as [U5 U6]. split; [done|].
    intros Hq. apply U6. intros t1 He. by apply (Hq t1), only_appends.
  - intros t s p He. destruct (Hes _ He) as (u & Hu & i & Hi & Hv). exists u. split; [done|].
    unfold TransactionState.version_at. rewrite Hi. simpl. by rewrite Hv.
  - intros c Hc. rewrite Hcat; [by rewrite L7'|]. intros He. by apply Hc, only_appends.
  - intros c Hc. by apply (Hes (CatalogInfo c)).
Qed.

(** All entries gone: nothing of the transaction is left. *)
Lemma rolled_back_outcome σ2 :
  store_ok σ2 -> Forall (entry_in Gone σ2) all -> tables_frame all σ1 σ2 -> catalog_frame all σ1 σ2 ->
  updates σ2 = TransactionState.rollback_updates (rev all) (updates σ1) -> rolled_back es σ σ2.
Proof.
  intros Hok Hall Htables Hcat Hupd. pose proof Hflushed as [_ _ L3 _ _ L6 [L7 L7'] _ _].
  rewrite Forall_forall in Hall. assert (forall e, e ∈ es -> entry_in Gone σ2 e) as Hes.
  { intros e He. apply Hall, elem_of_app. by left. }
  split.
  - intros t tb Ht. destruct (flushed_table t tb Ht) as (tb1 & Ht1 & V1 & Hok1 & _ & A1 & A2 & _).
    destruct (Htables t tb1 Ht1) as (tb2 & Ht2 & V2 & Hframe). exists tb2. split; [done|].
    pose proof Hframe as (F1 & F2 & _). destruct (F2 (total_rows (rows_of tb))) as [F3 F4]; [|lia|].
    { intros a [Ha|Ha]%elem_of_app; [by apply (y_no_append _ _ _ Hready) in Ha|].
      destruct (proj1 (Forall_forall _ _) L3 _ Ha) as (t' & tb' & k & [= <- ->] & Ht' & _). rewrite Ht in Ht'.
      by injection Ht' as <-. }
    assert (total_rows (rows_of tb2) = total_rows (rows_of tb)) as Htot.
    { destruct (data t) as [|x d] eqn:Ed; [simpl in A1; lia|]. destruct (L6 t) as [a Ha]; [by rewrite Ed|].
      destruct (proj1 (Forall_forall _ _) L3 _ Ha) as (t' & tb' & k & [= <- ->] & Ht' & _). rewrite Ht in Ht'. injection Ht' as <-.
      destruct (Hall _ (proj2 (elem_of_app _ _ _) (or_intror Ha))) as (tb2' & Ht2' & _ & H).
      rewrite Ht2 in Ht2'. by injection Ht2' as <-. }
    pose proof (Hok t tb2 Ht2) as Hok2. split; [congruence|done| |done|].
    + rewrite <- (firstn_all (rows (rows_of tb2))), <- table_total, Htot, F3, A2 by done.
      rewrite table_total by (by apply (y_store _ _ _ Hready t)). by rewrite firstn_app, firstn_all, Nat.sub_diag, app_nil_r.
    + intros row Hrow. apply (old_ids Gone σ2 t tb tb1); try done. intros d Hd. by apply Hes.
  - rewrite Hupd, L7, rev_app_distr. unfold TransactionState.rollback_updates. rewrite fold_left_app. f_equal.
    assert (Forall (append_only) (rev entries)) as Hrev.
    { apply Forall_forall. intros e He%list_elem_of_In%in_rev%list_elem_of_In.
      destruct (proj1 (Forall_forall _ _) L3 _ He) as (t & tb & k & -> & _). by exists t, (DataTable.mkAppendInfo (total_rows (rows_of tb)) k). }
    clear - Hrev. induction Hrev as [|e l (t & a & ->) Hrev IH]; [done|]. exact IH.
  - intros c Hc. rewrite Hcat; [by rewrite L7'|]. intros He. by apply Hc, only_appends.
  - intros c Hc. by apply (Hes (CatalogInfo c)).
Qed.

(** The part of a commit after the local storage: all is committed, or can be rolled back. *)
Lemma commit_entries_outcome txn2 (flush : result unit) :
  r = Ok tt -> transaction_id txn2 = tid -> logged txn2 all ->
  let '((it, σ2), r2) := DuckTransaction.UndoCommit cid txn2 σ1 in
  match (match r2 with Ok _ => flush | Throw e => Throw e end) with
  | Ok _ => committed txn es σ σ2
  | Throw _ => exists σ3, DuckTransaction.UndoRevertCommit it txn2 σ2 = (σ3, Ok tt) /\ all_undoable all σ1 σ3
  end.
Proof.
  intros Hr Htid Hlog. pose proof (flushed_running Hr) as Hrun. pose proof flushed_pairwise as Hpw. pose proof flushed_store as Hok.
  assert (Forall (fun e => e ∈ all) all) as Hin by (by apply Forall_forall).
  assert (forall t s p, UpdateEntry t s p ∈ all -> entry_in Running σ1 (UpdateEntry t s p)) as Hupd.
  { intros t s p He. by apply (proj1 (Forall_forall _ _) Hrun). }
  pose proof (DuckTransaction.UndoCommit_run block_size buffer_allocate allocate_length cid txn2 all σ1 Hlog) as H.
  destruct (DuckTransaction.UndoCommit cid txn2 σ1) as [[it σ2] r2]. destruct H as [H1 H2]. specialize (H2 σ2).
  destruct r2 as [[]|ex].
  - pose proof (TransactionState.commit_entries tid cid all tid_range cid_range all σ1
      (contents := contents) (column_start := column_start) (timestamp := timestamp) Hin Hok Hpw Hrun) as H.
    rewrite <- H1 in H. destruct H as (C1 & C2 & C3 & C4 & [C5 C6] & _). destruct flush as [u|ex].
    + by apply committed_outcome.
    + rewrite H2. pose proof (revert_first all [] txn2 σ1 σ2) as H. rewrite app_nil_r in H. apply H; try done. clear H.
      eapply Forall_impl; [exact C2|]. intros e He. exists Committed. split; [by left|done].
  - destruct H2 as (l1 & e & l2 & σ0 & Hall & R1 & R2 & ->). rewrite Hall in Hpw, Hrun, Hin.
    pose proof Hpw as (P1 & [P2 P3] & P4)%TransactionState.pairwise_app. apply Forall_app in Hin as [In1 [In2 In3]%Forall_cons_1].
    apply Forall_app in Hrun as [Hrun1 [Hrun2 Hrun3]%Forall_cons_1].
    pose proof (TransactionState.commit_entries tid cid all tid_range cid_range l1 σ1
      (contents := contents) (column_start := column_start) (timestamp := timestamp)) as H. rewrite Hall, R1 in H.
    destruct (H In1 Hok P1 Hrun1) as (C1 & C2 & C3 & C4 & [_ C5] & C6). clear H.
    assert (forall e', e' ∈ e :: l2 -> entry_in Running σ0 e') as Hrest.
    { intros e' He'. apply C6.
      - apply Forall_forall. intros e1 He1. apply TransactionState.disjoint_sym. rewrite Forall_forall in P4.
        by apply (proj1 (Forall_forall _ _) (P4 e1 He1)).
      - apply elem_of_cons in He' as [->|He']; [done|]. by apply (proj1 (Forall_forall _ _) Hrun3). }
    pose proof (TransactionState.commit_entry_spec tid cid all tid_range cid_range e σ0
      (contents := contents) (column_start := column_start) (timestamp := timestamp)) as H. rewrite Hall, R2 in H.
    pose proof (H In2 C1 (Hrest e ltac:(by left))) as (U1 & U2 & U3). clear H.
    assert (forall st e', entry_in st σ0 e' -> entry_in st σ2 e') as Hsame by (intros st e'; by apply TransactionState.unchanged_in).
    assert (all = (l1 ++ [e]) ++ l2) as Hall' by (by rewrite <- app_assoc).
    rewrite Hall'. apply revert_first; rewrite <- ?Hall'; rewrite ?Hall; try done.
    + intros t tb Ht. apply (C1 t). by rewrite <- U1.
    + intros t s p He. apply Hupd. by rewrite Hall.
    + apply Forall_app. split; [|apply Forall_singleton].
      * eapply Forall_impl; [exact C2|]. intros e' He'. exists Committed. split; [by left|by apply Hsame].
      * exists Running. split; [by left|]. apply Hsame, Hrest. by left.
    + apply Forall_forall. intros e' He'. exists Running. split; [by left|]. apply Hsame, Hrest. by right.
    + intros t tb Ht. destruct (C3 t tb Ht) as (tb' & Ht' & V & F). exists tb'. by rewrite U1.
    + intros c Hc. by rewrite U3, C4.
    + intros s. rewrite U2. apply C5.
Qed.

(** The local storage was not moved completely: everything is reverted before the rollback. *)
Lemma revert_all_outcome txn2 end_state :
  transaction_id txn2 = tid -> logged txn2 all -> UndoBuffer.current end_state = None ->
  exists σ3, DuckTransaction.UndoRevertCommit end_state txn2 σ1 = (σ3, Ok tt) /\ all_undoable all σ1 σ3.
Proof.
  intros Htid Hlog Hnone. rewrite (DuckTransaction.UndoRevertCommit_all block_size buffer_allocate allocate_length txn2 all σ1 end_state Hlog Hnone).
  pose proof flushed_undoable as Hund. pose proof (revert_first all [] txn2 σ1 σ1) as H. rewrite app_nil_r in H.
  apply H; try done; clear H.
  - apply flushed_store.
  - apply flushed_pairwise.
  - intros t s p He. destruct (proj1 (Forall_forall _ _) Hund _ He) as (st & H1 & H2). by rewrite <- (undoable_update st _ H1).
  - eapply Forall_impl; [exact Hund|]. intros e (st & H1 & H2). exists st. split; [|done].
    destruct H1 as [->|H1]; [by left|by right].
  - apply TransactionState.tables_frame_refl.
  - apply TransactionState.updates_frame_refl.
Qed.

Lemma all_undoable_here : all_undoable all σ1 σ1.
Proof. split; [apply flushed_store|apply flushed_undoable|apply TransactionState.tables_frame_refl|done|done]. Qed.

Lemma rollback_outcome txn2 σ2 :
  logged txn2 all -> all_undoable all σ1 σ2 ->
  exists s, DuckTransaction.Rollback (txn2, σ2) = (s, None) /\ rolled_back es σ s.2.
Proof.
  intros Hlog [U1 U2 U3 U4 U5]. unfold DuckTransaction.Rollback, DuckTransaction.RollbackStorage, DuckTransaction.on_txn, modify.
  cbv beta iota. rewrite (DuckTransaction.UndoRollback_run block_size buffer_allocate allocate_length (DuckTransaction.with_storage [] txn2) all σ2 Hlog).
  destruct (TransactionState.rollback_entries tid cid all tid_range cid_range (rev all) σ2
              (contents := contents) (column_start := column_start) (timestamp := timestamp)) as (σ3 & -> & V1 & V2 & V3 & V4 & V5).
  - apply Forall_forall. intros e He%list_elem_of_In%in_rev. by apply list_elem_of_In.
  - done.
  - apply TransactionState.pairwise_rev, flushed_pairwise.
  - rewrite Forall_forall in U2 |- *. intros e He%list_elem_of_In%in_rev. by apply U2, list_elem_of_In.
  - eexists. split; [done|]. cbn [snd]. apply rolled_back_outcome; [done| | | |by rewrite V5, U5].
    + rewrite Forall_forall in V2 |- *. intros e He. apply V2. apply list_elem_of_In, in_rev. rewrite rev_involutive. by apply list_elem_of_In.
    + by eapply TransactionState.tables_frame_trans.
    + intros c Hc. by rewrite V4, U4.
Qed.

(** What [Commit] gives when the local storage has been moved: the outcome, or a state to roll back. *)
Definition commit_answer txn2 (x : (DuckTransaction.t C * store) * result (option exception)) : Prop :=
  match x with
  | ((_, σ3), Ok None) => committed txn es σ σ3
  | ((txn3, σ3), Ok (Some _)) => txn3 = txn2 /\ all_undoable all σ1 σ3
  | (_, Throw _) => False
  end.

Abbreviation CommitStorage := (DuckTransaction.CommitStorage block_size buffer_allocate FlushBlocks).
Abbreviation Commit := (DuckTransaction.Commit block_size buffer_allocate FlushBlocks).

Lemma Commit_answer commit_state txn2 s :
  DuckTransaction.ChangesMade (DuckTransaction.with_commit_id cid s.1) = true ->
  CommitStorage (DuckTransaction.with_commit_id cid s.1, s.2) = ((txn2, σ1), r) ->
  transaction_id txn2 = tid -> DuckTransaction.commit_id txn2 = cid -> logged txn2 all ->
  commit_answer txn2 (Commit commit_state cid s).
Proof.
  intros Hch Hst Htid Hcid Hlog. unfold DuckTransaction.Commit, DuckTransaction.TryCommit. cbn [fst snd]. rewrite Hch, Hst. cbn [negb].
  pose proof (commit_entries_outcome txn2 (default (Ok tt) commit_state)) as Hdone.
  destruct (revert_all_outcome txn2 UndoBuffer.initial_state Htid Hlog) as (σ0 & Hrev & Hall); [done|].
  clear Hflushed. destruct r as [[]|ex]; [|by rewrite Hrev].
  rewrite Hcid. specialize (Hdone eq_refl Htid Hlog). destruct (DuckTransaction.UndoCommit cid txn2 σ1) as [[it σ2] r2].
  destruct r2 as [[]|e2]; [|by destruct Hdone as (σ3 & -> & H)].
  destruct (default (Ok tt) commit_state) as [u|e2]; [done|]. by destruct Hdone as (σ3 & -> & H).
Qed.

End phase1.

(** ** Committing and rolling back a transaction *)

Abbreviation CommitStorage := (DuckTransaction.CommitStorage block_size buffer_allocate FlushBlocks).
Abbreviation Commit := (DuckTransaction.Commit block_size buffer_allocate FlushBlocks).
Abbreviation CommitTransaction := (DuckTransaction.CommitTransaction block_size buffer_allocate FlushBlocks).

Lemma CommitStorage_flushed txn txn' σ es :
  ready txn σ es -> DuckTransaction.start_time txn' = DuckTransaction.start_time txn -> transaction_id txn' = transaction_id txn ->
  storage txn' = storage txn -> logged txn' es ->
  exists txn1 σ1 r entries data, CommitStorage (txn', σ) = ((txn1, σ1), r)
  /\ flushed (storage txn) (DuckTransaction.with_storage [] txn') σ es txn1 σ1 r entries data.
Proof.
  intros [Y1 Y2 Y3 Y4 Y5 Y6 Y7 Y8 Y9 Y10] S1 S2 S3 Hlog.
  unfold DuckTransaction.CommitStorage, mbind, ST_bind, get, DuckTransaction.on_txn, modify. rewrite S3. cbn [LocalStorage.MoveEntries fst snd].
  apply (DuckTransaction.flush_entries_spec block_size buffer_allocate FlushBlocks allocate_length MAX_ROW_ID row_group_size
    group_size tid (storage txn) (contents := contents) (column_start := column_start)); try done.
  - cbn [DuckTransaction.with_storage DuckTransaction.transaction_id]. congruence.
  - unfold DuckTransaction.transaction_data in *. cbn. by rewrite S1, S2.
Qed.

(** Without changes there is nothing to log or to add. *)
Lemma no_changes txn es : logged txn es -> DuckTransaction.ChangesMade txn = false -> es = [] /\ storage txn = [].
Proof.
  intros (log & Hb & Hl) H. unfold DuckTransaction.ChangesMade in H. apply orb_false_iff in H as [H1 H2]. split.
  - destruct (UndoBuffer.built_repr block_size buffer_allocate allocate_length _ _ Hb) as (ess & Hr & <-).
    destruct (DuckTransaction.undo_buffer txn) as [|b m]; [|done]. apply Forall2_nil_inv_l in Hr as ->.
    by apply Forall2_nil_inv_l in Hl.
  - unfold LocalStorage.ChangesMade in H2. by destruct (storage txn).
Qed.

(** A transaction without changes. *)
Lemma nothing_committed txn σ : ready txn σ [] -> storage txn = [] -> committed txn [] σ σ.
Proof.
  intros Hready Hs. assert (flushed (storage txn) txn σ [] txn σ (Ok tt) [] (fun _ => [])) as Hf.
  { rewrite Hs. split; try done; [by apply Hready|by intros t a Hin%not_elem_of_nil|by left]. }
  apply (committed_outcome txn σ [] Hready txn txn σ (Ok tt) [] (fun _ => []) Hf σ); try done.
  - apply Hready.
  - apply TransactionState.tables_frame_refl.
  - by apply TransactionState.rows_same_refl.
  - apply TransactionState.updates_frame_refl.
Qed.

Lemma ready_commit_id txn σ es c : ready txn σ es -> ready (DuckTransaction.with_commit_id c txn) σ es.
Proof. intros [Y1 Y2 Y3 Y4 Y5 Y6 Y7 Y8 Y9 Y10]. by split. Qed.

(** Either outcome of a commit in memory; the rollback follows. *)
Definition answer txn es σ (x : (DuckTransaction.t C * store) * result (option exception)) : Prop :=
  match x with
  | ((_, σ'), Ok None) => committed txn es σ σ'
  | ((_, σ'), Ok (Some _)) => rolled_back es σ σ'
  | (_, Throw _) => False
  end.

Definition finish (x : (DuckTransaction.t C * store) * result (option exception))
    : (DuckTransaction.t C * store) * result (option exception) :=
  let '(s, error) := x in
  match error with
  | Ok (Some e) =>
      let '(s, rollback_error) := DuckTransaction.Rollback (DuckTransaction.with_commit_id 0 s.1, s.2) in
      match rollback_error with
      | Some _ => (s, Throw FatalException)
      | None => (s, Ok (Some e))
      end
  | r => (s, r)
  end.

Section finishing.
Context (txn txn0 txn1 : DuckTransaction.t C) (σ σ1 : store) (es entries : list Info) (r : result unit) (data : nat -> list R).
Context (Hready : ready txn σ es) (Hflushed : flushed (storage txn) txn0 σ es txn1 σ1 r entries data).

Lemma finish_rollback txn2 σ2 ex :
  logged txn2 (es ++ entries) -> all_undoable (es ++ entries) σ1 σ2 -> answer txn es σ (finish ((txn2, σ2), Ok (Some ex))).
Proof.
  intros Hlog Hu. unfold finish. cbn [fst snd].
  destruct (rollback_outcome txn σ es Hready txn0 txn1 σ1 r entries data Hflushed (DuckTransaction.with_commit_id 0 txn2) σ2)
    as ([txn3 σ3] & -> & H); done.
Qed.

Lemma finish_commit txn2 x :
  logged txn2 (es ++ entries) -> commit_answer txn σ es σ1 entries txn2 x -> answer txn es σ (finish x).
Proof.
  intros Hlog. destruct x as [[txn3 σ3] [[e|]|e]]; [|done|done]. intros [-> Hu]. by apply finish_rollback.
Qed.
End finishing.

Lemma commit_outcome wal txn σ es : ready txn σ es -> answer txn es σ (CommitTransaction wal cid (txn, σ)).
Proof.
  intros Hready. pose proof Hready as [Y1 _ Y3 _ _ _ _ _ _ _].
  assert (CommitTransaction wal cid (txn, σ)
    = finish (let '(s, error) := match wal with
                                 | Some (written, _) => DuckTransaction.WriteToWAL block_size buffer_allocate FlushBlocks written (txn, σ)
                                 | None => ((txn, σ), None)
                                 end in
              match error with None => Commit (snd <$> wal) cid s | Some e => (s, Ok (Some e)) end)) as ->.
  { unfold DuckTransaction.CommitTransaction, finish. destruct (match wal with Some (written, _) => _ | None => _ end) as [s error].
    by destruct (match error with None => _ | Some e => _ end). }
  destruct wal as [[written flush]|].
  - destruct (CommitStorage_flushed txn txn σ es Hready eq_refl eq_refl eq_refl Y3) as (txn1 & σ1 & r & entries & data & E & Hf).
    pose proof Hf as [(S1 & S2 & S3 & S4) Hlog _ _ _ _ _ _ _]. unfold DuckTransaction.WriteToWAL. rewrite E.
    pose proof (all_undoable_here txn σ es Hready _ txn1 σ1 r entries data Hf) as Hhere.
    destruct r as [[]|ex]; [|by eapply finish_rollback].
    destruct written as [[]|ex]; [|by eapply finish_rollback]. cbn [fmap option_fmap option_map snd].
    set (txn2 := DuckTransaction.with_commit_id cid txn1). assert (storage txn2 = []) as Hs by exact S3.
    assert (logged txn2 (es ++ entries)) as Hlog2 by exact Hlog.
    destruct (DuckTransaction.ChangesMade txn2) eqn:Hch.
    + apply (finish_commit txn _ txn1 σ σ1 es entries (Ok tt) data Hready Hf (DuckTransaction.with_storage [] txn2)); [exact Hlog|].
      apply (Commit_answer txn σ es Hready _ txn1 σ1 (Ok tt) entries data Hf (Some flush) _ (txn1, σ1)); try done; [|by rewrite <- Y1].
      fold txn2. unfold DuckTransaction.CommitStorage, mbind, ST_bind, get, DuckTransaction.on_txn, modify. cbn [fst snd].
      fold txn2. by rewrite Hs.
    + unfold DuckTransaction.Commit. cbn [fst snd]. fold txn2. rewrite Hch. cbn [negb finish answer].
      destruct (no_changes txn2 _ Hlog2 Hch) as [Hnil _].
      apply (committed_outcome txn σ es Hready _ txn1 σ1 (Ok tt) entries data Hf σ1); rewrite ?Hnil; try done.
      * by apply (flushed_store txn σ es Hready _ txn1 σ1 (Ok tt) entries data Hf).
      * apply TransactionState.tables_frame_refl.
      * by apply TransactionState.rows_same_refl.
      * apply TransactionState.updates_frame_refl.
  - set (txn2 := DuckTransaction.with_commit_id cid txn). assert (ready txn2 σ es) as Hready2 by (by apply ready_commit_id).
    destruct (DuckTransaction.ChangesMade txn2) eqn:Hch.
    + destruct (CommitStorage_flushed txn txn2 σ es Hready eq_refl eq_refl eq_refl Y3) as (txn1 & σ1 & r & entries & data & E & Hf).
      pose proof Hf as [(S1 & S2 & S3 & S4) Hlog _ _ _ _ _ _ _].
      apply (finish_commit txn _ txn1 σ σ1 es entries r data Hready Hf txn1); [exact Hlog|].
      apply (Commit_answer txn σ es Hready _ txn1 σ1 r entries data Hf None txn1 (txn, σ)); try done. by rewrite <- Y1.
    + unfold DuckTransaction.Commit. cbn [fst snd]. fold txn2. rewrite Hch. cbn [negb finish answer].
      destruct (no_changes txn2 es Y3 Hch) as [-> Hs]. by apply nothing_committed.
Qed.

(** A rollback without a commit: the local storage is dropped. *)
Lemma plain_rollback txn σ es :
  ready txn σ es -> exists s, DuckTransaction.Rollback (txn, σ) = (s, None) /\ rolled_back es σ s.2.
Proof.
  intros Hready. pose proof Hready as [Y1 Y2 Y3 Y4 Y5 Y6 Y7 Y8 _ _].
  set (txn0 := DuckTransaction.with_storage [] txn). assert (ready txn0 σ es) as Hready0.
  { split; try done; [apply NoDup_nil_2|by intros t l Hin%not_elem_of_nil]. }
  assert (flushed (storage txn0) txn0 σ es txn0 σ (Ok tt) [] (fun _ => [])) as Hf.
  { split; try done; [by rewrite app_nil_r|by intros t a Hin%not_elem_of_nil|by left]. }
  pose proof (rollback_outcome txn0 σ es Hready0 txn0 txn0 σ (Ok tt) [] _ Hf txn σ) as H. rewrite app_nil_r in H. apply H; [done|].
  pose proof (all_undoable_here txn0 σ es Hready0 txn0 txn0 σ (Ok tt) [] _ Hf) as Hu. by rewrite app_nil_r in Hu.
Qed.

(** ** What other transactions see *)

(** Another transaction: no start time is as large as a transaction id. *)
Record other (V : ChunkInfo.TransactionData) : Prop := {
  x_proper : RowVersionManager.proper V;
  x_id : ChunkInfo.transaction_id V <> tid /\ ChunkInfo.transaction_id V <> cid;
  x_start : ChunkInfo.start_time V <= tid
}.

Abbreviation visible := RowVersionManager.visible.
Abbreviation rows_seen := (TableScan.rows_seen (contents := contents)).

Lemma visible_ids V i d : visible V (i, d) = ChunkInfo.UseVersion V i && negb (ChunkInfo.UseVersion V d).
Proof. done. Qed.

Lemma other_sees V : other V ->
  ChunkInfo.UseVersion V tid = false /\ ChunkInfo.UseVersion V cid = (cid <? ChunkInfo.start_time V)
  /\ ChunkInfo.UseVersion V NOT_DELETED_ID = false.
Proof.
  intros [[HV _] [H1 H2] H3].
  assert (forall id, ChunkInfo.UseVersion V id = (id <? ChunkInfo.start_time V) || (id =? ChunkInfo.transaction_id V)) as Huse by done.
  split; [|split; [|by apply ChunkInfo.UseVersion_NOT_DELETED]]; rewrite Huse.
  - rewrite (proj2 (Z.ltb_ge _ _)), (proj2 (Z.eqb_neq _ _)) by (lia || congruence). done.
  - rewrite (proj2 (Z.eqb_neq cid _)), orb_false_r by congruence. done.
Qed.

(** The rows that a transaction deletes are there for the others. *)
Lemma deleted_seen txn σ es V t tb row :
  ready txn σ es -> other V -> tables σ !! t = Some tb -> deletes es t row = true ->
  visible V (row_ids (rows_of tb) row) = ChunkInfo.UseVersion V (row_ids (rows_of tb) row).1.
Proof.
  intros Hready HV Ht (d & Hd & Hrow)%deletes_spec. destruct (other_sees V HV) as (H1 & _).
  destruct (proj1 (Forall_forall _ _) (y_running _ _ _ Hready) _ Hd) as (tb' & Ht' & (_ & _ & Hids)).
  rewrite Ht in Ht'. injection Ht' as <-. specialize (Hids row Hrow). destruct (row_ids (rows_of tb) row) as [i d'].
  cbn in Hids. subst d'. rewrite visible_ids, H1. cbn. by rewrite andb_true_r.
Qed.

Lemma rows_seen_0 V m : table_ok m ->
  rows_seen V m = omap (fun row => if visible V (row_ids m row) then rows m !! row else None) (seq 0 (total_rows m)).
Proof. intros [_ _ _ H0 _]. unfold TableScan.rows_seen. by rewrite H0. Qed.

(** The rows of the table that the transaction sees and that are not deleted by the entries. *)
Definition remaining V es (t : nat) tb : list R :=
  omap (fun row => if visible V (row_ids (rows_of tb) row) && negb (deletes es t row) then rows (rows_of tb) !! row else None)
       (seq 0 (total_rows (rows_of tb))).

Lemma seen_after_commit txn σ es V t tb tb' d :
  ready txn σ es -> other V -> tables σ !! t = Some tb -> committed_table es t tb tb' d ->
  rows_seen V (rows_of tb')
  = if cid <? ChunkInfo.start_time V then remaining V es t tb ++ d else rows_seen V (rows_of tb).
Proof.
  intros Hready HV Ht [C1 C2 C3 C4 C5 C6]. pose proof (y_store _ _ _ Hready t tb Ht) as Hok.
  destruct (other_sees V HV) as (V1 & V2 & V3). rewrite !rows_seen_0 by done. rewrite C4, seq_app, omap_app.
  pose proof (table_total _ Hok) as Htot. pose proof (table_total _ C2) as Htot'.
  assert (omap (fun row => if visible V (row_ids (rows_of tb') row) then rows (rows_of tb') !! row else None)
            (seq (0 + total_rows (rows_of tb)) (length d)) = if cid <? ChunkInfo.start_time V then d else []) as ->.
  { rewrite TableScan.omap_seq_shift.
    transitivity (omap (fun r => if cid <? ChunkInfo.start_time V then d !! r else None) (seq 0 (length d))).
    - apply TableScan.omap_seq_ext. intros row Hrow. rewrite C6 by lia. rewrite visible_ids, V2, V3. cbn.
      rewrite andb_true_r, C3, lookup_app_r by lia. by replace (total_rows (rows_of tb) + row - length (rows (rows_of tb)))%nat with row by lia.
    - destruct (cid <? ChunkInfo.start_time V).
      + by rewrite TableScan.omap_lookup_take, firstn_all.
      + induction (seq 0 (length d)); [done|]. done. }
  assert (omap (fun row => if visible V (row_ids (rows_of tb') row) then rows (rows_of tb') !! row else None)
            (seq 0 (total_rows (rows_of tb)))
          = omap (fun row => if visible V (row_ids (rows_of tb) row) && negb (deletes es t row && (cid <? ChunkInfo.start_time V))
                             then rows (rows_of tb) !! row else None) (seq 0 (total_rows (rows_of tb)))) as ->.
  { apply TableScan.omap_seq_ext. intros row Hrow. rewrite C5, C3, lookup_app_l by lia.
    destruct (deletes es t row) eqn:Ed; cbn [andb].
    - rewrite (deleted_seen txn σ es V t tb row Hready HV Ht Ed), visible_ids, V2. done.
    - rewrite andb_true_r. by destruct (row_ids (rows_of tb) row). }
  unfold remaining. destruct (cid <? ChunkInfo.start_time V).
  - f_equal. apply TableScan.omap_seq_ext. intros row _. by rewrite andb_true_r.
  - rewrite app_nil_r. apply TableScan.omap_seq_ext. intros row _. by rewrite andb_false_r, andb_true_r.
Qed.

Lemma seen_after_rollback txn σ es V t tb tb' :
  ready txn σ es -> other V -> tables σ !! t = Some tb -> restored_table es t tb tb' ->
  rows_seen V (rows_of tb') = rows_seen V (rows_of tb).
Proof.
  intros Hready HV Ht [C1 C2 C3 C4 C5]. pose proof (y_store _ _ _ Hready t tb Ht) as Hok.
  destruct (other_sees V HV) as (V1 & V2 & V3). rewrite !rows_seen_0 by done. rewrite C4.
  apply TableScan.omap_seq_ext. intros row Hrow. rewrite C5, C3 by lia.
  destruct (deletes es t row) eqn:Ed.
  - rewrite (deleted_seen txn σ es V t tb row Hready HV Ht Ed), visible_ids, V3. cbn. by rewrite andb_true_r.
  - by destruct (row_ids (rows_of tb) row).
Qed.

Lemma scan_sees V m : RowVersionManager.proper V -> table_ok m ->
  exists chunks, (TableScan.collection_Scan V m).2 = Ok chunks /\ mjoin chunks = rows_seen V m.
Proof.
  intros HV [Hinv _ _ _ _]. destruct (TableScan.collection_Scan_spec V m Hinv HV) as (m' & chunks & E & _ & _ & _ & _ & Hj & _).
  exists chunks. by rewrite E.
Qed.



(** C4 Transactions are isolated from a commit.  A scan by another transaction after
    [CommitTransaction] completes.  If the commit succeeded and the other transaction started after
    it, the scan returns the rows seen before without those that the transaction deleted, followed by
    the rows that it inserted.  If the other transaction started before, or if the commit failed and
    was rolled back, the scan returns exactly what it returned before the commit. *)
Theorem commit_isolation wal txn σ es V t tb :
  ready txn σ es -> other V -> tables σ !! t = Some tb ->
  exists tb' chunks chunks',
    tables (CommitTransaction wal cid (txn, σ)).1.2 !! t = Some tb'
    /\ (TableScan.collection_Scan V (rows_of tb)).2 = Ok chunks
    /\ (TableScan.collection_Scan V (rows_of tb')).2 = Ok chunks'
    /\ mjoin chunks' = match (CommitTransaction wal cid (txn, σ)).2 with
                       | Ok None => if cid <? ChunkInfo.start_time V then remaining V es t tb ++ added txn t else mjoin chunks
                       | _ => mjoin chunks
                       end.
Proof.
  intros Hready HV Ht. pose proof (commit_outcome wal txn σ es Hready) as H. unfold answer in H.
  destruct (scan_sees V (rows_of tb)) as (chunks & E & Hj); [apply HV|by apply (y_store _ _ _ Hready t)|].
  destruct (CommitTransaction wal cid (txn, σ)) as [[txn' σ'] [[ex|]|ex]]; cbn [fst snd]; [| |done].
  - destruct (k_tables _ _ _ H t tb Ht) as (tb' & Ht' & Hb). exists tb', chunks.
    destruct (scan_sees V (rows_of tb')) as (chunks' & E' & Hj'); [apply HV|apply Hb|]. exists chunks'.
    do 3 (split; [done|]). rewrite Hj, Hj'. by eapply seen_after_rollback.
  - destruct (m_tables _ _ _ _ H t tb Ht) as (tb' & Ht' & Hc). exists tb', chunks.
    destruct (scan_sees V (rows_of tb')) as (chunks' & E' & Hj'); [apply HV|apply Hc|]. exists chunks'.
    do 3 (split; [done|]). rewrite Hj, Hj'. by eapply seen_after_commit.
Qed.

End outcome.

(** ** An instance

    A transaction that inserts three rows into an empty table and creates catalog entry 5. *)

#[local] Existing Instance RowGroupCollection.list_columns.
#[local] Existing Instance RowGroupCollection.list_columns_laws.
#[local] Existing Instance TableScan.list_scan.
#[local] Existing Instance TableScan.list_scan_laws.

(** A catalog of timestamps. *)
#[local] Instance map_catalog : TransactionState.Catalog (gmap nat Z) := {|
  TransactionState.CommitCatalogEntry commit_id entry k := (<[entry := commit_id]> k, Ok tt);
  TransactionState.RevertCatalogEntry transaction_id entry k := (<[entry := transaction_id]> k, Ok tt);
  TransactionState.UndoCatalogEntry entry k := (delete entry k, Ok tt);
  TransactionState.CleanupCatalogEntry entry k := (k, Ok tt);
  TransactionState.DetachInternal database k := (k, Ok tt)
|}.

#[local] Instance map_catalog_laws : TransactionState.CatalogLaws (fun (k : gmap nat Z) entry => k !! entry).
Proof.
  split.
  - intros k id e. simpl. split; [apply lookup_insert_eq|intros e' He; by apply lookup_insert_ne].
  - intros k id e. simpl. split; [done|]. split; [apply lookup_insert_eq|intros e' He; by apply lookup_insert_ne].
  - intros k e. simpl. split; [done|]. split; [apply lookup_delete_eq|intros e' He; by apply lookup_delete_ne].
  - done.
Qed.

Abbreviation example_collection := (nat * list nat)%type.
Definition example_tid : Z := ChunkInfo.transaction_id RowGroupCollection.writer.

Definition example_store : TransactionState.Store example_collection nat unit (gmap nat Z) :=
  TransactionState.mkStore {[1%nat := DataTable.mk RowGroupCollection.new_table DataTable.MAIN_TABLE]} ∅ {[5%nat := example_tid]}.

Definition example_begin : DuckTransaction.t example_collection :=
  DuckTransaction.mk 5 example_tid 0 [] ∅ LocalStorage.example_storage ∅ ∅.

Definition example_txn : DuckTransaction.t example_collection :=
  (DuckTransaction.PushCatalogEntry 4096 UndoBuffer.zeros 5 0 example_begin).1.

Definition example_flush (l : LocalStorage.LocalTableStorage example_collection) : result unit := Ok tt.

Lemma example_local : exists l, LocalStorage.example_storage = [(1%nat, l)]
  /\ LocalStorage.local_ok 100 STANDARD_VECTOR_SIZE (contents := snd) (column_start := fst) example_tid l
  /\ LocalStorage.seen 100 (contents := snd) l = [10; 11; 12]%nat.
Proof.
  assert (0 < STANDARD_VECTOR_SIZE /\ STANDARD_VECTOR_SIZE mod STANDARD_VECTOR_SIZE = 0)%nat as Hsize
    by (split; [apply SVS_pos|apply Nat.Div0.mod_same]).
  destruct (LocalStorage.new_ok 100 STANDARD_VECTOR_SIZE (R := nat) (C := example_collection) (contents := snd) (column_start := fst) Hsize example_tid) as [N1 N2].
  destruct (LocalStorage.local_append 100 STANDARD_VECTOR_SIZE (R := nat) (C := example_collection) (contents := snd) (column_start := fst)
              Hsize RowGroupCollection.writer (LocalStorage.new_storage 100 STANDARD_VECTOR_SIZE) [[10; 11]; [12]]%nat N1)
    as (m & st & E & Hl & Hs & _); [vm_compute; reflexivity|].
  exists (LocalStorage.set_row_groups m (LocalStorage.new_storage 100 STANDARD_VECTOR_SIZE)). split; [|split; [exact Hl|by rewrite LocalStorage.seen_view, Hs]].
  unfold LocalStorage.example_storage. rewrite (LocalStorage.append_local 100 STANDARD_VECTOR_SIZE).
  cbn [LocalStorage.GetStorage default]. by rewrite E.
Qed.

Lemma example_table t tb :
  tables example_store !! t = Some tb -> t = 1%nat /\ tb = DataTable.mk RowGroupCollection.new_table DataTable.MAIN_TABLE.
Proof.
  unfold example_store. cbn [TransactionState.tables]. intros Ht. apply lookup_singleton_Some in Ht. destruct Ht as [H1 H2].
  split; symmetry; [exact H1|exact H2].
Qed.

Lemma example_ready :
  ready (contents := snd) (column_start := fst) (timestamp := fun k entry => k !! entry)
    4096 UndoBuffer.zeros 100 STANDARD_VECTOR_SIZE example_tid 9 example_txn example_store [CatalogInfo 5].
Proof.
  destruct example_local as (l & El & Hl & _).
  assert (DuckTransaction.logged 4096 UndoBuffer.zeros example_begin []) as H0 by (by exists []; split; [constructor|]).
  pose proof (DuckTransaction.PushCatalogEntry_logged 4096 UndoBuffer.zeros UndoBuffer.zeros_length 5 0 example_begin [] H0) as H.
  specialize (H ltac:(vm_compute; reflexivity)). fold example_txn in H.
  assert ((DuckTransaction.PushCatalogEntry 4096 UndoBuffer.zeros 5 0 example_begin).2 = Ok tt) as E2 by (vm_compute; reflexivity).
  unfold example_txn.
  destruct (DuckTransaction.PushCatalogEntry 4096 UndoBuffer.zeros 5 0 example_begin) as [txn r]. cbn [fst snd] in *. subst r.
  destruct H as [(S1 & S2 & S3 & S4) Hlog].
  assert (DataTable.table_ok (contents := snd) (column_start := fst) (RowGroupCollection.new_table : RowGroupCollection.t example_collection)) as Hok.
  { split; [apply RowGroupCollection.new_table_inv|done|vm_compute; reflexivity|done|by apply Forall_nil]. }
  split.
  - by rewrite S2.
  - unfold DuckTransaction.transaction_data. rewrite S1, S2. split; [split; vm_compute; congruence|vm_compute; reflexivity].
  - exact Hlog.
  - intros t tb [-> ->]%example_table. exact Hok.
  - by split.
  - apply Forall_singleton. vm_compute. reflexivity.
  - intros t a Hin. by apply list_elem_of_singleton in Hin.
  - intros t tb row [-> ->]%example_table. split; vm_compute; discriminate.
  - rewrite S3. cbn. rewrite El. apply NoDup_singleton.
  - intros t l' Hin. rewrite S3 in Hin. cbn in Hin. rewrite El in Hin. apply list_elem_of_singleton in Hin as [= -> ->].
    eexists. split; [reflexivity|]. split; [exact Hok|]. split; [exact Hl|].
    assert (LocalStorage.example_storage !! 0%nat = Some (1%nat, l)) as Hlook by (by rewrite El).
    split; [reflexivity|]. unfold DataTable.room.
    assert (option_map (fun '(_, l) => (RowGroupCollection.total_rows (LocalStorage.row_groups l),
              length (SegmentTree.segments (RowGroupCollection.row_groups (LocalStorage.row_groups l)))))
              (LocalStorage.example_storage !! 0%nat) = Some (3%nat, 1%nat)) as Hc by (vm_compute; reflexivity).
    rewrite Hlook in Hc. cbn in Hc. injection Hc as H1 H2. rewrite H1, H2. split; vm_compute; reflexivity.
Qed.

Definition is_error (r : result (option exception)) : bool := match r with Ok (Some _) => true | _ => false end.

Lemma example_tid_range : example_tid <> 0 /\ example_tid <> NOT_DELETED_ID.
Proof. split; vm_compute; discriminate. Qed.

Lemma example_cid_range : 9 <> 0 /\ 9 <> NOT_DELETED_ID.
Proof. split; vm_compute; discriminate. Qed.

Lemma example_size : (0 < STANDARD_VECTOR_SIZE /\ STANDARD_VECTOR_SIZE mod STANDARD_VECTOR_SIZE = 0)%nat.
Proof. split; [apply SVS_pos|apply Nat.Div0.mod_same]. Qed.

Lemma example_added : added (contents := snd) 100 example_txn 1 = [10; 11; 12]%nat.
Proof. vm_compute. reflexivity. Qed.

Definition example_commit (wal : option (result unit * result unit)) :=
  DuckTransaction.CommitTransaction 4096 UndoBuffer.zeros example_flush wal 9 (example_txn, example_store).



Definition example_reader : ChunkInfo.TransactionData := ChunkInfo.mkTransactionData (ChunkInfo.TRANSACTION_ID_START + 4) 12.

Lemma example_other : other example_tid 9 example_reader.
Proof.
  split; [split; [split; vm_compute; congruence|vm_compute; reflexivity]|split; vm_compute; discriminate|vm_compute; discriminate].
Qed.

Lemma commit_isolation_witness :
  exists tb chunks, tables (example_commit None).1.2 !! 1%nat = Some tb
  /\ (TableScan.collection_Scan example_reader (rows_of tb)).2 = Ok chunks
  /\ mjoin chunks = [10; 11; 12]%nat.
Proof.
  destruct (commit_isolation (contents := snd) (column_start := fst) (timestamp := fun k entry => k !! entry)
    4096 UndoBuffer.zeros example_flush 100 STANDARD_VECTOR_SIZE example_tid 9
    UndoBuffer.zeros_length example_size example_tid_range example_cid_range None example_txn example_store [CatalogInfo 5]
    example_reader 1 _ example_ready example_other (lookup_insert_eq _ _ _))
    as (tb & chunks & chunks' & Ht & _ & E & Hj).
  exists tb, chunks'. split; [exact Ht|]. split; [exact E|]. rewrite Hj.
  assert ((example_commit None).2 = Ok None) as Hr by (vm_compute; reflexivity). unfold example_commit in Hr. rewrite Hr.
  vm_compute. reflexivity.
Defined.

End CommitOutcome.
