(* ===== verification/TransactionRun.v ===== *)
(** * A transaction from begin to commit

    Models what a transaction does to the rows of tables before it ends: inserting chunks of rows
    ([DataTable::InitializeLocalAppend], [LocalAppend], [FinalizeLocalAppend]) and deleting rows by row
    number ([DataTable::Delete]) in src/src/storage/data_table.cpp.  Inserted rows go to the local
    storage; deletions mark the rows of the table and push undo entries ([PushDelete]), or mark rows of
    the local storage.  Tables have no constraints and no indexes here.

    [Spec] is the abstract view of the running transaction: per table, the row numbers that it has
    deleted and the rows of its local storage.  [running] relates it to the transaction and the
    store, and [runs_spec] shows that each operation keeps them related and the transaction [ready] to
    commit. *)

From stdpp Require Import gmap.
From S2P Require Import Prelude ChunkInfo RowVersionManager SegmentTree UpdateSegment RowGroup RowGroupCollection.
From S2P Require Import DataTable TableScan LocalStorage UndoBuffer TransactionState DuckTransaction CommitOutcome.

Module TransactionRun.

Abbreviation NOT_DELETED_ID := ChunkInfo.NOT_DELETED_ID.
Abbreviation Info := TransactionState.Info.
Abbreviation DeleteEntry := TransactionState.DeleteEntry.
Abbreviation tables := TransactionState.tables.
Abbreviation updates := TransactionState.updates.
Abbreviation catalog := TransactionState.catalog.
Abbreviation rows_of := DataTable.rows_of.
Abbreviation row_ids := RowGroupCollection.row_ids.
Abbreviation total_rows := RowGroupCollection.total_rows.
Abbreviation transaction_id := DuckTransaction.transaction_id.
Abbreviation storage := DuckTransaction.storage.
Abbreviation on_store := DuckTransaction.on_store.
Abbreviation on_txn := DuckTransaction.on_txn.
Abbreviation transaction_data := DuckTransaction.transaction_data.

(** The abstract view of a running transaction: the rows of a table that it has deleted, and its own
    rows, in place, without those deleted again. *)
Record Spec (R : Type) : Type := mkSpec {
  removed : gmap nat (list nat);
  local : gmap nat (list (option R))
}.
Arguments mkSpec {R}.
Arguments removed {R}.
Arguments local {R}.

Inductive operation (R : Type) : Type :=
| InsertRows (table : nat) (chunks : list (list R))
| DeleteRows (table : nat) (ids : list nat).
Arguments InsertRows {R}.
Arguments DeleteRows {R}.

Section run.
Context {R C T X K : Type} {columns_of : RowGroup.Columns R C} {scan_of : TableScan.ScanColumns R C}
  {catalog_of : TransactionState.Catalog K}.
Context (block_size : nat) (buffer_allocate : nat -> result (list Z)).
Context (MAX_ROW_ID row_group_size : nat).
Abbreviation store := (TransactionState.Store C T X K).
Abbreviation state := (DuckTransaction.t C * store)%type.
Implicit Types (txn : DuckTransaction.t C) (σ : store) (tb : DataTable.t C) (l : LocalStorage.LocalTableStorage C).

(** The constructor of [DuckTransaction]. *)
Definition begin (start_time transaction_id : Z) : DuckTransaction.t C :=
  DuckTransaction.mk start_time transaction_id 0 [] ∅ [] ∅ ∅.

(** ** Inserting *)

Definition on_local {A} (f : ST (LocalStorage.Manager C) A) : ST (DuckTransaction.t C) A :=
  fun txn => let '(s, r) := f (storage txn) in (DuckTransaction.with_storage s txn, r).

Definition InitializeLocalAppend (table : nat) : ST state RowGroupCollection.AppendState :=
  on_store (TransactionState.check_main_table table);;
  on_txn (on_local (LocalStorage.InitializeAppend MAX_ROW_ID row_group_size table)).

Definition LocalAppend (table : nat) (chunk : list R) (st : RowGroupCollection.AppendState)
    : ST state RowGroupCollection.AppendState :=
  if (length chunk =? 0)%nat then mret st
  else
    on_store (TransactionState.check_main_table table);;
    on_txn (on_local (LocalStorage.Append table chunk st)).

Definition FinalizeLocalAppend (table : nat) (st : RowGroupCollection.AppendState) : ST state unit :=
  '(txn, _) ← get;
  on_txn (on_local (LocalStorage.FinalizeAppend (transaction_data txn) table st));;
  mret tt.

Fixpoint append_chunks (table : nat) (chunks : list (list R)) (st : RowGroupCollection.AppendState)
    : ST state RowGroupCollection.AppendState :=
  match chunks with
  | [] => mret st
  | chunk :: chunks => st ← LocalAppend table chunk st; append_chunks table chunks st
  end.

(** An insert of a sequence of chunks. *)
Definition Insert (table : nat) (chunks : list (list R)) : ST state unit :=
  st ← InitializeLocalAppend table;
  st ← append_chunks table chunks st;
  FinalizeLocalAppend table st.

(** ** Deleting *)

(** The undo entry that a deletion in row group [i] pushes. *)
Definition push_delete (table i : nat) (e : RowGroup.DeleteEntry) : ST (DuckTransaction.t C) unit :=
  DuckTransaction.PushDelete block_size buffer_allocate table i (RowGroup.vector_idx e) (RowGroup.rows e)
    (length (RowGroup.rows e)) (RowGroup.base_row e).

(** [row_groups->Delete(transaction, ...)]. *)
Definition rows_Delete (table : nat) (ids : list nat) : ST state nat :=
  fun '(txn, σ) =>
    match tables σ !! table with
    | None => ((txn, σ), Throw InternalException)
    | Some tb =>
        let '((m, txn'), r) :=
          RowGroupCollection.Delete (push_delete table) (transaction_data txn) ids (rows_of tb, txn) in
        ((txn', TransactionState.put table (DataTable.mk m (DataTable.version tb)) σ), r)
    end.

(** The ids that follow and are of the same kind. *)
Fixpoint take_batch (is_transaction_delete : bool) (ids : list nat) : list nat * list nat :=
  match ids with
  | [] => ([], [])
  | id :: rest =>
      if Bool.eqb (MAX_ROW_ID <=? id)%nat is_transaction_delete then
        let '(batch, others) := take_batch is_transaction_delete rest in (id :: batch, others)
      else ([], ids)
  end.

(** Each iteration consumes an id. *)
Fixpoint delete_batches (fuel : nat) (table : nat) (ids : list nat) (delete_count : nat) : ST state nat :=
  match fuel, ids with
  | S fuel, id :: rest =>
      let is_transaction_delete := (MAX_ROW_ID <=? id)%nat in
      let '(batch, others) := take_batch is_transaction_delete rest in
      n ← (if is_transaction_delete then on_txn (on_local (LocalStorage.Delete table (id :: batch)))
           else rows_Delete table (id :: batch));
      delete_batches fuel table others (delete_count + n)
  | _, _ => mret delete_count
  end.

Definition Delete (table : nat) (ids : list nat) : ST state nat := delete_batches (length ids) table ids 0.

Definition perform (op : operation R) : ST state unit :=
  match op with
  | InsertRows table chunks => Insert table chunks
  | DeleteRows table ids => Delete table ids;; mret tt
  end.

(** ** The abstract view *)

Definition spec_insert (table : nat) (data : list R) (S : Spec R) : Spec R :=
  mkSpec (removed S) (<[table := local S !!! table ++ map Some data]> (local S)).

(** Row numbers from [MAX_ROW_ID] on are those of local rows. *)
Definition spec_delete (table : nat) (ids : list nat) (S : Spec R) : Spec R :=
  mkSpec (<[table := removed S !!! table ++ List.filter (fun id => negb (MAX_ROW_ID <=? id)%nat) ids]> (removed S))
         (<[table := LocalStorage.clear MAX_ROW_ID ids (local S !!! table)]> (local S)).

Definition spec_perform (op : operation R) (S : Spec R) : Spec R :=
  match op with
  | InsertRows table chunks => spec_insert table (mjoin chunks) S
  | DeleteRows table ids => spec_delete table ids S
  end.

Definition spec_run (ops : list (operation R)) : Spec R := fold_left (fun S op => spec_perform op S) ops (mkSpec ∅ ∅).

(** When an operation may be called: there is room for the rows; a row that is deleted exists. *)
Definition capacity tb l (n : nat) : Prop :=
  RowGroupCollection.row_group_size (rows_of tb) = row_group_size
  /\ Z.of_nat (length (SegmentTree.segments (RowGroupCollection.row_groups (rows_of tb))) + total_rows (rows_of tb)
               + length (SegmentTree.segments (RowGroupCollection.row_groups (LocalStorage.row_groups l)))
               + total_rows (LocalStorage.row_groups l) + n + 1) < 2 ^ 62.

Definition allowed_id (table : nat) (s : state) (id : nat) : Prop :=
  if (MAX_ROW_ID <=? id)%nat then
    exists l, LocalStorage.GetStorage table (storage s.1) = Some l /\ (id < MAX_ROW_ID + total_rows (LocalStorage.row_groups l))%nat
  else exists tb, tables s.2 !! table = Some tb /\ (id < total_rows (rows_of tb))%nat.

Definition storage_of (table : nat) txn : LocalStorage.LocalTableStorage C :=
  default (LocalStorage.new_storage MAX_ROW_ID row_group_size) (LocalStorage.GetStorage table (storage txn)).

Definition allowed (op : operation R) (s : state) : Prop :=
  match op with
  | InsertRows table chunks =>
      exists tb, tables s.2 !! table = Some tb /\ capacity tb (storage_of table s.1) (length (mjoin chunks))
  | DeleteRows table ids => Forall (allowed_id table s) ids
  end.

(** The operations succeed one after the other. *)
Inductive runs : list (operation R) -> state -> state -> Prop :=
| runs_nil s : runs [] s s
| runs_snoc ops op s1 s2 s3 :
    runs ops s1 s2 -> allowed op s2 -> perform op s2 = (s3, Ok tt) -> runs (ops ++ [op]) s1 s3.

(** ** Undo entries of a deletion *)

Hypothesis allocate_length : forall n bytes, buffer_allocate n = Ok bytes -> length bytes = n.
Abbreviation logged := (DuckTransaction.logged block_size buffer_allocate).
Abbreviation same_txn := DuckTransaction.same_txn.
Implicit Types (es : list Info) (p : nat * RowGroup.DeleteEntry).

Definition is_consecutive (rows : list nat) : bool := forallb (fun i => (rows !!! i =? i)%nat) (seq 0 (length rows)).

(** The payload for the entry of a row group. *)
Definition info_of p : DataTable.DeleteInfo :=
  let rows := RowGroup.rows p.2 in
  DataTable.mkDeleteInfo p.1
    (ChunkInfo.mkDeleteInfo (RowGroup.vector_idx p.2) (length rows) (is_consecutive rows) (if is_consecutive rows then [] else rows))
    (RowGroup.base_row p.2).

Lemma consecutive_seq rows : is_consecutive rows = true -> rows = seq 0 (length rows).
Proof.
  unfold is_consecutive. rewrite forallb_forall. intros H. apply list_eq_same_length with (length rows); [by rewrite length_seq|done|].
  intros i x y Hi Hx Hy. rewrite lookup_seq_lt in Hy by lia. injection Hy as <-.
  specialize (H i). rewrite in_seq, Nat.eqb_eq, (list_lookup_total_correct _ _ _ Hx) in H. rewrite H by lia. done.
Qed.

Lemma info_rows p : ChunkInfo.deleted_rows (DataTable.rows_deleted (info_of p)) = RowGroup.rows p.2.
Proof.
  unfold info_of, ChunkInfo.deleted_rows. cbn. destruct (is_consecutive (RowGroup.rows p.2)) eqn:E; cbn.
  - symmetry. by apply consecutive_seq.
  - apply firstn_all.
Qed.

Lemma named_info p row : row ∈ DataTable.named (info_of p) <-> row ∈ RowGroupCollection.undo_rows [p].
Proof.
  unfold DataTable.named. rewrite info_rows. unfold RowGroupCollection.undo_rows. cbn. by rewrite app_nil_r.
Qed.

Lemma mapM_uint16 rows :
  Forall (fun r => r < STANDARD_VECTOR_SIZE)%nat rows -> mapM DuckTransaction.to_uint16 rows = Ok rows.
Proof.
  induction 1 as [|r rows Hr Hrows IH]; [done|]. cbn [mapM].
  assert (DuckTransaction.to_uint16 r = Ok r) as ->; [|by rewrite IH]. unfold DuckTransaction.to_uint16.
  rewrite (proj2 (Z.ltb_lt _ _)); [done|]. assert (Z.of_nat STANDARD_VECTOR_SIZE = 2048) by (vm_compute; reflexivity). lia.
Qed.

(** Entries about rows of a vector, without duplicates. *)
Definition small_entry p : Prop := Forall (fun r => r < STANDARD_VECTOR_SIZE)%nat (RowGroup.rows p.2) /\ NoDup (RowGroup.rows p.2).

Lemma small_entry_length p : small_entry p -> (length (RowGroup.rows p.2) <= STANDARD_VECTOR_SIZE)%nat.
Proof.
  intros [H1 H2]. rewrite <- (length_seq STANDARD_VECTOR_SIZE 0). apply submseteq_length, NoDup_submseteq; [done|].
  intros r Hr. rewrite Forall_forall in H1. apply elem_of_seq. specialize (H1 r Hr). lia.
Qed.

Lemma PushDelete_logged table p txn es :
  logged txn es -> small_entry p ->
  let '(txn', r) := push_delete table p.1 p.2 txn in
  same_txn txn txn' /\ logged txn' (es ++ match r with Ok _ => [DeleteEntry table (info_of p)] | Throw _ => [] end).
Proof.
  intros Hl Hp. pose proof (small_entry_length p Hp) as Hlen. destruct Hp as [Hr _].
  unfold push_delete, DuckTransaction.PushDelete, DuckTransaction.ModifyTable, mbind, ST_bind, modify.
  set (txn1 := DuckTransaction.mk _ _ _ _ _ _ _ _). assert (logged txn1 es) as Hl1 by exact Hl.
  fold (is_consecutive (RowGroup.rows p.2)). set (len := (_ + _)%nat).
  pose proof (DuckTransaction.CreateEntry_logged block_size buffer_allocate allocate_length (DeleteEntry table (info_of p)) len txn1 es Hl1) as H.
  cbn [TransactionState.flag] in H.
  assert (Z.of_nat STANDARD_VECTOR_SIZE = 2048) as E2048 by (vm_compute; reflexivity).
  destruct (DuckTransaction.CreateEntry _ _ UndoBuffer.DELETE_TUPLE len txn1) as [txn2 [q|ex]].
  - destruct H as (m & -> & H).
    { unfold len, UndoBuffer.entry_length, UndoBuffer.AlignValue; cbn; destruct (is_consecutive _); lia. }
    unfold lift. replace (if is_consecutive (RowGroup.rows p.2) then Ok [] else mapM DuckTransaction.to_uint16 (take (length (RowGroup.rows p.2)) (RowGroup.rows p.2)))
      with (Ok (if is_consecutive (RowGroup.rows p.2) then [] else RowGroup.rows p.2)).
    2:{ rewrite firstn_all, mapM_uint16 by done. by destruct (is_consecutive _). }
    split; [done|exact H].
  - assert (txn2 = txn1) as ->; [|split; [done|by rewrite app_nil_r]].
    apply H. unfold len, UndoBuffer.entry_length, UndoBuffer.AlignValue; cbn; destruct (is_consecutive _); lia.
Qed.

Lemma push_all_logged table new : forall txn es,
  logged txn es -> Forall small_entry new ->
  match push_all (fun p => push_delete table p.1 p.2) new txn with
  | (txn', Ok _) => same_txn txn txn' /\ logged txn' (es ++ map (fun p => DeleteEntry table (info_of p)) new)
  | _ => True
  end.
Proof.
  induction new as [|p new IH]; intros txn es Hl Hs; [by rewrite app_nil_r|].
  apply Forall_cons_1 in Hs as [Hp Hs]. cbn [push_all map]. unfold mbind, ST_bind.
  pose proof (PushDelete_logged table p txn es Hl Hp) as H.
  destruct (push_delete table p.1 p.2 txn) as [txn1 [u|ex]]; [|done]. destruct H as [H1 H2].
  specialize (IH txn1 _ H2 Hs). destruct (push_all _ new txn1) as [txn2 [u2|ex]]; [|done]. destruct IH as [I1 I2].
  rewrite <- app_assoc in I2. split; [by eapply DuckTransaction.same_txn_trans|done].
Qed.

(** ** Deleting rows of a table *)

Context {contents : C -> list R} {column_start : C -> nat} {laws : RowGroup.ColumnLaws contents column_start}
  {scan_laws : TableScan.ScanLaws contents}.
Abbreviation table_ok := (DataTable.table_ok (contents := contents) (column_start := column_start)).
Abbreviation deleted := (RowGroupCollection.deleted (contents := contents) (column_start := column_start)).
Implicit Types (m : RowGroupCollection.t C) (D : ChunkInfo.TransactionData).

Lemma deleted_small tid m ids m' new n : deleted tid m ids m' new n -> Forall small_entry new.
Proof.
  intros [_ _ _ _ _ _ Hnd _ _ _ Hes]. apply Forall_forall. intros p Hp. rewrite Forall_forall in Hes. split.
  - destruct (Hes p Hp) as (g & _ & _ & _ & _ & Hr). eapply Forall_impl; [exact Hr|]. intros r. unfold RowVersionManager.rows_in. lia.
  - apply list_elem_of_split in Hp as (l1 & l2 & ->). rewrite RowGroupCollection.undo_rows_app in Hnd.
    apply NoDup_app in Hnd as (_ & _ & Hnd). change (p :: l2) with ([p] ++ l2) in Hnd.
    rewrite RowGroupCollection.undo_rows_app in Hnd. apply NoDup_app in Hnd as (Hnd & _ & _).
    unfold RowGroupCollection.undo_rows in Hnd. cbn in Hnd. rewrite app_nil_r in Hnd.
    by apply (NoDup_fmap_1 (fun x => (RowGroup.base_row p.2 + x)%nat)) in Hnd.
Qed.

Lemma delete_table table D ids m txn es :
  table_ok m -> ChunkInfo.transaction_id D <> NOT_DELETED_ID -> Forall (fun id => id < total_rows m)%nat ids -> logged txn es ->
  match RowGroupCollection.Delete (push_delete table) D ids (m, txn) with
  | ((m', txn'), Ok n) =>
      exists new, deleted (ChunkInfo.transaction_id D) m ids m' new n /\ table_ok m' /\ same_txn txn txn'
      /\ logged txn' (es ++ map (fun p => DeleteEntry table (info_of p)) new)
  | _ => True
  end.
Proof.
  intros [T1 T2 T3 T4 T5] HD Hids Hl. pose proof T1 as [Hwf _ _ _ _].
  assert (RowGroupCollection.convertible m) as Hconv.
  { unfold RowGroupCollection.convertible. eapply Forall_impl; [exact T5|]. intros g Hg r _ v Hv. by apply Hg. }
  pose proof (RowGroupCollection.delete_loop_spec D m [] HD T3 (length ids) ids m [] [] 0 (le_n _)) as H.
  rewrite T4 in H.
  assert (Forall (fun id => 0 <= id < 0 + total_rows m)%nat ids) as Hids' by (eapply Forall_impl; [exact Hids|]; intros id Hid; cbv beta in *; lia).
  specialize (H Hids' (RowGroupCollection.deleted_nil _ m T1) Hconv). rewrite app_nil_r in H.
  destruct (DataTable.growing_Delete (RowGroupCollection.row_group_size m) D ids m [] Hwf eq_refl) as [Hwf' ((_ & Hn) & _ & Hd & _)].
  destruct (RowGroupCollection.simulates_Delete (push_delete table) D ids m []) as (new & E & Hsim). specialize (Hsim txn).
  unfold RowGroupCollection.Delete in *.
  destruct (RowGroupCollection.delete_loop RowGroupCollection.log_delete (length ids) D ids 0 (m, [])) as [[m1 undo1] r1].
  cbn [fst snd app] in *. subst undo1. destruct H as (es' & E' & H). cbn in E'. subst es'.
  revert Hsim. destruct (push_all _ new txn) as [txn1 [u|ex]] eqn:Ep; intros Hsim.
  2:{ by destruct Hsim as (s' & ->). }
  rewrite Hsim. destruct r1 as [n|ex]; [|done]. destruct H as [H _].
  exists new. split; [done|]. pose proof (push_all_logged table new txn es Hl (deleted_small _ _ _ _ _ _ H)) as Hpush.
  rewrite Ep in Hpush. split; [|done]. destruct H as [X1 (F1 & F2 & F3 & F4) X3 _ _ _ _ _ _ _ _].
  split; [done|by eapply RowGroupCollection.loaded_le| |by rewrite F3|by apply Hd].
  unfold RowGroupCollection.small. by rewrite X3.
Qed.

(** ** The transaction stays ready to commit *)

Context {timestamp : K -> nat -> option Z} {catalog_laws : TransactionState.CatalogLaws timestamp}.
Hypothesis group_size : (0 < row_group_size)%nat /\ (row_group_size mod STANDARD_VECTOR_SIZE = 0)%nat.
Context (tid cid : Z).
Hypothesis tid_range : tid <> 0 /\ tid <> NOT_DELETED_ID.
Hypothesis cid_range : cid <> 0 /\ cid <> NOT_DELETED_ID.
Abbreviation ready := (CommitOutcome.ready (contents := contents) (column_start := column_start) (timestamp := timestamp)
  block_size buffer_allocate MAX_ROW_ID row_group_size tid cid).
Abbreviation movable := (DuckTransaction.movable MAX_ROW_ID row_group_size (contents := contents) (column_start := column_start) tid).
Abbreviation rows := (RowGroupCollection.rows (contents := contents)).
Abbreviation put := TransactionState.put.
Abbreviation entry_in := (TransactionState.entry_in (timestamp := timestamp) tid cid TransactionState.Running).
Abbreviation entries table new := (map (fun p => DeleteEntry table (info_of p)) new).

Lemma entries_elem table new e : e ∈ entries table new <-> exists p, p ∈ new /\ e = DeleteEntry table (info_of p).
Proof. rewrite (list_elem_of_fmap (fun p => DeleteEntry table (info_of p))). naive_solver. Qed.

Lemma named_undo new p row : p ∈ new -> row ∈ DataTable.named (info_of p) -> row ∈ RowGroupCollection.undo_rows new.
Proof.
  intros Hp Hr%named_info. apply list_elem_of_split in Hp as (l1 & l2 & ->).
  rewrite RowGroupCollection.undo_rows_app. apply elem_of_app. right. change (p :: l2) with ([p] ++ l2).
  rewrite RowGroupCollection.undo_rows_app. apply elem_of_app. by left.
Qed.

Lemma undo_named new row : row ∈ RowGroupCollection.undo_rows new -> exists p, p ∈ new /\ row ∈ DataTable.named (info_of p).
Proof.
  induction new as [|p new IH]; [by intros Hr%not_elem_of_nil|]. change (p :: new) with ([p] ++ new).
  rewrite RowGroupCollection.undo_rows_app, elem_of_app. intros [Hr|Hr].
  - exists p. split; [by left|by apply named_info].
  - destruct (IH Hr) as (q & Hq & Hn). exists q. split; [by right|done].
Qed.

Lemma entries_pairwise table new : NoDup (RowGroupCollection.undo_rows new) -> TransactionState.pairwise (entries table new).
Proof.
  induction new as [|p new IH]; [done|]. change (p :: new) with ([p] ++ new) at 1. rewrite RowGroupCollection.undo_rows_app.
  intros (_ & Hd & Hnd)%NoDup_app. cbn [map TransactionState.pairwise]. split; [|by apply IH].
  apply Forall_forall. intros e (q & Hq & ->)%entries_elem. cbn. right. intros row Hr%named_info Hr'. apply (Hd row Hr). by eapply named_undo.
Qed.

Lemma deleted_entry m ids m' new n p :
  deleted tid m ids m' new n -> p ∈ new -> DataTable.delete_ok tid m' (info_of p).
Proof.
  intros [_ _ _ _ X5 _ _ _ X9 _ X11] Hp. rewrite Forall_forall in X11. destruct (X11 p Hp) as (g & Hg & Hm & Hb & Hne & Hr).
  split; [by rewrite info_rows|]. split.
  - exists g. split; [done|]. split; [done|]. split; [exact Hb|]. rewrite info_rows. exact Hr.
  - intros row Hrow. pose proof (named_undo new p row Hp Hrow) as [Hin _]%X9. by rewrite X5, decide_True.
Qed.

Lemma old_entry m ids m' new n d :
  deleted tid m ids m' new n -> table_ok m -> DataTable.delete_ok tid m d -> DataTable.delete_ok tid m' d.
Proof.
  intros [_ (_ & F2 & _) _ _ X5 _ _ _ _ X10 _] Hok Hd. eapply DataTable.delete_ok_kept; [|exact Hd|].
  - by apply DataTable.kept_Forall2.
  - intros row Hrow. destruct (DataTable.delete_ok_named (column_start := column_start) tid m d row Hok Hd Hrow) as [H1 H2]. split; [by rewrite F2|].
    rewrite X5. by case_decide.
Qed.

(** A transaction with the same local storage and the entries of the deletion is ready again. *)
Lemma ready_delete table tb txn txn' σ es m ids new n :
  ready txn σ es -> tables σ !! table = Some tb -> deleted tid (rows_of tb) ids m new n -> table_ok m ->
  same_txn txn txn' -> logged txn' (es ++ entries table new) ->
  ready txn' (put table (DataTable.mk m (DataTable.version tb)) σ) (es ++ entries table new).
Proof.
  intros [Y1 Y2 Y3 Y4 Y5 Y6 Y7 Y8 Y9 Y10] Ht Hdel Hm (S1 & S2 & S3 & S4) Hlog.
  pose proof Hdel as [X1 (F1 & F2 & F3 & F4) X3 X4 X5 X6 X7 X8 X9 X10 X11]. pose proof (Y4 _ _ Ht) as Hok.
  assert (forall t tb0, tables (put table (DataTable.mk m (DataTable.version tb)) σ) !! t = Some tb0 ->
    t = table /\ tb0 = DataTable.mk m (DataTable.version tb) \/ t <> table /\ tables σ !! t = Some tb0) as Htab.
  { intros t tb0. cbn [put TransactionState.tables]. destruct (decide (t = table)) as [->|Hne].
    - rewrite lookup_insert_eq. intros [= <-]. by left.
    - rewrite lookup_insert_ne by done. by right. }
  split.
  - by rewrite S2.
  - unfold DuckTransaction.transaction_data. by rewrite S1, S2.
  - done.
  - intros t tb0 [[-> ->]|[_ Ht0]]%Htab; [done|by eapply Y4].
  - apply TransactionState.pairwise_app. split; [done|]. split; [by apply entries_pairwise|].
    apply Forall_forall. intros e He. apply Forall_forall. intros e' (p & Hp & ->)%entries_elem.
    rewrite Forall_forall in Y6. specialize (Y6 e He). destruct e as [c|t a|t d|t s q|v|db]; try done.
    + by apply Y7 in He.
    + destruct (decide (t = table)) as [->|Hne]; [right|by left]. intros row Hrow Hrow'. destruct Y6 as (tb0 & Ht0 & Hd).
      rewrite Ht in Ht0. injection Ht0 as <-. apply (named_undo new p) in Hrow'; [|done]. apply X9 in Hrow' as [_ Hnot].
      destruct (DataTable.delete_ok_named (column_start := column_start) tid (rows_of tb) d row Hok Hd Hrow) as [_ Hid].
      destruct tid_range as [_ Hr]. congruence.
  - apply Forall_app. rewrite Forall_forall in Y6. split; apply Forall_forall.
    + intros e He. specialize (Y6 e He). destruct e as [c|t a|t d|t s q|v|db]; try done.
      { by apply Y7 in He. }
      destruct Y6 as (tb0 & Ht0 & Hd). cbn [TransactionState.entry_in TransactionState.entry_on TransactionState.id_of default TransactionState.put TransactionState.tables].
      destruct (decide (t = table)) as [->|Hne]; [|by exists tb0; rewrite lookup_insert_ne by done].
      rewrite Ht in Ht0. injection Ht0 as <-. exists (DataTable.mk m (DataTable.version tb)). rewrite lookup_insert_eq. split; [done|].
      by eapply old_entry.
    + intros e (p & Hp & ->)%entries_elem. exists (DataTable.mk m (DataTable.version tb)). cbn [put TransactionState.tables].
      rewrite lookup_insert_eq. split; [done|]. by eapply deleted_entry.
  - intros t a [Hin|(p & _ & Hp)%entries_elem]%elem_of_app; [by apply Y7 in Hin|done].
  - intros t tb0 row [[-> ->]|[_ Ht0]]%Htab; [|by eapply Y8]. cbn [rows_of]. rewrite X5. specialize (Y8 table tb row Ht).
    by case_decide.
  - by rewrite S3.
  - rewrite S3. intros t l Hl. destruct (Y10 t l Hl) as (tb0 & Ht0 & M1 & M2 & M3 & M4 & M5). cbn [put TransactionState.tables].
    destruct (decide (t = table)) as [->|Hne]; [|by exists tb0; rewrite lookup_insert_ne by done].
    rewrite Ht in Ht0. injection Ht0 as <-. exists (DataTable.mk m (DataTable.version tb)). rewrite lookup_insert_eq.
    split; [done|]. split; [done|]. split; [done|]. split; [by rewrite <- M3|]. unfold DataTable.room in *. cbn [rows_of].
    by rewrite F2, X3.
Qed.

(** ** The local storage *)

Lemma ready_storage txn σ es s :
  ready txn σ es -> NoDup s.*1 -> movable σ s -> ready (DuckTransaction.with_storage s txn) σ es.
Proof. by intros [Y1 Y2 Y3 Y4 Y5 Y6 Y7 Y8 Y9 Y10] H1 H2. Qed.

Lemma with_storage_id txn : DuckTransaction.with_storage (storage txn) txn = txn.
Proof. by destruct txn. Qed.

Lemma check_main_table_spec table tb txn σ :
  tables σ !! table = Some tb ->
  on_store (TransactionState.check_main_table table) (txn, σ)
  = ((txn, σ), if DataTable.IsMainTable tb then Ok tt else Throw TransactionException).
Proof.
  intros Ht. unfold DuckTransaction.on_store, TransactionState.check_main_table, TransactionState.on_table, mbind, ST_bind, get. rewrite Ht.
  assert (TransactionState.mkStore (<[table := tb]> (tables σ)) (updates σ) (catalog σ) = σ) as E by (by apply DuckTransaction.put_same).
  rewrite E. by destruct (DataTable.IsMainTable tb).
Qed.

(** Empty chunks are skipped. *)
Definition nonempty (chunk : list R) : bool := negb (length chunk =? 0)%nat.

Lemma join_nonempty (chunks : list (list R)) : mjoin (List.filter nonempty chunks) = mjoin chunks.
Proof. induction chunks as [|[|x chunk] chunks IH]; [done|done|]. cbn. f_equal. by f_equal. Qed.

Lemma append_chunks_run table tb chunks : forall st txn σ,
  tables σ !! table = Some tb -> DataTable.IsMainTable tb = true ->
  append_chunks table chunks st (txn, σ)
  = let '(s, r) := LocalStorage.append_chunks table (List.filter nonempty chunks) st (storage txn) in
    ((DuckTransaction.with_storage s txn, σ), r).
Proof.
  induction chunks as [|chunk chunks IH]; intros st txn σ Ht Hm; [cbn; by rewrite with_storage_id|].
  cbn [append_chunks List.filter]. unfold LocalAppend, nonempty at 1. destruct (length chunk =? 0)%nat; cbn [negb].
  - change (mret st ≫= ?k) with (k st). by apply IH.
  - cbn [LocalStorage.append_chunks]. unfold mbind, ST_bind. rewrite (check_main_table_spec table tb) by done. rewrite Hm.
    unfold DuckTransaction.on_txn, on_local. destruct (LocalStorage.Append table chunk st (storage txn)) as [s [st'|e]]; [|done].
    by rewrite IH.
Qed.

Lemma Insert_run table tb chunks txn σ :
  tables σ !! table = Some tb ->
  Insert table chunks (txn, σ)
  = if DataTable.IsMainTable tb then
      let '(s, r) := LocalStorage.append MAX_ROW_ID row_group_size (transaction_data txn) table (List.filter nonempty chunks) (storage txn) in
      ((DuckTransaction.with_storage s txn, σ), (fun _ => tt) <$> r)
    else ((txn, σ), Throw TransactionException).
Proof.
  intros Ht. unfold Insert, InitializeLocalAppend, LocalStorage.append. unfold mbind, ST_bind.
  rewrite (check_main_table_spec table tb) by done. destruct (DataTable.IsMainTable tb) eqn:Hm; [|done].
  unfold DuckTransaction.on_txn at 1, on_local at 1.
  destruct (LocalStorage.InitializeAppend MAX_ROW_ID row_group_size table (storage txn)) as [s1 [st|e]]; [|done].
  rewrite (append_chunks_run table tb) by done. cbn [storage DuckTransaction.with_storage].
  destruct (LocalStorage.append_chunks table (List.filter nonempty chunks) st s1) as [s2 [st2|e]]; [|done].
  unfold FinalizeLocalAppend, mbind, ST_bind, get, DuckTransaction.on_txn, on_local. cbn [storage DuckTransaction.with_storage].
  change (transaction_data (DuckTransaction.with_storage s2 (DuckTransaction.with_storage s1 txn))) with (transaction_data txn).
  by destruct (LocalStorage.FinalizeAppend (transaction_data txn) table st2 s2) as [s3 [st3|e]].
Qed.

(** ** The abstract view is kept *)

Abbreviation view := (LocalStorage.view MAX_ROW_ID (contents := contents)).
Abbreviation local_ok := (LocalStorage.local_ok MAX_ROW_ID row_group_size (contents := contents) (column_start := column_start)).
Implicit Types (S : Spec R).

(** The transaction has come from the store [σ0] to [σ] and has done what [S] says. *)
Record running σ0 S txn σ es : Prop := {
  r_ready : ready txn σ es;
  r_dropped : forall t l, LocalStorage.GetStorage t (storage txn) = Some l -> LocalStorage.is_dropped l = false;
  r_tables : forall t tb0, tables σ0 !! t = Some tb0 -> exists tb, tables σ !! t = Some tb
    /\ DataTable.version tb = DataTable.version tb0 /\ rows (rows_of tb) = rows (rows_of tb0)
    /\ total_rows (rows_of tb) = total_rows (rows_of tb0)
    /\ forall row, row_ids (rows_of tb) row
                   = ((row_ids (rows_of tb0) row).1, if decide (row ∈ removed S !!! t) then tid else (row_ids (rows_of tb0) row).2);
  r_old : forall t, tables σ0 !! t = None -> tables σ !! t = None;
  r_removed : forall t tb0 row, tables σ0 !! t = Some tb0 -> row ∈ removed S !!! t -> (row_ids (rows_of tb0) row).2 = NOT_DELETED_ID;
  r_deletes : forall t tb0 row, tables σ0 !! t = Some tb0 -> CommitOutcome.deletes es t row = bool_decide (row ∈ removed S !!! t);
  r_local : forall t, local S !!! t = view (storage_of t txn)
}.

Lemma view_new : view (LocalStorage.new_storage MAX_ROW_ID row_group_size) = [].
Proof. done. Qed.

Lemma lookup_total_set {A} (m : gmap nat (list A)) t x t' : <[t := x]> m !!! t' = if decide (t' = t) then x else m !!! t'.
Proof. case_decide as Hd; [subst; apply lookup_total_insert_eq|by apply lookup_total_insert_ne]. Qed.

Lemma storage_ok table txn σ es : ready txn σ es -> local_ok tid (storage_of table txn).
Proof.
  intros Hr. unfold storage_of. destruct (LocalStorage.GetStorage table (storage txn)) as [l|] eqn:E; [|by apply LocalStorage.new_ok].
  apply LocalStorage.Get_elem in E; [|apply Hr]. by destruct (CommitOutcome.y_movable _ _ _ _ _ _ _ _ _ Hr _ _ E) as (tb & _ & _ & H & _).
Qed.

(** A local storage [l] of the table put in place. *)
Lemma running_storage σ0 S S' txn σ es s table l :
  running σ0 S txn σ es -> NoDup s.*1 -> movable σ s -> LocalStorage.GetStorage table s = Some l ->
  (forall t, t <> table -> LocalStorage.GetStorage t s = LocalStorage.GetStorage t (storage txn)) ->
  LocalStorage.is_dropped l = false ->
  (forall t, removed S' !!! t = removed S !!! t) -> (forall t, t <> table -> local S' !!! t = local S !!! t) ->
  local S' !!! table = view l ->
  running σ0 S' (DuckTransaction.with_storage s txn) σ es.
Proof.
  intros [R1 R2 R3 R4 R5 R6 R7] Hnd Hm Hl Hs Hdrop Hrem Hloc Hloc'. split.
  - by apply ready_storage.
  - intros t l0 Ht. cbn in Ht. destruct (decide (t = table)) as [->|Hne]; [congruence|]. rewrite Hs in Ht by done. by eapply R2.
  - intros t tb0 Ht. destruct (R3 t tb0 Ht) as (tb & H). exists tb. rewrite Hrem. exact H.
  - exact R4.
  - intros t tb0 row Ht. rewrite Hrem. by apply R5.
  - intros t tb0 row Ht. rewrite Hrem. by eapply R6.
  - intros t. unfold storage_of. cbn [storage DuckTransaction.with_storage]. destruct (decide (t = table)) as [->|Hne].
    + by rewrite Hl.
    + rewrite Hloc, Hs by done. apply R7.
Qed.

Lemma dropped_false σ0 S txn σ es table : running σ0 S txn σ es -> LocalStorage.is_dropped (storage_of table txn) = false.
Proof.
  intros Hr. unfold storage_of. destruct (LocalStorage.GetStorage table (storage txn)) as [l|] eqn:E; [|done]. by eapply r_dropped.
Qed.

Lemma running_insert σ0 S txn σ es table chunks :
  running σ0 S txn σ es -> allowed (InsertRows table chunks) (txn, σ) ->
  match Insert table chunks (txn, σ) with
  | (s', Ok _) => running σ0 (spec_insert table (mjoin chunks) S) s'.1 s'.2 es
  | (s', Throw _) => s' = (txn, σ)
  end.
Proof.
  intros Hrun (tb & Ht & Hsize & Hcap). cbn [fst snd] in Ht, Hcap. rewrite (Insert_run table tb) by done.
  destruct (DataTable.IsMainTable tb); [|done]. rewrite LocalStorage.append_local. fold (storage_of table txn).
  pose proof (r_ready _ _ _ _ _ Hrun) as Hready. pose proof Hready as [Y1 _ _ Y4 _ _ _ _ Y9 Y10].
  pose proof (storage_ok table txn σ es Hready) as Hl. set (l := storage_of table txn) in *.
  pose proof (LocalStorage.local_append MAX_ROW_ID row_group_size group_size (transaction_data txn) l (List.filter nonempty chunks)) as H.
  cbn [transaction_data ChunkInfo.transaction_id] in H. rewrite Y1, join_nonempty in H.
  destruct (H Hl) as (m & st & -> & Hl' & Hv & Htot & Hlen); [unfold DataTable.room; lia|]. cbn [fst snd fmap result_fmap].
  set (s1 := LocalStorage.GetOrCreateStorage MAX_ROW_ID row_group_size table (storage txn)).
  destruct (LocalStorage.Get_create MAX_ROW_ID row_group_size table (storage txn)) as [G1 G2]. fold s1 in G1, G2.
  set (l' := LocalStorage.set_row_groups m l) in *. set (s2 := LocalStorage.SetStorage table l' s1).
  assert (LocalStorage.GetStorage table s2 = Some l') as Hg by (by eapply LocalStorage.Get_Set).
  assert (forall t, t <> table -> LocalStorage.GetStorage t s2 = LocalStorage.GetStorage t (storage txn)) as Hne.
  { intros t Hne. unfold s2. rewrite LocalStorage.Get_Set_ne by done. by apply G2. }
  assert (NoDup s2.*1) as Hnd by (unfold s2; rewrite LocalStorage.Set_keys; by apply LocalStorage.create_NoDup).
  eapply (running_storage σ0 S _ txn σ es s2 table l'); try done.
  - intros t l0 Hin%LocalStorage.Get_elem; [|done]. destruct (decide (t = table)) as [->|Hne'].
    + rewrite Hg in Hin. injection Hin as <-. exists tb. split; [done|]. split; [by eapply Y4|]. split; [done|]. split; [done|].
      unfold DataTable.room. cbn [l' LocalStorage.row_groups LocalStorage.set_row_groups]. rewrite Htot. lia.
    + rewrite Hne in Hin by done. apply Y10. by apply LocalStorage.Get_elem.
  - cbn. by eapply dropped_false.
  - intros t Ht'. cbn. rewrite lookup_total_set. by rewrite decide_False.
  - cbn. rewrite lookup_total_set, decide_True by done. rewrite (r_local _ _ _ _ _ Hrun). by rewrite Hv.
Qed.

Lemma running_local_delete σ0 S txn σ es table ids :
  running σ0 S txn σ es -> Forall (allowed_id table (txn, σ)) ids -> Forall (fun id => MAX_ROW_ID <= id)%nat ids -> ids <> [] ->
  exists s n, on_txn (on_local (LocalStorage.Delete table ids)) (txn, σ) = ((DuckTransaction.with_storage s txn, σ), Ok n)
  /\ running σ0 (spec_delete table ids S) (DuckTransaction.with_storage s txn) σ es
  /\ forall id, allowed_id table (txn, σ) id -> allowed_id table (DuckTransaction.with_storage s txn, σ) id.
Proof.
  intros Hrun Hids Hlocal Hne. pose proof (r_ready _ _ _ _ _ Hrun) as Hready. pose proof Hready as [Y1 _ _ Y4 _ _ _ _ Y9 Y10].
  assert (exists l, LocalStorage.GetStorage table (storage txn) = Some l
    /\ Forall (fun id => MAX_ROW_ID <= id < MAX_ROW_ID + total_rows (LocalStorage.row_groups l))%nat ids) as (l & Hg & Hin).
  { destruct ids as [|id0 ids]; [done|]. pose proof Hids as [H0 _]%Forall_cons_1. pose proof Hlocal as [L0 _]%Forall_cons_1.
    unfold allowed_id in H0. rewrite (proj2 (Nat.leb_le _ _) L0) in H0. destruct H0 as (l & Hl & _). exists l. split; [done|].
    rewrite Forall_forall in Hids, Hlocal |- *. intros id Hid. specialize (Hids id Hid). specialize (Hlocal id Hid).
    unfold allowed_id in Hids. rewrite (proj2 (Nat.leb_le _ _) Hlocal) in Hids. destruct Hids as (l' & Hl' & Hlt). cbn in Hl, Hl'. rewrite Hl in Hl'.
    injection Hl' as <-. lia. }
  assert (storage_of table txn = l) as El by (unfold storage_of; by rewrite Hg).
  pose proof (storage_ok table txn σ es Hready) as Hl. rewrite El in Hl.
  destruct (LocalStorage.local_delete MAX_ROW_ID row_group_size group_size tid l ids Hl Hin) as (l' & n & E & Hl' & _ & Htot & _ & Hv & Hlen & Hdrop).
  unfold on_local, DuckTransaction.on_txn, LocalStorage.Delete. rewrite (LocalStorage.on_storage_spec table _ l _ Hg), E. cbn [fst snd].
  set (s2 := LocalStorage.SetStorage table l' (storage txn)). exists s2, n. split; [done|].
  assert (LocalStorage.GetStorage table s2 = Some l') as Hg2 by (by eapply LocalStorage.Get_Set).
  assert (forall t, t <> table -> LocalStorage.GetStorage t s2 = LocalStorage.GetStorage t (storage txn)) as Hne2.
  { intros t Hne2. by apply LocalStorage.Get_Set_ne. }
  assert (NoDup s2.*1) as Hnd by (unfold s2; by rewrite LocalStorage.Set_keys). split.
  - eapply (running_storage σ0 S _ txn σ es s2 table l'); try done.
    + intros t l0 Hin'%LocalStorage.Get_elem; [|done]. destruct (decide (t = table)) as [->|Hne'].
      * rewrite Hg2 in Hin'. injection Hin' as <-. apply LocalStorage.Get_elem in Hg; [|done].
        destruct (Y10 _ _ Hg) as (tb & Ht & M1 & M2 & M3 & M4 & M5). exists tb. split; [done|]. split; [done|]. split; [done|]. split; [done|].
        by rewrite Htot, Hlen.
      * rewrite Hne2 in Hin' by done. apply Y10. by apply LocalStorage.Get_elem.
    + rewrite Hdrop. by eapply r_dropped.
    + intros t. cbn. rewrite lookup_total_set. case_decide as Hd; [|done]. subst t.
      assert (List.filter (fun id => negb (MAX_ROW_ID <=? id)%nat) ids = []) as ->; [|by rewrite app_nil_r].
      apply LocalStorage.filter_none. intros id Hid%list_elem_of_In. rewrite Forall_forall in Hlocal.
      by rewrite (proj2 (Nat.leb_le _ _) (Hlocal id Hid)).
    + intros t Ht'. cbn. rewrite lookup_total_set. by rewrite decide_False.
    + cbn. rewrite lookup_total_set, decide_True by done. rewrite (r_local _ _ _ _ _ Hrun), Hv. by rewrite El.
  - intros id. unfold allowed_id. destruct (MAX_ROW_ID <=? id)%nat; [|done]. cbn. rewrite Hg, Hg2. intros (l0 & [= <-] & Hlt).
    exists l'. split; [done|]. by rewrite Htot.
Qed.

Lemma filter_keeps_all (P : nat -> bool) (l : list nat) : (forall r, r ∈ l -> P r = true) -> List.filter P l = l.
Proof.
  induction l as [|r l IH]; intros H; [done|]. cbn. rewrite H by (by left). f_equal. apply IH. intros r' Hr'. apply H. by right.
Qed.

Lemma deletes_app (es es' : list Info) t row :
  CommitOutcome.deletes (es ++ es') t row = CommitOutcome.deletes es t row || CommitOutcome.deletes es' t row.
Proof. apply existsb_app. Qed.

Lemma deletes_entries table new t row :
  CommitOutcome.deletes (entries table new) t row = bool_decide (t = table /\ row ∈ RowGroupCollection.undo_rows new).
Proof.
  apply eq_bool_prop_intro. rewrite !Is_true_true, CommitOutcome.deletes_spec, bool_decide_eq_true. unfold TransactionState.named_in. split.
  - intros (d & (p & Hp & [= -> ->])%entries_elem & Hrow). split; [done|]. by eapply named_undo.
  - intros (-> & (p & Hp & Hrow)%undo_named). exists (info_of p). split; [apply entries_elem; by exists p|done].
Qed.

(** No local row is named: clearing changes nothing. *)
Lemma clear_table ids (v : list (option R)) : Forall (fun id => id < MAX_ROW_ID)%nat ids -> LocalStorage.clear MAX_ROW_ID ids v = v.
Proof.
  intros Hids. apply list_eq. intros r. unfold LocalStorage.clear. rewrite list_lookup_imap. destruct (v !! r) as [x|]; [|done].
  cbn. rewrite bool_decide_eq_false_2; [done|]. intros Hin. rewrite Forall_forall in Hids. specialize (Hids _ Hin). lia.
Qed.

Lemma running_rows_delete σ0 S txn σ es table ids :
  (forall t tb0 row, tables σ0 !! t = Some tb0 -> (row_ids (rows_of tb0) row).2 <> tid) ->
  running σ0 S txn σ es -> Forall (allowed_id table (txn, σ)) ids -> Forall (fun id => id < MAX_ROW_ID)%nat ids -> ids <> [] ->
  match rows_Delete table ids (txn, σ) with
  | (s', Ok _) => (exists es', running σ0 (spec_delete table ids S) s'.1 s'.2 es')
      /\ forall id, allowed_id table (txn, σ) id -> allowed_id table s' id
  | _ => True
  end.
Proof.
  intros Hold Hrun Hids Htable Hne. pose proof (r_ready _ _ _ _ _ Hrun) as Hready. pose proof Hready as [Y1 _ Y3 Y4 _ _ _ _ _ _].
  assert (exists tb, tables σ !! table = Some tb /\ Forall (fun id => id < total_rows (rows_of tb))%nat ids) as (tb & Ht & Hin).
  { destruct ids as [|id0 ids]; [done|]. pose proof Hids as [H0 _]%Forall_cons_1. pose proof Htable as [L0 _]%Forall_cons_1.
    unfold allowed_id in H0. rewrite (proj2 (Nat.leb_gt _ _) L0) in H0. destruct H0 as (tb & Ht & _). exists tb. split; [done|].
    rewrite Forall_forall in Hids, Htable |- *. intros id Hid. specialize (Hids id Hid). specialize (Htable id Hid).
    unfold allowed_id in Hids. rewrite (proj2 (Nat.leb_gt _ _) Htable) in Hids. destruct Hids as (tb' & Ht' & Hlt). cbn in Ht, Ht'.
    rewrite Ht in Ht'. by injection Ht' as <-. }
  unfold rows_Delete. rewrite Ht.
  pose proof (delete_table table (transaction_data txn) ids (rows_of tb) txn es (Y4 _ _ Ht)) as H.
  cbn [transaction_data ChunkInfo.transaction_id] in H. rewrite Y1 in H. specialize (H (proj2 tid_range) Hin Y3).
  destruct (RowGroupCollection.Delete (push_delete table) (transaction_data txn) ids (rows_of tb, txn)) as [[m txn'] [n|e]]; [|done].
  destruct H as (new & Hdel & Hm & Hsame & Hlog). cbn [fst snd].
  pose proof (ready_delete table tb txn txn' σ es m ids new n Hready Ht Hdel Hm Hsame Hlog) as Hready'.
  destruct Hsame as (S1 & S2 & S3 & S4). set (tb' := DataTable.mk m (DataTable.version tb)) in *.
  pose proof Hdel as [_ (_ & F2 & _) _ X4 X5 X6 _ _ X9 _ _]. destruct Hrun as [_ R2 R3 R4 R5 R6 R7].
  assert (List.filter (fun id => negb (MAX_ROW_ID <=? id)%nat) ids = ids) as Ef.
  { apply filter_keeps_all. intros id Hid. rewrite Forall_forall in Htable. by rewrite (proj2 (Nat.leb_gt _ _) (Htable id Hid)). }
  assert (forall tb0, tables σ0 !! table = Some tb0 -> rows (rows_of tb') = rows (rows_of tb0) /\ DataTable.version tb' = DataTable.version tb0
    /\ total_rows (rows_of tb') = total_rows (rows_of tb0)
    /\ forall row, row_ids (rows_of tb) row = ((row_ids (rows_of tb0) row).1,
         if decide (row ∈ removed S !!! table) then tid else (row_ids (rows_of tb0) row).2)) as Htb.
  { intros tb0 Ht0. destruct (R3 table tb0 Ht0) as (tb1 & Ht1 & V & Hr & Hn & Hids'). rewrite Ht in Ht1. injection Ht1 as <-.
    cbn [tb' rows_of DataTable.version]. split; [congruence|]. split; [done|]. split; [congruence|done]. }
  split.
  - exists (es ++ entries table new). split.
    + exact Hready'.
    + rewrite S3. exact R2.
    + intros t tb0 Ht0. cbn [spec_delete removed]. cbn [put TransactionState.tables]. destruct (decide (t = table)) as [->|Hnt].
      * exists tb'. rewrite lookup_insert_eq. destruct (Htb tb0 Ht0) as (T1 & T2 & T3 & T4). split; [done|]. split; [done|]. split; [done|].
        split; [done|]. intros row. cbn [tb' rows_of]. rewrite X5, lookup_total_set, (decide_True (P := table = table)), Ef by done. rewrite T4. cbn [fst snd].
        repeat case_decide; rewrite ?elem_of_app in *; naive_solver.
      * destruct (R3 t tb0 Ht0) as (tb1 & Ht1 & H). exists tb1. rewrite lookup_insert_ne by done. split; [done|].
        rewrite lookup_total_set, decide_False by done. exact H.
    + intros t Ht0. cbn [put TransactionState.tables]. rewrite lookup_insert_ne; [by apply R4|]. intros <-. specialize (R4 _ Ht0). congruence.
    + intros t tb0 row Ht0. cbn [spec_delete removed]. rewrite lookup_total_set. case_decide as Hd; [|by apply R5]. subst t. rewrite Ef.
      rewrite elem_of_app. intros [Hr|Hr]; [by eapply R5|]. specialize (X6 row Hr). destruct (Htb tb0 Ht0) as (_ & _ & _ & T4).
      rewrite T4 in X6. destruct (decide (row ∈ removed S !!! table)) as [Hr'|Hr']; [by eapply R5|]. destruct X6 as [E|E]; [done|].
      cbn in E. by destruct (Hold table tb0 row Ht0).
    + intros t tb0 row Ht0. rewrite deletes_app, deletes_entries. cbn [spec_delete removed]. rewrite lookup_total_set, (R6 t tb0 row Ht0).
      case_decide as Hd.
      * subst t. rewrite Ef. destruct (Htb tb0 Ht0) as (_ & _ & _ & T4). apply eq_bool_prop_intro.
        rewrite !Is_true_true, orb_true_iff, !bool_decide_eq_true, elem_of_app, X9, T4. cbn [snd].
        split; [naive_solver|]. intros [Hr|Hr]; [by left|]. destruct (decide (row ∈ removed S !!! table)) as [Hr'|Hr']; [by left|right].
        split; [done|]. split; [done|]. specialize (X6 row Hr). rewrite T4 in X6. rewrite decide_False in X6 by done.
        destruct X6 as [E|E]; [done|]. cbn in E. by destruct (Hold table tb0 row Ht0).
      * rewrite (bool_decide_eq_false_2 (_ /\ _)), orb_false_r; [done|]. by intros [? _].
    + intros t. cbn [spec_delete local]. unfold storage_of. rewrite S3. rewrite lookup_total_set. case_decide as Hd; [|apply R7]. subst t.
      rewrite clear_table by done. apply R7.
  - intros id. unfold allowed_id. cbn [fst snd]. rewrite S3. destruct (MAX_ROW_ID <=? id)%nat; [done|].
    cbn [put TransactionState.tables]. rewrite Ht, lookup_insert_eq. intros (tb1 & [= <-] & Hlt). exists tb'. split; [done|].
    cbn [tb' rows_of]. by rewrite F2.
Qed.

Lemma take_batch_spec b ids :
  (take_batch b ids).1 ++ (take_batch b ids).2 = ids
  /\ Forall (fun id => (MAX_ROW_ID <=? id)%nat = b) (take_batch b ids).1.
Proof.
  induction ids as [|id ids [IH1 IH2]]; [done|]. cbn [take_batch]. destruct (Bool.eqb (MAX_ROW_ID <=? id)%nat b) eqn:E; [|done].
  destruct (take_batch b ids) as [batch others]. cbn [fst snd] in *. split; [cbn; by rewrite IH1|]. constructor; [|done]. by apply eqb_prop in E.
Qed.

Lemma clear_app ids1 ids2 (v : list (option R)) :
  LocalStorage.clear MAX_ROW_ID (ids1 ++ ids2) v = LocalStorage.clear MAX_ROW_ID ids2 (LocalStorage.clear MAX_ROW_ID ids1 v).
Proof.
  apply list_eq. intros r. unfold LocalStorage.clear. rewrite !list_lookup_imap. destruct (v !! r) as [x|]; [|done]. cbn. f_equal.
  destruct (decide ((MAX_ROW_ID + r)%nat ∈ ids1)) as [H1|H1], (decide ((MAX_ROW_ID + r)%nat ∈ ids2)) as [H2|H2];
    rewrite ?(bool_decide_eq_true_2 (_ ∈ ids1)), ?(bool_decide_eq_true_2 (_ ∈ ids2)), ?(bool_decide_eq_false_2 (_ ∈ ids1)),
      ?(bool_decide_eq_false_2 (_ ∈ ids2)) by done;
    [rewrite bool_decide_eq_true_2; [done|set_solver]..|rewrite bool_decide_eq_false_2; [done|set_solver]].
Qed.

Lemma spec_delete_app table ids1 ids2 S :
  spec_delete table (ids1 ++ ids2) S = spec_delete table ids2 (spec_delete table ids1 S).
Proof.
  unfold spec_delete. cbn [removed local]. rewrite !lookup_total_insert_eq, !insert_insert_eq, List.filter_app, clear_app.
  by rewrite app_assoc.
Qed.

Lemma running_delete_batches σ0 table :
  (forall t tb0 row, tables σ0 !! t = Some tb0 -> (row_ids (rows_of tb0) row).2 <> tid) ->
  forall fuel ids n S txn σ es, (length ids <= fuel)%nat -> ids <> [] ->
  running σ0 S txn σ es -> Forall (allowed_id table (txn, σ)) ids ->
  match delete_batches fuel table ids n (txn, σ) with
  | (s', Ok _) => exists es', running σ0 (spec_delete table ids S) s'.1 s'.2 es'
  | _ => True
  end.
Proof.
  intros Hold fuel. induction fuel as [|fuel IH]; intros ids n S txn σ es Hlen Hne Hrun Hids; [by destruct ids; [|simpl in Hlen; lia]|].
  destruct ids as [|id rest]; [done|]. cbn [delete_batches]. set (b := (MAX_ROW_ID <=? id)%nat).
  destruct (take_batch_spec b rest) as [Hsplit Hbatch]. destruct (take_batch b rest) as [batch others]. cbn [fst snd] in *.
  assert (Forall (fun id => (MAX_ROW_ID <=? id)%nat = b) (id :: batch)) as Hall by (by constructor).
  replace (id :: rest) with ((id :: batch) ++ others) in Hids |- * by (by rewrite <- Hsplit). apply Forall_app in Hids as [Hids1 Hids2].
  rewrite <- Hsplit in Hlen. simpl in Hlen. rewrite length_app in Hlen. rewrite spec_delete_app.
  assert (forall s1 n1 es1, running σ0 (spec_delete table (id :: batch) S) s1.1 s1.2 es1 ->
    (forall i, allowed_id table (txn, σ) i -> allowed_id table s1 i) ->
    match delete_batches fuel table others n1 s1 with
    | (s', Ok _) => exists es', running σ0 (spec_delete table others (spec_delete table (id :: batch) S)) s'.1 s'.2 es'
    | _ => True
    end) as Hnext.
  { intros [txn1 σ1] n1 es1 Hrun1 Hkeep. cbn [fst snd] in Hrun1. destruct others as [|id2 others].
    - assert (delete_batches fuel table [] n1 (txn1, σ1) = ((txn1, σ1), Ok n1)) as -> by (by destruct fuel). exists es1. cbn [fst snd].
      replace (spec_delete table [] (spec_delete table (id :: batch) S)) with (spec_delete table (id :: batch) S); [done|].
      rewrite <- spec_delete_app. by rewrite app_nil_r.
    - eapply IH; [lia|done|done|]. eapply Forall_impl; [exact Hids2|]. exact Hkeep. }
  unfold mbind, ST_bind. destruct b eqn:Eb.
  - destruct (running_local_delete σ0 S txn σ es table (id :: batch)) as (s & k & -> & Hrun1 & Hkeep); [done|done| |done|].
    { eapply Forall_impl; [exact Hall|]. intros i Hi. by apply Nat.leb_le. }
    by apply (Hnext (DuckTransaction.with_storage s txn, σ) _ es).
  - pose proof (running_rows_delete σ0 S txn σ es table (id :: batch) Hold Hrun Hids1) as H.
    destruct (rows_Delete table (id :: batch) (txn, σ)) as [s1 [k|e]]; [|done].
    destruct H as [(es1 & Hrun1) Hkeep]; [|done|by eapply Hnext].
    eapply Forall_impl; [exact Hall|]. intros i Hi. by apply Nat.leb_gt.
Qed.

Lemma running_perform σ0 S txn σ es op s' :
  (forall t tb0 row, tables σ0 !! t = Some tb0 -> (row_ids (rows_of tb0) row).2 <> tid) ->
  running σ0 S txn σ es -> allowed op (txn, σ) -> perform op (txn, σ) = (s', Ok tt) ->
  exists es', running σ0 (spec_perform op S) s'.1 s'.2 es'.
Proof.
  intros Hold Hrun Hop. destruct op as [table chunks|table ids]; cbn [perform spec_perform].
  - intros E. pose proof (running_insert σ0 S txn σ es table chunks Hrun Hop) as H. rewrite E in H. by exists es.
  - unfold mbind, ST_bind, Delete. destruct ids as [|id ids].
    + cbn. intros [= <-]. exists es. cbn [fst snd]. destruct Hrun as [R1 R2 R3 R4 R5 R6 R7].
      assert (forall t, removed (spec_delete table [] S) !!! t = removed S !!! t) as Er.
      { intros t. cbn. rewrite lookup_total_set. case_decide; [by subst; rewrite app_nil_r|done]. }
      split; [done|done| |done| | |].
      * intros t tb0 Ht. rewrite Er. by apply R3.
      * intros t tb0 row. rewrite Er. by apply R5.
      * intros t tb0 row. rewrite Er. by apply R6.
      * intros t. cbn. rewrite lookup_total_set. case_decide; [subst|done]. rewrite clear_table by done. apply R7.
    + pose proof (running_delete_batches σ0 table Hold (length (id :: ids)) (id :: ids) 0 S txn σ es (le_n _)) as H.
      destruct (delete_batches (length (id :: ids)) table (id :: ids) 0 (txn, σ)) as [s1 [n|e]]; [|done].
      intros [= <-]. by apply H.
Qed.

(** A store at which the transaction may begin: its id and commit id are new. *)
Record fresh_store σ : Prop := {
  f_ok : TransactionState.store_ok (contents := contents) (column_start := column_start) σ;
  f_new : forall t tb row, tables σ !! t = Some tb ->
    (row_ids (rows_of tb) row).1 <> tid /\ (row_ids (rows_of tb) row).1 <> cid /\ (row_ids (rows_of tb) row).2 <> tid
}.

Lemma running_begin start σ0 :
  RowVersionManager.proper (ChunkInfo.mkTransactionData tid start) -> fresh_store σ0 ->
  running σ0 (mkSpec ∅ ∅) (begin start tid) σ0 [].
Proof.
  intros HD [F1 F2]. split.
  - split; try done.
    + exists []. split; [by constructor|done].
    + intros t a Hin. by apply not_elem_of_nil in Hin.
    + intros t tb row Ht. destruct (F2 t tb row Ht) as (H1 & H2 & _). done.
    + apply NoDup_nil_2.
    + intros t l Hin. by apply not_elem_of_nil in Hin.
  - done.
  - intros t tb0 Ht. exists tb0. do 4 (split; [done|]). intros row. cbn [removed]. rewrite lookup_total_empty, decide_False by apply not_elem_of_nil.
    by destruct (row_ids (rows_of tb0) row).
  - done.
  - intros t tb0 row _. cbn [removed]. rewrite lookup_total_empty. by intros H%not_elem_of_nil.
  - intros t tb0 row _. cbn [removed]. rewrite lookup_total_empty. symmetry. apply bool_decide_eq_false_2, not_elem_of_nil.
  - intros t. cbn [local]. by rewrite lookup_total_empty.
Qed.

Lemma runs_spec start σ0 ops s :
  RowVersionManager.proper (ChunkInfo.mkTransactionData tid start) -> fresh_store σ0 ->
  runs ops (begin start tid, σ0) s -> exists es, running σ0 (spec_run ops) s.1 s.2 es.
Proof.
  intros HD Hf Hruns. remember (begin start tid, σ0) as s0 eqn:E0. induction Hruns as [s|ops op s1 s2 s3 Hruns IH Hop E]; subst.
  - exists []. by apply running_begin.
  - destruct (IH eq_refl) as (es & Hrun). destruct s2 as [txn σ]. unfold spec_run. rewrite fold_left_app. cbn [fold_left].
    eapply running_perform; [|exact Hrun|exact Hop|exact E]. intros t tb0 row Ht. by destruct (f_new _ Hf t tb0 row Ht) as (_ & _ & ?).
Qed.

(** ** The end of the transaction *)

Context (FlushBlocks : LocalStorage.LocalTableStorage C -> result unit).

(** The table has the rows of [tb0] and those of the local storage; the rows deleted have the commit id. *)
Record published S (t : nat) tb0 tb' : Prop := {
  p_version : DataTable.version tb' = DataTable.version tb0;
  p_rows : rows (rows_of tb') = rows (rows_of tb0) ++ omap id (local S !!! t);
  p_old : forall row, (row < total_rows (rows_of tb0))%nat -> row_ids (rows_of tb') row
    = ((row_ids (rows_of tb0) row).1, if decide (row ∈ removed S !!! t) then cid else (row_ids (rows_of tb0) row).2);
  p_new : forall row, (total_rows (rows_of tb0) <= row < total_rows (rows_of tb'))%nat -> row_ids (rows_of tb') row = (cid, NOT_DELETED_ID)
}.

Record unchanged tb0 tb' : Prop := {
  u_version : DataTable.version tb' = DataTable.version tb0;
  u_rows : rows (rows_of tb') = rows (rows_of tb0);
  u_ids : forall row, (row < total_rows (rows_of tb0))%nat -> row_ids (rows_of tb') row = row_ids (rows_of tb0) row
}.

Lemma rolled_back_unchanged σ0 S txn σ es σ' t tb0 :
  running σ0 S txn σ es -> CommitOutcome.rolled_back (contents := contents) (column_start := column_start) (timestamp := timestamp) es σ σ' ->
  tables σ0 !! t = Some tb0 -> exists tb', tables σ' !! t = Some tb' /\ unchanged tb0 tb'.
Proof.
  intros [R1 R2 R3 R4 R5 R6 R7] Hb Ht. destruct (R3 t tb0 Ht) as (tb & Ht' & V & Hr & Hn & Hids).
  destruct (CommitOutcome.k_tables _ _ _ Hb t tb Ht') as (tb' & Hlook & [B1 B2 B3 B4 B5]). exists tb'. split; [done|].
  split; [congruence|congruence|]. intros row Hrow. rewrite B5, Hids by congruence. cbn [fst snd]. rewrite (R6 t tb0 row Ht).
  specialize (R5 t tb0 row Ht). destruct (row_ids (rows_of tb0) row) as [i d]. cbn [fst snd] in *. case_bool_decide as Hd.
  - by rewrite R5.
  - by rewrite decide_False.
Qed.

Lemma committed_published σ0 S txn σ es σ' t tb0 :
  running σ0 S txn σ es ->
  CommitOutcome.committed (contents := contents) (column_start := column_start) (timestamp := timestamp) MAX_ROW_ID cid txn es σ σ' ->
  tables σ0 !! t = Some tb0 -> exists tb', tables σ' !! t = Some tb' /\ published S t tb0 tb'.
Proof.
  intros [R1 R2 R3 R4 R5 R6 R7] Hc Ht. destruct (R3 t tb0 Ht) as (tb & Ht' & V & Hr & Hn & Hids).
  destruct (CommitOutcome.m_tables _ _ _ _ _ _ Hc t tb Ht') as (tb' & Hlook & [C1 C2 C3 C4 C5 C6]). exists tb'. split; [done|].
  split; [congruence| | |].
  - rewrite C3, Hr. f_equal. rewrite R7, <- LocalStorage.seen_view. unfold CommitOutcome.added, DuckTransaction.local_rows, storage_of.
    destruct (LocalStorage.GetStorage t (storage txn)) as [l|] eqn:E; [|done]. by rewrite (R2 t l E).
  - intros row Hrow. rewrite C5, Hids by congruence. cbn [fst snd]. rewrite (R6 t tb0 row Ht). case_bool_decide as Hd.
    + by rewrite !decide_True by done.
    + by rewrite !decide_False by done.
  - intros row Hrow. apply C6. by rewrite Hn.
Qed.

(** C1 Transactions do what their operations say, or nothing.  A transaction begins on a store and
    performs any sequence of inserts and deletes, each of rows of tables and of its own new rows, that
    succeed.  If the commit succeeds, then every table has the rows it had followed by the rows inserted
    and not deleted again, in order and with the commit id; the rows deleted, and no others, have
    the commit id as delete id.  If the commit reports an error, or the transaction is rolled back
    instead, all tables have the rows and version ids from before the transaction began.  Neither stops
    the database. *)
Theorem transaction_refines start σ0 ops txn σ wal :
  RowVersionManager.proper (ChunkInfo.mkTransactionData tid start) -> fresh_store σ0 ->
  runs ops (begin start tid, σ0) (txn, σ) ->
  match DuckTransaction.CommitTransaction block_size buffer_allocate FlushBlocks wal cid (txn, σ) with
  | ((_, σ'), Ok None) =>
      forall t tb0, tables σ0 !! t = Some tb0 -> exists tb', tables σ' !! t = Some tb' /\ published (spec_run ops) t tb0 tb'
  | ((_, σ'), Ok (Some _)) =>
      forall t tb0, tables σ0 !! t = Some tb0 -> exists tb', tables σ' !! t = Some tb' /\ unchanged tb0 tb'
  | (_, Throw _) => False
  end
  /\ exists txn' σ', DuckTransaction.Rollback (txn, σ) = ((txn', σ'), None)
     /\ forall t tb0, tables σ0 !! t = Some tb0 -> exists tb', tables σ' !! t = Some tb' /\ unchanged tb0 tb'.
Proof.
  intros HD Hf Hruns. destruct (runs_spec start σ0 ops (txn, σ) HD Hf Hruns) as (es & Hrun). cbn [fst snd] in Hrun.
  pose proof (r_ready _ _ _ _ _ Hrun) as Hready. split.
  - pose proof (CommitOutcome.commit_outcome block_size buffer_allocate FlushBlocks MAX_ROW_ID row_group_size tid cid
      allocate_length group_size tid_range cid_range wal txn σ es Hready) as H. unfold CommitOutcome.answer in H.
    destruct (DuckTransaction.CommitTransaction _ _ _ _ _ _) as [[txn' σ'] [[ex|]|ex]]; [| |done]; intros t tb0 Ht.
    + by eapply rolled_back_unchanged.
    + by eapply committed_published.
  - destruct (CommitOutcome.plain_rollback block_size buffer_allocate MAX_ROW_ID row_group_size tid cid
      allocate_length group_size tid_range cid_range txn σ es Hready) as ([txn' σ'] & E & Hb).
    exists txn', σ'. split; [done|]. intros t tb0 Ht. by eapply rolled_back_unchanged.
Qed.

End run.
(** ** An instance

    The table has three rows; the transaction inserts two, then deletes one old and one new row. *)

#[local] Existing Instance RowGroupCollection.list_columns.
#[local] Existing Instance RowGroupCollection.list_columns_laws.
#[local] Existing Instance TableScan.list_scan.
#[local] Existing Instance TableScan.list_scan_laws.
#[local] Existing Instance CommitOutcome.map_catalog.
#[local] Existing Instance CommitOutcome.map_catalog_laws.

Abbreviation example_collection := (nat * list nat)%type.
Abbreviation example_tid := CommitOutcome.example_tid.

Definition example_rows : RowGroupCollection.t example_collection :=
  (RowGroupCollection.append (ChunkInfo.mkTransactionData 4 3) [[10; 11; 12]]%nat RowGroupCollection.new_table).1.

Definition example_store : TransactionState.Store example_collection nat unit (gmap nat Z) :=
  TransactionState.mkStore {[1%nat := DataTable.mk example_rows DataTable.MAIN_TABLE]} ∅ ∅.

Definition example_ops : list (operation nat) := [InsertRows 1 [[20; 21]]; DeleteRows 1 [1; 100]]%nat.

Abbreviation example_state := (DuckTransaction.t example_collection * TransactionState.Store example_collection nat unit (gmap nat Z))%type.
Definition example_perform (op : operation nat) (s : example_state) : example_state * result unit :=
  perform 4096 UndoBuffer.zeros 100 STANDARD_VECTOR_SIZE op s.

Definition example_s0 : example_state := (begin 6 example_tid, example_store).
Definition example_s1 : example_state := (example_perform (InsertRows 1 [[20; 21]]%nat) example_s0).1.
Definition example_s2 : example_state := (example_perform (DeleteRows 1 [1; 100]%nat) example_s1).1.

Lemma run_example_table t tb : tables example_store !! t = Some tb -> t = 1%nat /\ tb = DataTable.mk example_rows DataTable.MAIN_TABLE.
Proof.
  unfold example_store. cbn [TransactionState.tables]. intros Ht. apply lookup_singleton_Some in Ht. destruct Ht as [H1 H2].
  split; symmetry; [exact H1|exact H2].
Qed.

Lemma example_fresh : fresh_store (contents := snd) (column_start := fst) example_tid 9 example_store.
Proof.
  assert (DataTable.table_ok (contents := snd) (column_start := fst) (RowGroupCollection.new_table : RowGroupCollection.t example_collection)) as Hok.
  { split; [apply RowGroupCollection.new_table_inv|done|vm_compute; reflexivity|done|by apply Forall_nil]. }
  destruct (DataTable.append_rows_spec (contents := snd) (column_start := fst) (ChunkInfo.mkTransactionData 4 3) [[10; 11; 12]]%nat
    (RowGroupCollection.new_table : RowGroupCollection.t example_collection) Hok) as (m & st & E & Hok' & _ & _ & _ & Hids);
    [vm_compute; reflexivity|].
  assert (example_rows = m) as Em by (unfold example_rows; by rewrite E). rewrite <- Em in Hok', Hids. split.
  - intros t tb [_ ->]%run_example_table. exact Hok'.
  - intros t tb row [_ ->]%run_example_table. cbn [DataTable.rows_of]. rewrite Hids.
    case_decide; (split; [|split]); vm_compute; discriminate.
Qed.

Lemma example_runs : runs (R := nat) 4096 UndoBuffer.zeros 100 STANDARD_VECTOR_SIZE example_ops example_s0 example_s2.
Proof.
  assert ((example_perform (InsertRows 1 [[20; 21]]%nat) example_s0).2 = Ok tt) as E1 by (vm_compute; reflexivity).
  assert ((example_perform (DeleteRows 1 [1; 100]%nat) example_s1).2 = Ok tt) as E2 by (vm_compute; reflexivity).
  assert (total_rows <$> (rows_of <$> tables example_s1.2 !! 1%nat) = Some 3%nat) as T1 by (vm_compute; reflexivity).
  assert ((fun l => total_rows (LocalStorage.row_groups l)) <$> LocalStorage.GetStorage 1 (storage example_s1.1) = Some 2%nat) as T2 by (vm_compute; reflexivity).
  apply (runs_snoc _ _ _ _ [InsertRows 1 [[20; 21]]%nat] _ _ example_s1).
  - apply (runs_snoc _ _ _ _ [] _ _ example_s0); [constructor| |].
    + exists (DataTable.mk example_rows DataTable.MAIN_TABLE). split; [reflexivity|]. split; vm_compute; reflexivity.
    + unfold example_perform in E1. rewrite <- E1. apply surjective_pairing.
  - apply Forall_cons. split; [|apply Forall_singleton]; unfold allowed_id; cbn [Nat.leb].
    + destruct (tables example_s1.2 !! 1%nat) as [tb|]; [|discriminate]. exists tb. split; [reflexivity|]. injection T1 as ->. lia.
    + destruct (LocalStorage.GetStorage 1 (storage example_s1.1)) as [l|]; [|discriminate]. exists l. split; [reflexivity|]. injection T2 as ->. lia.
  - unfold example_perform in E2. rewrite <- E2. apply surjective_pairing.
Qed.

Definition example_commit :=
  DuckTransaction.CommitTransaction 4096 UndoBuffer.zeros CommitOutcome.example_flush None 9 example_s2.

Lemma transaction_refines_witness :
  exists tb, tables example_commit.1.2 !! 1%nat = Some tb
  /\ RowGroupCollection.rows (contents := snd) (rows_of tb) = [10; 11; 12; 21]%nat
  /\ row_ids (rows_of tb) 1 = (4, 9) /\ row_ids (rows_of tb) 2 = (4, NOT_DELETED_ID).
Proof.
  assert (RowVersionManager.proper (ChunkInfo.mkTransactionData example_tid 6)) as HD
    by (split; [split; vm_compute; congruence|vm_compute; reflexivity]).
  destruct (transaction_refines (R := nat) (contents := snd) (column_start := fst) (timestamp := fun k entry => k !! entry)
    4096 UndoBuffer.zeros 100 STANDARD_VECTOR_SIZE UndoBuffer.zeros_length CommitOutcome.example_size example_tid 9
    CommitOutcome.example_tid_range CommitOutcome.example_cid_range CommitOutcome.example_flush
    6 example_store example_ops example_s2.1 example_s2.2 None HD example_fresh) as [H _].
  { rewrite <- surjective_pairing. exact example_runs. }
  rewrite <- surjective_pairing in H. fold example_commit in H.
  assert (example_commit.2 = Ok None) as Hr by (vm_compute; reflexivity).
  destruct example_commit as [[txn' σ'] r]. cbn [fst snd] in *. subst r.
  destruct (H 1%nat _ (lookup_insert_eq _ _ _)) as (tb & Ht & [_ Hrows Hold _]). exists tb. split; [exact Ht|].
  split; [rewrite Hrows; vm_compute; reflexivity|]. split.
  - rewrite Hold by (vm_compute; lia). vm_compute. reflexivity.
  - rewrite Hold by (vm_compute; lia). vm_compute. reflexivity.
Defined.

(** [VersionDeleteState::Flush] marks the rows before it pushes the undo entry.  If there is no memory for
    the entry, the rollback does not find it: the row stays marked by a transaction that is gone. *)
Lemma mark_without_entry :
  let no_memory (n : nat) : result (list Z) := Throw IOException in
  let '(s, r) := perform 4096 no_memory 100 STANDARD_VECTOR_SIZE (DeleteRows 1 [1])%nat example_s0 in
  r = Throw IOException
  /\ (fun tb => row_ids (rows_of tb) 1) <$> (tables (DuckTransaction.Rollback s).1.2 !! 1%nat) = Some (4, example_tid).
Proof. vm_compute. by split. Qed.

End TransactionRun.
